(* ===== verification/_CoqProject ===== *)
-Q . S2P
Prelude.v
Ordered.v
Sorted.v
Containers.v
Varint.v
Crc32c.v
BStream.v
Xor.v
Labels.v
Matcher.v
Record.v
Files.v
Bytes.v
Page.v
Chunks.v
Segment.v
WalFailures.v
MemSeries.v
SeriesStore.v
Query.v
Index.v
IndexWriter.v
Ulid.v
Meta.v
Names.v
Block.v
IndexSafe.v
ChunkSafe.v
BlockSafe.v
Smoke.v
BlockSelect.v
BlockIndex.v
BlockCreate.v
Head.v
HeadFailures.v
Compact.v
Flush.v
Merge.v
Pipeline.v
Stages.v
Failures.v
Querier.v
EndToEnd.v
