(* ===== verification/Prelude.v ===== *)
(** * merlion-tsdb: a verification development

    merlion-tsdb is a time-series database in C++: samples are appended to
    in-memory series, compressed with delta-of-delta and XOR coding, made
    durable by a segmented write-ahead log, and queried by label matchers. The
    files under [src/src/] and [src/include/merlion_tsdb/] are modelled here,
    component by component, as executable functions; each file of the
    development opens with the sources it models, and its definitions keep their
    names.

    ** The parts and their files

    - [Prelude]: outcomes, the reader monad, machine integers, bit strings, and
      the lemmas and tactics the components share.
    - [Ordered]: byte strings with their order, stable sort, lower bound.
    - [Sorted]: what the code uses of [std::set] and [std::map]: ascending lists
      and association lists, over any ordered type of keys.
    - [Containers]: the order in which a hash map is visited and equal elements
      are sorted, as a class with its laws; grouping by a key.
    - [Varint] (encoding/varint): LEB128 and zigzag.
    - [Crc32c] (encoding/crc32c): the checksum of the log.
    - [BStream] (encoding/bstream): [BitWriter] and [BitReader].
    - [Xor] (chunkenc/xor): [XORChunk], [XORAppender], [XORIterator].
    - [Labels], [Matcher] (model/): label sets and label matchers.
    - [Record] (wal/record): the bodies of log records.
    - [Files]: files, system calls and their script, error codes.
    - [Bytes]: big-endian integers and checked reads in a file.
    - [Page] (wal/page): framing records into pages of 32 KiB.
    - [Segment] (wal/segment_writer, wal/segment_reader): the log as a
      directory of segment files.
    - [WalFailures]: the log under failing system calls; no code.
    - [Chunks] (block/chunks): chunk segments, their writer and reader.
    - [MemSeries], [SeriesStore] (head/): one series, and the map of all.
    - [Query] (head/head, block/index): what a query returns.
    - [Index] (block/index), [IndexWriter] (block/index_writer): the index file
      of a block, read and written.
    - [Ulid] (block/ulid), [Meta] (block/meta): the name of a block and its
      [meta.json].
    - [Names] (chunkenc/encoding, encoding/error): tags and their names.
    - [Block] (block/block): creating a block from series, opening it, queries.
      [BlockSelect], [BlockIndex] and [BlockCreate] hold the proofs: queries on
      an index that denotes a list of series; the index that is built; the
      directory that is created.
    - [IndexSafe], [ChunkSafe], [BlockSafe]: blocks on arbitrary files; no code.
    - [Head] (head/head): replay, append, commit, close and select.
    - [HeadFailures]: a head under failing system calls; no code.
    - [Compact] (block/block): a block from a head, and from other blocks;
      [Flush] and [Merge] hold the proofs.
    - [Failures]: creation and compaction under failing system calls; no code.
    - [Pipeline]: the composition of flush, compaction and query; no code.
    - [Stages]: compaction in stages; no code.
    - [Querier] (querier/querier): queries over blocks and heads.
    - [EndToEnd]: the composition of flush and the querier; no code.
    - [Smoke] (smoke): the test of the toolchain.

    A file has a module with the definitions that model the code, one or more
    [...Facts] modules with the lemmas, and a [...Props] module with the
    properties; a property is a few lines over the lemmas and no lemma depends
    on a property. The components are stacked as in the code: [Head] calls
    [SeriesStore], [MemSeries], [Record] and [Segment]; [Segment] calls [Page];
    [Page] calls [Crc32c]; [MemSeries] calls [Xor], which calls [BStream] and
    [Varint]. [Block] calls [Chunks], [IndexWriter], [Index], [Meta] and [Ulid];
    [Compact] calls [Block], [Head] and [MemSeries]; [Querier] calls [Block] and
    [Head].

    ** How the code is represented

    - A byte is a [Z] in [0, 256), a buffer a [list Z]; [std::string] is a byte
      list compared as unsigned bytes. Integers are [Z] with the wrap-around of
      their width written out ([u8], [u16], [u64], [i64]); a signed operation
      that may overflow goes through [i64_add] and [i64_sub], which are [None]
      on overflow. A [double] is its 64-bit pattern: the code only copies it
      and combines its bits.
    - [std::expected] is [outcome]: [Ok], [Err], or [UB] for undefined behaviour
      and for exceptions nothing catches. Functions without an error result
      that may be undefined return an [option].
    - An object is a record, a method a function from the record to the record;
      methods that can fail after changing the object are in the monad [rd],
      whose result carries the state also with an error.
    - A pointer to a series is the slot that owns it ([SeriesStore]); the
      appender that points into the last chunk of a series is updated together
      with that chunk ([MemSeries]).
    - The file system is a map from file names to bytes; system calls are
      answered by a script that can fail each of them, write short, or
      interrupt ([Files.World]). The tail of a script is all success. The
      directories of blocks are a [Block.Disk]: by name, the files and the chunk
      segments of each. Opening a file for reading and reading it are not
      scripted: they succeed on what exists, and a log directory without files
      is taken to be missing. Opening a block is not scripted at all.
    - [std::regex] is the class [RegexEngine]; what its patterns match is not
      assumed anywhere. The JSON library is the class [Meta.Json]; its laws,
      [Meta.JsonLaws], say that fields that are set are found, that getters
      return what was put in, and that parsing a dumped document gives an
      equivalent one; [Meta.TreeJson] is a library that keeps them.
    - The clock and the random device are inputs of [Ulid.new_ulid].

    ** Loops and fuel

    A loop that is not structural takes fuel: ten bytes for a varint, the bytes
    left in the input for the decoders and readers, 65536 calls for iterating
    a chunk, the segments left for the segment reader, the length of the body
    plus two for framing, the answers left in the script plus two for
    [write_all]. Where fuel runs out the result is one that no theorem accepts. That
    a loop ends is shown of its rounds: [Prelude.loops_to] says that the loop
    itself, without fuel, is left after so many rounds with that result, and the
    fuelled definition returns it with any fuel above that number.

    ** What is proved

    - Encodings: every encoder is inverted by its decoder, and on truncated or
      arbitrary input the decoders stop with a documented error, except where
      the code is undefined, which is stated.
    - Checksums: the table-driven CRC is the bitwise one and detects every error
      within four bytes.
    - Chunks and series: appended samples are read back bit for bit, through
      every chunk a series cuts; appending keeps every field at its machine width
      and is undefined only where a timestamp difference overflows; a series is
      the list of its accepted samples.
    - The log: a writing session appends its records to the log through all
      rollovers, a crash keeps all closed segments and a prefix of the one being
      written, and reading any directory terminates. A segment exceeds its size
      by a byte at most, before it is padded to whole pages, unless it holds one
      record.
    - The store and the head: references and labels determine each other; the
      head is a map from label sets to samples; a commit is durable and what
      was not committed is absent after a crash; closing and reopening rebuilds
      the store exactly; a query returns exactly the samples asked for, chunk
      by chunk.
    - Blocks: chunk files, the index and [meta.json] read back as they were
      written; [BlockSelect.denotes] is the abstract index, a list of series, and
      every matcher selects from it what its predicate accepts; a block made
      from series answers queries as a filter of the input does
      ([BlockCreate.block_holds] is the contract the clients use).
    - Hostile blocks: whatever lengths, counts, references and offsets the files
      hold, opening and querying a block stays inside them and ends ([IndexSafe],
      [ChunkSafe], [BlockSafe]), except for lengths and offsets of 2^62 and more
      at the positions that are read, and for sums of times or references that
      overflow ([BlockSafeFacts.bounded_dir]).
    - End to end: heads flushed to blocks, compacted into one and queried give
      back, for every label set and timestamp, the last sample appended
      ([Pipeline]); a querier over flushed blocks and live heads answers every
      query of a sequence with exactly the samples the heads were given
      ([EndToEnd]).
    - Composition: a block flushed from a head answers as the head; compaction
      merges the series of its inputs, the last value of a timestamp winning, and
      in stages it comes to the same block ([Stages]);
      the querier returns the chunks of all its sources, once per label set.
    - Failures: whatever the system calls answer, the log on disk reads as the
      records that were acknowledged, up to the first error; a head that is opened,
      appended to and committed leaves the last series it acknowledged, and a
      commit that fails all of its samples, none, or a log that is refused; a part
      of a block is never taken for a block, and a compaction leaves its inputs as
      they were.
    - Behaviours at the edges: evaluated examples of inputs on which the code
      loses data, rejects its own output or is undefined.

    ** Hypotheses

    The round trips of the log exclude a record that starts with exactly seven
    bytes left in its page ([PageFacts.logs_ok]; the code writes a log there
    that it cannot read, see [PageProps.seven_bytes_left]), timestamps whose
    differences overflow, and more than 10^8 segments. They are decidable
    conditions on the input, evaluated in the witnesses. Blocks take nonempty
    label sets without zero bytes in names and without empty values (others are
    stored but not found, see [BlockProps.empty_value_missed] and
    [BlockProps.no_labels_missed]), times whose differences fit 64 bits, an index
    below 4 GiB, bounded by [BlockCreateFacts.series_input_room], and fewer than
    10^6 chunk segments. The round trips of blocks are about disks where no
    call fails; [Failures] is about all others.

    ** Not modelled

    Every source file has a model. Failures while a file is opened for reading
    or read, and while a block is opened, are not modelled; neither are
    exceptions for want of memory, nor concurrent use, which the code excludes.
    Moves and destructors are modelled where they have effects (the writers and
    the head).

    This file: outcomes of C++ code, machine integers, byte and bit lists, and
    the automation the components use. *)

From Stdlib Require Export ZArith Lia ZifyBool.
From stdpp Require Export sorting gmap.

#[global] Open Scope Z_scope.
#[global] Set Default Goal Selector "!".

(** * Outcomes

    A call of the modelled code returns a value ([Ok]), an error of its
    [std::expected] type ([Err]), or has no defined result ([UB]): it reaches
    a point where the C++ standard leaves the behaviour undefined (a shift by
    64 or more, an access past the end of a span, a signed overflow) or throws
    an exception that no caller catches. *)

Inductive outcome (E A : Type) : Type :=
| Ok (a : A)
| Err (e : E)
| UB.
Arguments Ok {E A} a.
Arguments Err {E A} e.
Arguments UB {E A}.

#[export] Instance outcome_ret E : MRet (outcome E) := fun A a => Ok a.
#[export] Instance outcome_bind E : MBind (outcome E) := fun A B f m =>
  match m with
  | Ok a => f a
  | Err e => Err e
  | UB => UB
  end.

(** [of_option] reads an operation that has no error but may be undefined
    ([None]) as an outcome. *)
Definition of_option {E A} (o : option A) : outcome E A :=
  match o with Some a => Ok a | None => UB end.

(** Stateful code that returns an [std::expected]: the state is updated also
    on the error paths, as the members of the C++ object are. *)
Definition rd (S E A : Type) : Type := S → outcome E A * S.

Definition rret {S E A} (a : A) : rd S E A := λ s, (Ok a, s).
Definition rfail {S E A} (e : E) : rd S E A := λ s, (Err e, s).
Definition rundef {S E A} : rd S E A := λ s, (UB, s).
Definition rbind {S E A B} (m : rd S E A) (f : A → rd S E B) : rd S E B := λ s,
  match m s with
  | (Ok a, s') => f a s'
  | (Err e, s') => (Err e, s')
  | (UB, s') => (UB, s')
  end.

Declare Scope merlion_scope.
Delimit Scope merlion_scope with merlion.
#[global] Open Scope merlion_scope.

Notation "x <~ m ;; k" := (rbind m (λ x, k))
  (at level 100, m at next level, right associativity) : merlion_scope.

Lemma rbind_ok {S E A B} (m : rd S E A) (f : A → rd S E B) s a s' :
  m s = (Ok a, s') → rbind m f s = f a s'.
Proof. unfold rbind. by intros ->. Qed.

Lemma rbind_inv {S E A B} (m : rd S E A) (k : A → rd S E B) s b s' :
  rbind m k s = (Ok b, s') → ∃ a s1, m s = (Ok a, s1) ∧ k a s1 = (Ok b, s').
Proof. unfold rbind. destruct (m s) as [[a|e|] s1]; [|done..]. by exists a, s1. Qed.

(** * Machine integers *)

Definition u8 (x : Z) : Z := x mod 2 ^ 8.
Definition u16 (x : Z) : Z := x mod 2 ^ 16.
Definition u32 (x : Z) : Z := x mod 2 ^ 32.
Definition u64 (x : Z) : Z := x mod 2 ^ 64.

(** Conversion of a 64-bit pattern to [std::int64_t] (two's complement). *)
Definition i64 (x : Z) : Z := (x + 2 ^ 63) mod 2 ^ 64 - 2 ^ 63.

Definition is_i64 (x : Z) : bool := (- 2 ^ 63 <=? x) && (x <? 2 ^ 63).
Definition is_u64 (x : Z) : bool := (0 <=? x) && (x <? 2 ^ 64).

(** Signed arithmetic of C++: undefined when the result does not fit. *)
Definition i64_checked (x : Z) : option Z := if is_i64 x then Some x else None.
Definition i64_add (a b : Z) : option Z := i64_checked (a + b).
Definition i64_sub (a b : Z) : option Z := i64_checked (a - b).

Definition is_byte (b : Z) : bool := (0 <=? b) && (b <? 256).
Definition bytes_ok (l : list Z) : Prop := Forall (λ b, is_byte b = true) l.

(** * Automation *)

Create HintDb merlion.

(** Unfold the width predicates in every hypothesis and call [lia]. *)
Ltac width :=
  unfold u8, u16, u32, u64, i64, is_i64, is_u64, is_byte in *; lia.

(** Case analysis on the scrutinee of a [match] or [if] of the goal. *)
Ltac split_match :=
  match goal with
  | |- context [match ?x with _ => _ end] => destruct x eqn:?
  end.

Lemma u64_small x : is_u64 x = true → u64 x = x.
Proof. intros. unfold u64. apply Z.mod_small. width. Qed.

Lemma u64_range x : is_u64 (u64 x) = true.
Proof. pose proof (Z.mod_pos_bound x (2 ^ 64) eq_refl). width. Qed.

Lemma u8_range x : is_byte (u8 x) = true.
Proof. pose proof (Z.mod_pos_bound x (2 ^ 8) eq_refl). width. Qed.

Lemma u8_small x : is_byte x = true → u8 x = x.
Proof. intros. unfold u8. apply Z.mod_small. width. Qed.

Lemma i64_range x : is_i64 (i64 x) = true.
Proof. pose proof (Z.mod_pos_bound (x + 2 ^ 63) (2 ^ 64) eq_refl). width. Qed.

Lemma i64_small x : is_i64 x = true → i64 x = x.
Proof. intros. unfold i64. rewrite Z.mod_small; width. Qed.

Lemma i64_u64 x : i64 (u64 x) = i64 x.
Proof. unfold i64, u64. by rewrite Zplus_mod_idemp_l. Qed.

Lemma u64_i64 x : u64 (i64 x) = u64 x.
Proof.
  unfold i64, u64. rewrite Zminus_mod_idemp_l. f_equal. lia.
Qed.

Lemma i64_add_Some a b c : i64_add a b = Some c ↔ c = a + b ∧ is_i64 c = true.
Proof.
  unfold i64_add, i64_checked. destruct (is_i64 (a + b)) eqn:E; split.
  - intros [= <-]; auto.
  - by intros [-> _].
  - done.
  - intros [-> ?]. congruence.
Qed.

Lemma i64_sub_Some a b c : i64_sub a b = Some c ↔ c = a - b ∧ is_i64 c = true.
Proof. apply (i64_add_Some a (- b)). Qed.


(** * Bitwise operations as arithmetic *)

Lemma testbit_above x n i : 0 <= x < 2 ^ n → n <= i → Z.testbit x i = false.
Proof.
  intros Hx Hi. destruct (decide (n < 0)) as [|].
  { rewrite Z.pow_neg_r in Hx by lia. lia. }
  rewrite <- (Z.mod_small x (2 ^ n)) by done. apply Z.mod_pow2_bits_high. lia.
Qed.

Lemma land_shiftl_disjoint x y n :
  0 <= n → 0 <= x < 2 ^ n → Z.land x (Z.shiftl y n) = 0.
Proof.
  intros Hn Hx. apply Z.bits_inj'. intros i Hi.
  rewrite Z.land_spec, Z.bits_0, Z.shiftl_spec by done.
  destruct (decide (i < n)).
  - rewrite (Z.testbit_neg_r y) by lia. apply andb_false_r.
  - by rewrite (testbit_above x n) by lia.
Qed.

Lemma lor_shiftl_add x y n :
  0 <= n → 0 <= x < 2 ^ n → Z.lor x (Z.shiftl y n) = x + y * 2 ^ n.
Proof.
  intros Hn Hx. rewrite <- Z.shiftl_mul_pow2 by done.
  rewrite <- (Z.add_lor_land x), land_shiftl_disjoint by done. lia.
Qed.

Lemma land_ones_mod x n : 0 <= n → Z.land x (2 ^ n - 1) = x mod 2 ^ n.
Proof. intros. rewrite <- Z.land_ones by done. f_equal. rewrite Z.ones_equiv. lia. Qed.

Lemma testbit_u8_shiftr x k j :
  0 <= k → 0 <= j → Z.testbit (u8 (Z.shiftr x k)) j = (j <? 8) && Z.testbit x (j + k).
Proof.
  intros. unfold u8. destruct (Z.ltb_spec j 8).
  - by rewrite Z.mod_pow2_bits_low, Z.shiftr_spec by lia.
  - by rewrite Z.mod_pow2_bits_high by lia.
Qed.

Lemma lt_pow2_bits x n :
  0 <= n → 0 <= x → (∀ i, n <= i → Z.testbit x i = false) → x < 2 ^ n.
Proof.
  intros Hn Hx Hbits. enough (x mod 2 ^ n = x) as <- by (apply Z.mod_pos_bound; lia).
  apply Z.bits_inj'. intros i Hi. destruct (decide (i < n)).
  - by rewrite Z.mod_pow2_bits_low.
  - by rewrite Z.mod_pow2_bits_high, Hbits by lia.
Qed.

Lemma lor_pow2 x y n :
  0 <= n → 0 <= x < 2 ^ n → 0 <= y < 2 ^ n → 0 <= Z.lor x y < 2 ^ n.
Proof.
  intros. assert (0 <= Z.lor x y) by (apply Z.lor_nonneg; lia). split; [done|].
  apply lt_pow2_bits; [done..|]. intros i Hi.
  by rewrite Z.lor_spec, !(testbit_above _ n) by lia.
Qed.

Lemma lxor_pow2 x y n :
  0 <= n → 0 <= x < 2 ^ n → 0 <= y < 2 ^ n → 0 <= Z.lxor x y < 2 ^ n.
Proof.
  intros. assert (0 <= Z.lxor x y) by (apply Z.lxor_nonneg; lia). split; [done|].
  apply lt_pow2_bits; [done..|]. intros i Hi.
  by rewrite Z.lxor_spec, !(testbit_above _ n) by lia.
Qed.

Lemma lor_u64 x y : is_u64 x = true → is_u64 y = true → is_u64 (Z.lor x y) = true.
Proof. intros. pose proof (lor_pow2 x y 64). width. Qed.

Lemma lxor_u64 x y : is_u64 x = true → is_u64 y = true → is_u64 (Z.lxor x y) = true.
Proof. intros. pose proof (lxor_pow2 x y 64). width. Qed.

#[export] Hint Resolve u64_range u8_range i64_range lor_u64 lxor_u64 : merlion.

(** * Big-endian integers *)

(** [read_be l] is the big-endian value of the bytes [l]; the readers of the
    code spell it out byte by byte. *)
Fixpoint read_be (acc : Z) (l : list Z) : Z :=
  match l with
  | [] => acc
  | b :: l => read_be (acc * 256 + b) l
  end.

(** The [n] big-endian bytes of [x]. *)
Fixpoint be_bytes (n : nat) (x : Z) : list Z :=
  match n with
  | O => []
  | S n => u8 (Z.shiftr x (8 * Z.of_nat n)) :: be_bytes n x
  end.

Lemma length_be_bytes n x : length (be_bytes n x) = n.
Proof. induction n; simpl; congruence. Qed.

Lemma be_bytes_ok n x : bytes_ok (be_bytes n x).
Proof. induction n; constructor; auto with merlion. Qed.

Lemma read_be_be_bytes n x acc :
  read_be acc (be_bytes n x) = acc * 2 ^ (8 * Z.of_nat n) + x mod 2 ^ (8 * Z.of_nat n).
Proof.
  revert acc. induction n as [|n IH]; intros acc; simpl be_bytes; simpl read_be.
  - rewrite Z.mod_1_r. simpl. lia.
  - rewrite IH. unfold u8. rewrite Z.shiftr_div_pow2 by lia.
    replace (8 * Z.of_nat (S n)) with (8 + 8 * Z.of_nat n) by lia.
    rewrite Z.pow_add_r, (Z.mul_comm (2 ^ 8)), Z.rem_mul_r by lia. lia.
Qed.

#[export] Hint Resolve be_bytes_ok : merlion.

(** The readers of the code, [(b0 << 56) | (b1 << 48) | ...] and
    [(b0 << 24) | ... | b3], on the bytes of [l] from [off] on. *)
Definition be64_at (l : list Z) (off : nat) : Z :=
  let b i := nth (off + i) l 0 in
  Z.lor (Z.lor (Z.lor (Z.lor (Z.lor (Z.lor (Z.lor
    (Z.shiftl (b 0%nat) 56) (Z.shiftl (b 1%nat) 48)) (Z.shiftl (b 2%nat) 40))
    (Z.shiftl (b 3%nat) 32)) (Z.shiftl (b 4%nat) 24)) (Z.shiftl (b 5%nat) 16))
    (Z.shiftl (b 6%nat) 8)) (b 7%nat).

Definition be32_at (l : list Z) (off : nat) : Z :=
  let b i := nth (off + i) l 0 in
  Z.lor (Z.lor (Z.lor (Z.shiftl (b 0%nat) 24) (Z.shiftl (b 1%nat) 16)) (Z.shiftl (b 2%nat) 8)) (b 3%nat).

(** * Bits, most significant first *)

(** The [n] low bits of [u], most significant first. *)
Fixpoint zbits (n : nat) (u : Z) : list bool :=
  match n with
  | O => []
  | S n => Z.testbit u (Z.of_nat n) :: zbits n u
  end.

Fixpoint bits_val_acc (acc : Z) (l : list bool) : Z :=
  match l with
  | [] => acc
  | b :: l => bits_val_acc (2 * acc + Z.b2z b) l
  end.

(** The number a list of bits denotes. *)
Definition bits_val (l : list bool) : Z := bits_val_acc 0 l.

Lemma length_zbits n u : length (zbits n u) = n.
Proof. induction n; simpl; congruence. Qed.

Lemma bits_val_acc_eq acc l :
  bits_val_acc acc l = acc * 2 ^ Z.of_nat (length l) + bits_val l.
Proof.
  unfold bits_val. revert acc. induction l as [|b l IH]; intros acc; simpl length.
  - cbn. lia.
  - cbn [bits_val_acc].
    rewrite IH, (IH (2 * 0 + _)), Nat2Z.inj_succ, Z.pow_succ_r by lia. lia.
Qed.

Lemma bits_val_cons b l :
  bits_val (b :: l) = Z.b2z b * 2 ^ Z.of_nat (length l) + bits_val l.
Proof. unfold bits_val at 1. cbn [bits_val_acc]. rewrite bits_val_acc_eq. lia. Qed.

Lemma bits_val_app l1 l2 :
  bits_val (l1 ++ l2) = bits_val l1 * 2 ^ Z.of_nat (length l2) + bits_val l2.
Proof.
  induction l1 as [|b l1 IH]; [done|].
  simpl. rewrite !bits_val_cons, IH, length_app, Nat2Z.inj_add, Z.pow_add_r by lia. lia.
Qed.

Lemma bits_val_range l : 0 <= bits_val l < 2 ^ Z.of_nat (length l).
Proof.
  induction l as [|b l IH]; [done|].
  rewrite bits_val_cons. simpl length.
  rewrite Nat2Z.inj_succ, Z.pow_succ_r by lia. destruct b; simpl; lia.
Qed.

Lemma bits_val_zbits n u : bits_val (zbits n u) = u mod 2 ^ Z.of_nat n.
Proof.
  induction n as [|n IH]; [by rewrite Z.mod_1_r|].
  simpl zbits. rewrite bits_val_cons, IH, length_zbits.
  rewrite Nat2Z.inj_succ, Z.pow_succ_r by lia.
  rewrite (Z.mul_comm 2), Z.rem_mul_r, Z.testbit_spec' by lia. lia.
Qed.

Lemma zbits_ext n u v :
  (∀ i, 0 <= i < Z.of_nat n → Z.testbit u i = Z.testbit v i) → zbits n u = zbits n v.
Proof. induction n; intros H; simpl; [done|]. f_equal; [|apply IHn]; intros; apply H; lia. Qed.

Lemma zbits_mod n u : zbits n (u mod 2 ^ Z.of_nat n) = zbits n u.
Proof. apply zbits_ext. intros. apply Z.mod_pow2_bits_low. lia. Qed.

Lemma zbits_app n m u : zbits (n + m) u = zbits n (Z.shiftr u (Z.of_nat m)) ++ zbits m u.
Proof.
  induction n as [|n IH]; simpl; [done|]. rewrite IH. f_equal.
  rewrite Z.shiftr_spec by lia. f_equal. lia.
Qed.

Lemma zbits_bits_val l : zbits (length l) (bits_val l) = l.
Proof.
  induction l as [|b l IH]; [done|].
  rewrite bits_val_cons. simpl. pose proof (bits_val_range l).
  f_equal.
  - rewrite Z.add_comm, Z.testbit_eqb by lia.
    rewrite Z.div_add, Z.div_small by lia. by destruct b.
  - etransitivity; [|exact IH]. rewrite <- (zbits_mod _ (_ + _)).
    rewrite (Z.add_comm _ (bits_val l)), Z_mod_plus_full, Z.mod_small by lia. done.
Qed.

Lemma zbits_inj n u v :
  0 <= u < 2 ^ Z.of_nat n → 0 <= v < 2 ^ Z.of_nat n → zbits n u = zbits n v → u = v.
Proof.
  intros Hu Hv Heq. apply (f_equal bits_val) in Heq.
  by rewrite !bits_val_zbits, !Z.mod_small in Heq.
Qed.

(** The bits of a byte sequence. *)
Definition stream_bits (l : list Z) : list bool := l ≫= zbits 8.

Lemma stream_bits_app l k : stream_bits (l ++ k) = stream_bits l ++ stream_bits k.
Proof. apply bind_app. Qed.

Lemma length_stream_bits l : length (stream_bits l) = (8 * length l)%nat.
Proof.
  unfold stream_bits. induction l as [|b l IH]; [done|].
  rewrite bind_cons, length_app, IH, length_zbits. simpl. lia.
Qed.

(** ** Bytes and bits *)

Lemma lor_shiftl_byte acc b n :
  0 <= n → is_byte b = true →
  Z.lor (Z.shiftl acc (8 + n)) (Z.shiftl b n) = Z.shiftl (acc * 256 + b) n.
Proof.
  intros Hn Hb. rewrite <- Z.shiftl_shiftl, <- Z.shiftl_lor by lia. f_equal.
  rewrite Z.lor_comm, lor_shiftl_add by width. change (2 ^ 8) with 256. lia.
Qed.

Lemma read_be_acc acc l : read_be acc l = acc * 2 ^ (8 * Z.of_nat (length l)) + read_be 0 l.
Proof.
  revert acc. induction l as [|b l IH]; intros acc; cbn [read_be length].
  - change (2 ^ _) with 1. lia.
  - rewrite IH, (IH (0 * 256 + b)), Nat2Z.inj_succ, Z.mul_succ_r, Z.pow_add_r by lia. lia.
Qed.

Lemma read_be_range l : bytes_ok l → 0 <= read_be 0 l < 2 ^ (8 * Z.of_nat (length l)).
Proof.
  induction 1 as [|b l Hb Hl IH]; [done|]. cbn [read_be length].
  rewrite read_be_acc, Nat2Z.inj_succ, Z.mul_succ_r, Z.pow_add_r by lia.
  assert (0 <= b < 256) by width. nia.
Qed.

Lemma read_be_app acc l k : read_be acc (l ++ k) = read_be (read_be acc l) k.
Proof. revert acc. induction l; intros; simpl; auto. Qed.

Lemma zbits_read_be l : bytes_ok l → zbits (8 * length l) (read_be 0 l) = stream_bits l.
Proof.
  induction 1 as [|b l Hb Hl IH]; [done|].
  change (stream_bits (b :: l)) with (zbits 8 b ++ stream_bits l).
  cbn [length read_be]. rewrite read_be_acc. replace (8 * S (length l))%nat with (8 + 8 * length l)%nat by lia.
  pose proof (read_be_range l Hl).
  assert (Z.of_nat (8 * length l) = 8 * Z.of_nat (length l)) as Hn by lia.
  rewrite zbits_app, Hn. f_equal.
  - apply zbits_ext. intros i Hi. f_equal. rewrite Z.shiftr_div_pow2 by lia.
    rewrite Z.add_comm, Z.div_add, Z.div_small by lia. lia.
  - rewrite <- IH, <- (zbits_mod _ (_ + _)), Hn.
    by rewrite Z.add_comm, Z_mod_plus_full, Z.mod_small by lia.
Qed.

Lemma nth_drop_take (l : list Z) off n i : (i < n)%nat → nth (off + i) l 0 = nth i (take n (drop off l)) 0.
Proof.
  intros Hi. by rewrite !nth_lookup, lookup_take_lt, lookup_drop by done.
Qed.

Lemma be32_at_read_be l off :
  bytes_ok l → (off + 4 <= length l)%nat → be32_at l off = read_be 0 (take 4 (drop off l)).
Proof.
  intros Hok Hlen. unfold be32_at.
  assert (length (take 4 (drop off l)) = 4%nat) as Hn by (rewrite length_take, length_drop; lia).
  assert (bytes_ok (take 4 (drop off l))) as Hok' by by apply Forall_take, Forall_drop.
  rewrite !(nth_drop_take l off 4) by lia. destruct (take 4 (drop off l)) as [|b0 [|b1 [|b2 [|b3 [|]]]]]; try done.
  unfold bytes_ok in Hok'. rewrite !Forall_cons_iff in Hok'. destruct Hok' as (? & ? & ? & ? & _).
  cbn [nth read_be]. rewrite <- (Z.shiftl_0_r b3) at 1. rewrite <- (Z.shiftl_0_r (_ * 256 + b3)).
  by rewrite <- (lor_shiftl_byte _ b3 0), <- (lor_shiftl_byte _ b2 8), <- (lor_shiftl_byte _ b1 16) by (done || lia).
Qed.

Lemma be64_at_read_be l off :
  bytes_ok l → (off + 8 <= length l)%nat → be64_at l off = read_be 0 (take 8 (drop off l)).
Proof.
  intros Hok Hlen. unfold be64_at.
  assert (length (take 8 (drop off l)) = 8%nat) as Hn by (rewrite length_take, length_drop; lia).
  assert (bytes_ok (take 8 (drop off l))) as Hok' by by apply Forall_take, Forall_drop.
  rewrite !(nth_drop_take l off 8) by lia.
  destruct (take 8 (drop off l)) as [|b0 [|b1 [|b2 [|b3 [|b4 [|b5 [|b6 [|b7 [|]]]]]]]]]; try done.
  unfold bytes_ok in Hok'. rewrite !Forall_cons_iff in Hok'. destruct Hok' as (? & ? & ? & ? & ? & ? & ? & ? & _).
  cbn [nth read_be]. rewrite <- (Z.shiftl_0_r b7) at 1. rewrite <- (Z.shiftl_0_r (_ * 256 + b7)).
  by rewrite <- (lor_shiftl_byte _ b7 0), <- (lor_shiftl_byte _ b6 8), <- (lor_shiftl_byte _ b5 16),
    <- (lor_shiftl_byte _ b4 24), <- (lor_shiftl_byte _ b3 32), <- (lor_shiftl_byte _ b2 40),
    <- (lor_shiftl_byte _ b1 48) by (done || lia).
Qed.

Lemma be64_at_bytes pre post x :
  bytes_ok pre → bytes_ok post → is_u64 x = true →
  be64_at (pre ++ be_bytes 8 x ++ post) (length pre) = x.
Proof.
  intros Hpre Hpost Hx. rewrite be64_at_read_be.
  - rewrite drop_app_length, take_app_length', read_be_be_bytes by by rewrite length_be_bytes.
    rewrite Z.mod_small by (change (8 * Z.of_nat 8) with 64; width). lia.
  - apply Forall_app_2, Forall_app_2; [done|apply be_bytes_ok|done].
  - rewrite !length_app, length_be_bytes. lia.
Qed.

(** ** Splitting a number at a bit position *)

Lemma stream_bits_cons b l : stream_bits (b :: l) = zbits 8 b ++ stream_bits l.
Proof. apply bind_cons. Qed.

Lemma stream_bits_snoc l b : stream_bits (l ++ [b]) = stream_bits l ++ zbits 8 b.
Proof. by rewrite stream_bits_app. Qed.

(** If the low [m] bits of [x] are clear, adding [y < 2^m] sets them to [y]. *)
Lemma zbits_lor_low xs m x y :
  0 <= y < 2 ^ Z.of_nat m →
  zbits (length xs + m) x = xs ++ replicate m false →
  zbits (length xs + m) (Z.lor x y) = xs ++ zbits m y.
Proof.
  intros Hy Hx. rewrite zbits_app in Hx.
  apply app_inj_1 in Hx as [Hhi Hlo]; [|apply length_zbits].
  rewrite zbits_app. f_equal.
  - etransitivity; [|exact Hhi]. apply zbits_ext. intros i Hi.
    rewrite !Z.shiftr_spec, Z.lor_spec, (testbit_above y (Z.of_nat m)) by lia.
    apply orb_false_r.
  - apply zbits_ext. intros i Hi. rewrite Z.lor_spec.
    enough (Z.testbit x i = false) as -> by done.
    clear - Hlo Hi. revert i Hi. induction m as [|m IH]; intros i Hi; [lia|].
    simpl in Hlo. injection Hlo as Hb Hlo.
    destruct (decide (i = Z.of_nat m)) as [->|]; [done|]. apply IH; [done|lia].
Qed.

Lemma zbits_0 n : zbits n 0 = replicate n false.
Proof. induction n; simpl; [done|]. by rewrite Z.bits_0, IHn. Qed.

Lemma zbits_pow2 n : zbits (S n) (2 ^ Z.of_nat n) = true :: replicate n false.
Proof.
  simpl. rewrite Z.pow2_bits_true by lia. f_equal. rewrite <- zbits_0.
  apply zbits_ext. intros i Hi. by rewrite Z.pow2_bits_false, Z.bits_0 by lia.
Qed.

Lemma zbits_shiftl n m u : zbits (n + m) (Z.shiftl u (Z.of_nat m)) = zbits n u ++ replicate m false.
Proof.
  rewrite zbits_app. f_equal.
  - apply zbits_ext. intros. rewrite Z.shiftr_spec, Z.shiftl_spec by lia. f_equal. lia.
  - rewrite <- zbits_0. apply zbits_ext. intros.
    rewrite Z.shiftl_spec, Z.testbit_neg_r, Z.bits_0 by lia. done.
Qed.

Lemma zbits_u8 n u : (n <= 8)%nat → zbits n (u8 u) = zbits n u.
Proof. intros. apply zbits_ext. intros. apply Z.mod_pow2_bits_low. lia. Qed.

Lemma zbits_u64 n u : (n <= 64)%nat → zbits n (u64 u) = zbits n u.
Proof. intros. apply zbits_ext. intros. apply Z.mod_pow2_bits_low. lia. Qed.

(** The [n] high bits of a 64-bit number. *)
Definition top_bits (n : nat) (u : Z) : list bool := zbits n (Z.shiftr u (64 - Z.of_nat n)).

Lemma top_bits_app n m u :
  (n + m <= 64)%nat →
  top_bits (n + m) u = zbits n (Z.shiftr u (64 - Z.of_nat n)) ++ top_bits m (u64 (Z.shiftl u (Z.of_nat n))).
Proof.
  intros Hn. unfold top_bits. rewrite zbits_app. f_equal.
  - apply zbits_ext. intros. rewrite !Z.shiftr_spec by lia. f_equal. lia.
  - apply zbits_ext. intros. rewrite !Z.shiftr_spec by lia. unfold u64.
    rewrite Z.mod_pow2_bits_low, Z.shiftl_spec by lia. f_equal. lia.
Qed.

Lemma top_bits_u64_shiftl n u :
  (n <= 64)%nat → top_bits n (u64 (Z.shiftl u (64 - Z.of_nat n))) = zbits n u.
Proof.
  intros Hn. unfold top_bits, u64. apply zbits_ext. intros.
  rewrite Z.shiftr_spec, Z.mod_pow2_bits_low, Z.shiftl_spec by lia. f_equal. lia.
Qed.

#[global] Arguments zbits : simpl never.
#[global] Arguments stream_bits : simpl never.
#[global] Arguments top_bits : simpl never.
#[global] Arguments Nat.div : simpl never.
#[global] Arguments Nat.modulo : simpl never.

(** * Sums *)

Definition zsum {A} (f : A → Z) (l : list A) : Z := foldr (λ x acc, f x + acc) 0 l.

Lemma zsum_cons {A} (f : A → Z) x l : zsum f (x :: l) = f x + zsum f l.
Proof. done. Qed.

Lemma zsum_app {A} (f : A → Z) l k : zsum f (l ++ k) = zsum f l + zsum f k.
Proof. induction l as [|x l IH]; [done|]. cbn [app]. rewrite !zsum_cons, IH. lia. Qed.

Lemma zsum_nonneg {A} (f : A → Z) l : (∀ x, x ∈ l → 0 <= f x) → 0 <= zsum f l.
Proof.
  induction l as [|x l IH]; intros Hf; [done|]. rewrite zsum_cons. pose proof (Hf x ltac:(left)).
  specialize (IH (λ y Hy, Hf y (list_elem_of_further _ _ _ Hy))). lia.
Qed.

Lemma zsum_le {A} (f g : A → Z) l : (∀ x, x ∈ l → f x <= g x) → zsum f l <= zsum g l.
Proof.
  induction l as [|x l IH]; intros Hf; [done|]. rewrite !zsum_cons. pose proof (Hf x ltac:(left)).
  specialize (IH (λ y Hy, Hf y (list_elem_of_further _ _ _ Hy))). lia.
Qed.

Lemma zsum_fmap {A B} (f : B → Z) (g : A → B) l : zsum f (g <$> l) = zsum (λ x, f (g x)) l.
Proof. induction l as [|x l IH]; [done|]. cbn [fmap list_fmap]. by rewrite !zsum_cons, IH. Qed.

Lemma zsum_elem {A} (f : A → Z) x l : (∀ y, 0 <= f y) → x ∈ l → f x <= zsum f l.
Proof.
  intros Hf [l1 [l2 ->]]%list_elem_of_split. rewrite zsum_app, zsum_cons.
  pose proof (zsum_nonneg f l1 (λ y _, Hf y)). pose proof (zsum_nonneg f l2 (λ y _, Hf y)). lia.
Qed.

Lemma filter_ext_in {A} (P Q : A → Prop) `{!∀ x, Decision (P x), !∀ x, Decision (Q x)} (l : list A) :
  (∀ x, x ∈ l → (P x ↔ Q x)) → filter P l = filter Q l.
Proof.
  induction l as [|x l IH]; intros HPQ; [done|]. rewrite !filter_cons, IH by (intros y Hy; apply HPQ; by right).
  apply decide_ext, HPQ. left.
Qed.

(** ** Filters and sublists *)

Lemma filter_none {A} (P : A → Prop) `{∀ x, Decision (P x)} l : Forall (λ x, ¬ P x) l → filter P l = [].
Proof. induction 1 as [|x l Hx _ IH]; [done|]. by rewrite filter_cons, decide_False. Qed.

Lemma filter_unique {A B} `{EqDecision B} (f : A → B) l x :
  NoDup (f <$> l) → x ∈ l → filter (λ y, f y = f x) l = [x].
Proof.
  induction l as [|y l IH]; [by intros _ ?%elem_of_nil|]. rewrite fmap_cons. intros [Hy Hl]%NoDup_cons [->|Hx]%elem_of_cons; rewrite filter_cons.
  - rewrite decide_True by done. f_equal. apply filter_none, Forall_forall. intros z Hz Heq. apply Hy. rewrite <- Heq. by apply list_elem_of_fmap_2.
  - rewrite decide_False; [by apply IH|]. intros Heq. apply Hy. rewrite Heq. by apply list_elem_of_fmap_2.
Qed.

Lemma elem_of_sublist {A} (x : A) l k : sublist l k → x ∈ l → x ∈ k.
Proof. intros Hlk Hx. eapply elem_of_submseteq; [exact Hx|]. by apply sublist_submseteq. Qed.

Lemma StronglySorted_sublist {A} (R : A → A → Prop) l k : sublist l k → StronglySorted R k → StronglySorted R l.
Proof.
  induction 1 as [|x l k Hlk IH|x l k Hlk IH]; [done|..]; intros [Hk Hx]%StronglySorted_inv; [|by apply IH].
  constructor; [by apply IH|]. rewrite Forall_forall in *. intros y Hy. by apply Hx, (elem_of_sublist y l k).
Qed.

Lemma bind_fmap {A B C} (f : A → B) (g : B → list C) l : (f <$> l) ≫= g = l ≫= λ x, g (f x).
Proof. induction l as [|x l IH]; [done|]. by rewrite fmap_cons, !bind_cons, IH. Qed.

Lemma sublist_fmap {A B} (f : A → B) l k : sublist l k → sublist (f <$> l) (f <$> k).
Proof. by induction 1; constructor. Qed.

(** * Loops

    A loop of the source is a fuelled [Fixpoint]. That it ends is a statement
    about its rounds: a round goes on in a new state or leaves the loop, and
    [loops_to round n s r] says that the loop started in [s] goes on [n] times
    and then leaves with [r]. A round that goes on for ever has no such [n],
    whatever the fixpoint makes of its fuel. *)

Section Loop.
Context {S R : Type} (round : S → S + R).

Inductive loops_to : nat → S → R → Prop :=
| loop_leaves s r : round s = inr r → loops_to 0 s r
| loop_goes_on n s s' r : round s = inl s' → loops_to n s' r → loops_to (Datatypes.S n) s r.

(** A round that takes [k > 0] off a measure ends: the states that matter are
    those of an invariant. *)
Lemma loop_measure (P : S → Prop) (m : S → nat) (k : nat) s :
  (0 < k)%nat → (∀ s s', P s → round s = inl s' → P s' ∧ k + m s' <= m s)%nat → P s →
  ∃ n r, loops_to n s r ∧ (k * n <= m s)%nat.
Proof.
  intros Hk Hround. remember (m s) as x eqn:Hx. revert s Hx. induction (lt_wf x) as [x _ IH]. intros s -> Hs.
  destruct (round s) as [s'|r] eqn:Hr; [|exists 0%nat, r; split; [by constructor|lia]].
  destruct (Hround s s' Hs Hr) as [Hs' Hm]. destruct (IH (m s') ltac:(lia) s' eq_refl Hs') as (n & r & Hn & Hle).
  exists (Datatypes.S n), r. split; [by eapply loop_goes_on|lia].
Qed.

(** A fuelled fixpoint with these rounds returns what the loop does, with any
    fuel above the number of rounds. *)
Lemma loop_fuel (loop : nat → S → R) n s r :
  (∀ fuel s, loop (Datatypes.S fuel) s = match round s with inl s' => loop fuel s' | inr r => r end) →
  loops_to n s r → ∀ fuel, (n < fuel)%nat → loop fuel s = r.
Proof.
  intros Hloop. induction 1 as [s r Hr|n s s' r Hr _ IH]; intros [|fuel] Hf; try lia; rewrite Hloop, Hr; [done|].
  apply IH. lia.
Qed.

End Loop.
