(* ===== verification/Ordered.v ===== *)
(** Byte strings with the order of [std::string] (unsigned, lexicographic),
    and the standard algorithms the code calls on sorted data:
    [std::stable_sort] and [std::lower_bound]. *)

From S2P Require Import Prelude.

(** A [std::string]: its bytes. *)
Definition str : Type := list Z.

(** [operator<] on strings. *)
Fixpoint str_ltb (a b : str) : bool :=
  match a, b with
  | _, [] => false
  | [], _ :: _ => true
  | x :: a, y :: b => (x <? y) || ((x =? y) && str_ltb a b)
  end.

Definition str_eqb (a b : str) : bool := bool_decide (a = b).

Lemma str_ltb_irrefl a : str_ltb a a = false.
Proof. induction a; simpl; [done|]. rewrite IHa. lia. Qed.

Lemma str_ltb_trans a b c : str_ltb a b = true → str_ltb b c = true → str_ltb a c = true.
Proof.
  revert b c. induction a as [|x a IH]; intros [|y b] [|z c]; simpl; try done.
  intros Hab Hbc. specialize (IH b c). destruct (str_ltb a b), (str_ltb b c); lia.
Qed.

Lemma str_ltb_total a b : str_ltb a b = false → str_ltb b a = false → a = b.
Proof.
  revert b. induction a as [|x a IH]; intros [|y b]; simpl; try done.
  intros Hab Hba. assert (x = y) as -> by lia. f_equal. apply IH; lia.
Qed.

Lemma str_ltb_asym a b : str_ltb a b = true → str_ltb b a = false.
Proof.
  intros Hab. destruct (str_ltb b a) eqn:Hba; [|done].
  by rewrite <- (str_ltb_trans _ _ _ Hab Hba), str_ltb_irrefl.
Qed.

Lemma StronglySorted_weaken {A} (R R' : A → A → Prop) l :
  (∀ x y, R x y → R' x y) → StronglySorted R l → StronglySorted R' l.
Proof.
  intros HR. induction 1 as [|x l _ IH Hx]; constructor; [done|].
  eapply Forall_impl; [exact Hx|]. auto.
Qed.

(** * std::stable_sort *)

Section StableSort.
Context {A : Type} (less : A → A → bool).

(** [x] goes in front of the first element that is not less than it, hence in
    front of the elements equal to it. *)
Fixpoint sort_insert (x : A) (l : list A) : list A :=
  match l with
  | [] => [x]
  | y :: l' => if less y x then y :: sort_insert x l' else x :: l
  end.

Fixpoint stable_sort (l : list A) : list A :=
  match l with
  | [] => []
  | x :: l => sort_insert x (stable_sort l)
  end.

Lemma sort_insert_perm x l : sort_insert x l ≡ₚ x :: l.
Proof.
  induction l as [|y l IH]; simpl; [done|]. destruct (less y x); [|done].
  rewrite IH. by constructor.
Qed.

Lemma stable_sort_perm l : stable_sort l ≡ₚ l.
Proof. induction l as [|x l IH]; simpl; [done|]. by rewrite sort_insert_perm, IH. Qed.

(** [a] may stand before [b]: [b] is not less than [a]. *)
Definition le_of (a b : A) : Prop := less b a = false.

Context (less_asym : ∀ a b, less a b = true → less b a = false).
Context (le_of_trans : ∀ a b c, le_of a b → le_of b c → le_of a c).

Lemma sort_insert_sorted x l :
  StronglySorted le_of l → StronglySorted le_of (sort_insert x l).
Proof.
  induction 1 as [|y l Hsorted IH Hall]; simpl; [by repeat constructor|].
  destruct (less y x) eqn:Hyx.
  - constructor; [done|]. rewrite sort_insert_perm. constructor; [by apply less_asym|done].
  - constructor; [by constructor|]. constructor; [done|].
    eapply Forall_impl; [exact Hall|]. intros z Hz. by eapply le_of_trans.
Qed.

Lemma stable_sort_sorted l : StronglySorted le_of (stable_sort l).
Proof. induction l; simpl; [constructor|by apply sort_insert_sorted]. Qed.

(** Stability: elements of one equivalence class keep their order. *)
Lemma sort_insert_filter (P : A → Prop) `{!∀ x, Decision (P x)} x l :
  (∀ y, P x → P y → less y x = false) →
  filter P (sort_insert x l) = filter P (x :: l).
Proof.
  intros HP. induction l as [|y l IH]; simpl; [done|]. destruct (less y x) eqn:Hyx; [|done].
  rewrite filter_cons. rewrite IH. rewrite !filter_cons.
  destruct (decide (P x)) as [Hx|], (decide (P y)) as [Hy|]; try done.
  by rewrite (HP y Hx Hy) in Hyx.
Qed.

Lemma stable_sort_filter (P : A → Prop) `{!∀ x, Decision (P x)} l :
  (∀ x y, P x → P y → less y x = false) → filter P (stable_sort l) = filter P l.
Proof.
  intros HP. induction l as [|x l IH]; simpl; [done|].
  rewrite sort_insert_filter by auto. by rewrite !filter_cons, IH.
Qed.

End StableSort.

(** * std::lower_bound *)

Section LowerBound.
Context {A : Type} (before : A → bool).

(** The loop of [std::lower_bound] over [len] elements from [first];
    [before x] says that [x] is less than the value searched. [fuel] is
    [len]: every round at least halves it. *)
Fixpoint lower_bound_loop (fuel : nat) (l : list A) (first len : nat) : nat :=
  match fuel with
  | O => first
  | S fuel =>
      if (len =? 0)%nat then first
      else
        let half := (len / 2)%nat in
        match l !! (first + half)%nat with
        | Some x =>
            if before x
            then lower_bound_loop fuel l (first + half + 1) (len - half - 1)
            else lower_bound_loop fuel l first half
        | None => first
        end
  end.

Definition lower_bound (l : list A) : nat := lower_bound_loop (length l) l 0 (length l).

(** On a list partitioned by [before], the result is the partition point. *)
Lemma lower_bound_loop_spec fuel l first len :
  (len <= fuel)%nat → (first + len <= length l)%nat →
  (∀ i j x y, (i <= j)%nat → l !! i = Some x → l !! j = Some y → before y = true → before x = true) →
  (∀ i x, (i < first)%nat → l !! i = Some x → before x = true) →
  (∀ i x, (first + len <= i)%nat → l !! i = Some x → before x = false) →
  let k := lower_bound_loop fuel l first len in
  (k <= length l)%nat ∧
  (∀ i x, (i < k)%nat → l !! i = Some x → before x = true) ∧
  (∀ i x, (k <= i)%nat → l !! i = Some x → before x = false).
Proof.
  revert first len. induction fuel as [|fuel IH]; intros first len Hfuel Hlen Hmono Hlo Hhi; simpl.
  { split_and!; [lia|done|]. intros i x Hi. apply Hhi. lia. }
  destruct (Nat.eqb_spec len 0) as [->|Hne].
  { split_and!; [lia|done|]. intros i x Hi. apply Hhi. lia. }
  pose proof (Nat.div_lt len 2 ltac:(lia) ltac:(lia)) as Hhalf. set (half := (len / 2)%nat) in *.
  destruct (lookup_lt_is_Some_2 l (first + half)) as [m Hm]; [lia|]. rewrite Hm.
  destruct (before m) eqn:Hbefore; apply IH; try lia; try done.
  - intros i x Hi Hx. by eapply (Hmono i (first + half)%nat); [lia|..].
  - intros i x Hi Hx. apply (Hhi i x); [lia|done].
  - intros i x Hi Hx. destruct (before x) eqn:Hb; [|done].
    assert (before m = true) as Hm' by (eapply (Hmono (first + half)%nat i); done || lia). congruence.
Qed.

Lemma lower_bound_spec l :
  (∀ i j x y, (i <= j)%nat → l !! i = Some x → l !! j = Some y → before y = true → before x = true) →
  let k := lower_bound l in
  (k <= length l)%nat ∧
  (∀ i x, (i < k)%nat → l !! i = Some x → before x = true) ∧
  (∀ i x, (k <= i)%nat → l !! i = Some x → before x = false).
Proof.
  intros Hmono. apply lower_bound_loop_spec; try lia; try done.
  intros i x Hi Hx%lookup_lt_Some. lia.
Qed.

End LowerBound.

Lemma str_le_trans a b c : str_ltb b a = false → str_ltb c b = false → str_ltb c a = false.
Proof.
  intros Hba Hcb. destruct (str_ltb c a) eqn:Hca; [|done].
  destruct (str_ltb a b) eqn:Hab.
  - by rewrite (str_ltb_trans _ _ _ Hca Hab) in Hcb.
  - by rewrite (str_ltb_total _ _ Hab Hba), Hcb in Hca.
Qed.
