(* ===== verification/Sorted.v ===== *)
(** Ordered containers and the algorithms on sorted ranges that the block layer
    uses: [std::set], [std::map], [std::sort] followed by [std::unique],
    [std::set_intersection] and [std::set_difference]. A container is the
    list of its elements in order. *)

From S2P Require Import Prelude Ordered.

(** What [std::less] promises on a key type. *)
Class StrictOrder {K : Type} (less : K → K → bool) : Prop := {
  less_irrefl a : less a a = false;
  less_trans a b c : less a b = true → less b c = true → less a c = true;
  less_total a b : less a b = false → less b a = false → a = b;
}.

#[export] Instance str_less : StrictOrder str_ltb.
Proof. split; [apply str_ltb_irrefl|apply str_ltb_trans|apply str_ltb_total]. Qed.

#[export] Instance Z_less : StrictOrder Z.ltb.
Proof. split; intros; lia. Qed.

(** [std::pair] compares its first components first. *)
Definition pair_less {A B} (la : A → A → bool) (lb : B → B → bool) (x y : A * B) : bool :=
  la x.1 y.1 || (negb (la y.1 x.1) && lb x.2 y.2).

Section Containers.
Context {K : Type} (less : K → K → bool).

(** [std::set::insert]. *)
Fixpoint set_insert (x : K) (l : list K) : list K :=
  match l with
  | [] => [x]
  | y :: l' => if less x y then x :: l else if less y x then y :: set_insert x l' else l
  end.

(** [m[k]] followed by an update of the value; a new key starts with [v0]. *)
Fixpoint map_update {V : Type} (v0 : V) (f : V → V) (k : K) (m : list (K * V)) : list (K * V) :=
  match m with
  | [] => [(k, f v0)]
  | (k', v) :: m' =>
      if less k k' then (k, f v0) :: m
      else if less k' k then (k', v) :: map_update v0 f k m' else (k', f v) :: m'
  end.

(** [std::unique] and [erase]: of equal neighbours the first stays. *)
Fixpoint unique_from (x : K) (l : list K) : list K :=
  match l with
  | [] => []
  | y :: l => if less x y || less y x then y :: unique_from y l else unique_from x l
  end.

Definition unique (l : list K) : list K :=
  match l with
  | [] => []
  | x :: l => x :: unique_from x l
  end.

Definition sort_unique (l : list K) : list K := unique (stable_sort less l).

(** [std::set_intersection] and [std::set_difference]; every round drops the
    head of a range, so the sum of their lengths is enough fuel. *)
Fixpoint set_intersection_loop (fuel : nat) (a b : list K) : list K :=
  match fuel with
  | O => []
  | S fuel =>
      match a, b with
      | x :: a', y :: b' =>
          if less x y then set_intersection_loop fuel a' b
          else if less y x then set_intersection_loop fuel a b'
          else x :: set_intersection_loop fuel a' b'
      | _, _ => []
      end
  end.

Definition set_intersection (a b : list K) : list K := set_intersection_loop (length a + length b) a b.

Fixpoint set_difference_loop (fuel : nat) (a b : list K) : list K :=
  match fuel with
  | O => a
  | S fuel =>
      match a, b with
      | x :: a', y :: b' =>
          if less x y then x :: set_difference_loop fuel a' b
          else if less y x then set_difference_loop fuel a b'
          else set_difference_loop fuel a' b'
      | _, _ => a
      end
  end.

Definition set_difference (a b : list K) : list K := set_difference_loop (length a + length b) a b.

(** In strictly ascending order. *)
Definition ascending (l : list K) : Prop := StronglySorted (λ a b, less a b = true) l.

Context `{!StrictOrder less}.

Lemma less_asym a b : less a b = true → less b a = false.
Proof.
  intros Hab. destruct (less b a) eqn:Hba; [|done].
  by rewrite <- (less_trans _ _ _ Hab Hba), less_irrefl.
Qed.

Lemma less_le_trans a b c : le_of less a b → le_of less b c → le_of less a c.
Proof.
  unfold le_of. intros Hba Hcb. destruct (less c a) eqn:Hca; [|done].
  destruct (less a b) eqn:Hab.
  - by rewrite (less_trans _ _ _ Hca Hab) in Hcb.
  - by rewrite (less_total _ _ Hab Hba), Hcb in Hca.
Qed.

Lemma ascending_nodup l : ascending l → NoDup l.
Proof.
  induction 1 as [|x l _ IH Hx]; constructor; [|done]. intros Hin.
  rewrite Forall_forall in Hx. specialize (Hx x Hin). by rewrite less_irrefl in Hx.
Qed.

Lemma ascending_le l : ascending l → StronglySorted (le_of less) l.
Proof. apply StronglySorted_weaken. intros a b. apply less_asym. Qed.

(** ** Sets *)

Lemma elem_of_set_insert x l y : y ∈ set_insert x l ↔ y = x ∨ y ∈ l.
Proof.
  induction l as [|z l IH]; simpl; [by rewrite list_elem_of_singleton, elem_of_nil; tauto|].
  destruct (less x z) eqn:Hxz; [by rewrite elem_of_cons|].
  destruct (less z x) eqn:Hzx.
  - rewrite !elem_of_cons, IH. tauto.
  - rewrite (less_total _ _ Hxz Hzx), elem_of_cons. tauto.
Qed.

Lemma set_insert_ascending x l : ascending l → ascending (set_insert x l).
Proof.
  induction 1 as [|z l Hl IH Hz]; simpl; [by repeat constructor|].
  destruct (less x z) eqn:Hxz; [|destruct (less z x) eqn:Hzx].
  - constructor; [by constructor|]. constructor; [done|].
    eapply Forall_impl; [exact Hz|]. intros y Hzy. by eapply less_trans.
  - constructor; [done|]. rewrite Forall_forall in *. intros y [->|Hy]%elem_of_set_insert; auto.
  - by constructor.
Qed.

Lemma elem_of_foldl_set_insert {A} (f : A → K) (l : list A) acc y :
  y ∈ foldl (λ acc a, set_insert (f a) acc) acc l ↔ y ∈ acc ∨ ∃ a, a ∈ l ∧ y = f a.
Proof.
  revert acc. induction l as [|a l IH]; intros acc; simpl.
  - split; [by left|]. intros [|(a & Ha & _)]; [done|]. by apply elem_of_nil in Ha.
  - rewrite IH, elem_of_set_insert. setoid_rewrite elem_of_cons. split.
    + intros [[->|]|(b & Hb & ->)]; eauto.
    + intros [|(b & [->|Hb] & ->)]; eauto.
Qed.

Lemma foldl_set_insert_ascending {A} (f : A → K) (l : list A) acc :
  ascending acc → ascending (foldl (λ acc a, set_insert (f a) acc) acc l).
Proof. revert acc. induction l as [|a l IH]; intros acc Hacc; simpl; [done|]. by apply IH, set_insert_ascending. Qed.

Lemma unique_from_spec x l :
  StronglySorted (le_of less) (x :: l) →
  ascending (x :: unique_from x l) ∧ ∀ y, y ∈ x :: unique_from x l ↔ y ∈ x :: l.
Proof.
  revert x. induction l as [|y l IH]; intros x Hs; simpl; [split; [by repeat constructor|done]|].
  apply StronglySorted_inv in Hs as [Hs Hx]. apply Forall_cons_1 in Hx as [Hxy Hx].
  destruct (less x y) eqn:Hlt; cbn [orb].
  - destruct (IH y Hs) as [Hasc Hin]. split.
    + constructor; [done|]. apply Forall_forall. intros z Hz%Hin. apply elem_of_cons in Hz as [->|Hz]; [done|].
      apply StronglySorted_inv in Hs as [_ Hy]. rewrite Forall_forall in Hy. specialize (Hy z Hz).
      destruct (less x z) eqn:Hxz; [done|]. unfold le_of in Hy, Hxy. rewrite Forall_forall in Hx.
      destruct (less y z) eqn:Hyz; [by rewrite (less_trans _ _ _ Hlt Hyz) in Hxz|].
      by rewrite (less_total _ _ Hyz Hy), Hxz in Hlt.
    + intros z. rewrite elem_of_cons, (elem_of_cons (y :: l)). by rewrite Hin.
  - unfold le_of in Hxy. rewrite Hxy. pose proof (less_total _ _ Hlt Hxy) as <-.
    destruct (IH x) as [Hasc Hin].
    { apply StronglySorted_inv in Hs as [Hs _]. by constructor. }
    split; [done|]. intros z. rewrite Hin, !elem_of_cons. tauto.
Qed.

Lemma sort_unique_spec l : ascending (sort_unique l) ∧ ∀ y, y ∈ sort_unique l ↔ y ∈ l.
Proof.
  unfold sort_unique. pose proof (stable_sort_sorted less less_asym less_le_trans l) as Hs.
  pose proof (stable_sort_perm less l) as Hp. destruct (stable_sort less l) as [|x k]; simpl.
  - apply Permutation_nil_l in Hp. subst. split; [constructor|done].
  - destruct (unique_from_spec x k Hs) as [Hasc Hin]. split; [done|]. intros y. by rewrite Hin, Hp.
Qed.

Lemma ascending_unique l k : ascending l → ascending k → (∀ x, x ∈ l ↔ x ∈ k) → l = k.
Proof.
  intros Hl Hk Heq. apply (StronglySorted_unique_strong (λ a b, less a b = true)); [|done..|].
  - intros a b _ _ Hab Hba. by rewrite (less_asym _ _ Hab) in Hba.
  - apply NoDup_Permutation; [by apply ascending_nodup..|done].
Qed.

(** ** Intersection and difference *)

(** In a range that starts with [y], nothing is before [y]. *)
Lemma ascending_head y b x : ascending (y :: b) → less x y = true → x ∉ y :: b.
Proof.
  intros [_ Hy]%StronglySorted_inv Hxy [->|Hin]%elem_of_cons; [by rewrite less_irrefl in Hxy|].
  rewrite Forall_forall in Hy. specialize (Hy x Hin). by rewrite (less_asym _ _ Hxy) in Hy.
Qed.

Lemma ascending_tail x a : ascending (x :: a) → ascending a ∧ x ∉ a.
Proof.
  intros [Ha Hx]%StronglySorted_inv. split; [done|]. intros Hin. rewrite Forall_forall in Hx.
  specialize (Hx x Hin). by rewrite less_irrefl in Hx.
Qed.

Lemma ascending_cons x a : ascending (x :: a) ↔ ascending a ∧ ∀ y, y ∈ a → less x y = true.
Proof.
  split.
  - intros [Ha Hx]%StronglySorted_inv. rewrite Forall_forall in Hx. done.
  - intros [Ha Hx]. constructor; [done|]. by apply Forall_forall.
Qed.

Lemma ascending_snoc l x : ascending l → (∀ y, y ∈ l → less y x = true) → ascending (l ++ [x]).
Proof.
  intros Hl Hx. induction Hl as [|y l Hl IH Hy]; [by repeat constructor|]. cbn [app]. apply ascending_cons. split.
  - apply IH. intros z Hz. apply Hx. by right.
  - rewrite Forall_forall in Hy. intros z [Hz|Hz]%elem_of_app; [auto|]. apply list_elem_of_singleton in Hz as ->. apply Hx. left.
Qed.

Lemma set_intersection_loop_spec fuel a b :
  ascending a → ascending b → (length a + length b <= fuel)%nat →
  ascending (set_intersection_loop fuel a b) ∧
  ∀ x, x ∈ set_intersection_loop fuel a b ↔ x ∈ a ∧ x ∈ b.
Proof.
  revert a b. induction fuel as [|fuel IH]; intros a b Ha Hb Hf; cbn [set_intersection_loop].
  { destruct a; [|simpl in Hf; lia]. split; [constructor|]. intros x. rewrite elem_of_nil. tauto. }
  destruct a as [|x a]; [split; [constructor|]; intros x; rewrite elem_of_nil; tauto|].
  destruct b as [|y b]; [split; [constructor|]; intros z; rewrite !elem_of_nil; tauto|].
  cbn [length] in Hf. destruct (ascending_tail _ _ Ha) as [Ha' Hxa], (ascending_tail _ _ Hb) as [Hb' Hyb].
  destruct (less x y) eqn:Hxy; [|destruct (less y x) eqn:Hyx].
  - destruct (IH a (y :: b)) as [Hasc Hin]; [done..|cbn [length]; lia|]. split; [done|]. intros z. rewrite Hin.
    rewrite (elem_of_cons a). pose proof (ascending_head _ _ x Hb Hxy). split; [tauto|]. by intros [[->|] ?].
  - destruct (IH (x :: a) b) as [Hasc Hin]; [done..|cbn [length]; lia|]. split; [done|]. intros z. rewrite Hin.
    rewrite (elem_of_cons b). pose proof (ascending_head _ _ y Ha Hyx). split; [tauto|]. by intros [? [->|]].
  - pose proof (less_total _ _ Hxy Hyx) as <-. destruct (IH a b) as [Hasc Hin]; [done..|lia|]. split.
    + apply ascending_cons. split; [done|]. intros z [Hz _]%Hin. apply ascending_cons in Ha. by apply Ha.
    + intros z. rewrite !elem_of_cons, Hin. split; [tauto|]. intros [[->|Hz] [Hz'|Hz']]; tauto.
Qed.

Lemma set_intersection_spec a b :
  ascending a → ascending b →
  ascending (set_intersection a b) ∧ ∀ x, x ∈ set_intersection a b ↔ x ∈ a ∧ x ∈ b.
Proof. intros. by apply set_intersection_loop_spec. Qed.

Lemma set_difference_loop_spec fuel a b :
  ascending a → ascending b → (length a + length b <= fuel)%nat →
  ascending (set_difference_loop fuel a b) ∧
  ∀ x, x ∈ set_difference_loop fuel a b ↔ x ∈ a ∧ x ∉ b.
Proof.
  revert a b. induction fuel as [|fuel IH]; intros a b Ha Hb Hf; cbn [set_difference_loop].
  { destruct a, b; [|simpl in Hf; lia..]. split; [done|]. intros x. rewrite elem_of_nil. tauto. }
  destruct a as [|x a]; [split; [done|]; intros x; rewrite elem_of_nil; tauto|].
  destruct b as [|y b]; [split; [done|]; intros z; rewrite (elem_of_nil z); tauto|].
  cbn [length] in Hf. destruct (ascending_tail _ _ Ha) as [Ha' Hxa], (ascending_tail _ _ Hb) as [Hb' Hyb].
  destruct (less x y) eqn:Hxy; [|destruct (less y x) eqn:Hyx].
  - destruct (IH a (y :: b)) as [Hasc Hin]; [done..|cbn [length]; lia|]. split.
    + apply ascending_cons. split; [done|]. intros z [Hz _]%Hin. apply ascending_cons in Ha. by apply Ha.
    + intros z. rewrite (elem_of_cons _ z x), Hin, (elem_of_cons a). pose proof (ascending_head _ _ x Hb Hxy).
      split; [|tauto]. intros [->|]; tauto.
  - destruct (IH (x :: a) b) as [Hasc Hin]; [done..|cbn [length]; lia|]. split; [done|]. intros z. rewrite Hin.
    rewrite (elem_of_cons b). pose proof (ascending_head _ _ y Ha Hyx). split; [|tauto].
    intros [Hz Hzb]. split; [done|]. by intros [->|].
  - pose proof (less_total _ _ Hxy Hyx) as <-. destruct (IH a b) as [Hasc Hin]; [done..|lia|]. split; [done|].
    intros z. rewrite !elem_of_cons, Hin. split; [|tauto]. intros [Hz Hzb]. split; [tauto|]. by intros [->|].
Qed.

Lemma set_difference_spec a b :
  ascending a → ascending b →
  ascending (set_difference a b) ∧ ∀ x, x ∈ set_difference a b ↔ x ∈ a ∧ x ∉ b.
Proof. intros. by apply set_difference_loop_spec. Qed.

(** ** Maps *)

Fixpoint map_get `{EqDecision K} {V : Type} (k : K) (m : list (K * V)) : option V :=
  match m with
  | [] => None
  | (k', v) :: m => if decide (k = k') then Some v else map_get k m
  end.

Lemma map_get_elem `{EqDecision K} {V} (k : K) (m : list (K * V)) v :
  ascending (fst <$> m) → (k, v) ∈ m ↔ map_get k m = Some v.
Proof.
  induction m as [|[k' v'] m IH]; cbn [fmap list_fmap map_get fst]; intros Hm; [by rewrite elem_of_nil|].
  destruct (ascending_tail _ _ Hm) as [Hm' Hk]. rewrite elem_of_cons, IH by done. destruct (decide (k = k')) as [->|Hne].
  - split; [|intros [= ->]; by left]. intros [[= ->]|Hget]; [done|]. destruct Hk.
    apply list_elem_of_fmap. exists (k', v). split; [done|]. by apply IH.
  - split; [|by right]. by intros [[= -> ->]|].
Qed.

Lemma map_update_keys {V} (v0 : V) f k m x :
  x ∈ (fst <$> map_update v0 f k m) ↔ x = k ∨ x ∈ (fst <$> m).
Proof.
  induction m as [|[k' v'] m IH]; cbn [map_update].
  - cbn [fmap list_fmap fst]. rewrite list_elem_of_singleton, elem_of_nil. tauto.
  - destruct (less k k') eqn:Hlt; [cbn [fmap list_fmap fst]; by rewrite elem_of_cons|].
    destruct (less k' k) eqn:Hgt; cbn [fmap list_fmap fst]; rewrite !elem_of_cons.
    + rewrite IH. tauto.
    + rewrite (less_total _ _ Hlt Hgt). tauto.
Qed.

Lemma map_update_ascending {V} (v0 : V) f k m :
  ascending (fst <$> m) → ascending (fst <$> map_update v0 f k m).
Proof.
  induction m as [|[k' v'] m IH]; cbn [map_update]; intros Hm; [by repeat constructor|].
  destruct (less k k') eqn:Hlt.
  - cbn [fmap list_fmap fst] in *. apply ascending_cons. split; [done|]. intros y Hy.
    destruct (less k y) eqn:Hky; [done|]. apply ascending_cons in Hm as [_ Hm]. apply elem_of_cons in Hy as [->|Hy]; [congruence|].
    by rewrite (less_trans _ _ _ Hlt (Hm y Hy)) in Hky.
  - destruct (less k' k) eqn:Hgt; [|done]. cbn [fmap list_fmap fst] in *. apply ascending_cons in Hm as [Hm Hk].
    apply ascending_cons. split; [by apply IH|]. intros y [->|Hy]%map_update_keys; auto.
Qed.

Lemma map_get_update `{EqDecision K} {V} (v0 : V) f k m k1 :
  ascending (fst <$> m) →
  map_get k1 (map_update v0 f k m) =
    if decide (k1 = k) then Some (f (default v0 (map_get k m))) else map_get k1 m.
Proof.
  induction m as [|[k' v'] m IH]; cbn [map_update]; intros Hm; [done|].
  assert (∀ x, less x k' = true → map_get x ((k', v') :: m) = None) as Hbefore.
  { intros x Hx. destruct (map_get x ((k', v') :: m)) as [v|] eqn:Hget; [|done].
    apply map_get_elem in Hget; [|done]. exfalso. eapply (ascending_head k' (fst <$> m) x); [done..|].
    change (k' :: (fst <$> m)) with (fst <$> ((k', v') :: m)). apply list_elem_of_fmap. by exists (x, v). }
  destruct (less k k') eqn:Hlt.
  - rewrite (Hbefore k Hlt). done.
  - cbn [fmap list_fmap fst] in Hm. destruct (ascending_tail _ _ Hm) as [Hm' _].
    destruct (less k' k) eqn:Hgt; cbn [map_get].
    + assert (k ≠ k') by (intros ->; by rewrite less_irrefl in Hgt). rewrite IH by done.
      destruct (decide (k = k')); [done|]. destruct (decide (k1 = k')) as [->|]; [by rewrite decide_False by done|done].
    + rewrite <- (less_total _ _ Hlt Hgt). rewrite (decide_True (P := k = k)) by done.
      destruct (decide (k1 = k)); done.
Qed.

End Containers.

#[export] Instance pair_strict {A B} (la : A → A → bool) (lb : B → B → bool) :
  StrictOrder la → StrictOrder lb → StrictOrder (pair_less la lb).
Proof.
  intros Ha Hb. unfold pair_less. split.
  - intros [a b]. simpl. by rewrite !less_irrefl, andb_false_r.
  - intros [a1 b1] [a2 b2] [a3 b3]. simpl.
    intros [H12|[H21 H12]%andb_prop]%orb_prop [H23|[H32 H23]%andb_prop]%orb_prop.
    + by rewrite (less_trans _ _ _ H12 H23).
    + apply orb_true_intro. left. destruct (la a2 a3) eqn:E; [by eapply less_trans|].
      by rewrite <- (less_total _ _ E (proj1 (negb_true_iff _) H32)).
    + apply orb_true_intro. left. destruct (la a1 a2) eqn:E; [by eapply less_trans|].
      by rewrite (less_total _ _ E (proj1 (negb_true_iff _) H21)).
    + apply orb_true_intro. apply negb_true_iff in H21, H32.
      destruct (la a1 a2) eqn:E12.
      * left. destruct (la a2 a3) eqn:E23; [by eapply less_trans|]. by rewrite <- (less_total _ _ E23 H32).
      * rewrite (less_total _ _ E12 H21) in *. destruct (la a2 a3) eqn:E23; [by left|right].
        by rewrite H32, (less_trans _ _ _ H12 H23).
  - intros [a1 b1] [a2 b2]. simpl. intros [H12 H1]%orb_false_elim [H21 H2]%orb_false_elim.
    rewrite H12, H21 in *. simpl in *. by rewrite (less_total _ _ H12 H21), (less_total _ _ H1 H2).
Qed.
