(* ===== verification/Containers.v ===== *)
(** What the standard library leaves open and the querier and the compactor
    use: the order in which a [std::unordered_map] is visited, and the order of
    equal elements after [std::sort]. Both are operations of a class, with what
    the standard promises as the laws; a map is an association list in the
    order of insertion, which [visit] rearranges. *)

From S2P Require Import Prelude Ordered.

Class StdOrder : Type := {
  visit : ∀ {A : Type}, list A → list A;
  std_sort : ∀ {A : Type}, (A → A → bool) → list A → list A;
}.

(** A comparison that orders by an integer, as all of them do here. *)
Class StdOrderLaws (O : StdOrder) : Prop := {
  visit_perm {A} (l : list A) : visit l ≡ₚ l;
  sort_perm {A} (less : A → A → bool) l : std_sort less l ≡ₚ l;
  sort_sorted {A} (key : A → Z) less l :
    (∀ a b, less a b = (key a <? key b)) → StronglySorted (λ a b, key a <= key b) (std_sort less l);
}.

(** A library that visits in the order of insertion and sorts stably. *)
Definition plain_order : StdOrder := {| visit A l := l; std_sort A less l := stable_sort less l |}.

#[export] Instance plain_laws : StdOrderLaws plain_order.
Proof.
  split; cbn.
  - done.
  - intros A less l. apply stable_sort_perm.
  - intros A key less l Hless. eapply (StronglySorted_weaken (le_of less)).
    + intros x y. unfold le_of. rewrite Hless. lia.
    + apply stable_sort_sorted; unfold le_of; intros *; rewrite !Hless; lia.
Qed.

(** * Maps *)

Section Map.
Context {K V : Type} `{EqDecision K}.

(** [f(map[k])], where a new entry starts as [v0]. *)
Fixpoint upsert (k : K) (v0 : V) (f : V → V) (m : list (K * V)) : list (K * V) :=
  match m with
  | [] => [(k, f v0)]
  | (k', v) :: m => if decide (k' = k) then (k', f v) :: m else (k', v) :: upsert k v0 f m
  end.

Lemma upsert_keys k v0 f m k' : k' ∈ (upsert k v0 f m).*1 ↔ k' = k ∨ k' ∈ m.*1.
Proof.
  induction m as [|[k1 v] m IH]; cbn [upsert].
  { change ([(k, f v0)].*1) with [k]. rewrite list_elem_of_singleton. split; [by left|]. by intros [?|?%elem_of_nil]. }
  destruct (decide (k1 = k)) as [->|]; rewrite !fmap_cons, !elem_of_cons; [tauto|]. cbn [fst]. rewrite IH. tauto.
Qed.

Lemma upsert_nodup k v0 f m : NoDup m.*1 → NoDup (upsert k v0 f m).*1.
Proof.
  induction m as [|[k1 v] m IH]; cbn [upsert]; intros Hm; [apply NoDup_singleton|]. rewrite fmap_cons in Hm. apply NoDup_cons in Hm as [Hk Hm].
  destruct (decide (k1 = k)) as [->|Hne]; rewrite fmap_cons; apply NoDup_cons; (split; [|auto]); [done|].
  cbn [fst] in *. rewrite upsert_keys. by intros [?|?].
Qed.

Lemma upsert_elem k v0 f m k' v' :
  NoDup m.*1 →
  ((k', v') ∈ upsert k v0 f m) ↔
    (k' ≠ k ∧ (k', v') ∈ m) ∨ (k' = k ∧ ((∃ v, (k, v) ∈ m ∧ v' = f v) ∨ ((k ∉ m.*1) ∧ v' = f v0))).
Proof.
  induction m as [|[k1 v1] m IH]; cbn [upsert]; intros Hm.
  { rewrite list_elem_of_singleton. split.
    - intros [= -> ->]. right. split; [done|]. right. split; [apply not_elem_of_nil|done].
    - intros [[_ ?%elem_of_nil]|[-> [(v & ?%elem_of_nil & _)|[_ ->]]]]; done. }
  rewrite fmap_cons in Hm. apply NoDup_cons in Hm as [Hk Hm]. cbn [fst] in Hk. destruct (decide (k1 = k)) as [->|Hne].
  - rewrite elem_of_cons. split.
    + intros [[= -> ->]|Hin]; [right; split; [done|left; exists v1; split; [left|done]]|]. left.
      assert (k' ∈ m.*1) as Hk' by (by apply (list_elem_of_fmap_2 fst) in Hin). split; [|by right]. by intros ->.
    + intros [[Hne [[= -> ->]|Hin]%elem_of_cons]|[-> [(v & [[= ->]|Hin]%elem_of_cons & ->)|[Hnot _]]]]; [done|by right|by left| |].
      * by apply (list_elem_of_fmap_2 fst) in Hin.
      * exfalso. apply Hnot. left.
  - rewrite elem_of_cons, IH by done. rewrite fmap_cons. setoid_rewrite elem_of_cons. split.
    + intros [[= -> ->]|[[? ?]|[-> [(v & ? & ->)|[? ->]]]]]; [left; auto..|right; split; [done|]|right; split; [done|]].
      * left. eauto.
      * right. split; [|done]. cbn [fst]. intuition congruence.
    + intros [[? [[= -> ->]|?]]|[-> [(v & [[= -> ->]|?] & ->)|[Hnot ->]]]]; [by left|right; left; auto|done| |].
      * right. right. split; [done|]. left. eauto.
      * right. right. split; [done|]. right. split; [|done]. intros Hin. apply Hnot. by right.
Qed.

(** ** Grouping *)

Context {W : Type} (v0 : K → V) (add : W → V → V).

Definition values_of (k : K) (l : list (K * W)) : list W := snd <$> filter (λ x, x.1 = k) l.

(** [m] has one entry per key of [l], with the values of the key added in
    order. *)
Definition grouped (l : list (K * W)) (m : list (K * V)) : Prop :=
  NoDup m.*1 ∧ (∀ k, k ∈ m.*1 ↔ k ∈ l.*1) ∧
  ∀ k v, (k, v) ∈ m → v = foldl (λ v w, add w v) (v0 k) (values_of k l).

Lemma grouped_nil : grouped [] [].
Proof. split_and!; [constructor|done|]. by intros k v ?%elem_of_nil. Qed.

Lemma values_of_fresh k l : k ∉ l.*1 → values_of k l = [].
Proof.
  induction l as [|[k' w] l IH]; [done|]. rewrite fmap_cons, not_elem_of_cons. intros [Hne Hin]. unfold values_of.
  rewrite filter_cons, decide_False by (cbn [fst] in *; congruence). by apply IH.
Qed.

Lemma grouped_snoc l m k w : grouped l m → grouped (l ++ [(k, w)]) (upsert k (v0 k) (add w) m).
Proof.
  intros (Hnd & Hk & Hv). assert (∀ k', values_of k' (l ++ [(k, w)]) = values_of k' l ++ if decide (k = k') then [w] else []) as Hvals.
  { intros k'. unfold values_of. rewrite filter_app, fmap_app, filter_cons, filter_nil. cbn [fst]. by destruct (decide (k = k')). }
  split_and!; [by apply upsert_nodup| |].
  - intros k'. rewrite upsert_keys, Hk, fmap_app, elem_of_app. change ([(k, w)].*1) with [k]. rewrite list_elem_of_singleton. tauto.
  - intros k' v Hin. apply upsert_elem in Hin as [[Hne Hin]|[-> [(v' & Hin & ->)|[Hnot ->]]]]; [| | |done].
    + rewrite Hvals, decide_False, app_nil_r by congruence. by apply Hv.
    + rewrite Hvals, decide_True, foldl_snoc by done. by rewrite <- (Hv k v').
    + rewrite Hvals, decide_True, values_of_fresh by (done || by rewrite <- Hk). done.
Qed.

(** A loop that adds all of [l]. *)
Lemma grouped_all l l' m :
  grouped l m → grouped (l ++ l') (foldl (λ m x, upsert x.1 (v0 x.1) (add x.2) m) m l').
Proof.
  revert l m. induction l' as [|[k w] l' IH]; intros l m Hm; [by rewrite app_nil_r|]. cbn [foldl fst snd].
  rewrite cons_middle, app_assoc. by apply IH, grouped_snoc.
Qed.

End Map.
