(* ===== verification/Varint.v ===== *)
(** Variable-length integers: [src/encoding/varint.cpp].

    [put_uvarint] writes into the caller's buffer and returns the number of
    bytes written; [read_uvarint] returns the value and the number of bytes
    consumed. A 64-bit integer is its value in [0, 2^64) (or [-2^63, 2^63)
    for the signed forms). *)

From S2P Require Import Prelude.

(** [encoding::ReadError] (error.hpp). *)
Inductive ReadError : Type :=
| EndOfStream
| UnexpectedEnd
| VarintOverflow.

#[export] Instance ReadError_eq_dec : EqDecision ReadError.
Proof. solve_decision. Defined.

Definition max_varint_len64 : nat := 10.

(** * Encoding *)

(** The [while (x >= 0x80)] loop and the final store. Each round shifts [x]
    right by 7, so a 64-bit [x] leaves the loop after at most nine rounds;
    [fuel] 10 is never exhausted ([put_uvarint_loop_fuel]). *)
Fixpoint put_uvarint_loop (fuel : nat) (buf : list Z) (i : nat) (x : Z) : list Z * nat :=
  match fuel with
  | S fuel =>
      if 0x80 <=? x
      then put_uvarint_loop fuel (<[i := Z.lor (u8 x) 0x80]> buf) (S i) (Z.shiftr x 7)
      else (<[i := u8 x]> buf, S i)
  | O => (<[i := u8 x]> buf, S i)
  end.

Definition put_uvarint (buf : list Z) (x : Z) : list Z * nat :=
  put_uvarint_loop max_varint_len64 buf 0 x.

(** Zigzag: [(x << 1) ^ (x >> 63)] on the 64-bit patterns. *)
Definition zigzag (x : Z) : Z :=
  let ux := u64 (Z.shiftl (u64 x) 1) in
  let sign := u64 (Z.shiftr x 63) in
  Z.lxor ux sign.

Definition put_varint (buf : list Z) (x : Z) : list Z * nat :=
  put_uvarint buf (zigzag x).

(** * Decoding *)

Fixpoint read_uvarint_loop (buf : list Z) (i : nat) (x s : Z)
    : outcome ReadError (Z * nat) :=
  match buf with
  | [] => Err UnexpectedEnd
  | b :: buf =>
      if (i =? max_varint_len64)%nat then Err VarintOverflow
      else if b <? 0x80 then
        if (i =? max_varint_len64 - 1)%nat && (1 <? b) then Err VarintOverflow
        else Ok (Z.lor x (u64 (Z.shiftl b s)), S i)
      else
        read_uvarint_loop buf (S i)
          (Z.lor x (u64 (Z.shiftl (Z.land b 0x7F) s))) (s + 7)
  end.

Definition read_uvarint (buf : list Z) : outcome ReadError (Z * nat) :=
  match buf with
  | [] => Err EndOfStream
  | _ => read_uvarint_loop buf 0 0 0
  end.

(** Reverse zigzag: [ux >> 1], complemented when the low bit is set. *)
Definition unzigzag (ux : Z) : Z :=
  let x := i64 (Z.shiftr ux 1) in
  if Z.land ux 1 =? 0 then x else Z.lnot x.

Definition read_varint (buf : list Z) : outcome ReadError (Z * nat) :=
  '(ux, n) ← read_uvarint buf;
  Ok (unzigzag ux, n).

(** * The encoding as a list of bytes *)

(** The LEB128 bytes of [x]. *)
Fixpoint leb128 (fuel : nat) (x : Z) : list Z :=
  match fuel with
  | S fuel =>
      if 0x80 <=? x then Z.lor (u8 x) 0x80 :: leb128 fuel (Z.shiftr x 7) else [u8 x]
  | O => [u8 x]
  end.

Definition uvarint_bytes (x : Z) : list Z := leb128 max_varint_len64 x.
Definition varint_bytes (x : Z) : list Z := uvarint_bytes (zigzag x).

(** What the callers append: a zeroed ten-byte buffer is filled and its first
    [n] bytes are used. *)
Definition uvarint_buf (x : Z) : list Z :=
  let '(buf, n) := put_uvarint (replicate max_varint_len64 0) x in take n buf.
Definition varint_buf (x : Z) : list Z :=
  let '(buf, n) := put_varint (replicate max_varint_len64 0) x in take n buf.

(** * Facts about the encoding *)

Lemma lor_0x80 x : Z.lor (u8 x) 0x80 = x mod 128 + 128.
Proof.
  assert (u8 x = x mod 128 + Z.b2z (Z.testbit x 7) * 128) as ->.
  { unfold u8. change (2 ^ 8) with (128 * 2). rewrite Z.rem_mul_r by lia.
    rewrite Z.testbit_spec' by lia. change (2 ^ 7) with 128. lia. }
  assert (Z.lor (x mod 128) 0x80 = x mod 128 + 128) as Hlor.
  { apply (lor_shiftl_add (x mod 128) 1 7); [lia|]. apply Z.mod_pos_bound; lia. }
  destruct (Z.testbit x 7); cbn [Z.b2z].
  - rewrite Z.mul_1_l, <- Hlor. by rewrite <- Z.lor_assoc, Z.lor_diag.
  - by rewrite Z.mul_0_l, Z.add_0_r.
Qed.

Lemma land_0x7F_lor_0x80 x : Z.land (Z.lor (u8 x) 0x80) 0x7F = x mod 128.
Proof.
  rewrite lor_0x80. change 0x7F with (2 ^ 7 - 1). rewrite land_ones_mod by lia.
  change (2 ^ 7) with 128. rewrite <- (Z.mul_1_l 128) at 2.
  by rewrite Z_mod_plus_full, Z.mod_mod.
Qed.

Lemma shiftr_7 x : Z.shiftr x 7 = x / 128.
Proof. by rewrite Z.shiftr_div_pow2 by lia. Qed.

Lemma leb128_ok fuel x : bytes_ok (leb128 fuel x).
Proof.
  revert x. induction fuel as [|fuel IH]; intros x; simpl; [|case_match].
  1, 3: by repeat constructor; auto with merlion.
  constructor; [|apply IH]. rewrite lor_0x80.
  pose proof (Z.mod_pos_bound x 128 eq_refl). width.
Qed.

Lemma leb128_length fuel x :
  0 <= x < 2 ^ (7 * Z.of_nat fuel) →
  length (leb128 fuel x) = S (Z.to_nat (Z.log2 x / 7)).
Proof.
  revert x. induction fuel as [|fuel IH]; intros x Hx; simpl leb128.
  { simpl in Hx. by assert (x = 0) as -> by lia. }
  rewrite Nat2Z.inj_succ, Z.mul_succ_r, Z.pow_add_r in Hx by lia.
  case_match eqn:Hlt; simpl length.
  - rewrite shiftr_7, IH by (split; [apply Z.div_pos; lia|apply Z.div_lt_upper_bound; lia]).
    change 128 with (2 ^ 7). rewrite <- Z.shiftr_div_pow2, Z.log2_shiftr by lia.
    assert (7 <= Z.log2 x) by (apply Z.log2_le_pow2; lia).
    rewrite Z.max_r by lia.
    replace (Z.log2 x) with (Z.log2 x - 7 + 1 * 7) at 2 by lia.
    rewrite Z.div_add, Z2Nat.inj_add by (try apply Z.div_pos; lia). lia.
  - rewrite Z.div_small; [done|]. split; [apply Z.log2_nonneg|].
    destruct (decide (x = 0)) as [->|]; [done|]. apply Z.log2_lt_pow2; lia.
Qed.

Lemma uvarint_bytes_length x :
  is_u64 x = true → length (uvarint_bytes x) = S (Z.to_nat (Z.log2 x / 7)).
Proof. intros. apply leb128_length. change (7 * _) with 70. width. Qed.

Lemma uvarint_bytes_length_le x :
  is_u64 x = true → (1 <= length (uvarint_bytes x) <= max_varint_len64)%nat.
Proof.
  intros Hx. rewrite uvarint_bytes_length by done. unfold max_varint_len64.
  assert (Z.log2 x <= 63).
  { destruct (decide (x = 0)) as [->|]; [done|]. apply Z.lt_succ_r, Z.log2_lt_pow2; width. }
  assert (Z.log2 x / 7 <= 9) by (apply Z.div_le_upper_bound; lia). lia.
Qed.

Lemma uvarint_bytes_ok x : bytes_ok (uvarint_bytes x).
Proof. apply leb128_ok. Qed.

#[export] Hint Resolve uvarint_bytes_ok : merlion.

(** The loop writes exactly the LEB128 bytes, in place. *)
Lemma put_uvarint_loop_eq fuel pre mid post x :
  length mid = length (leb128 fuel x) →
  put_uvarint_loop fuel (pre ++ mid ++ post) (length pre) x =
    (pre ++ leb128 fuel x ++ post, (length pre + length (leb128 fuel x))%nat).
Proof.
  revert pre mid x. induction fuel as [|fuel IH]; intros pre mid x Hlen; simpl in *;
    [|case_match; simpl in *]; destruct mid as [|m mid]; try discriminate;
    rewrite insert_app_r_alt, Nat.sub_diag by lia; simpl in *.
  1, 3: destruct mid; [|discriminate]; simpl; by rewrite Nat.add_1_r.
  replace (pre ++ _ :: mid ++ post)
    with ((pre ++ [Z.lor (u8 x) 0x80]) ++ mid ++ post) by by rewrite <- app_assoc.
  replace (S (length pre)) with (length (pre ++ [Z.lor (u8 x) 0x80]))
    by (rewrite length_app; simpl; lia).
  rewrite IH by lia. rewrite <- app_assoc, length_app. simpl. f_equal. lia.
Qed.

(** ** Zigzag *)

Lemma zigzag_eq x : is_i64 x = true → zigzag x = if x <? 0 then - 2 * x - 1 else 2 * x.
Proof.
  intros Hx. unfold zigzag.
  assert (Z.shiftr x 63 = if x <? 0 then -1 else 0) as ->.
  { rewrite Z.shiftr_div_pow2 by lia. case_match.
    - symmetry. apply (Z.div_unique _ _ _ (x + 2 ^ 63)); width.
    - apply Z.div_small. width. }
  rewrite Z.shiftl_mul_pow2 by lia. case_match.
  - change (u64 (-1)) with (2 ^ 64 - 1).
    apply Z.bits_inj'. intros i Hi. rewrite Z.lxor_spec.
    replace (- 2 * x - 1) with (Z.lnot (2 * x)) by (unfold Z.lnot; lia).
    rewrite Z.lnot_spec by lia.
    assert (u64 (u64 x * 2 ^ 1) = u64 (2 * x)) as ->.
    { unfold u64. rewrite Zmult_mod_idemp_l. f_equal. lia. }
    destruct (decide (i < 64)).
    + unfold u64. rewrite Z.mod_pow2_bits_low by lia.
      replace (2 ^ 64 - 1) with (Z.ones 64) by done.
      rewrite Z.ones_spec_low by lia. by destruct (Z.testbit _ _).
    + rewrite (testbit_above (u64 _) 64), (testbit_above (2 ^ 64 - 1) 64)
        by (pose proof (u64_range (2 * x)); width).
      rewrite <- Z.lnot_spec, (testbit_above _ 64) by (unfold Z.lnot; width). done.
  - change (u64 0) with 0. rewrite Z.lxor_0_r. unfold u64.
    rewrite (Z.mod_small x), Z.mod_small by width. lia.
Qed.

Lemma zigzag_range x : is_u64 (zigzag x) = true.
Proof. apply lxor_u64; apply u64_range. Qed.

#[export] Hint Resolve zigzag_range : merlion.

Lemma unzigzag_eq u :
  is_u64 u = true → unzigzag u = if Z.even u then u / 2 else - (u / 2) - 1.
Proof.
  intros Hu. unfold unzigzag. rewrite Z.shiftr_div_pow2 by lia. change (2 ^ 1) with 2.
  rewrite i64_small by (assert (0 <= u / 2 < 2 ^ 63) by
    (split; [apply Z.div_pos; width|apply Z.div_lt_upper_bound; width]); width).
  change 1 with (2 ^ 1 - 1) at 1. rewrite land_ones_mod by lia. change (2 ^ 1) with 2.
  rewrite Zmod_even. destruct (Z.even u); simpl; [done|]. unfold Z.lnot. lia.
Qed.

Lemma unzigzag_zigzag x : is_i64 x = true → unzigzag (zigzag x) = x.
Proof.
  intros Hx. rewrite unzigzag_eq by auto with merlion. rewrite zigzag_eq by done.
  destruct (x <? 0).
  - replace (- 2 * x - 1) with (1 + 2 * (- x - 1)) by lia.
    rewrite Z.even_add_mul_2. cbn [Z.even]. rewrite Z.mul_comm, Z.div_add by lia.
    change (1 / 2) with 0. lia.
  - rewrite Z.even_mul. cbn [Z.even orb]. rewrite Z.mul_comm, Z.div_mul by lia. done.
Qed.

Lemma zigzag_unzigzag u : is_u64 u = true → zigzag (unzigzag u) = u.
Proof.
  intros Hu. rewrite unzigzag_eq by done. pose proof (Z.div_mod u 2). 
  rewrite Zmod_even in *.
  rewrite zigzag_eq by (destruct (Z.even u); width).
  destruct (Z.even u); [destruct (Z.ltb_spec (u / 2) 0)|destruct (Z.ltb_spec (- (u / 2) - 1) 0)];
    width.
Qed.

Lemma unzigzag_range u : is_i64 (unzigzag u) = true.
Proof.
  unfold unzigzag. case_match; [apply i64_range|].
  pose proof (i64_range (Z.shiftr u 1)). unfold Z.lnot. width.
Qed.

(** ** Decoding the bytes *)

(** Appending a 7-bit group [g] at bit position [7 * i]. *)
Lemma lor_group acc g i :
  0 <= acc < 2 ^ (7 * Z.of_nat i) → 0 <= g →
  acc + g * 2 ^ (7 * Z.of_nat i) < 2 ^ 64 →
  Z.lor acc (u64 (Z.shiftl g (7 * Z.of_nat i))) = acc + g * 2 ^ (7 * Z.of_nat i).
Proof.
  intros Hacc Hg Hsum. rewrite u64_small.
  - by apply lor_shiftl_add; [lia|].
  - rewrite Z.shiftl_mul_pow2 by lia. width.
Qed.

Lemma read_uvarint_loop_last b acc i rest :
  0 <= b < 128 → 0 <= acc < 2 ^ (7 * Z.of_nat i) →
  acc + b * 2 ^ (7 * Z.of_nat i) < 2 ^ 64 → (i <= 9)%nat →
  read_uvarint_loop (b :: rest) i acc (7 * Z.of_nat i) =
    Ok (acc + b * 2 ^ (7 * Z.of_nat i), S i).
Proof.
  intros Hb Hacc Hsum Hi. cbn [read_uvarint_loop]. unfold max_varint_len64.
  destruct (Nat.eqb_spec i 10); [lia|].
  destruct (Z.ltb_spec b 128); [|lia]. rewrite lor_group by lia.
  destruct (Nat.eqb_spec i (10 - 1)) as [->|]; [|done].
  destruct (Z.ltb_spec 1 b); [|done].
  change (2 ^ (7 * _)) with (2 ^ 63) in Hsum. lia.
Qed.

Lemma read_uvarint_loop_more b acc i rest :
  0 <= b < 128 → 0 <= acc < 2 ^ (7 * Z.of_nat i) →
  acc + b * 2 ^ (7 * Z.of_nat i) < 2 ^ 64 → (i <= 9)%nat →
  read_uvarint_loop (b + 128 :: rest) i acc (7 * Z.of_nat i) =
    read_uvarint_loop rest (S i) (acc + b * 2 ^ (7 * Z.of_nat i)) (7 * Z.of_nat (S i)).
Proof.
  intros Hb Hacc Hsum Hi. cbn [read_uvarint_loop]. unfold max_varint_len64.
  destruct (Nat.eqb_spec i 10); [lia|].
  destruct (Z.ltb_spec (b + 128) 128); [lia|].
  change 127 with (2 ^ 7 - 1). rewrite land_ones_mod by lia. change (2 ^ 7) with (1 * 128).
  rewrite <- (Z.mul_1_l 128) at 1. rewrite Z.mul_1_l at 2.
  rewrite Z_mod_plus_full, Z.mod_small by lia.
  rewrite lor_group by lia. f_equal. lia.
Qed.

Lemma read_uvarint_loop_leb128 fuel y acc i rest :
  0 <= y < 2 ^ (7 * (Z.of_nat fuel + 1)) →
  0 <= acc < 2 ^ (7 * Z.of_nat i) →
  acc + y * 2 ^ (7 * Z.of_nat i) < 2 ^ 64 →
  (i <= 9)%nat →
  read_uvarint_loop (leb128 fuel y ++ rest) i acc (7 * Z.of_nat i) =
    Ok (acc + y * 2 ^ (7 * Z.of_nat i), (i + length (leb128 fuel y))%nat).
Proof.
  revert y acc i. induction fuel as [|fuel IH]; intros y acc i Hy Hacc Hsum Hi.
  { change (2 ^ (7 * _)) with 128 in Hy. simpl leb128. rewrite u8_small by width.
    rewrite Nat.add_1_r. by apply read_uvarint_loop_last. }
  simpl leb128. case_match eqn:Hlt.
  - pose proof (Z.div_mod y 128) as Hdm. pose proof (Z.mod_pos_bound y 128 eq_refl).
    rewrite lor_0x80, shiftr_7. simpl app.
    assert (2 ^ (7 * Z.of_nat (S i)) = 128 * 2 ^ (7 * Z.of_nat i)) as Hpow.
    { rewrite Nat2Z.inj_succ, Z.mul_succ_r, Z.pow_add_r by lia. lia. }
    assert (i <= 8)%nat.
    { destruct (decide (i = 9%nat)) as [->|]; [|lia].
      change (2 ^ (7 * _)) with (2 ^ 63) in Hsum. lia. }
    rewrite read_uvarint_loop_more by (done || lia || nia).
    rewrite IH; rewrite ?Hpow; [|split; [apply Z.div_pos|apply Z.div_lt_upper_bound]|..];
      try lia; try nia.
    + f_equal. f_equal; [nia|simpl; lia].
    + replace (128 * _) with (2 ^ (7 * (Z.of_nat (S fuel) + 1))); [lia|].
      change 128 with (2 ^ 7). rewrite <- Z.pow_add_r by lia. f_equal. lia.
  - rewrite u8_small by width. rewrite Nat.add_1_r.
    by apply read_uvarint_loop_last; [lia|..].
Qed.

Lemma leb128_nonempty fuel x : leb128 fuel x ≠ [].
Proof. destruct fuel; simpl; [done|by case_match]. Qed.

Lemma uvarint_bytes_nonempty x : uvarint_bytes x ≠ [].
Proof. apply leb128_nonempty. Qed.

Lemma read_uvarint_nonempty buf :
  buf ≠ [] → read_uvarint buf = read_uvarint_loop buf 0 0 0.
Proof. by destruct buf. Qed.

Lemma read_uvarint_bytes x rest :
  is_u64 x = true →
  read_uvarint (uvarint_bytes x ++ rest) = Ok (x, length (uvarint_bytes x)).
Proof.
  intros Hx. rewrite read_uvarint_nonempty
    by (intros [H _]%app_eq_nil; by apply leb128_nonempty in H).
  pose proof (read_uvarint_loop_leb128 max_varint_len64 x 0 0 rest) as Hread.
  change (7 * Z.of_nat 0) with 0 in Hread. unfold uvarint_bytes.
  change (7 * (Z.of_nat max_varint_len64 + 1)) with 77 in Hread.
  rewrite Hread by (change (2 ^ 0) with 1; width || lia).
  by rewrite Z.mul_1_r, Z.add_0_l.
Qed.

Lemma read_varint_bytes x rest :
  is_i64 x = true →
  read_varint (varint_bytes x ++ rest) = Ok (x, length (varint_bytes x)).
Proof.
  intros Hx. unfold read_varint, varint_bytes.
  rewrite read_uvarint_bytes by auto with merlion. simpl. by rewrite unzigzag_zigzag.
Qed.

(** A successful read consumes between one and ten bytes, yields a 64-bit
    value, and does not depend on the bytes it did not consume. *)
Lemma read_uvarint_loop_ok buf i x s v n rest :
  (i <= 10)%nat → is_u64 x = true → read_uvarint_loop buf i x s = Ok (v, n) →
  (i < n <= i + length buf)%nat ∧ (n <= 10)%nat ∧ is_u64 v = true ∧
  read_uvarint_loop (take (n - i) buf ++ rest) i x s = Ok (v, n).
Proof.
  revert i x s. induction buf as [|b buf IH]; intros i x s Hmax Hx; [done|].
  cbn [read_uvarint_loop]. unfold max_varint_len64.
  destruct (i =? 10)%nat eqn:Hi; [done|].
  destruct (b <? 128) eqn:Hlt.
  - destruct (_ && _) eqn:Hlast; [done|]. intros [= <- <-].
    split_and!; [lia|simpl; lia|lia|auto with merlion|].
    rewrite Nat.sub_succ_l, Nat.sub_diag by lia. cbn [take app read_uvarint_loop].
    unfold max_varint_len64. by rewrite Hi, Hlt, Hlast.
  - intros Hread. apply IH in Hread as (Hn & Hmax' & Hv & Hread); [|lia|by auto with merlion].
    split_and!; [lia|simpl; lia|lia|done|].
    replace (n - i)%nat with (S (n - S i)) by lia. cbn [take app read_uvarint_loop].
    unfold max_varint_len64. by rewrite Hi, Hlt.
Qed.

Lemma read_uvarint_ok buf v n rest :
  read_uvarint buf = Ok (v, n) →
  (1 <= n <= length buf)%nat ∧ (n <= max_varint_len64)%nat ∧ is_u64 v = true ∧
  read_uvarint (take n buf ++ rest) = Ok (v, n).
Proof.
  intros Hread. destruct buf as [|b buf]; [done|].
  apply (read_uvarint_loop_ok _ _ _ _ _ _ rest) in Hread as (? & ? & ? & Hread); [|lia|done].
  rewrite Nat.sub_0_r in Hread. unfold max_varint_len64 in *. split_and!; [lia..|done|].
  by destruct n as [|n]; [lia|].
Qed.

Lemma put_uvarint_eq buf x :
  is_u64 x = true → (max_varint_len64 <= length buf)%nat →
  put_uvarint buf x =
    (uvarint_bytes x ++ drop (length (uvarint_bytes x)) buf, length (uvarint_bytes x)).
Proof.
  intros Hx Hbuf. pose proof (uvarint_bytes_length_le x Hx).
  unfold put_uvarint. rewrite <- (take_drop (length (uvarint_bytes x)) buf) at 1.
  apply (put_uvarint_loop_eq _ []). by rewrite length_take, Nat.min_l by lia.
Qed.

Lemma uvarint_buf_eq x : is_u64 x = true → uvarint_buf x = uvarint_bytes x.
Proof.
  intros. unfold uvarint_buf. rewrite put_uvarint_eq by (done || rewrite length_replicate; done).
  by rewrite take_app_length.
Qed.

Lemma varint_buf_eq x : varint_buf x = varint_bytes x.
Proof. apply uvarint_buf_eq, zigzag_range. Qed.

(** * Properties *)

(** For every 64-bit [x], [put_uvarint] writes the LEB128 bytes of [x] at
    the front of a buffer of at least ten bytes, leaves the rest of the buffer
    alone, and returns the number of bytes written, which is
    floor(log2 x / 7) + 1 and never more than ten. *)
Theorem put_uvarint_writes (buf : list Z) (x : Z) :
  is_u64 x = true → (max_varint_len64 <= length buf)%nat →
  let n := S (Z.to_nat (Z.log2 x / 7)) in
  put_uvarint buf x = (uvarint_bytes x ++ drop n buf, n) ∧ (n <= max_varint_len64)%nat.
Proof.
  intros Hx Hbuf n. unfold n. rewrite put_uvarint_eq by done.
  rewrite <- uvarint_bytes_length by done. by split; [|apply uvarint_bytes_length_le].
Qed.

Lemma put_uvarint_writes_witness :
  let n := S (Z.to_nat (Z.log2 300 / 7)) in
  put_uvarint (replicate 12 7) 300 = (uvarint_bytes 300 ++ drop n (replicate 12 7), n) ∧
  (n <= max_varint_len64)%nat.
Proof. apply (put_uvarint_writes (replicate 12 7) 300); [reflexivity|simpl; unfold max_varint_len64; lia]. Defined.

(** What [put_varint] writes for any [int64] value is read back by
    [read_varint], which returns that value and consumes exactly the bytes
    written, whatever follows them. *)
Theorem varint_roundtrip (x : Z) (rest : list Z) :
  is_i64 x = true →
  let '(buf, n) := put_varint (replicate max_varint_len64 0) x in
  read_varint (take n buf ++ rest) = Ok (x, n).
Proof.
  intros Hx. pose proof (varint_buf_eq x) as Heq. unfold varint_buf, put_varint in *.
  rewrite put_uvarint_eq in * by (auto with merlion).
  rewrite take_app_length. by apply read_varint_bytes.
Qed.

Lemma varint_roundtrip_witness :
  let '(buf, n) := put_varint (replicate max_varint_len64 0) (-129) in
  read_varint (take n buf ++ [1; 2]) = Ok (-129, n).
Proof. apply (varint_roundtrip (-129) [1; 2]). reflexivity. Defined.

Lemma read_uvarint_loop_continue l i x s :
  Forall (λ b, 128 <= b) l → (i + length l <= 10)%nat →
  read_uvarint_loop l i x s = Err UnexpectedEnd.
Proof.
  intros Hl. revert i x s. induction Hl as [|b l Hb Hl IH]; intros i x s Hlen; [done|].
  cbn [read_uvarint_loop length] in *. unfold max_varint_len64.
  destruct (Nat.eqb_spec i 10); [lia|]. destruct (Z.ltb_spec b 128); [lia|].
  apply IH. lia.
Qed.

Lemma leb128_prefix_continue fuel x k :
  (k < length (leb128 fuel x))%nat → Forall (λ b, 128 <= b) (take k (leb128 fuel x)).
Proof.
  revert x k. induction fuel as [|fuel IH]; intros x k Hk; simpl in *; [|case_match].
  1, 3: simpl in Hk; by replace k with 0%nat by lia.
  destruct k as [|k]; simpl in *; constructor.
  - rewrite lor_0x80. pose proof (Z.mod_pos_bound x 128). lia.
  - apply IH. lia.
Qed.

(** A truncated varint is always reported: reading any strict prefix of
    the bytes of [x] fails with [EndOfStream] on the empty prefix and with
    [UnexpectedEnd] otherwise. *)
Theorem read_uvarint_truncated (x : Z) (k : nat) :
  is_u64 x = true → (k < length (uvarint_bytes x))%nat →
  read_uvarint (take k (uvarint_bytes x)) =
    Err (if (k =? 0)%nat then EndOfStream else UnexpectedEnd).
Proof.
  intros Hx Hk. pose proof (uvarint_bytes_length_le x Hx) as [_ Hlen].
  destruct k as [|k]; [done|]. rewrite read_uvarint_nonempty.
  - apply read_uvarint_loop_continue; [by apply leb128_prefix_continue|].
    rewrite length_take. unfold max_varint_len64 in *. lia.
  - intros Hnil%(f_equal length). rewrite length_take in Hnil. cbn [length] in Hnil. lia.
Qed.

Lemma read_uvarint_truncated_witness :
  read_uvarint (take 1 (uvarint_bytes 300)) = Err UnexpectedEnd.
Proof. apply (read_uvarint_truncated 300 1); [reflexivity|by apply Nat.ltb_lt]. Defined.
