(* ===== verification/Crc32c.v ===== *)
(** CRC32-Castagnoli: [include/merlion_tsdb/encoding/crc32c.hpp] and
    [src/encoding/crc32c.cpp], with the bit-at-a-time definition the
    table-driven loop has to agree with. *)

From S2P Require Import Prelude.

Definition k_init : Z := 0xFFFFFFFF.
Definition k_check : Z := 0xE3069283.
Definition k_poly_reversed : Z := 0x82F63B78.

(** One round of the inner loop of [k_table]. *)
Definition crc_step (c : Z) : Z :=
  if Z.land c 1 =? 0 then Z.shiftr c 1 else Z.lxor k_poly_reversed (Z.shiftr c 1).

Definition table_entry (i : Z) : Z := Nat.iter 8 crc_step i.

(** The 256 entries, computed once as the [constexpr] initialiser does. *)
Definition k_table : list Z :=
  Eval vm_compute in (λ i, table_entry (Z.of_nat i)) <$> seq 0 256.

Fixpoint update (state : Z) (data : list Z) : Z :=
  match data with
  | [] => state
  | b :: data =>
      let idx := Z.land (Z.lxor state b) 0xFF in
      update (Z.lxor (nth (Z.to_nat idx) k_table 0) (Z.shiftr state 8)) data
  end.

Definition finalize (state : Z) : Z := Z.lxor state k_init.

Definition compute (data : list Z) : Z := finalize (update k_init data).

(** * Reference definition: one bit at a time *)

Fixpoint crc_bitwise (state : Z) (data : list Z) : Z :=
  match data with
  | [] => state
  | b :: data => crc_bitwise (Nat.iter 8 crc_step (Z.lxor state b)) data
  end.

(** * Facts *)

Lemma k_table_eq i : 0 <= i < 256 → nth (Z.to_nat i) k_table 0 = table_entry i.
Proof.
  intros Hi. assert (k_table = (λ i, table_entry (Z.of_nat i)) <$> seq 0 256) as ->
    by (vm_compute; reflexivity).
  pose proof (map_nth (λ i, table_entry (Z.of_nat i)) (seq 0 256) 0%nat (Z.to_nat i)) as Hnth.
  rewrite seq_nth in Hnth by lia. change (table_entry (Z.of_nat 0)) with 0 in Hnth.
  replace (Z.of_nat (0 + Z.to_nat i)) with i in Hnth by lia. exact Hnth.
Qed.

Lemma crc_step_bit c i :
  0 <= c → 0 <= i →
  Z.testbit (crc_step c) i = xorb (Z.testbit c 0 && Z.testbit k_poly_reversed i) (Z.testbit c (i + 1)).
Proof.
  intros Hc Hi. unfold crc_step.
  replace (Z.land c 1 =? 0) with (negb (Z.testbit c 0)).
  2: { change 1 with (2 ^ 1 - 1). rewrite land_ones_mod by lia. change (2 ^ 1) with 2.
       rewrite <- Z.bit0_mod. by destruct (Z.testbit c 0). }
  destruct (Z.testbit c 0); cbn [negb andb].
  - by rewrite Z.lxor_spec, Z.shiftr_spec by lia.
  - by rewrite Z.shiftr_spec, xorb_false_l by lia.
Qed.

Lemma crc_step_nonneg c : 0 <= c → 0 <= crc_step c.
Proof.
  intros. unfold crc_step. case_match.
  - by apply Z.shiftr_nonneg.
  - apply Z.lxor_nonneg. split; [intros _; by apply Z.shiftr_nonneg|done].
Qed.

Lemma iter_crc_step_nonneg n c : 0 <= c → 0 <= Nat.iter n crc_step c.
Proof. intros. induction n; simpl; auto using crc_step_nonneg. Qed.

Lemma crc_step_lxor a b :
  0 <= a → 0 <= b → crc_step (Z.lxor a b) = Z.lxor (crc_step a) (crc_step b).
Proof.
  intros Ha Hb. apply Z.bits_inj'. intros i Hi.
  rewrite Z.lxor_spec, !crc_step_bit by (try apply Z.lxor_nonneg; lia).
  rewrite !Z.lxor_spec.
  by destruct (Z.testbit a 0), (Z.testbit b 0), (Z.testbit k_poly_reversed i),
    (Z.testbit a (i + 1)), (Z.testbit b (i + 1)).
Qed.

Lemma iter_crc_step_lxor n a b :
  0 <= a → 0 <= b →
  Nat.iter n crc_step (Z.lxor a b) = Z.lxor (Nat.iter n crc_step a) (Nat.iter n crc_step b).
Proof.
  intros Ha Hb. induction n as [|n IH]; [done|]. simpl.
  by rewrite IH, crc_step_lxor by auto using iter_crc_step_nonneg.
Qed.

(** Shifting out zero bits leaves the higher bits alone. *)
Lemma iter_crc_step_shiftl n h :
  0 <= h → Nat.iter n crc_step (Z.shiftl h (Z.of_nat n)) = h.
Proof.
  intros Hh. induction n as [|n IH]; [by rewrite Z.shiftl_0_r|].
  rewrite Nat.iter_succ_r. etransitivity; [|exact IH]. f_equal.
  apply Z.bits_inj'. intros i Hi. rewrite crc_step_bit by (try apply Z.shiftl_nonneg; lia).
  rewrite !Z.shiftl_spec, (Z.testbit_neg_r h (0 - _)) by lia.
  cbn [andb]. rewrite xorb_false_l. f_equal. lia.
Qed.

Lemma crc_step_range c : 0 <= c < 2 ^ 32 → 0 <= crc_step c < 2 ^ 32.
Proof.
  intros Hc. assert (0 <= Z.shiftr c 1 < 2 ^ 32).
  { rewrite Z.shiftr_div_pow2 by lia. change (2 ^ 1) with 2.
    split; [apply Z.div_pos; lia|apply Z.div_lt_upper_bound; lia]. }
  unfold crc_step. case_match; [done|]. by apply lxor_pow2; [lia|unfold k_poly_reversed; lia|].
Qed.

Lemma iter_crc_step_range n c : 0 <= c < 2 ^ 32 → 0 <= Nat.iter n crc_step c < 2 ^ 32.
Proof. intros. induction n; simpl; auto using crc_step_range. Qed.

Lemma crc_step_inj a b :
  0 <= a < 2 ^ 32 → 0 <= b < 2 ^ 32 → crc_step a = crc_step b → a = b.
Proof.
  intros Ha Hb Heq.
  assert (∀ i, 0 <= i → xorb (Z.testbit a 0 && Z.testbit k_poly_reversed i) (Z.testbit a (i + 1)) =
                        xorb (Z.testbit b 0 && Z.testbit k_poly_reversed i) (Z.testbit b (i + 1))) as Hbit.
  { intros i Hi. rewrite <- !crc_step_bit by lia. by rewrite Heq. }
  assert (Z.testbit a 0 = Z.testbit b 0) as H0.
  { specialize (Hbit 31 ltac:(lia)). rewrite (testbit_above a 32 (31 + 1)), (testbit_above b 32 (31 + 1)) in Hbit by lia.
    change (Z.testbit k_poly_reversed 31) with true in Hbit.
    by destruct (Z.testbit a 0), (Z.testbit b 0). }
  apply Z.bits_inj'. intros i Hi. destruct (decide (i = 0)) as [->|]; [done|].
  specialize (Hbit (i - 1) ltac:(lia)). rewrite H0 in Hbit. rewrite Z.sub_add in Hbit.
  by destruct (Z.testbit b 0 && _), (Z.testbit a i), (Z.testbit b i).
Qed.

Lemma iter_crc_step_inj n a b :
  0 <= a < 2 ^ 32 → 0 <= b < 2 ^ 32 → Nat.iter n crc_step a = Nat.iter n crc_step b → a = b.
Proof.
  intros Ha Hb. induction n as [|n IH]; simpl; [done|]. intros Heq.
  apply IH, crc_step_inj; auto using iter_crc_step_range.
Qed.

(** One table lookup does the work of eight rounds. *)
Lemma table_lookup s :
  0 <= s →
  Nat.iter 8 crc_step s = Z.lxor (nth (Z.to_nat (Z.land s 0xFF)) k_table 0) (Z.shiftr s 8).
Proof.
  intros Hs. change 0xFF with (2 ^ 8 - 1). rewrite land_ones_mod by lia.
  pose proof (Z.mod_pos_bound s (2 ^ 8)). rewrite k_table_eq by lia.
  assert (s = Z.lxor (s mod 2 ^ 8) (Z.shiftl (Z.shiftr s 8) 8)) as Hsplit.
  { apply Z.bits_inj'. intros i Hi. rewrite Z.lxor_spec, Z.shiftl_spec by lia.
    destruct (decide (i < 8)).
    - rewrite Z.mod_pow2_bits_low, (Z.testbit_neg_r _ (i - 8)) by lia. by rewrite xorb_false_r.
    - rewrite Z.mod_pow2_bits_high, Z.shiftr_spec by lia. by rewrite Z.sub_add. }
  assert (0 <= Z.shiftr s 8) by by apply Z.shiftr_nonneg.
  rewrite Hsplit at 1. rewrite iter_crc_step_lxor by (try apply Z.shiftl_nonneg; lia).
  f_equal. by apply (iter_crc_step_shiftl 8).
Qed.

Lemma land_byte_lxor s b :
  0 <= s → is_byte b = true →
  Z.shiftr (Z.lxor s b) 8 = Z.shiftr s 8.
Proof.
  intros Hs Hb. apply Z.bits_inj'. intros i Hi.
  rewrite !Z.shiftr_spec, Z.lxor_spec, (testbit_above b 8) by (width || lia).
  apply xorb_false_r.
Qed.

Lemma update_bitwise s data :
  0 <= s → bytes_ok data → update s data = crc_bitwise s data.
Proof.
  intros Hs Hdata. revert s Hs. induction Hdata as [|b data Hb Hdata IH]; intros s Hs; [done|].
  assert (0 <= Z.lxor s b) by (apply Z.lxor_nonneg; width).
  cbn [update crc_bitwise]. rewrite table_lookup, land_byte_lxor by done.
  apply IH. rewrite <- (land_byte_lxor s b), <- table_lookup by done.
  by apply iter_crc_step_nonneg.
Qed.

Lemma crc_bitwise_range s data :
  0 <= s < 2 ^ 32 → bytes_ok data → 0 <= crc_bitwise s data < 2 ^ 32.
Proof.
  intros Hs Hdata. revert s Hs. induction Hdata as [|b data Hb Hdata IH]; intros s Hs; [done|].
  apply IH, iter_crc_step_range, lxor_pow2; width || lia.
Qed.

Lemma update_range s data :
  0 <= s < 2 ^ 32 → bytes_ok data → 0 <= update s data < 2 ^ 32.
Proof. intros. rewrite update_bitwise by (done || lia). by apply crc_bitwise_range. Qed.

Lemma update_app s d1 d2 : update s (d1 ++ d2) = update (update s d1) d2.
Proof. revert s. induction d1; intros s; simpl; auto. Qed.

Lemma compute_range data : bytes_ok data → 0 <= compute data < 2 ^ 32.
Proof.
  intros. apply lxor_pow2; [lia| |unfold k_init; lia].
  apply update_range; [unfold k_init; lia|done].
Qed.

(** Feeding bytes is feeding the bits of their little-endian value. *)
Fixpoint le_val (l : list Z) : Z :=
  match l with
  | [] => 0
  | b :: l => Z.lxor b (Z.shiftl (le_val l) 8)
  end.

Lemma le_val_range l : bytes_ok l → 0 <= le_val l < 2 ^ (8 * Z.of_nat (length l)).
Proof.
  induction 1 as [|b l Hb Hl IH]; [done|]. cbn [le_val length].
  replace (8 * Z.of_nat (S (length l))) with (8 + 8 * Z.of_nat (length l)) by lia.
  apply lxor_pow2; [lia|..].
  - split; [width|]. apply Z.lt_le_trans with (2 ^ 8); [width|]. apply Z.pow_le_mono_r; lia.
  - rewrite Z.shiftl_mul_pow2, Z.pow_add_r by lia. nia.
Qed.

Lemma le_val_inj l1 l2 :
  bytes_ok l1 → bytes_ok l2 → length l1 = length l2 → le_val l1 = le_val l2 → l1 = l2.
Proof.
  intros Hl1. revert l2. induction Hl1 as [|b1 l1 Hb1 Hl1 IH]; intros l2 Hl2 Hlen Heq;
    destruct Hl2 as [|b2 l2 Hb2 Hl2]; try discriminate; [done|]. simpl in Heq.
  assert (∀ b l i, is_byte b = true → 0 <= i →
    Z.testbit (Z.lxor b (Z.shiftl (le_val l) 8)) i =
      if i <? 8 then Z.testbit b i else Z.testbit (le_val l) (i - 8)) as Hbit.
  { intros b l i Hb Hi. rewrite Z.lxor_spec, Z.shiftl_spec by lia. case_match.
    - rewrite (Z.testbit_neg_r _ (i - 8)) by lia. apply xorb_false_r.
    - by rewrite (testbit_above b 8), xorb_false_l by (width || lia). }
  assert (∀ i, 0 <= i → Z.testbit (Z.lxor b1 (Z.shiftl (le_val l1) 8)) i =
                        Z.testbit (Z.lxor b2 (Z.shiftl (le_val l2) 8)) i) as Hi
    by by rewrite Heq.
  f_equal.
  - apply Z.bits_inj'. intros i Hpos. destruct (decide (i < 8)).
    + specialize (Hi i Hpos). rewrite !Hbit in Hi by done.
      by destruct (Z.ltb_spec i 8); [|lia].
    + by rewrite !(testbit_above _ 8) by (width || lia).
  - apply IH; [done|by injection Hlen|]. apply Z.bits_inj'. intros i Hpos.
    specialize (Hi (i + 8) ltac:(lia)). rewrite !Hbit in Hi by (done || lia).
    destruct (Z.ltb_spec (i + 8) 8); [lia|]. by rewrite Z.add_simpl_r in Hi.
Qed.

Lemma crc_bitwise_le_val s data :
  0 <= s → bytes_ok data →
  crc_bitwise s data = Nat.iter (8 * length data) crc_step (Z.lxor s (le_val data)).
Proof.
  intros Hs Hdata. revert s Hs. induction Hdata as [|b data Hb Hdata IH]; intros s Hs.
  { simpl. by rewrite Z.lxor_0_r. }
  assert (0 <= Z.lxor s b) by (apply Z.lxor_nonneg; width).
  cbn [crc_bitwise le_val length]. rewrite IH by by apply iter_crc_step_nonneg.
  replace (8 * S (length data))%nat with (8 * length data + 8)%nat by lia.
  rewrite Nat.iter_add. f_equal. pose proof (le_val_range data Hdata).
  rewrite <- Z.lxor_assoc, (iter_crc_step_lxor 8 (Z.lxor s b))
    by (try apply Z.shiftl_nonneg; lia).
  f_equal. symmetry. apply (iter_crc_step_shiftl 8). lia.
Qed.

Lemma crc_bitwise_inj s1 s2 data :
  0 <= s1 < 2 ^ 32 → 0 <= s2 < 2 ^ 32 → bytes_ok data →
  crc_bitwise s1 data = crc_bitwise s2 data → s1 = s2.
Proof.
  intros H1 H2 Hdata. revert s1 s2 H1 H2.
  induction Hdata as [|b data Hb Hdata IH]; intros s1 s2 H1 H2 Heq; [done|].
  apply IH in Heq; [|by apply iter_crc_step_range, lxor_pow2; width || lia..].
  apply iter_crc_step_inj in Heq; [|by apply lxor_pow2; width || lia..].
  rewrite <- (Z.lxor_0_r s1), <- (Z.lxor_0_r s2), <- (Z.lxor_nilpotent b), <- !Z.lxor_assoc.
  by f_equal.
Qed.

Lemma lxor_cancel_r a b c : Z.lxor a c = Z.lxor b c → a = b.
Proof.
  intros Heq. apply (f_equal (λ z, Z.lxor z c)) in Heq.
  by rewrite !Z.lxor_assoc, Z.lxor_nilpotent, !Z.lxor_0_r in Heq.
Qed.

Lemma le_val_range_4 l : bytes_ok l → (length l <= 4)%nat → 0 <= le_val l < 2 ^ 32.
Proof.
  intros Hl Hlen. pose proof (le_val_range l Hl).
  assert (2 ^ (8 * Z.of_nat (length l)) <= 2 ^ 32) by (apply Z.pow_le_mono_r; lia). lia.
Qed.

(** Data that differ in at most four consecutive bytes have different sums. *)
Lemma compute_burst (pre x y post : list Z) :
  bytes_ok (pre ++ x ++ post) → bytes_ok y →
  length x = length y → (length x <= 4)%nat → x ≠ y →
  compute (pre ++ x ++ post) ≠ compute (pre ++ y ++ post).
Proof.
  intros (Hpre & (Hx & Hpost)%Forall_app)%Forall_app Hy Hlen Hle Hne Heq.
  assert (0 <= update k_init pre < 2 ^ 32) as Hs by (apply update_range; [unfold k_init; lia|done]).
  unfold compute, finalize in Heq. rewrite !update_app in Heq.
  apply lxor_cancel_r in Heq. revert Hs Heq. generalize (update k_init pre) as s. intros s Hs.
  rewrite !(update_bitwise s), !update_bitwise by (done || lia || by apply crc_bitwise_range).
  intros Heq. apply crc_bitwise_inj in Heq; [|by try apply crc_bitwise_range..].
  rewrite !crc_bitwise_le_val, <- Hlen in Heq by (done || lia).
  pose proof (le_val_range_4 x Hx Hle). pose proof (le_val_range_4 y Hy ltac:(lia)).
  apply iter_crc_step_inj in Heq; [|by apply lxor_pow2; lia..].
  rewrite !(Z.lxor_comm s) in Heq. apply lxor_cancel_r in Heq.
  by apply Hne, le_val_inj.
Qed.

(** * Properties *)

(** C33: the table-driven [update] computes the bit-at-a-time CRC of the
    reversed Castagnoli polynomial, for every state and every input. *)
Theorem update_is_bitwise_crc (state : Z) (data : list Z) :
  0 <= state < 2 ^ 32 → bytes_ok data →
  update state data = crc_bitwise state data ∧ 0 <= update state data < 2 ^ 32.
Proof.
  intros. split; [apply update_bitwise; [lia|done]|by apply update_range].
Qed.

Lemma update_is_bitwise_crc_witness :
  update k_init [0x31; 0x32] = crc_bitwise k_init [0x31; 0x32] ∧
  0 <= update k_init [0x31; 0x32] < 2 ^ 32.
Proof.
  apply (update_is_bitwise_crc k_init [0x31; 0x32]); [unfold k_init; lia|].
  repeat constructor.
Defined.

(** The check value of the header: the CRC of the ASCII digits 1 to 9. *)
Example compute_check : compute [0x31; 0x32; 0x33; 0x34; 0x35; 0x36; 0x37; 0x38; 0x39] = k_check.
Proof. reflexivity. Qed.

(** C34: the checksum detects every corruption confined to four consecutive
    bytes: replacing the bytes [x] by different bytes [y] of the same length
    (at most four) anywhere in the data changes [compute]. *)
Theorem compute_detects_burst (pre x y post : list Z) :
  bytes_ok (pre ++ x ++ post) → bytes_ok y →
  length x = length y → (length x <= 4)%nat → x ≠ y →
  compute (pre ++ x ++ post) ≠ compute (pre ++ y ++ post).
Proof. apply compute_burst. Qed.

Lemma compute_detects_burst_witness :
  compute ([1; 2] ++ [3; 4] ++ [5]) ≠ compute ([1; 2] ++ [3; 0] ++ [5]).
Proof.
  apply (compute_detects_burst [1; 2] [3; 4] [3; 0] [5]);
    [repeat constructor|repeat constructor|reflexivity|simpl; lia|discriminate].
Defined.
