(* ===== verification/BStream.v ===== *)
(** Bit streams: [include/merlion_tsdb/encoding/bstream.hpp] and
    [src/encoding/bstream.cpp]. [BitWriter] and [BitReader] keep the fields of
    the two classes; [repr] gives the bit list each of them stands for. *)

From S2P Require Import Prelude Varint.

(** * BitWriter *)

Module BitWriter.

(** [stream_] and [count_]: the number of low bits of the last byte that are
    still free. *)
Record t : Type := mk { stream_ : list Z; count_ : nat }.

#[export] Instance t_eq_dec : EqDecision t.
Proof. solve_decision. Defined.

(** [BitWriter()], [BitWriter(stream)] and [reset(stream)]: the adopted bytes
    are taken to be byte-aligned. *)
Definition reset (stream : list Z) : t := mk stream 0.

Definition bytes (w : t) : list Z := stream_ w.

(** [release()]: the buffer goes to the caller and the writer is empty. *)
Definition release (w : t) : list Z * t := (stream_ w, mk [] 0).

(** [stream_.back() |= m]. *)
Definition or_back (m : Z) (s : list Z) : list Z :=
  alter (λ x, Z.lor x m) (pred (length s)) s.

Definition write_bit (b : bool) (w : t) : t :=
  let w := if (count_ w =? 0)%nat then mk (stream_ w ++ [0]) 8 else w in
  let s := if b then or_back (u8 (Z.shiftl 1 (Z.of_nat (count_ w) - 1))) (stream_ w)
           else stream_ w in
  mk s (count_ w - 1).

Definition write_byte (byt : Z) (w : t) : t :=
  if (count_ w =? 0)%nat then mk (stream_ w ++ [byt]) 0
  else
    let s := or_back (u8 (Z.shiftr byt (8 - Z.of_nat (count_ w)))) (stream_ w) in
    mk (s ++ [u8 (Z.shiftl byt (Z.of_nat (count_ w)))]) (count_ w).

(** [while (nbits >= 8)]: one byte per round; [fuel] is the initial [nbits]. *)
Fixpoint write_bits_bytes (fuel : nat) (u : Z) (nbits : nat) (w : t) : Z * nat * t :=
  match fuel with
  | S fuel =>
      if (8 <=? nbits)%nat
      then write_bits_bytes fuel (u64 (Z.shiftl u 8)) (nbits - 8)
             (write_byte (u8 (Z.shiftr u 56)) w)
      else (u, nbits, w)
  | O => (u, nbits, w)
  end.

(** [while (nbits > 0)]: one bit per round. *)
Fixpoint write_bits_bits (u : Z) (nbits : nat) (w : t) : t :=
  match nbits with
  | S nbits =>
      write_bits_bits (u64 (Z.shiftl u 1)) nbits (write_bit (negb (Z.shiftr u 63 =? 0)) w)
  | O => w
  end.

(** Asserts [nbits <= 64]; larger counts are excluded at the call sites. *)
Definition write_bits (u : Z) (nbits : nat) (w : t) : t :=
  if (nbits =? 0)%nat then w
  else
    let u := u64 (Z.shiftl u (64 - Z.of_nat nbits)) in
    let '(u, nbits, w) := write_bits_bytes nbits u nbits w in
    write_bits_bits u nbits w.

(** [w] stands for the bits [bs]: its bytes spell [bs] followed by [count_]
    zero bits. *)
Definition repr (w : t) (bs : list bool) : Prop :=
  bytes_ok (stream_ w) ∧ (count_ w < 8)%nat ∧
  stream_bits (stream_ w) = bs ++ replicate (count_ w) false.

End BitWriter.

(** * BitReader *)

Module BitReader.

Record t : Type := mk {
  stream_ : list Z;
  stream_offset_ : nat;  (* next byte of stream_ to load into buffer_ *)
  buffer_ : Z;
  valid_ : nat;          (* number of valid low bits of buffer_ *)
  last_ : Z;             (* copy of stream_.back() *)
}.

Definition init (bytes : list Z) : t := mk bytes 0 0 0 (List.last bytes 0).

Definition set_valid (n : nat) (r : t) : t :=
  mk (stream_ r) (stream_offset_ r) (buffer_ r) n (last_ r).

Definition at_end (r : t) : bool :=
  (length (stream_ r) <=? stream_offset_ r)%nat && (valid_ r =? 0)%nat.

(** [memcpy] of eight bytes on a little-endian host. *)
Definition load_le (l : list Z) : Z := foldr (λ b acc, b + 256 * acc) 0 l.

(** The byte swap of the fast path. *)
Definition bswap (b : Z) : Z :=
  Z.lor (Z.lor (Z.lor (Z.lor (Z.lor (Z.lor (Z.lor
    (u64 (Z.shiftl (Z.land b 0x00000000000000FF) 56))
    (u64 (Z.shiftl (Z.land b 0x000000000000FF00) 40)))
    (u64 (Z.shiftl (Z.land b 0x0000000000FF0000) 24)))
    (u64 (Z.shiftl (Z.land b 0x00000000FF000000) 8)))
    (Z.shiftr (Z.land b 0x000000FF00000000) 8))
    (Z.shiftr (Z.land b 0x0000FF0000000000) 24))
    (Z.shiftr (Z.land b 0x00FF000000000000) 40))
    (Z.shiftr (Z.land b 0xFF00000000000000) 56).

Definition load_next_buffer (nbits : nat) (r : t) : bool * t :=
  let size := length (stream_ r) in
  let off := stream_offset_ r in
  if (size <=? off)%nat then (false, r)
  else if (off + 8 <? size)%nat then
    let b := bswap (load_le (take 8 (drop off (stream_ r)))) in
    (true, mk (stream_ r) (off + 8) b 64 (last_ r))
  else
    let remaining := (size - off)%nat in
    let nbytes := (nbits `div` 8 + 1)%nat in
    let nbytes := if (remaining <? nbytes)%nat then remaining else nbytes in
    let '(b, skip) :=
      if (off + nbytes =? size)%nat then (last_ r, 1%nat) else (0, 0%nat) in
    let b := foldl (λ b i,
        Z.lor b (Z.shiftl (nth (off + i) (stream_ r) 0) (8 * (Z.of_nat nbytes - Z.of_nat i - 1))))
      b (seq 0 (nbytes - skip)) in
    (true, mk (stream_ r) (off + nbytes) b (nbytes * 8) (last_ r)).

Definition read_bit : rd t ReadError bool := λ r,
  let '(ok, r) := if (valid_ r =? 0)%nat then load_next_buffer 1 r else (true, r) in
  if negb ok then (Err EndOfStream, r)
  else
    let r := set_valid (valid_ r - 1) r in
    let mask := Z.shiftl 1 (Z.of_nat (valid_ r)) in
    (Ok (negb (Z.land (buffer_ r) mask =? 0)), r).

(** [nbits > 64] fails the assertion and would shift by 64 or more. After the
    second load, [valid_ - remaining] is the shift distance: when fewer than
    [remaining] bits could be loaded it is negative, which is undefined. *)
Definition read_bits (nbits : nat) : rd t ReadError Z := λ r,
  if (64 <? nbits)%nat then (UB, r)
  else if (nbits =? 0)%nat then (Ok 0, r)
  else
    let '(ok, r) := if (valid_ r =? 0)%nat then load_next_buffer nbits r else (true, r) in
    if negb ok then (Err EndOfStream, r)
    else if (nbits <=? valid_ r)%nat then
      let mask := if (nbits =? 64)%nat then 2 ^ 64 - 1 else Z.shiftl 1 (Z.of_nat nbits) - 1 in
      let r := set_valid (valid_ r - nbits) r in
      (Ok (Z.land (Z.shiftr (buffer_ r) (Z.of_nat (valid_ r))) mask), r)
    else
      let low_mask := Z.shiftl 1 (Z.of_nat (valid_ r)) - 1 in
      let remaining := (nbits - valid_ r)%nat in
      let v := u64 (Z.shiftl (Z.land (buffer_ r) low_mask) (Z.of_nat remaining)) in
      let r := set_valid 0 r in
      let '(ok, r) := load_next_buffer remaining r in
      if negb ok then (Err EndOfStream, r)
      else if (valid_ r <? remaining)%nat then (UB, r)
      else
        let hi_mask := Z.shiftl 1 (Z.of_nat remaining) - 1 in
        let v := Z.lor v (Z.land (Z.shiftr (buffer_ r) (Z.of_nat (valid_ r - remaining))) hi_mask) in
        (Ok v, set_valid (valid_ r - remaining) r).

Definition read_byte : rd t ReadError Z := v <~ read_bits 8 ;; rret (u8 v).

Fixpoint read_uvarint_loop (n i : nat) (x s : Z) : rd t ReadError Z :=
  match n with
  | O => rfail VarintOverflow
  | S n =>
      b <~ read_byte ;;
      if b <? 0x80 then
        if (i =? max_varint_len64 - 1)%nat && (1 <? b) then rfail VarintOverflow
        else rret (Z.lor x (u64 (Z.shiftl b s)))
      else read_uvarint_loop n (S i) (Z.lor x (u64 (Z.shiftl (Z.land b 0x7F) s))) (s + 7)
  end.

Definition read_uvarint : rd t ReadError Z := read_uvarint_loop max_varint_len64 0 0 0.

Definition read_varint : rd t ReadError Z := ux <~ read_uvarint ;; rret (unzigzag ux).

(** [r] has the bits [bs] left: the valid bits of the buffer, then the bytes
    not loaded yet. *)
Definition repr (r : t) (bs : list bool) : Prop :=
  bytes_ok (stream_ r) ∧ (stream_offset_ r <= length (stream_ r))%nat ∧
  (valid_ r <= 64)%nat ∧ last_ r = List.last (stream_ r) 0 ∧
  bs = zbits (valid_ r) (buffer_ r) ++ stream_bits (drop (stream_offset_ r) (stream_ r)).

End BitReader.

(** * Facts about the writer *)

Module BitWriterFacts.
Import BitWriter.

Lemma repr_reset s : bytes_ok s → repr (reset s) (stream_bits s).
Proof. intros. split_and!; simpl; [done|lia|by rewrite app_nil_r]. Qed.

(** A writer with free bits has a last byte, whose free bits are zero. *)
Lemma repr_partial w bs :
  repr w bs → count_ w ≠ 0%nat →
  ∃ pre x xs, stream_ w = pre ++ [x] ∧ bs = stream_bits pre ++ xs ∧
    (length xs + count_ w = 8)%nat ∧ zbits 8 x = xs ++ replicate (count_ w) false ∧
    bytes_ok pre ∧ is_byte x = true.
Proof.
  intros (Hok & Hc & Hbits) H0. destruct w as [s c]; simpl in *.
  destruct s as [|x pre _] using rev_ind.
  { apply (f_equal length) in Hbits. rewrite length_app, length_replicate in Hbits.
    simpl in Hbits. lia. }
  apply Forall_app in Hok as [Hpre [Hx _]%Forall_cons_1].
  rewrite stream_bits_snoc in Hbits.
  pose proof (f_equal length Hbits) as Hlen.
  rewrite !length_app, length_replicate, length_zbits in Hlen.
  exists pre, x, (drop (length (stream_bits pre)) bs).
  rewrite <- (take_drop (length (stream_bits pre)) bs), <- app_assoc in Hbits at 1.
  apply app_inj_1 in Hbits as [Hpre' Hlast].
  2: { rewrite length_take. lia. }
  split_and!; [done| |rewrite length_drop; lia|done..].
  rewrite Hpre' at 1. by rewrite take_drop.
Qed.

Lemma or_back_snoc m pre x : or_back m (pre ++ [x]) = pre ++ [Z.lor x m].
Proof.
  unfold or_back. rewrite length_app, Nat.add_1_r. simpl pred.
  rewrite alter_app_r_alt, Nat.sub_diag by lia. done.
Qed.

Lemma is_byte_lor x y : is_byte x = true → is_byte y = true → is_byte (Z.lor x y) = true.
Proof. intros. pose proof (lor_pow2 x y 8). width. Qed.

Lemma u8_shiftl_1 c : (c < 8)%nat → u8 (Z.shiftl 1 (Z.of_nat c)) = 2 ^ Z.of_nat c.
Proof.
  intros. rewrite Z.shiftl_mul_pow2, Z.mul_1_l by lia. apply Z.mod_small.
  split; [lia|]. apply Z.pow_lt_mono_r; lia.
Qed.

(** Setting (or leaving clear) the highest of the [S c] free bits. *)
Lemma write_bit_open b pre x xs c :
  bytes_ok pre → is_byte x = true → (length xs + S c = 8)%nat →
  zbits 8 x = xs ++ replicate (S c) false →
  repr (write_bit b (mk (pre ++ [x]) (S c))) ((stream_bits pre ++ xs) ++ [b]).
Proof.
  intros Hpre Hx Hlen Hbits. unfold write_bit. simpl.
  replace (Z.of_nat (S c) - 1) with (Z.of_nat c) by lia. rewrite Nat.sub_0_r.
  unfold repr. simpl. destruct b.
  - rewrite u8_shiftl_1, or_back_snoc by lia. split_and!; [|lia|].
    + apply Forall_app_2, Forall_singleton; [done|]. apply is_byte_lor; [done|].
      pose proof (Z.pow_lt_mono_r 2 (Z.of_nat c) 8). width.
    + rewrite stream_bits_snoc, <- !app_assoc. f_equal. rewrite <- Hlen in *.
      rewrite (zbits_lor_low xs); [by rewrite zbits_pow2| |done].
      split; [lia|apply Z.pow_lt_mono_r; lia].
  - split_and!; [by apply Forall_app_2, Forall_singleton|lia|].
    rewrite stream_bits_snoc, Hbits, <- !app_assoc. done.
Qed.

Lemma write_bit_repr b w bs : repr w bs → repr (write_bit b w) (bs ++ [b]).
Proof.
  intros Hw. destruct (decide (count_ w = 0%nat)) as [H0|H0].
  - destruct Hw as (Hok & _ & Hbits). rewrite H0 in Hbits. simpl in Hbits.
    rewrite app_nil_r in Hbits. destruct w as [s c]; simpl in *; subst c bs.
    replace (write_bit b (mk s 0)) with (write_bit b (mk (s ++ [0]) 8)) by done.
    rewrite <- (app_nil_r (stream_bits s)). by apply (write_bit_open b s 0 [] 7).
  - pose proof (repr_partial w bs Hw H0) as (pre & x & xs & Hs & -> & Hlen & Hbits & Hpre & Hx).
    destruct w as [s [|c]]; [done|]; simpl in *; subst s. by apply write_bit_open.
Qed.

Lemma write_byte_repr byt w bs :
  is_byte byt = true → repr w bs → repr (write_byte byt w) (bs ++ zbits 8 byt).
Proof.
  intros Hbyt Hw. unfold write_byte. destruct (Nat.eqb_spec (count_ w) 0) as [H0|H0].
  - destruct Hw as (Hok & _ & Hbits). rewrite H0, app_nil_r in Hbits.
    split_and!; simpl; [by apply Forall_app_2, Forall_singleton|lia|].
    by rewrite stream_bits_snoc, Hbits, app_nil_r.
  - pose proof (repr_partial w bs Hw H0) as (pre & x & xs & Hs & -> & Hlen & Hbits & Hpre & Hx).
    destruct w as [s c]; simpl in *; subst s. rewrite or_back_snoc.
    set (hi := Z.shiftr byt (8 - Z.of_nat c)).
    assert (0 <= hi < 2 ^ Z.of_nat c) as Hhi.
    { unfold hi. rewrite Z.shiftr_div_pow2 by lia. split; [apply Z.div_pos; width|].
      apply Z.div_lt_upper_bound; [lia|]. rewrite <- Z.pow_add_r by lia.
      replace (_ + _) with 8 by lia. width. }
    assert (is_byte hi = true) as Hhi8.
    { pose proof (Z.pow_le_mono_r 2 (Z.of_nat c) 8). width. }
    rewrite (u8_small hi) by done.
    destruct Hw as (_ & Hc & _). split_and!; simpl in *; [|lia|].
    + repeat apply Forall_app_2; try apply Forall_singleton; auto using is_byte_lor with merlion.
    + rewrite !stream_bits_snoc. rewrite <- Hlen in Hbits.
      rewrite <- Hlen at 1. rewrite (zbits_lor_low xs) by done.
      rewrite zbits_u8 by lia. replace 8%nat with ((8 - c) + c)%nat at 1 by lia.
      rewrite zbits_shiftl. replace 8%nat with (c + (8 - c))%nat at 2 by lia.
      rewrite zbits_app. replace (Z.of_nat (8 - c)) with (8 - Z.of_nat c) by lia.
      fold hi. by rewrite <- !app_assoc.
Qed.

Lemma write_bits_bytes_repr fuel u nbits w bs :
  (nbits <= fuel)%nat → (nbits <= 64)%nat → is_u64 u = true → repr w bs →
  let '(u', n', w') := write_bits_bytes fuel u nbits w in
  (n' < 8)%nat ∧ is_u64 u' = true ∧ ∃ ds, repr w' (bs ++ ds) ∧ top_bits nbits u = ds ++ top_bits n' u'.
Proof.
  revert u nbits w bs. induction fuel as [|fuel IH]; intros u nbits w bs Hf Hn Hu Hw;
    cbn [write_bits_bytes].
  { split_and!; [lia|done|]. exists []. by rewrite app_nil_r. }
  destruct (Nat.leb_spec 8 nbits) as [H8|H8].
  2: { split_and!; [lia|done|]. exists []. by rewrite app_nil_r. }
  set (b := u8 (Z.shiftr u 56)). set (u1 := u64 (Z.shiftl u 8)).
  specialize (IH u1 (nbits - 8)%nat (write_byte b w) (bs ++ zbits 8 b)).
  destruct (write_bits_bytes fuel u1 _ _) as [[u' n'] w'].
  destruct IH as (Hn' & Hu' & ds & Hw' & Htop);
    [lia|lia|apply u64_range|apply write_byte_repr; [apply u8_range|done]|].
  split_and!; [done..|]. exists (zbits 8 b ++ ds). rewrite <- app_assoc in Hw'. split; [done|].
  replace nbits with (8 + (nbits - 8))%nat by lia. rewrite top_bits_app by lia.
  change (Z.of_nat 8) with 8. fold u1. rewrite Htop, app_assoc. f_equal. f_equal.
  unfold b. by rewrite zbits_u8 by lia.
Qed.

Lemma shiftr_63_eqb u :
  is_u64 u = true → negb (Z.shiftr u 63 =? 0) = Z.testbit (Z.shiftr u 63) 0.
Proof.
  intros. assert (0 <= Z.shiftr u 63 < 2).
  { rewrite Z.shiftr_div_pow2 by lia.
    split; [apply Z.div_pos; width|apply Z.div_lt_upper_bound; width]. }
  by assert (Z.shiftr u 63 = 0 ∨ Z.shiftr u 63 = 1) as [->| ->] by lia.
Qed.

Lemma write_bits_bits_repr u n w bs :
  (n <= 64)%nat → is_u64 u = true → repr w bs →
  repr (write_bits_bits u n w) (bs ++ top_bits n u).
Proof.
  revert u w bs. induction n as [|n IH]; intros u w bs Hn Hu Hw.
  { simpl. by rewrite app_nil_r. }
  cbn [write_bits_bits]. change (S n) with (1 + n)%nat. rewrite top_bits_app by lia.
  change (zbits 1 _) with [Z.testbit (Z.shiftr u 63) 0].
  rewrite app_assoc, <- shiftr_63_eqb by done.
  apply IH; [lia|apply u64_range|]. by apply write_bit_repr.
Qed.

Lemma write_bits_repr u n w bs :
  (n <= 64)%nat → repr w bs → repr (write_bits u n w) (bs ++ zbits n u).
Proof.
  intros Hn Hw. unfold write_bits. destruct (Nat.eqb_spec n 0) as [->|].
  { by rewrite app_nil_r. }
  set (u0 := u64 _). rewrite <- top_bits_u64_shiftl by done. fold u0.
  pose proof (write_bits_bytes_repr n u0 n w bs) as Hbytes.
  destruct (write_bits_bytes n u0 n w) as [[u' n'] w'].
  destruct Hbytes as (Hn' & Hu' & ds & Hw' & ->); [lia|lia|apply u64_range|done|].
  rewrite app_assoc. apply write_bits_bits_repr; [lia|done..].
Qed.

End BitWriterFacts.

(** * Facts about the reader *)

Module BitReaderFacts.
Import BitReader.

Ltac fields := cbn [stream_ stream_offset_ buffer_ valid_ last_ set_valid].

Lemma load_le_cons b l : is_byte b = true →
  load_le (b :: l) mod 256 = b ∧ Z.shiftr (load_le (b :: l)) 8 = load_le l.
Proof.
  intros Hb. simpl. rewrite Z.shiftr_div_pow2 by lia. change (2 ^ 8) with 256.
  rewrite (Z.mul_comm 256), Z_mod_plus_full, Z.div_add, Z.div_small, Z.mod_small by width. lia.
Qed.

Lemma load_le_nth l i :
  bytes_ok l → Z.shiftr (load_le l) (8 * Z.of_nat i) mod 256 = nth i l 0.
Proof.
  intros Hl. revert i. induction Hl as [|b l Hb Hl IH]; intros i.
  { rewrite Z.shiftr_0_l. by destruct i. }
  destruct (load_le_cons b l Hb) as [Hlo Hhi]. destruct i as [|i].
  - by rewrite Z.shiftr_0_r.
  - replace (8 * Z.of_nat (S i)) with (8 + 8 * Z.of_nat i) by lia.
    rewrite <- Z.shiftr_shiftr, Hhi by lia. apply IH.
Qed.

(** Byte [k] of [x], moved from bit [8k] to bit [8k + n]. *)
Lemma masked_byte x k :
  0 <= k → Z.land x (Z.shiftl 255 k) = Z.shiftl (Z.shiftr x k mod 256) k.
Proof.
  intros Hk. change 256 with (2 ^ 8). rewrite <- land_ones_mod by lia. change (2 ^ 8 - 1) with 255.
  apply Z.bits_inj'. intros i Hi. rewrite Z.land_spec, !Z.shiftl_spec, Z.land_spec by lia.
  destruct (decide (i < k)).
  - rewrite !(Z.testbit_neg_r _ (i - k)) by lia. apply andb_false_r.
  - rewrite Z.shiftr_spec by lia. f_equal. f_equal. lia.
Qed.

Lemma u64_shiftl_byte b n : is_byte b = true → 0 <= n <= 56 → u64 (Z.shiftl b n) = Z.shiftl b n.
Proof.
  intros Hb Hn. apply u64_small. rewrite Z.shiftl_mul_pow2 by lia.
  assert (0 < 2 ^ n <= 2 ^ 56) by (split; [lia|apply Z.pow_le_mono_r; lia]).
  assert (0 <= b < 256) by width. assert (b * 2 ^ n < 2 ^ 64) by nia.
  assert (0 <= b * 2 ^ n) by nia. width.
Qed.

Lemma swap_left x k s b :
  Z.shiftr x k mod 256 = b → is_byte b = true → 0 <= k → 0 <= s → k + s <= 56 →
  u64 (Z.shiftl (Z.land x (Z.shiftl 255 k)) s) = Z.shiftl b (k + s).
Proof.
  intros Hx Hb Hk Hs Hks. rewrite masked_byte, Hx, Z.shiftl_shiftl by done.
  apply u64_shiftl_byte; [done|lia].
Qed.

Lemma swap_right x k s b :
  Z.shiftr x k mod 256 = b → 0 <= k →
  Z.shiftr (Z.land x (Z.shiftl 255 k)) s = Z.shiftl b (k - s).
Proof. intros Hx Hk. by rewrite masked_byte, Hx, Z.shiftr_shiftl_l by done. Qed.

Lemma bswap_bytes b0 b1 b2 b3 b4 b5 b6 b7 :
  bytes_ok [b0; b1; b2; b3; b4; b5; b6; b7] →
  bswap (load_le [b0; b1; b2; b3; b4; b5; b6; b7]) = read_be 0 [b0; b1; b2; b3; b4; b5; b6; b7].
Proof.
  intros Hok. pose proof (load_le_nth _ 0 Hok) as E0. pose proof (load_le_nth _ 1 Hok) as E1.
  pose proof (load_le_nth _ 2 Hok) as E2. pose proof (load_le_nth _ 3 Hok) as E3.
  pose proof (load_le_nth _ 4 Hok) as E4. pose proof (load_le_nth _ 5 Hok) as E5.
  pose proof (load_le_nth _ 6 Hok) as E6. pose proof (load_le_nth _ 7 Hok) as E7.
  revert E0 E1 E2 E3 E4 E5 E6 E7. generalize (load_le [b0; b1; b2; b3; b4; b5; b6; b7]).
  cbn [nth]. intros x E0 E1 E2 E3 E4 E5 E6 E7.
  unfold bytes_ok in Hok. rewrite !Forall_cons_iff in Hok.
  destruct Hok as (? & ? & ? & ? & ? & ? & ? & ? & _).
  unfold bswap.
  change 0xFF with (Z.shiftl 255 0). change 0xFF00 with (Z.shiftl 255 8).
  change 0xFF0000 with (Z.shiftl 255 16). change 0xFF000000 with (Z.shiftl 255 24).
  change 0xFF00000000 with (Z.shiftl 255 32). change 0xFF0000000000 with (Z.shiftl 255 40).
  change 0xFF000000000000 with (Z.shiftl 255 48). change 0xFF00000000000000 with (Z.shiftl 255 56).
  rewrite (swap_left x 0 56 b0 E0), (swap_left x 8 40 b1 E1), (swap_left x 16 24 b2 E2),
    (swap_left x 24 8 b3 E3), (swap_right x 32 8 b4 E4), (swap_right x 40 24 b5 E5),
    (swap_right x 48 40 b6 E6), (swap_right x 56 56 b7 E7) by (done || lia).
  cbn [read_be].
  rewrite <- (Z.shiftl_0_r (_ * 256 + b7)). 
  rewrite <- (lor_shiftl_byte _ b7 0), <- (lor_shiftl_byte _ b6 8), <- (lor_shiftl_byte _ b5 16),
    <- (lor_shiftl_byte _ b4 24), <- (lor_shiftl_byte _ b3 32), <- (lor_shiftl_byte _ b2 40),
    <- (lor_shiftl_byte _ b1 48) by (done || lia).
  done.
Qed.

(** The slow path: the first [k] of the [n] bytes, at their final position. *)
Lemma fold_or_bytes l pre post k :
  bytes_ok l → (k <= length l)%nat →
  foldl (λ b i, Z.lor b (Z.shiftl (nth (length pre + i) (pre ++ l ++ post) 0)
                          (8 * (Z.of_nat (length l) - Z.of_nat i - 1)))) 0 (seq 0 k) =
  Z.shiftl (read_be 0 (take k l)) (8 * (Z.of_nat (length l) - Z.of_nat k)).
Proof.
  intros Hl. induction k as [|k IH]; intros Hk.
  { by rewrite Z.shiftl_0_l. }
  rewrite seq_S, foldl_snoc, IH by lia. clear IH. cbn [Nat.add].
  destruct (lookup_lt_is_Some_2 l k) as [b Hb]; [lia|].
  assert (nth (length pre + k) (pre ++ l ++ post) 0 = b) as ->.
  { rewrite app_nth2_plus, app_nth1 by lia. by apply nth_lookup_Some. }
  rewrite (take_S_r l k b), read_be_app by done. cbn [read_be].
  rewrite <- lor_shiftl_byte by (lia || by eapply (Forall_lookup_1 _ _ _ _ Hl)).
  f_equal; f_equal; lia.
Qed.

Lemma foldl_lor_init {A} (f : A → Z) l b :
  foldl (λ b i, Z.lor b (f i)) b l = Z.lor b (foldl (λ b i, Z.lor b (f i)) 0 l).
Proof.
  revert b. induction l as [|i l IH]; intros b; cbn [foldl]; [by rewrite Z.lor_0_r|].
  rewrite (IH (Z.lor b (f i))), (IH (Z.lor 0 (f i))). by rewrite Z.lor_0_l, Z.lor_assoc.
Qed.

Lemma repr_init s : bytes_ok s → repr (init s) (stream_bits s).
Proof. intros. split_and!; simpl; [done|lia..|done|done]. Qed.

Lemma load_next_buffer_empty n r :
  repr r [] → load_next_buffer n r = (false, r).
Proof.
  intros (_ & Hoff & _ & _ & Hbits). symmetry in Hbits. apply app_nil in Hbits as [_ Hbits].
  apply (f_equal length) in Hbits. rewrite length_stream_bits, length_drop in Hbits.
  unfold load_next_buffer. simpl in Hbits. by destruct (Nat.leb_spec (length (stream_ r)) (stream_offset_ r)); [|lia].
Qed.

(** The value the slow path packs: the [length l] bytes [l], whether or not
    the last of them comes from [last_]. *)
Lemma slow_load pre l post :
  bytes_ok l → l ≠ [] →
  (let '(b, skip) :=
     if (length pre + length l =? length (pre ++ l ++ post))%nat
     then (List.last (pre ++ l ++ post) 0, 1%nat) else (0, 0%nat) in
   foldl (λ b i, Z.lor b (Z.shiftl (nth (length pre + i) (pre ++ l ++ post) 0)
                            (8 * (Z.of_nat (length l) - Z.of_nat i - 1)))) b
     (seq 0 (length l - skip))) = read_be 0 l.
Proof.
  intros Hl Hne. destruct (Nat.eqb_spec (length pre + length l) (length (pre ++ l ++ post))) as [Heq|_].
  - rewrite !length_app in Heq. destruct post as [|? ?]; [|simpl in Heq; lia].
    destruct l as [|x l _] using rev_ind; [done|].
    rewrite foldl_lor_init, fold_or_bytes by (done || lia).
    apply Forall_app in Hl as [_ [Hx _]%Forall_cons_1].
    rewrite app_nil_r, app_assoc, last_last, read_be_app. cbn [read_be].
    rewrite length_app, Nat.add_sub, take_app_length. simpl length.
    replace (8 * _) with (8 + 0) by lia. rewrite Z.lor_comm.
    rewrite <- (Z.shiftl_0_r x) at 1. rewrite lor_shiftl_byte by (done || lia).
    apply Z.shiftl_0_r.
  - rewrite Nat.sub_0_r, fold_or_bytes, firstn_all, Z.sub_diag by (done || lia).
    apply Z.shiftl_0_r.
Qed.

Lemma zbits_bswap l :
  length l = 8%nat → bytes_ok l → zbits 64 (bswap (load_le l)) = stream_bits l.
Proof.
  intros Hl Hok. rewrite <- zbits_read_be, Hl by done. change (8 * 8)%nat with 64%nat.
  destruct l as [|b0 [|b1 [|b2 [|b3 [|b4 [|b5 [|b6 [|b7 [|? ?]]]]]]]]]; try discriminate.
  by rewrite bswap_bytes.
Qed.

(** A load keeps the bits left; it buffers at least [n] of them, or all. *)
Lemma load_next_buffer_repr n r bs :
  repr r bs → valid_ r = 0%nat → (n <= 64)%nat → bs ≠ [] →
  ∃ r', load_next_buffer n r = (true, r') ∧ repr r' bs ∧ (0 < valid_ r')%nat ∧
    ((n <= valid_ r')%nat ∨ valid_ r' = length bs).
Proof.
  intros (Hok & Hoff & _ & Hlast & ->) Hv Hn Hne. rewrite Hv in *. change (zbits 0 _) with (@nil bool) in *.
  rewrite app_nil_l in *. destruct r as [s off buf v lst]; simpl in *. subst v lst.
  assert (off < length s)%nat as Hlt.
  { destruct (decide (off = length s)) as [->|]; [|lia]. by rewrite drop_all in Hne. }
  unfold load_next_buffer. fields.
  destruct (Nat.leb_spec (length s) off); [lia|].
  destruct (Nat.ltb_spec (off + 8) (length s)).
  - set (l := take 8 (drop off s)).
    assert (length l = 8%nat) as Hl by (unfold l; rewrite length_take, length_drop; lia).
    assert (bytes_ok l) as Hlok by by apply Forall_take, Forall_drop.
    eexists. split; [done|]. split_and!; fields; [|lia|lia].
    split_and!; fields; [done|lia|lia|done|].
    rewrite <- (take_drop 8 (drop off s)), stream_bits_app, drop_drop. fold l.
    by rewrite zbits_bswap.
  - set (nb := (if _ <? _ then _ else _)%nat).
    assert (0 < nb ∧ nb <= 8 ∧ off + nb <= length s ∧ (n < 8 * nb ∨ off + nb = length s))%nat
      as (Hnb & Hnb8 & Hle & Hfull).
    { unfold nb. pose proof (Nat.div_mod_eq n 8). pose proof (Nat.mod_upper_bound n 8).
      destruct (Nat.ltb_spec (length s - off) (n `div` 8 + 1)); lia. }
    clearbody nb. set (l := take nb (drop off s)).
    assert (length l = nb) as Hl by (unfold l; rewrite length_take, length_drop; lia).
    assert (bytes_ok l) as Hlok by by apply Forall_take, Forall_drop.
    pose proof (slow_load (take off s) l (drop nb (drop off s)) Hlok) as Hload.
    unfold l in Hload. rewrite !take_drop in Hload. fold l in Hload.
    rewrite Hl, length_take, Nat.min_l in Hload by lia.
    assert (l ≠ []) as Hlne by (intros Hnil; rewrite Hnil in Hl; simpl in Hl; lia).
    destruct (if (off + nb =? length s)%nat then _ else _) as [b skip]. rewrite Hload by done.
    eexists. split; [done|]. split_and!; fields; [|lia|].
    2: { rewrite length_stream_bits, length_drop. lia. }
    split_and!; fields; [done|lia|lia|done|].
    rewrite <- (take_drop nb (drop off s)), stream_bits_app, drop_drop at 1.
    f_equal. fold l. rewrite <- zbits_read_be, Hl by done. f_equal. lia.
Qed.

Lemma repr_valid_le r bs : repr r bs → (valid_ r <= length bs)%nat.
Proof. intros (_ & _ & _ & _ & ->). rewrite length_app, length_zbits. lia. Qed.

(** Taking [n] bits out of the buffer. *)
Lemma take_valid n r bs :
  repr r bs → (n <= valid_ r)%nat →
  ∃ rest, bs = zbits n (Z.shiftr (buffer_ r) (Z.of_nat (valid_ r - n))) ++ rest ∧
    repr (set_valid (valid_ r - n) r) rest.
Proof.
  intros (Hok & Hoff & Hv & Hlast & ->) Hn. eexists. split.
  - replace (valid_ r) with (n + (valid_ r - n))%nat at 1 by lia.
    rewrite zbits_app, <- app_assoc. done.
  - split_and!; fields; [done|lia..|done|done].
Qed.

Lemma land_mask_bits x n : (n <= 64)%nat →
  Z.land x (if (n =? 64)%nat then 2 ^ 64 - 1 else Z.shiftl 1 (Z.of_nat n) - 1) = bits_val (zbits n x).
Proof.
  intros Hn. rewrite bits_val_zbits. destruct (Nat.eqb_spec n 64) as [->|].
  - by rewrite land_ones_mod.
  - by rewrite Z.shiftl_mul_pow2, Z.mul_1_l, land_ones_mod by lia.
Qed.

(** [read_bits] and [read_bit] start by making sure that the buffer is not
    empty. *)
Lemma ensure_buffer n r bs :
  repr r bs → (n <= 64)%nat → bs ≠ [] →
  ∃ r', (if (valid_ r =? 0)%nat then load_next_buffer n r else (true, r)) = (true, r') ∧
    repr r' bs ∧ (0 < valid_ r')%nat ∧
    (valid_ r ≠ 0%nat → r' = r) ∧
    (valid_ r = 0%nat → (n <= valid_ r')%nat ∨ valid_ r' = length bs).
Proof.
  intros Hr Hn Hne. destruct (Nat.eqb_spec (valid_ r) 0) as [H0|H0].
  - destruct (load_next_buffer_repr n r bs Hr H0 Hn Hne) as (r' & ? & ? & ? & ?).
    exists r'. by split_and!.
  - exists r. split_and!; [done..|lia|done|done].
Qed.

Lemma read_bit_repr r b bs :
  repr r (b :: bs) → ∃ r', read_bit r = (Ok b, r') ∧ repr r' bs.
Proof.
  intros Hr. destruct (ensure_buffer 1 r _ Hr) as (r1 & Hload & Hr1 & Hv & _); [lia|done|].
  unfold read_bit. rewrite Hload. cbn [negb].
  destruct (take_valid 1 r1 _ Hr1) as (rest & Hbs & Hrest); [lia|].
  change (zbits 1 ?x) with [Z.testbit x 0] in Hbs. rewrite Z.shiftr_spec, Z.add_0_l in Hbs by lia.
  cbn [app] in Hbs. injection Hbs as -> ->. eexists. split; [|exact Hrest]. fields. do 2 f_equal.
  rewrite Z.shiftl_mul_pow2, Z.mul_1_l by lia.
  destruct (Z.eqb_spec (Z.land (buffer_ r1) (2 ^ Z.of_nat (valid_ r1 - 1))) 0) as [H0|H0]; cbn [negb].
  - apply (f_equal (λ x, Z.testbit x (Z.of_nat (valid_ r1 - 1)))) in H0.
    by rewrite Z.land_spec, Z.pow2_bits_true, Z.bits_0, andb_true_r in H0 by lia.
  - symmetry. apply not_false_iff_true. intros Hf. apply H0. apply Z.bits_inj'. intros i Hi.
    rewrite Z.land_spec, Z.bits_0, Z.pow2_bits_eqb by lia.
    destruct (Z.eqb_spec (Z.of_nat (valid_ r1 - 1)) i) as [<-|]; [by rewrite Hf|apply andb_false_r].
Qed.

Lemma read_bit_end r : repr r [] → read_bit r = (Err EndOfStream, r).
Proof.
  intros Hr. pose proof (repr_valid_le _ _ Hr). simpl in *. unfold read_bit.
  destruct (Nat.eqb_spec (valid_ r) 0); [|lia]. by rewrite load_next_buffer_empty.
Qed.

(** Reading [n] bits that are all in the buffer. *)
Lemma read_bits_buffered n r bs :
  repr r bs → (n <= valid_ r)%nat →
  ∃ xs rest, bs = xs ++ rest ∧ length xs = n ∧
    Z.land (Z.shiftr (buffer_ r) (Z.of_nat (valid_ r - n)))
      (if (n =? 64)%nat then 2 ^ 64 - 1 else Z.shiftl 1 (Z.of_nat n) - 1) = bits_val xs ∧
    repr (set_valid (valid_ r - n) r) rest.
Proof.
  intros Hr Hn. pose proof Hr as (_ & _ & Hv & _).
  destruct (take_valid n r bs Hr Hn) as (rest & -> & Hrest).
  eexists _, rest. split_and!; [done|apply length_zbits| |done].
  apply land_mask_bits. lia.
Qed.

(** The high part of a word is shifted into place, the low part added. *)
Lemma lor_bits_val hi lo :
  (length hi + length lo <= 64)%nat →
  Z.lor (u64 (Z.shiftl (bits_val hi) (Z.of_nat (length lo)))) (bits_val lo) = bits_val (hi ++ lo).
Proof.
  intros Hlen. pose proof (bits_val_range hi) as Hhi. pose proof (bits_val_range lo) as Hlo.
  pose proof (Z.pow_le_mono_r 2 (Z.of_nat (length hi) + Z.of_nat (length lo)) 64) as Hpow.
  rewrite Z.pow_add_r in Hpow by lia.
  assert (0 < 2 ^ Z.of_nat (length lo)) by lia.
  assert (0 <= bits_val hi * 2 ^ Z.of_nat (length lo) < 2 ^ 64) by nia.
  rewrite u64_small by (rewrite Z.shiftl_mul_pow2 by lia; width).
  rewrite Z.lor_comm, lor_shiftl_add, bits_val_app by lia. lia.
Qed.

Lemma read_bits_repr n r xs bs :
  repr r (xs ++ bs) → length xs = n → (n <= 64)%nat →
  ∃ r', read_bits n r = (Ok (bits_val xs), r') ∧ repr r' bs.
Proof.
  intros Hr Hxs Hn. unfold read_bits. destruct (Nat.ltb_spec 64 n); [lia|].
  destruct (Nat.eqb_spec n 0) as [->|H0].
  { destruct xs; [|done]. by exists r. }
  destruct (ensure_buffer n r _ Hr) as (r1 & -> & Hr1 & Hv & _); [lia|by destruct xs; simpl in *|].
  cbn [negb]. destruct (Nat.leb_spec n (valid_ r1)) as [Hle|Hlt].
  - destruct (read_bits_buffered n r1 _ Hr1 Hle) as (ys & rest & Heq & Hys & Hval & Hrest).
    apply app_inj_1 in Heq as [-> ->]; [|congruence].
    eexists. split; [|exact Hrest]. fields. by rewrite Hval.
  - pose proof Hr1 as (_ & _ & Hv64 & _).
    destruct (take_valid (valid_ r1) r1 _ Hr1) as (rest & Heq & Hrest); [lia|].
    rewrite Nat.sub_diag in *. change (Z.of_nat 0) with 0 in Heq. rewrite Z.shiftr_0_r in Heq.
    set (hi := zbits (valid_ r1) (buffer_ r1)) in *.
    assert (length hi = valid_ r1) as Hhi by apply length_zbits.
    assert (∃ lo, xs = hi ++ lo ∧ rest = lo ++ bs) as (lo & -> & ->).
    { exists (drop (valid_ r1) xs). apply (f_equal (take (valid_ r1))) in Heq as Htake.
      rewrite take_app_le, take_app_length' in Htake by lia.
      rewrite <- Htake, take_drop. split; [done|].
      rewrite <- (take_drop (valid_ r1) xs), Htake, <- app_assoc in Heq. by apply app_inj_1 in Heq as []. }
    rewrite length_app in Hxs. replace (n - valid_ r1)%nat with (length lo) by lia.
    destruct (load_next_buffer_repr (length lo) _ _ Hrest) as (r2 & -> & Hr2 & Hv2 & Hfull);
      [done|lia|destruct lo; simpl in *; [lia|done]|].
    cbn [negb]. rewrite length_app in Hfull. destruct (Nat.ltb_spec (valid_ r2) (length lo)); [lia|].
    destruct (read_bits_buffered (length lo) r2 _ Hr2) as (ys & rest2 & Heq2 & Hys & Hval & Hrest2); [lia|].
    apply app_inj_1 in Heq2 as [-> ->]; [|congruence].
    destruct (Nat.eqb_spec (length ys) 64); [lia|]. rewrite Hval.
    eexists. split; [|exact Hrest2]. do 2 f_equal.
    pose proof (land_mask_bits (buffer_ r1) (valid_ r1) Hv64) as Hmask.
    destruct (Nat.eqb_spec (valid_ r1) 64); [lia|]. rewrite Hmask. fold hi.
    apply lor_bits_val. lia.
Qed.

(** A read past the end: an error, except that the bits left are partly in
    the buffer and partly not loaded. *)
Lemma read_bits_past_end n r bs :
  repr r bs → (length bs < n <= 64)%nat →
  fst (read_bits n r) =
    if ((0 <? valid_ r) && (valid_ r <? length bs))%nat then UB else Err EndOfStream.
Proof.
  intros Hr Hn. pose proof (repr_valid_le _ _ Hr) as Hle. unfold read_bits.
  destruct (Nat.ltb_spec 64 n); [lia|]. destruct (Nat.eqb_spec n 0); [lia|].
  destruct (decide (bs = [])) as [->|Hne].
  { simpl in Hle. destruct (Nat.eqb_spec (valid_ r) 0); [|lia]. rewrite load_next_buffer_empty by done.
    cbn [negb fst]. destruct (Nat.ltb_spec 0 (valid_ r)); [lia|done]. }
  destruct (ensure_buffer n r _ Hr) as (r1 & -> & Hr1 & Hv & Hsame & Hload); [lia|done|].
  cbn [negb]. pose proof (repr_valid_le _ _ Hr1) as Hle1.
  destruct (Nat.leb_spec n (valid_ r1)); [lia|].
  destruct (take_valid (valid_ r1) r1 _ Hr1) as (rest & Heq & Hrest); [lia|].
  apply (f_equal length) in Heq. rewrite length_app, length_zbits in Heq.
  rewrite Nat.sub_diag in *. destruct (decide (rest = [])) as [->|Hrne].
  - rewrite load_next_buffer_empty by done. cbn [negb fst]. simpl in Heq.
    destruct (Nat.ltb_spec 0 (valid_ r)); [|done]. rewrite Hsame in * by lia.
    destruct (Nat.ltb_spec (valid_ r) (length bs)); [lia|done].
  - assert (valid_ r1 < length bs)%nat by (destruct rest; simpl in *; [done|lia]).
    destruct (load_next_buffer_repr (n - valid_ r1) _ _ Hrest) as (r2 & -> & Hr2 & _); [done|lia|done|].
    cbn [negb]. pose proof (repr_valid_le _ _ Hr2).
    destruct (Nat.ltb_spec (valid_ r2) (n - valid_ r1)); [|lia].
    destruct (decide (valid_ r = 0%nat)) as [Hv0|Hv0]; [lia|]. rewrite Hsame in * by done.
    destruct (Nat.ltb_spec 0 (valid_ r)); [|lia]. by destruct (Nat.ltb_spec (valid_ r) (length bs)); [|lia].
Qed.

Lemma read_byte_repr r b bs :
  is_byte b = true → repr r (zbits 8 b ++ bs) → ∃ r', read_byte r = (Ok b, r') ∧ repr r' bs.
Proof.
  intros Hb Hr. destruct (read_bits_repr 8 r _ bs Hr) as (r' & Hread & Hr'); [apply length_zbits|lia|].
  exists r'. split; [|done]. unfold read_byte. rewrite (rbind_ok _ _ _ _ _ Hread). unfold rret.
  rewrite bits_val_zbits. by rewrite Z.mod_small, u8_small by width.
Qed.

(** The varint readers of the bit stream and of a byte buffer agree. *)
Lemma read_uvarint_loop_agree buf i x s r bs v k :
  bytes_ok buf → repr r (stream_bits buf ++ bs) → (i <= max_varint_len64)%nat →
  Varint.read_uvarint_loop buf i x s = Ok (v, k) →
  ∃ r', read_uvarint_loop (max_varint_len64 - i) i x s r = (Ok v, r') ∧ (i < k)%nat ∧
    repr r' (stream_bits (drop (k - i) buf) ++ bs).
Proof.
  intros Hok. revert i x s r. induction Hok as [|b buf Hb Hok IH]; intros i x s r Hr Hi Hread; [done|].
  cbn [Varint.read_uvarint_loop] in Hread. destruct (Nat.eqb_spec i max_varint_len64); [done|].
  rewrite stream_bits_cons, <- app_assoc in Hr.
  destruct (read_byte_repr r b _ Hb Hr) as (r1 & Hbyte & Hr1).
  replace (max_varint_len64 - i)%nat with (S (max_varint_len64 - S i)) by lia.
  cbn [read_uvarint_loop]. rewrite (rbind_ok _ _ _ _ _ Hbyte).
  destruct (b <? 0x80).
  - destruct ((i =? max_varint_len64 - 1)%nat && (1 <? b)); [done|].
    injection Hread as <- <-. exists r1. replace (S i - i)%nat with 1%nat by lia.
    split_and!; [done|lia|done].
  - edestruct IH as (r' & ? & ? & Hr'); [exact Hr1| |exact Hread|]; [lia|].
    exists r'. split_and!; [done|lia|].
    replace (k - i)%nat with (S (k - S i)) by lia. done.
Qed.

Lemma read_uvarint_repr r x bs :
  is_u64 x = true → repr r (stream_bits (uvarint_bytes x) ++ bs) →
  ∃ r', read_uvarint r = (Ok x, r') ∧ repr r' bs.
Proof.
  intros Hx Hr. pose proof (read_uvarint_bytes x [] Hx) as Hread.
  rewrite app_nil_r, read_uvarint_nonempty in Hread by apply uvarint_bytes_nonempty.
  destruct (read_uvarint_loop_agree _ 0 0 0 r bs _ _ (uvarint_bytes_ok x) Hr ltac:(lia) Hread)
    as (r' & ? & _ & Hr').
  exists r'. split; [done|]. by rewrite Nat.sub_0_r, drop_all in Hr'.
Qed.

Lemma read_varint_repr r x bs :
  is_i64 x = true → repr r (stream_bits (varint_bytes x) ++ bs) →
  ∃ r', read_varint r = (Ok x, r') ∧ repr r' bs.
Proof.
  intros Hx Hr. destruct (read_uvarint_repr r _ bs (zigzag_range x) Hr) as (r' & Hread & Hr').
  exists r'. split; [|done]. unfold read_varint. rewrite (rbind_ok _ _ _ _ _ Hread).
  unfold rret. by rewrite unzigzag_zigzag.
Qed.

(** At the end of the stream the varint readers fail with [EndOfStream]. *)
Lemma read_byte_end r : repr r [] → fst (read_byte r) = Err EndOfStream.
Proof.
  intros Hr. pose proof (read_bits_past_end 8 r [] Hr ltac:(simpl; lia)) as Hend.
  pose proof (repr_valid_le _ _ Hr) as Hle. simpl length in *.
  destruct (Nat.ltb_spec 0 (valid_ r)); [lia|]. cbn [andb] in Hend.
  unfold read_byte, rbind. destruct (read_bits 8 r) as [[] ?]; by simpl in *; simplify_eq.
Qed.

End BitReaderFacts.

(** * Properties *)

Module BStreamProps.
Import BitWriterFacts BitReaderFacts.

(** One write call, and the read call that matches it with its result. *)
Inductive op : Type :=
| OpBit (b : bool)
| OpByte (byt : Z)
| OpBits (u : Z) (nbits : nat).

Definition run_write (w : BitWriter.t) (o : op) : BitWriter.t :=
  match o with
  | OpBit b => BitWriter.write_bit b w
  | OpByte byt => BitWriter.write_byte byt w
  | OpBits u nbits => BitWriter.write_bits u nbits w
  end.

Definition op_ok (o : op) : bool :=
  match o with
  | OpBit _ => true
  | OpByte byt => is_byte byt
  | OpBits _ nbits => (nbits <=? 64)%nat
  end.

Definition op_bits (o : op) : list bool :=
  match o with
  | OpBit b => [b]
  | OpByte byt => zbits 8 byt
  | OpBits u nbits => zbits nbits u
  end.

(** The read calls matching the writes: [true] when every one of them returns
    the value written ([write_bits] writes the low bits of its argument). *)
Fixpoint run_reads (ops : list op) (r : BitReader.t) : bool :=
  match ops with
  | [] => true
  | OpBit b :: ops =>
      match BitReader.read_bit r with
      | (Ok b', r) => Bool.eqb b b' && run_reads ops r
      | _ => false
      end
  | OpByte byt :: ops =>
      match BitReader.read_byte r with
      | (Ok x, r) => (x =? byt) && run_reads ops r
      | _ => false
      end
  | OpBits u nbits :: ops =>
      match BitReader.read_bits nbits r with
      | (Ok x, r) => (x =? u mod 2 ^ Z.of_nat nbits) && run_reads ops r
      | _ => false
      end
  end.

Lemma run_writes_repr ops w bs :
  Forall (λ o, op_ok o = true) ops → BitWriter.repr w bs →
  BitWriter.repr (foldl run_write w ops) (bs ++ (ops ≫= op_bits)).
Proof.
  intros Hok. revert w bs. induction Hok as [|o ops Ho Hok IH]; intros w bs Hw.
  { by rewrite app_nil_r. }
  rewrite bind_cons, app_assoc. apply IH. destruct o; simpl in *.
  - by apply write_bit_repr.
  - by apply write_byte_repr.
  - apply write_bits_repr; [lia|done].
Qed.

Lemma run_reads_ok ops r bs :
  Forall (λ o, op_ok o = true) ops → BitReader.repr r ((ops ≫= op_bits) ++ bs) →
  run_reads ops r = true.
Proof.
  intros Hok. revert r. induction Hok as [|o ops Ho Hok IH]; intros r Hr; [done|].
  rewrite bind_cons, <- app_assoc in Hr. destruct o as [b|byt|u n]; simpl in *.
  - destruct (read_bit_repr r b _ Hr) as (r' & -> & Hr'). by rewrite eqb_reflx, IH.
  - destruct (read_byte_repr r byt _ Ho Hr) as (r' & -> & Hr'). by rewrite Z.eqb_refl, IH.
  - destruct (read_bits_repr n r _ _ Hr) as (r' & -> & Hr'); [apply length_zbits|lia|].
    by rewrite bits_val_zbits, Z.eqb_refl, IH.
Qed.

(** C35: any sequence of [write_bit], [write_byte] and [write_bits] calls on
    an empty writer, read back by the matching sequence of calls on a reader
    over the bytes, returns the values written; and the buffer holds exactly
    as many bytes as the bits written need. *)
Theorem bit_stream_roundtrip (ops : list op) :
  Forall (λ o, op_ok o = true) ops →
  let s := BitWriter.bytes (foldl run_write (BitWriter.reset []) ops) in
  run_reads ops (BitReader.init s) = true ∧ bytes_ok s ∧
  length s = ((length (ops ≫= op_bits) + 7) / 8)%nat.
Proof.
  intros Hok. set (w := foldl run_write (BitWriter.reset []) ops). intros s.
  assert (BitWriter.repr w (ops ≫= op_bits)) as (Hs & Hc & Hbits)
    by (apply (run_writes_repr ops _ []); [done|apply (repr_reset []); constructor]).
  change (BitWriter.stream_ w) with s in *. split_and!; [|done|].
  - eapply run_reads_ok; [done|]. rewrite <- Hbits. by apply repr_init.
  - apply (f_equal length) in Hbits.
    rewrite length_stream_bits, length_app, length_replicate in Hbits.
    apply (Nat.div_unique _ _ _ (7 - BitWriter.count_ w)%nat); lia.
Qed.

Lemma bit_stream_roundtrip_witness :
  let ops := [OpBit true; OpBits 0x123456789ABCDEF0 61; OpByte 0xA5; OpBits 5 3] in
  let s := BitWriter.bytes (foldl run_write (BitWriter.reset []) ops) in
  run_reads ops (BitReader.init s) = true ∧ bytes_ok s ∧
  length s = ((length (ops ≫= op_bits) + 7) / 8)%nat.
Proof. apply bit_stream_roundtrip. repeat constructor. Defined.

(** Over a stream with fewer bits left than asked for, [read_bits] never
    returns a value. It reports [EndOfStream], unless some of the bits left
    are buffered and some are not: then the code shifts by a negative
    distance, which is undefined behaviour instead of an error. *)
Theorem read_bits_truncated (n : nat) (r : BitReader.t) (bs : list bool) :
  BitReader.repr r bs → (length bs < n <= 64)%nat →
  fst (BitReader.read_bits n r) =
    if ((0 <? BitReader.valid_ r) && (BitReader.valid_ r <? length bs))%nat
    then UB else Err EndOfStream.
Proof. apply read_bits_past_end. Qed.

Lemma read_bits_truncated_witness :
  let r := snd (BitReader.read_bit (BitReader.init [255; 255])) in
  fst (BitReader.read_bits 20 r) = UB.
Proof.
  intros r. rewrite (read_bits_truncated 20 r (replicate 15 true)); [reflexivity| |simpl; lia].
  split_and!; [repeat constructor|by apply Nat.leb_le..|reflexivity|reflexivity].
Defined.

(** The bit-stream varint reader agrees with the byte-buffer one: if
    [varint.cpp]'s [read_uvarint] accepts [buf] with value [v] after [k]
    bytes, the bit reader positioned at those bytes, at any bit offset, returns
    [v] and stands right after the [k] bytes. *)
Theorem bit_uvarint_agrees (buf : list Z) (r : BitReader.t) (bs : list bool) (v : Z) (k : nat) :
  bytes_ok buf → BitReader.repr r (stream_bits buf ++ bs) →
  Varint.read_uvarint buf = Ok (v, k) →
  ∃ r', BitReader.read_uvarint r = (Ok v, r') ∧ BitReader.repr r' (stream_bits (drop k buf) ++ bs).
Proof.
  intros Hok Hr Hread. destruct buf as [|b buf]; [done|].
  destruct (read_uvarint_loop_agree _ 0 0 0 r bs v k Hok Hr ltac:(lia) Hread) as (r' & ? & _ & Hr').
  rewrite Nat.sub_0_r in Hr'. eauto.
Qed.

Lemma bit_uvarint_agrees_witness :
  ∃ r', BitReader.read_uvarint (BitReader.init [0xAC; 0x02; 7]) = (Ok 300, r') ∧
    BitReader.repr r' (stream_bits [7] ++ []).
Proof.
  apply (bit_uvarint_agrees [0xAC; 0x02; 7] _ [] 300 2); [repeat constructor| |reflexivity].
  apply repr_init. repeat constructor.
Defined.

End BStreamProps.
