(* ===== verification/Xor.v ===== *)
(** The XOR chunk encoding: [include/merlion_tsdb/chunkenc/xor.hpp] and
    [src/chunkenc/xor.cpp]. A [double] is its 64-bit pattern, so [bit_cast] is
    the identity and equality of values is equality of bits. [XORAppender]
    holds a pointer to the chunk's [BitWriter]: its operations take the writer
    of the chunk and return the updated one. *)

From S2P Require Import Prelude Varint BStream.

(** * XORChunk *)

Module XORChunk.

Definition kHeaderSize : nat := 2.
Definition kMaxSamples : Z := 65535.
Definition kMaxBytes : nat := 1024.

(** The chunk is its [writer_]. *)
Definition t : Type := BitWriter.t.

Definition new : t := BitWriter.reset (replicate kHeaderSize 0).

Definition from_bytes (bytes : list Z) : t := BitWriter.reset bytes.

Definition bytes (c : t) : list Z := BitWriter.bytes c.

(** The two header bytes, big-endian; [None] when the buffer is shorter (an
    out-of-range access of the span). *)
Definition header (bytes : list Z) : option Z :=
  match bytes with
  | b0 :: b1 :: _ => Some (u16 (Z.lor (Z.shiftl b0 8) b1))
  | _ => None
  end.

Definition num_samples (c : t) : option Z := header (bytes c).

Definition compact (c : t) : t :=
  let '(bytes, c) := BitWriter.release c in BitWriter.reset bytes.

(** [buf[0] = new_num >> 8; buf[1] = new_num] through [mutable_bytes]. *)
Definition set_header (n : Z) (c : t) : t :=
  BitWriter.mk (<[1%nat := u8 n]> (<[0%nat := u8 (Z.shiftr n 8)]> (BitWriter.stream_ c)))
    (BitWriter.count_ c).

End XORChunk.

(** * xor_write and xor_read *)

(** [std::countl_zero] and [std::countr_zero] of a non-zero 64-bit word. *)
Definition countl_zero (x : Z) : Z := 63 - Z.log2 x.

Fixpoint countr_zero_pos (p : positive) : Z :=
  match p with xO p => 1 + countr_zero_pos p | _ => 0 end.
Definition countr_zero (x : Z) : Z :=
  match x with Zpos p => countr_zero_pos p | _ => 64 end.

(** Returns the writer and the updated [leading] and [trailing]; [None] where
    a shift by 64 or more, or a bit count above 64, would be undefined. *)
Definition xor_write (w : BitWriter.t) (new_v prev_v leading trailing : Z)
    : option (BitWriter.t * Z * Z) :=
  let delta := Z.lxor new_v prev_v in
  if delta =? 0 then Some (BitWriter.write_bit false w, leading, trailing)
  else
    let w := BitWriter.write_bit true w in
    let new_leading := countl_zero delta in
    let new_trailing := countr_zero delta in
    let new_leading := if 32 <=? new_leading then 31 else new_leading in
    if negb (leading =? 0xFF) && (leading <=? new_leading) && (trailing <=? new_trailing) then
      let w := BitWriter.write_bit false w in
      let sigbits := u8 (64 - leading - trailing) in
      if (64 <=? trailing) || (64 <? sigbits) then None
      else Some (BitWriter.write_bits (Z.shiftr delta trailing) (Z.to_nat sigbits) w, leading, trailing)
    else
      let leading := new_leading in
      let trailing := new_trailing in
      let w := BitWriter.write_bit true w in
      let w := BitWriter.write_bits new_leading 5 w in
      let sigbits := u8 (64 - new_leading - new_trailing) in
      let w := BitWriter.write_bits sigbits 6 w in
      if (64 <=? new_trailing) || (64 <? sigbits) then None
      else Some (BitWriter.write_bits (Z.shiftr delta new_trailing) (Z.to_nat sigbits) w, leading, trailing).

(** Reads into [value], [leading] and [trailing], which keep what was assigned
    before an error. *)
Definition xor_read (r : BitReader.t) (value leading trailing : Z)
    : outcome ReadError unit * (BitReader.t * Z * Z * Z) :=
  match BitReader.read_bit r with
  | (Err e, r) => (Err e, (r, value, leading, trailing))
  | (UB, r) => (UB, (r, value, leading, trailing))
  | (Ok false, r) => (Ok tt, (r, value, leading, trailing))
  | (Ok true, r) =>
      let window : outcome ReadError Z * (BitReader.t * Z * Z) :=
        match BitReader.read_bit r with
        | (Err e, r) => (Err e, (r, leading, trailing))
        | (UB, r) => (UB, (r, leading, trailing))
        | (Ok false, r) => (Ok (u8 (64 - leading - trailing)), (r, leading, trailing))
        | (Ok true, r) =>
            match BitReader.read_bits 5 r with
            | (Err e, r) => (Err e, (r, leading, trailing))
            | (UB, r) => (UB, (r, leading, trailing))
            | (Ok lz, r) =>
                let leading := u8 lz in
                match BitReader.read_bits 6 r with
                | (Err e, r) => (Err e, (r, leading, trailing))
                | (UB, r) => (UB, (r, leading, trailing))
                | (Ok sb, r) =>
                    let mbits := u8 sb in
                    let mbits := if mbits =? 0 then 64 else mbits in
                    (Ok mbits, (r, leading, u8 (64 - leading - mbits)))
                end
            end
        end in
      match window with
      | (Err e, (r, leading, trailing)) => (Err e, (r, value, leading, trailing))
      | (UB, (r, leading, trailing)) => (UB, (r, value, leading, trailing))
      | (Ok mbits, (r, leading, trailing)) =>
          match BitReader.read_bits (Z.to_nat mbits) r with
          | (Err e, r) => (Err e, (r, value, leading, trailing))
          | (UB, r) => (UB, (r, value, leading, trailing))
          | (Ok bits, r) =>
              if 64 <=? trailing then (UB, (r, value, leading, trailing))
              else (Ok tt, (r, Z.lxor value (u64 (Z.shiftl bits trailing)), leading, trailing))
          end
      end
  end.

(** * XORAppender *)

(** Prometheus's asymmetric range test. *)
Definition bit_range (x n : Z) : bool :=
  let hi := Z.shiftl 1 (n - 1) in
  let lo := - (hi - 1) in
  (lo <=? x) && (x <=? hi).

Definition put_uvarint_via_writer (w : BitWriter.t) (x : Z) : BitWriter.t :=
  let '(buf, n) := put_uvarint (replicate max_varint_len64 0) x in
  foldl (λ w b, BitWriter.write_byte b w) w (take n buf).

Definition put_varint_via_writer (w : BitWriter.t) (x : Z) : BitWriter.t :=
  let '(buf, n) := put_varint (replicate max_varint_len64 0) x in
  foldl (λ w b, BitWriter.write_byte b w) w (take n buf).

Definition sign_extend (bits width : Z) : Z :=
  if Z.shiftl 1 (width - 1) <? bits
  then i64 (u64 (bits - Z.shiftl 1 width))
  else i64 bits.

Module XORAppender.

Record t : Type := mk {
  t_ : Z;
  v_ : Z;
  t_delta_ : Z;
  leading_ : Z;
  trailing_ : Z;
}.

(** The initializers of the class: [leading_] starts at the 0xFF sentinel. *)
Definition init : t := mk (- 2 ^ 63) 0 0 0xFF 0.

(** The delta of delta, prefix coded. *)
Definition write_dod (dod : Z) (w : BitWriter.t) : BitWriter.t :=
  if dod =? 0 then BitWriter.write_bit false w
  else if bit_range dod 14 then
    let w := BitWriter.write_byte (u8 (Z.lor 0x80 (Z.land (u8 (Z.shiftr dod 8)) 0x3F))) w in
    BitWriter.write_byte (u8 dod) w
  else if bit_range dod 17 then
    BitWriter.write_bits (u64 dod) 17 (BitWriter.write_bits 6 3 w)
  else if bit_range dod 20 then
    BitWriter.write_bits (u64 dod) 20 (BitWriter.write_bits 14 4 w)
  else
    BitWriter.write_bits (u64 dod) 64 (BitWriter.write_bits 15 4 w).

(** [write_v_delta], then the updates of [t_], [v_], [t_delta_] and of the
    header. *)
Definition write_v_delta (a : t) (v : Z) (w : BitWriter.t) : option (t * BitWriter.t) :=
  '(w, leading, trailing) ← xor_write w v (v_ a) (leading_ a) (trailing_ a);
  Some (mk (t_ a) (v_ a) (t_delta_ a) leading trailing, w).

(** [None]: [t - t_] overflows, or the undefined cases of [xor_write] and of
    the header access. *)
Definition append (t v : Z) (a : XORAppender.t) (w : BitWriter.t)
    : option (bool * XORAppender.t * BitWriter.t) :=
  num ← XORChunk.header (BitWriter.bytes w);
  if num =? XORChunk.kMaxSamples then Some (false, a, w)
  else
    '(t_delta, a, w) ←
      (if num =? 0 then
         let w := put_varint_via_writer w t in
         Some (0, a, BitWriter.write_bits v 64 w)
       else if num =? 1 then
         d ← i64_sub t (t_ a);
         let t_delta := u64 d in
         let w := put_uvarint_via_writer w t_delta in
         '(a, w) ← write_v_delta a v w;
         Some (t_delta, a, w)
       else
         d ← i64_sub t (t_ a);
         let t_delta := u64 d in
         let dod := i64 (t_delta - t_delta_ a) in
         let w := write_dod dod w in
         '(a, w) ← write_v_delta a v w;
         Some (t_delta, a, w));
    let a := mk t v t_delta (leading_ a) (trailing_ a) in
    let new_num := u16 (num + 1) in
    Some (true, a, XORChunk.set_header new_num w).

End XORAppender.

(** * XORIterator *)

Module XORIterator.

Record t : Type := mk {
  reader_ : BitReader.t;
  num_total_ : Z;
  num_read_ : Z;
  t_ : Z;
  v_ : Z;
  t_delta_ : Z;
  leading_ : Z;
  trailing_ : Z;
  err_ : option ReadError;
}.

Definition init (bytes : list Z) : t :=
  if (XORChunk.kHeaderSize <=? length bytes)%nat
  then mk (BitReader.init (drop XORChunk.kHeaderSize bytes)) (default 0 (XORChunk.header bytes))
         0 0 0 0 0 0 None
  else mk (BitReader.init []) 0 0 0 0 0 0 0 None.

Definition set_reader (r : BitReader.t) (it : t) : t :=
  mk r (num_total_ it) (num_read_ it) (t_ it) (v_ it) (t_delta_ it) (leading_ it) (trailing_ it) (err_ it).
Definition set_err (e : ReadError) (it : t) : t :=
  mk (reader_ it) (num_total_ it) (num_read_ it) (t_ it) (v_ it) (t_delta_ it) (leading_ it) (trailing_ it)
    (Some e).
Definition set_times (t t_delta : Z) (it : XORIterator.t) : XORIterator.t :=
  mk (reader_ it) (num_total_ it) (num_read_ it) t (v_ it) t_delta (leading_ it) (trailing_ it) (err_ it).

(** [auto x = reader_.m(); if (!x) { err_ = x.error(); return false; }]. The
    result of [next] is [None] when its behaviour is undefined. *)
Definition try_read {A} (m : rd BitReader.t ReadError A) (it : t) (k : A → t → option (bool * t))
    : option (bool * t) :=
  match m (reader_ it) with
  | (Ok a, r) => k a (set_reader r it)
  | (Err e, r) => Some (false, set_err e (set_reader r it))
  | (UB, _) => None
  end.

Definition read_value (it : t) : option (bool * t) :=
  match xor_read (reader_ it) (v_ it) (leading_ it) (trailing_ it) with
  | (UB, _) => None
  | (res, (r, v, leading, trailing)) =>
      let it := mk r (num_total_ it) (num_read_ it) (t_ it) v (t_delta_ it) leading trailing (err_ it) in
      match res with
      | Ok _ => Some (true, mk r (num_total_ it) (num_read_ it + 1) (t_ it) v (t_delta_ it) leading trailing (err_ it))
      | Err e => Some (false, set_err e it)
      | UB => None
      end
  end.

(** [for (int i = 0; i < 4; ++i)]: reads the prefix, stopping at a zero bit. *)
Fixpoint read_prefix (n : nat) (prefix : Z) : rd BitReader.t ReadError Z :=
  match n with
  | O => rret prefix
  | S n =>
      bit <~ BitReader.read_bit ;;
      let prefix := u8 (Z.shiftl prefix 1) in
      if negb bit then rret prefix else read_prefix n (u8 (Z.lor prefix 1))
  end.

(** [dod] of the prefix: [None] of the inner option is the unreachable
    default, which returns [false] without an error. *)
Definition read_dod (prefix : Z) : rd BitReader.t ReadError (option Z) :=
  if prefix =? 0 then rret (Some 0)
  else if prefix =? 2 then bits <~ BitReader.read_bits 14 ;; rret (Some (sign_extend bits 14))
  else if prefix =? 6 then bits <~ BitReader.read_bits 17 ;; rret (Some (sign_extend bits 17))
  else if prefix =? 14 then bits <~ BitReader.read_bits 20 ;; rret (Some (sign_extend bits 20))
  else if prefix =? 15 then bits <~ BitReader.read_bits 64 ;; rret (Some (i64 bits))
  else rret None.

Definition next (it : t) : option (bool * t) :=
  if bool_decide (is_Some (err_ it)) || (num_read_ it =? num_total_ it) then Some (false, it)
  else if num_read_ it =? 0 then
    try_read BitReader.read_varint it (λ t it,
    try_read (BitReader.read_bits 64) it (λ v it,
      Some (true, mk (reader_ it) (num_total_ it) (num_read_ it + 1) t v (t_delta_ it)
                     (leading_ it) (trailing_ it) (err_ it))))
  else if num_read_ it =? 1 then
    try_read BitReader.read_uvarint it (λ td it,
      t ← i64_add (t_ it) (i64 td);
      read_value (set_times t td it))
  else
    try_read (read_prefix 4 0) it (λ prefix it,
    try_read (read_dod prefix) it (λ dod it,
      match dod with
      | None => Some (false, it)
      | Some dod =>
          d ← i64_add (i64 (t_delta_ it)) dod;
          let t_delta := u64 d in
          t ← i64_add (t_ it) (i64 t_delta);
          read_value (set_times t t_delta it)
      end)).

(** [while (it.next()) ...]: the samples [(t(), v())] and the iterator at the
    end. [next] counts [num_read_] up to [num_total_] <= 65535, so 65536 calls
    are enough. *)
Fixpoint drain (fuel : nat) (it : t) : option (list (Z * Z) * t) :=
  match fuel with
  | O => None
  | S fuel =>
      '(more, it) ← next it;
      if more : bool then
        '(ss, it') ← drain fuel it;
        Some ((t_ it, v_ it) :: ss, it')
      else Some ([], it)
  end.

(** One round of that loop: it goes on with the next sample, or is left with
    the iterator at the end; [None]: undefined. *)
Definition drain_round (it : t) : t + option t :=
  match next it with
  | Some (true, it) => inl it
  | Some (false, it) => inr (Some it)
  | None => inr None
  end.

Definition kDrainFuel : nat := Z.to_nat 65536.

Lemma kDrainFuel_eq : Z.of_nat kDrainFuel = 65536.
Proof. apply Z2Nat.id. lia. Qed.

#[global] Opaque kDrainFuel.

End XORIterator.

(** [XORChunk::iterator] and [XORChunk::appender]. *)
Definition iterator (c : XORChunk.t) : XORIterator.t := XORIterator.init (XORChunk.bytes c).

Definition appender (c : XORChunk.t) : option (outcome ReadError XORAppender.t) :=
  if (length (XORChunk.bytes c) =? XORChunk.kHeaderSize)%nat then Some (Ok XORAppender.init)
  else
    '(_, it) ← XORIterator.drain XORIterator.kDrainFuel (iterator c);
    match XORIterator.err_ it with
    | Some err => Some (Err err)
    | None => Some (Ok (XORAppender.mk (XORIterator.t_ it) (XORIterator.v_ it)
        (XORIterator.t_delta_ it) (XORIterator.leading_ it) (XORIterator.trailing_ it)))
    end.

(** * Facts *)

Module XorFacts.
Import BitWriterFacts BitReaderFacts.

Ltac wfields := cbn [BitWriter.stream_ BitWriter.count_] in *.

(** ** The header *)

Lemma zbits_16 n : zbits 16 n = zbits 8 (Z.shiftr n 8) ++ zbits 8 n.
Proof. apply (zbits_app 8 8). Qed.

Lemma repr_header w n bits :
  BitWriter.repr w (zbits 16 n ++ bits) → 0 <= n < 65536 →
  ∃ data, BitWriter.stream_ w = Z.shiftr n 8 :: n mod 256 :: data ∧
    stream_bits data = bits ++ replicate (BitWriter.count_ w) false.
Proof.
  intros (Hok & Hc & Hbits) Hn. destruct w as [s c]; wfields.
  assert (∃ b0 b1 data, s = b0 :: b1 :: data) as (b0 & b1 & data & ->).
  { apply (f_equal length) in Hbits. rewrite !length_app, length_stream_bits, length_zbits in Hbits.
    destruct s as [|b0 [|b1 data]]; simpl in Hbits; [lia..|eauto]. }
  rewrite !stream_bits_cons, zbits_16, <- !app_assoc in Hbits.
  apply app_inj_1 in Hbits as [H0 Hbits]; [|by rewrite !length_zbits].
  apply app_inj_1 in Hbits as [H1 Hbits]; [|by rewrite !length_zbits].
  unfold bytes_ok in Hok. rewrite !Forall_cons_iff in Hok. destruct Hok as (Hb0 & Hb1 & Hok).
  exists data. split; [|done]. f_equal; [|f_equal].
  - apply (zbits_inj 8); [width| |done]. rewrite Z.shiftr_div_pow2 by lia.
    split; [apply Z.div_pos; lia|apply Z.div_lt_upper_bound; lia].
  - apply (zbits_inj 8); [width|apply Z.mod_pos_bound; lia|].
    by rewrite H1, <- (zbits_mod 8 n).
Qed.

Lemma split_16 n : 0 <= n < 65536 → Z.lor (Z.shiftl (Z.shiftr n 8) 8) (n mod 256) = n.
Proof.
  intros Hn. pose proof (Z.mod_pos_bound n 256 eq_refl). pose proof (Z.div_mod n 256).
  rewrite Z.lor_comm, lor_shiftl_add by (lia || done).
  rewrite Z.shiftr_div_pow2 by lia. change (2 ^ 8) with 256. lia.
Qed.

Lemma header_repr w n bits :
  BitWriter.repr w (zbits 16 n ++ bits) → 0 <= n < 65536 →
  XORChunk.header (BitWriter.bytes w) = Some n.
Proof.
  intros Hw Hn. destruct (repr_header w n bits Hw Hn) as (data & Hs & _).
  unfold BitWriter.bytes. rewrite Hs. simpl. f_equal. rewrite split_16 by done.
  apply Z.mod_small. lia.
Qed.

Lemma set_header_repr w n m bits :
  BitWriter.repr w (zbits 16 n ++ bits) → 0 <= n < 65536 →
  BitWriter.repr (XORChunk.set_header m w) (zbits 16 m ++ bits).
Proof.
  intros Hw Hn. destruct (repr_header w n bits Hw Hn) as (data & Hs & Hdata).
  destruct Hw as (Hok & Hc & _). destruct w as [s c]; wfields; subst s.
  apply Forall_cons_1 in Hok as [_ Hok]. apply Forall_cons_1 in Hok as [_ Hok].
  unfold XORChunk.set_header. wfields.
  change (<[1%nat:=?a]> (<[0%nat:=?b]> (?x :: ?y :: ?l))) with (b :: a :: l).
  split_and!; wfields; [|lia|].
  - repeat constructor; auto with merlion.
  - by rewrite !stream_bits_cons, Hdata, !zbits_u8, zbits_16, <- !app_assoc by lia.
Qed.

Lemma foldl_write_byte_repr l w bs :
  bytes_ok l → BitWriter.repr w bs →
  BitWriter.repr (foldl (λ w b, BitWriter.write_byte b w) w l) (bs ++ stream_bits l).
Proof.
  intros Hl. revert w bs. induction Hl as [|b l Hb Hl IH]; intros w bs Hw; cbn [foldl].
  { by rewrite app_nil_r. }
  rewrite stream_bits_cons, app_assoc. apply IH. by apply write_byte_repr.
Qed.

Lemma put_uvarint_via_writer_repr w bs x :
  is_u64 x = true → BitWriter.repr w bs →
  BitWriter.repr (put_uvarint_via_writer w x) (bs ++ stream_bits (uvarint_bytes x)).
Proof.
  intros Hx Hw. unfold put_uvarint_via_writer. pose proof (uvarint_buf_eq x Hx) as Hbuf.
  unfold uvarint_buf in Hbuf. destruct (put_uvarint _ x) as [buf n]. rewrite Hbuf.
  apply foldl_write_byte_repr; auto with merlion.
Qed.

Lemma put_varint_via_writer_repr w bs x :
  BitWriter.repr w bs →
  BitWriter.repr (put_varint_via_writer w x) (bs ++ stream_bits (varint_bytes x)).
Proof. apply put_uvarint_via_writer_repr. auto with merlion. Qed.

(** ** Leading and trailing zeros *)

Lemma countr_zero_spec x :
  0 < x → 0 <= countr_zero x ∧ x mod 2 ^ countr_zero x = 0.
Proof.
  destruct x as [|p|p]; try lia. intros _. simpl countr_zero.
  induction p as [p IH|p IH|]; simpl; [by rewrite Z.mod_1_r| |done].
  destruct IH as [Hn Hmod]. split; [lia|].
  rewrite Z.pow_add_r by lia. change (2 ^ 1) with 2.
  rewrite (Pos2Z.inj_xO p), Zmult_mod_distr_l, Hmod. done.
Qed.

Lemma countr_zero_le x : 0 < x → countr_zero x <= Z.log2 x.
Proof.
  intros Hx. destruct (countr_zero_spec x Hx) as [Hn Hmod].
  apply Z.log2_le_pow2; [done|]. apply Z.mod_divide in Hmod as [q Hq]; [|lia].
  assert (0 < 2 ^ countr_zero x) as Hp by lia. revert Hq Hp. generalize (2 ^ countr_zero x).
  intros p Hq Hp. assert (0 < q) by nia. nia.
Qed.

(** A shift that drops only zeros is undone by the opposite shift. *)
Lemma shiftr_shiftl_zeros x n :
  0 < x → 0 <= n <= countr_zero x → Z.shiftl (Z.shiftr x n) n = x.
Proof.
  intros Hx Hn. destruct (countr_zero_spec x Hx) as [_ Hmod].
  rewrite Z.shiftl_mul_pow2, Z.shiftr_div_pow2 by lia. symmetry.
  rewrite Z.mul_comm. apply Z_div_exact_full_2; [lia|].
  apply Z.mod_divide; [lia|]. apply Z.mod_divide in Hmod; [|lia].
  etransitivity; [|exact Hmod].
  exists (2 ^ (countr_zero x - n)). rewrite <- Z.pow_add_r by lia. f_equal. lia.
Qed.

Lemma shiftr_fits x l n :
  0 < x < 2 ^ 64 → 0 <= l <= countl_zero x → 0 <= n → l + n <= 64 →
  0 <= Z.shiftr x n < 2 ^ (64 - l - n).
Proof.
  unfold countl_zero. intros Hx Hl Hn Hln. rewrite Z.shiftr_div_pow2 by lia.
  split; [apply Z.div_pos; lia|]. apply Z.div_lt_upper_bound; [lia|].
  rewrite <- Z.pow_add_r by lia. replace (_ + _) with (64 - l) by lia.
  apply Z.log2_lt_pow2; lia.
Qed.

(** ** The value codec *)

(** The bits [xor_write] emits for [delta], and the new window. *)
Definition v_bits (delta l t : Z) : list bool * Z * Z :=
  if delta =? 0 then ([false], l, t)
  else
    let nl := if 32 <=? countl_zero delta then 31 else countl_zero delta in
    let nt := countr_zero delta in
    if negb (l =? 0xFF) && (l <=? nl) && (t <=? nt)
    then ([true; false] ++ zbits (Z.to_nat (64 - l - t)) (Z.shiftr delta t), l, t)
    else ([true; true] ++ zbits 5 nl ++ zbits 6 (64 - nl - nt)
            ++ zbits (Z.to_nat (64 - nl - nt)) (Z.shiftr delta nt), nl, nt).

(** A window: the sentinel, or at most 31 leading zeros and at least one bit. *)
Definition win_ok (l t : Z) : Prop := l = 0xFF ∨ (0 <= l <= 31 ∧ 0 <= t ∧ l + t <= 63).

(** The window of the reader agrees with the one of the writer. *)
Definition win_sync (l t l' t' : Z) : Prop := l = 0xFF ∨ (l' = l ∧ t' = t).

Lemma v_bits_length delta l t :
  0 <= delta < 2 ^ 64 → win_ok l t → (length (fst (fst (v_bits delta l t))) <= 77)%nat.
Proof.
  intros Hd Hw. unfold v_bits. destruct (Z.eqb_spec delta 0); [simpl; lia|].
  destruct (countr_zero_spec delta) as [Hn _]; [lia|].
  assert (0 <= if 32 <=? countl_zero delta then 31 else countl_zero delta) as Hl.
  { assert (Z.log2 delta < 64) by (apply Z.log2_lt_pow2; lia). unfold countl_zero.
    destruct (32 <=? _); lia. }
  destruct (negb (l =? 0xFF) && _ && _) eqn:Hb; cbn [fst]; rewrite !length_app, !length_zbits; cbn [length];
    [|lia]. destruct Hw as [->|Hw]; [done|lia].
Qed.

Lemma delta_window delta :
  0 < delta < 2 ^ 64 →
  let nl := if 32 <=? countl_zero delta then 31 else countl_zero delta in
  0 <= nl <= 31 ∧ nl <= countl_zero delta ∧ 0 <= countr_zero delta ∧ nl + countr_zero delta <= 63.
Proof.
  intros Hd. pose proof (countr_zero_le delta). destruct (countr_zero_spec delta) as [Hn _]; [lia|].
  assert (Z.log2 delta < 64) by (apply Z.log2_lt_pow2; lia).
  pose proof (Z.log2_nonneg delta). unfold countl_zero. cbn zeta.
  destruct (Z.leb_spec 32 (63 - Z.log2 delta)); lia.
Qed.

Lemma v_bits_win delta l t :
  0 <= delta < 2 ^ 64 → win_ok l t → let '(_, l', t') := v_bits delta l t in win_ok l' t'.
Proof.
  intros Hd Hw. unfold v_bits. destruct (Z.eqb_spec delta 0); [done|].
  pose proof (delta_window delta ltac:(lia)) as Hnew. cbn zeta in Hnew.
  set (nl := if 32 <=? countl_zero delta then 31 else countl_zero delta) in *.
  clearbody nl. destruct (_ && _); [done|]. right. lia.
Qed.

Lemma xor_write_repr w bs new prev l t :
  is_u64 (Z.lxor new prev) = true → win_ok l t → BitWriter.repr w bs →
  let '(ds, l', t') := v_bits (Z.lxor new prev) l t in
  ∃ w', xor_write w new prev l t = Some (w', l', t') ∧ BitWriter.repr w' (bs ++ ds).
Proof.
  intros Hd Hwin Hw. unfold xor_write, v_bits. set (delta := Z.lxor new prev) in *.
  destruct (Z.eqb_spec delta 0) as [|Hne].
  { eexists. split; [done|]. by apply write_bit_repr. }
  pose proof (delta_window delta ltac:(width)) as Hnew. cbn zeta in Hnew.
  set (nl := if 32 <=? countl_zero delta then 31 else countl_zero delta) in *.
  set (nt := countr_zero delta) in *.
  destruct (negb (l =? 255) && (l <=? nl) && (t <=? nt)) eqn:Hreuse.
  - destruct Hwin as [->|Hwin]; [done|]. rewrite u8_small by width.
    destruct (Z.leb_spec 64 t); [lia|]. destruct (Z.ltb_spec 64 (64 - l - t)); [lia|]. cbn [orb].
    eexists. split; [done|]. rewrite app_assoc. apply write_bits_repr; [lia|].
    change [true; false] with ([true] ++ [false]).
    rewrite (app_assoc bs). by do 2 apply write_bit_repr.
  - rewrite u8_small by width.
    destruct (Z.leb_spec 64 nt); [lia|]. destruct (Z.ltb_spec 64 (64 - nl - nt)); [lia|]. cbn [orb].
    eexists. split; [done|]. rewrite !app_assoc. apply write_bits_repr; [lia|].
    apply write_bits_repr; [lia|]. apply write_bits_repr; [lia|].
    change [true; true] with ([true] ++ [true]).
    rewrite (app_assoc bs). by do 2 apply write_bit_repr.
Qed.

Lemma read_zbits n u r rest :
  BitReader.repr r (zbits n u ++ rest) → (n <= 64)%nat → 0 <= u < 2 ^ Z.of_nat n →
  ∃ r', BitReader.read_bits n r = (Ok u, r') ∧ BitReader.repr r' rest.
Proof.
  intros Hr Hn Hu. destruct (read_bits_repr n r _ rest Hr) as (r' & Hread & Hr'); [apply length_zbits|done|].
  exists r'. split; [|done]. by rewrite Hread, bits_val_zbits, Z.mod_small.
Qed.

(** What [xor_read] does with the window bits, once the window is known. *)
Lemma xor_apply delta prev new t :
  Z.lxor new prev = delta → 0 < delta < 2 ^ 64 → 0 <= t <= countr_zero delta →
  Z.lxor prev (u64 (Z.shiftl (Z.shiftr delta t) t)) = new.
Proof.
  intros Hd Hpos Ht. rewrite shiftr_shiftl_zeros, u64_small by (done || lia || width).
  rewrite <- Hd. by rewrite Z.lxor_comm, Z.lxor_assoc, Z.lxor_nilpotent, Z.lxor_0_r.
Qed.

Lemma xor_read_repr r rest new prev l t l' t' :
  is_u64 (Z.lxor new prev) = true → win_ok l t → win_sync l t l' t' →
  let '(ds, l2, t2) := v_bits (Z.lxor new prev) l t in
  BitReader.repr r (ds ++ rest) →
  ∃ r', BitReader.repr r' rest ∧
    let same := Z.lxor new prev =? 0 in
    xor_read r prev l' t' = (Ok tt, (r', new, if same then l' else l2, if same then t' else t2)).
Proof.
  intros Hd Hwin Hsync. unfold v_bits, xor_read. set (delta := Z.lxor new prev) in *.
  assert (Z.lxor new prev = delta) as Hdelta by done. clearbody delta.
  destruct (Z.eqb_spec delta 0) as [->|Hne].
  { intros Hr. destruct (read_bit_repr _ _ _ Hr) as (r1 & -> & Hr1).
    apply Z.lxor_eq in Hdelta as ->. eauto. }
  pose proof (delta_window delta ltac:(width)) as Hnew. cbn zeta in Hnew.
  set (nl := if 32 <=? countl_zero delta then 31 else countl_zero delta) in *.
  set (nt := countr_zero delta) in *.
  destruct (negb (l =? 255) && (l <=? nl) && (t <=? nt)) eqn:Hreuse; intros Hr; cbn [app] in Hr.
  - destruct Hwin as [->|Hwin]; [done|]. destruct Hsync as [->|[-> ->]]; [done|].
    destruct (read_bit_repr _ _ _ Hr) as (r1 & -> & Hr1).
    destruct (read_bit_repr _ _ _ Hr1) as (r2 & -> & Hr2). rewrite u8_small by width.
    destruct (read_zbits _ _ _ _ Hr2) as (r3 & -> & Hr3); [lia| |].
    { rewrite Z2Nat.id by lia. apply shiftr_fits; width. }
    destruct (Z.leb_spec 64 t); [lia|]. rewrite (xor_apply delta prev new t) by (done || width).
    eexists. by split.
  - rewrite <- !app_assoc in Hr.
    destruct (read_bit_repr _ _ _ Hr) as (r1 & -> & Hr1).
    destruct (read_bit_repr _ _ _ Hr1) as (r2 & -> & Hr2).
    destruct (read_zbits 5 nl _ _ Hr2) as (r3 & -> & Hr3); [lia|change (2 ^ Z.of_nat 5) with 32; lia|].
    assert (64 - nl - nt = 64 ∨ 64 - nl - nt < 64) as Hsig by lia.
    set (sig := 64 - nl - nt) in *.
    destruct (read_bits_repr 6 r3 _ _ Hr3) as (r4 & -> & Hr4); [apply length_zbits|lia|].
    rewrite bits_val_zbits. change (2 ^ Z.of_nat 6) with 64.
    assert ((if u8 (sig mod 64) =? 0 then 64 else u8 (sig mod 64)) = sig) as ->.
    { destruct Hsig as [->|Hsig]; [done|]. rewrite Z.mod_small, u8_small by width.
      destruct (Z.eqb_spec sig 0); lia. }
    rewrite (u8_small nl), (u8_small (64 - nl - sig)) by width.
    replace (64 - nl - sig) with nt by lia.
    destruct (read_zbits _ _ _ _ Hr4) as (r5 & -> & Hr5); [lia| |].
    { rewrite Z2Nat.id by lia. apply shiftr_fits; width. }
    destruct (Z.leb_spec 64 nt); [lia|]. rewrite (xor_apply delta prev new nt) by (done || width).
    eexists. by split.
Qed.

(** ** The timestamp codec *)

Definition dod_bits (dod : Z) : list bool :=
  if dod =? 0 then [false]
  else if bit_range dod 14 then [true; false] ++ zbits 14 dod
  else if bit_range dod 17 then [true; true; false] ++ zbits 17 dod
  else if bit_range dod 20 then [true; true; true; false] ++ zbits 20 dod
  else [true; true; true; true] ++ zbits 64 dod.

Lemma dod_bits_length dod : (length (dod_bits dod) <= 68)%nat.
Proof.
  unfold dod_bits. repeat case_match; rewrite ?length_app, ?length_zbits; cbn [length]; lia.
Qed.

Lemma bit_range_spec x n :
  0 < n → bit_range x n = true → - 2 ^ (n - 1) < x <= 2 ^ (n - 1).
Proof. unfold bit_range. intros Hn. rewrite Z.shiftl_mul_pow2, Z.mul_1_l by lia. lia. Qed.

Lemma dod_byte dod :
  zbits 8 (u8 (Z.lor 0x80 (Z.land (u8 (Z.shiftr dod 8)) 0x3F))) = [true; false] ++ zbits 6 (Z.shiftr dod 8).
Proof.
  rewrite zbits_u8 by lia. change 0x3F with (2 ^ 6 - 1). rewrite land_ones_mod by lia.
  etransitivity; [apply (zbits_lor_low [true; false] 6)|].
  - apply Z.mod_pos_bound. done.
  - done.
  - f_equal. etransitivity; [apply (zbits_mod 6)|]. apply zbits_u8. lia.
Qed.

Lemma write_dod_repr dod w bs :
  BitWriter.repr w bs → BitWriter.repr (XORAppender.write_dod dod w) (bs ++ dod_bits dod).
Proof.
  intros Hw. unfold XORAppender.write_dod, dod_bits.
  destruct (dod =? 0); [by apply write_bit_repr|]. destruct (bit_range dod 14).
  { change (zbits 14 dod) with (zbits (6 + 8) dod). rewrite (zbits_app 6 8). change (Z.of_nat 8) with 8.
    rewrite (app_assoc [true; false]), <- dod_byte, app_assoc.
    rewrite <- (zbits_u8 8 dod) by lia. auto using write_byte_repr with merlion. }
  destruct (bit_range dod 17); [|destruct (bit_range dod 20)];
    rewrite app_assoc, <- (zbits_u64 _ dod) by lia; apply write_bits_repr; try lia;
    refine (write_bits_repr _ _ _ _ _ Hw); lia.
Qed.

Lemma sign_extend_mod x n :
  1 < n < 64 → bit_range x n = true → sign_extend (x mod 2 ^ n) n = x.
Proof.
  intros Hn Hx. apply bit_range_spec in Hx; [|lia]. unfold sign_extend.
  rewrite !Z.shiftl_mul_pow2, !Z.mul_1_l by lia.
  assert (2 ^ n = 2 * 2 ^ (n - 1)) as Hpow by (rewrite <- Z.pow_succ_r by lia; f_equal; lia).
  pose proof (Z.pow_le_mono_r 2 n 63) as H63. assert (1 < 2 ^ (n - 1)) by (apply Z.pow_gt_1; lia).
  destruct (Z.ltb_spec x 0) as [Hneg|Hpos].
  - assert (x mod 2 ^ n = x + 2 ^ n) as -> by (symmetry; apply (Z.mod_unique _ _ (-1)); lia).
    destruct (Z.ltb_spec (2 ^ (n - 1)) (x + 2 ^ n)); [|lia].
    rewrite Z.add_simpl_r, i64_u64, i64_small; [done|width].
  - rewrite Z.mod_small by lia. destruct (Z.ltb_spec (2 ^ (n - 1)) x); [lia|].
    apply i64_small. width.
Qed.

(** [k] one bits and, below four, a zero bit. *)
Lemma read_prefix_ones k n p r bs :
  BitReader.repr r (replicate k true ++ bs) →
  ∃ r', BitReader.repr r' bs ∧
    XORIterator.read_prefix (k + n) p r =
      XORIterator.read_prefix n (Nat.iter k (λ p, u8 (Z.lor (u8 (Z.shiftl p 1)) 1)) p) r'.
Proof.
  revert p r. induction k as [|k IH]; intros p r Hr; [by exists r|].
  cbn [replicate app] in Hr. destruct (read_bit_repr _ _ _ Hr) as (r1 & Hread & Hr1).
  destruct (IH (u8 (Z.lor (u8 (Z.shiftl p 1)) 1)) r1 Hr1) as (r2 & Hr2 & Heq).
  exists r2. split; [done|]. cbn [Nat.add XORIterator.read_prefix].
  rewrite (rbind_ok _ _ _ _ _ Hread). cbn [negb]. rewrite Heq. by rewrite Nat.iter_succ_r.
Qed.

Lemma read_prefix_code k r bs :
  (k < 4)%nat → BitReader.repr r (replicate k true ++ false :: bs) →
  ∃ r', BitReader.repr r' bs ∧ XORIterator.read_prefix 4 0 r = (Ok (2 ^ (Z.of_nat k + 1) - 2), r').
Proof.
  intros Hk Hr. destruct (read_prefix_ones k (4 - k) 0 r _ Hr) as (r1 & Hr1 & Heq).
  replace (k + (4 - k))%nat with 4%nat in Heq by lia. rewrite Heq.
  destruct (read_bit_repr _ _ _ Hr1) as (r2 & Hread & Hr2). exists r2. split; [done|].
  replace (4 - k)%nat with (S (3 - k)) by lia. cbn [XORIterator.read_prefix].
  rewrite (rbind_ok _ _ _ _ _ Hread). cbn [negb]. unfold rret. do 2 f_equal.
  by destruct k as [|[|[|[|k]]]]; [..|lia].
Qed.

Lemma read_prefix_dod dod r rest :
  is_i64 dod = true → BitReader.repr r (dod_bits dod ++ rest) →
  ∃ p r1 r2, XORIterator.read_prefix 4 0 r = (Ok p, r1) ∧
    XORIterator.read_dod p r1 = (Ok (Some dod), r2) ∧ BitReader.repr r2 rest.
Proof.
  intros Hdod Hr. unfold dod_bits in Hr.
  assert (∀ r p n, (n = 14 ∨ n = 17 ∨ n = 20)%nat → bit_range dod (Z.of_nat n) = true →
    BitReader.repr r (zbits n dod ++ rest) →
    (∀ r, XORIterator.read_dod p r =
      rbind (BitReader.read_bits n) (λ bits, rret (Some (sign_extend bits (Z.of_nat n)))) r) →
    ∃ r2, XORIterator.read_dod p r = (Ok (Some dod), r2) ∧ BitReader.repr r2 rest) as Hpayload.
  { intros r' p n Hn Hrange Hr' ->.
    destruct (read_bits_repr n r' _ _ Hr') as (r2 & Hread & Hr2); [apply length_zbits|lia|].
    exists r2. split; [|done]. rewrite (rbind_ok _ _ _ _ _ Hread), bits_val_zbits.
    by rewrite sign_extend_mod by lia. }
  destruct (Z.eqb_spec dod 0) as [->|];
    [|destruct (bit_range dod 14) eqn:H14; [|destruct (bit_range dod 17) eqn:H17;
      [|destruct (bit_range dod 20) eqn:H20]]].
  - destruct (read_prefix_code 0 r rest ltac:(lia) Hr) as (r1 & Hr1 & ->). eexists _, _, r1. by split_and!.
  - destruct (read_prefix_code 1 r (zbits 14 dod ++ rest) ltac:(lia) Hr) as (r1 & Hr1 & ->).
    destruct (Hpayload r1 2 14%nat) as (r2 & ? & ?); eauto 10.
  - destruct (read_prefix_code 2 r (zbits 17 dod ++ rest) ltac:(lia) Hr) as (r1 & Hr1 & ->).
    destruct (Hpayload r1 6 17%nat) as (r2 & ? & ?); eauto 10.
  - destruct (read_prefix_code 3 r (zbits 20 dod ++ rest) ltac:(lia) Hr) as (r1 & Hr1 & ->).
    destruct (Hpayload r1 14 20%nat) as (r2 & ? & ?); eauto 10.
  - destruct (read_prefix_ones 4 0 0 r (zbits 64 dod ++ rest) Hr) as (r1 & Hr1 & Heq).
    change (4 + 0)%nat with 4%nat in Heq. rewrite Heq.
    destruct (read_bits_repr 64 _ _ _ Hr1) as (r2 & Hread & Hr2); [apply length_zbits|lia|].
    eexists _, _, r2. split_and!; [done| |done]. unfold XORIterator.read_dod. simpl.
    rewrite (rbind_ok _ _ _ _ _ Hread), bits_val_zbits. unfold rret. do 3 f_equal.
    change (i64 (u64 dod) = dod). by rewrite i64_u64, i64_small.
Qed.

(** ** Samples *)

(** The iterator in the middle of a chunk: [n] of [N] samples read, and the
    encoder state it has rebuilt, as the fields of an appender. *)
Definition it_at (r : BitReader.t) (N n : Z) (st : XORAppender.t) : XORIterator.t :=
  XORIterator.mk r N n (XORAppender.t_ st) (XORAppender.v_ st) (XORAppender.t_delta_ st)
    (XORAppender.leading_ st) (XORAppender.trailing_ st) None.

(** The iterator's own initial state. *)
Definition st0 : XORAppender.t := XORAppender.mk 0 0 0 0 0.

(** One call of [next] on the bits [ds] of the next sample. *)
Definition steps (ds : list bool) (n : Z) (st st' : XORAppender.t) : Prop :=
  ∀ r rest N, BitReader.repr r (ds ++ rest) → n < N →
    ∃ r', BitReader.repr r' rest ∧
      XORIterator.next (it_at r N n st) = Some (true, it_at r' N (n + 1) st').

(** The appender [a] and the rebuilt state [st] after [n] samples: equal up to
    the window, and the window of the reader is usable by the writer. *)
Definition sync (n : Z) (a st : XORAppender.t) : Prop :=
  (n ≠ 0 → XORAppender.t_ a = XORAppender.t_ st) ∧ (n = 0 → XORAppender.t_delta_ a = 0) ∧
  XORAppender.v_ a = XORAppender.v_ st ∧ is_u64 (XORAppender.v_ a) = true ∧
  XORAppender.t_delta_ a = XORAppender.t_delta_ st ∧
  win_ok (XORAppender.leading_ a) (XORAppender.trailing_ a) ∧
  win_ok (XORAppender.leading_ st) (XORAppender.trailing_ st) ∧
  win_sync (XORAppender.leading_ a) (XORAppender.trailing_ a)
    (XORAppender.leading_ st) (XORAppender.trailing_ st).

Lemma sync_init : sync 0 XORAppender.init st0.
Proof. split_and!; [by intros []|done..|by left|right; simpl; lia|by left]. Qed.

(** The appender a replayed chunk yields is in sync with its own state. *)
Lemma sync_refl n a st : sync n a st → n ≠ 0 → sync n st st.
Proof.
  intros (? & ? & Hv & ? & ? & ? & ? & ?) Hn. rewrite Hv in *. by split_and!; [..|right].
Qed.

(** Writing the value of a sample, and reading it. *)
Lemma write_v_delta_repr n a st v w bs :
  sync n a st → is_u64 v = true → BitWriter.repr w bs →
  ∃ ds l t l' t' w',
    XORAppender.write_v_delta a v w =
      Some (XORAppender.mk (XORAppender.t_ a) (XORAppender.v_ a) (XORAppender.t_delta_ a) l t, w') ∧
    BitWriter.repr w' (bs ++ ds) ∧ (length ds <= 77)%nat ∧ win_ok l t ∧ win_ok l' t' ∧ win_sync l t l' t' ∧
    ∀ r rest N n t0 td, BitReader.repr r (ds ++ rest) → ∃ r', BitReader.repr r' rest ∧
      XORIterator.read_value (it_at r N n (XORAppender.mk t0 (XORAppender.v_ st) td
        (XORAppender.leading_ st) (XORAppender.trailing_ st))) =
      Some (true, it_at r' N (n + 1) (XORAppender.mk t0 v td l' t')).
Proof.
  intros (_ & _ & Hv & Hv64 & _ & Hwin & Hwin' & Hsync) Hnew Hw.
  set (delta := Z.lxor v (XORAppender.v_ a)).
  assert (is_u64 delta = true) as Hd by by apply lxor_u64.
  pose proof (xor_write_repr w bs v (XORAppender.v_ a) _ _ Hd Hwin Hw) as Hwrite.
  pose proof (λ r rest, xor_read_repr r rest v (XORAppender.v_ a) _ _ _ _ Hd Hwin Hsync) as Hread.
  pose proof (v_bits_win delta _ _ ltac:(width) Hwin) as Hwin2.
  pose proof (v_bits_length delta _ _ ltac:(width) Hwin) as Hlen.
  fold delta in Hwrite, Hread. unfold XORAppender.write_v_delta.
  destruct (v_bits delta (XORAppender.leading_ a) (XORAppender.trailing_ a)) as [[ds l] t] eqn:Hbits.
  destruct Hwrite as (w' & -> & Hw').
  exists ds, l, t, (if delta =? 0 then XORAppender.leading_ st else l),
    (if delta =? 0 then XORAppender.trailing_ st else t), w'.
  split_and!; [done|done|done|done|by destruct (delta =? 0)| |].
  - destruct (Z.eqb_spec delta 0) as [H0|]; [|by right].
    unfold v_bits in Hbits. rewrite H0 in Hbits. simpl in Hbits. by simplify_eq.
  - intros r rest N m t0 td Hr. destruct (Hread r rest Hr) as (r' & Hr' & Heq).
    exists r'. split; [done|]. unfold XORIterator.read_value, it_at.
    cbn [XORIterator.reader_ XORIterator.v_ XORIterator.leading_ XORIterator.trailing_
      XORAppender.v_ XORAppender.leading_ XORAppender.trailing_].
    rewrite <- Hv. cbn zeta in Heq. rewrite Heq. done.
Qed.

(** ** Modular arithmetic of the deltas *)

Lemma i64_u64_id d : is_i64 d = true → i64 (u64 d) = d.
Proof. intros. by rewrite i64_u64, i64_small. Qed.

Lemma i64_delta d td :
  is_i64 (d - i64 td) = true → i64 (u64 d - td) = d - i64 td.
Proof.
  intros Hd. rewrite <- (i64_small (d - i64 td)) by done.
  rewrite <- (i64_u64 (u64 d - td)), <- (i64_u64 (d - i64 td)). f_equal. unfold u64.
  rewrite Zminus_mod_idemp_l. rewrite <- (Zminus_mod_idemp_r d (i64 td)).
  fold (u64 (i64 td)). rewrite u64_i64. unfold u64. by rewrite Zminus_mod_idemp_r.
Qed.

Lemma i64_sub_ok a b : is_i64 (a - b) = true → i64_sub a b = Some (a - b).
Proof. intros. by apply i64_sub_Some. Qed.

Lemma i64_add_ok a b : is_i64 (a + b) = true → i64_add a b = Some (a + b).
Proof. intros. by apply i64_add_Some. Qed.

Lemma try_read_ok {A} (m : rd BitReader.t ReadError A) r N n st k a r' :
  m r = (Ok a, r') → XORIterator.try_read m (it_at r N n st) k = k a (it_at r' N n st).
Proof. unfold XORIterator.try_read. cbn [XORIterator.reader_ it_at]. by intros ->. Qed.

Lemma next_unfold r N n st :
  n < N → XORIterator.next (it_at r N n st) =
    if n =? 0 then
      XORIterator.try_read BitReader.read_varint (it_at r N n st) (λ t it,
      XORIterator.try_read (BitReader.read_bits 64) it (λ v it,
        Some (true, XORIterator.mk (XORIterator.reader_ it) (XORIterator.num_total_ it) (XORIterator.num_read_ it + 1)
          t v (XORIterator.t_delta_ it) (XORIterator.leading_ it) (XORIterator.trailing_ it) (XORIterator.err_ it))))
    else if n =? 1 then
      XORIterator.try_read BitReader.read_uvarint (it_at r N n st) (λ td it,
        t ← i64_add (XORIterator.t_ it) (i64 td);
        XORIterator.read_value (XORIterator.set_times t td it))
    else
      XORIterator.try_read (XORIterator.read_prefix 4 0) (it_at r N n st) (λ prefix it,
      XORIterator.try_read (XORIterator.read_dod prefix) it (λ dod it,
        match dod with
        | None => Some (false, it)
        | Some dod =>
            d ← i64_add (i64 (XORIterator.t_delta_ it)) dod;
            t ← i64_add (XORIterator.t_ it) (i64 (u64 d));
            XORIterator.read_value (XORIterator.set_times t (u64 d) it)
        end)).
Proof.
  intros Hn. unfold XORIterator.next. cbn [XORIterator.num_read_ XORIterator.num_total_ XORIterator.err_ it_at].
  destruct (Z.eqb_spec n N); [lia|]. done.
Qed.

(** ** One append *)

(** The timestamps the encoding can carry: the delta must fit a signed 64-bit
    integer from the second sample on, the delta of delta from the third. *)
Definition time_ok (n : Z) (a : XORAppender.t) (t : Z) : bool :=
  is_i64 t &&
  ((n =? 0) || is_i64 (t - XORAppender.t_ a)) &&
  ((n <=? 1) || is_i64 (t - XORAppender.t_ a - i64 (XORAppender.t_delta_ a))).

(** The part of [append] between the full check and the header update. *)
Definition append_body (n t v : Z) (a : XORAppender.t) (w : BitWriter.t)
    : option (Z * XORAppender.t * BitWriter.t) :=
  if n =? 0 then Some (0, a, BitWriter.write_bits v 64 (put_varint_via_writer w t))
  else if n =? 1 then
    d ← i64_sub t (XORAppender.t_ a);
    '(a, w) ← XORAppender.write_v_delta a v (put_uvarint_via_writer w (u64 d));
    Some (u64 d, a, w)
  else
    d ← i64_sub t (XORAppender.t_ a);
    '(a', w) ← XORAppender.write_v_delta a v (XORAppender.write_dod (i64 (u64 d - XORAppender.t_delta_ a)) w);
    Some (u64 d, a', w).

Lemma append_unfold n t v a w :
  XORChunk.header (BitWriter.bytes w) = Some n → n ≠ XORChunk.kMaxSamples →
  XORAppender.append t v a w =
    '(td, a, w) ← append_body n t v a w;
    Some (true, XORAppender.mk t v td (XORAppender.leading_ a) (XORAppender.trailing_ a),
          XORChunk.set_header (u16 (n + 1)) w).
Proof.
  intros Hn Hmax. unfold XORAppender.append. rewrite Hn. simpl.
  destruct (Z.eqb_spec n XORChunk.kMaxSamples); [done|]. done.
Qed.

(** The bits of the sample after the first [n], at most. *)
Definition sample_bits (n : Z) : nat := if n <=? 1 then 157 else 145.

(** What [append_body] has to provide in each of the three cases. *)
Definition body_ok (n t v : Z) (a st : XORAppender.t) (w : BitWriter.t) (bs : list bool) : Prop :=
  let td := if n =? 0 then 0 else u64 (t - XORAppender.t_ a) in
  ∃ ds l tr l' tr' w' a',
    append_body n t v a w = Some (td, a', w') ∧ ds ≠ [] ∧ (length ds <= sample_bits n)%nat ∧
    XORAppender.leading_ a' = l ∧ XORAppender.trailing_ a' = tr ∧
    BitWriter.repr w' (bs ++ ds) ∧ win_ok l tr ∧ win_ok l' tr' ∧ win_sync l tr l' tr' ∧
    steps ds n st (XORAppender.mk t v td l' tr').

Lemma body_first t v a st w bs :
  sync 0 a st → is_u64 v = true → is_i64 t = true → BitWriter.repr w bs → body_ok 0 t v a st w bs.
Proof.
  intros (_ & Htd & _ & _ & Heq & Hwin & Hwin' & Hsync) Hv Ht Hw. unfold body_ok.
  rewrite Htd in Heq by done.
  exists (stream_bits (varint_bytes t) ++ zbits 64 v), (XORAppender.leading_ a), (XORAppender.trailing_ a).
  eexists (XORAppender.leading_ st), (XORAppender.trailing_ st), _, a. split_and!; try done.
  - intros [_ Hnil]%app_nil. by apply (f_equal length) in Hnil.
  - rewrite length_app, length_stream_bits, length_zbits.
    pose proof (uvarint_bytes_length_le (zigzag t) ltac:(auto with merlion)) as Hle.
    unfold varint_bytes, max_varint_len64 in *. cbn [sample_bits Z.leb Z.compare]. lia.
  - rewrite app_assoc. apply write_bits_repr; [lia|]. by apply put_varint_via_writer_repr.
  - intros r rest N Hr Hn. rewrite <- app_assoc in Hr.
    destruct (read_varint_repr r t _ Ht Hr) as (r1 & Hread1 & Hr1).
    destruct (read_zbits 64 v r1 rest Hr1) as (r2 & Hread2 & Hr2); [lia|width|].
    exists r2. split; [done|]. rewrite next_unfold by done. cbn [Z.eqb].
    erewrite try_read_ok by exact Hread1. erewrite try_read_ok by exact Hread2.
    unfold it_at. simpl. by rewrite <- Heq.
Qed.

Lemma body_second t v a st w bs :
  sync 1 a st → is_u64 v = true → is_i64 t = true → is_i64 (t - XORAppender.t_ a) = true →
  BitWriter.repr w bs → body_ok 1 t v a st w bs.
Proof.
  intros Hsync Hv Ht Hd Hw. unfold body_ok, append_body. cbn [Z.eqb].
  rewrite i64_sub_ok by done. set (td := u64 (t - XORAppender.t_ a)).
  assert (is_u64 td = true) as Htd by apply u64_range.
  destruct (write_v_delta_repr 1 a st v _ _ Hsync Hv (put_uvarint_via_writer_repr w bs td Htd Hw))
    as (ds & l & tr & l' & tr' & w' & Hwrite & Hw' & Hlen & ? & ? & ? & Hread).
  exists (stream_bits (uvarint_bytes td) ++ ds), l, tr, l', tr', w'.
  cbn [mbind option_bind]. fold td. rewrite Hwrite. eexists. split_and!; try done.
  - intros [Hnil _]%app_nil. apply (f_equal length) in Hnil. rewrite length_stream_bits in Hnil.
    pose proof (uvarint_bytes_length_le td Htd). simpl in Hnil. lia.
  - rewrite length_app, length_stream_bits. pose proof (uvarint_bytes_length_le td Htd) as Hle.
    unfold max_varint_len64 in Hle. cbn [sample_bits Z.leb Z.compare Pos.compare Pos.compare_cont]. lia.
  - by rewrite app_assoc.
  - intros r rest N Hr Hn. rewrite <- app_assoc in Hr.
    destruct (read_uvarint_repr r td _ Htd Hr) as (r1 & Hread1 & Hr1).
    destruct (Hread r1 rest N 1 t td Hr1) as (r2 & Hr2 & Hval).
    exists r2. split; [done|]. rewrite next_unfold by done. cbn [Z.eqb Pos.eqb].
    erewrite try_read_ok by exact Hread1. assert (i64 td = t - XORAppender.t_ a) as -> by by apply i64_u64_id.
    destruct Hsync as (Heq & _). cbn [XORIterator.t_ it_at]. rewrite <- Heq by done.
    rewrite i64_add_ok by (by replace (XORAppender.t_ a + (t - XORAppender.t_ a)) with t by lia).
    replace (XORAppender.t_ a + (t - XORAppender.t_ a)) with t by lia. exact Hval.
Qed.

Lemma body_next n t v a st w bs :
  1 < n → sync n a st → is_u64 v = true → is_i64 t = true →
  is_i64 (t - XORAppender.t_ a) = true →
  is_i64 (t - XORAppender.t_ a - i64 (XORAppender.t_delta_ a)) = true →
  BitWriter.repr w bs → body_ok n t v a st w bs.
Proof.
  intros Hn Hsync Hv Ht Hd Hdd Hw. unfold body_ok, append_body.
  destruct (Z.eqb_spec n 0); [lia|]. destruct (Z.eqb_spec n 1); [lia|].
  rewrite i64_sub_ok by done. set (d := t - XORAppender.t_ a) in *.
  set (dod := d - i64 (XORAppender.t_delta_ a)) in *. cbn [mbind option_bind].
  rewrite i64_delta by done. fold dod.
  destruct (write_v_delta_repr n a st v _ _ Hsync Hv (write_dod_repr dod w bs Hw))
    as (ds & l & tr & l' & tr' & w' & Hwrite & Hw' & Hlen & ? & ? & ? & Hread).
  exists (dod_bits dod ++ ds), l, tr, l', tr', w'.
  rewrite Hwrite. eexists. split_and!; try done.
  - intros [Hnil _]%app_nil. unfold dod_bits in Hnil. by repeat case_match.
  - rewrite length_app. pose proof (dod_bits_length dod). unfold sample_bits.
    destruct (Z.leb_spec n 1); lia.
  - by rewrite app_assoc.
  - intros r rest N Hr HN. rewrite <- app_assoc in Hr.
    destruct (read_prefix_dod dod r _ Hdd Hr) as (p & r1 & r2 & Hread1 & Hread2 & Hr2).
    destruct (Hread r2 rest N n t (u64 d) Hr2) as (r3 & Hr3 & Hval).
    exists r3. split; [done|]. rewrite next_unfold by done.
    destruct (Z.eqb_spec n 0); [lia|]. destruct (Z.eqb_spec n 1); [lia|].
    erewrite try_read_ok by exact Hread1. erewrite try_read_ok by exact Hread2.
    destruct Hsync as (Heq & _ & _ & _ & Htd & _). cbn [XORIterator.t_ XORIterator.t_delta_ it_at].
    rewrite <- Heq, <- Htd by lia.
    assert (i64 (XORAppender.t_delta_ a) + dod = d) as Hsum by (unfold dod; lia).
    rewrite i64_add_ok, Hsum by (by rewrite Hsum). cbn [mbind option_bind].
    rewrite i64_u64_id by done.
    assert (XORAppender.t_ a + d = t) as Hsum' by (unfold d; lia).
    rewrite i64_add_ok, Hsum' by (by rewrite Hsum'). exact Hval.
Qed.

Lemma append_step n a st w bits t v :
  BitWriter.repr w (zbits 16 n ++ bits) → 0 <= n < 65535 → sync n a st →
  is_u64 v = true → time_ok n a t = true →
  ∃ ds a' st' w',
    XORAppender.append t v a w = Some (true, a', w') ∧ ds ≠ [] ∧ (length ds <= sample_bits n)%nat ∧
    BitWriter.repr w' (zbits 16 (n + 1) ++ bits ++ ds) ∧
    steps ds n st st' ∧ sync (n + 1) a' st' ∧
    XORAppender.t_ st' = t ∧ XORAppender.v_ st' = v ∧ XORAppender.t_ a' = t ∧
    XORAppender.t_delta_ a' = if n =? 0 then 0 else u64 (t - XORAppender.t_ a).
Proof.
  intros Hw Hn Hsync Hv Htime. unfold time_ok in Htime.
  assert (body_ok n t v a st w (zbits 16 n ++ bits)) as
    (ds & l & tr & l' & tr' & w' & a' & Hbody & Hne & Hlen & <- & <- & Hw' & ? & ? & ? & Hsteps).
  { destruct (decide (n = 0)) as [->|]; [|destruct (decide (n = 1)) as [->|]].
    - apply body_first; [done..|lia|done].
    - apply body_second; [done..|lia|lia|done].
    - apply body_next; [lia|done|done|lia|lia|lia|done]. }
  assert (XORChunk.header (BitWriter.bytes w) = Some n) as Hheader by (eapply header_repr; [done|lia]).
  rewrite (append_unfold n) by (done || (unfold XORChunk.kMaxSamples; lia)).
  rewrite Hbody. cbn [mbind option_bind]. eexists ds, _, _, _. split_and!; [done|done|done| |exact Hsteps|..]; try done.
  - rewrite <- app_assoc in Hw'. assert (u16 (n + 1) = n + 1) as -> by (apply Z.mod_small; lia).
    by apply (set_header_repr _ n); [|lia].
  - split_and!; simpl; try done. lia.
Qed.

(** ** Whole chunks *)

(** The bits of the samples [ss], one [steps] each, ending in the state [st]. *)
Inductive decodes : list bool → list (Z * Z) → XORAppender.t → Prop :=
| decodes_nil : decodes [] [] st0
| decodes_snoc bits ss st ds st' :
    decodes bits ss st → ds ≠ [] → (length ds <= sample_bits (Z.of_nat (length ss)))%nat → steps ds (Z.of_nat (length ss)) st st' →
    decodes (bits ++ ds) (ss ++ [(XORAppender.t_ st', XORAppender.v_ st')]) st'.

Lemma drain_decodes bits ss st :
  decodes bits ss st → ∀ r rest N fuel, BitReader.repr r (bits ++ rest) → Z.of_nat (length ss) <= N →
  ∃ r', BitReader.repr r' rest ∧
    XORIterator.drain (length ss + fuel) (it_at r N 0 st0) =
      '(ss', it) ← XORIterator.drain fuel (it_at r' N (Z.of_nat (length ss)) st); Some (ss ++ ss', it).
Proof.
  induction 1 as [|bits ss st ds st' _ IH _ _ Hstep]; intros r rest N fuel Hr HN.
  { exists r. split; [done|]. simpl. by destruct (XORIterator.drain fuel _) as [[]|]. }
  rewrite <- app_assoc in Hr. rewrite length_app in *. simpl in HN.
  destruct (IH r (ds ++ rest) N (S fuel) Hr ltac:(lia)) as (r1 & Hr1 & Hdrain).
  destruct (Hstep r1 rest N Hr1 ltac:(lia)) as (r2 & Hr2 & Hnext).
  exists r2. split; [done|]. simpl length.
  replace (length ss + 1 + fuel)%nat with (length ss + S fuel)%nat by lia. rewrite Hdrain.
  cbn [XORIterator.drain]. rewrite Hnext. cbn [mbind option_bind].
  replace (Z.of_nat (length ss + 1)) with (Z.of_nat (length ss) + 1) by lia.
  destruct (XORIterator.drain fuel _) as [[ss' it]|]; [|done]. simpl. by rewrite <- app_assoc.
Qed.

(** The chunk [w] holds the samples [ss], and [a] may append to it. *)
Definition chunk_ok (ss : list (Z * Z)) (a : XORAppender.t) (w : XORChunk.t) : Prop :=
  ∃ bits st, BitWriter.repr w (zbits 16 (Z.of_nat (length ss)) ++ bits) ∧
    Z.of_nat (length ss) <= 65535 ∧ decodes bits ss st ∧ sync (Z.of_nat (length ss)) a st.

Lemma chunk_ok_new : chunk_ok [] XORAppender.init XORChunk.new.
Proof.
  exists [], st0. split_and!; [|simpl; lia|constructor|apply sync_init].
  split_and!; [repeat constructor|simpl; lia|done].
Qed.

Lemma chunk_ok_num ss a w :
  chunk_ok ss a w → XORChunk.num_samples w = Some (Z.of_nat (length ss)).
Proof. intros (bits & st & Hw & Hlen & _). eapply header_repr; [done|lia]. Qed.

Lemma chunk_iterator bits ss st w :
  BitWriter.repr w (zbits 16 (Z.of_nat (length ss)) ++ bits) → Z.of_nat (length ss) <= 65535 →
  decodes bits ss st →
  ∃ r, XORIterator.drain XORIterator.kDrainFuel (iterator w) =
      Some (ss, it_at r (Z.of_nat (length ss)) (Z.of_nat (length ss)) st).
Proof.
  intros Hw Hlen Hdec.
  destruct (repr_header w _ bits Hw) as (data & Hs & Hdata); [lia|].
  assert (iterator w = it_at (BitReader.init data) (Z.of_nat (length ss)) 0 st0) as ->.
  { unfold iterator, XORIterator.init. change (XORChunk.header (XORChunk.bytes w)) with (XORChunk.num_samples w).
    pose proof Hw as Hw'. eapply header_repr in Hw'; [|lia]. unfold XORChunk.num_samples, XORChunk.bytes.
    rewrite Hw'. unfold BitWriter.bytes. rewrite Hs. done. }
  assert (bytes_ok data) as Hok.
  { destruct Hw as (Hok & _). rewrite Hs in Hok. by do 2 apply Forall_cons_1 in Hok as [_ Hok]. }
  pose proof (repr_init data Hok) as Hr. rewrite Hdata in Hr.
  destruct (drain_decodes _ _ _ Hdec _ _ (Z.of_nat (length ss))
    (S (XORIterator.kDrainFuel - S (length ss))) Hr) as (r' & _ & Hdrain); [lia|].
  exists r'.
  pose proof XORIterator.kDrainFuel_eq.
  replace (length ss + S (XORIterator.kDrainFuel - S (length ss)))%nat
    with XORIterator.kDrainFuel in Hdrain by lia.
  rewrite Hdrain. cbn [XORIterator.drain]. unfold XORIterator.next.
  cbn [XORIterator.num_read_ XORIterator.num_total_ XORIterator.err_ it_at].
  rewrite Z.eqb_refl, orb_true_r. cbn [mbind option_bind]. by rewrite app_nil_r.
Qed.

(** ** Sequences of appends *)

(** A client's appends: all samples in order, as long as none is refused. *)
Fixpoint append_all (ss : list (Z * Z)) (a : XORAppender.t) (c : XORChunk.t)
    : option (bool * XORAppender.t * XORChunk.t) :=
  match ss with
  | [] => Some (true, a, c)
  | (t, v) :: ss =>
      '(ok, a, c) ← XORAppender.append t v a c;
      if ok : bool then append_all ss a c else Some (false, a, c)
  end.

(** The timestamps XOR chunks can carry, from the last timestamp and the last
    delta: deltas and deltas of deltas have to fit 64-bit signed integers. *)
Definition advance (prev : option (Z * option Z)) (t : Z) : option (Z * option Z) :=
  match prev with None => Some (t, None) | Some (p, _) => Some (t, Some (t - p)) end.

Definition time_fits (prev : option (Z * option Z)) (t : Z) : bool :=
  is_i64 t &&
  match prev with
  | None => true
  | Some (p, d) => is_i64 (t - p) && match d with None => true | Some d => is_i64 (t - p - d) end
  end.

Fixpoint times_fit (prev : option (Z * option Z)) (ts : list Z) : bool :=
  match ts with
  | [] => true
  | t :: ts => time_fits prev t && times_fit (advance prev t) ts
  end.

Definition samples_ok (ss : list (Z * Z)) : bool :=
  times_fit None (map fst ss) && forallb (λ s, is_u64 (snd s)) ss && (Z.of_nat (length ss) <=? 65535).

Lemma times_fit_app prev l k :
  times_fit prev (l ++ k) = times_fit prev l && times_fit (foldl advance prev l) k.
Proof. revert prev. induction l; intros; simpl; [done|]. by rewrite IHl, andb_assoc. Qed.

(** [prev] describes the last samples of an appender at [n] samples. *)
Definition prev_ok (n : nat) (a : XORAppender.t) (prev : option (Z * option Z)) : Prop :=
  match prev with
  | None => n = 0%nat
  | Some (p, None) => n = 1%nat ∧ XORAppender.t_ a = p
  | Some (p, Some d) => (1 < n)%nat ∧ XORAppender.t_ a = p ∧ XORAppender.t_delta_ a = u64 d ∧ is_i64 d = true
  end.

Lemma decodes_length bits ss st :
  decodes bits ss st → (length ss <= length bits)%nat ∧ (length ss <= 1 → length bits <= 157)%nat.
Proof.
  induction 1 as [|bits ss st ds st' Hdec [IH1 IH2] Hne Hlen _]; [simpl; lia|].
  rewrite !length_app. cbn [length]. split; [destruct ds; [done|cbn [length]; lia]|].
  intros H1. destruct Hdec as [|? ss ?]; [exact Hlen|]. rewrite length_app in H1. cbn [length] in H1. lia.
Qed.

(** The bytes of a chunk up to which a sample still fits in [1024] bytes. *)
Definition roomy (c : XORChunk.t) : Prop := (length (XORChunk.bytes c) <= 1005)%nat.

Lemma repr_size w bs : BitWriter.repr w bs → (length bs <= 8 * length (BitWriter.bytes w) <= length bs + 7)%nat.
Proof.
  intros (_ & Hcount & Hbits). apply (f_equal length) in Hbits.
  rewrite length_stream_bits, length_app, length_replicate in Hbits. unfold BitWriter.bytes. lia.
Qed.

Lemma append_one ss a c prev t v :
  chunk_ok ss a c → prev_ok (length ss) a prev → time_fits prev t = true → is_u64 v = true →
  Z.of_nat (length ss) < 65535 →
  ∃ a' c', XORAppender.append t v a c = Some (true, a', c') ∧ chunk_ok (ss ++ [(t, v)]) a' c' ∧
    prev_ok (S (length ss)) a' (advance prev t) ∧
    (roomy c → length (XORChunk.bytes c') <= 1024)%nat.
Proof.
  intros (bits & st & Hw & _ & Hdec & Hsync) Hprev Ht Hv Hlen.
  set (n := Z.of_nat (length ss)) in *.
  assert (time_ok n a t = true) as Htime.
  { unfold time_ok. unfold time_fits in Ht. destruct prev as [[p [d|]]|]; simpl in Hprev.
    - destruct Hprev as (? & <- & -> & Hd). rewrite i64_u64_id by done. lia.
    - destruct Hprev as (? & <-). lia.
    - lia. }
  destruct (append_step n a st c bits t v Hw ltac:(lia) Hsync Hv Htime)
    as (ds & a' & st' & c' & Happ & Hne & Hbits & Hw' & Hsteps & Hsync' & Ht' & Hv' & Hta & Htd).
  pose proof (decodes_snoc _ _ _ _ _ Hdec Hne Hbits Hsteps) as Hdec'. rewrite Ht', Hv' in Hdec'.
  assert (Z.of_nat (length (ss ++ [(t, v)])) = n + 1) as Hlen' by (rewrite length_app; simpl; lia).
  exists a', c'. split_and!; [done| | |].
  - exists (bits ++ ds), st'. rewrite Hlen'. by split_and!; [|lia|..].
  - unfold advance. unfold time_fits in Ht. destruct prev as [[p [d|]]|]; simpl in *.
    + destruct Hprev as (? & <- & _ & _). split_and!; [lia|done| |lia].
      rewrite Htd. destruct (Z.eqb_spec n 0); [lia|done].
    + destruct Hprev as (? & <-). split_and!; [lia|done| |lia].
      rewrite Htd. destruct (Z.eqb_spec n 0); [lia|done].
    + split; [lia|done].
  - unfold roomy. intros Hroom. apply repr_size in Hw, Hw'. unfold XORChunk.bytes in *.
    apply decodes_length in Hdec as [_ Hfew]. rewrite !length_app, length_zbits in *.
    unfold sample_bits, n in Hbits. destruct (Z.leb_spec (Z.of_nat (length ss)) 1); lia.
Qed.

Lemma append_all_ok ss2 : ∀ ss a c prev,
  chunk_ok ss a c → prev_ok (length ss) a prev →
  times_fit prev (map fst ss2) = true → forallb (λ s, is_u64 (snd s)) ss2 = true →
  Z.of_nat (length ss + length ss2) <= 65535 →
  ∃ a' c', append_all ss2 a c = Some (true, a', c') ∧ chunk_ok (ss ++ ss2) a' c' ∧
    prev_ok (length ss + length ss2) a' (foldl advance prev (map fst ss2)).
Proof.
  induction ss2 as [|[t v] ss2 IH]; intros ss a c prev Hc Hprev Htimes Hvals Hlen.
  { exists a, c. by rewrite app_nil_r, Nat.add_0_r. }
  simpl in Htimes, Hvals, Hlen. apply andb_prop in Htimes as [Ht Htimes].
  apply andb_prop in Hvals as [Hv Hvals].
  destruct (append_one ss a c prev t v Hc Hprev Ht Hv ltac:(lia)) as (a' & c' & Happ & Hc' & Hprev' & _).
  destruct (IH (ss ++ [(t, v)]) a' c' (advance prev t)) as (a2 & c2 & Hall & Hc2 & Hprev2); [done| |done..| |].
  - rewrite length_app. simpl. by rewrite Nat.add_1_r.
  - rewrite length_app. simpl. lia.
  - exists a2, c2. rewrite <- app_assoc in Hc2. rewrite length_app in Hprev2. simpl in *.
    rewrite Happ. simpl. split_and!; [done|done|].
    by replace (length ss + S (length ss2))%nat with (length ss + 1 + length ss2)%nat by lia.
Qed.

(** [XORChunk::appender] on a chunk that is still being written. *)
Lemma appender_ok ss a c prev :
  chunk_ok ss a c → prev_ok (length ss) a prev →
  ∃ a', appender c = Some (Ok a') ∧ chunk_ok ss a' c ∧ prev_ok (length ss) a' prev.
Proof.
  intros Hc Hprev. pose proof Hc as (bits & st & Hw & Hlen & Hdec & Hsync).
  destruct (repr_header c _ bits Hw) as (data & Hs & Hdata); [lia|].
  unfold appender, XORChunk.bytes, BitWriter.bytes, XORChunk.kHeaderSize. rewrite Hs. simpl length.
  destruct Hdec as [|bits ss st ds st' Hdec Hne Hbits Hsteps].
  - assert (data = []) as ->.
    { destruct Hw as (_ & Hcount & _). apply (f_equal length) in Hdata.
      rewrite length_stream_bits, length_app, length_replicate in Hdata. simpl in Hdata.
      destruct data; simpl in *; [done|lia]. }
    exists XORAppender.init. simpl. split_and!; [done| |].
    + exists [], st0. split_and!; [done|done|constructor|apply sync_init].
    + by destruct prev as [[p [d|]]|]; simpl in *; [lia|lia|].
  - assert (data ≠ []).
    { intros ->. destruct Hw as (_ & Hcount & _). apply (f_equal length) in Hdata.
      rewrite !length_app in Hdata. destruct ds; simpl in *; [done|lia]. }
    destruct data as [|b data]; [done|]. cbn [length Nat.eqb].
    set (ss' := ss ++ [(XORAppender.t_ st', XORAppender.v_ st')]) in *.
    assert (decodes (bits ++ ds) ss' st') as Hdec' by by eapply decodes_snoc.
    destruct (chunk_iterator _ _ _ c Hw Hlen Hdec') as (r & ->).
    destruct st' as [t v td l tr]. cbn [mbind option_bind it_at XORIterator.err_].
    eexists. split; [done|].
    assert (Z.of_nat (length ss') ≠ 0) as Hn0 by (unfold ss'; rewrite length_app; simpl; lia).
    split; [exists (bits ++ ds), (XORAppender.mk t v td l tr); split_and!; [done..|]|].
    + by eapply sync_refl.
    + destruct Hsync as (Ht & _ & _ & _ & Htd & _). simpl in Ht, Htd. specialize (Ht Hn0).
      destruct prev as [[p [d|]]|]; simpl in *; [by rewrite <- Ht, <- Htd|by rewrite <- Ht|done].
Qed.

(** ** The types of the machine *)

(** The fields of the class at their widths: an [int64_t], two [uint64_t]s and
    a window that is the sentinel or describes between one and 64 bits. *)
Definition appender_typed (a : XORAppender.t) : bool :=
  is_i64 (XORAppender.t_ a) && is_u64 (XORAppender.v_ a) && is_u64 (XORAppender.t_delta_ a) &&
  ((XORAppender.leading_ a =? 0xFF) && is_byte (XORAppender.trailing_ a) ||
   (0 <=? XORAppender.leading_ a) && (XORAppender.leading_ a <=? 31) && (0 <=? XORAppender.trailing_ a) &&
   (XORAppender.leading_ a + XORAppender.trailing_ a <=? 63)).

Lemma write_v_delta_typed a v w bs :
  appender_typed a = true → is_u64 v = true → BitWriter.repr w bs →
  ∃ a' w' ds, XORAppender.write_v_delta a v w = Some (a', w') ∧ BitWriter.repr w' (bs ++ ds) ∧
    (1 <= length ds <= 77)%nat ∧
    ∀ t td, is_i64 t = true → is_u64 td = true →
      appender_typed (XORAppender.mk t v td (XORAppender.leading_ a') (XORAppender.trailing_ a')) = true.
Proof.
  destruct a as [t0 v0 td0 l tr]. unfold appender_typed, XORAppender.write_v_delta.
  cbn [XORAppender.t_ XORAppender.v_ XORAppender.t_delta_ XORAppender.leading_ XORAppender.trailing_].
  intros Ha Hv Hw. set (delta := Z.lxor v v0).
  assert (is_u64 delta = true) as Hd by (apply lxor_u64; [done|width]).
  assert (win_ok l tr) as Hwin by (unfold win_ok; width).
  pose proof (xor_write_repr w bs v v0 l tr Hd Hwin Hw) as Hwrite.
  pose proof (v_bits_win delta l tr ltac:(width) Hwin) as Hwin2.
  pose proof (v_bits_length delta l tr ltac:(width) Hwin) as Hlen. fold delta in Hwrite.
  assert (v_bits delta l tr = ([false], l, tr) ∨ (1 <= length (v_bits delta l tr).1.1)%nat ∧
    ((v_bits delta l tr).1.2 = l ∧ (v_bits delta l tr).2 = tr ∨ (v_bits delta l tr).1.2 <> 0xFF)) as Hcase.
  { unfold v_bits. destruct (Z.eqb_spec delta 0); [by left|]. right.
    pose proof (delta_window delta ltac:(width)) as Hnew. cbn zeta in Hnew.
    set (nl := if 32 <=? countl_zero delta then 31 else countl_zero delta) in *. clearbody nl.
    destruct (negb (l =? 0xFF) && _ && _); cbn [fst snd app length]; (split; [lia|]); [by left|right; lia]. }
  destruct (v_bits delta l tr) as [[ds l'] tr'] eqn:Hbits. destruct Hwrite as (w' & -> & Hw').
  eexists _, w', ds. split; [done|]. split; [done|].
  cbn [fst snd XORAppender.leading_ XORAppender.trailing_] in *.
  split; [destruct Hcase as [[= -> -> ->]|[??]]; simpl in *; lia|]. intros t td Ht Htd.
  unfold win_ok in Hwin2. destruct Hcase as [[= -> -> ->]|[_ [[-> ->]|Hne]]]; width.
Qed.

Lemma append_body_typed n t v a w bs :
  appender_typed a = true → BitWriter.repr w bs → is_i64 t = true → is_u64 v = true →
  match append_body n t v a w with
  | Some (td, a', w') =>
      (n = 0 ∨ is_i64 (t - XORAppender.t_ a) = true) ∧
      appender_typed (XORAppender.mk t v td (XORAppender.leading_ a') (XORAppender.trailing_ a')) = true ∧
      ∃ ds, (1 <= length ds <= 157)%nat ∧ BitWriter.repr w' (bs ++ ds)
  | None => n ≠ 0 ∧ is_i64 (t - XORAppender.t_ a) = false
  end.
Proof.
  intros Ha Hw Ht Hv. unfold append_body. destruct (Z.eqb_spec n 0) as [->|Hn].
  { split; [by left|]. split; [unfold appender_typed in *; simpl; width|].
    exists (stream_bits (varint_bytes t) ++ zbits 64 v). rewrite app_assoc. split.
    - rewrite length_app, length_stream_bits, length_zbits.
      pose proof (uvarint_bytes_length_le (zigzag t) ltac:(auto with merlion)) as Hle.
      unfold varint_bytes, max_varint_len64 in *. lia.
    - apply write_bits_repr; [lia|]. by apply put_varint_via_writer_repr. }
  destruct (is_i64 (t - XORAppender.t_ a)) eqn:Hd; cycle 1.
  { assert (i64_sub t (XORAppender.t_ a) = None) as ->.
    { destruct (i64_sub _ _) eqn:Hsub; [|done]. apply i64_sub_Some in Hsub as [-> ?]. congruence. }
    by destruct (n =? 1). }
  rewrite i64_sub_ok by done. cbn [mbind option_bind]. set (td := u64 (t - XORAppender.t_ a)).
  assert (is_u64 td = true) as Htd by apply u64_range. destruct (n =? 1).
  - destruct (write_v_delta_typed a v _ _ Ha Hv (put_uvarint_via_writer_repr w bs td Htd Hw))
      as (a' & w' & ds & -> & Hw' & Hlen & Hty).
    split; [by right|]. split; [by apply Hty|]. rewrite <- app_assoc in Hw'. eexists. split; [|exact Hw'].
    rewrite length_app, length_stream_bits. pose proof (uvarint_bytes_length_le td Htd).
    unfold max_varint_len64 in *. lia.
  - set (dod := i64 (td - XORAppender.t_delta_ a)).
    destruct (write_v_delta_typed a v _ _ Ha Hv (write_dod_repr dod w bs Hw))
      as (a' & w' & ds & -> & Hw' & Hlen & Hty).
    split; [by right|]. split; [by apply Hty|]. rewrite <- app_assoc in Hw'. eexists. split; [|exact Hw'].
    rewrite length_app. pose proof (dod_bits_length dod). lia.
Qed.

End XorFacts.

(** * Properties *)

Module XorProps.
Import XorFacts.

(** C10: appending any samples whose deltas fit (see [times_fit]) to a new
    chunk succeeds, also when the appender is dropped in between and rebuilt by
    [XORChunk::appender] from the live chunk, and iterating over the chunk then
    yields exactly those samples, bit for bit, with no error; [num_samples] is
    their number. *)
Theorem xor_chunk_roundtrip (ss1 ss2 : list (Z * Z)) :
  samples_ok (ss1 ++ ss2) = true →
  ∃ a c a' a2 c2 it,
    append_all ss1 XORAppender.init XORChunk.new = Some (true, a, c) ∧
    appender c = Some (Ok a') ∧
    append_all ss2 a' c = Some (true, a2, c2) ∧
    XORChunk.num_samples c2 = Some (Z.of_nat (length (ss1 ++ ss2))) ∧
    XORIterator.drain XORIterator.kDrainFuel (iterator c2) = Some (ss1 ++ ss2, it) ∧
    XORIterator.err_ it = None.
Proof.
  intros Hok. unfold samples_ok in Hok. apply andb_prop in Hok as [Hok Hlen].
  apply andb_prop in Hok as [Htimes Hvals].
  rewrite map_app, times_fit_app in Htimes. apply andb_prop in Htimes as [Ht1 Ht2].
  rewrite forallb_app in Hvals. apply andb_prop in Hvals as [Hv1 Hv2]. rewrite length_app in Hlen.
  destruct (append_all_ok ss1 [] _ _ None chunk_ok_new) as (a & c & Happ1 & Hc1 & Hprev1);
    [done|done|done|simpl; lia|].
  destruct (appender_ok _ _ _ _ Hc1 Hprev1) as (a' & Happender & Hc' & Hprev').
  destruct (append_all_ok ss2 ss1 a' c _ Hc' Hprev') as (a2 & c2 & Happ2 & Hc2 & _); [done|done|lia|].
  pose proof Hc2 as (bits & st & Hw & Hlen2 & Hdec & _).
  destruct (chunk_iterator _ _ _ _ Hw Hlen2 Hdec) as (r & Hdrain).
  exists a, c, a', a2, c2. eexists. split_and!; [done..|by eapply chunk_ok_num|exact Hdrain|done].
Qed.


Lemma xor_chunk_roundtrip_witness :
  let ss1 := [(1000, 0x3FF0000000000000); (1015, 0x3FF0000000000000)] in
  let ss2 := [(1031, 0x4000000000000000); (900000000, 0x7FF0000000000002); (-5, 0)] in
  ∃ a c a' a2 c2 it,
    append_all ss1 XORAppender.init XORChunk.new = Some (true, a, c) ∧
    appender c = Some (Ok a') ∧
    append_all ss2 a' c = Some (true, a2, c2) ∧
    XORChunk.num_samples c2 = Some (Z.of_nat (length (ss1 ++ ss2))) ∧
    XORIterator.drain XORIterator.kDrainFuel (iterator c2) = Some (ss1 ++ ss2, it) ∧
    XORIterator.err_ it = None.
Proof. apply xor_chunk_roundtrip. reflexivity. Defined.

(** ** The types of the machine *)

(** C11: appending keeps the types: from any appender whose fields are at their
    widths and any chunk whose header announces [n] samples, [append] of any
    timestamp and value leaves an appender whose fields are at their widths
    and a chunk with at most 157 more bits after the header, which announces
    one more sample; a full chunk of 65535 samples refuses the sample and
    nothing changes. The only undefined behaviour is the signed overflow of
    [t - t_], never a shift or a width the bit writer cannot do. *)
Theorem xor_append_typed (n t v : Z) (bits : list bool) (a : XORAppender.t) (w : BitWriter.t) :
  appender_typed a = true → 0 <= n <= 65535 → BitWriter.repr w (zbits 16 n ++ bits) →
  is_i64 t = true → is_u64 v = true →
  match XORAppender.append t v a w with
  | Some (true, a', w') =>
      n < 65535 ∧ (n = 0 ∨ is_i64 (t - XORAppender.t_ a) = true) ∧
      appender_typed a' = true ∧ XORAppender.t_ a' = t ∧ XORAppender.v_ a' = v ∧
      ∃ ds, (1 <= length ds <= 157)%nat ∧ BitWriter.repr w' (zbits 16 (n + 1) ++ bits ++ ds)
  | Some (false, a', w') => n = 65535 ∧ a' = a ∧ w' = w
  | None => 0 < n < 65535 ∧ is_i64 (t - XORAppender.t_ a) = false
  end.
Proof.
  intros Ha Hn Hw Ht Hv. assert (XORChunk.header (BitWriter.bytes w) = Some n) as Hheader
    by (eapply header_repr; [done|lia]).
  destruct (decide (n = XORChunk.kMaxSamples)) as [->|Hmax].
  { unfold XORAppender.append. rewrite Hheader. cbn [mbind option_bind]. by rewrite Z.eqb_refl. }
  unfold XORChunk.kMaxSamples in Hmax. rewrite (append_unfold n) by done.
  pose proof (append_body_typed n t v a w _ Ha Hw Ht Hv) as Hbody.
  destruct (append_body n t v a w) as [[[td a'] w']|]; cbn [mbind option_bind]; [|split; [lia|apply Hbody]].
  destruct Hbody as (Htime & Hty & ds & Hlen & Hw'). split; [lia|]. do 4 (split; [done|]).
  exists ds. split; [done|]. assert (u16 (n + 1) = n + 1) as -> by (apply Z.mod_small; lia).
  rewrite <- app_assoc in Hw'. by apply (set_header_repr _ n); [|lia].
Qed.

Lemma xor_append_typed_witness :
  let a := XORAppender.init in
  let w := XORChunk.new in
  match XORAppender.append (-5) 0x7FF0000000000002 a w with
  | Some (true, a', w') =>
      0 < 65535 ∧ (0 = 0 ∨ is_i64 (-5 - XORAppender.t_ a) = true) ∧
      appender_typed a' = true ∧ XORAppender.t_ a' = -5 ∧ XORAppender.v_ a' = 0x7FF0000000000002 ∧
      ∃ ds, (1 <= length ds <= 157)%nat ∧ BitWriter.repr w' (zbits 16 1 ++ [] ++ ds)
  | Some (false, a', w') => 0 = 65535 ∧ a' = a ∧ w' = w
  | None => 0 < 0 < 65535 ∧ is_i64 (-5 - XORAppender.t_ a) = false
  end.
Proof.
  apply (xor_append_typed 0 (-5) 0x7FF0000000000002 []); [reflexivity|lia| |reflexivity|reflexivity].
  split; [by repeat constructor|]. split; [simpl; lia|reflexivity].
Defined.

(** ** Termination on arbitrary bytes *)

Lemma read_value_progress it it' b :
  XORIterator.read_value it = Some (b, it') →
  XORIterator.num_total_ it' = XORIterator.num_total_ it ∧
  XORIterator.num_read_ it' = XORIterator.num_read_ it + Z.b2z b.
Proof.
  unfold XORIterator.read_value. destruct (xor_read _ _ _ _) as [[] [[[r v] l] t]]; intros [= <- <-]; simpl; lia.
Qed.

Lemma try_read_inv {A} (m : rd BitReader.t ReadError A) it k it' :
  XORIterator.try_read m it k = Some (true, it') →
  ∃ a r, m (XORIterator.reader_ it) = (Ok a, r) ∧ k a (XORIterator.set_reader r it) = Some (true, it').
Proof. unfold XORIterator.try_read. destruct (m _) as [[] r]; naive_solver. Qed.

Lemma iterator_progress it it' :
  XORIterator.next it = Some (true, it') →
  XORIterator.num_read_ it ≠ XORIterator.num_total_ it ∧
  XORIterator.num_total_ it' = XORIterator.num_total_ it ∧
  XORIterator.num_read_ it' = XORIterator.num_read_ it + 1.
Proof.
  unfold XORIterator.next. destruct (bool_decide _); [done|]. cbn [orb].
  destruct (Z.eqb_spec (XORIterator.num_read_ it) (XORIterator.num_total_ it)) as [|Hne]; [done|].
  intros Hnext. split; [done|]. repeat case_match.
  - apply try_read_inv in Hnext as (t & r & _ & Hnext). apply try_read_inv in Hnext as (v & r' & _ & Hnext).
    by injection Hnext as <-.
  - apply try_read_inv in Hnext as (td & r & _ & Hnext). apply bind_Some in Hnext as (t & _ & Hnext).
    by apply read_value_progress in Hnext.
  - apply try_read_inv in Hnext as (p & r & _ & Hnext). apply try_read_inv in Hnext as (dod & r' & _ & Hnext).
    destruct dod as [dod|]; [|done]. apply bind_Some in Hnext as (d & _ & Hnext).
    apply bind_Some in Hnext as (t & _ & Hnext). by apply read_value_progress in Hnext.
Qed.

Lemma drain_unfold fuel it :
  XORIterator.drain (S fuel) it =
    match XORIterator.drain_round it with
    | inl it1 => '(ss, it') ← XORIterator.drain fuel it1; Some ((XORIterator.t_ it1, XORIterator.v_ it1) :: ss, it')
    | inr o => it' ← o; Some ([], it')
    end.
Proof.
  cbn [XORIterator.drain]. unfold XORIterator.drain_round. by destruct (XORIterator.next it) as [[[] it1]|].
Qed.

Lemma drain_round_progress it it1 :
  XORIterator.drain_round it = inl it1 →
  XORIterator.num_read_ it1 = XORIterator.num_read_ it + 1 ∧ XORIterator.num_total_ it1 = XORIterator.num_total_ it ∧
  XORIterator.num_read_ it ≠ XORIterator.num_total_ it.
Proof.
  unfold XORIterator.drain_round. destruct (XORIterator.next it) as [[[] it2]|] eqn:Hnext; [|done..]. intros [= ->].
  pose proof (iterator_progress _ _ Hnext) as (? & ? & ?). lia.
Qed.

(** What [drain] makes of the rounds of the loop. *)
Lemma drain_rounds n it r :
  loops_to XORIterator.drain_round n it r →
  match r with
  | Some it' => ∃ ss, length ss = n ∧ ∀ fuel, (n < fuel)%nat → XORIterator.drain fuel it = Some (ss, it')
  | None => ∀ fuel, (n < fuel)%nat → XORIterator.drain fuel it = None
  end.
Proof.
  induction 1 as [it r Hr|n it it1 r Hr _ IH].
  - destruct r as [it'|]; [exists []; split; [done|]|]; intros [|fuel] Hf; try lia; by rewrite drain_unfold, Hr.
  - destruct r as [it'|]; [destruct IH as (ss & Hl & IH); exists ((XORIterator.t_ it1, XORIterator.v_ it1) :: ss); split; [simpl; lia|]|];
      intros [|fuel] Hf; try lia; rewrite drain_unfold, Hr, IH by lia; done.
Qed.

Lemma drain_ends it :
  XORIterator.num_read_ it <= XORIterator.num_total_ it →
  ∃ n r, loops_to XORIterator.drain_round n it r ∧
    Z.of_nat n <= XORIterator.num_total_ it - XORIterator.num_read_ it.
Proof.
  intros Hle. destruct (loop_measure XORIterator.drain_round
    (λ it, XORIterator.num_read_ it <= XORIterator.num_total_ it)
    (λ it, Z.to_nat (XORIterator.num_total_ it - XORIterator.num_read_ it)) 1 it) as (n & r & Hn & Hm); [lia| |done|].
  - intros it1 it2 H1 H2%drain_round_progress. lia.
  - exists n, r. split; [done|lia].
Qed.

Lemma header_range bytes n : XORChunk.header bytes = Some n → 0 <= n < 65536.
Proof.
  unfold XORChunk.header. destruct bytes as [|b0 [|b1 bytes]]; [done..|]. intros [= <-].
  apply (Z.mod_pos_bound _ 65536). done.
Qed.

(** C40: iterating over any bytes at all ends. [next] returns [true] at most as
    often as the header announces samples, and at most 65535 times; the call
    after that returns [false], for an error or at the end, or is undefined.
    The loop [drain] then yields one sample for each [true], with any fuel above
    their number, and so with [kDrainFuel]. *)
Theorem xor_iteration_terminates (bytes : list Z) :
  let it := XORIterator.init bytes in
  ∃ n r, loops_to XORIterator.drain_round n it r ∧
    Z.of_nat n <= default 0 (XORChunk.header bytes) <= 65535 ∧
    match r with
    | Some it' => ∃ ss, length ss = n ∧ ∀ fuel, (n < fuel)%nat → XORIterator.drain fuel it = Some (ss, it')
    | None => ∀ fuel, (n < fuel)%nat → XORIterator.drain fuel it = None
    end.
Proof.
  intros it. set (total := default 0 (XORChunk.header bytes)).
  assert (0 <= total <= 65535 ∧ XORIterator.num_total_ it = total ∧ XORIterator.num_read_ it = 0) as (Hn & Htotal & Hread).
  { unfold it, total, XORIterator.init. destruct bytes as [|b0 [|b1 bytes]]; simpl; [done..|].
    split; [|done]. pose proof (header_range (b0 :: b1 :: bytes) _ eq_refl). lia. }
  destruct (drain_ends it) as (n & r & Hloop & Hle); [lia|].
  exists n, r. split_and!; [done|lia|lia|]. by apply drain_rounds.
Qed.

(** ** Corrupt chunks and lost bit positions *)

(** A fresh window with [leading] 31 and a six-bit length of 63 announces 94
    bits: [trailing] wraps around and the value is shifted by 226. *)
Example corrupt_window_undefined :
  let c := XORChunk.from_bytes ([0; 2; 0] ++ replicate 8 0 ++ [0; 0xFF; 0xFF; 0xFF; 0xFF] ++ replicate 8 0) in
  XORIterator.drain 3 (iterator c) = None.
Proof. vm_compute. reflexivity. Qed.

(** [compact] goes through [release] and [reset], which forget how many bits
    of the last byte are free: the next append starts at a byte boundary, and
    the chunk no longer decodes to the samples appended. *)
Example compact_loses_position :
  let go c ss :=
    a ← (match appender c with Some (Ok a) => Some a | _ => None end);
    '(_, _, c) ← append_all ss a c; Some c in
  let samples := [(1, 1); (2, 1); (3, 1)] in
  (c ← go XORChunk.new samples; c' ← go c [(4, 2)]; '(ss, _) ← XORIterator.drain 5 (iterator c'); Some ss)
    = Some (samples ++ [(4, 2)]) ∧
  (c ← go XORChunk.new samples; c' ← go (XORChunk.compact c) [(4, 2)];
   '(ss, _) ← XORIterator.drain 5 (iterator c'); Some ss)
    ≠ Some (samples ++ [(4, 2)]).
Proof. split; vm_compute; [reflexivity|discriminate]. Qed.

End XorProps.
