(* ===== verification/Labels.v ===== *)
(** Label sets: [include/merlion_tsdb/model/labels.hpp] and
    [src/model/labels.cpp]. A [Labels.t] is its [entries_] vector; the
    constructors and [add] establish the canonical order. *)

From S2P Require Import Prelude Ordered.

Record Label : Type := mkLabel { name : str; value : str }.

#[export] Instance Label_eq_dec : EqDecision Label.
Proof. solve_decision. Defined.

#[export] Program Instance Label_countable : Countable Label :=
  inj_countable' (λ l, (name l, value l)) (λ '(n, v), mkLabel n v) _.
Next Obligation. by intros []. Qed.

Module Labels.

(** [entries_]. *)
Abbreviation t := (list Label).

Definition name_less (a b : Label) : bool := str_ltb (name a) (name b).

(** The loop of [canonicalize] over the sorted entries: an entry is skipped
    when the next one has the same name. *)
Fixpoint keep_last (l : list Label) : list Label :=
  match l with
  | [] => []
  | x :: l' =>
      match l' with
      | y :: _ => if str_eqb (name x) (name y) then keep_last l' else x :: keep_last l'
      | [] => [x]
      end
  end.

Definition canonicalize (entries : list Label) : t := keep_last (stable_sort name_less entries).

(** The two constructors from entries. *)
Definition of_entries (entries : list Label) : t := canonicalize entries.

Definition add (n v : str) (ls : t) : t := canonicalize (ls ++ [mkLabel n v]).

Definition get (ls : list Label) (n : str) : option str :=
  let it := lower_bound (λ l, str_ltb (name l) n) ls in
  match ls !! it with
  | None => None
  | Some l => if str_eqb (name l) n then Some (value l) else None
  end.

Definition has (ls : t) (n : str) : bool := bool_decide (is_Some (get ls n)).

Definition k_fnv_offset : Z := 0xCBF29CE484222325.
Definition k_fnv_prime : Z := 0x00000100000001B3.
Definition k_sep_field : Z := 0xFF.
Definition k_sep_pair : Z := 0xFE.

Definition fnv1a (h : Z) (s : str) : Z :=
  foldl (λ h c, u64 (Z.lxor h c * k_fnv_prime)) h s.

Definition hash (ls : t) : Z :=
  foldl (λ h l,
    let h := fnv1a h (name l) in
    let h := u64 (Z.lxor h k_sep_field * k_fnv_prime) in
    let h := fnv1a h (value l) in
    u64 (Z.lxor h k_sep_pair * k_fnv_prime)) k_fnv_offset ls.

(** The class invariant: sorted by name, no duplicate names. *)
Definition wf (ls : t) : Prop := StronglySorted (λ a b, name_less a b = true) ls.

End Labels.

(** * Facts *)

Module LabelsFacts.
Import Labels.

(** The last entry called [n]. *)
Definition last_entry (n : str) (l : list Label) : option Label :=
  last (filter (λ x, name x = n) l).

Lemma last_entry_app n l k :
  last_entry n (l ++ k) = match last_entry n k with Some x => Some x | None => last_entry n l end.
Proof. unfold last_entry. by rewrite filter_app, last_app. Qed.

Lemma last_entry_Some n l x : last_entry n l = Some x → x ∈ l ∧ name x = n.
Proof. intros Hx%last_Some_elem_of. apply list_elem_of_filter in Hx as []. done. Qed.

Lemma last_entry_None n l x : last_entry n l = None → x ∈ l → name x ≠ n.
Proof.
  intros Hnone%last_None Hx Hn. assert (x ∈ filter (λ x, name x = n) l) as Hin
    by by apply list_elem_of_filter. rewrite Hnone in Hin. by apply elem_of_nil in Hin.
Qed.

Lemma name_less_asym a b : name_less a b = true → name_less b a = false.
Proof. unfold name_less. apply str_ltb_asym. Qed.

Lemma name_le_trans a b c :
  le_of name_less a b → le_of name_less b c → le_of name_less a c.
Proof. unfold le_of, name_less. apply str_le_trans. Qed.

Lemma sorted_entries_sorted l : StronglySorted (le_of name_less) (stable_sort name_less l).
Proof. apply stable_sort_sorted; eauto using name_less_asym, name_le_trans. Qed.

Lemma last_entry_sort n l : last_entry n (stable_sort name_less l) = last_entry n l.
Proof.
  unfold last_entry. rewrite stable_sort_filter; [done|]. unfold name_less.
  intros x y -> ->. apply str_ltb_irrefl.
Qed.

Lemma keep_last_cons x l :
  keep_last (x :: l) =
    if bool_decide (Some (name x) = name <$> head l) then keep_last l else x :: keep_last l.
Proof.
  destruct l as [|y l]; [done|].
  change (keep_last (x :: y :: l))
    with (if str_eqb (name x) (name y) then keep_last (y :: l) else x :: keep_last (y :: l)).
  cbn [head fmap option_fmap option_map]. unfold str_eqb. do 2 case_bool_decide; congruence.
Qed.

Lemma last_entry_keep_last n l : last_entry n (keep_last l) = last_entry n l.
Proof.
  induction l as [|x l IH]; [done|]. rewrite keep_last_cons.
  change (x :: l) with ([x] ++ l). rewrite last_entry_app.
  case_bool_decide as Heq.
  - rewrite IH. destruct l as [|y l]; [done|]. simpl in Heq. injection Heq as Hxy.
    destruct (last_entry n (y :: l)) eqn:Hlast; [done|].
    pose proof (last_entry_None _ _ y Hlast ltac:(by left)). unfold last_entry.
    rewrite filter_cons_False by congruence. done.
  - change (x :: keep_last l) with ([x] ++ keep_last l). by rewrite last_entry_app, IH.
Qed.

Lemma keep_last_incl l x : x ∈ keep_last l → x ∈ l.
Proof.
  induction l as [|y l IH]; [done|]. rewrite keep_last_cons.
  rewrite elem_of_cons. case_bool_decide; [by auto|]. intros [->|?]%elem_of_cons; auto.
Qed.

Lemma keep_last_wf l : StronglySorted (le_of name_less) l → wf (keep_last l).
Proof.
  induction 1 as [|x l Hsorted IH Hall]; [constructor|]. rewrite keep_last_cons.
  case_bool_decide as Heq; [done|]. constructor; [done|].
  apply Forall_forall. intros y Hy%keep_last_incl.
  destruct l as [|z l]; [by apply elem_of_nil in Hy|]. simpl in Heq.
  apply Forall_cons in Hall as [Hxz Hall]. unfold name_less, le_of in *.
  assert (str_ltb (name x) (name z) = true) as Hlt.
  { destruct (str_ltb (name x) (name z)) eqn:Hlt; [done|].
    by rewrite (str_ltb_total _ _ Hlt Hxz) in Heq. }
  apply elem_of_cons in Hy as [->|Hy]; [done|].
  apply StronglySorted_inv in Hsorted as [_ Hz]. rewrite Forall_forall in Hz.
  specialize (Hz y Hy). destruct (str_ltb (name x) (name y)) eqn:Hxy; [done|].
  destruct (str_ltb (name z) (name y)) eqn:Hzy.
  - by rewrite (str_ltb_trans _ _ _ Hlt Hzy) in Hxy.
  - by rewrite (str_ltb_total _ _ Hzy Hz), Hxy in Hlt.
Qed.

Lemma canonicalize_wf l : wf (canonicalize l).
Proof. apply keep_last_wf, sorted_entries_sorted. Qed.

Lemma wf_lookup ls i j x y :
  wf ls → (i < j)%nat → ls !! i = Some x → ls !! j = Some y → name_less x y = true.
Proof.
  intros Hwf. revert i j. induction Hwf as [|z ls Hwf IH Hall]; intros i j Hij Hx Hy; [done|].
  destruct j as [|j]; [lia|]. destruct i as [|i]; simpl in *.
  - simplify_eq. rewrite Forall_forall in Hall. by apply Hall, list_elem_of_lookup_2 with j.
  - apply (IH i j); [lia|done..].
Qed.

Lemma wf_inj ls x y : wf ls → x ∈ ls → y ∈ ls → name x = name y → x = y.
Proof.
  intros Hwf [i Hi]%list_elem_of_lookup [j Hj]%list_elem_of_lookup Hn.
  destruct (Nat.lt_trichotomy i j) as [Hij|[->|Hij]]; [|congruence|].
  - pose proof (wf_lookup _ _ _ _ _ Hwf Hij Hi Hj) as Hlt. unfold name_less in Hlt.
    by rewrite Hn, str_ltb_irrefl in Hlt.
  - pose proof (wf_lookup _ _ _ _ _ Hwf Hij Hj Hi) as Hlt. unfold name_less in Hlt.
    by rewrite Hn, str_ltb_irrefl in Hlt.
Qed.

(** The binary search finds the entry, if there is one. *)
Lemma get_wf ls n : wf ls → get ls n = value <$> last_entry n ls.
Proof.
  intros Hwf. unfold get.
  pose proof (lower_bound_spec (λ l, str_ltb (name l) n) ls) as Hspec.
  set (k := lower_bound _ _) in *. cbn zeta in Hspec.
  destruct Hspec as (Hk & Hlo & Hhi).
  { intros i j x y Hij Hx Hy Hlt. destruct (decide (i = j)) as [->|]; [congruence|].
    eapply str_ltb_trans; [|exact Hlt]. apply (wf_lookup ls i j); [done|lia|done..]. }
  destruct (last_entry n ls) as [x|] eqn:Hlast; simpl.
  - apply last_entry_Some in Hlast as [Hx <-]. apply list_elem_of_lookup in Hx as [i Hi].
    destruct (Nat.lt_trichotomy i k) as [Hik|[Heq|Hik]].
    + specialize (Hlo i x Hik Hi). simpl in Hlo. by rewrite str_ltb_irrefl in Hlo.
    + rewrite <- Heq, Hi. unfold str_eqb. by rewrite bool_decide_true.
    + destruct (lookup_lt_is_Some_2 ls k) as [z Hz]; [apply lookup_lt_Some in Hi; lia|].
      specialize (Hhi k z ltac:(lia) Hz). simpl in Hhi.
      pose proof (wf_lookup _ _ _ _ _ Hwf Hik Hz Hi) as Hlt. unfold name_less in Hlt. congruence.
  - destruct (ls !! k) as [z|] eqn:Hz; [|done]. unfold str_eqb. case_bool_decide as Hn; [|done].
    destruct (last_entry_None n ls z Hlast); [|done]. by eapply list_elem_of_lookup_2.
Qed.

Lemma get_canonicalize l n : get (canonicalize l) n = value <$> last_entry n l.
Proof.
  rewrite get_wf by apply canonicalize_wf. unfold canonicalize.
  by rewrite last_entry_keep_last, last_entry_sort.
Qed.

Lemma has_canonicalize ls n : has (canonicalize ls) n = true ↔ n ∈ name <$> ls.
Proof.
  unfold has. rewrite bool_decide_eq_true, get_canonicalize, fmap_is_Some, list_elem_of_fmap. split.
  - intros [x [Hx <-]%last_entry_Some]. by exists x.
  - intros (x & -> & Hx). destruct (last_entry (name x) ls) eqn:Hlast; [by eexists|].
    by destruct (last_entry_None _ _ x Hlast Hx).
Qed.

(** Two canonical label sets with the same [get] are equal. *)
Lemma wf_get_elem ls x : wf ls → x ∈ ls ↔ get ls (name x) = Some (value x).
Proof.
  intros Hwf. rewrite get_wf by done. split.
  - intros Hx. destruct (last_entry (name x) ls) as [y|] eqn:Hlast; simpl.
    + apply last_entry_Some in Hlast as [Hy Hn]. by rewrite (wf_inj _ _ _ Hwf Hx Hy) by done.
    + by destruct (last_entry_None _ _ x Hlast Hx).
  - destruct (last_entry (name x) ls) as [y|] eqn:Hlast; simpl; [|done].
    intros [= Hv]. apply last_entry_Some in Hlast as [Hy Hn].
    by destruct x, y; simpl in *; simplify_eq.
Qed.

Lemma wf_ext a b : wf a → wf b → (∀ n, get a n = get b n) → a = b.
Proof.
  intros Ha Hb Heq.
  assert (∀ x, x ∈ a ↔ x ∈ b) as Hin.
  { intros x. rewrite (wf_get_elem a), (wf_get_elem b) by done. by rewrite Heq. }
  clear Heq. revert b Hb Hin. induction Ha as [|x a Ha IH Hall]; intros b Hb Hin.
  { destruct b as [|y b]; [done|]. destruct (proj1 (elem_of_nil y)). apply Hin. left. }
  destruct Hb as [|y b Hb Hally].
  { destruct (proj1 (elem_of_nil x)). apply Hin. left. }
  assert (x = y) as ->.
  { pose proof (proj1 (Hin x) ltac:(left)) as Hx. pose proof (proj2 (Hin y) ltac:(left)) as Hy.
    apply elem_of_cons in Hx as [?|Hx]; [done|]. apply elem_of_cons in Hy as [?|Hy]; [done|].
    rewrite Forall_forall in Hall, Hally. specialize (Hall y Hy). specialize (Hally x Hx).
    by apply str_ltb_asym in Hall; unfold name_less in *; congruence. }
  f_equal. apply IH; [done|]. intros z.
  assert (z ∈ a → z ≠ y ∧ z ∈ y :: b) as H1.
  { intros Hz. split; [|apply Hin; by right]. intros ->. rewrite Forall_forall in Hall.
    specialize (Hall y Hz). unfold name_less in Hall. by rewrite str_ltb_irrefl in Hall. }
  assert (z ∈ b → z ≠ y ∧ z ∈ y :: a) as H2.
  { intros Hz. split; [|apply Hin; by right]. intros ->. rewrite Forall_forall in Hally.
    specialize (Hally y Hz). unfold name_less in Hally. by rewrite str_ltb_irrefl in Hally. }
  rewrite elem_of_cons in H1, H2.
  split; intros Hz; [destruct (H1 Hz) as [? [?|?]]|destruct (H2 Hz) as [? [?|?]]]; done.
Qed.

Lemma canonicalize_id ls : wf ls → canonicalize ls = ls.
Proof.
  intros Hwf. apply wf_ext; [apply canonicalize_wf|done|]. intros n. by rewrite get_canonicalize, get_wf.
Qed.

(** The byte sequence [hash] folds over. *)
Definition hash_stream (ls : t) : list Z :=
  ls ≫= (λ l, name l ++ [k_sep_field] ++ value l ++ [k_sep_pair]).

Lemma hash_eq ls : hash ls = fnv1a k_fnv_offset (hash_stream ls).
Proof.
  unfold hash, hash_stream. generalize k_fnv_offset. induction ls as [|l ls IH]; intros h; [done|].
  rewrite bind_cons. cbn [foldl]. rewrite IH. unfold fnv1a. by rewrite !foldl_app.
Qed.

Lemma hash_stream_cons l ls :
  hash_stream (l :: ls) = name l ++ [k_sep_field] ++ value l ++ [k_sep_pair] ++ hash_stream ls.
Proof. unfold hash_stream. by rewrite bind_cons, <- !app_assoc. Qed.

(** No byte of the string is a separator; true of every UTF-8 string. *)
Definition no_sep (s : str) : bool := forallb (λ c, negb (c =? k_sep_field) && negb (c =? k_sep_pair)) s.

Lemma sep_split sep s1 s2 k1 k2 :
  (sep = k_sep_field ∨ sep = k_sep_pair) → no_sep s1 = true → no_sep s2 = true →
  s1 ++ [sep] ++ k1 = s2 ++ [sep] ++ k2 → s1 = s2 ∧ k1 = k2.
Proof.
  intros Hsep. revert s2. induction s1 as [|c s1 IH]; intros [|d s2] H1 H2 Heq; simpl in *; simplify_eq; try done.
  1, 2: destruct Hsep as [->| ->]; discriminate.
  apply andb_prop in H1 as [_ H1], H2 as [_ H2]. by destruct (IH s2) as [-> ->].
Qed.

End LabelsFacts.

(** * Properties *)

Module LabelsProps.
Import Labels LabelsFacts.

(** C36: constructing a label set from any entries gives entries strictly
    sorted by name; [get], a binary search, returns for every name the value of
    the last entry given for it, and nothing for the other names; [has] is true
    of the names given and of no other; [add] overrides the one name it is
    given, for [get] and for [has]. *)
Theorem labels_construction (entries : list Label) (n v m : str) :
  let ls := of_entries entries in
  wf ls ∧ get ls n = value <$> last (filter (λ x, name x = n) entries) ∧
  (has ls n = true ↔ n ∈ name <$> entries) ∧
  wf (add n v ls) ∧ (get (add n v ls) m = if decide (m = n) then Some v else get ls m) ∧
  has (add n v ls) m = bool_decide (m = n) || has ls m.
Proof.
  intros ls. pose proof (canonicalize_wf entries) as Hls.
  assert (get (add n v ls) m = if decide (m = n) then Some v else get ls m) as Hadd.
  { unfold add. rewrite get_canonicalize, last_entry_app. unfold last_entry at 1.
    rewrite (get_wf ls) by done. rewrite filter_cons, filter_nil. simpl.
    repeat case_decide; simplify_eq/=; done. }
  split_and!.
  - done.
  - apply get_canonicalize.
  - apply has_canonicalize.
  - apply canonicalize_wf.
  - done.
  - unfold has. rewrite Hadd. case_decide as Hm; [by rewrite !bool_decide_true by eauto|].
    by rewrite (bool_decide_false (m = n)) by done.
Qed.

(** The representation is canonical: two label sets built from entries
    are equal (the [operator==] the head keys its series on) as soon as they
    answer every [get] alike, whatever the order and the duplicates of the
    entries they were built from. *)
Theorem labels_canonical (e1 e2 : list Label) :
  (∀ n, get (of_entries e1) n = get (of_entries e2) n) ↔ of_entries e1 = of_entries e2.
Proof. split; [|by intros ->]. apply wf_ext; apply canonicalize_wf. Qed.

(** [hash] is FNV-1a over the name and value bytes with the separators
    0xFF and 0xFE, and no two distinct label sets feed it the same bytes, as
    long as no name or value contains a separator byte. *)
Theorem labels_hash_stream (a b : t) :
  forallb (λ l, no_sep (name l) && no_sep (value l)) (a ++ b) = true →
  hash a = fnv1a k_fnv_offset (hash_stream a) ∧ (hash_stream a = hash_stream b → a = b).
Proof.
  intros Hok. split; [apply hash_eq|]. rewrite forallb_app in Hok. apply andb_prop in Hok as [Ha Hb].
  revert b Hb. induction a as [|l a IH]; intros [|l' b] Hb; rewrite ?hash_stream_cons.
  - done.
  - by destruct (name l').
  - by destruct (name l).
  - intros Heq. simpl in Ha, Hb.
    apply andb_prop in Ha as [[Hn Hv]%andb_prop Ha], Hb as [[Hn' Hv']%andb_prop Hb].
    apply (sep_split k_sep_field) in Heq as [Hname Heq]; [|by left|done..].
    apply (sep_split k_sep_pair) in Heq as [Hvalue Heq]; [|by right|done..].
    f_equal; [by destruct l, l'; simpl in *; subst|]. by apply IH.
Qed.

Lemma labels_hash_stream_witness :
  let a := [mkLabel [97; 98] [99]] in
  let b := [mkLabel [97] [98; 99]] in
  hash a = fnv1a k_fnv_offset (hash_stream a) ∧ (hash_stream a = hash_stream b → a = b).
Proof. intros a b. apply labels_hash_stream. reflexivity. Defined.

End LabelsProps.
