(* ===== verification/Matcher.v ===== *)
(** Label matchers: [include/merlion_tsdb/model/matcher.hpp] and
    [src/model/matcher.cpp]. The engine behind [std::regex] is a parameter: a
    type of compiled expressions, their compilation ([None] is a thrown
    [std::regex_error]) and [std::regex_match]. *)

From S2P Require Import Prelude Ordered.

Inductive MatchType : Type := Eq | Neq | Re | Nre.

#[export] Instance MatchType_eq_dec : EqDecision MatchType.
Proof. solve_decision. Defined.

(** What the code asks of [std::regex]. *)
Class RegexEngine : Type := {
  std_regex : Type;
  regex_compile : str → option std_regex;
  regex_match : std_regex → str → bool;
}.

Module Matcher.
Section Matcher.
Context `{RegexEngine}.

Record t : Type := mk {
  type_ : MatchType;
  name_ : str;
  value_ : str;
  compiled_ : option std_regex;
}.

Definition equal (name value : str) : t := mk Eq name value None.
Definition not_equal (name value : str) : t := mk Neq name value None.

(** ["^(" + pattern + ")$"]. *)
Definition compile_anchored (pattern : str) : option std_regex :=
  regex_compile ([94; 40] ++ pattern ++ [41; 36]).

(** [None] is [errc::invalid_argument]. *)
Definition regex (name pattern : str) : option t :=
  re ← compile_anchored pattern; Some (mk Re name pattern (Some re)).
Definition not_regex (name pattern : str) : option t :=
  re ← compile_anchored pattern; Some (mk Nre name pattern (Some re)).

Definition regex_matches (m : t) (label_value : str) : bool :=
  match compiled_ m with
  | None => false
  | Some re => regex_match re label_value
  end.

Definition matches (m : t) (label_value : str) : bool :=
  match type_ m with
  | Eq => str_eqb label_value (value_ m)
  | Neq => negb (str_eqb label_value (value_ m))
  | Re => match compiled_ m with Some re => regex_match re label_value | None => false end
  | Nre => match compiled_ m with Some re => negb (regex_match re label_value) | None => false end
  end.

(** The factories give matchers of complementary polarity: [not_equal]
    negates [equal] and, when the pattern compiles, [not_regex] negates
    [regex], which answers like the anchored expression; a pattern that does
    not compile is refused by both. *)
Theorem matcher_polarity (n p v : str) :
  (∀ m, matches (not_equal n m) v = negb (matches (equal n m) v)) ∧
  (matches (equal n p) v = true ↔ v = p) ∧
  match regex n p, not_regex n p with
  | Some re, Some nre =>
      matches nre v = negb (matches re v) ∧
      regex_matches re v = matches re v ∧ regex_matches nre v = matches re v ∧
      ∃ c, compile_anchored p = Some c ∧ matches re v = regex_match c v
  | None, None => compile_anchored p = None
  | _, _ => False
  end.
Proof.
  split_and!; [done| |].
  - unfold matches, str_eqb. simpl. apply bool_decide_eq_true.
  - unfold regex, not_regex. destruct (compile_anchored p) as [c|]; simpl; [|done].
    unfold matches, regex_matches. simpl. split_and!; [done..|]. by exists c.
Qed.

End Matcher.
End Matcher.
