(* ===== verification/Record.v ===== *)
(** WAL record codecs: [include/merlion_tsdb/wal/record.hpp] and
    [src/wal/record.cpp]. A [std::size_t] is a [Z] in [0, 2^64); a [double] is
    its 64-bit pattern. [record::Label] has the two fields of [model::Label],
    and both are the type [Label]. *)

From S2P Require Import Prelude Ordered Varint Labels.

(** Values of [Type]. *)
Definition Type_Unknown : Z := 255.
Definition Type_Series : Z := 1.
Definition Type_SamplesV2 : Z := 11.

Definition peek_type (rec : list Z) : Z :=
  match rec with [] => Type_Unknown | b :: _ => b end.

Record RefSeries : Type := mkRefSeries { rs_ref : Z; rs_labels : list Label }.

Record RefSample : Type := mkRefSample { sm_ref : Z; sm_t : Z; sm_st : Z; sm_v : Z }.

#[export] Instance RefSeries_eq_dec : EqDecision RefSeries.
Proof. solve_decision. Defined.
#[export] Instance RefSample_eq_dec : EqDecision RefSample.
Proof. solve_decision. Defined.

Inductive RecordError : Type :=
| InvalidType
| RecordUnexpectedEnd
| TrailingBytes
| LabelTooLong
| StMarkerInvalid.

#[export] Instance RecordError_eq_dec : EqDecision RecordError.
Proof. solve_decision. Defined.

Definition k_st_no : Z := 0.
Definition k_st_same : Z := 1.
Definition k_st_explicit : Z := 2.

(** * Encoder *)

Definition append_uvarint (buf : list Z) (x : Z) : list Z :=
  let '(tmp, n) := put_uvarint (replicate max_varint_len64 0) x in buf ++ take n tmp.

Definition append_varint (buf : list Z) (x : Z) : list Z :=
  let '(tmp, n) := put_varint (replicate max_varint_len64 0) x in buf ++ take n tmp.

(** Eight [push_back]s. *)
Definition append_be64 (buf : list Z) (x : Z) : list Z :=
  buf ++ [u8 (Z.shiftr x 56); u8 (Z.shiftr x 48); u8 (Z.shiftr x 40); u8 (Z.shiftr x 32);
          u8 (Z.shiftr x 24); u8 (Z.shiftr x 16); u8 (Z.shiftr x 8); u8 x].

Definition append_uvarint_str (buf : list Z) (s : str) : list Z :=
  append_uvarint buf (Z.of_nat (length s)) ++ s.

Definition encode_series (series : list RefSeries) : list Z :=
  foldl (λ out s,
    let out := append_be64 out (rs_ref s) in
    let out := append_uvarint out (Z.of_nat (length (rs_labels s))) in
    foldl (λ out l, append_uvarint_str (append_uvarint_str out (name l)) (value l)) out (rs_labels s))
    [Type_Series] series.

(** [None]: [st - first_st] overflows. *)
Definition write_st_marker (out : list Z) (st first_st prev_st : Z) : option (list Z) :=
  if st =? 0 then Some (out ++ [k_st_no])
  else if st =? prev_st then Some (out ++ [k_st_same])
  else d ← i64_sub st first_st; Some (append_varint (out ++ [k_st_explicit]) d).

(** The loop from [i = 1] on. *)
Fixpoint encode_samples_loop (out : list Z) (first prev : RefSample) (samples : list RefSample)
    : option (list Z) :=
  match samples with
  | [] => Some out
  | s :: samples =>
      dref ← i64_sub (i64 (sm_ref s)) (i64 (sm_ref prev));
      let out := append_varint out dref in
      dt ← i64_sub (sm_t s) (sm_t first);
      let out := append_varint out dt in
      out ← write_st_marker out (sm_st s) (sm_st first) (sm_st prev);
      let out := append_be64 out (sm_v s) in
      encode_samples_loop out first s samples
  end.

Definition encode_samples_v2 (samples : list RefSample) : option (list Z) :=
  let out := [Type_SamplesV2] in
  match samples with
  | [] => Some out
  | first :: rest =>
      let out := append_varint out (i64 (sm_ref first)) in
      let out := append_varint out (sm_t first) in
      let out := append_varint out (sm_st first) in
      let out := append_be64 out (sm_v first) in
      encode_samples_loop out first first rest
  end.

(** * Decoder *)

Module Decoder.

Record t : Type := mk { buf_ : list Z; offset_ : nat; err_ : bool }.

Definition init (b : list Z) : t := mk b 0 false.

Definition has_more (d : t) : bool := negb (err_ d) && (offset_ d <? length (buf_ d))%nat.

Definition remaining (d : t) : nat :=
  if (offset_ d <=? length (buf_ d))%nat then (length (buf_ d) - offset_ d)%nat else 0%nat.

(** The error flag is sticky and the readers return zero after setting it;
    none of them fails as a computation of [rd]. *)
Definition set_err (d : t) : t := mk (buf_ d) (offset_ d) true.
Definition advance (n : nat) (d : t) : t := mk (buf_ d) (offset_ d + n) (err_ d).

Definition M : Type → Type := rd t RecordError.

Definition error : M bool := λ d, (Ok (err_ d), d).

Definition read_byte : M Z := λ d,
  match buf_ d !! offset_ d with
  | None => (Ok 0, set_err d)
  | Some b => (Ok b, advance 1 d)
  end.

Definition read_be64 : M Z := λ d,
  if (length (buf_ d) <? offset_ d + 8)%nat then (Ok 0, set_err d)
  else (Ok (be64_at (buf_ d) (offset_ d)), advance 8 d).

Definition read_uvarint : M Z := λ d,
  match Varint.read_uvarint (drop (offset_ d) (buf_ d)) with
  | Ok (v, n) => (Ok v, advance n d)
  | Err _ => (Ok 0, set_err d)
  | UB => (UB, d)
  end.

Definition read_varint : M Z := λ d,
  match Varint.read_varint (drop (offset_ d) (buf_ d)) with
  | Ok (v, n) => (Ok v, advance n d)
  | Err _ => (Ok 0, set_err d)
  | UB => (UB, d)
  end.

(** The sum [offset_ + len] is computed modulo 2^64: a length near 2^64 passes
    the check and the view returned lies outside the buffer. *)
Definition read_uvarint_str : M str :=
  len <~ read_uvarint ;;
  λ d,
    if err_ d then (Ok [], d)
    else if Z.of_nat (length (buf_ d)) <? u64 (Z.of_nat (offset_ d) + len) then (Ok [], set_err d)
    else if Z.of_nat (length (buf_ d)) <? Z.of_nat (offset_ d) + len then (UB, d)
    else (Ok (take (Z.to_nat len) (drop (offset_ d) (buf_ d))), advance (Z.to_nat len) d).

(** [if (d.error()) return std::unexpected(e);] *)
Definition check (e : RecordError) : M unit :=
  err <~ error ;; if err : bool then rfail e else rret tt.

End Decoder.

(** [reserve] throws [std::length_error] above [max_size()], which is
    [PTRDIFF_MAX / sizeof(Label)] with two 32-byte strings in a [Label]. *)
Definition max_labels : Z := 2 ^ 57 - 1.

(** One round of the loop over [label_count]. *)
Definition decode_label : Decoder.M Label :=
  name <~ Decoder.read_uvarint_str ;;
  value <~ Decoder.read_uvarint_str ;;
  _ <~ Decoder.check RecordUnexpectedEnd ;;
  rret (mkLabel name value).

(** The loop over [label_count]. Every round consumes input or returns, so
    [fuel] above the length of the buffer is never exhausted
    ([record_decoding_terminates]). *)
Fixpoint decode_labels (fuel : nat) (count : Z) (labels : list Label) : Decoder.M (list Label) :=
  match fuel with
  | O => rundef
  | S fuel =>
      if count <=? 0 then rret labels
      else
        l <~ decode_label ;;
        decode_labels fuel (count - 1) (labels ++ [l])
  end.

(** One round of the outer loop. *)
Definition decode_entry : Decoder.M RefSeries :=
  ref <~ Decoder.read_be64 ;;
  label_count <~ Decoder.read_uvarint ;;
  if max_labels <? label_count then rundef
  else
    labels <~ (λ d, decode_labels (S (length (Decoder.buf_ d))) label_count [] d) ;;
    _ <~ Decoder.check RecordUnexpectedEnd ;;
    rret (mkRefSeries ref labels).

Fixpoint decode_series_loop (fuel : nat) (out : list RefSeries) : Decoder.M (list RefSeries) := λ d,
  match fuel with
  | O => (UB, d)
  | S fuel =>
      if Decoder.has_more d then
        (s <~ decode_entry ;; decode_series_loop fuel (out ++ [s])) d
      else (Ok out, d)
  end.

(** The checks after the loops of the two decoders. *)
Definition finish {A} (a : A) : Decoder.M A :=
  _ <~ Decoder.check RecordUnexpectedEnd ;;
  λ d, if (Decoder.remaining d =? 0)%nat then (Ok a, d) else (Err TrailingBytes, d).

Definition decode_series (rec : list Z) : outcome RecordError (list RefSeries) :=
  fst ((ty <~ Decoder.read_byte ;;
        if negb (ty =? Type_Series) then rfail InvalidType
        else out <~ decode_series_loop (S (length rec)) [] ;; finish out)
       (Decoder.init rec)).

(** [rundef] where [o] overflows. *)
Definition checked {A} (o : option A) : Decoder.M A :=
  match o with Some a => rret a | None => rundef end.

(** One round of the loop of [decode_samples_v2]: [prev] is [out.back()], and
    the result is the sample read. *)
Definition decode_sample (prev : option RefSample) (first_t first_st : Z) : Decoder.M RefSample :=
  head <~
    (match prev with
     | None =>
         ref <~ Decoder.read_varint ;;
         t <~ Decoder.read_varint ;;
         st <~ Decoder.read_varint ;;
         rret (u64 ref, t, st)
     | Some prev =>
         dref <~ Decoder.read_varint ;;
         ref <~ checked (i64_add (i64 (sm_ref prev)) dref) ;;
         dt <~ Decoder.read_varint ;;
         t <~ checked (i64_add first_t dt) ;;
         marker <~ Decoder.read_byte ;;
         _ <~ Decoder.check RecordUnexpectedEnd ;;
         st <~ (if marker =? k_st_no then rret 0
                else if marker =? k_st_same then rret (sm_st prev)
                else if marker =? k_st_explicit then
                  dst <~ Decoder.read_varint ;; checked (i64_add first_st dst)
                else rfail StMarkerInvalid) ;;
         rret (u64 ref, t, st)
     end) ;;
  v <~ Decoder.read_be64 ;;
  _ <~ Decoder.check RecordUnexpectedEnd ;;
  let '(ref, t, st) := head in rret (mkRefSample ref t st v).

Fixpoint decode_samples_loop (fuel : nat) (out : list RefSample) (first_t first_st : Z)
    : Decoder.M (list RefSample) := λ d,
  match fuel with
  | O => (UB, d)
  | S fuel =>
      if Decoder.has_more d then
        (sample <~ decode_sample (last out) first_t first_st ;;
         let '(first_t, first_st) :=
           match out with [] => (sm_t sample, sm_st sample) | _ => (first_t, first_st) end in
         decode_samples_loop fuel (out ++ [sample]) first_t first_st) d
      else (Ok out, d)
  end.

Definition decode_samples_v2 (rec : list Z) : outcome RecordError (list RefSample) :=
  fst ((ty <~ Decoder.read_byte ;;
        if negb (ty =? Type_SamplesV2) then rfail InvalidType
        else
          more <~ (λ d, (Ok (Decoder.has_more d), d)) ;;
          if negb more then _ <~ Decoder.check RecordUnexpectedEnd ;; rret []
          else out <~ decode_samples_loop (S (length rec)) [] 0 0 ;; finish out)
       (Decoder.init rec)).

(** ** The rounds of the loops

    What one execution of the body does, from the check at its head on: the loop
    goes on with new values of its variables, or is left with a result. *)

Definition labels_round (s : Z * list Label * Decoder.t)
    : Z * list Label * Decoder.t + outcome RecordError (list Label) * Decoder.t :=
  let '(count, labels, d) := s in
  if count <=? 0 then inr (Ok labels, d)
  else match decode_label d with
       | (Ok l, d) => inl (count - 1, labels ++ [l], d)
       | (Err e, d) => inr (Err e, d)
       | (UB, d) => inr (UB, d)
       end.

Definition series_round (s : list RefSeries * Decoder.t)
    : list RefSeries * Decoder.t + outcome RecordError (list RefSeries) * Decoder.t :=
  let '(out, d) := s in
  if Decoder.has_more d then
    match decode_entry d with
    | (Ok s, d) => inl (out ++ [s], d)
    | (Err e, d) => inr (Err e, d)
    | (UB, d) => inr (UB, d)
    end
  else inr (Ok out, d).

Definition samples_round (s : list RefSample * Z * Z * Decoder.t)
    : list RefSample * Z * Z * Decoder.t + outcome RecordError (list RefSample) * Decoder.t :=
  let '(out, first_t, first_st, d) := s in
  if Decoder.has_more d then
    match decode_sample (last out) first_t first_st d with
    | (Ok sample, d) =>
        let '(first_t, first_st) :=
          match out with [] => (sm_t sample, sm_st sample) | _ => (first_t, first_st) end in
        inl (out ++ [sample], first_t, first_st, d)
    | (Err e, d) => inr (Err e, d)
    | (UB, d) => inr (UB, d)
    end
  else inr (Ok out, d).

(** * Facts *)

Module RecordFacts.

(** ** What the encoders write *)

Lemma append_uvarint_eq buf x : is_u64 x = true → append_uvarint buf x = buf ++ uvarint_bytes x.
Proof.
  intros Hx. unfold append_uvarint. pose proof (uvarint_buf_eq x Hx) as Hbuf. unfold uvarint_buf in Hbuf.
  destruct (put_uvarint _ x) as [tmp n]. by rewrite Hbuf.
Qed.

Lemma append_varint_eq buf x : append_varint buf x = buf ++ varint_bytes x.
Proof. apply append_uvarint_eq. auto with merlion. Qed.

Lemma append_be64_eq buf x : append_be64 buf x = buf ++ be_bytes 8 x.
Proof. unfold append_be64. cbn [be_bytes]. by rewrite Z.shiftr_0_r. Qed.

Definition str_bytes (s : str) : list Z := uvarint_bytes (Z.of_nat (length s)) ++ s.
Definition label_bytes (l : Label) : list Z := str_bytes (name l) ++ str_bytes (value l).
Definition series_bytes (s : RefSeries) : list Z :=
  be_bytes 8 (rs_ref s) ++ uvarint_bytes (Z.of_nat (length (rs_labels s))) ++ (rs_labels s ≫= label_bytes).

Definition str_ok (s : str) : Prop := bytes_ok s ∧ Z.of_nat (length s) < 2 ^ 64.
Definition label_ok (l : Label) : Prop := str_ok (name l) ∧ str_ok (value l).
Definition series_ok (s : RefSeries) : Prop :=
  is_u64 (rs_ref s) = true ∧ Forall label_ok (rs_labels s) ∧
  Z.of_nat (length (rs_labels s)) <= max_labels.

Lemma append_str_eq buf s : str_ok s → append_uvarint_str buf s = buf ++ str_bytes s.
Proof.
  intros [_ Hs]. unfold append_uvarint_str, str_bytes.
  rewrite append_uvarint_eq by width. by rewrite <- app_assoc.
Qed.

Lemma encode_labels_eq ls buf : Forall label_ok ls →
  foldl (λ out l, append_uvarint_str (append_uvarint_str out (name l)) (value l)) buf ls =
    buf ++ (ls ≫= label_bytes).
Proof.
  intros Hls. revert buf. induction Hls as [|l ls [Hn Hv] Hls IH]; intros buf; cbn [foldl].
  { by rewrite app_nil_r. }
  rewrite IH, !append_str_eq, bind_cons by done. unfold label_bytes. by rewrite <- !app_assoc.
Qed.

Lemma encode_series_eq ss : Forall series_ok ss → encode_series ss = [Type_Series] ++ (ss ≫= series_bytes).
Proof.
  unfold encode_series. generalize [Type_Series] as buf. intros buf Hss. revert buf.
  induction Hss as [|s ss (Hr & Hl & Hn) Hss IH]; intros buf; cbn [foldl]; [by rewrite app_nil_r|].
  rewrite IH, encode_labels_eq, append_uvarint_eq, append_be64_eq, bind_cons
    by (done || (unfold max_labels in Hn; width)).
  unfold series_bytes. by rewrite <- !app_assoc.
Qed.

(** ** The decoder on a prefix already read and a rest *)

Definition dec (pre rest : list Z) : Decoder.t := Decoder.mk (pre ++ rest) (length pre) false.

Lemma dec_advance pre x rest : Decoder.advance (length x) (dec pre (x ++ rest)) = dec (pre ++ x) rest.
Proof. unfold Decoder.advance, dec. simpl. by rewrite <- app_assoc, length_app. Qed.

Lemma has_more_dec pre rest : Decoder.has_more (dec pre rest) = negb (bool_decide (rest = [])).
Proof.
  unfold Decoder.has_more, dec. simpl. rewrite length_app.
  destruct rest; [rewrite bool_decide_true by done|rewrite bool_decide_false by done]; simpl.
  - apply Nat.ltb_ge. lia.
  - apply Nat.ltb_lt. lia.
Qed.

Lemma check_dec e pre rest : Decoder.check e (dec pre rest) = (Ok tt, dec pre rest).
Proof. done. Qed.

Lemma read_byte_dec pre b rest :
  Decoder.read_byte (dec pre (b :: rest)) = (Ok b, dec (pre ++ [b]) rest).
Proof.
  unfold Decoder.read_byte. simpl. rewrite lookup_app_r, Nat.sub_diag by done. simpl.
  f_equal. apply (dec_advance pre [b]).
Qed.

Lemma read_be64_dec pre x rest :
  bytes_ok pre → bytes_ok rest → is_u64 x = true →
  Decoder.read_be64 (dec pre (be_bytes 8 x ++ rest)) = (Ok x, dec (pre ++ be_bytes 8 x) rest).
Proof.
  intros Hpre Hrest Hx. unfold Decoder.read_be64. cbn [Decoder.buf_ Decoder.offset_ dec].
  destruct (Nat.ltb_spec (length (pre ++ be_bytes 8 x ++ rest)) (length pre + 8)) as [Hlt|_].
  { rewrite !length_app, length_be_bytes in Hlt. lia. }
  rewrite be64_at_bytes by done. f_equal. rewrite <- dec_advance. by rewrite length_be_bytes.
Qed.

Lemma drop_dec pre rest : drop (Decoder.offset_ (dec pre rest)) (Decoder.buf_ (dec pre rest)) = rest.
Proof. apply drop_app_length. Qed.

Lemma read_uvarint_dec pre x rest :
  is_u64 x = true →
  Decoder.read_uvarint (dec pre (uvarint_bytes x ++ rest)) = (Ok x, dec (pre ++ uvarint_bytes x) rest).
Proof.
  intros Hx. unfold Decoder.read_uvarint. rewrite drop_dec, read_uvarint_bytes by done.
  by rewrite dec_advance.
Qed.

Lemma read_varint_dec pre x rest :
  is_i64 x = true →
  Decoder.read_varint (dec pre (varint_bytes x ++ rest)) = (Ok x, dec (pre ++ varint_bytes x) rest).
Proof.
  intros Hx. unfold Decoder.read_varint. rewrite drop_dec, read_varint_bytes by done.
  by rewrite dec_advance.
Qed.

Lemma read_str_dec pre s rest :
  Z.of_nat (length (pre ++ str_bytes s ++ rest)) < 2 ^ 64 →
  Decoder.read_uvarint_str (dec pre (str_bytes s ++ rest)) = (Ok s, dec (pre ++ str_bytes s) rest).
Proof.
  unfold Decoder.read_uvarint_str, str_bytes. rewrite !app_assoc, <- (app_assoc _ s rest).
  set (n := Z.of_nat (length s)). intros Hlen. rewrite !length_app in Hlen.
  rewrite <- app_assoc. rewrite (rbind_ok _ _ _ _ _ (read_uvarint_dec pre n (s ++ rest) ltac:(width))).
  set (pre' := pre ++ uvarint_bytes n). cbn [dec Decoder.err_ Decoder.buf_ Decoder.offset_].
  assert (length pre' = length pre + length (uvarint_bytes n))%nat as Hpre' by apply length_app.
  rewrite !length_app, u64_small by width.
  destruct (Z.ltb_spec (Z.of_nat (length pre' + (length s + length rest))) (Z.of_nat (length pre') + n)); [lia|].
  unfold n at 1 2. rewrite Nat2Z.id, drop_app_length, take_app_length. f_equal. apply dec_advance.
Qed.

(** ** Series records *)

(** A buffer of bytes that fits the address space. *)
Definition buf_ok (l : list Z) : Prop := bytes_ok l ∧ Z.of_nat (length l) < 2 ^ 64.

Lemma length_bind_ge {A} (f : A → list Z) (l : list A) :
  (∀ x, 1 <= length (f x))%nat → (length l <= length (l ≫= f))%nat.
Proof.
  intros Hf. induction l as [|x l IH]; [done|]. rewrite bind_cons, length_app. simpl.
  specialize (Hf x). lia.
Qed.

Lemma label_bytes_length l : (1 <= length (label_bytes l))%nat.
Proof.
  unfold label_bytes, str_bytes. rewrite !length_app.
  pose proof (uvarint_bytes_nonempty (Z.of_nat (length (name l)))).
  destruct (uvarint_bytes (Z.of_nat (length (name l)))); [done|simpl; lia].
Qed.

Lemma series_bytes_length s : (1 <= length (series_bytes s))%nat.
Proof. unfold series_bytes. rewrite length_app, length_be_bytes. lia. Qed.

Lemma decode_label_dec l pre rest :
  Z.of_nat (length (pre ++ label_bytes l ++ rest)) < 2 ^ 64 →
  decode_label (dec pre (label_bytes l ++ rest)) = (Ok l, dec (pre ++ label_bytes l) rest).
Proof.
  unfold label_bytes. rewrite <- !app_assoc. intros Hlen. unfold decode_label.
  rewrite (rbind_ok _ _ _ _ _ (read_str_dec pre (name l) _ Hlen)).
  rewrite (rbind_ok _ _ _ _ _ (read_str_dec (pre ++ str_bytes (name l)) (value l) _
    ltac:(by rewrite <- app_assoc))).
  rewrite (rbind_ok _ _ _ _ _ (check_dec _ _ _)). unfold rret.
  rewrite <- app_assoc. by destruct l.
Qed.

Lemma decode_labels_dec ls fuel labels pre rest :
  buf_ok (pre ++ (ls ≫= label_bytes) ++ rest) → (length ls < fuel)%nat →
  decode_labels fuel (Z.of_nat (length ls)) labels (dec pre ((ls ≫= label_bytes) ++ rest)) =
    (Ok (labels ++ ls), dec (pre ++ (ls ≫= label_bytes)) rest).
Proof.
  revert fuel labels pre. induction ls as [|l ls IH]; intros [|fuel] labels pre Hbuf Hfuel; try (simpl in Hfuel; lia).
  { simpl. by rewrite !app_nil_r. }
  cbn [length decode_labels]. destruct (Z.leb_spec (Z.of_nat (S (length ls))) 0); [lia|].
  rewrite bind_cons, <- app_assoc in *. destruct Hbuf as [Hok Hlen].
  rewrite (rbind_ok _ _ _ _ _ (decode_label_dec l pre _ Hlen)).
  replace (Z.of_nat (S (length ls)) - 1) with (Z.of_nat (length ls)) by lia.
  simpl in Hfuel. rewrite IH; [|by rewrite <- !app_assoc|lia].
  by rewrite <- !app_assoc.
Qed.

Lemma decode_entry_dec s pre rest :
  series_ok s → buf_ok (pre ++ series_bytes s ++ rest) →
  decode_entry (dec pre (series_bytes s ++ rest)) = (Ok s, dec (pre ++ series_bytes s) rest).
Proof.
  intros (Href & Hlabels & Hcount) Hbuf. unfold decode_entry, series_bytes in *. rewrite <- !app_assoc in *.
  set (lb := rs_labels s ≫= label_bytes) in *. set (n := Z.of_nat (length (rs_labels s))) in *.
  assert (is_u64 n = true) as Hn by (unfold max_labels in Hcount; width).
  pose proof Hbuf as [Hok _]. apply Forall_app in Hok as [Hpre Hok]. apply Forall_app in Hok as [_ Hrest].
  rewrite (rbind_ok _ _ _ _ _ (read_be64_dec pre _ _ Hpre Hrest Href)).
  rewrite (rbind_ok _ _ _ _ _ (read_uvarint_dec _ _ _ Hn)).
  destruct (Z.ltb_spec max_labels n); [lia|].
  assert (length (rs_labels s) <= length lb)%nat as Hll
    by apply (length_bind_ge label_bytes), label_bytes_length.
  erewrite rbind_ok.
  2: { apply decode_labels_dec; [by rewrite <- !app_assoc|].
       unfold dec. cbn [Decoder.buf_]. rewrite !length_app. fold lb. lia. }
  rewrite (rbind_ok _ _ _ _ _ (check_dec _ _ _)). fold lb. unfold rret.
  rewrite <- !app_assoc. by destruct s.
Qed.

Lemma decode_series_loop_dec ss fuel out pre :
  buf_ok (pre ++ (ss ≫= series_bytes)) → Forall series_ok ss → (length ss < fuel)%nat →
  decode_series_loop fuel out (dec pre (ss ≫= series_bytes)) =
    (Ok (out ++ ss), dec (pre ++ (ss ≫= series_bytes)) []).
Proof.
  revert fuel out pre. induction ss as [|s ss IH]; intros [|fuel] out pre Hbuf Hss Hfuel; try (simpl in Hfuel; lia).
  { cbn [decode_series_loop]. rewrite has_more_dec, bool_decide_true by done. simpl.
    by rewrite !app_nil_r. }
  apply Forall_cons_iff in Hss as [Hs Hss].
  cbn [decode_series_loop]. rewrite has_more_dec, bool_decide_false.
  2: { rewrite bind_cons. intros [Hnil _]%app_nil. pose proof (series_bytes_length s) as Hlen. by rewrite Hnil in Hlen. }
  cbn [negb]. rewrite bind_cons in *. rewrite (rbind_ok _ _ _ _ _ (decode_entry_dec s pre _ Hs Hbuf)).
  simpl in Hfuel. rewrite IH; [|by rewrite <- !app_assoc|done|lia]. by rewrite <- !app_assoc.
Qed.

Lemma finish_dec {A} (a : A) l : finish a (dec l []) = (Ok a, dec l []).
Proof.
  unfold finish. rewrite (rbind_ok _ _ _ _ _ (check_dec _ _ _)). unfold Decoder.remaining, dec. simpl.
  by rewrite app_nil_r, Nat.leb_refl, Nat.sub_diag.
Qed.

(** ** Sample records *)

Definition sample_ok (s : RefSample) : Prop :=
  is_u64 (sm_ref s) = true ∧ is_i64 (sm_t s) = true ∧ is_i64 (sm_st s) = true ∧ is_u64 (sm_v s) = true.

Definition first_bytes (s : RefSample) : list Z :=
  varint_bytes (i64 (sm_ref s)) ++ varint_bytes (sm_t s) ++ varint_bytes (sm_st s) ++ be_bytes 8 (sm_v s).

Definition st_bytes (st first_st prev_st : Z) : list Z :=
  if st =? 0 then [k_st_no]
  else if st =? prev_st then [k_st_same]
  else k_st_explicit :: varint_bytes (st - first_st).

Definition next_bytes (first prev s : RefSample) : list Z :=
  varint_bytes (i64 (sm_ref s) - i64 (sm_ref prev)) ++ varint_bytes (sm_t s - sm_t first) ++
  st_bytes (sm_st s) (sm_st first) (sm_st prev) ++ be_bytes 8 (sm_v s).

Fixpoint rest_bytes (first prev : RefSample) (ss : list RefSample) : list Z :=
  match ss with
  | [] => []
  | s :: ss => next_bytes first prev s ++ rest_bytes first s ss
  end.

(** The differences the encoder takes do not overflow. *)
Definition delta_ok (first prev s : RefSample) : bool :=
  is_i64 (i64 (sm_ref s) - i64 (sm_ref prev)) && is_i64 (sm_t s - sm_t first) &&
  ((sm_st s =? 0) || (sm_st s =? sm_st prev) || is_i64 (sm_st s - sm_st first)).

Fixpoint deltas_ok (first prev : RefSample) (ss : list RefSample) : bool :=
  match ss with
  | [] => true
  | s :: ss => delta_ok first prev s && deltas_ok first s ss
  end.

Lemma write_st_marker_eq out st first_st prev_st :
  write_st_marker out st first_st prev_st =
    if (st =? 0) || (st =? prev_st) || is_i64 (st - first_st)
    then Some (out ++ st_bytes st first_st prev_st) else None.
Proof.
  unfold write_st_marker, st_bytes. destruct (st =? 0), (st =? prev_st); try done. simpl.
  unfold i64_sub, i64_checked. destruct (is_i64 _); simpl; [|done].
  by rewrite append_varint_eq, <- app_assoc.
Qed.

Lemma encode_samples_loop_eq out first prev ss :
  encode_samples_loop out first prev ss =
    if deltas_ok first prev ss then Some (out ++ rest_bytes first prev ss) else None.
Proof.
  revert out prev. induction ss as [|s ss IH]; intros out prev; simpl; [by rewrite app_nil_r|].
  unfold delta_ok, i64_sub, i64_checked.
  destruct (is_i64 (i64 (sm_ref s) - i64 (sm_ref prev))); simpl; [|done].
  destruct (is_i64 (sm_t s - sm_t first)); simpl; [|done].
  rewrite write_st_marker_eq. destruct (_ || _); simpl; [|done].
  rewrite IH. destruct (deltas_ok first s ss); [|done].
  rewrite append_be64_eq, !append_varint_eq. unfold next_bytes. by rewrite <- !app_assoc.
Qed.

Lemma encode_samples_eq first rest :
  encode_samples_v2 (first :: rest) =
    if deltas_ok first first rest
    then Some ([Type_SamplesV2] ++ first_bytes first ++ rest_bytes first first rest) else None.
Proof.
  unfold encode_samples_v2. rewrite encode_samples_loop_eq, append_be64_eq, !append_varint_eq.
  unfold first_bytes. by rewrite <- !app_assoc.
Qed.

Lemma u64_i64_id x : is_u64 x = true → u64 (i64 x) = x.
Proof. intros. by rewrite u64_i64, u64_small. Qed.

Lemma bytes_ok_app l k : bytes_ok (l ++ k) ↔ bytes_ok l ∧ bytes_ok k.
Proof. apply Forall_app. Qed.

(** The marker and the start timestamp behind it. *)
Lemma read_marker_dec {B} st first_st prev_st pre rest (k : Z → Decoder.M B) :
  is_i64 st = true → (st =? 0) || (st =? prev_st) || is_i64 (st - first_st) = true →
  (marker <~ Decoder.read_byte ;;
   _ <~ Decoder.check RecordUnexpectedEnd ;;
   st <~ (if marker =? k_st_no then rret 0
          else if marker =? k_st_same then rret prev_st
          else if marker =? k_st_explicit then
            dst <~ Decoder.read_varint ;; checked (i64_add first_st dst)
          else rfail StMarkerInvalid) ;; k st)
    (dec pre (st_bytes st first_st prev_st ++ rest)) =
  k st (dec (pre ++ st_bytes st first_st prev_st) rest).
Proof.
  intros Hst Hok. unfold st_bytes.
  destruct (Z.eqb_spec st 0) as [->|]; [|destruct (Z.eqb_spec st prev_st) as [->|]];
    cbn [app]; rewrite (rbind_ok _ _ _ _ _ (read_byte_dec _ _ _)),
      (rbind_ok _ _ _ _ _ (check_dec _ _ _)); [done..|].
  unfold rbind at 1. cbn [Z.eqb k_st_explicit k_st_no k_st_same Pos.eqb].
  rewrite (rbind_ok _ _ _ _ _ (read_varint_dec _ _ _ Hok)).
  assert (i64_add first_st (st - first_st) = Some st) as -> by (apply i64_add_Some; split; [lia|done]).
  simpl. by rewrite <- app_assoc.
Qed.

Lemma decode_first_dec s pre rest :
  sample_ok s → buf_ok (pre ++ first_bytes s ++ rest) →
  decode_sample None 0 0 (dec pre (first_bytes s ++ rest)) = (Ok s, dec (pre ++ first_bytes s) rest).
Proof.
  intros (Href & Ht & Hst & Hv) [Hok _]. unfold first_bytes, decode_sample in *. rewrite <- !app_assoc in *.
  assert (is_i64 (i64 (sm_ref s)) = true) as Href' by apply i64_range.
  rewrite !bytes_ok_app in Hok. destruct Hok as (? & ? & ? & ? & ? & ?).
  unfold rbind at 1. rewrite (rbind_ok _ _ _ _ _ (read_varint_dec _ _ _ Href')).
  rewrite (rbind_ok _ _ _ _ _ (read_varint_dec _ _ _ Ht)).
  rewrite (rbind_ok _ _ _ _ _ (read_varint_dec _ _ _ Hst)). cbn [rret].
  erewrite rbind_ok by (apply read_be64_dec; [by rewrite !bytes_ok_app|done..]).
  rewrite (rbind_ok _ _ _ _ _ (check_dec _ _ _)), u64_i64_id by done.
  rewrite <- !app_assoc. by destruct s.
Qed.

Lemma decode_next_dec first prev s pre rest :
  sample_ok s → delta_ok first prev s = true →
  buf_ok (pre ++ next_bytes first prev s ++ rest) →
  decode_sample (Some prev) (sm_t first) (sm_st first) (dec pre (next_bytes first prev s ++ rest)) =
    (Ok s, dec (pre ++ next_bytes first prev s) rest).
Proof.
  intros (Href & Ht & Hst & Hv) Hd [Hok _]. unfold delta_ok in Hd.
  apply andb_prop in Hd as [[Hdr Hdt]%andb_prop Hds].
  unfold next_bytes, decode_sample in *. rewrite <- !app_assoc in *.
  rewrite !bytes_ok_app in Hok. destruct Hok as (? & ? & ? & ? & ? & ?).
  unfold rbind at 1. rewrite (rbind_ok _ _ _ _ _ (read_varint_dec _ _ _ Hdr)).
  assert (i64_add (i64 (sm_ref prev)) (i64 (sm_ref s) - i64 (sm_ref prev)) = Some (i64 (sm_ref s))) as ->
    by (apply i64_add_Some; split; [lia|apply i64_range]).
  unfold checked at 1. rewrite (rbind_ok (rret _) _ _ _ _ eq_refl).
  rewrite (rbind_ok _ _ _ _ _ (read_varint_dec _ _ _ Hdt)).
  assert (i64_add (sm_t first) (sm_t s - sm_t first) = Some (sm_t s)) as ->
    by (apply i64_add_Some; split; [lia|done]).
  unfold checked at 1. rewrite (rbind_ok (rret _) _ _ _ _ eq_refl).
  rewrite read_marker_dec by done. cbn [rret].
  erewrite rbind_ok by (apply read_be64_dec; [by rewrite !bytes_ok_app|done..]).
  rewrite (rbind_ok _ _ _ _ _ (check_dec _ _ _)), u64_i64_id by done.
  rewrite <- !app_assoc. by destruct s.
Qed.

Lemma varint_bytes_ok x : bytes_ok (varint_bytes x).
Proof. apply uvarint_bytes_ok. Qed.

#[local] Hint Resolve varint_bytes_ok uvarint_bytes_ok be_bytes_ok : merlion.

Lemma first_bytes_ok s : bytes_ok (first_bytes s).
Proof. unfold first_bytes. rewrite !bytes_ok_app. auto with merlion. Qed.

Lemma next_bytes_ok first prev s : bytes_ok (next_bytes first prev s).
Proof.
  unfold next_bytes, st_bytes. rewrite !bytes_ok_app. split_and!; auto with merlion.
  repeat case_match; [by repeat constructor..|]. constructor; [done|apply varint_bytes_ok].
Qed.

Lemma rest_bytes_ok first prev ss : bytes_ok (rest_bytes first prev ss).
Proof.
  revert prev. induction ss as [|s ss IH]; intros prev; simpl; [constructor|].
  rewrite bytes_ok_app. auto using next_bytes_ok.
Qed.

Lemma next_bytes_nonempty first prev s rest : next_bytes first prev s ++ rest ≠ [].
Proof.
  unfold next_bytes. intros Hnil%(f_equal length). rewrite !length_app, length_be_bytes in Hnil. simpl in Hnil. lia.
Qed.

Lemma decode_samples_loop_dec first ss fuel out prev pre :
  buf_ok (pre ++ rest_bytes first prev ss) → Forall sample_ok ss →
  deltas_ok first prev ss = true → last out = Some prev → (length ss < fuel)%nat →
  decode_samples_loop fuel out (sm_t first) (sm_st first) (dec pre (rest_bytes first prev ss)) =
    (Ok (out ++ ss), dec (pre ++ rest_bytes first prev ss) []).
Proof.
  revert fuel out prev pre.
  induction ss as [|s ss IH]; intros [|fuel] out prev pre Hbuf Hss Hd Hlast Hfuel; try (simpl in Hfuel; lia).
  { cbn [decode_samples_loop]. rewrite has_more_dec, bool_decide_true by done. simpl.
    by rewrite !app_nil_r. }
  apply Forall_cons_iff in Hss as [Hs Hss]. simpl in Hd, Hfuel. apply andb_prop in Hd as [Hd Hds].
  cbn [decode_samples_loop rest_bytes] in *.
  rewrite has_more_dec, bool_decide_false by apply next_bytes_nonempty. cbn [negb]. rewrite Hlast.
  rewrite (rbind_ok _ _ _ _ _ (decode_next_dec first prev s pre _ Hs Hd Hbuf)).
  assert (out ≠ []) as Hout by (by intros ->). destruct out as [|o out]; [done|].
  rewrite IH; [|by rewrite <- app_assoc|done|done|by rewrite last_snoc|lia].
  by rewrite <- !app_assoc.
Qed.

Lemma rest_bytes_length first prev ss : (length ss <= length (rest_bytes first prev ss))%nat.
Proof.
  revert prev. induction ss as [|s ss IH]; intros prev; [done|]. cbn [rest_bytes length].
  rewrite length_app. pose proof (next_bytes_nonempty first prev s []) as Hne. rewrite app_nil_r in Hne.
  specialize (IH s). destruct (next_bytes first prev s); [done|]. simpl. lia.
Qed.

(** ** Progress of the decoder *)

(** [d'] is [d] after reading: at least [k] bytes further unless the error
    flag is set, and never past the end. *)
Definition adv (k : nat) (d d' : Decoder.t) : Prop :=
  Decoder.buf_ d' = Decoder.buf_ d ∧ (Decoder.err_ d = true → Decoder.err_ d' = true) ∧
  (Decoder.offset_ d <= length (Decoder.buf_ d) → Decoder.offset_ d' <= length (Decoder.buf_ d))%nat ∧
  (Decoder.err_ d' = false → (Decoder.offset_ d + k <= Decoder.offset_ d')%nat).

Definition advances {A} (k : nat) (m : Decoder.M A) : Prop :=
  ∀ d a d', m d = (Ok a, d') → adv k d d'.

Create HintDb progress.

Lemma advances_bind {A B} k1 k2 (m : Decoder.M A) (f : A → Decoder.M B) :
  advances k1 m → (∀ a, advances k2 (f a)) → advances (k1 + k2) (rbind m f).
Proof.
  intros Hm Hf d b d2 Heq. unfold rbind in Heq. destruct (m d) as [[a| |] d1] eqn:Hd; try done.
  destruct (Hm d a d1 Hd) as (Hb1 & He1 & Ho1 & Hk1). destruct (Hf a d1 b d2 Heq) as (Hb2 & He2 & Ho2 & Hk2).
  rewrite Hb1 in *. split_and!; [done|auto|auto|]. intros He.
  destruct (Decoder.err_ d1) eqn:Herr; [by rewrite He2 in He|].
  specialize (Hk1 eq_refl). specialize (Hk2 He). lia.
Qed.

Lemma advances_ret {A} (a : A) : advances 0 (rret a).
Proof. intros d ? ? [= <- <-]. split_and!; auto with lia. Qed.

Lemma advances_fail {A} e : advances 0 (rfail e : Decoder.M A).
Proof. intros d ? ? [=]. Qed.

Lemma advances_undef {A} : advances 0 (rundef : Decoder.M A).
Proof. intros d ? ? [=]. Qed.

Lemma advances_checked {A} (o : option A) : advances 0 (checked o).
Proof. destruct o; [apply advances_ret|apply advances_undef]. Qed.

Lemma advances_check e : advances 0 (Decoder.check e).
Proof.
  intros d [] d'. unfold Decoder.check, Decoder.error, rbind. destruct (Decoder.err_ d) eqn:He; intros [= <-].
  split_and!; auto with lia.
Qed.

Lemma advances_byte : advances 1 Decoder.read_byte.
Proof.
  intros d a d'. unfold Decoder.read_byte. destruct (_ !! _) as [b|] eqn:Hb; intros [= <- <-].
  - apply lookup_lt_Some in Hb. split_and!; simpl; auto with lia.
  - by split_and!.
Qed.

Lemma advances_be64 : advances 8 Decoder.read_be64.
Proof.
  intros d a d'. unfold Decoder.read_be64. destruct (Nat.ltb_spec (length (Decoder.buf_ d)) (Decoder.offset_ d + 8));
    intros [= <- <-]; [by split_and!|]. split_and!; simpl; auto with lia.
Qed.

Lemma advances_varint_gen {A} (r : list Z → outcome ReadError (A * nat)) dflt :
  (∀ buf v n, r buf = Ok (v, n) → (1 <= n <= length buf)%nat) →
  advances 1 (λ d, match r (drop (Decoder.offset_ d) (Decoder.buf_ d)) with
    | Ok (v, n) => (Ok v, Decoder.advance n d)
    | Err _ => (Ok dflt, Decoder.set_err d)
    | UB => (UB, d)
    end).
Proof.
  intros Hr d a d'. destruct (r _) as [[v n]|e|] eqn:Heq; intros [= <- <-]; [|by split_and!].
  apply Hr in Heq. rewrite length_drop in Heq. split_and!; simpl; auto with lia.
Qed.

Lemma advances_uvarint : advances 1 Decoder.read_uvarint.
Proof. apply advances_varint_gen. intros buf v n Hread. by apply (read_uvarint_ok _ _ _ []) in Hread as (? & _). Qed.

Lemma advances_varint : advances 1 Decoder.read_varint.
Proof.
  apply advances_varint_gen. intros buf v n. unfold Varint.read_varint.
  destruct (Varint.read_uvarint buf) as [[u m]| |] eqn:Hread; intros [= <- <-].
  by apply (read_uvarint_ok _ _ _ []) in Hread as (? & _).
Qed.

Lemma advances_str : advances 1 Decoder.read_uvarint_str.
Proof.
  apply (advances_bind 1 0); [apply advances_uvarint|]. intros len d a d'.
  destruct (Decoder.err_ d) eqn:He; [intros [= <- <-]; by split_and!; auto with lia|].
  destruct (_ <? _) eqn:Hwrap; [intros [= <- <-]; by split_and!|].
  destruct (Z.ltb_spec (Z.of_nat (length (Decoder.buf_ d))) (Z.of_nat (Decoder.offset_ d) + len)); intros [= <- <-].
  split_and!; simpl; auto with lia.
Qed.

Lemma advances_marker {A} (marker : Z) (m1 m2 m3 m4 : Decoder.M A) :
  advances 0 m1 → advances 0 m2 → advances 0 m3 → advances 0 m4 →
  advances 0 (if marker =? k_st_no then m1 else if marker =? k_st_same then m2
              else if marker =? k_st_explicit then m3 else m4).
Proof. intros. by repeat case_match. Qed.

Lemma advances_weaken {A} k k' (m : Decoder.M A) : (k' <= k)%nat → advances k m → advances k' m.
Proof. intros Hk Hm d a d' Heq. destruct (Hm d a d' Heq) as (? & ? & ? & Hadv). split_and!; [done..|]. intros He. specialize (Hadv He). lia. Qed.

Lemma advances_bind_0 {A B} (m : Decoder.M A) (f : A → Decoder.M B) :
  advances 0 m → (∀ a, advances 0 (f a)) → advances 0 (rbind m f).
Proof. apply (advances_bind 0 0). Qed.

#[export] Hint Resolve advances_ret advances_fail advances_undef advances_checked advances_check
  advances_marker advances_bind_0 : progress.
#[export] Hint Extern 1 (advances 0 Decoder.read_byte) => apply (advances_weaken 1), advances_byte; lia : progress.
#[export] Hint Extern 1 (advances 0 Decoder.read_varint) => apply (advances_weaken 1), advances_varint; lia : progress.
#[export] Hint Extern 1 (advances 0 Decoder.read_uvarint) => apply (advances_weaken 1), advances_uvarint; lia : progress.
#[export] Hint Extern 1 (advances 0 Decoder.read_uvarint_str) => apply (advances_weaken 1), advances_str; lia : progress.

Lemma advances_sample prev first_t first_st : advances 8 (decode_sample prev first_t first_st).
Proof.
  apply (advances_bind 0 8); [destruct prev; auto 30 with progress|]. intros [[ref t] st].
  apply (advances_bind 8 0); auto using advances_be64 with progress.
Qed.

(** A read that succeeds with the error flag clear. *)
Definition clean {A} (m : Decoder.M A) : Prop :=
  ∀ d a d', m d = (Ok a, d') → Decoder.err_ d' = false.

Lemma clean_bind {A B} (m : Decoder.M A) (f : A → Decoder.M B) :
  (∀ a, clean (f a)) → clean (rbind m f).
Proof. intros Hf d b d'. unfold rbind. destruct (m d) as [[a| |] d1]; try done. apply Hf. Qed.

Lemma clean_check {A} e (a : A) : clean (_ <~ Decoder.check e ;; rret a).
Proof.
  intros d x d'. unfold rbind, Decoder.check, Decoder.error, rret. cbn.
  destruct (Decoder.err_ d) eqn:He; cbn; intros Heq; [discriminate Heq|].
  injection Heq as _ <-. exact He.
Qed.

Lemma decode_sample_no_err prev first_t first_st : clean (decode_sample prev first_t first_st).
Proof.
  apply clean_bind. intros [[ref t] st]. apply clean_bind. intros v. apply clean_check.
Qed.

(** Bytes a decoder has not read. *)
Definition unread (d : Decoder.t) : nat := length (Decoder.buf_ d) - Decoder.offset_ d.

(** An operation that consumes [k] bytes, within the bytes there are. *)
Lemma advances_unread {A} k (m : Decoder.M A) d a d' :
  advances k m → clean m → (Decoder.offset_ d <= length (Decoder.buf_ d))%nat → m d = (Ok a, d') →
  (Decoder.offset_ d' <= length (Decoder.buf_ d'))%nat ∧ (k + unread d' <= unread d)%nat.
Proof.
  intros Hm Hc Ho Heq. destruct (Hm _ _ _ Heq) as (Hbuf & _ & Hle & Hadv). specialize (Hadv (Hc _ _ _ Heq)).
  specialize (Hle Ho). unfold unread. rewrite Hbuf in *. lia.
Qed.

Lemma samples_loop_ends d out first_t first_st :
  (Decoder.offset_ d <= length (Decoder.buf_ d))%nat →
  ∃ n r, loops_to samples_round n (out, first_t, first_st, d) r ∧ (8 * n <= unread d)%nat ∧
    ∀ fuel, (n < fuel)%nat → decode_samples_loop fuel out first_t first_st d = r.
Proof.
  intros Ho. destruct (loop_measure samples_round (λ '(_, _, _, d), Decoder.offset_ d <= length (Decoder.buf_ d))%nat
    (λ '(_, _, _, d), unread d) 8 (out, first_t, first_st, d)) as (n & r & Hn & Hle); [lia| |done|].
  - intros [[[out1 t1] st1] d1] s' Hd1. unfold samples_round. destruct (Decoder.has_more d1); [|done].
    destruct (decode_sample _ _ _ d1) as [[a|e|] d2] eqn:Hs; [|done..].
    pose proof (advances_unread 8 _ _ _ _ (advances_sample _ _ _) (decode_sample_no_err _ _ _) Hd1 Hs).
    by destruct out1; intros [= <-].
  - exists n, r. split_and!; [done..|]. intros fuel Hf.
    apply (loop_fuel _ (λ fuel '(out, t, st, d), decode_samples_loop fuel out t st d) _ _ _) with (2 := Hn); [|done].
    clear. intros fuel [[[out t] st] d]. cbn [decode_samples_loop samples_round]. destruct (Decoder.has_more d); [|done].
    unfold rbind. destruct (decode_sample _ _ _ d) as [[a|e|] d2]; [by destruct out|done..].
Qed.

Lemma bytes_ok_bind {A} (f : A → list Z) (P : A → Prop) l :
  Forall P l → (∀ x, P x → bytes_ok (f x)) → bytes_ok (l ≫= f).
Proof.
  intros Hl Hf. induction Hl as [|x l Hx Hl IH]; [constructor|]. rewrite bind_cons, bytes_ok_app. auto.
Qed.

Lemma label_bytes_ok l : label_ok l → bytes_ok (label_bytes l).
Proof. intros [[Hn _] [Hv _]]. unfold label_bytes, str_bytes. rewrite !bytes_ok_app. auto with merlion. Qed.

Lemma series_bytes_ok s : series_ok s → bytes_ok (series_bytes s).
Proof.
  intros (_ & Hl & _). unfold series_bytes. rewrite !bytes_ok_app. split_and!; auto with merlion.
  by eapply bytes_ok_bind, label_bytes_ok.
Qed.

Lemma advances_label : advances 2 decode_label.
Proof.
  apply (advances_bind 1 1); [apply advances_str|]. intros n.
  apply (advances_bind 1 0); [apply advances_str|]. auto with progress.
Qed.

Lemma decode_label_no_err : clean decode_label.
Proof. apply clean_bind. intros n. apply clean_bind. intros v. apply clean_check. Qed.

Lemma labels_loop_ends d count labels :
  (Decoder.offset_ d <= length (Decoder.buf_ d))%nat →
  ∃ n r, loops_to labels_round n (count, labels, d) r ∧ (2 * n <= unread d)%nat ∧
    ∀ fuel, (n < fuel)%nat → decode_labels fuel count labels d = r.
Proof.
  intros Ho. destruct (loop_measure labels_round (λ '(_, _, d), Decoder.offset_ d <= length (Decoder.buf_ d))%nat
    (λ '(_, _, d), unread d) 2 (count, labels, d)) as (n & r & Hn & Hle); [lia| |done|].
  - intros [[c1 ls1] d1] s' Hd1. unfold labels_round. destruct (c1 <=? 0); [done|].
    destruct (decode_label d1) as [[a|e|] d2] eqn:Hl; [|done..]. intros [= <-].
    exact (advances_unread 2 _ _ _ _ advances_label decode_label_no_err Hd1 Hl).
  - exists n, r. split_and!; [done..|]. intros fuel Hf.
    apply (loop_fuel _ (λ fuel '(count, labels, d), decode_labels fuel count labels d) _ _ _) with (2 := Hn); [|done].
    clear. intros fuel [[count labels] d]. cbn [decode_labels labels_round]. destruct (count <=? 0); [done|].
    unfold rbind. by destruct (decode_label d) as [[a|e|] d2].
Qed.

Lemma advances_labels fuel count labels : advances 0 (decode_labels fuel count labels).
Proof.
  revert count labels. induction fuel as [|fuel IH]; intros count labels; cbn [decode_labels]; auto with progress.
  destruct (count <=? 0); auto with progress. apply advances_bind_0; [|done].
  apply (advances_weaken 2); [lia|apply advances_label].
Qed.

Lemma advances_entry : advances 8 decode_entry.
Proof.
  apply (advances_bind 8 0); [apply advances_be64|]. intros ref. apply advances_bind_0; auto with progress.
  intros n. destruct (max_labels <? n); auto with progress. apply advances_bind_0; auto with progress.
  intros d a d' Heq. exact (advances_labels _ _ _ _ _ _ Heq).
Qed.

Lemma decode_entry_no_err : clean decode_entry.
Proof.
  apply clean_bind. intros ref. apply clean_bind. intros n. destruct (max_labels <? n); [done|].
  apply clean_bind. intros ls. apply clean_check.
Qed.

Lemma series_loop_ends d out :
  (Decoder.offset_ d <= length (Decoder.buf_ d))%nat →
  ∃ n r, loops_to series_round n (out, d) r ∧ (8 * n <= unread d)%nat ∧
    ∀ fuel, (n < fuel)%nat → decode_series_loop fuel out d = r.
Proof.
  intros Ho. destruct (loop_measure series_round (λ '(_, d), Decoder.offset_ d <= length (Decoder.buf_ d))%nat
    (λ '(_, d), unread d) 8 (out, d)) as (n & r & Hn & Hle); [lia| |done|].
  - intros [out1 d1] s' Hd1. unfold series_round. destruct (Decoder.has_more d1); [|done].
    destruct (decode_entry d1) as [[a|e|] d2] eqn:Hs; [|done..]. intros [= <-].
    exact (advances_unread 8 _ _ _ _ advances_entry decode_entry_no_err Hd1 Hs).
  - exists n, r. split_and!; [done..|]. intros fuel Hf.
    apply (loop_fuel _ (λ fuel '(out, d), decode_series_loop fuel out d) _ _ _) with (2 := Hn); [|done].
    clear. intros fuel [out d]. cbn [decode_series_loop series_round]. destruct (Decoder.has_more d); [|done].
    unfold rbind. by destruct (decode_entry d) as [[a|e|] d2].
Qed.

(** ** Whole records *)

Lemma decode_encode_series (series : list RefSeries) :
  Forall series_ok series → Z.of_nat (length (encode_series series)) < 2 ^ 64 →
  peek_type (encode_series series) = Type_Series ∧
  decode_series (encode_series series) = Ok series.
Proof.
  intros Hss Hlen. rewrite encode_series_eq in * by done. split; [done|].
  assert (bytes_ok (series ≫= series_bytes)) as Hok
    by by eapply bytes_ok_bind, series_bytes_ok.
  unfold decode_series. change (Decoder.init ?l) with (dec [] l). cbn [app].
  rewrite (rbind_ok _ _ _ _ _ (read_byte_dec [] _ _)). cbn [negb Z.eqb Type_Series Pos.eqb].
  assert (length series <= length (series ≫= series_bytes))%nat
    by apply length_bind_ge, series_bytes_length.
  assert (buf_ok ([1] ++ (series ≫= series_bytes))) as Hbuf by (split; [by constructor|exact Hlen]).
  erewrite rbind_ok; [|apply decode_series_loop_dec; [exact Hbuf|done|simpl; lia]].
  by rewrite finish_dec.
Qed.

Lemma decode_encode_samples (samples : list RefSample) :
  Forall sample_ok samples →
  match encode_samples_v2 samples with
  | Some rec =>
      Z.of_nat (length rec) < 2 ^ 64 → peek_type rec = Type_SamplesV2 ∧ decode_samples_v2 rec = Ok samples
  | None => ∃ first rest, samples = first :: rest ∧ deltas_ok first first rest = false
  end.
Proof.
  intros Hss. destruct samples as [|first rest]; [done|]. rewrite encode_samples_eq.
  destruct (deltas_ok first first rest) eqn:Hd; [|by exists first, rest].
  intros Hlen. split; [done|]. apply Forall_cons_iff in Hss as [Hfirst Hss].
  unfold decode_samples_v2. change (Decoder.init ?l) with (dec [] l). cbn [app].
  rewrite (rbind_ok _ _ _ _ _ (read_byte_dec [] _ _)). cbn [negb Z.eqb Type_SamplesV2 Pos.eqb app].
  set (body := first_bytes first ++ rest_bytes first first rest) in *.
  assert (body ≠ []) as Hbody.
  { intros [Hnil _]%app_nil. apply (f_equal length) in Hnil. unfold first_bytes in Hnil.
    rewrite !length_app, length_be_bytes in Hnil. simpl in Hnil. lia. }
  unfold rbind at 1. rewrite has_more_dec, bool_decide_false by done. cbn [negb].
  assert (buf_ok ([11] ++ body)) as Hbuf.
  { split; [|exact Hlen]. constructor; [done|]. apply bytes_ok_app. auto using first_bytes_ok, rest_bytes_ok. }
  pose proof (rest_bytes_length first first rest) as Hrest.
  assert (length rest < S (length body))%nat as Hfuel by (unfold body; rewrite length_app; lia).
  cbn [length]. set (fuel := S (length body)) in *. clearbody fuel.
  unfold rbind at 1. cbn [decode_samples_loop]. rewrite has_more_dec, bool_decide_false by done. cbn [negb].
  rewrite (rbind_ok _ _ _ _ _ (decode_first_dec first [11] _ Hfirst Hbuf)). cbn [app].
  rewrite (decode_samples_loop_dec first rest fuel [first] first (11 :: first_bytes first));
    [|exact Hbuf|done..].
  by rewrite finish_dec.
Qed.

End RecordFacts.

(** * Properties *)

Module RecordProps.
Import RecordFacts.

(** C28: [decode_series] inverts [encode_series]: any list of series, with
    any labels in any order, comes back unchanged. *)
Theorem series_record_roundtrip (series : list RefSeries) :
  Forall series_ok series → Z.of_nat (length (encode_series series)) < 2 ^ 64 →
  peek_type (encode_series series) = Type_Series ∧
  decode_series (encode_series series) = Ok series.
Proof. apply decode_encode_series. Qed.

Lemma series_record_roundtrip_witness :
  let series := [mkRefSeries 7 [mkLabel [97] [98; 99]; mkLabel [] [255]]; mkRefSeries (2 ^ 64 - 1) []] in
  peek_type (encode_series series) = Type_Series ∧ decode_series (encode_series series) = Ok series.
Proof.
  apply series_record_roundtrip; [|reflexivity].
  repeat first [constructor | discriminate | reflexivity].
Defined.

(** C29: [encode_samples_v2] has a defined result exactly when none of the
    differences it takes overflows, and [decode_samples_v2] then returns the
    samples unchanged: refs, timestamps, start timestamps and value bits. *)
Theorem samples_record_roundtrip (samples : list RefSample) :
  Forall sample_ok samples →
  match encode_samples_v2 samples with
  | Some rec =>
      Z.of_nat (length rec) < 2 ^ 64 → peek_type rec = Type_SamplesV2 ∧ decode_samples_v2 rec = Ok samples
  | None => ∃ first rest, samples = first :: rest ∧ deltas_ok first first rest = false
  end.
Proof. apply decode_encode_samples. Qed.

Lemma samples_record_roundtrip_witness :
  let samples := [mkRefSample 5 1000 0 0x3FF0000000000000; mkRefSample 2 990 7 0x7FF8000000000001] in
  match encode_samples_v2 samples with
  | Some rec =>
      Z.of_nat (length rec) < 2 ^ 64 → peek_type rec = Type_SamplesV2 ∧ decode_samples_v2 rec = Ok samples
  | None => ∃ first rest, samples = first :: rest ∧ deltas_ok first first rest = false
  end.
Proof.
  intros samples. apply samples_record_roundtrip. repeat first [constructor | reflexivity].
Defined.

(** C39: the loops of both decoders end on every input. From any state over
    [rec], with or without a hostile label count, the loop over the labels is
    left after one round for every two bytes that are left at most, and the
    loops over the series and the samples after one for every eight bytes; the
    fuelled definitions return what the loop is left with, for any fuel above
    that number of rounds, and so for the fuel the decoders give them. *)
Theorem record_decoding_terminates (rec : list Z) (offset : nat) (err : bool) :
  (offset <= length rec)%nat →
  let d := Decoder.mk rec offset err in
  (∀ count labels, ∃ n r,
    loops_to labels_round n (count, labels, d) r ∧ (2 * n <= length rec - offset)%nat ∧
    ∀ fuel, (n < fuel)%nat → decode_labels fuel count labels d = r) ∧
  (∀ out, ∃ n r,
    loops_to series_round n (out, d) r ∧ (8 * n <= length rec - offset)%nat ∧
    ∀ fuel, (n < fuel)%nat → decode_series_loop fuel out d = r) ∧
  (∀ out first_t first_st, ∃ n r,
    loops_to samples_round n (out, first_t, first_st, d) r ∧ (8 * n <= length rec - offset)%nat ∧
    ∀ fuel, (n < fuel)%nat → decode_samples_loop fuel out first_t first_st d = r).
Proof.
  intros Ho d. split_and!; intros.
  - by apply labels_loop_ends.
  - by apply series_loop_ends.
  - by apply samples_loop_ends.
Qed.

(** A series with a label count of 255 of which one label is there. *)
Lemma record_decoding_terminates_witness :
  let rec := [1; 0; 0; 0; 0; 0; 0; 0; 1; 255; 1; 1; 97; 1; 98] in
  let d := Decoder.mk rec 1 false in
  decode_series rec = Err RecordUnexpectedEnd ∧
  (∀ count labels, ∃ n r,
    loops_to labels_round n (count, labels, d) r ∧ (2 * n <= 14)%nat ∧
    ∀ fuel, (n < fuel)%nat → decode_labels fuel count labels d = r) ∧
  (∀ out, ∃ n r,
    loops_to series_round n (out, d) r ∧ (8 * n <= 14)%nat ∧
    ∀ fuel, (n < fuel)%nat → decode_series_loop fuel out d = r) ∧
  (∀ out first_t first_st, ∃ n r,
    loops_to samples_round n (out, first_t, first_st, d) r ∧ (8 * n <= 14)%nat ∧
    ∀ fuel, (n < fuel)%nat → decode_samples_loop fuel out first_t first_st d = r).
Proof.
  intros rec d. split; [vm_compute; reflexivity|]. apply (record_decoding_terminates rec 1 false). simpl. lia.
Defined.

(** ** Lengths near 2^64 *)

(** A label length of 2^64 - 1 passes the bounds check of [read_uvarint_str],
    whose sum wraps around: the view handed out lies outside the record. *)
Example label_length_wraps :
  decode_series ([Type_Series] ++ be_bytes 8 1 ++ [1] ++ uvarint_bytes (2 ^ 64 - 1) ++ [0; 0]) = UB.
Proof. vm_compute. reflexivity. Qed.

(** A label count of 2^57 or more makes [reserve] throw. *)
Example label_count_throws :
  decode_series ([Type_Series] ++ be_bytes 8 1 ++ uvarint_bytes (2 ^ 57)) = UB.
Proof. vm_compute. reflexivity. Qed.


End RecordProps.
