(* ===== verification/Files.v ===== *)
(** Directories: what the log and the block layer use of the file system.

    A directory is a map from the names of its regular files to their bytes.
    System calls may fail: the world carries a script of what the next calls
    answer, and an exhausted script answers success. Segment files of the log
    and of a block's chunks are numbered; their names are padded decimals. *)

From S2P Require Import Prelude Ordered.

(** * Numbered files *)

(** The decimal digits of [x], most significant first; [fuel] bounds their
    number (a [size_t] has at most twenty). *)
Fixpoint dec_digits (fuel : nat) (x : Z) (acc : str) : str :=
  match fuel with
  | O => acc
  | S fuel => if x <? 10 then (48 + x) :: acc else dec_digits fuel (x / 10) ((48 + x mod 10) :: acc)
  end.

(** [snprintf("%0<width>u")]. *)
Definition format_padded (width : nat) (idx : Z) : str :=
  let d := dec_digits 20 idx [] in replicate (width - length d) 48 ++ d.

(** [from_chars] over a whole name of [width] bytes: digits only. *)
Definition parse_padded (width : nat) (name : str) : option Z :=
  if negb (length name =? width)%nat then None
  else if forallb (λ c, (48 <=? c) && (c <=? 57)) name
  then Some (foldl (λ v c, v * 10 + (c - 48)) 0 name)
  else None.

(** The files [directory_iterator] finds whose name is a number, and their
    names sorted by it. *)
Definition indexed (parse : str → option Z) (fs : gmap str (list Z)) : list (Z * str) :=
  omap (λ name, i ← parse name; Some (i, name)) (fst <$> map_to_list fs).

Definition listing (parse : str → option Z) (fs : gmap str (list Z)) : list str :=
  snd <$> stable_sort (λ a b, fst a <? fst b) (indexed parse fs).

(** * Errors of the block layer *)

(** The [std::error_code]s the block layer and the querier return: [errno_ec ()]
    of a failed system call, or a [std::errc]. *)
Inductive error_code : Type :=
| errno_ec
| io_error
| file_exists
| not_a_directory
| no_such_file_or_directory
| operation_not_permitted
| illegal_byte_sequence
| result_out_of_range
| invalid_argument
| not_supported.

#[export] Instance error_code_eq_dec : EqDecision error_code.
Proof. solve_decision. Defined.

(** * The file system *)

Inductive IoError : Type := Errno | IoShort.

Inductive SysResult : Type :=
| Done            (* the call succeeds; [write] writes everything *)
| Wrote (n : nat) (* [write] writes at most [n] bytes *)
| Interrupted     (* EINTR *)
| Failed.         (* any other error *)

Record World : Type := mkWorld { files : gmap str (list Z); script : list SysResult }.

(** What the next call answers. *)
Definition sys (w : World) : SysResult * World :=
  match script w with
  | [] => (Done, w)
  | r :: rs => (r, mkWorld (files w) rs)
  end.

(** [fsync], [close] and [open] only succeed or fail. *)
Definition sys_ok (w : World) : bool * World :=
  let '(r, w) := sys w in
  (match r with Failed => false | _ => true end, w).

(** Entering a directory for writing: [create_directories], and reading its
    entries. *)
Definition enter_dir (w : World) : bool * World :=
  let '(ok, w) := sys_ok w in if negb ok then (false, w) else sys_ok w.

(** What a path is. *)
Inductive Path : Type := Missing | NotDirectory | Directory.

(** Entering a directory for reading: [is_directory], which sets the error code
    when the path does not exist, and reading its entries. *)
Definition list_dir (p : Path) (w : World) : outcome error_code unit * World :=
  let '(ok, w) := sys_ok w in
  if negb ok then (Err errno_ec, w)
  else
    match p with
    | Missing => (Err no_such_file_or_directory, w)
    | NotDirectory => (Err not_a_directory, w)
    | Directory => let '(ok, w) := sys_ok w in (if ok : bool then Ok tt else Err errno_ec, w)
    end.

Definition append_file (name : str) (data : list Z) (w : World) : World :=
  mkWorld (<[name := default [] (files w !! name) ++ data]> (files w)) (script w).

(** The loop of [write_all]: [fuel] counts the calls; each of them but the
    last consumes an entry of the script. *)
Fixpoint write_all_loop (fuel : nat) (name : str) (data : list Z) (w : World) : option IoError * World :=
  match fuel with
  | O => (None, w)
  | S fuel =>
      match data with
      | [] => (None, w)
      | _ =>
          let '(r, w) := sys w in
          match r with
          | Done => write_all_loop fuel name [] (append_file name data w)
          | Wrote O => (Some IoShort, w)
          | Wrote n => write_all_loop fuel name (drop n data) (append_file name (take n data) w)
          | Interrupted => write_all_loop fuel name data w
          | Failed => (Some Errno, w)
          end
      end
  end.

Definition write_all (name : str) (data : list Z) (w : World) : option IoError * World :=
  write_all_loop (length (script w) + 2) name data w.

(** * Facts *)

Module FilesFacts.

(** The [n] low decimal digits of [x]. *)
Fixpoint dec (n : nat) (x : Z) : str :=
  match n with
  | O => []
  | S n => dec n (x / 10) ++ [48 + x mod 10]
  end.

Lemma length_dec n x : length (dec n x) = n.
Proof. revert x. induction n as [|n IH]; intros x; simpl; [done|]. rewrite length_app, IH. simpl. lia. Qed.

Lemma dec_0 n : dec n 0 = replicate n 48.
Proof.
  induction n as [|n IH]; [done|]. cbn [dec]. change (0 / 10) with 0. rewrite IH.
  by rewrite <- replicate_S_end.
Qed.

Lemma dec_digits_acc fuel x acc : dec_digits fuel x acc = dec_digits fuel x [] ++ acc.
Proof.
  revert x acc. induction fuel as [|fuel IH]; intros x acc; simpl; [done|].
  destruct (x <? 10); [done|]. rewrite IH, (IH _ [_]). by rewrite <- app_assoc.
Qed.

Lemma dec_digits_pad n fuel x :
  0 <= x < 10 ^ Z.of_nat n → (1 <= n <= fuel)%nat →
  (length (dec_digits fuel x []) <= n)%nat ∧
  replicate (n - length (dec_digits fuel x [])) 48 ++ dec_digits fuel x [] = dec n x.
Proof.
  revert fuel x. induction n as [|n IH]; intros [|fuel] x Hx Hn; try lia. cbn [dec_digits dec].
  destruct (Z.ltb_spec x 10) as [Hlt|Hge].
  - rewrite Z.div_small, Z.mod_small, dec_0 by lia. cbn [length]. split; [lia|].
    by rewrite Nat.sub_succ, Nat.sub_0_r.
  - destruct n as [|n].
    { change (10 ^ Z.of_nat 1) with 10 in Hx. lia. }
    rewrite Nat2Z.inj_succ, Z.pow_succ_r in Hx by lia.
    destruct (IH fuel (x / 10)) as [Hlen Heq];
      [split; [apply Z.div_pos; lia|apply Z.div_lt_upper_bound; lia]|lia|].
    rewrite dec_digits_acc, length_app. simpl length. split; [lia|].
    replace (S (S n) - (length (dec_digits fuel (x / 10) []) + 1))%nat
      with (S n - length (dec_digits fuel (x / 10) []))%nat by lia.
    by rewrite app_assoc, Heq.
Qed.

Lemma format_dec w i : (1 <= w <= 20)%nat → 0 <= i < 10 ^ Z.of_nat w → format_padded w i = dec w i.
Proof. intros Hw Hi. unfold format_padded. by apply (dec_digits_pad w 20). Qed.

Definition digits_val (v : Z) (l : str) : Z := foldl (λ v c, v * 10 + (c - 48)) v l.

Lemma digits_val_dec n x : 0 <= x < 10 ^ Z.of_nat n → digits_val 0 (dec n x) = x.
Proof.
  revert x. induction n as [|n IH]; intros x Hx; cbn [dec].
  { change (10 ^ Z.of_nat 0) with 1 in Hx. cbn. lia. }
  rewrite Nat2Z.inj_succ, Z.pow_succ_r in Hx by lia.
  unfold digits_val in *. rewrite foldl_snoc, IH; [pose proof (Z.div_mod x 10); lia|].
  split; [apply Z.div_pos; lia|apply Z.div_lt_upper_bound; lia].
Qed.

Definition is_digit (c : Z) : bool := (48 <=? c) && (c <=? 57).

Lemma dec_digits_ok n x : forallb is_digit (dec n x) = true.
Proof.
  revert x. induction n as [|n IH]; intros x; cbn [dec]; [done|]. rewrite forallb_app, IH. simpl.
  pose proof (Z.mod_pos_bound x 10 eq_refl). unfold is_digit. lia.
Qed.

Lemma dec_digits_val l :
  forallb is_digit l = true → dec (length l) (digits_val 0 l) = l ∧ 0 <= digits_val 0 l < 10 ^ Z.of_nat (length l).
Proof.
  induction l as [|c l IH] using rev_ind; [done|]. rewrite forallb_app. intros [Hl Hc]%andb_prop.
  destruct (IH Hl) as [Hdec Hrange]. simpl in Hc. unfold is_digit in Hc.
  rewrite length_app, Nat.add_1_r. cbn [length dec]. unfold digits_val in *. rewrite foldl_snoc.
  set (v := foldl _ 0 l) in *. rewrite Nat2Z.inj_succ, Z.pow_succ_r by lia.
  assert ((v * 10 + (c - 48)) / 10 = v) as -> by (rewrite Z.add_comm, Z.div_add, Z.div_small; lia).
  assert ((v * 10 + (c - 48)) mod 10 = c - 48) as ->
    by (rewrite Z.add_comm, Z_mod_plus_full, Z.mod_small; lia).
  rewrite Hdec. replace (48 + (c - 48)) with c by lia. split; [done|lia].
Qed.

Lemma parse_format w i :
  (1 <= w <= 20)%nat → 0 <= i < 10 ^ Z.of_nat w → parse_padded w (format_padded w i) = Some i.
Proof.
  intros Hw Hi. rewrite format_dec by done. unfold parse_padded. rewrite length_dec, Nat.eqb_refl. cbn [negb].
  change (forallb (λ c, (48 <=? c) && (c <=? 57)) (dec w i)) with (forallb is_digit (dec w i)).
  rewrite dec_digits_ok. f_equal. by apply (digits_val_dec w).
Qed.

Lemma parse_inv w name i :
  (1 <= w <= 20)%nat → parse_padded w name = Some i → name = format_padded w i ∧ 0 <= i < 10 ^ Z.of_nat w.
Proof.
  intros Hw. unfold parse_padded. destruct (Nat.eqb_spec (length name) w) as [Hlen|]; [|done]. cbn [negb].
  change (forallb (λ c, (48 <=? c) && (c <=? 57)) name) with (forallb is_digit name).
  destruct (forallb is_digit name) eqn:Hd; [|done]. intros [= <-].
  destruct (dec_digits_val name Hd) as [Hdec Hrange]. rewrite Hlen in *.
  change (foldl _ 0 name) with (digits_val 0 name). by rewrite format_dec.
Qed.

(** ** Listing a directory *)

Lemma names_elem (fs : gmap str (list Z)) name : name ∈ (fst <$> map_to_list fs) ↔ is_Some (fs !! name).
Proof.
  rewrite list_elem_of_fmap. split.
  - intros ([k c] & -> & Hin). apply elem_of_map_to_list in Hin. eauto.
  - intros [c Hc]. exists (name, c). split; [done|]. by apply elem_of_map_to_list.
Qed.

Section Listing.
Context (parse : str → option Z) (fs : gmap str (list Z)) (n : nat) (path : nat → str) (key : nat → Z).
Context (Hparse : ∀ i, (i < n)%nat → parse (path i) = Some (key i)).
Context (Hkey : ∀ i j, (i < j < n)%nat → key i < key j).
Context (Hfiles : ∀ i, (i < n)%nat → is_Some (fs !! path i)).
Context (Honly : ∀ name k, is_Some (fs !! name) → parse name = Some k → ∃ i, (i < n)%nat ∧ name = path i).

Lemma key_inj i j : (i < n)%nat → (j < n)%nat → key i = key j → i = j.
Proof.
  intros Hi Hj Heq. destruct (Nat.lt_trichotomy i j) as [Hlt|[|Hlt]]; [|done|].
  - specialize (Hkey i j). lia.
  - specialize (Hkey j i). lia.
Qed.

Lemma indexed_perm : indexed parse fs ≡ₚ (λ i, (key i, path i)) <$> seq 0 n.
Proof.
  apply NoDup_Permutation.
  - unfold indexed. pose proof (NoDup_fst_map_to_list fs) as Hnodup. revert Hnodup.
    generalize (fst <$> map_to_list fs). intros names. induction 1 as [|name names Hnew _ IH]; [constructor|].
    cbn [omap list_omap]. destruct (parse name) as [i|]; cbn [mbind option_bind]; [|done].
    constructor; [|done]. intros Hin. apply list_elem_of_omap in Hin as (name' & Hin & Heq).
    by destruct (parse name'); simplify_eq/=.
  - apply NoDup_fmap_2_strong; [|apply NoDup_seq].
    intros x y Hx%elem_of_seq Hy%elem_of_seq [= Heq _]. apply key_inj; [lia..|done].
  - intros [i name]. unfold indexed. rewrite list_elem_of_omap, list_elem_of_fmap. split.
    + intros (name' & Hin%names_elem & Heq). destruct (parse name') as [k|] eqn:Hname; [|done].
      injection Heq as -> ->. destruct (Honly _ _ Hin Hname) as (j & Hj & ->). exists j.
      rewrite Hparse in Hname by done. injection Hname as ->. split; [done|]. apply elem_of_seq. lia.
    + intros (j & [= -> ->] & Hj%elem_of_seq). exists (path j).
      split; [apply names_elem, Hfiles; lia|]. by rewrite Hparse by lia.
Qed.

Lemma listing_eq : listing parse fs = path <$> seq 0 n.
Proof.
  unfold listing. set (le := λ a b : Z * str, fst a <= fst b).
  assert (stable_sort (λ a b : Z * str, fst a <? fst b) (indexed parse fs) = (λ i, (key i, path i)) <$> seq 0 n)
    as ->; [|by rewrite <- list_fmap_compose].
  apply (StronglySorted_unique_strong le).
  - intros [i a] [j b] Ha Hb Hij Hji. unfold le in *. simpl in *.
    rewrite stable_sort_perm, indexed_perm in Ha. rewrite list_elem_of_fmap in Ha, Hb.
    destruct Ha as (i' & [= -> ->] & Hi%elem_of_seq), Hb as (j' & [= -> ->] & Hj%elem_of_seq).
    assert (i' = j') as ->; [|done]. apply key_inj; lia.
  - eapply (StronglySorted_weaken (le_of (λ a b : Z * str, fst a <? fst b))).
    + unfold le_of, le. intros x y. lia.
    + apply stable_sort_sorted; unfold le_of; intros; lia.
  - clear - Hkey. assert (∀ i m, (i + m <= n)%nat → StronglySorted le ((λ i, (key i, path i)) <$> seq i m)) as Hs.
    { intros i m. revert i. induction m as [|m IH]; intros i Hm; simpl; constructor; [apply IH; lia|].
      apply Forall_fmap, Forall_forall. intros j Hj%elem_of_seq. unfold le. simpl. specialize (Hkey i j). lia. }
    by apply Hs.
  - by rewrite stable_sort_perm, indexed_perm.
Qed.

End Listing.

(** ** The script *)

(** The same files, and no failure to come: what the next process finds. *)
Definition calm (w : World) : World := mkWorld (files w) [].

Lemma sys_files w : files (sys w).2 = files w.
Proof. unfold sys. by destruct (script w). Qed.

Lemma sys_ok_files w : files (sys_ok w).2 = files w.
Proof. unfold sys_ok. rewrite (surjective_pairing (sys w)). apply sys_files. Qed.

Lemma enter_dir_files w : files (enter_dir w).2 = files w.
Proof.
  unfold enter_dir. pose proof (sys_ok_files w) as Hw. destruct (sys_ok w) as [[] w1]; cbn [negb snd] in *; [|done].
  by rewrite sys_ok_files.
Qed.

Lemma list_dir_files p w : files (list_dir p w).2 = files w.
Proof.
  unfold list_dir. pose proof (sys_ok_files w) as Hw. destruct (sys_ok w) as [[] w1]; cbn [negb snd] in *; [|done].
  destruct p; [done..|]. pose proof (sys_ok_files w1) as Hw1. destruct (sys_ok w1) as [[] w2]; cbn [snd] in *; congruence.
Qed.

Lemma enter_dir_calm fs : enter_dir (mkWorld fs []) = (true, mkWorld fs []).
Proof. done. Qed.

End FilesFacts.
