(* ===== verification/Bytes.v ===== *)
(** Reading a file that is held in memory, as the chunk and index readers do:
    spans with the offset arithmetic of [std::size_t], and 32- and 64-bit
    big-endian integers. A span operation outside the file is undefined
    ([None]). *)

From S2P Require Import Prelude Varint.

Definition zlen {A} (l : list A) : Z := Z.of_nat (length l).

(** [bytes[i]]. *)
Definition byte_at (l : list Z) (i : Z) : option Z := if i <? 0 then None else l !! Z.to_nat i.

(** [bytes.subspan(off, len)] and [bytes.subspan(off)]. *)
Definition subspan (l : list Z) (off len : Z) : option (list Z) :=
  if (0 <=? off) && (0 <=? len) && (off + len <=? zlen l)
  then Some (take (Z.to_nat len) (drop (Z.to_nat off) l)) else None.

Definition subspan_from (l : list Z) (off : Z) : option (list Z) := subspan l off (zlen l - off).

(** [append_be32] and the [put_be32], [put_be64] of the index writer. *)
Definition be32 (v : Z) : list Z := [u8 (Z.shiftr v 24); u8 (Z.shiftr v 16); u8 (Z.shiftr v 8); u8 v].

Definition be64 (v : Z) : list Z :=
  [u8 (Z.shiftr v 56); u8 (Z.shiftr v 48); u8 (Z.shiftr v 40); u8 (Z.shiftr v 32);
   u8 (Z.shiftr v 24); u8 (Z.shiftr v 16); u8 (Z.shiftr v 8); u8 v].

(** [read_be32] and [read_be64] of a span at least that long. *)
Definition read_be32 (b : list Z) : Z := be32_at b 0.
Definition read_be64 (b : list Z) : Z := be64_at b 0.

(** [data] stands at offset [off] of [l]. *)
Definition holds (l : list Z) (off : Z) (data : list Z) : Prop :=
  ∃ pre post, l = pre ++ data ++ post ∧ zlen pre = off.

Module BytesFacts.

Lemma zlen_app {A} (l k : list A) : zlen (l ++ k) = zlen l + zlen k.
Proof. unfold zlen. rewrite length_app. lia. Qed.

Lemma zlen_cons {A} (x : A) l : zlen (x :: l) = 1 + zlen l.
Proof. unfold zlen. cbn [length]. lia. Qed.

Lemma zlen_nonneg {A} (l : list A) : 0 <= zlen l.
Proof. unfold zlen. lia. Qed.

Lemma zlen_nat {A} (l : list A) : Z.to_nat (zlen l) = length l.
Proof. unfold zlen. lia. Qed.

Lemma zlen_nil {A} (l : list A) : zlen l = 0 → l = [].
Proof. unfold zlen. destruct l; simpl; [done|lia]. Qed.

Lemma be32_bytes v : be32 v = be_bytes 4 v.
Proof. unfold be32, be_bytes. repeat f_equal; by rewrite ?Z.shiftr_0_r. Qed.

Lemma be64_bytes v : be64 v = be_bytes 8 v.
Proof. unfold be64, be_bytes. repeat f_equal; by rewrite ?Z.shiftr_0_r. Qed.

Lemma be32_ok v : bytes_ok (be32 v).
Proof. rewrite be32_bytes. apply be_bytes_ok. Qed.

Lemma be64_ok v : bytes_ok (be64 v).
Proof. rewrite be64_bytes. apply be_bytes_ok. Qed.

Lemma zlen_be32 v : zlen (be32 v) = 4.
Proof. done. Qed.

Lemma read_be32_be32 v : 0 <= v < 2 ^ 32 → read_be32 (be32 v) = v.
Proof.
  intros Hv. unfold read_be32. rewrite be32_at_read_be; [|apply be32_ok|simpl; lia].
  rewrite be32_bytes. rewrite take_ge by (rewrite drop_0, length_be_bytes; lia).
  rewrite drop_0, read_be_be_bytes. change (8 * Z.of_nat 4) with 32. rewrite Z.mod_small; lia.
Qed.

Lemma read_be64_be64 v : is_u64 v = true → read_be64 (be64 v) = v.
Proof.
  intros Hv. unfold read_be64. rewrite be64_bytes.
  pose proof (be64_at_bytes [] [] v) as Heq. rewrite app_nil_l, app_nil_r in Heq. apply Heq; [constructor..|done].
Qed.

Lemma read_be32_range b : bytes_ok b → (4 <= length b)%nat → 0 <= read_be32 b < 2 ^ 32.
Proof.
  intros Hb Hlen. unfold read_be32. rewrite be32_at_read_be by (done || simpl; lia).
  assert (bytes_ok (take 4 (drop 0 b))) as Hok by by apply Forall_take, Forall_drop.
  pose proof (read_be_range _ Hok) as Hr. rewrite length_take, length_drop in Hr.
  by replace (8 * Z.of_nat (4 `min` (length b - 0))) with 32 in Hr by lia.
Qed.

(** ** What stands where *)

Lemma holds_app l m off d : holds l off d → holds (l ++ m) off d.
Proof. intros (pre & post & -> & Hpre). exists pre, (post ++ m). by rewrite <- !app_assoc. Qed.

Lemma holds_end l d : holds (l ++ d) (zlen l) d.
Proof. exists l, []. by rewrite app_nil_r. Qed.

Lemma holds_split l off a b : holds l off (a ++ b) → holds l off a ∧ holds l (off + zlen a) b.
Proof.
  intros (pre & post & -> & <-). split.
  - exists pre, (b ++ post). by rewrite <- app_assoc.
  - exists (pre ++ a), post. rewrite <- !app_assoc. split; [done|]. apply zlen_app.
Qed.

Lemma holds_bounds l off d : holds l off d → 0 <= off ∧ off + zlen d <= zlen l.
Proof.
  intros (pre & post & -> & <-). rewrite !zlen_app. pose proof (zlen_nonneg pre). pose proof (zlen_nonneg post). lia.
Qed.

Lemma holds_subspan l off d : holds l off d → subspan l off (zlen d) = Some d.
Proof.
  intros Hd. pose proof (holds_bounds _ _ _ Hd). pose proof (zlen_nonneg d). unfold subspan.
  replace ((0 <=? off) && (0 <=? zlen d) && (off + zlen d <=? zlen l)) with true by lia.
  destruct Hd as (pre & post & -> & <-). by rewrite !zlen_nat, drop_app_length, take_app_length.
Qed.

Lemma holds_subspan_from l off d :
  holds l off d → ∃ post, subspan_from l off = Some (d ++ post).
Proof.
  intros (pre & post & -> & <-). exists post. unfold subspan_from. rewrite !zlen_app.
  assert (holds (pre ++ d ++ post) (zlen pre) (d ++ post)) as Hh by (exists pre, []; by rewrite app_nil_r).
  apply holds_subspan in Hh. rewrite zlen_app in Hh. rewrite <- Hh. f_equal. lia.
Qed.

Lemma holds_byte l off b : holds l off [b] → byte_at l off = Some b.
Proof.
  intros (pre & post & -> & <-). unfold byte_at. pose proof (zlen_nonneg pre).
  replace (zlen pre <? 0) with false by lia. rewrite zlen_nat. by apply list_lookup_middle.
Qed.

Lemma holds_uvarint l off x :
  holds l off (uvarint_bytes x) → is_u64 x = true →
  ∃ s, subspan_from l off = Some s ∧ read_uvarint s = Ok (x, length (uvarint_bytes x)).
Proof.
  intros Hh Hx. apply holds_subspan_from in Hh as [post Hs]. eexists; split; [exact Hs|].
  by apply read_uvarint_bytes.
Qed.

Lemma holds_concat l off d ds i :
  holds l off (concat ds) → ds !! i = Some d → holds l (off + zlen (concat (take i ds))) d.
Proof.
  intros Hh Hi. rewrite <- (take_drop_middle ds i d Hi), concat_app in Hh. cbn [concat] in Hh.
  apply holds_split in Hh as [_ Hh]. by apply holds_split in Hh as [Hh _].
Qed.

Lemma zlen_uvarint x : is_u64 x = true → 1 <= zlen (uvarint_bytes x) <= 10.
Proof. intros Hx. pose proof (uvarint_bytes_length_le x Hx). unfold zlen, max_varint_len64 in *. lia. Qed.

End BytesFacts.
