(* ===== verification/Page.v ===== *)
(** Page-level record framing of the WAL: [include/merlion_tsdb/wal/page.hpp]
    and [src/wal/page.cpp]. Offsets and lengths are [Z] where the page
    arithmetic is done on them; positions in a buffer are [nat]. *)

From S2P Require Import Prelude Crc32c.

Definition k_page_size : Z := 32 * 1024.
Definition k_record_header_size : Z := 7.

(** [RecType]. *)
Inductive RecType : Type := PageTerm | Full | First | Middle | Last.

#[export] Instance RecType_eq_dec : EqDecision RecType.
Proof. solve_decision. Defined.

Definition rec_type_byte (t : RecType) : Z :=
  match t with PageTerm => 0 | Full => 1 | First => 2 | Middle => 3 | Last => 4 end.

(** [static_cast<RecType>] of a value the reader has checked to be at most 4. *)
Definition rec_type_of (b : Z) : RecType :=
  if b =? 1 then Full else if b =? 2 then First else if b =? 3 then Middle
  else if b =? 4 then Last else PageTerm.

Definition k_snappy_mask : Z := 8.
Definition k_zstd_mask : Z := 16.
Definition k_rec_type_mask : Z := 7.

Inductive WalReadError : Type :=
| WalEndOfStream
| WalUnexpectedEnd
| InvalidRecType
| CrcMismatch
| UnexpectedFirst
| UnexpectedMiddle
| TornRecord
| UnsupportedCompression.

#[export] Instance WalReadError_eq_dec : EqDecision WalReadError.
Proof. solve_decision. Defined.

(** * PageWriter *)

(** The writer is its [buf_]. *)
Module PageWriter.

Definition init : list Z := [].

Definition page_offset (buf : list Z) : Z := Z.of_nat (length buf) mod k_page_size.

Definition page_room_for_header (buf : list Z) : Z :=
  let pos := page_offset buf in
  if k_page_size - pos <? k_record_header_size then 0
  else k_page_size - pos - k_record_header_size.

Definition write_header (t : RecType) (len crc : Z) (buf : list Z) : list Z :=
  buf ++ [rec_type_byte t; u8 (Z.shiftr len 8); u8 len;
          u8 (Z.shiftr crc 24); u8 (Z.shiftr crc 16); u8 (Z.shiftr crc 8); u8 crc].

Definition frag_type (first_frag last_frag : bool) : RecType :=
  if first_frag && last_frag then Full
  else if first_frag then First
  else if last_frag then Last
  else Middle.

(** The [while] loop; [pos] grows in every round but possibly the first, so
    [length body + 2] rounds are enough ([log_loop_fuel]). *)
Fixpoint log_loop (fuel : nat) (body : list Z) (pos : nat) (buf : list Z) : list Z :=
  match fuel with
  | O => buf
  | S fuel =>
      let body_empty := (length body =? 0)%nat in
      if (pos <? length body)%nat || (body_empty && (pos =? 0)%nat) then
        let buf :=
          if k_page_size - page_offset buf <? k_record_header_size
          then buf ++ replicate (Z.to_nat (k_page_size - page_offset buf)) 0
          else buf in
        let page_room := page_room_for_header buf in
        let remaining := (length body - pos)%nat in
        let fragment_len := Z.to_nat (Z.min (Z.of_nat remaining) page_room) in
        let first_frag := (pos =? 0)%nat in
        let last_frag := (pos + fragment_len =? length body)%nat in
        let t := frag_type first_frag last_frag in
        let fragment := take fragment_len (drop pos body) in
        let crc := Crc32c.compute fragment in
        let buf := write_header t (u16 (Z.of_nat fragment_len)) crc buf in
        let buf := buf ++ fragment in
        let pos := (pos + fragment_len)%nat in
        if body_empty then buf else log_loop fuel body pos buf
      else buf
  end.

Definition log (body : list Z) (buf : list Z) : list Z :=
  log_loop (length body + 2) body 0 buf.

Definition close_page (buf : list Z) : list Z :=
  let pos := page_offset buf in
  if pos =? 0 then buf else buf ++ replicate (Z.to_nat (k_page_size - pos)) 0.

End PageWriter.

(** * PageReader *)

Module PageReader.

Record t : Type := mk { buf_ : list Z; offset_ : nat; record_ : list Z }.

Definition init (bytes : list Z) : t := mk bytes 0 [].

Definition bytes_consumed (r : t) : nat := offset_ r.

Definition read_be_u16 (b : list Z) (off : nat) : Z :=
  u16 (Z.lor (Z.shiftl (nth off b 0) 8) (nth (off + 1) b 0)).
Definition read_be_u32 (b : list Z) (off : nat) : Z := be32_at b off.

(** Returns the three out-parameters; [offset_] moves past the header. *)
Definition read_fragment_header : rd t WalReadError (RecType * Z * Z) := λ r,
  let header := Z.to_nat k_record_header_size in
  if (length (buf_ r) <? offset_ r + header)%nat then (Err WalUnexpectedEnd, r)
  else
    let h := take header (drop (offset_ r) (buf_ r)) in
    let type_byte := nth 0 h 0 in
    if negb (Z.land type_byte (Z.lor k_snappy_mask k_zstd_mask) =? 0)
    then (Err UnsupportedCompression, r)
    else
      let raw_type := Z.land type_byte k_rec_type_mask in
      if rec_type_byte Last <? raw_type then (Err InvalidRecType, r)
      else
        (Ok (rec_type_of raw_type, read_be_u16 h 1, read_be_u32 h 3),
         mk (buf_ r) (offset_ r + header) (record_ r)).

Definition set_record (rec : list Z) (r : t) : t := mk (buf_ r) (offset_ r) rec.

(** The [while (true)] loop. Every round consumes at least one byte, so
    [fuel] above the number of bytes left is never exhausted ([next_total]). *)
Fixpoint next_loop (fuel : nat) (opened : bool) (r : t) : outcome WalReadError (list Z) * t :=
  match fuel with
  | O => (UB, r)
  | S fuel =>
      match buf_ r !! offset_ r with
      | None => (Err (if opened then TornRecord else WalEndOfStream), r)
      | Some b =>
          if b =? 0 then
            let page_remaining := k_page_size - Z.of_nat (offset_ r) mod k_page_size in
            let pad := take (Z.to_nat page_remaining) (drop (offset_ r) (buf_ r)) in
            if existsb (λ b, negb (b =? 0)) pad then (Err InvalidRecType, r)
            else next_loop fuel opened (mk (buf_ r) (offset_ r + length pad) (record_ r))
          else
            match read_fragment_header r with
            | (Err e, r) => (Err e, r)
            | (UB, r) => (UB, r)
            | (Ok (type, len, crc), r) =>
                if (length (buf_ r) <? offset_ r + Z.to_nat len)%nat then (Err WalUnexpectedEnd, r)
                else
                  let fragment := take (Z.to_nat len) (drop (offset_ r) (buf_ r)) in
                  let r := mk (buf_ r) (offset_ r + Z.to_nat len) (record_ r) in
                  if negb (Crc32c.compute fragment =? crc) then (Err CrcMismatch, r)
                  else
                    match type with
                    | Full =>
                        if opened then (Err UnexpectedFirst, r)
                        else (Ok fragment, set_record fragment r)
                    | First =>
                        if opened then (Err UnexpectedFirst, r)
                        else next_loop fuel true (set_record fragment r)
                    | Middle =>
                        if negb opened then (Err UnexpectedMiddle, r)
                        else next_loop fuel opened (set_record (record_ r ++ fragment) r)
                    | Last =>
                        if negb opened then (Err UnexpectedMiddle, r)
                        else (Ok (record_ r ++ fragment), set_record (record_ r ++ fragment) r)
                    | PageTerm => (Err InvalidRecType, r)
                    end
            end
      end
  end.

Definition next : rd t WalReadError (list Z) := λ r,
  next_loop (S (length (buf_ r) - offset_ r)) false (set_record [] r).

(** A caller reading to the end: the records, and the error that stopped it. *)
Fixpoint read_all (fuel : nat) (r : t) : list (list Z) * option WalReadError :=
  match fuel with
  | O => ([], None)
  | S fuel =>
      match next r with
      | (Ok rec, r) => let '(recs, e) := read_all fuel r in (rec :: recs, e)
      | (Err e, _) => ([], Some e)
      | (UB, _) => ([], None)
      end
  end.

End PageReader.

(** * Facts *)

Module PageFacts.
Import PageWriter.

(** ** One fragment *)

Definition header_bytes (t : RecType) (fragment : list Z) : list Z :=
  rec_type_byte t :: be_bytes 2 (Z.of_nat (length fragment)) ++ be_bytes 4 (Crc32c.compute fragment).

Lemma write_header_eq t fragment buf :
  Z.of_nat (length fragment) < 2 ^ 16 →
  write_header t (u16 (Z.of_nat (length fragment))) (Crc32c.compute fragment) buf =
    buf ++ header_bytes t fragment.
Proof.
  intros Hlen. unfold write_header, header_bytes, u16. rewrite Z.mod_small by lia.
  cbn [be_bytes app]. by rewrite !Z.shiftr_0_r.
Qed.

Lemma length_header_bytes t fragment : length (header_bytes t fragment) = 7%nat.
Proof. done. Qed.

Definition frag_ok (fragment : list Z) : Prop :=
  bytes_ok fragment ∧ Z.of_nat (length fragment) <= k_page_size - k_record_header_size.

Lemma frag_ok_length fragment : frag_ok fragment → Z.of_nat (length fragment) < 2 ^ 16.
Proof. intros [_ Hlen]. unfold k_page_size, k_record_header_size in Hlen. lia. Qed.

Lemma rec_type_of_byte t : t ≠ PageTerm → rec_type_of (rec_type_byte t) = t.
Proof. by destruct t. Qed.

Lemma header_len fragment :
  frag_ok fragment → ∀ t, PageReader.read_be_u16 (header_bytes t fragment) 1 = Z.of_nat (length fragment).
Proof.
  intros Hf t. apply frag_ok_length in Hf. unfold PageReader.read_be_u16, header_bytes.
  cbn [nth be_bytes app Nat.add]. rewrite Z.shiftr_0_r.
  set (n := Z.of_nat (length fragment)) in *.
  assert (0 <= Z.shiftr n (8 * Z.of_nat 1) < 256).
  { rewrite Z.shiftr_div_pow2 by lia. change (2 ^ (8 * Z.of_nat 1)) with 256.
    split; [apply Z.div_pos; lia|apply Z.div_lt_upper_bound; lia]. }
  rewrite u8_small by width. unfold u8. rewrite Z.lor_comm, lor_shiftl_add
    by (lia || apply Z.mod_pos_bound; lia).
  rewrite Z.shiftr_div_pow2 by lia. change (2 ^ (8 * Z.of_nat 1)) with (2 ^ 8).
  unfold u16. pose proof (Z.div_mod n (2 ^ 8)). rewrite Z.mod_small; lia.
Qed.

Lemma header_crc fragment :
  bytes_ok fragment → ∀ t, PageReader.read_be_u32 (header_bytes t fragment) 3 = Crc32c.compute fragment.
Proof.
  intros Hok t. pose proof (compute_range fragment Hok) as Hcrc. unfold PageReader.read_be_u32.
  rewrite be32_at_read_be by (repeat constructor; (apply u8_range || by destruct t)).
  change (take 4 (drop 3 (header_bytes t fragment))) with (be_bytes 4 (Crc32c.compute fragment)).
  rewrite read_be_be_bytes. change (8 * Z.of_nat 4) with 32. by rewrite Z.mod_small by lia.
Qed.

(** The reader at the end of [pre], with [rest] to come. *)
Definition at_ (pre rest rec : list Z) : PageReader.t := PageReader.mk (pre ++ rest) (length pre) rec.

Lemma read_header_at pre t fragment rest rec :
  t ≠ PageTerm → frag_ok fragment →
  PageReader.read_fragment_header (at_ pre (header_bytes t fragment ++ rest) rec) =
    (Ok (t, Z.of_nat (length fragment), Crc32c.compute fragment),
     at_ (pre ++ header_bytes t fragment) rest rec).
Proof.
  intros Ht Hf. unfold PageReader.read_fragment_header, at_. cbn [PageReader.buf_ PageReader.offset_ PageReader.record_].
  change (Z.to_nat k_record_header_size) with 7%nat.
  destruct (Nat.ltb_spec (length (pre ++ header_bytes t fragment ++ rest)) (length pre + 7)) as [Hlt|_].
  { rewrite !length_app, length_header_bytes in Hlt. lia. }
  rewrite drop_app_length. rewrite (take_app_length' (header_bytes t fragment)) by done.
  rewrite header_len, header_crc by (done || apply Hf).
  change (nth 0 (header_bytes t fragment) 0) with (rec_type_byte t).
  rewrite <- (app_assoc pre), length_app, length_header_bytes. by destruct t.
Qed.

(** Reading one intact fragment. *)
Lemma next_fragment fuel opened pre t fragment rest rec :
  t ≠ PageTerm → frag_ok fragment →
  PageReader.next_loop (S fuel) opened (at_ pre (header_bytes t fragment ++ fragment ++ rest) rec) =
    let r := at_ (pre ++ header_bytes t fragment ++ fragment) rest in
    match t with
    | Full => if opened then (Err UnexpectedFirst, r rec) else (Ok fragment, r fragment)
    | First => if opened then (Err UnexpectedFirst, r rec) else PageReader.next_loop fuel true (r fragment)
    | Middle => if negb opened then (Err UnexpectedMiddle, r rec)
                else PageReader.next_loop fuel opened (r (rec ++ fragment))
    | Last => if negb opened then (Err UnexpectedMiddle, r rec) else (Ok (rec ++ fragment), r (rec ++ fragment))
    | PageTerm => (Err InvalidRecType, r rec)
    end.
Proof.
  intros Ht Hf. cbn [PageReader.next_loop].
  assert (PageReader.buf_ (at_ pre (header_bytes t fragment ++ fragment ++ rest) rec) !!
    PageReader.offset_ (at_ pre (header_bytes t fragment ++ fragment ++ rest) rec) = Some (rec_type_byte t)) as ->.
  { unfold at_. simpl. by rewrite lookup_app_r, Nat.sub_diag by done. }
  assert ((rec_type_byte t =? 0) = false) as -> by by destruct t.
  rewrite read_header_at by done. set (hd := header_bytes t fragment).
  unfold at_. cbn [PageReader.buf_ PageReader.offset_ PageReader.record_ negb]. rewrite Nat2Z.id.
  destruct (Nat.ltb_spec (length ((pre ++ hd) ++ fragment ++ rest)) (length (pre ++ hd) + length fragment)) as [Hlt|_].
  { rewrite !length_app in Hlt. lia. }
  rewrite drop_app_length, take_app_length, Z.eqb_refl. cbn [negb]. unfold PageReader.set_record.
  cbn [PageReader.buf_ PageReader.offset_ PageReader.record_].
  assert (((pre ++ hd ++ fragment) ++ rest) = (pre ++ hd) ++ fragment ++ rest) as -> by by rewrite <- !app_assoc.
  assert (length (pre ++ hd ++ fragment) = length (pre ++ hd) + length fragment)%nat as ->
    by (rewrite !length_app; lia).
  by destruct t, opened.
Qed.

(** Skipping the zero padding of a page, up to its end or to the end of the
    buffer. *)
Lemma next_padding fuel opened pre n rest rec :
  (0 < n)%nat →
  (Z.of_nat n = k_page_size - page_offset pre ∨ (rest = [] ∧ Z.of_nat n <= k_page_size - page_offset pre)) →
  PageReader.next_loop (S fuel) opened (at_ pre (replicate n 0 ++ rest) rec) =
    PageReader.next_loop fuel opened (at_ (pre ++ replicate n 0) rest rec).
Proof.
  intros Hn Hpage. cbn [PageReader.next_loop].
  assert (PageReader.buf_ (at_ pre (replicate n 0 ++ rest) rec) !!
    PageReader.offset_ (at_ pre (replicate n 0 ++ rest) rec) = Some 0) as ->.
  { unfold at_. simpl. rewrite lookup_app_r, Nat.sub_diag by done. by destruct n; [lia|]. }
  cbn [Z.eqb]. unfold at_. cbn [PageReader.buf_ PageReader.offset_ PageReader.record_].
  rewrite drop_app_length. fold (page_offset pre).
  assert (take (Z.to_nat (k_page_size - page_offset pre)) (replicate n 0 ++ rest) = replicate n 0) as ->.
  { destruct Hpage as [Hpage|[-> Hpage]].
    - apply take_app_length'. rewrite length_replicate. lia.
    - rewrite app_nil_r. apply firstn_all2. rewrite length_replicate. lia. }
  assert (existsb (λ b, negb (b =? 0)) (replicate n 0) = false) as ->
    by (clear; induction n; simpl; auto).
  by rewrite <- (app_assoc pre), length_app.
Qed.

Lemma next_end fuel opened pre rec :
  PageReader.next_loop (S fuel) opened (at_ pre [] rec) =
    (Err (if opened then TornRecord else WalEndOfStream), at_ pre [] rec).
Proof.
  cbn [PageReader.next_loop]. unfold at_ at 1 2. cbn [PageReader.buf_ PageReader.offset_].
  by rewrite app_nil_r, lookup_ge_None_2.
Qed.

(** ** The layout of one record *)

(** Fewer than seven bytes left in the page of [buf] are padded with zeros. *)
Definition pad_ok (buf pad : list Z) : Prop :=
  pad = [] ∨ ∃ n, pad = replicate n 0 ∧ (0 < n < 7)%nat ∧ Z.of_nat n = k_page_size - page_offset buf.

(** [framed buf rec opened body tail]: after [buf], with the fragments [rec]
    of the record already written, [tail] carries the rest of [body]. *)
Inductive framed : list Z → list Z → bool → list Z → list Z → Prop :=
| framed_last buf rec (opened : bool) pad frag :
    pad_ok buf pad → frag_ok frag →
    framed buf rec opened (rec ++ frag)
      (pad ++ header_bytes (if opened then Last else Full) frag ++ frag)
| framed_more buf rec (opened : bool) pad frag body tail :
    pad_ok buf pad → frag_ok frag →
    framed (buf ++ pad ++ header_bytes (if opened then Middle else First) frag ++ frag) (rec ++ frag) true body tail →
    framed buf rec opened body
      (pad ++ header_bytes (if opened then Middle else First) frag ++ frag ++ tail).

Lemma next_pad fuel opened buf pad rest rec :
  pad_ok buf pad → (length pad <= fuel)%nat →
  ∃ fuel', (fuel <= fuel' + length pad)%nat ∧ (fuel' <= fuel)%nat ∧
    PageReader.next_loop fuel opened (at_ buf (pad ++ rest) rec) =
      PageReader.next_loop fuel' opened (at_ (buf ++ pad) rest rec).
Proof.
  intros [->|(n & -> & Hn & Hpage)] Hfuel.
  { exists fuel. rewrite app_nil_r. split_and!; [simpl; lia|lia|done]. }
  rewrite length_replicate in *. destruct fuel as [|fuel]; [lia|]. exists fuel.
  split_and!; [lia..|]. apply next_padding; [lia|by left].
Qed.

Lemma framed_length buf rec opened body tail :
  framed buf rec opened body tail → (7 <= length tail)%nat.
Proof. destruct 1; rewrite !length_app, length_header_bytes; lia. Qed.

(** An intact record is read back. *)
Lemma read_framed buf rec opened body tail :
  framed buf rec opened body tail → (opened = false → rec = []) →
  ∀ fuel rest, (length tail <= fuel)%nat →
    PageReader.next_loop fuel opened (at_ buf (tail ++ rest) rec) = (Ok body, at_ (buf ++ tail) rest body).
Proof.
  induction 1 as [buf rec opened pad frag Hpad Hf|buf rec opened pad frag body tail Hpad Hf Hframed IH];
    intros Hrec fuel rest Hfuel; rewrite !length_app, length_header_bytes in Hfuel; rewrite <- !app_assoc.
  - destruct (next_pad fuel opened buf pad (header_bytes (if opened then Last else Full) frag ++ frag ++ rest)
      rec Hpad ltac:(lia)) as ([|fuel'] & ? & ? & ->); [lia|].
    rewrite next_fragment by (done || by destruct opened); cbn zeta. rewrite <- !app_assoc.
    destruct opened; cbn [negb]; [done|]. by rewrite Hrec.
  - destruct (next_pad fuel opened buf pad
      (header_bytes (if opened then Middle else First) frag ++ frag ++ tail ++ rest)
      rec Hpad ltac:(lia)) as ([|fuel'] & ? & ? & ->); [lia|].
    rewrite next_fragment by (done || by destruct opened); cbn zeta. rewrite <- !app_assoc.
    destruct opened; cbn [negb].
    + rewrite IH by (done || lia). by rewrite <- !app_assoc.
    + rewrite Hrec in * by done. cbn [app] in *. rewrite IH by (done || lia). by rewrite <- !app_assoc.
Qed.

(** ** The writer produces that layout *)

Lemma page_offset_range buf : 0 <= page_offset buf < k_page_size.
Proof. apply Z.mod_pos_bound. done. Qed.

Lemma page_offset_app buf l :
  page_offset (buf ++ l) = (page_offset buf + Z.of_nat (length l)) mod k_page_size.
Proof. unfold page_offset. by rewrite length_app, Nat2Z.inj_add, Zplus_mod_idemp_l. Qed.

(** The padding the loop inserts, and the room it leaves. *)
Lemma pad_step buf :
  ∃ pad, pad_ok buf pad ∧
    (if k_page_size - page_offset buf <? k_record_header_size
     then buf ++ replicate (Z.to_nat (k_page_size - page_offset buf)) 0 else buf) = buf ++ pad ∧
    page_offset (buf ++ pad) <= k_page_size - k_record_header_size ∧
    (page_offset buf ≠ k_page_size - k_record_header_size →
     page_offset (buf ++ pad) < k_page_size - k_record_header_size).
Proof.
  pose proof (page_offset_range buf). destruct (Z.ltb_spec (k_page_size - page_offset buf) k_record_header_size).
  - exists (replicate (Z.to_nat (k_page_size - page_offset buf)) 0).
    assert (page_offset (buf ++ replicate (Z.to_nat (k_page_size - page_offset buf)) 0) = 0) as ->.
    { rewrite page_offset_app, length_replicate, Z2Nat.id by lia.
      rewrite Z.add_sub_assoc, Z.add_simpl_l. by apply Z_mod_same_full. }
    split_and!; [|done|done|done]. unfold k_record_header_size in *.
    right. exists (Z.to_nat (k_page_size - page_offset buf)). split_and!; [done|lia..].
  - exists []. rewrite app_nil_r. split_and!; [by left|done|lia|lia].
Qed.

(** The room for a fragment once the page has been padded. *)
Lemma room_after_pad buf :
  page_offset buf <= k_page_size - k_record_header_size →
  page_room_for_header buf = k_page_size - page_offset buf - k_record_header_size.
Proof.
  intros Hle. unfold page_room_for_header.
  destruct (Z.ltb_spec (k_page_size - page_offset buf) k_record_header_size); lia.
Qed.

(** At the end of the body the loop is over. *)
Lemma log_loop_done fuel body pos buf :
  (length body <= pos)%nat → body ≠ [] ∨ pos ≠ 0%nat → log_loop fuel body pos buf = buf.
Proof.
  intros Hpos Hne. destruct fuel; [done|]. cbn [log_loop].
  assert ((pos <? length body)%nat || (length body =? 0)%nat && (pos =? 0)%nat = false) as ->; [|done].
  destruct Hne as [Hne|]; [destruct body; [done|cbn [length] in *]|]; lia.
Qed.

(** The bytes one call appends: the body, a header for each page it needs at
    least, and one more header where it starts inside a page. *)
Lemma log_loop_size fuel body pos buf :
  (pos <= length body)%nat →
  let remaining := Z.of_nat (length body - pos) in
  let body_per_page := k_page_size - k_record_header_size in
  Z.of_nat (length (log_loop fuel body pos buf)) <=
    Z.of_nat (length buf) + remaining +
    k_record_header_size *
      (if (length body =? 0)%nat then 1 else (remaining + body_per_page - 1) / body_per_page) +
    (if page_offset buf =? 0 then 0 else k_record_header_size).
Proof.
  revert pos buf. induction fuel as [|fuel IH]; intros pos buf Hpos; cbn zeta; cbn [log_loop].
  { unfold k_record_header_size, k_page_size in *.
    destruct (length body =? 0)%nat, (page_offset buf =? 0); Z.to_euclidean_division_equations; lia. }
  destruct ((pos <? length body)%nat || (length body =? 0)%nat && (pos =? 0)%nat) eqn:Hround.
  2:{ unfold k_record_header_size, k_page_size in *.
    destruct (length body =? 0)%nat, (page_offset buf =? 0); Z.to_euclidean_division_equations; lia. }
  destruct (pad_step buf) as (pad & Hpad & -> & Hle & _).
  set (buf1 := buf ++ pad) in *. pose proof (page_offset_range buf1) as Hrange1.
  rewrite room_after_pad by done.
  assert (Z.of_nat (length buf1) <= Z.of_nat (length buf) ∧ page_offset buf1 = page_offset buf ∨
    Z.of_nat (length buf1) <= Z.of_nat (length buf) + 6 ∧ page_offset buf1 = 0 ∧ page_offset buf ≠ 0) as Hbuf1.
  { unfold buf1. pose proof (page_offset_range buf). destruct Hpad as [->|(n & -> & Hn & Hoff)].
    - left. rewrite app_nil_r. lia.
    - right. rewrite length_app, page_offset_app, length_replicate, Hoff. split; [lia|]. split; [|unfold k_page_size in *; lia].
      replace (page_offset buf + (k_page_size - page_offset buf)) with k_page_size by lia. done. }
  set (flen := Z.to_nat (Z.min (Z.of_nat (length body - pos)) (k_page_size - page_offset buf1 - k_record_header_size))).
  unfold write_header.
  set (buf2 := (buf1 ++ _) ++ take flen (drop pos body)).
  assert (length buf2 = length buf1 + 7 + flen)%nat as Hlen2.
  { unfold buf2. rewrite !length_app, length_take, length_drop. cbn [length]. lia. }
  destruct (Nat.eqb_spec (length body) 0) as [H0|H0].
  { rewrite Hlen2. unfold k_record_header_size in *. destruct (page_offset buf =? 0) eqn:Hz; lia. }
  specialize (IH (pos + flen)%nat buf2 ltac:(lia)). cbn zeta in IH.
  rewrite Hlen2 in IH.
  assert ((flen < length body - pos)%nat → page_offset buf2 = 0) as H2.
  { intros Hlt. unfold page_offset. rewrite Hlen2, !Nat2Z.inj_add, <- Z.add_assoc, <- Zplus_mod_idemp_l.
    fold (page_offset buf1). replace (page_offset buf1 + (Z.of_nat 7 + Z.of_nat flen)) with k_page_size; [done|].
    unfold k_record_header_size in *. lia. }
  unfold k_record_header_size, k_page_size in *.
  destruct (decide (flen < length body - pos)%nat) as [Hlt|Hge].
  - rewrite H2 in IH by done. change (0 =? 0) with true in IH. cbn [negb] in IH.
    destruct (page_offset buf =? 0) eqn:Hz; Z.to_euclidean_division_equations; lia.
  - rewrite log_loop_done, Hlen2 by (lia || by left; intros ->). destruct (page_offset buf =? 0) eqn:Hz; Z.to_euclidean_division_equations; lia.
Qed.

(** A fragment that uses all the room ends its page. *)
Lemma offset_after_fragment ft frag buf :
  page_offset buf + 7 + Z.of_nat (length frag) = k_page_size →
  page_offset ((buf ++ header_bytes ft frag) ++ frag) = 0.
Proof.
  intros Hfull. rewrite <- app_assoc, page_offset_app, length_app, length_header_bytes.
  replace (page_offset buf + Z.of_nat (7 + length frag)) with k_page_size by lia. done.
Qed.

(** The fragment that fits the room left in the page. *)
Lemma cut_fragment body pos room :
  bytes_ok body → 0 <= room <= k_page_size - k_record_header_size →
  let flen := Z.to_nat (Z.min (Z.of_nat (length body - pos)) room) in
  let frag := take flen (drop pos body) in
  Z.of_nat flen = Z.min (Z.of_nat (length body - pos)) room ∧ length frag = flen ∧ frag_ok frag ∧
  take (pos + flen) body = take pos body ++ frag.
Proof.
  intros Hok Hroom flen frag. assert (Z.of_nat flen = Z.min (Z.of_nat (length body - pos)) room) as Hflen by (unfold flen; lia).
  assert (length frag = flen) as Hfrag by (unfold frag; rewrite length_take, length_drop; lia).
  split_and!; [done|done| |symmetry; apply take_take_drop]. split; [by apply Forall_take, Forall_drop|lia].
Qed.

Lemma log_loop_framed fuel body pos buf :
  bytes_ok body → (pos < length body ∨ pos = 0)%nat →
  (length body - pos < fuel)%nat →
  body = [] ∨ page_offset buf ≠ k_page_size - k_record_header_size →
  ∃ tail, log_loop fuel body pos buf = buf ++ tail ∧
    framed buf (take pos body) (negb (pos =? 0)%nat) body tail.
Proof.
  revert pos buf. induction fuel as [|fuel IH]; intros pos buf Hok Hpos Hfuel Hroom; [lia|].
  cbn [log_loop].
  assert ((pos <? length body)%nat || (length body =? 0)%nat && (pos =? 0)%nat = true) as -> by lia.
  destruct (pad_step buf) as (pad & Hpad & -> & Hle & Hlt).
  set (buf1 := buf ++ pad) in *. pose proof (page_offset_range buf1) as Hrange.
  rewrite room_after_pad by done.
  set (room := k_page_size - page_offset buf1 - k_record_header_size) in *.
  set (flen := Z.to_nat (Z.min (Z.of_nat (length body - pos)) room)).
  set (frag := take flen (drop pos body)).
  destruct (cut_fragment body pos room Hok ltac:(unfold room; lia)) as (Hflen & Hfrag & Hfok & Htake). fold flen in Hflen, Hfrag, Hfok, Htake. fold frag in Hfrag, Hfok, Htake.
  rewrite <- Hfrag, write_header_eq by by apply frag_ok_length. rewrite Hfrag.
  set (opened := negb (pos =? 0)%nat).
  destruct (decide (pos + flen = length body)%nat) as [Hlast|Hmore].
  - assert (∀ b, (if (length body =? 0)%nat then b else log_loop fuel body (pos + flen) b) = b) as ->.
    { intros b. destruct (Nat.eqb_spec (length body) 0) as [|H0]; [done|].
      rewrite log_loop_done; [done|lia|]. left. by intros ->. }
    exists (pad ++ header_bytes (if opened then Last else Full) frag ++ frag). split.
    + unfold buf1, opened, frag_type. rewrite <- !app_assoc.
      assert ((pos + flen =? length body)%nat = true) as -> by lia. by destruct (pos =? 0)%nat.
    + assert (framed buf (take pos body) opened (take pos body ++ frag)
        (pad ++ header_bytes (if opened then Last else Full) frag ++ frag)) as Hframed by by constructor.
      by rewrite <- Htake, Hlast, firstn_all in Hframed.
  - assert (Z.of_nat flen = room) as Hfull by lia.
    assert (body ≠ []) as Hne by (intros ->; simpl in *; lia).
    destruct Hroom as [|Hroom]; [done|]. specialize (Hlt Hroom). unfold room in Hfull.
    assert ((length body =? 0)%nat = false) as -> by (destruct body; [done|reflexivity]).
    assert ((pos + flen =? length body)%nat = false) as -> by lia.
    assert (frag_type (pos =? 0)%nat false = if opened then Middle else First) as ->
      by (unfold opened; by destruct (pos =? 0)%nat).
    set (buf2 := (buf1 ++ header_bytes (if opened then Middle else First) frag) ++ frag).
    assert (page_offset buf2 = 0) as H2 by (apply offset_after_fragment; unfold k_record_header_size in Hfull; lia).
    destruct (IH (pos + flen)%nat buf2 Hok) as (tail & Htail & Hframed); [lia|lia|right; by rewrite H2|].
    exists (pad ++ header_bytes (if opened then Middle else First) frag ++ frag ++ tail). split.
    + rewrite Htail. unfold buf2, buf1. by rewrite <- !app_assoc.
    + apply framed_more; [done|done|].
      assert ((pos + flen =? 0)%nat = false) as H0 by lia. rewrite H0, Htake in Hframed.
      unfold buf2, buf1 in Hframed. by rewrite <- !app_assoc in Hframed.
Qed.

Lemma log_framed body buf :
  bytes_ok body → body = [] ∨ page_offset buf ≠ k_page_size - k_record_header_size →
  ∃ tail, log body buf = buf ++ tail ∧ framed buf [] false body tail.
Proof. intros Hok Hroom. apply (log_loop_framed _ body 0 buf Hok); [by right|lia|done]. Qed.

(** ** Truncated and corrupt fragments *)

Lemma next_short_header fuel opened pre t fragment j rec :
  t ≠ PageTerm → (0 < j < 7)%nat →
  fst (PageReader.next_loop (S fuel) opened (at_ pre (take j (header_bytes t fragment)) rec)) =
    Err WalUnexpectedEnd.
Proof.
  intros Ht Hj. cbn [PageReader.next_loop].
  assert (PageReader.buf_ (at_ pre (take j (header_bytes t fragment)) rec) !!
    PageReader.offset_ (at_ pre (take j (header_bytes t fragment)) rec) = Some (rec_type_byte t)) as ->.
  { unfold at_. simpl. rewrite lookup_app_r, Nat.sub_diag by done. by rewrite lookup_take_lt by lia. }
  assert ((rec_type_byte t =? 0) = false) as -> by by destruct t.
  unfold PageReader.read_fragment_header, at_. cbn [PageReader.buf_ PageReader.offset_].
  change (Z.to_nat k_record_header_size) with 7%nat.
  destruct (Nat.ltb_spec (length (pre ++ take j (header_bytes t fragment))) (length pre + 7)); [done|].
  rewrite length_app, length_take, length_header_bytes in *. lia.
Qed.

(** A fragment whose body is cut short, or does not match its checksum. *)
Lemma next_bad_body fuel opened pre t fragment rest rec :
  t ≠ PageTerm → frag_ok fragment →
  (length rest < length fragment)%nat ∨ Crc32c.compute (take (length fragment) rest) ≠ Crc32c.compute fragment →
  fst (PageReader.next_loop (S fuel) opened (at_ pre (header_bytes t fragment ++ rest) rec)) =
    Err (if (length rest <? length fragment)%nat then WalUnexpectedEnd else CrcMismatch).
Proof.
  intros Ht Hf Hbad. cbn [PageReader.next_loop].
  assert (PageReader.buf_ (at_ pre (header_bytes t fragment ++ rest) rec) !!
    PageReader.offset_ (at_ pre (header_bytes t fragment ++ rest) rec) = Some (rec_type_byte t)) as ->.
  { unfold at_. simpl. by rewrite lookup_app_r, Nat.sub_diag by done. }
  assert ((rec_type_byte t =? 0) = false) as -> by by destruct t.
  rewrite read_header_at by done. set (hd := header_bytes t fragment).
  unfold at_. cbn [PageReader.buf_ PageReader.offset_ PageReader.record_]. rewrite Nat2Z.id, drop_app_length.
  rewrite (length_app (pre ++ hd)).
  destruct (Nat.ltb_spec (length rest) (length fragment)) as [Hlt|Hge].
  - by destruct (Nat.ltb_spec (length (pre ++ hd) + length rest) (length (pre ++ hd) + length fragment)); [|lia].
  - destruct (Nat.ltb_spec (length (pre ++ hd) + length rest) (length (pre ++ hd) + length fragment)); [lia|].
    destruct Hbad as [|Hbad]; [lia|]. destruct (Z.eqb_spec (Crc32c.compute (take (length fragment) rest)) (Crc32c.compute fragment)); done.
Qed.

(** The errors a truncated log may end with. *)
Definition cut_error (e : WalReadError) : Prop :=
  e = WalEndOfStream ∨ e = TornRecord ∨ e = WalUnexpectedEnd.

(** A prefix of a padding. *)
Lemma next_cut_padding fuel opened buf pad k rec :
  pad_ok buf pad → (k <= length pad)%nat → (k < fuel)%nat →
  fst (PageReader.next_loop fuel opened (at_ buf (take k pad) rec)) =
    Err (if opened then TornRecord else WalEndOfStream).
Proof.
  intros Hpad Hk Hfuel. destruct fuel as [|fuel]; [lia|].
  destruct (decide (k = 0%nat)) as [->|Hk0]; [by rewrite next_end|]. destruct fuel as [|fuel]; [lia|].
  destruct Hpad as [->|(n & -> & Hn & Hpage)]; [simpl in Hk; lia|].
  rewrite length_replicate in Hk. rewrite take_replicate, Nat.min_l by lia.
  pose proof (next_padding (S fuel) opened buf k [] rec) as Hnext. rewrite app_nil_r in Hnext.
  rewrite Hnext by (lia || (right; split; [done|lia])). by rewrite next_end.
Qed.

(** A fragment cut before the bytes [more] that follow it. *)
Lemma next_cut_fragment buf rec opened pad t frag more fuel k :
  pad_ok buf pad → frag_ok frag → t ≠ PageTerm → (k < length (pad ++ header_bytes t frag ++ frag))%nat →
  (k < fuel)%nat →
  ∃ e, fst (PageReader.next_loop fuel opened
    (at_ buf (take k (pad ++ header_bytes t frag ++ frag ++ more)) rec)) = Err e ∧ cut_error e.
Proof.
  intros Hpad Hf Ht Hk Hfuel. rewrite !length_app, length_header_bytes in Hk.
  destruct (decide (k <= length pad)%nat) as [Hle|Hgt].
  { rewrite take_app_le, next_cut_padding by (done || lia).
    eexists. split; [done|]. unfold cut_error. destruct opened; auto. }
  rewrite take_app_ge by lia. set (j := (k - length pad)%nat).
  destruct (next_pad fuel opened buf pad (take j (header_bytes t frag ++ frag ++ more)) rec Hpad ltac:(lia))
    as ([|fuel'] & ? & ? & ->); [lia|].
  exists WalUnexpectedEnd. split; [|unfold cut_error; auto].
  destruct (decide (j < 7)%nat).
  - rewrite take_app_le by (rewrite length_header_bytes; lia). by apply next_short_header; [|lia].
  - rewrite take_app_ge by (rewrite length_header_bytes; lia). rewrite length_header_bytes.
    assert (length (take (j - 7) (frag ++ more)) < length frag)%nat as Hshort by (rewrite length_take; lia).
    rewrite next_bad_body by auto. by destruct (Nat.ltb_spec (length (take (j - 7) (frag ++ more))) (length frag)); [|lia].
Qed.

Lemma read_framed_cut buf rec opened body tail :
  framed buf rec opened body tail →
  ∀ fuel k, (k < length tail)%nat → (k < fuel)%nat → (opened = false → rec = []) →
    ∃ e, fst (PageReader.next_loop fuel opened (at_ buf (take k tail) rec)) = Err e ∧ cut_error e.
Proof.
  induction 1 as [buf rec opened pad frag Hpad Hf|buf rec opened pad frag body tail Hpad Hf Hframed IH];
    intros fuel k Hk Hfuel Hrec.
  { pose proof (next_cut_fragment buf rec opened pad (if opened then Last else Full) frag [] fuel k) as Hcut.
    rewrite app_nil_r in Hcut. apply Hcut; [done|done|by destruct opened|done|done]. }
  set (t := if opened then Middle else First) in *.
  assert (t ≠ PageTerm) as Ht by (unfold t; by destruct opened).
  destruct (decide (k < length (pad ++ header_bytes t frag ++ frag))%nat) as [|Hge];
    [by apply next_cut_fragment|].
  set (n := length (pad ++ header_bytes t frag ++ frag)) in *.
  assert (take k (pad ++ header_bytes t frag ++ frag ++ tail) =
    pad ++ header_bytes t frag ++ frag ++ take (k - n) tail) as ->.
  { rewrite (app_assoc (header_bytes t frag)), (app_assoc pad), take_app_ge by (fold n; lia). fold n.
    by rewrite <- !app_assoc. }
  assert (length tail + n = length (pad ++ header_bytes t frag ++ frag ++ tail))%nat as Hlen
    by (unfold n; rewrite !length_app; lia).
  assert (n = length pad + 7 + length frag)%nat as Hn
    by (unfold n; rewrite !length_app, length_header_bytes; lia).
  destruct (next_pad fuel opened buf pad (header_bytes t frag ++ frag ++ take (k - n) tail) rec Hpad ltac:(lia))
    as ([|fuel'] & ? & ? & ->); [lia|].
  rewrite next_fragment by done. cbn zeta. rewrite <- !app_assoc. unfold t in *. destruct opened; cbn [negb].
  - apply IH; [lia|lia|done].
  - rewrite Hrec in * by done. apply IH; [lia|lia|done].
Qed.

(** ** Logs of several records *)

Definition log_all (recs : list (list Z)) (buf : list Z) : list Z := foldl (λ b r, log r b) buf recs.

(** Every record is a byte string, and none that is not empty starts where
    exactly seven bytes of the page are left. *)
Fixpoint logs_ok (buf : list Z) (recs : list (list Z)) : Prop :=
  match recs with
  | [] => True
  | r :: recs =>
      bytes_ok r ∧ (r = [] ∨ page_offset buf ≠ k_page_size - k_record_header_size) ∧ logs_ok (log r buf) recs
  end.

Lemma log_all_snoc cur body buf : log_all (cur ++ [body]) buf = log body (log_all cur buf).
Proof. unfold log_all. by rewrite foldl_snoc. Qed.

Lemma logs_ok_snoc cur body buf :
  logs_ok buf (cur ++ [body]) →
  logs_ok buf cur ∧ bytes_ok body ∧ (body = [] ∨ page_offset (log_all cur buf) ≠ k_page_size - k_record_header_size).
Proof.
  revert buf. induction cur as [|r cur IH]; intros buf; cbn [app logs_ok]; [by intros (? & ? & _)|].
  intros (? & ? & Hok). by apply IH in Hok as (? & ? & ?).
Qed.

Fixpoint framed_all (buf : list Z) (recs : list (list Z)) (tail : list Z) : Prop :=
  match recs with
  | [] => tail = []
  | r :: recs => ∃ t1 t2, tail = t1 ++ t2 ∧ framed buf [] false r t1 ∧ framed_all (buf ++ t1) recs t2
  end.

Lemma log_all_framed recs buf :
  logs_ok buf recs → ∃ tail, log_all recs buf = buf ++ tail ∧ framed_all buf recs tail.
Proof.
  revert buf. induction recs as [|r recs IH]; intros buf Hok; simpl.
  { exists []. by rewrite app_nil_r. }
  destruct Hok as (Hr & Hroom & Hok). destruct (log_framed r buf Hr Hroom) as (t1 & Hlog & Hframed).
  unfold log_all. simpl. fold (log_all recs (log r buf)). rewrite Hlog in *.
  destruct (IH _ Hok) as (t2 & -> & Hall). exists (t1 ++ t2). rewrite app_assoc. split; [done|]. by exists t1, t2.
Qed.

Lemma next_framed buf r t rest rec :
  framed buf [] false r t → PageReader.next (at_ buf (t ++ rest) rec) = (Ok r, at_ (buf ++ t) rest r).
Proof.
  intros Hf. unfold PageReader.next, PageReader.set_record, at_. cbn [PageReader.buf_ PageReader.offset_].
  apply (read_framed _ _ _ _ _ Hf); [done|]. rewrite !length_app. lia.
Qed.

Lemma next_framed_cut buf r t k rec :
  framed buf [] false r t → (k < length t)%nat →
  ∃ e, fst (PageReader.next (at_ buf (take k t) rec)) = Err e ∧ cut_error e.
Proof.
  intros Hf Hk. unfold PageReader.next, PageReader.set_record, at_. cbn [PageReader.buf_ PageReader.offset_].
  apply (read_framed_cut _ _ _ _ _ Hf); [done| |done]. rewrite length_app, length_take. lia.
Qed.

Lemma next_end_padding buf n rec :
  Z.of_nat n <= k_page_size - page_offset buf →
  fst (PageReader.next (at_ buf (replicate n 0) rec)) = Err WalEndOfStream.
Proof.
  intros Hn. unfold PageReader.next, PageReader.set_record, at_. cbn [PageReader.buf_ PageReader.offset_].
  rewrite length_app, length_replicate. replace (length buf + n - length buf)%nat with n by lia.
  fold (at_ buf (replicate n 0) []). destruct n as [|n]; [by rewrite next_end|].
  pose proof (next_padding (S n) false buf (S n) [] []) as Hnext. rewrite app_nil_r in Hnext.
  rewrite Hnext by (lia || by right). by rewrite next_end.
Qed.

Lemma read_all_S fuel r :
  PageReader.read_all (S fuel) r =
    match PageReader.next r with
    | (Ok rec, r) => let '(recs, e) := PageReader.read_all fuel r in (rec :: recs, e)
    | (Err e, _) => ([], Some e)
    | (UB, _) => ([], None)
    end.
Proof. done. Qed.

(** Reading the records of a log, and then whatever follows them. *)
Lemma read_all_framed buf recs tail rest rec fuel :
  framed_all buf recs tail →
  ∃ rec', PageReader.read_all (length recs + fuel) (at_ buf (tail ++ rest) rec) =
    let '(rs, e) := PageReader.read_all fuel (at_ (buf ++ tail) rest rec') in (recs ++ rs, e).
Proof.
  revert buf tail rec. induction recs as [|r recs IH]; intros buf tail rec Hall; simpl in Hall.
  { subst tail. exists rec. rewrite app_nil_r. cbn [length Nat.add app]. by destruct (PageReader.read_all _ _). }
  destruct Hall as (t1 & t2 & -> & Hf & Hall). cbn [length Nat.add PageReader.read_all].
  rewrite <- app_assoc, (next_framed buf r t1) by done.
  destruct (IH _ _ r Hall) as (rec' & ->). exists rec'. rewrite <- app_assoc.
  by destruct (PageReader.read_all fuel _).
Qed.

(** ** The reader on arbitrary bytes *)

Definition in_bounds (r : PageReader.t) : Prop := (PageReader.offset_ r <= length (PageReader.buf_ r))%nat.

(** The result of a read from [r]: never undefined, and the reader stays on
    the same buffer, inside it, past [r] when something was read. *)
Definition good {A} (r : PageReader.t) (o : outcome WalReadError A * PageReader.t) : Prop :=
  PageReader.buf_ (snd o) = PageReader.buf_ r ∧ in_bounds (snd o) ∧
  match fst o with
  | Ok _ => (PageReader.offset_ r < PageReader.offset_ (snd o))%nat
  | Err _ => True
  | UB => False
  end.

Lemma good_err {A} r r' e : PageReader.buf_ r' = PageReader.buf_ r → in_bounds r' → good (A := A) r (Err e, r').
Proof. by intros. Qed.

Lemma good_from {A} r r1 (o : outcome WalReadError A * PageReader.t) :
  PageReader.buf_ r1 = PageReader.buf_ r → (PageReader.offset_ r <= PageReader.offset_ r1)%nat →
  good r1 o → good r o.
Proof.
  intros Hbuf Hoff (Hb & Hin & Ho). split_and!; [congruence|done|]. destruct (fst o); [lia|done..].
Qed.

Lemma read_fragment_header_good r : in_bounds r → good r (PageReader.read_fragment_header r).
Proof.
  intros Hr. unfold PageReader.read_fragment_header. change (Z.to_nat k_record_header_size) with 7%nat.
  destruct (Nat.ltb_spec (length (PageReader.buf_ r)) (PageReader.offset_ r + 7)); [by apply good_err|].
  destruct (negb _); [by apply good_err|]. destruct (_ <? _); [by apply good_err|].
  unfold good, in_bounds. simpl. split_and!; [done|lia..].
Qed.

Lemma next_loop_good fuel opened r :
  in_bounds r → (length (PageReader.buf_ r) - PageReader.offset_ r < fuel)%nat →
  good r (PageReader.next_loop fuel opened r).
Proof.
  revert opened r. induction fuel as [|fuel IH]; intros opened r Hr Hfuel; [lia|].
  cbn [PageReader.next_loop]. destruct (PageReader.buf_ r !! PageReader.offset_ r) as [b|] eqn:Hb; [|by apply good_err].
  apply lookup_lt_Some in Hb. destruct (b =? 0).
  - destruct (existsb _ _); [by apply good_err|].
    set (pad := take _ (drop _ _)).
    assert (0 < length pad <= length (PageReader.buf_ r) - PageReader.offset_ r)%nat as Hpad.
    { pose proof (Z.mod_pos_bound (Z.of_nat (PageReader.offset_ r)) k_page_size eq_refl).
      unfold pad. rewrite length_take, length_drop. lia. }
    eapply good_from, IH; unfold in_bounds; simpl; [done|lia..].
  - pose proof (read_fragment_header_good r Hr) as (Hbuf & Hr1 & Hheader).
    destruct (PageReader.read_fragment_header r) as [[[[type len] crc]|e|] r1]; cbn [fst snd] in *;
      [|by apply good_err|done].
    destruct (Nat.ltb_spec (length (PageReader.buf_ r1)) (PageReader.offset_ r1 + Z.to_nat len)); [by apply good_err|].
    set (fragment := take _ (drop _ _)).
    set (r2 := PageReader.mk _ (PageReader.offset_ r1 + Z.to_nat len) _).
    assert (in_bounds r2 ∧ PageReader.buf_ r2 = PageReader.buf_ r ∧ (PageReader.offset_ r < PageReader.offset_ r2)%nat)
      as (Hin2 & Hbuf2 & Hoff2) by (unfold in_bounds, r2; simpl; split_and!; [lia|done|lia]).
    assert (∀ A (a : A) rec, good r (Ok a, PageReader.set_record rec r2)) as Hok by (intros; by split_and!).
    assert (∀ opened rec, good r (PageReader.next_loop fuel opened (PageReader.set_record rec r2))) as Hnext.
    { intros o rec. unfold in_bounds in *. clearbody r2. rewrite Hbuf2 in Hin2.
      eapply good_from, IH; unfold in_bounds; simpl; rewrite ?Hbuf2; [done|lia..]. }
    destruct (negb (_ =? _)); [by apply good_err|].
    destruct type, opened; cbn [negb]; auto; by apply good_err.
Qed.

Lemma next_good r : in_bounds r → good r (PageReader.next r).
Proof.
  intros Hr. unfold PageReader.next.
  apply (good_from r (PageReader.set_record [] r)); [done..|]. apply next_loop_good; [done|simpl; lia].
Qed.

Lemma read_all_ends fuel r :
  in_bounds r → (length (PageReader.buf_ r) - PageReader.offset_ r < fuel)%nat →
  is_Some (snd (PageReader.read_all fuel r)).
Proof.
  revert r. induction fuel as [|fuel IH]; intros r Hr Hfuel; [lia|]. cbn [PageReader.read_all].
  pose proof (next_good r Hr) as (Hbuf & Hin & Ho).
  destruct (PageReader.next r) as [[rec|e|] r']; cbn [fst snd] in *; [|done..].
  unfold in_bounds in *. rewrite Hbuf in *. specialize (IH r'). rewrite Hbuf in IH.
  destruct (PageReader.read_all fuel r') as [recs e]. apply IH; lia.
Qed.

(** The records of a log are read back, with or without the final padding. *)
Lemma log_all_read (recs : list (list Z)) :
  logs_ok [] recs →
  let buf := log_all recs [] in
  PageReader.read_all (S (length recs)) (PageReader.init buf) = (recs, Some WalEndOfStream) ∧
  PageReader.read_all (S (length recs)) (PageReader.init (close_page buf)) = (recs, Some WalEndOfStream).
Proof.
  intros Hok. destruct (log_all_framed recs [] Hok) as (tail & -> & Hall). cbn [app].
  assert (∀ n, Z.of_nat n <= k_page_size - page_offset tail →
    PageReader.read_all (S (length recs)) (PageReader.init (tail ++ replicate n 0)) = (recs, Some WalEndOfStream))
    as Hread.
  { intros n Hn. destruct (read_all_framed [] recs tail (replicate n 0) [] 1 Hall) as (rec & Hread).
    change (at_ [] (tail ++ replicate n 0) []) with (PageReader.init (tail ++ replicate n 0)) in Hread.
    rewrite Nat.add_1_r in Hread. rewrite Hread. cbn [PageReader.read_all app].
    pose proof (next_end_padding tail n rec Hn) as Hend.
    destruct (PageReader.next (at_ tail (replicate n 0) rec)) as [o r]. cbn [fst] in Hend. subst o.
    by rewrite app_nil_r. }
  pose proof (page_offset_range tail). split.
  - pose proof (Hread 0%nat ltac:(lia)) as H0. by rewrite app_nil_r in H0.
  - unfold close_page. destruct (Z.eqb_spec (page_offset tail) 0).
    + pose proof (Hread 0%nat ltac:(lia)) as H0. by rewrite app_nil_r in H0.
    + apply Hread. lia.
Qed.

(** A cut log yields a prefix of its records. *)
Lemma log_all_cut (recs : list (list Z)) (k : nat) :
  logs_ok [] recs →
  ∃ kept lost e,
    recs = kept ++ lost ∧
    PageReader.read_all (S (length recs)) (PageReader.init (take k (log_all recs []))) = (kept, Some e) ∧
    cut_error e ∧ (length (log_all recs []) <= k → lost = [])%nat.
Proof.
  intros Hok. destruct (log_all_framed recs [] Hok) as (tail & -> & Hall). cbn [app].
  change (PageReader.init (take k tail)) with (at_ [] (take k tail) []).
  revert Hall. clear Hok. generalize (@nil Z) at 1 2 as buf. generalize (@nil Z) as rec.
  revert k tail. induction recs as [|r recs IH]; intros k tail rec buf Hall; simpl in Hall.
  { subst tail. exists [], [], WalEndOfStream. rewrite take_nil. cbn [length PageReader.read_all].
    pose proof (next_end_padding buf 0 rec) as Hend. cbn [replicate] in Hend.
    destruct (PageReader.next (at_ buf [] rec)) as [o r']. cbn [fst] in Hend.
    rewrite Hend by (pose proof (page_offset_range buf); lia). split_and!; [done|done|by left|done]. }
  destruct Hall as (t1 & t2 & -> & Hf & Hall).
  destruct (decide (k < length t1)%nat) as [Hk|Hk].
  - destruct (next_framed_cut buf r t1 k rec Hf Hk) as (e & He & Hcut). rewrite take_app_le by lia.
    exists [], (r :: recs), e. cbn [length PageReader.read_all].
    destruct (PageReader.next (at_ buf (take k t1) rec)) as [o r']. cbn [fst] in He. subst o.
    split_and!; [done..|]. rewrite length_app. lia.
  - rewrite take_app_ge by lia.
    destruct (IH (k - length t1)%nat t2 r (buf ++ t1) Hall) as (kept & lost & e & Hrecs & Hread & Hcut & Hlost).
    exists (r :: kept), lost, e. change (length (r :: recs)) with (S (length recs)).
    cbn [PageReader.read_all] in *. rewrite (next_framed buf r t1) by done. rewrite Hread.
    split_and!; [by rewrite Hrecs|done..|]. rewrite length_app. intros Hle. apply Hlost. lia.
Qed.

(** A log, and then bytes that hold no further record. *)
Lemma log_all_then recs rest e :
  logs_ok [] recs →
  (∀ rec, fst (PageReader.next (at_ (log_all recs []) rest rec)) = Err e) →
  PageReader.read_all (S (length recs)) (PageReader.init (log_all recs [] ++ rest)) = (recs, Some e).
Proof.
  intros Hok Hnext. destruct (log_all_framed recs [] Hok) as (tail & Heq & Hall). cbn [app] in Heq. rewrite Heq in *.
  destruct (read_all_framed [] recs tail rest [] 1 Hall) as (rec & Hread). rewrite Nat.add_1_r in Hread.
  change (at_ [] (tail ++ rest) []) with (PageReader.init (tail ++ rest)) in Hread. rewrite Hread. cbn [PageReader.read_all app].
  specialize (Hnext rec). destruct (PageReader.next (at_ tail rest rec)) as [o r]. cbn [fst] in Hnext. subst o. by rewrite app_nil_r.
Qed.

(** The log while a record is being written, and while its last page is being
    padded. *)
Lemma log_all_torn recs body k :
  logs_ok [] (recs ++ [body]) →
  ∃ tail, log_all (recs ++ [body]) [] = log_all recs [] ++ tail ∧
    ((k < length tail)%nat → ∃ e, cut_error e ∧
      PageReader.read_all (S (length recs)) (PageReader.init (log_all recs [] ++ take k tail)) = (recs, Some e)).
Proof.
  intros Hok. apply logs_ok_snoc in Hok as (Hok & Hb & Hroom). destruct (log_framed body (log_all recs []) Hb Hroom) as (tail & Hlog & Hf).
  exists tail. split; [by rewrite log_all_snoc|]. intros Hk.
  destruct (next_framed_cut _ _ _ k [] Hf Hk) as (e & He & Hcut). exists e. split; [done|].
  apply log_all_then; [done|]. intros rec. unfold PageReader.next, at_, PageReader.set_record in *. exact He.
Qed.

Lemma log_all_closing recs :
  logs_ok [] recs →
  ∃ pad, close_page (log_all recs []) = log_all recs [] ++ pad ∧
    ∀ k, PageReader.read_all (S (length recs)) (PageReader.init (log_all recs [] ++ take k pad)) = (recs, Some WalEndOfStream).
Proof.
  intros Hok. pose proof (page_offset_range (log_all recs [])) as Hrange.
  assert (∃ n, close_page (log_all recs []) = log_all recs [] ++ replicate n 0 ∧
    Z.of_nat n <= k_page_size - page_offset (log_all recs [])) as (n & Hclose & Hn).
  { unfold close_page. destruct (_ =? 0); [exists 0%nat; cbn [replicate]; rewrite app_nil_r; split; [done|lia]|]. eexists. split; [done|]. lia. }
  exists (replicate n 0). split; [done|]. intros k. apply log_all_then; [done|]. intros rec. rewrite take_replicate.
  apply next_end_padding. lia.
Qed.

End PageFacts.

(** * Properties *)

Module PageProps.
Import PageWriter PageFacts.

(** C14: reading back a log. The records logged, of any sizes, come back in
    order and unchanged, followed by a clean end of stream, before and after
    [close_page] pads the last page; provided that no record that is not empty
    starts where exactly seven bytes of its page are left (see
    [seven_bytes_left]). *)
Theorem page_log_roundtrip (recs : list (list Z)) :
  logs_ok [] recs →
  let buf := log_all recs [] in
  PageReader.read_all (S (length recs)) (PageReader.init buf) = (recs, Some WalEndOfStream) ∧
  PageReader.read_all (S (length recs)) (PageReader.init (close_page buf)) = (recs, Some WalEndOfStream).
Proof. apply log_all_read. Qed.

Lemma page_log_roundtrip_witness :
  let recs := [[1; 2; 3]; []; [255]] in
  let buf := log_all recs [] in
  PageReader.read_all 4 (PageReader.init buf) = (recs, Some WalEndOfStream) ∧
  PageReader.read_all 4 (PageReader.init (close_page buf)) = (recs, Some WalEndOfStream).
Proof.
  apply (page_log_roundtrip [[1; 2; 3]; []; [255]]).
  cbn [logs_ok]; split_and!; try exact I; try (right; vm_compute; discriminate); repeat constructor.
Defined.

(** Crash tolerance of the framing. Cutting a log at any byte loses only
    records at its end: the reader returns a prefix of the records and then
    reports the end of the stream, a torn record or an unexpected end; it never
    invents a record or reports a corruption. *)
Theorem page_log_cut (recs : list (list Z)) (k : nat) :
  logs_ok [] recs →
  ∃ kept lost e,
    recs = kept ++ lost ∧
    PageReader.read_all (S (length recs)) (PageReader.init (take k (log_all recs []))) = (kept, Some e) ∧
    cut_error e ∧ (length (log_all recs []) <= k → lost = [])%nat.
Proof. apply log_all_cut. Qed.

Lemma page_log_cut_witness :
  let recs := [[1; 2; 3]; [4]] in
  ∃ kept lost e,
    recs = kept ++ lost ∧
    PageReader.read_all 3 (PageReader.init (take 13 (log_all recs []))) = (kept, Some e) ∧
    cut_error e ∧ (length (log_all recs []) <= 13 → lost = [])%nat.
Proof.
  apply (page_log_cut [[1; 2; 3]; [4]] 13).
  cbn [logs_ok]; split_and!; try exact I; try (right; vm_compute; discriminate); repeat constructor.
Defined.

(** C27: a fragment whose body was altered inside four consecutive bytes is
    never delivered: [next] reports [CrcMismatch], wherever the fragment lies
    in the buffer and whatever follows it. *)
Theorem page_detects_corruption (pre p x y q rest : list Z) (t : RecType) :
  t ≠ PageTerm → frag_ok (p ++ x ++ q) → bytes_ok y →
  length x = length y → (length x <= 4)%nat → x ≠ y →
  fst (PageReader.next (PageReader.mk
    (pre ++ header_bytes t (p ++ x ++ q) ++ (p ++ y ++ q) ++ rest) (length pre) [])) = Err CrcMismatch.
Proof.
  intros Ht Hf Hy Hlen Hle Hne. unfold PageReader.next.
  change (PageReader.set_record [] (PageReader.mk (pre ++ ?l) (length pre) [])) with (at_ pre l []).
  assert (length (p ++ x ++ q) = length (p ++ y ++ q)) as Hsame by (rewrite !length_app; lia).
  rewrite next_bad_body.
  - destruct (Nat.ltb_spec (length ((p ++ y ++ q) ++ rest)) (length (p ++ x ++ q))); [|done].
    rewrite Hsame, (length_app _ rest) in *. lia.
  - done.
  - done.
  - right. rewrite take_app_length' by done. apply not_eq_sym, compute_burst; [apply Hf|done..].
Qed.

Lemma page_detects_corruption_witness :
  fst (PageReader.next (PageReader.mk
    ([9] ++ header_bytes Full ([1] ++ [2; 3] ++ [4]) ++ ([1] ++ [2; 0] ++ [4]) ++ [5]) 1 [])) = Err CrcMismatch.
Proof.
  apply (page_detects_corruption [9] [1] [2; 3] [2; 0] [4] [5] Full);
    [discriminate|split; [repeat constructor|vm_compute; discriminate]|repeat constructor|reflexivity|simpl; lia|discriminate].
Defined.

(** The reader is total: on any bytes at all, [next] has a defined
    result and stays inside the buffer, and reading to the end stops, with an
    error that says why. *)
Theorem page_reader_total (bytes : list Z) (offset : nat) (rec : list Z) :
  (offset <= length bytes)%nat →
  let r := PageReader.mk bytes offset rec in
  let '(o, r') := PageReader.next r in
  o ≠ UB ∧ (PageReader.bytes_consumed r' <= length bytes)%nat ∧
  (∀ body, o = Ok body → (offset < PageReader.bytes_consumed r')%nat) ∧
  is_Some (snd (PageReader.read_all (S (length bytes)) r)).
Proof.
  intros Hoff r. pose proof (next_good r Hoff) as (Hbuf & Hin & Ho).
  pose proof (read_all_ends (S (length bytes)) r Hoff ltac:(simpl; lia)) as Hall.
  destruct (PageReader.next r) as [o r']. cbn [fst snd] in *. unfold PageReader.bytes_consumed.
  split_and!; [by intros ->|unfold in_bounds in Hin; by rewrite Hbuf in Hin|by intros body ->|done].
Qed.

Lemma page_reader_total_witness :
  let r := PageReader.mk [3; 0; 200; 1; 2] 0 [] in
  let '(o, r') := PageReader.next r in
  o ≠ UB ∧ (PageReader.bytes_consumed r' <= 5)%nat ∧
  (∀ body, o = Ok body → (0 < PageReader.bytes_consumed r')%nat) ∧
  is_Some (snd (PageReader.read_all 6 r)).
Proof. apply (page_reader_total [3; 0; 200; 1; 2] 0 []). simpl. lia. Defined.

(** ** A log the reader rejects *)

(** After 32754 bytes in the first page, a record that is not empty starts
    with a zero-length [First] fragment; the position has not moved, so the
    next page gets a second starting fragment, and the reader stops there. *)
Example seven_bytes_left :
  let recs := [replicate (Z.to_nat 32754) 7; [1; 2; 3]] in
  let '(kept, e) := PageReader.read_all 3 (PageReader.init (log_all recs [])) in
  (length kept, e) = (1%nat, Some UnexpectedFirst).
Proof. vm_compute. reflexivity. Qed.

(** The type byte 0x20 has no compression flag and the type bits 0: the case
    [RecType::PageTerm] of the reader, marked unreachable, is reached. *)
Example page_term_reached :
  fst (PageReader.next (PageReader.init ([0x20; 0; 0] ++ be_bytes 4 (Crc32c.compute [])))) = Err InvalidRecType.
Proof. vm_compute. reflexivity. Qed.

End PageProps.
