(* ===== verification/Chunks.v ===== *)
(** Chunk segment files of a block: [include/merlion_tsdb/block/chunks.hpp],
    [src/block/chunks.cpp] and [include/merlion_tsdb/chunkenc/encoding.hpp].
    The chunks directory is a [World]: its files and the answers of the next
    system calls. *)

From S2P Require Import Prelude Ordered Files Varint Bytes Crc32c.

(** * Format *)

(** [chunkenc::Encoding]: a byte; any byte can be cast to it. *)
Definition Encoding_None : Z := 0.
Definition Encoding_XOR : Z := 1.

Definition k_magic_chunks : Z := 0x85BD40DD.
Definition k_chunks_format_v1 : Z := 1.
Definition k_chunks_segment_header_size : Z := 8.
Definition k_chunk_encoding_size : Z := 1.
Definition k_chunk_crc_size : Z := 4.
Definition k_chunks_segment_filename_width : nat := 6.
Definition k_default_chunks_segment_size : Z := 512 * 1024 * 1024.

Record BlockChunkRef : Type := mkRef { ref_seq : Z; ref_offset : Z }.

#[export] Instance BlockChunkRef_eq_dec : EqDecision BlockChunkRef.
Proof. solve_decision. Defined.

Definition from_u64 (v : Z) : BlockChunkRef := mkRef (u32 (Z.shiftr v 32)) (u32 (Z.land v 0xFFFFFFFF)).
Definition to_u64 (r : BlockChunkRef) : Z := Z.lor (u64 (Z.shiftl (ref_seq r) 32)) (ref_offset r).

Record ChunkPayload : Type := mkPayload { encoding : Z; payload_data : list Z }.

#[export] Instance ChunkPayload_eq_dec : EqDecision ChunkPayload.
Proof. solve_decision. Defined.

(** [snprintf("%06u")]. *)
Definition format_chunk_name (seq : Z) : str := format_padded k_chunks_segment_filename_width seq.
Definition parse_chunk_name (name : str) : option Z := parse_padded k_chunks_segment_filename_width name.

(** The bytes of one chunk as [write] assembles them in [buf]. *)
Definition frame (enc : Z) (data : list Z) : list Z :=
  let crc_state := Crc32c.update (Crc32c.update k_init [enc]) data in
  uvarint_buf (zlen data) ++ [enc] ++ data ++ be32 (finalize crc_state).

(** The header [cut_new_segment] emits. *)
Definition segment_header : list Z := be32 k_magic_chunks ++ [k_chunks_format_v1; 0; 0; 0].

(** * ChunkWriter *)

Module ChunkWriter.

(** [fd_] is the file the descriptor is open on, or [None] for -1. *)
Record t : Type := mk {
  segment_size_ : Z;
  fd_ : option str;
  seq_ : Z;
  seg_offset_ : Z;
  closed_ : bool;
}.

Definition M (A : Type) : Type := rd (t * World) error_code A.

Definition set_fd (fd : option str) (s : t) : t := mk (segment_size_ s) fd (seq_ s) (seg_offset_ s) (closed_ s).
Definition set_seg_offset (off : Z) (s : t) : t := mk (segment_size_ s) (fd_ s) (seq_ s) off (closed_ s).
Definition set_closed (s : t) : t := mk (segment_size_ s) (fd_ s) (seq_ s) (seg_offset_ s) true.

(** A call that only succeeds or fails. *)
Definition sys_call : M unit := λ '(s, w),
  let '(ok, w) := sys_ok w in if ok : bool then (Ok tt, (s, w)) else (Err errno_ec, (s, w)).

(** Writing to the descriptor -1 is EBADF. *)
Definition write_all (data : list Z) : M unit := λ '(s, w),
  match data, fd_ s with
  | [], _ => (Ok tt, (s, w))
  | _, None => (Err errno_ec, (s, w))
  | _, Some fd =>
      match Files.write_all fd data w with
      | (None, w) => (Ok tt, (s, w))
      | (Some Errno, w) => (Err errno_ec, (s, w))
      | (Some IoShort, w) => (Err io_error, (s, w))
      end
  end.

(** The first half of [cut_new_segment]: fsync and close the old segment. *)
Definition finish_segment : M unit := λ '(s, w),
  match fd_ s with
  | None => (Ok tt, (s, w))
  | Some _ =>
      (_ <~ sys_call ;; _ <~ sys_call ;;
       λ '(s, w), (Ok tt, (mk (segment_size_ s) None (u32 (seq_ s + 1)) (seg_offset_ s) (closed_ s), w))) (s, w)
  end.

(** [O_CREAT | O_TRUNC]: the file exists and is empty afterwards. *)
Definition open_segment : M unit := λ '(s, w),
  let path := format_chunk_name (u32 (seq_ s + 1)) in
  (_ <~ sys_call ;;
   λ '(s, w), (Ok tt, (set_fd (Some path) s, mkWorld (<[path := []]> (files w)) (script w)))) (set_fd None s, w).

Definition cut_new_segment : M unit :=
  _ <~ finish_segment ;;
  _ <~ open_segment ;;
  _ <~ write_all segment_header ;;
  λ '(s, w), (Ok tt, (set_seg_offset k_chunks_segment_header_size s, w)).

Definition worst_case (data : list Z) : Z :=
  Z.of_nat max_varint_len64 + k_chunk_encoding_size + zlen data + k_chunk_crc_size.

(** The rollover decision of [write]. *)
Definition must_cut (data : list Z) (s : t) : bool :=
  (k_chunks_segment_header_size <? seg_offset_ s) &&
  (segment_size_ s <? u64 (seg_offset_ s + worst_case data)).

(** The second half of [write]: the chunk goes to the current segment. *)
Definition put (enc : Z) (data : list Z) : M BlockChunkRef := λ '(s, w),
  let ref := mkRef (seq_ s) (u32 (seg_offset_ s)) in
  let buf := frame enc data in
  (_ <~ write_all buf ;;
   λ '(s, w), (Ok ref, (set_seg_offset (u64 (seg_offset_ s + zlen buf)) s, w))) (s, w).

Definition write (enc : Z) (data : list Z) : M BlockChunkRef := λ '(s, w),
  if closed_ s then (Err operation_not_permitted, (s, w))
  else
    (_ <~ (if must_cut data s then cut_new_segment else rret tt) ;; put enc data) (s, w).

Definition close : M unit := λ '(s, w),
  if closed_ s then (Ok tt, (s, w))
  else
    match fd_ s with
    | None => (Ok tt, (set_closed s, w))
    | Some _ =>
        (_ <~ sys_call ;; _ <~ sys_call ;;
         λ '(s, w), (Ok tt, (set_fd None s, w))) (set_closed s, w)
    end.

Definition current_seq (s : t) : Z := seq_ s.

(** The destructor: errors are ignored. *)
Definition destroy (s : t) (w : World) : World :=
  match closed_ s, fd_ s with
  | false, Some _ => snd (sys_ok (snd (sys_ok w)))
  | _, _ => w
  end.

(** [open]: the directory exists or is created, and must hold no segment. *)
Definition open (segment_size : Z) (w : World) : outcome error_code t * World :=
  let '(ok, w) := enter_dir w in
  if negb ok then (Err errno_ec, w)
  else if existsb (λ name, bool_decide (is_Some (parse_chunk_name name))) (fst <$> map_to_list (files w))
  then (Err file_exists, w)
  else
    match cut_new_segment (mk segment_size None 0 0 false, w) with
    | (Ok _, (s, w)) => (Ok s, w)
    | (Err e, (s, w)) => (Err e, destroy s w)
    | (UB, (_, w)) => (UB, w)
    end.

Definition moved_from (other : t) : t :=
  mk (segment_size_ other) None (seq_ other) (seg_offset_ other) true.
Definition move_construct (other : t) : t * t := (other, moved_from other).

(** The file of the target is synced and closed. *)
Definition move_assign (s other : t) (w : World) : t * t * World :=
  (other, moved_from other, match fd_ s with None => w | Some _ => snd (sys_ok (snd (sys_ok w))) end).

End ChunkWriter.

(** * ChunkReader *)

Module ChunkReader.

(** [segments_] by position, and the lazily loaded bytes. *)
Record t : Type := mk {
  segments_ : list str;
  segment_bytes_cache_ : list (list Z);
}.

Definition M (A : Type) : Type := rd t error_code A.

(** The reader that [open] makes of the files it finds, sorted by index. *)
Definition open (fs : gmap str (list Z)) : t :=
  let segs := listing parse_chunk_name fs in mk segs (replicate (length segs) []).

(** [open] with its checks of the path. *)
Definition open_path (p : Path) (w : World) : outcome error_code t * World :=
  match list_dir p w with
  | (Ok _, w) => (Ok (open (files w)), w)
  | (Err e, w) => (Err e, w)
  | (UB, w) => (UB, w)
  end.

Definition segment_count (r : t) : nat := length (segments_ r).
Definition segment_seqs (r : t) : list Z := Z.of_nat <$> seq 0 (length (segments_ r)).

(** The header checks of [bytes_for]. *)
Definition check_header (bytes : list Z) : outcome error_code (list Z) :=
  if zlen bytes <? k_chunks_segment_header_size then Err illegal_byte_sequence
  else if negb (read_be32 (take 4 bytes) =? k_magic_chunks) then Err illegal_byte_sequence
  else if negb (nth 4 bytes 0 =? k_chunks_format_v1) then Err illegal_byte_sequence
  else Ok bytes.

(** The cache keeps what was loaded, also when a check fails. *)
Definition bytes_for (fs : gmap str (list Z)) (seq : Z) : M (list Z) := λ r,
  match segment_bytes_cache_ r !! Z.to_nat seq, segments_ r !! Z.to_nat seq with
  | None, _ => (Err no_such_file_or_directory, r)
  | Some (b :: cached), _ => (Ok (b :: cached), r)
  | Some [], None => (UB, r)
  | Some [], Some path =>
      match fs !! path with
      | None => (Err errno_ec, r)
      | Some bytes => (check_header bytes, mk (segments_ r) (<[Z.to_nat seq := bytes]> (segment_bytes_cache_ r)))
      end
  end.

(** The body of [read], over the bytes of the segment. *)
Definition parse_chunk (bytes : list Z) (off : Z) : outcome error_code ChunkPayload :=
  if zlen bytes <=? off then Err illegal_byte_sequence
  else
    s ← of_option (subspan_from bytes off);
    match read_uvarint s with
    | Err _ => Err illegal_byte_sequence
    | UB => UB
    | Ok (length, n) =>
        let enc_off := u64 (off + Z.of_nat n) in
        let data_off := u64 (enc_off + k_chunk_encoding_size) in
        let crc_off := u64 (data_off + length) in
        let end_off := u64 (crc_off + k_chunk_crc_size) in
        if zlen bytes <? end_off then Err illegal_byte_sequence
        else
          enc ← of_option (byte_at bytes enc_off);
          data ← of_option (subspan bytes data_off length);
          crc ← of_option (subspan bytes crc_off 4);
          if negb (finalize (Crc32c.update (Crc32c.update k_init [enc]) data) =? read_be32 crc)
          then Err illegal_byte_sequence
          else Ok (mkPayload enc data)
    end.

Definition read (fs : gmap str (list Z)) (ref : BlockChunkRef) : M ChunkPayload :=
  bytes <~ bytes_for fs (ref_seq ref) ;; λ r, (parse_chunk bytes (ref_offset ref), r).

Record ChunkInfo : Type := mkInfo { info_ref : BlockChunkRef; info_encoding : Z; data_size : Z }.

(** One round of the loop of [iterate_segment]: the chunk at [off] and where
    the next one starts. *)
Definition iterate_step (bytes : list Z) (seq off : Z) : outcome error_code (ChunkInfo * Z) :=
  s ← of_option (subspan_from bytes off);
  match read_uvarint s with
  | Err _ => Err illegal_byte_sequence
  | UB => UB
  | Ok (size, n) =>
      let enc_off := u64 (off + Z.of_nat n) in
      let end_off := u64 (enc_off + k_chunk_encoding_size + size + k_chunk_crc_size) in
      if zlen bytes <? end_off then Err illegal_byte_sequence
      else
        enc ← of_option (byte_at bytes enc_off);
        Ok (mkInfo (mkRef seq (u32 off)) enc size, end_off)
  end.

(** [None]: not finished after [fuel] rounds. *)
Fixpoint iterate_loop (fuel : nat) (bytes : list Z) (seq off : Z) (out : list ChunkInfo)
    : option (outcome error_code (list ChunkInfo)) :=
  if zlen bytes <=? off then Some (Ok out)
  else
    match fuel with
    | O => None
    | S fuel =>
        match iterate_step bytes seq off with
        | Ok (info, off) => iterate_loop fuel bytes seq off (out ++ [info])
        | Err e => Some (Err e)
        | UB => Some UB
        end
    end.

(** Every chunk takes at least one byte, unless the offset wraps around. *)
Definition iterate_segment (fs : gmap str (list Z)) (seq : Z) : rd t error_code (option (list ChunkInfo)) :=
  bytes <~ bytes_for fs seq ;; λ r,
    (match iterate_loop (length bytes) bytes seq k_chunks_segment_header_size [] with
     | None => Ok None
     | Some (Ok l) => Ok (Some l)
     | Some (Err e) => Err e
     | Some UB => UB
     end, r).

End ChunkReader.

(** * Facts *)

Module ChunksFacts.
Import BytesFacts.

(** What the index records a chunk as: its encoding and its bytes. *)
Definition chunk : Type := Z * list Z.

Definition chunk_ok (c : chunk) : Prop := is_byte c.1 = true ∧ bytes_ok c.2 ∧ zlen c.2 < 2 ^ 62.

#[export] Instance chunk_ok_dec c : Decision (chunk_ok c).
Proof. unfold chunk_ok, bytes_ok. apply _. Defined.

(** ** One chunk *)

Definition chunk_bytes (c : chunk) : list Z := frame c.1 c.2.

Lemma zlen_u64 (c : chunk) : chunk_ok c → is_u64 (zlen c.2) = true.
Proof. intros (_ & _ & Hlen). pose proof (zlen_nonneg c.2). width. Qed.

Lemma frame_eq (c : chunk) :
  chunk_ok c →
  chunk_bytes c = uvarint_bytes (zlen c.2) ++ [c.1] ++ c.2 ++ be32 (Crc32c.compute (c.1 :: c.2)).
Proof. intros Hc. unfold chunk_bytes, frame. by rewrite uvarint_buf_eq by by apply zlen_u64. Qed.

Lemma zlen_chunk_bytes (c : chunk) :
  chunk_ok c → zlen (chunk_bytes c) = zlen (uvarint_bytes (zlen c.2)) + 1 + zlen c.2 + 4.
Proof. intros Hc. rewrite frame_eq by done. rewrite !zlen_app, zlen_be32. change (zlen [c.1]) with 1. lia. Qed.

(** A chunk that stands at [off] is what [read] returns from there. *)
Lemma parse_chunk_holds bytes off (c : chunk) :
  holds bytes off (chunk_bytes c) → chunk_ok c → zlen bytes < 2 ^ 63 →
  ChunkReader.parse_chunk bytes off = Ok (mkPayload c.1 c.2) ∧
  ∀ seq, ChunkReader.iterate_step bytes seq off =
    Ok (ChunkReader.mkInfo (mkRef seq (u32 off)) c.1 (zlen c.2), off + zlen (chunk_bytes c)).
Proof.
  intros Hh Hc Hlen. pose proof (holds_bounds _ _ _ Hh) as [Hoff Hend].
  rewrite zlen_chunk_bytes in * by done. pose proof (zlen_uvarint _ (zlen_u64 c Hc)) as Hn.
  pose proof (zlen_nonneg c.2). rewrite frame_eq in Hh by done.
  apply holds_split in Hh as [Hu Hh]. apply holds_split in Hh as [He Hh]. apply holds_split in Hh as [Hd Hcrc].
  set (n := zlen (uvarint_bytes (zlen c.2))) in *. change (zlen [c.1]) with 1 in *.
  destruct (holds_uvarint _ _ _ Hu (zlen_u64 c Hc)) as (s & Hs & Hread).
  assert (∀ x, 0 <= x <= zlen bytes → u64 x = x) as Hsmall by (intros; apply u64_small; width).
  assert (Z.of_nat (length (uvarint_bytes (zlen c.2))) = n) as Hn' by done.
  unfold ChunkReader.parse_chunk, ChunkReader.iterate_step, k_chunk_encoding_size, k_chunk_crc_size.
  rewrite Hs. cbn [of_option mbind outcome_bind]. rewrite Hread, Hn'. split; [|intros seq].
  - destruct (Z.leb_spec (zlen bytes) off); [lia|].
    rewrite (Hsmall (off + n)), (Hsmall (off + n + 1)), (Hsmall (off + n + 1 + zlen c.2)),
      (Hsmall (off + n + 1 + zlen c.2 + 4)) by lia.
    destruct (Z.ltb_spec (zlen bytes) (off + n + 1 + zlen c.2 + 4)); [lia|].
    rewrite (holds_byte _ _ _ He), (holds_subspan _ _ _ Hd). cbn [of_option mbind outcome_bind].
    pose proof (holds_subspan _ _ _ Hcrc) as Hcrc'. rewrite zlen_be32 in Hcrc'. rewrite Hcrc'. cbn [of_option mbind outcome_bind].
    assert (bytes_ok (c.1 :: c.2)) as Hok by (destruct Hc as (? & ? & _); by constructor).
    rewrite read_be32_be32 by by apply compute_range.
    change (finalize _) with (Crc32c.compute (c.1 :: c.2)). by rewrite Z.eqb_refl.
  - rewrite (Hsmall (off + n)), (Hsmall (off + n + 1 + zlen c.2 + 4)) by lia.
    destruct (Z.ltb_spec (zlen bytes) (off + n + 1 + zlen c.2 + 4)); [lia|].
    rewrite (holds_byte _ _ _ He). cbn [of_option mbind outcome_bind]. f_equal. f_equal; lia.
Qed.

(** ** Segment files *)

Definition seg_bytes (cs : list chunk) : list Z := segment_header ++ concat (chunk_bytes <$> cs).

(** The path of the segment at position [i]: names start at one. *)
Definition chunk_path (i : nat) : str := format_chunk_name (Z.of_nat i + 1).

(** [fs] is a chunks directory with these segments. *)
Definition chunks_dir (fs : gmap str (list Z)) (segs : list (list chunk)) : Prop :=
  Z.of_nat (length segs) < 10 ^ 6 ∧
  (∀ i cs, segs !! i = Some cs → fs !! chunk_path i = Some (seg_bytes cs)) ∧
  (∀ name k, is_Some (fs !! name) → parse_chunk_name name = Some k → 1 <= k <= Z.of_nat (length segs)).

(** [ref] points at chunk [c]. *)
Definition stored (segs : list (list chunk)) (ref : BlockChunkRef) (c : chunk) : Prop :=
  ∃ i pre post, segs !! i = Some (pre ++ c :: post) ∧ ref = mkRef (Z.of_nat i) (zlen (seg_bytes pre)) ∧
    zlen (seg_bytes pre) < 2 ^ 32.

(** Segments as the reader can address them. *)
Definition segs_ok (segs : list (list chunk)) : Prop :=
  Forall (λ cs, Forall chunk_ok cs ∧ zlen (seg_bytes cs) < 2 ^ 63) segs.

Lemma seg_bytes_snoc cs c : seg_bytes (cs ++ [c]) = seg_bytes cs ++ chunk_bytes c.
Proof.
  unfold seg_bytes. rewrite fmap_app, concat_app. cbn [fmap list_fmap concat]. by rewrite app_nil_r, app_assoc.
Qed.

Lemma seg_bytes_pos cs : 8 <= zlen (seg_bytes cs).
Proof. unfold seg_bytes. rewrite zlen_app. pose proof (zlen_nonneg (concat (chunk_bytes <$> cs))). by change (zlen segment_header) with 8; lia. Qed.

Lemma seg_bytes_mid pre c post : holds (seg_bytes (pre ++ c :: post)) (zlen (seg_bytes pre)) (chunk_bytes c).
Proof.
  rewrite cons_middle, app_assoc. unfold seg_bytes at 1. rewrite fmap_app, concat_app, app_assoc.
  apply holds_app. change (segment_header ++ _) with (seg_bytes (pre ++ [c])). rewrite seg_bytes_snoc. apply holds_end.
Qed.

Lemma chunk_path_parse i : Z.of_nat i + 1 < 10 ^ 6 → parse_chunk_name (chunk_path i) = Some (Z.of_nat i + 1).
Proof.
  intros. apply FilesFacts.parse_format; unfold k_chunks_segment_filename_width; [lia|]. change (Z.of_nat 6) with 6. lia.
Qed.

Lemma parse_chunk_path name k :
  parse_chunk_name name = Some k → 1 <= k → name = chunk_path (Z.to_nat (k - 1)).
Proof.
  intros [-> _]%FilesFacts.parse_inv Hk; [|unfold k_chunks_segment_filename_width; lia].
  unfold chunk_path. f_equal. lia.
Qed.

Lemma chunk_path_inj i j :
  Z.of_nat i + 1 < 10 ^ 6 → Z.of_nat j + 1 < 10 ^ 6 → chunk_path i = chunk_path j → i = j.
Proof.
  intros Hi Hj Heq. apply (f_equal parse_chunk_name) in Heq. rewrite !chunk_path_parse in Heq by done.
  injection Heq. lia.
Qed.

Lemma listing_dir fs segs :
  chunks_dir fs segs → listing parse_chunk_name fs = chunk_path <$> seq 0 (length segs).
Proof.
  intros (Hn & Hfiles & Honly).
  apply (FilesFacts.listing_eq _ _ _ chunk_path (λ i, Z.of_nat i + 1)); [|lia| |].
  - intros i Hi. apply chunk_path_parse. lia.
  - intros i Hi. destruct (lookup_lt_is_Some_2 segs i Hi) as [cs Hcs]. eauto.
  - intros name k Hin Hparse. specialize (Honly _ _ Hin Hparse). exists (Z.to_nat (k - 1)).
    split; [lia|]. apply parse_chunk_path; [done|lia].
Qed.

(** ** Reading *)

(** A reader of the directory, whatever it has loaded already. *)
Definition reader_ok (segs : list (list chunk)) (r : ChunkReader.t) : Prop :=
  ChunkReader.segments_ r = chunk_path <$> seq 0 (length segs) ∧
  length (ChunkReader.segment_bytes_cache_ r) = length segs ∧
  ∀ i cs b, segs !! i = Some cs → ChunkReader.segment_bytes_cache_ r !! i = Some b → b = [] ∨ b = seg_bytes cs.

Lemma open_reader fs segs : chunks_dir fs segs → reader_ok segs (ChunkReader.open fs).
Proof.
  intros Hdir. unfold reader_ok, ChunkReader.open. cbn [ChunkReader.segments_ ChunkReader.segment_bytes_cache_].
  rewrite (listing_dir _ _ Hdir), length_replicate, length_fmap, length_seq. split_and!; [done..|].
  intros i cs b _ [-> _]%lookup_replicate. by left.
Qed.

Lemma check_header_seg cs : ChunkReader.check_header (seg_bytes cs) = Ok (seg_bytes cs).
Proof.
  unfold ChunkReader.check_header, k_chunks_segment_header_size. pose proof (seg_bytes_pos cs).
  destruct (Z.ltb_spec (zlen (seg_bytes cs)) 8); [lia|]. done.
Qed.

Lemma bytes_for_ok fs segs r i cs :
  chunks_dir fs segs → reader_ok segs r → segs !! i = Some cs →
  ∃ r', ChunkReader.bytes_for fs (Z.of_nat i) r = (Ok (seg_bytes cs), r') ∧ reader_ok segs r'.
Proof.
  intros (Hn & Hfiles & _) (Hsegs & Hlen & Hcache) Hi. pose proof (lookup_lt_Some _ _ _ Hi).
  unfold ChunkReader.bytes_for. rewrite Nat2Z.id.
  destruct (lookup_lt_is_Some_2 (ChunkReader.segment_bytes_cache_ r) i) as [b Hb]; [lia|]. rewrite Hb.
  rewrite Hsegs, list_lookup_fmap, lookup_seq_lt by done. cbn [fmap option_fmap option_map Nat.add].
  destruct (Hcache _ _ _ Hi Hb) as [->|Heq].
  - rewrite (Hfiles _ _ Hi), check_header_seg. eexists; split; [done|].
    unfold reader_ok. cbn [ChunkReader.segments_ ChunkReader.segment_bytes_cache_].
    rewrite length_insert, Hlen. split_and!; [done..|]. intros j cs' b' Hj.
    destruct (decide (i = j)) as [<-|Hne].
    + rewrite list_lookup_insert_eq by lia. intros [= <-]. right. by simplify_eq.
    + rewrite list_lookup_insert_ne by done. eauto.
  - exists r. split; [|done]. pose proof (seg_bytes_pos cs) as Hpos. subst b.
    destruct (seg_bytes cs) as [|x l]; [unfold zlen in Hpos; simpl in Hpos; lia|done].
Qed.

(** Reading a reference to a stored chunk. *)
Lemma read_stored fs segs r ref c :
  chunks_dir fs segs → segs_ok segs → reader_ok segs r → stored segs ref c →
  ∃ r', ChunkReader.read fs ref r = (Ok (mkPayload c.1 c.2), r') ∧ reader_ok segs r'.
Proof.
  intros Hdir Hok Hr (i & pre & post & Hi & -> & Hoff).
  destruct (bytes_for_ok _ _ _ _ _ Hdir Hr Hi) as (r' & Hbytes & Hr'). exists r'. split; [|done].
  unfold ChunkReader.read. cbn [ref_seq ref_offset]. rewrite (rbind_ok _ _ _ _ _ Hbytes). f_equal.
  unfold segs_ok in Hok. rewrite Forall_lookup in Hok. destruct (Hok _ _ Hi) as [Hcs Hlen].
  apply Forall_app in Hcs as [_ Hc%Forall_cons_1]. destruct Hc as [Hc _].
  by apply parse_chunk_holds; [apply seg_bytes_mid|..].
Qed.

(** ** Writing when no system call fails *)

(** The closed segments and the current one. *)
Definition layout : Type := list (list chunk) * list chunk.

Definition segments (l : layout) : list (list chunk) := l.1 ++ [l.2].

(** Where the next chunk goes. *)
Definition place (size : Z) (l : layout) (c : chunk) : layout * BlockChunkRef :=
  let '(segs, cur) := l in
  if negb (bool_decide (cur = [])) && (size <? zlen (seg_bytes cur) + ChunkWriter.worst_case c.2)
  then ((segs ++ [cur], [c]), mkRef (Z.of_nat (S (length segs))) k_chunks_segment_header_size)
  else ((segs, cur ++ [c]), mkRef (Z.of_nat (length segs)) (zlen (seg_bytes cur))).

Fixpoint place_all (size : Z) (l : layout) (cs : list chunk) : layout * list BlockChunkRef :=
  match cs with
  | [] => (l, [])
  | c :: cs =>
      let '(l, ref) := place size l c in
      let '(l, refs) := place_all size l cs in (l, ref :: refs)
  end.

Import ChunkWriter.

(** A writer whose files hold the layout [l]. *)
Definition writing (size : Z) (l : layout) (st : t * World) : Prop :=
  let '(s, w) := st in
  s = mk size (Some (chunk_path (length l.1))) (Z.of_nat (length l.1)) (zlen (seg_bytes l.2)) false ∧
  script w = [] ∧ chunks_dir (files w) (segments l) ∧ segs_ok (segments l).

Lemma chunks_dir_set fs segs rest cs :
  chunks_dir fs (segs ++ rest) → (length rest <= 1)%nat → Z.of_nat (S (length segs)) < 10 ^ 6 →
  chunks_dir (<[chunk_path (length segs) := seg_bytes cs]> fs) (segs ++ [cs]).
Proof.
  intros (Hn & Hfiles & Honly) Hrest Hlen. split_and!.
  - rewrite length_app. simpl length. lia.
  - intros i cs' Hi. apply lookup_lt_Some in Hi as Hlt. rewrite length_app in Hlt. simpl length in Hlt.
    destruct (decide (i = length segs)) as [->|Hne].
    + rewrite lookup_insert_eq. rewrite list_lookup_middle in Hi by done. by injection Hi as <-.
    + rewrite lookup_insert_ne by (intros Heq%chunk_path_inj; lia). apply Hfiles.
      rewrite lookup_app_l in * by lia. done.
  - intros name k [c Hc] Hparse. rewrite length_app. simpl length.
    destruct (decide (chunk_path (length segs) = name)) as [<-|Hne].
    + rewrite chunk_path_parse in Hparse by lia. injection Hparse as <-. lia.
    + rewrite lookup_insert_ne in Hc by done. specialize (Honly name k ltac:(eauto) Hparse).
      rewrite length_app in Honly. split; [lia|]. destruct rest as [|r [|]]; simpl in Honly, Hrest; lia.
Qed.

Lemma write_all_eq s p data fs old :
  fd_ s = Some p → fs !! p = Some old →
  write_all data (s, mkWorld fs []) = (Ok tt, (s, mkWorld (<[p := old ++ data]> fs) [])).
Proof.
  intros Hfd Hold. unfold write_all. rewrite Hfd. destruct data as [|b data].
  - by rewrite app_nil_r, insert_id.
  - unfold Files.write_all. cbn [script length Nat.add write_all_loop sys]. unfold append_file. cbn [files script]. by rewrite Hold.
Qed.

(** The segment [cut_new_segment] starts. *)
Lemma cut_new_eq size fd sq off fs :
  let sq' := match fd with None => sq | Some _ => u32 (sq + 1) end in
  let path := format_chunk_name (u32 (sq' + 1)) in
  cut_new_segment (mk size fd sq off false, mkWorld fs []) =
    (Ok tt, (mk size (Some path) sq' 8 false, mkWorld (<[path := segment_header]> fs) [])).
Proof.
  intros sq' path. unfold cut_new_segment.
  assert (finish_segment (mk size fd sq off false, mkWorld fs []) =
    (Ok tt, (mk size None sq' off false, mkWorld fs []))) as Hfin by by destruct fd.
  rewrite (rbind_ok _ _ _ _ _ Hfin).
  assert (open_segment (mk size None sq' off false, mkWorld fs []) =
    (Ok tt, (mk size (Some path) sq' off false, mkWorld (<[path := []]> fs) []))) as Hopen by done.
  rewrite (rbind_ok _ _ _ _ _ Hopen).
  epose proof (write_all_eq (mk size (Some path) sq' off false) path segment_header (<[path := []]> fs) []) as Hw.
  rewrite (rbind_ok _ _ _ _ _ (Hw eq_refl (lookup_insert_eq _ _ _))).
  by rewrite insert_insert_eq.
Qed.

Lemma chunk_path_seq i : Z.of_nat i + 1 < 2 ^ 32 → format_chunk_name (u32 (Z.of_nat i + 1)) = chunk_path i.
Proof. intros. unfold chunk_path, u32. by rewrite Z.mod_small by lia. Qed.

Lemma chunk_open_writing size fs :
  (∀ name, is_Some (fs !! name) → parse_chunk_name name = None) →
  ∃ st, open size (mkWorld fs []) = (Ok st.1, st.2) ∧ writing size ([], []) st.
Proof.
  intros Hnone. unfold open. rewrite FilesFacts.enter_dir_calm. cbn [negb files].
  assert (existsb (λ name, bool_decide (is_Some (parse_chunk_name name))) (fst <$> map_to_list fs) = false) as ->.
  { apply not_true_is_false. intros (name & Hin%list_elem_of_In%FilesFacts.names_elem & Hp%bool_decide_eq_true)%existsb_exists.
    rewrite (Hnone _ Hin) in Hp. by destruct Hp. }
  rewrite cut_new_eq. eexists (_, _). split; [done|]. unfold writing, segments. cbn [fst snd length app files script].
  split_and!; [done..| |].
  - change (0 + 1) with (Z.of_nat 0 + 1). rewrite chunk_path_seq by lia. apply (chunks_dir_set fs [] []); [|simpl; lia..].
    split_and!; [done..|]. intros name k Hin Hp. by rewrite (Hnone _ Hin) in Hp.
  - repeat constructor.
Qed.
Lemma chunk_size c : chunk_ok c → 5 <= zlen (chunk_bytes c) <= worst_case c.2.
Proof.
  intros Hc. rewrite zlen_chunk_bytes by done. pose proof (zlen_uvarint _ (zlen_u64 c Hc)). pose proof (zlen_nonneg c.2).
  unfold worst_case, max_varint_len64, k_chunk_encoding_size, k_chunk_crc_size. lia.
Qed.

Lemma must_cut_eq size fd sq cur c :
  Forall chunk_ok cur → zlen (seg_bytes cur) < 2 ^ 63 → chunk_ok c →
  must_cut c.2 (mk size fd sq (zlen (seg_bytes cur)) false) =
    negb (bool_decide (cur = [])) && (size <? zlen (seg_bytes cur) + worst_case c.2).
Proof.
  intros Hcur Hlen Hc. pose proof (seg_bytes_pos cur). pose proof (chunk_size c Hc).
  assert (worst_case c.2 < 2 ^ 63).
  { destruct Hc as (_ & _ & ?). unfold worst_case, max_varint_len64, k_chunk_encoding_size, k_chunk_crc_size. lia. }
  unfold must_cut. cbn [seg_offset_ segment_size_]. rewrite u64_small by width. f_equal.
  unfold k_chunks_segment_header_size. destruct cur as [|c' cur _] using rev_ind; [done|].
  rewrite bool_decide_eq_false_2 by (by destruct cur). rewrite seg_bytes_snoc, zlen_app in *.
  apply Forall_app in Hcur as [_ Hc'%Forall_cons_1]. destruct Hc' as [Hc' _].
  pose proof (chunk_size c' Hc'). pose proof (seg_bytes_pos cur). cbn [negb]. lia.
Qed.

(** Appending chunk [c] to the current segment. *)
Lemma put_writing size segs cur rest c fs :
  chunks_dir fs (segs ++ rest) → (length rest <= 1)%nat → Z.of_nat (S (length segs)) < 10 ^ 6 →
  fs !! chunk_path (length segs) = Some (seg_bytes cur) →
  segs_ok segs → Forall chunk_ok cur → chunk_ok c →
  cur = [] ∨ zlen (seg_bytes cur) + worst_case c.2 <= size → size <= 2 ^ 32 →
  ∃ st, put c.1 c.2 (mk size (Some (chunk_path (length segs))) (Z.of_nat (length segs)) (zlen (seg_bytes cur)) false,
      mkWorld fs []) = (Ok (mkRef (Z.of_nat (length segs)) (zlen (seg_bytes cur))), st) ∧
    writing size (segs, cur ++ [c]) st.
Proof.
  intros Hdir Hrest Hsegs Hcur Hok Hcs Hc Hfit Hsize. pose proof (chunk_size c Hc). pose proof (seg_bytes_pos cur).
  assert (zlen (seg_bytes cur) < 2 ^ 32 ∧ zlen (seg_bytes cur) + zlen (chunk_bytes c) < 2 ^ 63) as [Hoff Hlen].
  { destruct Hfit as [->|Hfit]; [|lia]. change (zlen (seg_bytes [])) with 8.
    destruct Hc as (_ & _ & Hc). unfold worst_case, max_varint_len64, k_chunk_encoding_size, k_chunk_crc_size in *. lia. }
  unfold put. cbn [seq_ seg_offset_].
  rewrite (rbind_ok _ _ _ _ _ (write_all_eq (mk size _ _ _ false) _ _ _ _ eq_refl Hcur)).
  change (frame c.1 c.2) with (chunk_bytes c). unfold set_seg_offset. cbn [segment_size_ fd_ seq_ seg_offset_ closed_].
  eexists. split; [f_equal; unfold u32; by rewrite Z.mod_small by lia|].
  unfold writing, segments. cbn [fst snd script files]. rewrite <- seg_bytes_snoc. split_and!.
  - rewrite u64_small by width. by rewrite seg_bytes_snoc, zlen_app.
  - done.
  - by eapply chunks_dir_set.
  - apply Forall_app_2, Forall_singleton; [done|]. split.
    + by apply Forall_app_2, Forall_singleton.
    + by rewrite seg_bytes_snoc, zlen_app.
Qed.

Lemma write_writing size l c st :
  writing size l st → chunk_ok c → size <= 2 ^ 32 →
  Z.of_nat (length (segments (place size l c).1)) < 10 ^ 6 →
  ∃ st', write c.1 c.2 st = (Ok (place size l c).2, st') ∧ writing size (place size l c).1 st'.
Proof.
  destruct l as [segs cur], st as [s [fs scr]]. intros (-> & Hscr & Hdir & Hok) Hc Hsize Hcount.
  cbn [script files fst snd] in *. subst scr. unfold segments in Hok, Hdir. cbn [fst snd] in *.
  apply Forall_app in Hok as [Hsegs [Hcur Hlen]%Forall_cons_1]. destruct Hcur as [Hcur Hlen'].
  pose proof Hdir as (_ & Hfiles & _).
  unfold write. cbn [closed_]. rewrite (must_cut_eq _ _ _ _ _ Hcur Hlen' Hc). unfold place in *.
  destruct (negb (bool_decide (cur = [])) && (size <? zlen (seg_bytes cur) + worst_case c.2)) eqn:Hcut.
  - unfold segments in Hcount. cbn [fst snd] in *. rewrite !length_app in Hcount. simpl length in Hcount.
    rewrite (rbind_ok _ _ _ _ _ (cut_new_eq _ _ _ _ _)).
    assert (u32 (Z.of_nat (length segs) + 1) = Z.of_nat (S (length segs))) as -> by (unfold u32; rewrite Z.mod_small; lia).
    rewrite chunk_path_seq by lia. replace (S (length segs)) with (length (segs ++ [cur])) by (rewrite length_app; simpl; lia).
    apply (put_writing size (segs ++ [cur]) [] [[]] c); [|simpl; lia|rewrite length_app; simpl; lia| |
      apply Forall_app_2; [done|by repeat constructor]|done|done|by left|done].
    + apply (chunks_dir_set fs (segs ++ [cur]) [] []); [by rewrite app_nil_r|simpl; lia|rewrite length_app; simpl; lia].
    + by rewrite lookup_insert_eq.
  - rewrite (rbind_ok _ _ _ tt (mk size _ _ _ false, mkWorld fs [])) by done. unfold segments in Hcount. cbn [fst snd] in *.
    rewrite length_app in Hcount. simpl length in Hcount.
    apply (put_writing size segs cur [cur]); [done|simpl; lia|lia| |done..| |done].
    + apply Hfiles. by rewrite list_lookup_middle.
    + destruct (decide (cur = [])) as [|Hne]; [by left|right].
      rewrite bool_decide_eq_false_2 in Hcut by done. cbn [negb andb] in Hcut. lia.
Qed.

(** ** What a writing session stores *)

(** What iterating over a segment lists. *)
Fixpoint seg_infos (sq off : Z) (cs : list chunk) : list ChunkReader.ChunkInfo :=
  match cs with
  | [] => []
  | c :: cs =>
      ChunkReader.mkInfo (mkRef sq (u32 off)) c.1 (zlen c.2) :: seg_infos sq (off + zlen (chunk_bytes c)) cs
  end.

Definition all_infos (segs : list (list chunk)) : list ChunkReader.ChunkInfo :=
  concat (imap (λ i cs, seg_infos (Z.of_nat i) k_chunks_segment_header_size cs) segs).

Lemma seg_infos_snoc sq off cs c :
  seg_infos sq off (cs ++ [c]) =
    seg_infos sq off cs ++
    [ChunkReader.mkInfo (mkRef sq (u32 (off + zlen (concat (chunk_bytes <$> cs))))) c.1 (zlen c.2)].
Proof.
  revert off. induction cs as [|c' cs IH]; intros off; cbn [app seg_infos fmap list_fmap concat].
  - change (zlen []) with 0. by rewrite Z.add_0_r.
  - rewrite IH, zlen_app. by rewrite Z.add_assoc.
Qed.

Lemma all_infos_snoc segs cs :
  all_infos (segs ++ [cs]) = all_infos segs ++ seg_infos (Z.of_nat (length segs)) k_chunks_segment_header_size cs.
Proof.
  unfold all_infos. rewrite imap_app, concat_app. cbn [imap concat]. by rewrite app_nil_r, Nat.add_0_r.
Qed.

Lemma zlen_seg_bytes cs : zlen (seg_bytes cs) = 8 + zlen (concat (chunk_bytes <$> cs)).
Proof. unfold seg_bytes. by rewrite zlen_app. Qed.

(** A placed chunk keeps the others where they are and gets the next reference. *)
Lemma place_spec size l c :
  size <= 2 ^ 32 →
  let '(l', ref) := place size l c in
  concat (segments l') = concat (segments l) ++ [c] ∧
  all_infos (segments l') = all_infos (segments l) ++ [ChunkReader.mkInfo ref c.1 (zlen c.2)] ∧
  stored (segments l') ref c ∧
  (∀ ref' c', stored (segments l) ref' c' → stored (segments l') ref' c').
Proof.
  destruct l as [segs cur]. intros Hsize. unfold place, segments, stored.
  destruct (negb (bool_decide (cur = [])) && _) eqn:Hcut; cbn [fst snd].
  - split_and!.
    + rewrite !concat_app. cbn [concat]. by rewrite !app_nil_r.
    + rewrite (all_infos_snoc (segs ++ [cur])). rewrite length_app, Nat.add_1_r. done.
    + exists (length (segs ++ [cur])), [], []. rewrite list_lookup_middle by done. rewrite length_app, Nat.add_1_r. done.
    + intros ref' c' (i & pre & post & Hi & ?). exists i, pre, post. by rewrite (lookup_app_l_Some _ _ _ _ Hi).
  - assert (zlen (seg_bytes cur) < 2 ^ 32) as Hoff.
    { destruct (decide (cur = [])) as [->|Hne]; [done|]. rewrite bool_decide_eq_false_2 in Hcut by done.
      cbn [negb andb] in Hcut. unfold worst_case, max_varint_len64, k_chunk_encoding_size, k_chunk_crc_size in Hcut.
      pose proof (zlen_nonneg c.2). lia. }
    split_and!.
    + rewrite !concat_app. cbn [concat]. by rewrite !app_nil_r, app_assoc.
    + rewrite !all_infos_snoc, seg_infos_snoc, app_assoc. do 4 f_equal. unfold u32, k_chunks_segment_header_size.
      rewrite zlen_seg_bytes in *. rewrite Z.mod_small; [done|]. pose proof (zlen_nonneg (concat (chunk_bytes <$> cur))). lia.
    + exists (length segs), cur, []. by rewrite list_lookup_middle.
    + intros ref' c' (i & pre & post & Hi & Hrest). destruct (decide (i = length segs)) as [->|Hne].
      * rewrite list_lookup_middle in Hi by done. injection Hi as ->. exists (length segs), pre, (post ++ [c]).
        rewrite list_lookup_middle by done. by rewrite <- app_assoc.
      * exists i, pre, post. apply lookup_lt_Some in Hi as Hlt. rewrite length_app in Hlt. simpl length in Hlt.
        rewrite lookup_app_l in * by lia. done.
Qed.

(** A caller writing chunks in order. *)
Fixpoint write_chunks (cs : list chunk) : M (list BlockChunkRef) :=
  match cs with
  | [] => rret []
  | c :: cs => ref <~ write c.1 c.2 ;; refs <~ write_chunks cs ;; rret (ref :: refs)
  end.

Lemma place_length size l c : (length (segments l) <= length (segments (place size l c).1))%nat.
Proof.
  destruct l as [segs cur]. unfold place, segments. case_match; cbn [fst snd]; rewrite !length_app; simpl; lia.
Qed.

Lemma place_all_length size l cs : (length (segments l) <= length (segments (place_all size l cs).1))%nat.
Proof.
  revert l. induction cs as [|c cs IH]; intros l; [done|]. cbn [place_all].
  pose proof (place_length size l c). destruct (place size l c) as [l1 ref]. specialize (IH l1).
  destruct (place_all size l1 cs). cbn [fst] in *. lia.
Qed.

Lemma write_chunks_writing size cs l st :
  writing size l st → Forall chunk_ok cs → size <= 2 ^ 32 →
  Z.of_nat (length (segments (place_all size l cs).1)) < 10 ^ 6 →
  ∃ st', write_chunks cs st = (Ok (place_all size l cs).2, st') ∧ writing size (place_all size l cs).1 st'.
Proof.
  intros Hw Hcs Hsize. revert l st Hw. induction Hcs as [|c cs Hc Hcs IH]; intros l st Hw Hlen; [by eexists|].
  cbn [write_chunks place_all] in *. pose proof (write_writing size l c st Hw Hc Hsize) as Hstep.
  destruct (place size l c) as [l1 ref]. pose proof (place_all_length size l1 cs).
  destruct (place_all size l1 cs) as [l2 refs] eqn:Hall. cbn [fst snd] in *.
  destruct Hstep as (st1 & Hwrite & Hw1); [lia|]. rewrite (rbind_ok _ _ _ _ _ Hwrite).
  destruct (IH l1 st1 Hw1) as (st2 & Hwrites & Hw2); rewrite Hall in *; cbn [fst snd] in *; [lia|].
  exists st2. by rewrite (rbind_ok _ _ _ _ _ Hwrites).
Qed.

Lemma place_all_spec size l cs :
  size <= 2 ^ 32 →
  let '(l', refs) := place_all size l cs in
  concat (segments l') = concat (segments l) ++ cs ∧
  all_infos (segments l') =
    all_infos (segments l) ++ zip_with (λ ref c, ChunkReader.mkInfo ref c.1 (zlen c.2)) refs cs ∧
  Forall2 (stored (segments l')) refs cs ∧
  (∀ ref' c', stored (segments l) ref' c' → stored (segments l') ref' c').
Proof.
  intros Hsize. revert l. induction cs as [|c cs IH]; intros l; cbn [place_all].
  { split_and!; [by rewrite app_nil_r|by rewrite app_nil_r|constructor|done]. }
  pose proof (place_spec size l c Hsize) as Hstep. destruct (place size l c) as [l1 ref]. specialize (IH l1).
  destruct (place_all size l1 cs) as [l2 refs]. destruct Hstep as (Hc1 & Hi1 & Hs1 & Hk1), IH as (Hc2 & Hi2 & Hs2 & Hk2).
  split_and!; [by rewrite Hc2, Hc1, <- app_assoc|by rewrite Hi2, Hi1, <- app_assoc|constructor; auto|auto].
Qed.

Lemma close_writing size l st :
  writing size l st → ∃ s', close st = (Ok tt, (s', st.2)) ∧ chunks_dir (files st.2) (segments l) ∧ segs_ok (segments l) ∧
    ChunkWriter.destroy s' st.2 = st.2.
Proof.
  destruct st as [s [fs scr]]. intros (-> & Hscr & Hdir & Hok). cbn [script files snd] in *. subst scr.
  eexists. by split_and!.
Qed.

(** ** Reading and iterating *)

Lemma iterate_loop_eq bytes sq off cs out fuel :
  holds bytes off (concat (chunk_bytes <$> cs)) → off + zlen (concat (chunk_bytes <$> cs)) = zlen bytes →
  Forall chunk_ok cs → zlen bytes < 2 ^ 63 → (length cs <= fuel)%nat →
  ChunkReader.iterate_loop fuel bytes sq off out = Some (Ok (out ++ seg_infos sq off cs)).
Proof.
  intros Hh Hend Hcs Hlen. revert off out fuel Hh Hend.
  induction Hcs as [|c cs Hc Hcs IH]; intros off out fuel Hh Hend Hfuel; cbn [fmap list_fmap concat seg_infos] in *.
  - change (zlen []) with 0 in Hend. destruct fuel; cbn [ChunkReader.iterate_loop];
      (destruct (Z.leb_spec (zlen bytes) off); [|lia]); by rewrite app_nil_r.
  - destruct fuel as [|fuel]; [cbn [length] in Hfuel; lia|]. cbn [ChunkReader.iterate_loop length] in *.
    rewrite zlen_app in Hend. pose proof (chunk_size c Hc). pose proof (zlen_nonneg (concat (chunk_bytes <$> cs))).
    destruct (Z.leb_spec (zlen bytes) off); [lia|]. apply holds_split in Hh as [Hh Hrest].
    destruct (parse_chunk_holds _ _ _ Hh Hc Hlen) as [_ Hstep]. rewrite (Hstep sq).
    rewrite IH by (done || lia). by rewrite <- app_assoc.
Qed.

Lemma length_chunks_bytes cs : Forall chunk_ok cs → Z.of_nat (length cs) <= zlen (concat (chunk_bytes <$> cs)).
Proof.
  induction 1 as [|c cs Hc _ IH]; [done|]. cbn [fmap list_fmap concat length]. rewrite zlen_app.
  pose proof (chunk_size c Hc). lia.
Qed.

Lemma iterate_stored fs segs r i cs :
  chunks_dir fs segs → segs_ok segs → reader_ok segs r → segs !! i = Some cs →
  ∃ r', ChunkReader.iterate_segment fs (Z.of_nat i) r =
      (Ok (Some (seg_infos (Z.of_nat i) k_chunks_segment_header_size cs)), r') ∧ reader_ok segs r'.
Proof.
  intros Hdir Hok Hr Hi. destruct (bytes_for_ok _ _ _ _ _ Hdir Hr Hi) as (r' & Hbytes & Hr'). exists r'. split; [|done].
  unfold ChunkReader.iterate_segment. rewrite (rbind_ok _ _ _ _ _ Hbytes).
  unfold segs_ok in Hok. rewrite Forall_lookup in Hok. destruct (Hok _ _ Hi) as [Hcs Hlen].
  rewrite (iterate_loop_eq _ _ _ cs); [done| |by rewrite zlen_seg_bytes|done..|].
  - exists segment_header, []. by rewrite app_nil_r.
  - pose proof (length_chunks_bytes cs Hcs). pose proof (zlen_seg_bytes cs). unfold zlen in *. lia.
Qed.

(** Callers: reading references one after the other, iterating over segments. *)
Fixpoint read_refs (fs : gmap str (list Z)) (refs : list BlockChunkRef) : ChunkReader.M (list ChunkPayload) :=
  match refs with
  | [] => rret []
  | ref :: refs => p <~ ChunkReader.read fs ref ;; ps <~ read_refs fs refs ;; rret (p :: ps)
  end.

Fixpoint iterate_segments (fs : gmap str (list Z)) (seqs : list Z) : ChunkReader.M (list ChunkReader.ChunkInfo) :=
  match seqs with
  | [] => rret []
  | sq :: seqs =>
      l <~ ChunkReader.iterate_segment fs sq ;;
      match l with
      | None => rundef
      | Some infos => rest <~ iterate_segments fs seqs ;; rret (infos ++ rest)
      end
  end.

Lemma read_refs_stored fs segs r refs cs :
  chunks_dir fs segs → segs_ok segs → reader_ok segs r → Forall2 (stored segs) refs cs →
  ∃ r', read_refs fs refs r = (Ok ((λ c : chunk, mkPayload c.1 c.2) <$> cs), r') ∧ reader_ok segs r'.
Proof.
  intros Hdir Hok Hr Hall. revert r Hr. induction Hall as [|ref c refs cs Hst _ IH]; intros r Hr; [by eexists|].
  cbn [read_refs]. destruct (read_stored _ _ _ _ _ Hdir Hok Hr Hst) as (r1 & Hread & Hr1).
  rewrite (rbind_ok _ _ _ _ _ Hread). destruct (IH r1 Hr1) as (r2 & Hreads & Hr2).
  rewrite (rbind_ok _ _ _ _ _ Hreads). by eexists.
Qed.

Lemma iterate_segments_stored fs segs r i n :
  chunks_dir fs segs → segs_ok segs → reader_ok segs r → (i + n = length segs)%nat →
  ∃ r', iterate_segments fs (Z.of_nat <$> seq i n) r =
      (Ok (concat (imap (λ j cs, seg_infos (Z.of_nat (i + j)) k_chunks_segment_header_size cs) (drop i segs))), r').
Proof.
  intros Hdir Hok. revert r i. induction n as [|n IH]; intros r i Hr Hn.
  { rewrite drop_ge by lia. by eexists. }
  destruct (lookup_lt_is_Some_2 segs i) as [cs Hcs]; [lia|].
  destruct (iterate_stored _ _ _ _ _ Hdir Hok Hr Hcs) as (r1 & Hit & Hr1).
  cbn [seq fmap list_fmap iterate_segments]. rewrite (rbind_ok _ _ _ _ _ Hit).
  destruct (IH r1 (S i) Hr1 ltac:(lia)) as (r2 & Hrest). rewrite (rbind_ok _ _ _ _ _ Hrest). eexists.
  rewrite (drop_S _ _ _ Hcs). cbn [imap concat]. rewrite Nat.add_0_r. unfold rret. do 4 f_equal.
  apply imap_ext. intros j c _. cbn [compose]. by rewrite <- Nat.add_succ_comm.
Qed.

End ChunksFacts.

(** * Properties *)

Module ChunksProps.
Import ChunksFacts ChunkWriter.

(** The chunks of a session, all segments closed. *)
Definition write_session (cs : list chunk) : M (list BlockChunkRef) :=
  refs <~ write_chunks cs ;; _ <~ close ;; rret refs.

(** C15: chunks written to a fresh directory, through every rollover to a new
    segment file, each get a reference; from then on a reader of the directory
    returns, for those references in any order and any number of times, the
    chunks with their encodings, and iterating over the segments lists exactly
    the references, encodings and sizes in the order of writing. Segments are
    at most 2^32 bytes (references have 32-bit offsets) and fewer than 10^6
    (names have six digits). *)
Theorem chunks_roundtrip (size : Z) (fs : gmap str (list Z)) (cs : list chunk) :
  (∀ name, is_Some (fs !! name) → parse_chunk_name name = None) →
  size <= 2 ^ 32 → Forall chunk_ok cs →
  Z.of_nat (length (segments (place_all size ([], []) cs).1)) < 10 ^ 6 →
  ∃ s w refs s' w', open size (mkWorld fs []) = (Ok s, w) ∧
    write_session cs (s, w) = (Ok refs, (s', w')) ∧ length refs = length cs ∧
    (∀ order : list nat, Forall (λ i, i < length cs)%nat order →
      ∃ r, read_refs (files w') (omap (refs !!.) order) (ChunkReader.open (files w')) =
        (Ok ((λ c : chunk, mkPayload c.1 c.2) <$> omap (cs !!.) order), r)) ∧
    ∃ r, iterate_segments (files w') (ChunkReader.segment_seqs (ChunkReader.open (files w')))
        (ChunkReader.open (files w')) =
      (Ok (zip_with (λ ref c, ChunkReader.mkInfo ref c.1 (zlen c.2)) refs cs), r).
Proof.
  intros Hfresh Hsize Hcs Hcount. destruct (chunk_open_writing size fs Hfresh) as ([s w] & Hopen & Hw).
  destruct (write_chunks_writing _ _ _ _ Hw Hcs Hsize Hcount) as ([s1 w1] & Hwrite & Hw1).
  pose proof (place_all_spec size ([], []) cs Hsize) as Hspec.
  destruct (place_all size ([], []) cs) as [l refs]. destruct Hspec as (_ & Hinfos & Hstored & _).
  destruct (close_writing _ _ _ Hw1) as (s2 & Hclose & Hdir & Hok & _). cbn [fst snd] in *.
  pose proof (Forall2_length _ _ _ Hstored) as Hlen. pose proof (open_reader _ _ Hdir) as Hr.
  exists s, w, refs, s2, w1. split; [done|]. split.
  { unfold write_session. rewrite (rbind_ok _ _ _ _ _ Hwrite). by rewrite (rbind_ok _ _ _ _ _ Hclose). }
  split; [done|]. split.
  - intros order Horder. destruct (read_refs_stored (files w1) (segments l) (ChunkReader.open (files w1))
      (omap (refs !!.) order) (omap (cs !!.) order)) as (r & Hread & _); [done..| |by eauto].
    induction Horder as [|i order Hi _ IH]; [constructor|]. cbn [omap list_omap].
    destruct (lookup_lt_is_Some_2 cs i Hi) as [c Hc]. destruct (lookup_lt_is_Some_2 refs i) as [ref Href]; [lia|].
    rewrite Hc, Href. constructor; [|done]. exact (Forall2_lookup_lr _ _ _ _ _ _ Hstored Href Hc).
  - destruct (iterate_segments_stored _ _ _ 0 (length (segments l)) Hdir Hok Hr eq_refl) as [r Hit].
    exists r. unfold ChunkReader.segment_seqs. destruct Hr as (-> & _). rewrite length_fmap, length_seq, Hit.
    rewrite drop_0. change (all_infos (segments ([], []))) with ([] : list ChunkReader.ChunkInfo) in Hinfos.
    rewrite app_nil_l in Hinfos. by rewrite <- Hinfos.
Qed.

Lemma chunks_roundtrip_witness :
  ∃ s w refs s' w', open 40 (mkWorld ∅ []) = (Ok s, w) ∧
    write_session [(1, [7; 8]); (1, [9]); (0, [])] (s, w) = (Ok refs, (s', w')) ∧ length refs = 3%nat ∧
    (∀ order : list nat, Forall (λ i, i < 3)%nat order →
      ∃ r, read_refs (files w') (omap (refs !!.) order) (ChunkReader.open (files w')) =
        (Ok ((λ c : chunk, mkPayload c.1 c.2) <$> omap ([(1, [7; 8]); (1, [9]); (0, [])] !!.) order), r)) ∧
    ∃ r, iterate_segments (files w') (ChunkReader.segment_seqs (ChunkReader.open (files w')))
        (ChunkReader.open (files w')) =
      (Ok (zip_with (λ ref c, ChunkReader.mkInfo ref c.1 (zlen c.2)) refs [(1, [7; 8]); (1, [9]); (0, [])]), r).
Proof.
  apply (chunks_roundtrip 40 ∅ [(1, [7; 8]); (1, [9]); (0, [])]).
  - intros name [c Hc]. by rewrite lookup_empty in Hc.
  - lia.
  - apply (bool_decide_unpack _). vm_compute. exact I.
  - vm_compute. reflexivity.
Defined.

(** A segment whose header is wrong is refused once; the bytes stay in the
    cache, and the next read returns them. *)
Example header_checked_once :
  let fs := {[ chunk_path 0 := [0; 0; 0; 0; 1; 0; 0; 0] ++ frame 1 [7] ]} : gmap str (list Z) in
  let '(first, r) := ChunkReader.read fs (mkRef 0 8) (ChunkReader.open fs) in
  first = Err illegal_byte_sequence ∧ fst (ChunkReader.read fs (mkRef 0 8) r) = Ok (mkPayload 1 [7]).
Proof. vm_compute. done. Qed.

(** A length near 2^64 passes the bounds check of [read], which then takes a
    span outside the file. *)
Example length_wraps :
  ChunkReader.parse_chunk (segment_header ++ uvarint_bytes (2 ^ 64 - 5) ++ [1; 0; 0; 0; 0]) 8 = UB.
Proof. vm_compute. done. Qed.

(** Such a length can also send [iterate_segment] back to where it was: the
    loop never ends. *)
Example iteration_loops (fuel : nat) :
  ChunkReader.iterate_loop fuel (segment_header ++ uvarint_bytes (2 ^ 64 - 15) ++ [1; 0; 0; 0; 0]) 0 8 [] = None.
Proof.
  assert (∀ out, ChunkReader.iterate_loop fuel
    (segment_header ++ uvarint_bytes (2 ^ 64 - 15) ++ [1; 0; 0; 0; 0]) 0 8 out = None) as Hloop; [|done].
  induction fuel as [|fuel IH]; intros out; [by vm_compute|]. cbn [ChunkReader.iterate_loop].
  assert (ChunkReader.iterate_step (segment_header ++ uvarint_bytes (2 ^ 64 - 15) ++ [1; 0; 0; 0; 0]) 0 8 =
    Ok (ChunkReader.mkInfo (mkRef 0 8) 1 (2 ^ 64 - 15), 8)) as -> by (vm_compute; reflexivity).
  rewrite IH. by vm_compute.
Qed.

End ChunksProps.
