(* ===== verification/Segment.v ===== *)
(** WAL segments: [include/merlion_tsdb/wal/segment_writer.hpp],
    [src/wal/segment_writer.cpp], [segment_reader.hpp] and
    [segment_reader.cpp].

    The WAL directory is a map from the names of its regular files to their
    bytes. System calls may fail: the world carries a script of what the next
    calls answer, and an exhausted script answers success. *)

From S2P Require Import Prelude Ordered Files Page.

(** * Segment file names *)

Definition k_segment_name_width : nat := 8.
Definition k_default_segment_size : Z := 128 * 1024 * 1024.

(** [snprintf("%08zu")]. *)
Definition format_segment_name (idx : Z) : str := format_padded k_segment_name_width idx.

(** [from_chars] over the whole name: digits only. Both files have a copy. *)
Definition parse_segment_name (name : str) : option Z := parse_padded k_segment_name_width name.

(** * SegmentWriter *)

Module SegmentWriter.

(** [fd_] is the file the descriptor is open on, or [None] for -1. *)
Record t : Type := mk {
  segment_size_ : Z;
  seg_index_ : Z;
  fd_ : option str;
  pw_ : list Z;
  flushed_bytes_ : nat;
}.

(** The operations change the writer and the world, also when they fail. *)
Definition M (A : Type) : Type := rd (t * World) IoError A.

Definition current_segment_path (s : t) : str := format_segment_name (seg_index_ s).

(** [O_TRUNC]: the file exists and is empty afterwards. *)
Definition open_new_segment : M unit := λ '(s, w),
  let path := current_segment_path s in
  let '(ok, w) := sys_ok w in
  if negb ok then (Err Errno, (s, w))
  else
    (Ok tt, (mk (segment_size_ s) (seg_index_ s) (Some path) PageWriter.init 0,
             mkWorld (<[path := []]> (files w)) (script w))).

Definition flush_pending : M unit := λ '(s, w),
  match fd_ s with
  | None => (Ok tt, (s, w))
  | Some fd =>
      let buf := pw_ s in
      if (length buf <=? flushed_bytes_ s)%nat then (Ok tt, (s, w))
      else
        let pending := drop (flushed_bytes_ s) buf in
        match write_all fd pending w with
        | (Some e, w) => (Err e, (s, w))
        | (None, w) => (Ok tt, (mk (segment_size_ s) (seg_index_ s) (fd_ s) buf (length buf), w))
        end
  end.

Definition sync : M unit := λ '(s, w),
  match fd_ s with
  | None => (Ok tt, (s, w))
  | Some _ =>
      (_ <~ flush_pending ;;
       λ '(s, w), let '(ok, w) := sys_ok w in
         if ok : bool then (Ok tt, (s, w)) else (Err Errno, (s, w))) (s, w)
  end.

Definition close_page (s : t) : t :=
  mk (segment_size_ s) (seg_index_ s) (fd_ s) (PageWriter.close_page (pw_ s)) (flushed_bytes_ s).

Definition cut : M unit := λ '(s, w),
  match fd_ s with
  | None => (Ok tt, (s, w))
  | Some _ =>
      (_ <~ flush_pending ;;
       λ '(s, w),
         let '(ok, w) := sys_ok w in
         if negb ok then (Err Errno, (s, w))
         else
           let '(ok, w) := sys_ok w in
           if negb ok then (Err Errno, (s, w))
           else
             open_new_segment
               (mk (segment_size_ s) (seg_index_ s + 1) None (pw_ s) (flushed_bytes_ s), w))
      (close_page s, w)
  end.

Definition framed_size_upper_bound (body_len : Z) : Z :=
  let body_per_page := k_page_size - k_record_header_size in
  let num_fragments := if body_len =? 0 then 1 else (body_len + body_per_page - 1) / body_per_page in
  num_fragments * k_record_header_size + body_len + (k_record_header_size - 1).

(** The rollover decision of [log]. *)
Definition must_cut (body : list Z) (s : t) : bool :=
  let already := Z.of_nat (flushed_bytes_ s) + (Z.of_nat (length (pw_ s)) - Z.of_nat (flushed_bytes_ s)) in
  let upper_bound := framed_size_upper_bound (Z.of_nat (length body)) in
  (0 <? already) && (segment_size_ s <? already + upper_bound).

Definition log (body : list Z) : M unit := λ '(s, w),
  (_ <~ (if must_cut body s then cut else rret tt) ;;
   λ '(s, w), flush_pending
     (mk (segment_size_ s) (seg_index_ s) (fd_ s) (PageWriter.log body (pw_ s)) (flushed_bytes_ s), w)) (s, w).

(** The scan of [open]: one past the highest segment index, or 0. *)
Definition next_index (names : list str) : Z :=
  foldl (λ next name,
    match parse_segment_name name with Some i => Z.max next (i + 1) | None => next end) 0 names.

(** [open]: the directory is created unless it exists. *)
Definition open (segment_size : Z) (w : World) : outcome IoError t * World :=
  let '(ok, w) := enter_dir w in
  if negb ok then (Err Errno, w)
  else
  let idx := next_index (fst <$> map_to_list (files w)) in
  match open_new_segment (mk segment_size idx None PageWriter.init 0, w) with
  | (Ok _, (s, w)) => (Ok s, w)
  | (Err e, (_, w)) => (Err e, w)
  | (UB, (_, w)) => (UB, w)
  end.

(** The destructor: errors are ignored. *)
Definition destroy (s : t) (w : World) : World :=
  match fd_ s with
  | None => w
  | Some _ =>
      let '(_, (s, w)) := flush_pending (s, w) in
      let '(_, w) := sys_ok w in
      let '(_, w) := sys_ok w in
      w
  end.

(** What a move leaves behind; the moved-from buffer is empty. *)
Definition moved_from (other : t) : t := mk (segment_size_ other) (seg_index_ other) None [] 0.

(** The new writer and the old one. *)
Definition move_construct (other : t) : t * t := (other, moved_from other).

(** The file of the target is closed, without a flush. *)
Definition move_assign (s other : t) (w : World) : t * t * World :=
  (other, moved_from other, match fd_ s with None => w | Some _ => snd (sys_ok w) end).

(** [release_fd], for tests: drops what is buffered. *)
Definition release_fd (s : t) : option str * t :=
  (fd_ s, mk (segment_size_ s) (seg_index_ s) None PageWriter.init 0).

End SegmentWriter.

(** * SegmentReader *)

Inductive SegmentReadError : Type :=
| SegEndOfStream
| DirectoryRead
| SegmentOpen
| CorruptMidStream
| SegCrc
| InvalidFraming
| SegUnsupportedCompression.

#[export] Instance SegmentReadError_eq_dec : EqDecision SegmentReadError.
Proof. solve_decision. Defined.

Module SegmentReader.

Record t : Type := mk {
  segment_paths_ : list str;
  current_index_ : nat;
  current_bytes_ : list Z;
  page_reader_ : option PageReader.t;
}.

Definition map_page_error (e : WalReadError) : SegmentReadError :=
  match e with
  | WalEndOfStream | TornRecord => SegEndOfStream
  | CrcMismatch => SegCrc
  | UnsupportedCompression => SegUnsupportedCompression
  | WalUnexpectedEnd | InvalidRecType | UnexpectedFirst | UnexpectedMiddle => InvalidFraming
  end.

(** The reader that [open] makes of the files it finds, sorted by index. *)
Definition open (fs : gmap str (list Z)) : t := mk (listing parse_segment_name fs) 0 [] None.

(** [open] with its checks of the path. *)
Definition open_path (p : Path) (w : World) : outcome error_code t * World :=
  match list_dir p w with
  | (Ok _, w) => (Ok (open (files w)), w)
  | (Err e, w) => (Err e, w)
  | (UB, w) => (UB, w)
  end.

Definition segment_count (r : t) : nat := length (segment_paths_ r).

(** The empty path when the log is exhausted. *)
Definition current_segment_path (r : t) : str := default [] (segment_paths_ r !! current_index_ r).

Definition current_segment_index (r : t) : nat :=
  if (current_index_ r <? length (segment_paths_ r))%nat then current_index_ r else 0%nat.

Definition load_current_segment (fs : gmap str (list Z)) : rd t SegmentReadError unit := λ r,
  match segment_paths_ r !! current_index_ r with
  | None => (UB, r)
  | Some path =>
      match fs !! path with
      | None => (Err SegmentOpen, r)
      | Some bytes => (Ok tt, mk (segment_paths_ r) (current_index_ r) bytes (Some (PageReader.init bytes)))
      end
  end.

(** The [while] loop moves to the next segment in every round that does not
    return, so one round more than there are segments is enough. *)
Fixpoint next_loop (fuel : nat) (fs : gmap str (list Z)) (r : t) : outcome SegmentReadError (list Z) * t :=
  match fuel with
  | O => (UB, r)
  | S fuel =>
      if (current_index_ r <? length (segment_paths_ r))%nat then
        let '(loaded, r) :=
          match page_reader_ r with
          | None => load_current_segment fs r
          | Some _ => (Ok tt, r)
          end in
        match loaded, page_reader_ r with
        | Err e, _ => (Err e, r)
        | Ok _, Some pr =>
            let '(rec, pr) := PageReader.next pr in
            let r := mk (segment_paths_ r) (current_index_ r) (current_bytes_ r) (Some pr) in
            match rec with
            | Ok rec => (Ok rec, r)
            | UB => (UB, r)
            | Err err =>
                let is_last_segment := (current_index_ r + 1 =? length (segment_paths_ r))%nat in
                let advanced := mk (segment_paths_ r) (S (current_index_ r)) (current_bytes_ r) None in
                if bool_decide (err = WalEndOfStream) then next_loop fuel fs advanced
                else if bool_decide (err = TornRecord) && is_last_segment then next_loop fuel fs advanced
                else if bool_decide (err = TornRecord) then (Err CorruptMidStream, r)
                else (Err (map_page_error err), r)
            end
        | _, _ => (UB, r)
        end
      else (Err SegEndOfStream, r)
  end.

Definition next (fs : gmap str (list Z)) : rd t SegmentReadError (list Z) := λ r,
  next_loop (S (length (segment_paths_ r) - current_index_ r)) fs r.

(** A caller reading to the end. *)
Fixpoint read_all (fuel : nat) (fs : gmap str (list Z)) (r : t) : list (list Z) * option SegmentReadError :=
  match fuel with
  | O => ([], None)
  | S fuel =>
      match next fs r with
      | (Ok rec, r) => let '(recs, e) := read_all fuel fs r in (rec :: recs, e)
      | (Err e, _) => ([], Some e)
      | (UB, _) => ([], None)
      end
  end.

End SegmentReader.

(** * Facts *)

Module SegmentFacts.

(** ** Names *)

Lemma seg_parse_format i : 0 <= i < 10 ^ 8 → parse_segment_name (format_segment_name i) = Some i.
Proof. intros Hi. apply FilesFacts.parse_format; [unfold k_segment_name_width; lia|exact Hi]. Qed.

Lemma seg_parse_inv name i :
  parse_segment_name name = Some i → name = format_segment_name i ∧ 0 <= i < 10 ^ 8.
Proof. intros Hp. apply FilesFacts.parse_inv in Hp; [exact Hp|unfold k_segment_name_width; lia]. Qed.

(** ** Listing the directory *)

(** The path of segment [i]. *)
Definition seg_path (i : nat) : str := format_segment_name (Z.of_nat i).

(** The segment files of [fs] are those of the indices below [n]. *)
Definition dir_ok (fs : gmap str (list Z)) (n : nat) : Prop :=
  Z.of_nat n <= 10 ^ 8 ∧
  (∀ i, (i < n)%nat → is_Some (fs !! seg_path i)) ∧
  (∀ name i, is_Some (fs !! name) → parse_segment_name name = Some i → i < Z.of_nat n).

Lemma reader_open fs n :
  dir_ok fs n → SegmentReader.open fs = SegmentReader.mk (seg_path <$> seq 0 n) 0 [] None.
Proof.
  intros (Hn & Hfiles & Hnames). unfold SegmentReader.open. f_equal.
  apply (FilesFacts.listing_eq _ _ _ seg_path Z.of_nat); [| lia|done|].
  - intros i Hi. apply seg_parse_format. lia.
  - intros name i Hin Hparse. specialize (Hnames _ _ Hin Hparse). apply seg_parse_inv in Hparse as [-> Hi].
    exists (Z.to_nat i). unfold seg_path. rewrite Z2Nat.id by lia. split; [lia|done].
Qed.

(** ** Reading segment files *)

(** The error with which the reader of a whole log stops, when the last
    segment stopped with [e]. *)
Definition final_error (e : WalReadError) : SegmentReadError :=
  if bool_decide (e = WalEndOfStream) || bool_decide (e = TornRecord) then SegEndOfStream
  else SegmentReader.map_page_error e.

(** From segment [i] on, the files hold the records [segs]; the last one
    stops with [e], the others end cleanly. *)
Inductive readable (fs : gmap str (list Z)) : nat → list (list (list Z)) → WalReadError → Prop :=
| readable_nil i : readable fs i [] WalEndOfStream
| readable_last i recs c e :
    fs !! seg_path i = Some c →
    PageReader.read_all (S (length recs)) (PageReader.init c) = (recs, Some e) →
    readable fs i [recs] e
| readable_cons i recs c segs e :
    fs !! seg_path i = Some c →
    PageReader.read_all (S (length recs)) (PageReader.init c) = (recs, Some WalEndOfStream) →
    readable fs (S i) segs e →
    readable fs i (recs :: segs) e.

(** The reader inside a segment whose page reader is [pr]. *)
Definition inside (paths : list str) (i : nat) (bytes : list Z) (pr : PageReader.t) : SegmentReader.t :=
  SegmentReader.mk paths i bytes (Some pr).

Lemma next_inside fs paths i bytes pr :
  (i < length paths)%nat →
  SegmentReader.next fs (inside paths i bytes pr) =
    let '(rec, pr') := PageReader.next pr in
    match rec with
    | Ok rec => (Ok rec, inside paths i bytes pr')
    | UB => (UB, inside paths i bytes pr')
    | Err err =>
        if bool_decide (err = WalEndOfStream) || (bool_decide (err = TornRecord) && (i + 1 =? length paths)%nat)
        then SegmentReader.next fs (SegmentReader.mk paths (S i) bytes None)
        else (Err (if bool_decide (err = TornRecord) then CorruptMidStream else SegmentReader.map_page_error err),
              inside paths i bytes pr')
    end.
Proof.
  intros Hi. unfold SegmentReader.next, inside. cbn [SegmentReader.segment_paths_ SegmentReader.current_index_].
  replace (length paths - i)%nat with (S (length paths - S i)) by lia.
  cbn [SegmentReader.next_loop SegmentReader.segment_paths_ SegmentReader.current_index_
    SegmentReader.page_reader_ SegmentReader.current_bytes_].
  destruct (Nat.ltb_spec i (length paths)); [|lia].
  destruct (PageReader.next pr) as [[rec|err|] pr']; [done| |done].
  destruct (bool_decide (err = WalEndOfStream)); [done|].
  destruct (bool_decide (err = TornRecord)); [|done]. by destruct (i + 1 =? length paths)%nat.
Qed.

Lemma next_load fs paths i bytes c :
  paths !! i = Some (seg_path i) → fs !! seg_path i = Some c →
  SegmentReader.next fs (SegmentReader.mk paths i bytes None) =
    SegmentReader.next fs (inside paths i c (PageReader.init c)).
Proof.
  intros Hp Hc. apply lookup_lt_Some in Hp as Hi. unfold SegmentReader.next, inside.
  cbn [SegmentReader.segment_paths_ SegmentReader.current_index_ SegmentReader.next_loop
    SegmentReader.page_reader_ SegmentReader.current_bytes_].
  destruct (Nat.ltb_spec i (length paths)); [|lia].
  unfold SegmentReader.load_current_segment. cbn [SegmentReader.segment_paths_ SegmentReader.current_index_].
  by rewrite Hp, Hc.
Qed.

Lemma read_all_next fuel fs r r' :
  SegmentReader.next fs r = SegmentReader.next fs r' →
  SegmentReader.read_all (S fuel) fs r = SegmentReader.read_all (S fuel) fs r'.
Proof. intros Heq. cbn [SegmentReader.read_all]. by rewrite Heq. Qed.

(** The records of one segment, one after the other. *)
Lemma read_inside fs paths i bytes recs pr e :
  (i < length paths)%nat → PageReader.read_all (S (length recs)) pr = (recs, Some e) →
  ∃ pr', fst (PageReader.next pr') = Err e ∧
    ∀ fuel, SegmentReader.read_all (length recs + fuel) fs (inside paths i bytes pr) =
      let '(rs, e') := SegmentReader.read_all fuel fs (inside paths i bytes pr') in (recs ++ rs, e').
Proof.
  intros Hi. revert pr. induction recs as [|rec recs IH]; intros pr Hread.
  - exists pr. cbn [length PageReader.read_all] in Hread.
    destruct (PageReader.next pr) as [[r|e'|] pr'] eqn:Hnext; simplify_eq/=. split; [done|].
    intros fuel. by destruct (SegmentReader.read_all fuel _ _).
  - cbn [length] in Hread. rewrite PageFacts.read_all_S in Hread.
    destruct (PageReader.next pr) as [[r|e'|] pr1] eqn:Hnext; [|done..].
    destruct (PageReader.read_all (S (length recs)) pr1) as [rs e'] eqn:Hrest.
    injection Hread as -> -> ->. destruct (IH pr1 Hrest) as (pr' & Hend & Hall).
    exists pr'. split; [done|]. intros fuel. cbn [length Nat.add SegmentReader.read_all].
    rewrite next_inside, Hnext by done. rewrite Hall. by destruct (SegmentReader.read_all fuel _ _).
Qed.

Lemma next_exhausted fs paths i bytes pr :
  (length paths <= i)%nat →
  SegmentReader.next fs (SegmentReader.mk paths i bytes pr) =
    (Err SegEndOfStream, SegmentReader.mk paths i bytes pr).
Proof.
  intros Hi. unfold SegmentReader.next. cbn [SegmentReader.next_loop SegmentReader.segment_paths_ SegmentReader.current_index_].
  by destruct (Nat.ltb_spec i (length paths)); [lia|].
Qed.

Lemma read_segments fs n i segs e bytes :
  readable fs i segs e → (i + length segs = n)%nat →
  SegmentReader.read_all (S (length (concat segs))) fs (SegmentReader.mk (seg_path <$> seq 0 n) i bytes None) =
    (concat segs, Some (final_error e)).
Proof.
  intros Hread. revert bytes. set (paths := seg_path <$> seq 0 n).
  assert (length paths = n) as Hlen by (unfold paths; by rewrite length_fmap, length_seq).
  assert (∀ j, (j < n)%nat → paths !! j = Some (seg_path j)) as Hpaths.
  { intros j Hj. unfold paths. rewrite list_lookup_fmap, lookup_seq_lt by done. done. }
  induction Hread as [i|i recs c e Hc Hrecs|i recs c segs e Hc Hrecs Hsegs IH]; intros bytes Hn; cbn [length] in Hn.
  - cbn [concat length SegmentReader.read_all]. rewrite next_exhausted by (cbn [length] in Hn; lia). done.
  - cbn [concat]. rewrite app_nil_r.
    rewrite (read_all_next _ _ _ _ (next_load fs paths i bytes c (Hpaths i ltac:(lia)) Hc)).
    destruct (read_inside fs paths i c recs _ e ltac:(lia) Hrecs) as (pr' & Hend & Hall).
    rewrite <- Nat.add_1_r, Hall. cbn [SegmentReader.read_all]. rewrite next_inside by lia.
    destruct (PageReader.next pr') as [o pr'']. cbn [fst] in Hend. subst o. unfold final_error.
    assert ((i + 1 =? length paths)%nat = true) as -> by lia. rewrite andb_true_r.
    rewrite next_exhausted by lia.
    destruct (bool_decide (e = WalEndOfStream)), (bool_decide (e = TornRecord)) eqn:Ht; cbn [orb];
      by rewrite ?Ht, app_nil_r.
  - cbn [concat]. rewrite length_app.
    rewrite (read_all_next _ _ _ _ (next_load fs paths i bytes c (Hpaths i ltac:(lia)) Hc)).
    destruct (read_inside fs paths i c recs _ _ ltac:(lia) Hrecs) as (pr' & Hend & Hall).
    rewrite <- Nat.add_succ_r, Hall.
    assert (SegmentReader.next fs (inside paths i c pr') =
      SegmentReader.next fs (SegmentReader.mk paths (S i) c None)) as Hnext.
    { rewrite next_inside by lia. destruct (PageReader.next pr') as [o pr'']. cbn [fst] in Hend. by subst o. }
    rewrite (read_all_next _ _ _ _ Hnext), IH by lia. done.
Qed.

(** ** The writer when no system call fails *)

Import SegmentWriter.

Lemma write_all_done name data fs :
  write_all name data (mkWorld fs []) =
    (None, if decide (data = []) then mkWorld fs [] else append_file name data (mkWorld fs [])).
Proof. by destruct data. Qed.

(** A writer that has flushed everything to segment [idx]. *)
Definition flushed (size idx : Z) (pw : list Z) : t :=
  mk size idx (Some (format_segment_name idx)) pw (length pw).

Lemma flush_eq size idx name pw pad fs :
  fs !! name = Some pw →
  flush_pending (mk size idx (Some name) (pw ++ pad) (length pw), mkWorld fs []) =
    (Ok tt, (mk size idx (Some name) (pw ++ pad) (length (pw ++ pad)), mkWorld (<[name := pw ++ pad]> fs) [])).
Proof.
  intros Hfs. unfold flush_pending. cbn [fd_ pw_ flushed_bytes_ segment_size_ seg_index_].
  destruct (Nat.leb_spec (length (pw ++ pad)) (length pw)) as [Hle|Hlt]; rewrite length_app in *.
  - destruct pad; [|simpl in Hle; lia]. rewrite app_nil_r, Nat.add_0_r. by rewrite insert_id.
  - rewrite drop_app_length, write_all_done. destruct (decide (pad = [])) as [->|]; [simpl in Hlt; lia|].
    unfold append_file. cbn [files script]. by rewrite Hfs.
Qed.

Lemma open_new_eq size idx fd pw fl fs :
  open_new_segment (mk size idx fd pw fl, mkWorld fs []) =
    (Ok tt, (flushed size idx [], mkWorld (<[format_segment_name idx := []]> fs) [])).
Proof. done. Qed.

Lemma close_page_app pw : ∃ pad, PageWriter.close_page pw = pw ++ pad.
Proof.
  unfold PageWriter.close_page. destruct (_ =? 0); [exists []; by rewrite app_nil_r|by eexists].
Qed.

Lemma close_page_pads pw :
  ∃ n, PageWriter.close_page pw = pw ++ replicate n 0 ∧
    Z.of_nat n < k_page_size ∧ (Z.of_nat (length pw) + Z.of_nat n) mod k_page_size = 0.
Proof.
  unfold PageWriter.close_page, PageWriter.page_offset. pose proof (Z.mod_pos_bound (Z.of_nat (length pw)) k_page_size eq_refl).
  destruct (Z.eqb_spec (Z.of_nat (length pw) mod k_page_size) 0) as [Hz|Hz].
  - exists 0%nat. cbn [replicate]. rewrite app_nil_r, Z.add_0_r. done.
  - eexists. split; [done|]. rewrite Z2Nat.id by lia. split; [lia|]. unfold k_page_size in *.
    Z.to_euclidean_division_equations; lia.
Qed.

Lemma log_page_app body pw :
  bytes_ok body → body = [] ∨ PageWriter.page_offset pw ≠ k_page_size - k_record_header_size →
  ∃ tail, PageWriter.log body pw = pw ++ tail.
Proof. intros Hb Hroom. destruct (PageFacts.log_framed body pw Hb Hroom) as (tail & ? & _). eauto. Qed.

Lemma cut_eq size idx pw fs :
  fs !! format_segment_name idx = Some pw →
  cut (flushed size idx pw, mkWorld fs []) =
    (Ok tt, (flushed size (idx + 1) [],
      mkWorld (<[format_segment_name (idx + 1) := []]> (<[format_segment_name idx := PageWriter.close_page pw]> fs)) [])).
Proof.
  intros Hfs. unfold cut, flushed, close_page. cbn [fd_ pw_ flushed_bytes_ segment_size_ seg_index_].
  destruct (close_page_app pw) as [pad ->]. by rewrite (rbind_ok _ _ _ _ _ (flush_eq _ _ _ _ _ _ Hfs)).
Qed.

(** The rollover decision of a flushed writer. *)
Definition cut_now (size : Z) (pw body : list Z) : bool :=
  (0 <? Z.of_nat (length pw)) &&
  (size <? Z.of_nat (length pw) + framed_size_upper_bound (Z.of_nat (length body))).

Lemma log_eq size idx pw fs body :
  fs !! format_segment_name idx = Some pw → bytes_ok body →
  body = [] ∨ PageWriter.page_offset (if cut_now size pw body then [] else pw) ≠ k_page_size - k_record_header_size →
  log body (flushed size idx pw, mkWorld fs []) =
    if cut_now size pw body then
      (Ok tt, (flushed size (idx + 1) (PageWriter.log body []),
        mkWorld (<[format_segment_name (idx + 1) := PageWriter.log body []]>
          (<[format_segment_name idx := PageWriter.close_page pw]> fs)) []))
    else
      (Ok tt, (flushed size idx (PageWriter.log body pw),
        mkWorld (<[format_segment_name idx := PageWriter.log body pw]> fs) [])).
Proof.
  intros Hfs Hb Hroom. unfold log. assert (must_cut body (flushed size idx pw) = cut_now size pw body) as ->.
  { unfold must_cut, cut_now. cbn [flushed flushed_bytes_ pw_ segment_size_].
    by replace (Z.of_nat (length pw) + (Z.of_nat (length pw) - Z.of_nat (length pw))) with (Z.of_nat (length pw)) by lia. }
  destruct (cut_now size pw body).
  - rewrite (rbind_ok _ _ _ _ _ (cut_eq size idx pw fs Hfs)).
    unfold flushed. cbn [fd_ pw_ flushed_bytes_ segment_size_ seg_index_].
    destruct (log_page_app body [] Hb Hroom) as [tail ->]. cbn [app].
    epose proof (flush_eq size (idx + 1) (format_segment_name (idx + 1)) [] tail _ (lookup_insert_eq _ _ _)) as Hflush.
    cbn [app length] in Hflush. rewrite Hflush. by rewrite insert_insert_eq.
  - unfold rbind, rret. unfold flushed. cbn [fd_ pw_ flushed_bytes_ segment_size_ seg_index_].
    destruct (log_page_app body pw Hb Hroom) as [tail ->]. by rewrite flush_eq.
Qed.

(** ** The log as a list of segments *)

Definition seg_content (recs : list (list Z)) (c : list Z) : Prop :=
  PageFacts.logs_ok [] recs ∧
  (c = PageFacts.log_all recs [] ∨ c = PageWriter.close_page (PageFacts.log_all recs [])).

(** The directory [fs] holds the records [segs], segment by segment. *)
Definition represents (fs : gmap str (list Z)) (segs : list (list (list Z))) : Prop :=
  dir_ok fs (length segs) ∧
  ∀ i recs, segs !! i = Some recs → ∃ c, fs !! seg_path i = Some c ∧ seg_content recs c.

Lemma represents_readable fs segs i :
  (∀ j recs, segs !! j = Some recs → ∃ c, fs !! seg_path (i + j) = Some c ∧ seg_content recs c) →
  readable fs i segs WalEndOfStream.
Proof.
  revert i. induction segs as [|recs segs IH]; intros i Hsegs; [constructor|].
  destruct (Hsegs 0%nat recs eq_refl) as (c & Hc & Hok & Hcontent). rewrite Nat.add_0_r in Hc.
  destruct (PageFacts.log_all_read recs Hok) as [H1 H2].
  apply readable_cons with c; [done|by destruct Hcontent as [->| ->]|].
  apply IH. intros j recs' Hj. replace (S i + j)%nat with (i + S j)%nat by lia. by apply Hsegs.
Qed.

Lemma read_represents fs segs :
  represents fs segs →
  SegmentReader.read_all (S (length (concat segs))) fs (SegmentReader.open fs) = (concat segs, Some SegEndOfStream).
Proof.
  intros [Hdir Hsegs]. rewrite (reader_open _ _ Hdir).
  by rewrite (read_segments fs _ 0 segs WalEndOfStream []) by (done || by apply represents_readable).
Qed.

Lemma seg_path_inj i j : Z.of_nat i < 10 ^ 8 → Z.of_nat j < 10 ^ 8 → seg_path i = seg_path j → i = j.
Proof.
  intros Hi Hj Heq. apply (f_equal parse_segment_name) in Heq. unfold seg_path in Heq.
  rewrite !seg_parse_format in Heq by lia. injection Heq. lia.
Qed.

Lemma dir_ok_insert fs n i c :
  dir_ok fs n → (i < n)%nat ∨ (i = n ∧ Z.of_nat n < 10 ^ 8) →
  dir_ok (<[seg_path i := c]> fs) (Nat.max n (S i)).
Proof.
  intros (Hn & Hfiles & Hnames) Hi. split_and!; [lia| |].
  - intros j Hj. destruct (decide (seg_path i = seg_path j)) as [->|Hne]; [rewrite lookup_insert_eq; eauto|].
    rewrite lookup_insert_ne by done. apply Hfiles. assert (j ≠ i) by (by intros ->). lia.
  - intros name j Hname Hparse. destruct (decide (seg_path i = name)) as [<-|Hne].
    + unfold seg_path in Hparse. rewrite seg_parse_format in Hparse by lia. injection Hparse. lia.
    + rewrite lookup_insert_ne in Hname by done. specialize (Hnames name j Hname Hparse). lia.
Qed.

(** The state between two calls of [log]: [segs] are closed, [cur] is the
    segment being written. *)
Definition writing (size : Z) (segs : list (list (list Z))) (cur : list (list Z)) (st : t * World) : Prop :=
  ∃ fs, st = (flushed size (Z.of_nat (length segs)) (PageFacts.log_all cur []), mkWorld fs []) ∧
    represents fs (segs ++ [cur]) ∧ fs !! seg_path (length segs) = Some (PageFacts.log_all cur []) ∧
    PageFacts.logs_ok [] cur.

(** [segs'] is [segs] with the records of segment [i] replaced, or added. *)
Lemma represents_set fs segs segs' i c :
  represents fs segs →
  (i < length segs)%nat ∨ (i = length segs ∧ Z.of_nat i < 10 ^ 8) →
  length segs' = Nat.max (length segs) (S i) →
  (∀ j recs, j ≠ i → segs' !! j = Some recs → segs !! j = Some recs) →
  (∀ recs, segs' !! i = Some recs → seg_content recs c) →
  represents (<[seg_path i := c]> fs) segs'.
Proof.
  intros [Hdir Hsegs] Hi Hlen Hother Hthis. split.
  { rewrite Hlen. apply dir_ok_insert; [done|]. destruct Hi as [Hi|[-> Hi]]; [by left|by right]. }
  intros j recs Hj. apply lookup_lt_Some in Hj as Hlt. destruct Hdir as [Hn _].
  destruct (decide (j = i)) as [->|Hne]; [exists c; rewrite lookup_insert_eq; eauto|].
  rewrite lookup_insert_ne; [by apply Hsegs, Hother|].
  intros Heq%seg_path_inj; [done|lia..].
Qed.

Lemma represents_current fs segs cur cur' c :
  represents fs (segs ++ [cur]) → seg_content cur' c →
  represents (<[seg_path (length segs) := c]> fs) (segs ++ [cur']).
Proof.
  intros Hrep Hc. apply (represents_set _ _ _ _ _ Hrep).
  - left. rewrite length_app. simpl. lia.
  - rewrite !length_app. simpl. lia.
  - intros j recs Hj Hl. apply lookup_lt_Some in Hl as Hlt. rewrite length_app in Hlt. simpl in Hlt.
    rewrite lookup_app_l in Hl |- * by lia. done.
  - intros recs Hl. rewrite list_lookup_middle in Hl by done. by injection Hl as <-.
Qed.

Lemma represents_added fs segs cur c :
  represents fs segs → Z.of_nat (length segs) < 10 ^ 8 → seg_content cur c →
  represents (<[seg_path (length segs) := c]> fs) (segs ++ [cur]).
Proof.
  intros Hrep Hlt Hc. apply (represents_set _ _ _ _ _ Hrep).
  - by right.
  - rewrite length_app. simpl. lia.
  - intros j recs Hj Hl. apply lookup_lt_Some in Hl as Hj'. rewrite length_app in Hj'. simpl in Hj'.
    rewrite lookup_app_l in Hl by lia. done.
  - intros recs Hl. rewrite list_lookup_middle in Hl by done. by injection Hl as <-.
Qed.

Lemma next_index_bounds names v n :
  let next := foldl (λ next name,
    match parse_segment_name name with Some i => Z.max next (i + 1) | None => next end) v names in
  v <= next ∧
  (∀ name i, name ∈ names → parse_segment_name name = Some i → i + 1 <= next) ∧
  (v <= n → (∀ name i, name ∈ names → parse_segment_name name = Some i → i + 1 <= n) → next <= n).
Proof.
  revert v. induction names as [|name names IH]; intros v; simpl.
  { split_and!; [lia|by intros ? ? ?%elem_of_nil|done]. }
  destruct (IH (match parse_segment_name name with Some i => Z.max v (i + 1) | None => v end))
    as (Hlo & Hin & Hhi). split_and!.
  - destruct (parse_segment_name name); lia.
  - intros name' i [->|Hname]%elem_of_cons Hparse; [rewrite Hparse in Hlo |- *; lia|eauto].
  - intros Hv Hall. apply Hhi; [|intros name' i Hname; apply Hall; by right].
    destruct (parse_segment_name name) as [i|] eqn:Hparse; [|done].
    specialize (Hall name i ltac:(by left) Hparse). lia.
Qed.

Lemma next_index_dir fs n : dir_ok fs n → next_index (fst <$> map_to_list fs) = Z.of_nat n.
Proof.
  intros (Hn & Hfiles & Hnames).
  destruct (next_index_bounds (fst <$> map_to_list fs) 0 (Z.of_nat n)) as (Hlo & Hin & Hhi).
  fold (next_index (fst <$> map_to_list fs)) in *. apply Z.le_antisymm.
  - apply Hhi; [lia|]. intros name i Hname%FilesFacts.names_elem Hparse. specialize (Hnames _ _ Hname Hparse). lia.
  - destruct n as [|n]; [done|]. specialize (Hin (seg_path n) (Z.of_nat n)).
    rewrite FilesFacts.names_elem in Hin. unfold seg_path at 2 in Hin. rewrite seg_parse_format in Hin by lia.
    specialize (Hin (Hfiles n ltac:(lia)) eq_refl). lia.
Qed.

(** ** A writing session *)

Lemma content_flushed cur : PageFacts.logs_ok [] cur → seg_content cur (PageFacts.log_all cur []).
Proof. intros Hok. split; [done|by left]. Qed.

Lemma open_writing size fs segs :
  represents fs segs → Z.of_nat (length segs) < 10 ^ 8 →
  ∃ s w, open size (mkWorld fs []) = (Ok s, w) ∧ writing size segs [] (s, w).
Proof.
  intros Hrep Hlt. pose proof Hrep as [Hdir _]. unfold open. rewrite FilesFacts.enter_dir_calm. cbn [negb files].
  rewrite (next_index_dir _ _ Hdir), open_new_eq. do 2 eexists. split; [done|].
  eexists. split_and!; [done| |by rewrite lookup_insert_eq|done].
  by apply represents_added, content_flushed.
Qed.

(** The closed segments and the current one after [log body]. *)
Definition log_step (size : Z) (log : list (list (list Z)) * list (list Z)) (body : list Z) :
    list (list (list Z)) * list (list Z) :=
  let '(segs, cur) := log in
  if cut_now size (PageFacts.log_all cur []) body then (segs ++ [cur], [body]) else (segs, cur ++ [body]).

(** Every segment of the session satisfies the condition of [page_log_roundtrip],
    and there are at most 10^8 of them. *)
Fixpoint session_ok (size : Z) (log : list (list (list Z)) * list (list Z)) (bodies : list (list Z)) : Prop :=
  match bodies with
  | [] => True
  | body :: bodies =>
      let log := log_step size log body in
      PageFacts.logs_ok [] (snd log) ∧ Z.of_nat (length (fst log)) < 10 ^ 8 ∧ session_ok size log bodies
  end.

#[export] Instance logs_ok_dec buf recs : Decision (PageFacts.logs_ok buf recs).
Proof. revert buf. induction recs; intros buf; simpl; [apply _|]. unfold bytes_ok. apply _. Defined.

#[export] Instance session_ok_dec size log bodies : Decision (session_ok size log bodies).
Proof. revert log. induction bodies; intros log; simpl; apply _. Defined.

Lemma log_writing size segs cur st body :
  writing size segs cur st →
  let '(segs', cur') := log_step size (segs, cur) body in
  PageFacts.logs_ok [] cur' → Z.of_nat (length segs') < 10 ^ 8 →
  ∃ st', log body st = (Ok tt, st') ∧ writing size segs' cur' st'.
Proof.
  intros (fs & -> & Hrep & Hcur & Hok). unfold log_step.
  destruct (cut_now size (PageFacts.log_all cur []) body) eqn:Hcut; intros Hok' Hlen.
  - destruct (PageFacts.logs_ok_snoc [] body [] Hok') as (_ & Hb & Hroom).
    rewrite log_eq by (done || by rewrite Hcut). rewrite Hcut.
    replace (Z.of_nat (length segs) + 1) with (Z.of_nat (length (segs ++ [cur])))
      by (rewrite length_app; cbn [length]; lia).
    eexists. split; [done|]. eexists. split_and!; [done| |apply lookup_insert_eq|done].
    apply represents_added; [|done|by apply (content_flushed [body])].
    apply (represents_current _ _ _ _ _ Hrep). split; [done|by right].
  - destruct (PageFacts.logs_ok_snoc cur body [] Hok') as (_ & Hb & Hroom).
    rewrite log_eq by (done || by rewrite Hcut). rewrite Hcut.
    eexists. split; [done|]. eexists. rewrite PageFacts.log_all_snoc. split_and!; [done| |apply lookup_insert_eq|done].
    apply (represents_current _ _ _ _ _ Hrep). split; [done|]. left. by rewrite PageFacts.log_all_snoc.
Qed.

(** Logging bodies in order, up to the first failure. *)
Fixpoint log_bodies (bodies : list (list Z)) : M unit :=
  match bodies with
  | [] => rret tt
  | body :: bodies => _ <~ log body ;; log_bodies bodies
  end.

Lemma log_bodies_writing size bodies segs cur st :
  writing size segs cur st → session_ok size (segs, cur) bodies →
  let '(segs', cur') := foldl (log_step size) (segs, cur) bodies in
  ∃ st', log_bodies bodies st = (Ok tt, st') ∧ writing size segs' cur' st'.
Proof.
  revert segs cur st. induction bodies as [|body bodies IH]; intros segs cur st Hw Hok.
  { exists st. done. }
  cbn [session_ok] in Hok. destruct Hok as (Hlogs & Hlen & Hok).
  pose proof (log_writing size segs cur st body Hw) as Hstep.
  cbn [foldl log_bodies]. destruct (log_step size (segs, cur) body) as [segs1 cur1].
  destruct (Hstep Hlogs Hlen) as (st1 & Hlog & Hw1). specialize (IH _ _ _ Hw1 Hok).
  destruct (foldl (log_step size) (segs1, cur1) bodies) as [segs2 cur2].
  destruct IH as (st2 & Hrest & Hw2). exists st2. split; [|done].
  by rewrite (rbind_ok _ _ _ _ _ Hlog).
Qed.

Lemma log_steps_concat size bodies segs cur :
  let '(segs', cur') := foldl (log_step size) (segs, cur) bodies in
  concat (segs' ++ [cur']) = concat (segs ++ [cur]) ++ bodies.
Proof.
  revert segs cur. induction bodies as [|body bodies IH]; intros segs cur; cbn [foldl].
  { by rewrite app_nil_r. }
  specialize (IH (fst (log_step size (segs, cur) body)) (snd (log_step size (segs, cur) body))).
  rewrite <- surjective_pairing in IH.
  destruct (foldl (log_step size) (log_step size (segs, cur) body) bodies) as [segs2 cur2]. rewrite IH.
  unfold log_step. destruct (cut_now _ _ _); cbn [fst snd];
    rewrite !concat_app; cbn [concat]; rewrite ?app_nil_r, <- ?app_assoc; done.
Qed.

(** What is closed stays closed. *)
Lemma log_steps_closed size bodies segs cur : segs `prefix_of` fst (foldl (log_step size) (segs, cur) bodies).
Proof.
  revert segs cur. induction bodies as [|body bodies IH]; intros segs cur; cbn [foldl]; [done|].
  unfold log_step at 2. destruct (cut_now _ _ _); [|apply IH]. etrans; [|apply IH]. by apply prefix_app_r.
Qed.

Lemma destroy_writing size segs cur s w : writing size segs cur (s, w) → destroy s w = w.
Proof.
  intros (fs & [= -> ->] & _ & Hcur & _). unfold destroy, flushed. cbn [fd_].
  epose proof (flush_eq size _ _ _ [] fs Hcur) as Hflush. rewrite app_nil_r in Hflush.
  rewrite Hflush. cbn [sys_ok sys script]. by rewrite insert_id.
Qed.

Lemma sync_writing size segs cur s w : writing size segs cur (s, w) → sync (s, w) = (Ok tt, (s, w)).
Proof.
  intros (fs & [= -> ->] & _ & Hcur & _). unfold sync, flushed. cbn [fd_].
  epose proof (flush_eq size _ _ _ [] fs Hcur) as Hflush. rewrite app_nil_r in Hflush.
  rewrite (rbind_ok _ _ _ _ _ Hflush). cbn [sys_ok sys script]. by rewrite insert_id.
Qed.

Lemma cut_writing size segs cur st :
  writing size segs cur st → Z.of_nat (S (length segs)) < 10 ^ 8 →
  ∃ st', cut st = (Ok tt, st') ∧ writing size (segs ++ [cur]) [] st'.
Proof.
  intros (fs & -> & Hrep & Hcur & Hok) Hlen. rewrite (cut_eq _ _ _ _ Hcur).
  replace (Z.of_nat (length segs) + 1) with (Z.of_nat (length (segs ++ [cur])))
    by (rewrite length_app; cbn [length]; lia).
  eexists. split; [done|]. eexists. split_and!; [done| |apply lookup_insert_eq|done].
  apply represents_added; [|rewrite length_app; cbn [length]; lia|by apply content_flushed].
  apply (represents_current _ _ _ _ _ Hrep). split; [done|by right].
Qed.

Lemma session_ok_app size log a b :
  session_ok size log (a ++ b) ↔ session_ok size log a ∧ session_ok size (foldl (log_step size) log a) b.
Proof. revert log. induction a as [|x a IH]; intros log; cbn [app session_ok foldl]; [tauto|]. rewrite IH. tauto. Qed.

(** The life of one writer: open, log some records, destroy. *)
Definition session (size : Z) (bodies : list (list Z)) (w : World) : outcome IoError unit * World :=
  match open size w with
  | (Ok s, w) => let '(o, (s, w)) := log_bodies bodies (s, w) in (o, destroy s w)
  | (Err e, w) => (Err e, w)
  | (UB, w) => (UB, w)
  end.

Lemma represents_empty : represents ∅ [].
Proof.
  split; [|by intros i recs Hi; rewrite lookup_nil in Hi]. split_and!; [done|simpl; lia|].
  intros name i [c Hc]. by rewrite lookup_empty in Hc.
Qed.

(** ** A cut-off segment *)

Lemma page_read_short fuel pr kept e :
  PageReader.read_all fuel pr = (kept, Some e) → PageReader.read_all (S (length kept)) pr = (kept, Some e).
Proof.
  revert pr kept. induction fuel as [|fuel IH]; intros pr kept; [done|]. cbn [PageReader.read_all].
  destruct (PageReader.next pr) as [[rec|e'|] pr'] eqn:Hnext; [|by intros [= <- <-]|done].
  destruct (PageReader.read_all fuel pr') as [recs e'] eqn:Hrest. intros [= <- ->].
  apply IH in Hrest. cbn [length]. by rewrite Hrest.
Qed.

Lemma readable_app fs i segs recs c e :
  (∀ j recs, segs !! j = Some recs → ∃ c, fs !! seg_path (i + j) = Some c ∧ seg_content recs c) →
  fs !! seg_path (i + length segs) = Some c →
  PageReader.read_all (S (length recs)) (PageReader.init c) = (recs, Some e) →
  readable fs i (segs ++ [recs]) e.
Proof.
  revert i. induction segs as [|recs' segs IH]; intros i Hsegs Hc Hread.
  { rewrite Nat.add_0_r in Hc. by apply readable_last with c. }
  destruct (Hsegs 0%nat recs' eq_refl) as (c' & Hc' & Hok & Hcontent). rewrite Nat.add_0_r in Hc'.
  destruct (PageFacts.log_all_read recs' Hok) as [H1 H2].
  apply readable_cons with c'; [done|by destruct Hcontent as [->| ->]|].
  cbn [length] in Hc. rewrite Nat.add_succ_r in Hc. apply IH; [|done|done].
  intros j recs'' Hj. replace (S i + j)%nat with (i + S j)%nat by lia. by apply Hsegs.
Qed.

(** The current segment replaced by a file from which [recs] can be read. *)
Lemma read_torn fs segs cur c recs e :
  represents fs (segs ++ [cur]) → PageReader.read_all (S (length recs)) (PageReader.init c) = (recs, Some e) →
  let fs' := <[seg_path (length segs) := c]> fs in
  SegmentReader.read_all (S (length (concat segs ++ recs))) fs' (SegmentReader.open fs') = (concat segs ++ recs, Some (final_error e)).
Proof.
  intros [Hdir Hsegs] Hread fs'. assert (dir_ok fs' (length (segs ++ [recs]))) as Hdir'.
  { pose proof (dir_ok_insert fs _ (length segs) c Hdir) as Hins.
    rewrite !length_app in *. cbn [length] in *. rewrite Nat.max_l in Hins by lia. apply Hins. left. lia. }
  rewrite (reader_open _ _ Hdir'). replace (concat segs ++ recs) with (concat (segs ++ [recs]))
    by (rewrite concat_app; cbn [concat]; by rewrite app_nil_r).
  apply read_segments; [|done]. destruct Hdir as [Hn _]. rewrite length_app in Hn. cbn [length] in Hn.
  apply readable_app with c; [|apply lookup_insert_eq|done].
  intros j recs' Hj. apply lookup_lt_Some in Hj as Hlt. unfold fs'. cbn [Nat.add].
  rewrite lookup_insert_ne by (intros Heq%seg_path_inj; lia).
  apply Hsegs. rewrite lookup_app_l by lia. done.
Qed.

Lemma final_cut_error e : PageFacts.cut_error e → final_error e = SegEndOfStream ∨ final_error e = InvalidFraming.
Proof. intros [->|[->| ->]]; cbv; auto. Qed.

Lemma read_cut fs segs cur k :
  represents fs (segs ++ [cur]) →
  PageFacts.logs_ok [] cur →
  let fs' := <[seg_path (length segs) := take k (PageFacts.log_all cur [])]> fs in
  ∃ kept lost e,
    cur = kept ++ lost ∧ (e = SegEndOfStream ∨ e = InvalidFraming) ∧
    (length (PageFacts.log_all cur []) <= k → lost = [])%nat ∧
    SegmentReader.read_all (S (length (concat segs ++ kept))) fs' (SegmentReader.open fs') =
      (concat segs ++ kept, Some e).
Proof.
  intros Hrep Hok fs'. destruct (PageFacts.log_all_cut cur k Hok) as (kept & lost & e & Hcur & Hread & Hcut & Hk).
  exists kept, lost, (final_error e). split_and!; [done|by apply final_cut_error|done|].
  apply (read_torn fs segs cur); [done|]. by apply page_read_short in Hread.
Qed.

(** ** [write_all] *)

Lemma append_append name a b w fs :
  files w = fs → append_file name b (append_file name a w) = append_file name (a ++ b) w.
Proof.
  intros <-. unfold append_file. cbn [files script]. rewrite lookup_insert_eq. cbn [default].
  by rewrite insert_insert_eq, app_assoc.
Qed.

(** No answer is an error. *)
Definition no_failure (w : World) : Prop := (Failed ∉ script w) ∧ (Wrote 0 ∉ script w).

(** The result of a call of [write_all_loop] on [data], started with the
    contents [c]. *)
Definition writes (fuel : nat) (name : str) (data c : list Z) (w : World) : Prop :=
  let '(e, w') := write_all_loop fuel name data w in
  ∃ n, (n <= length data)%nat ∧ files w' = <[name := c ++ take n data]> (files w) ∧
    (e = None ↔ n = length data) ∧ (no_failure w → e = None).

(** After [n] bytes have been written, the rest of the loop. *)
Lemma writes_more fuel name data c n w w1 :
  files w !! name = Some c → files w1 = files w → (no_failure w → no_failure w1) →
  writes fuel name (drop n data) (c ++ take n data) (append_file name (take n data) w1) →
  let '(e, w') := write_all_loop fuel name (drop n data) (append_file name (take n data) w1) in
  ∃ m, (m <= length data)%nat ∧ files w' = <[name := c ++ take m data]> (files w) ∧
    (e = None ↔ m = length data) ∧ (no_failure w → e = None).
Proof.
  intros Hc Hfiles Hno1. unfold writes. destruct (write_all_loop fuel name _ _) as [e w'].
  intros (m & Hm & Hfiles' & Hnone & Hno).
  rewrite length_drop in *. exists (Nat.min n (length data) + m)%nat. split_and!; [lia| | |].
  - rewrite Hfiles'. unfold append_file. cbn [files]. rewrite insert_insert_eq, Hfiles. f_equal.
    rewrite <- app_assoc. f_equal. destruct (decide (n <= length data)%nat).
    + rewrite Nat.min_l by done. apply take_take_drop.
    + rewrite Nat.min_r by lia. rewrite (take_ge data n), drop_ge by lia.
      rewrite take_nil, app_nil_r, take_ge by lia. done.
  - rewrite Hnone. lia.
  - intros Hw. apply Hno. destruct (Hno1 Hw). by split.
Qed.

Lemma write_all_loop_spec fuel name data w c :
  files w !! name = Some c → (length (script w) + 2 <= fuel)%nat → writes fuel name data c w.
Proof.
  revert data w c. induction fuel as [|fuel IH]; intros data w c Hc Hfuel; [lia|]. unfold writes. cbn [write_all_loop].
  destruct data as [|b data].
  { exists 0%nat. cbn [length take]. rewrite app_nil_r, insert_id by done. split_and!; done || lia. }
  assert (∀ n w1, files w1 = files w → (length (script w1) + 2 <= fuel)%nat → (no_failure w → no_failure w1) →
    let '(e, w') := write_all_loop fuel name (drop n (b :: data)) (append_file name (take n (b :: data)) w1) in
    ∃ m, (m <= length (b :: data))%nat ∧ files w' = <[name := c ++ take m (b :: data)]> (files w) ∧
      (e = None ↔ m = length (b :: data)) ∧ (no_failure w → e = None)) as Hmore.
  { intros n w1 Hfiles Hfuel1 Hno1. apply writes_more; [done..|]. apply IH; [|done].
    unfold append_file. cbn [files]. by rewrite lookup_insert_eq, Hfiles, Hc. }
  unfold sys. destruct (script w) as [|r rs] eqn:Hscript.
  - specialize (Hmore (length (b :: data)) w eq_refl). rewrite drop_all, firstn_all, Hscript in Hmore.
    destruct fuel; [cbn [length] in *; lia|].
    exists (length (b :: data)). split_and!; [lia| |done|done].
    cbn [write_all_loop append_file files]. by rewrite Hc, firstn_all.
  - assert (no_failure w → no_failure (mkWorld (files w) rs)) as Hno.
    { unfold no_failure. rewrite Hscript. cbn [script]. rewrite !not_elem_of_cons. tauto. }
    cbn [length] in Hfuel. destruct r as [|[|n]| |].
    + destruct fuel; [lia|]. exists (length (b :: data)). split_and!; [lia| |done|done].
      cbn [write_all_loop append_file files]. by rewrite Hc, firstn_all.
    + exists 0%nat. cbn [take files]. rewrite app_nil_r, insert_id by done.
      split_and!; [lia|done|done|]. intros [_ Hz]. rewrite Hscript in Hz. destruct Hz. by left.
    + apply (Hmore (S n) (mkWorld (files w) rs)); [done|cbn [script]; lia|done].
    + specialize (Hmore 0%nat (mkWorld (files w) rs) eq_refl). cbn [drop take script] in Hmore.
      assert (append_file name [] (mkWorld (files w) rs) = mkWorld (files w) rs) as Hid
        by (unfold append_file; cbn [files script]; by rewrite Hc, app_nil_r, insert_id).
      rewrite Hid in Hmore. apply Hmore; [lia|done].
    + exists 0%nat. cbn [take files]. rewrite app_nil_r, insert_id by done.
      split_and!; [lia|done|done|]. intros [Hz _]. rewrite Hscript in Hz. destruct Hz. by left.
Qed.

(** ** Reading any directory *)

Definition file_size (fs : gmap str (list Z)) (path : str) : nat := length (default [] (fs !! path)).

(** The bytes the reader has still to go through. *)
Definition bytes_left (fs : gmap str (list Z)) (r : SegmentReader.t) : nat :=
  match SegmentReader.page_reader_ r with
  | Some pr => (length (PageReader.buf_ pr) - PageReader.offset_ pr)%nat
  | None => default 0%nat (file_size fs <$> SegmentReader.segment_paths_ r !! SegmentReader.current_index_ r)
  end + sum_list_with (file_size fs) (drop (S (SegmentReader.current_index_ r)) (SegmentReader.segment_paths_ r)).

Definition reader_ok (r : SegmentReader.t) : Prop :=
  match SegmentReader.page_reader_ r with Some pr => PageFacts.in_bounds pr | None => True end.

(** The result of [next] from [r]: defined, and nearer to the end when a
    record was read. *)
Definition progress (fs : gmap str (list Z)) (r : SegmentReader.t)
    (o : outcome SegmentReadError (list Z) * SegmentReader.t) : Prop :=
  reader_ok (snd o) ∧
  match fst o with
  | Ok _ => (bytes_left fs (snd o) < bytes_left fs r)%nat
  | Err _ => True
  | UB => False
  end.

Lemma progress_from fs r r1 o : (bytes_left fs r1 <= bytes_left fs r)%nat → progress fs r1 o → progress fs r o.
Proof. intros Hle [Hok Ho]. split; [done|]. destruct (fst o); [lia|done..]. Qed.

Lemma bytes_left_advance fs paths i bytes bytes' pr :
  (bytes_left fs (SegmentReader.mk paths (S i) bytes None) <= bytes_left fs (SegmentReader.mk paths i bytes' pr))%nat.
Proof.
  unfold bytes_left. cbn [SegmentReader.page_reader_ SegmentReader.current_index_ SegmentReader.segment_paths_].
  destruct (paths !! S i) as [p|] eqn:Hp.
  - rewrite (drop_S _ _ _ Hp). cbn [sum_list_with fmap option_fmap option_map default from_option id]. lia.
  - apply lookup_ge_None in Hp. rewrite (drop_ge _ (S i)), (drop_ge _ (S (S i))) by lia. cbn [sum_list_with fmap option_fmap option_map default from_option id]. lia.
Qed.

Lemma next_loop_progress fuel fs r :
  reader_ok r →
  (length (SegmentReader.segment_paths_ r) - SegmentReader.current_index_ r < fuel)%nat →
  progress fs r (SegmentReader.next_loop fuel fs r).
Proof.
  revert r. induction fuel as [|fuel IH]; intros r Hok Hfuel; [lia|]. cbn [SegmentReader.next_loop].
  destruct (Nat.ltb_spec (SegmentReader.current_index_ r) (length (SegmentReader.segment_paths_ r))) as [Hi|]; [|done].
  assert (∀ bytes pr r1, PageFacts.in_bounds pr →
    r1 = inside (SegmentReader.segment_paths_ r) (SegmentReader.current_index_ r) bytes pr →
    (bytes_left fs r1 <= bytes_left fs r)%nat →
    progress fs r (SegmentReader.next_loop (S fuel) fs r1)) as Hinside.
  { intros bytes pr r1 Hpr -> Hle. apply (progress_from _ _ _ _ Hle). clear Hle Hok. unfold inside.
    destruct r as [paths i bytes0 pr0]. cbn [SegmentReader.next_loop SegmentReader.segment_paths_
      SegmentReader.current_index_ SegmentReader.page_reader_ SegmentReader.current_bytes_] in *.
    destruct (Nat.ltb_spec i (length paths)); [|lia].
    pose proof (PageFacts.next_good pr Hpr) as (Hbuf & Hin & Ho).
    destruct (PageReader.next pr) as [[rec|e|] pr']; cbn [fst snd] in *; [|..|done].
    - split; [done|]. cbn [fst snd]. unfold bytes_left. cbn [SegmentReader.page_reader_ SegmentReader.current_index_
        SegmentReader.segment_paths_]. unfold PageFacts.in_bounds in *. rewrite Hbuf in *. lia.
    - assert (progress fs (SegmentReader.mk paths i bytes (Some pr))
        (SegmentReader.next_loop fuel fs (SegmentReader.mk paths (S i) bytes None))) as Hadv
        by (eapply progress_from; [apply bytes_left_advance|apply IH; [done|cbn; lia]]).
      destruct (bool_decide (e = WalEndOfStream)); [done|].
      by destruct (bool_decide (e = TornRecord)), (i + 1 =? length paths)%nat. }
  unfold reader_ok in Hok. destruct r as [paths i bytes0 [pr|]]; cbn [SegmentReader.segment_paths_
      SegmentReader.current_index_ SegmentReader.page_reader_ SegmentReader.current_bytes_] in *.
  - specialize (Hinside bytes0 pr _ Hok eq_refl ltac:(done)). cbn [SegmentReader.next_loop inside
      SegmentReader.segment_paths_ SegmentReader.current_index_ SegmentReader.page_reader_
      SegmentReader.current_bytes_] in Hinside.
    by destruct (Nat.ltb_spec i (length paths)); [|lia].
  - unfold SegmentReader.load_current_segment. cbn [SegmentReader.segment_paths_ SegmentReader.current_index_].
    destruct (paths !! i) as [path|] eqn:Hpath; [|by apply lookup_ge_None in Hpath; lia].
    destruct (fs !! path) as [c|] eqn:Hc; [|done].
    assert (PageFacts.in_bounds (PageReader.init c)) as Hinit by (unfold PageFacts.in_bounds; cbn; lia).
    specialize (Hinside c (PageReader.init c) _ Hinit eq_refl).
    cbn [SegmentReader.next_loop inside SegmentReader.segment_paths_ SegmentReader.current_index_
      SegmentReader.page_reader_ SegmentReader.current_bytes_] in Hinside.
    destruct (Nat.ltb_spec i (length paths)); [|lia]. apply Hinside. unfold bytes_left, file_size, inside.
    cbn [SegmentReader.page_reader_ SegmentReader.segment_paths_ SegmentReader.current_index_
      PageReader.init PageReader.buf_ PageReader.offset_]. rewrite Hpath. cbn [fmap option_fmap option_map default from_option].
    rewrite Hc. cbn [default from_option id]. lia.
Qed.

Lemma next_progress fs r : reader_ok r → progress fs r (SegmentReader.next fs r).
Proof. intros Hok. apply next_loop_progress; [done|lia]. Qed.

Lemma reader_ends fuel fs r :
  reader_ok r → (bytes_left fs r < fuel)%nat → is_Some (snd (SegmentReader.read_all fuel fs r)).
Proof.
  revert r. induction fuel as [|fuel IH]; intros r Hr Hfuel; [lia|]. cbn [SegmentReader.read_all].
  pose proof (next_progress fs r Hr) as (Hok & Ho).
  destruct (SegmentReader.next fs r) as [[rec|e|] r']; cbn [fst snd] in *; [|done..].
  specialize (IH r' Hok ltac:(lia)). by destruct (SegmentReader.read_all fuel fs r').
Qed.

(** ** The size of a segment *)

Lemma log_size body buf :
  Z.of_nat (length (PageWriter.log body buf)) <=
    Z.of_nat (length buf) + framed_size_upper_bound (Z.of_nat (length body)) +
    (if PageWriter.page_offset buf =? 0 then -6 else 1).
Proof.
  pose proof (PageFacts.log_loop_size (length body + 2) body 0 buf ltac:(lia)) as Hsize. cbn zeta in Hsize.
  rewrite Nat.sub_0_r in Hsize. unfold PageWriter.log, framed_size_upper_bound.
  assert ((Z.of_nat (length body) =? 0) = (length body =? 0)%nat) as -> by lia.
  unfold k_record_header_size in *. destruct (PageWriter.page_offset buf =? 0); lia.
Qed.

End SegmentFacts.

(** * Properties *)

Module SegmentProps.
Import SegmentWriter SegmentFacts.

(** C6: a writing session. Opening a writer on a directory that holds a log,
    logging records through every rollover the segment size forces and
    destroying the writer leaves a directory that holds the same log with the
    records appended, and the reader returns them all, in order, and then the
    end of the stream. *)
Theorem wal_session_roundtrip (size : Z) (fs : gmap str (list Z)) (segs : list (list (list Z))) (bodies : list (list Z)) :
  represents fs segs → Z.of_nat (length segs) < 10 ^ 8 → session_ok size (segs, []) bodies →
  ∃ w segs',
    session size bodies (mkWorld fs []) = (Ok tt, w) ∧ represents (files w) segs' ∧
    concat segs' = concat segs ++ bodies ∧
    SegmentReader.read_all (S (length (concat segs ++ bodies))) (files w) (SegmentReader.open (files w)) =
      (concat segs ++ bodies, Some SegEndOfStream).
Proof.
  intros Hrep Hlen Hok. destruct (open_writing size fs segs Hrep Hlen) as (s & w & Hopen & Hw).
  pose proof (log_bodies_writing size bodies _ _ _ Hw Hok) as Hlog.
  pose proof (log_steps_concat size bodies segs []) as Hconcat.
  destruct (foldl (log_step size) (segs, []) bodies) as [segs' cur'].
  destruct Hlog as ([s' w'] & Hlog & Hw'). rewrite (concat_app segs [[]]) in Hconcat. cbn [concat] in Hconcat.
  rewrite !app_nil_r in Hconcat.
  exists w', (segs' ++ [cur']). unfold session. rewrite Hopen, Hlog, (destroy_writing _ _ _ _ _ Hw').
  destruct Hw' as (fs' & [= -> ->] & Hrep' & _). cbn [files]. split_and!; [done..|].
  rewrite <- Hconcat. by apply read_represents.
Qed.

Lemma wal_session_roundtrip_witness :
  ∃ w segs',
    session 16 [[1; 2; 3]; [4]; [5; 6]] (mkWorld ∅ []) = (Ok tt, w) ∧ represents (files w) segs' ∧
    concat segs' = [[1; 2; 3]; [4]; [5; 6]] ∧
    SegmentReader.read_all 4 (files w) (SegmentReader.open (files w)) = ([[1; 2; 3]; [4]; [5; 6]], Some SegEndOfStream).
Proof.
  apply (wal_session_roundtrip 16 ∅ [] [[1; 2; 3]; [4]; [5; 6]]); [apply represents_empty|reflexivity|].
  apply (bool_decide_unpack _). vm_compute. exact I.
Defined.

(** C7: a crash. A writer is opened on a log and logs records, through every
    rollover. The directory then holds the segments of the log, those that the
    session closed, and the segment being written. Whatever prefix of that last
    file survives, reading returns all the records of all the closed segments,
    those closed during the session included, and a prefix of the records of
    the last one; it then stops with the end of the stream or with
    [InvalidFraming], and nothing is lost if the whole file survives. *)
Theorem wal_crash (size : Z) (fs : gmap str (list Z)) (segs : list (list (list Z))) (bodies : list (list Z)) :
  represents fs segs → Z.of_nat (length segs) < 10 ^ 8 → session_ok size (segs, []) bodies →
  let '(closed, cur) := foldl (log_step size) (segs, []) bodies in
  segs `prefix_of` closed ∧ concat closed ++ cur = concat segs ++ bodies ∧
  ∃ s w s' w' c,
    open size (mkWorld fs []) = (Ok s, w) ∧ log_bodies bodies (s, w) = (Ok tt, (s', w')) ∧
    represents (files w') (closed ++ [cur]) ∧ seg_index_ s' = Z.of_nat (length closed) ∧
    files w' !! current_segment_path s' = Some c ∧
    ∀ k, let fs' := <[current_segment_path s' := take k c]> (files w') in
      ∃ kept lost e,
        cur = kept ++ lost ∧ (e = SegEndOfStream ∨ e = InvalidFraming) ∧ (length c <= k → lost = [])%nat ∧
        SegmentReader.read_all (S (length (concat closed ++ kept))) fs' (SegmentReader.open fs') =
          (concat closed ++ kept, Some e).
Proof.
  intros Hrep Hlen Hok. destruct (open_writing size fs segs Hrep Hlen) as (s & w & Hopen & Hw).
  pose proof (log_bodies_writing size bodies _ _ _ Hw Hok) as Hlog.
  pose proof (log_steps_closed size bodies segs []) as Hclosed.
  pose proof (log_steps_concat size bodies segs []) as Hconcat.
  destruct (foldl (log_step size) (segs, []) bodies) as [closed cur].
  destruct Hlog as ([s' w'] & Hlog & Hw').
  rewrite !concat_app in Hconcat. cbn [concat] in Hconcat. rewrite !app_nil_r in Hconcat.
  destruct Hw' as (fs' & [= -> ->] & Hrep' & Hcur & Hok'). split_and!; [done..|].
  exists s, w. do 3 eexists. split_and!; [exact Hopen|exact Hlog|exact Hrep'|done|exact Hcur|]. intros k.
  by apply read_cut.
Qed.

(** A session in which each record but the first forces a rollover, on a log of
    one segment. *)
Lemma wal_crash_witness :
  ∃ fs, represents fs [[[9; 9]]] ∧
  let closed := [[[9; 9]]; [[1; 2; 3]]; [[4]]] in
  let cur := [[5; 6]] in
  [[[9; 9]]] `prefix_of` closed ∧ concat closed ++ cur = [[9; 9]] ++ [[1; 2; 3]; [4]; [5; 6]] ∧
  ∃ s w s' w' c,
    open 16 (mkWorld fs []) = (Ok s, w) ∧ log_bodies [[1; 2; 3]; [4]; [5; 6]] (s, w) = (Ok tt, (s', w')) ∧
    represents (files w') (closed ++ [cur]) ∧ seg_index_ s' = 3 ∧
    files w' !! current_segment_path s' = Some c ∧
    ∀ k, let fs' := <[current_segment_path s' := take k c]> (files w') in
      ∃ kept lost e,
        cur = kept ++ lost ∧ (e = SegEndOfStream ∨ e = InvalidFraming) ∧ (length c <= k → lost = [])%nat ∧
        SegmentReader.read_all (S (length (concat closed ++ kept))) fs' (SegmentReader.open fs') =
          (concat closed ++ kept, Some e).
Proof.
  exists (<[seg_path 0 := PageWriter.log [9; 9] []]> ∅).
  assert (represents (<[seg_path 0 := PageWriter.log [9; 9] []]> ∅) [[[9; 9]]]) as Hrep.
  { apply (represents_added ∅ [] [[9; 9]]); [apply represents_empty|reflexivity|].
    apply (content_flushed [[9; 9]]), (bool_decide_unpack _). vm_compute. exact I. }
  split; [exact Hrep|].
  pose proof (wal_crash 16 _ [[[9; 9]]] [[1; 2; 3]; [4]; [5; 6]] Hrep eq_refl) as Hcrash.
  assert (foldl (log_step 16) ([[[9; 9]]], []) [[1; 2; 3]; [4]; [5; 6]] = ([[[9; 9]]; [[1; 2; 3]]; [[4]]], [[5; 6]])) as Heq
    by (vm_compute; reflexivity). rewrite Heq in Hcrash. apply Hcrash.
  apply (bool_decide_unpack _). vm_compute. exact I.
Defined.

(** [current_segment_index] of the reader is a position in the directory, not
    the index in the name of the file, which the writer continues from: with the
    segments 7 and 8 it is 0. *)
Example reader_index_is_position :
  let fs := <[format_segment_name 7 := []]> (<[format_segment_name 8 := []]> ∅) in
  let r := SegmentReader.open fs in
  SegmentReader.current_segment_index r = 0%nat ∧ parse_segment_name (SegmentReader.current_segment_path r) = Some 7.
Proof. vm_compute. split; reflexivity. Qed.

(** Segment names. The name of an index below 10^8 parses back to it, and
    a name that parses is the name of the index it parses to: no two files of
    a directory stand for the same segment. *)
Theorem segment_names (i : Z) (name : str) :
  (0 <= i < 10 ^ 8 → parse_segment_name (format_segment_name i) = Some i) ∧
  (parse_segment_name name = Some i → name = format_segment_name i ∧ 0 <= i < 10 ^ 8).
Proof. split; [apply seg_parse_format|apply seg_parse_inv]. Qed.

Lemma segment_names_witness :
  parse_segment_name (format_segment_name 42) = Some 42 ∧
  [48; 48; 48; 48; 48; 48; 52; 50] = format_segment_name 42 ∧ 0 <= 42 < 10 ^ 8.
Proof.
  destruct (segment_names 42 [48; 48; 48; 48; 48; 48; 52; 50]) as [H1 H2].
  split; [apply H1; lia|apply H2; reflexivity].
Defined.

(** [write_all] under short writes and interruptions. The file grows by a
    prefix of the data, by all of it exactly when the result is a success, and
    the result is a success whenever no call fails or writes nothing. *)
Theorem write_all_appends (name : str) (data c : list Z) (w : World) :
  files w !! name = Some c →
  let '(e, w') := write_all name data w in
  ∃ n, (n <= length data)%nat ∧ files w' = <[name := c ++ take n data]> (files w) ∧
    (e = None ↔ n = length data) ∧ (no_failure w → e = None).
Proof. intros Hc. by apply write_all_loop_spec. Qed.

Lemma write_all_appends_witness :
  let w := mkWorld {[ [65] := [9] ]} [Interrupted; Wrote 2; Interrupted; Wrote 1] in
  let '(e, w') := write_all [65] [1; 2; 3; 4] w in
  ∃ n, (n <= 4)%nat ∧ files w' = <[ [65] := [9] ++ take n [1; 2; 3; 4] ]> (files w) ∧
    (e = None ↔ n = 4%nat) ∧ (no_failure w → e = None).
Proof. apply (write_all_appends [65] [1; 2; 3; 4] [9]). reflexivity. Defined.

(** C37: the sizes of segments. A successful [log] first closes the current
    segment if it would grow beyond the segment size: the closed file is what
    the page writer held, padded with less than a page to a whole number of
    pages. The record goes to the current segment, the next one after a
    rollover, whose file then holds what the page writer holds: at most one byte
    more than the segment size, unless the segment holds the one record just
    logged, which takes at most [framed_size_upper_bound]. No other file
    changes. Both segments have indices of eight digits. *)
Theorem segment_size_bound (size idx : Z) (pw : list Z) (fs : gmap str (list Z)) (body : list Z) :
  fs !! format_segment_name idx = Some pw → bytes_ok body →
  body = [] ∨ PageWriter.page_offset (if cut_now size pw body then [] else pw) ≠ k_page_size - k_record_header_size →
  0 <= idx < 10 ^ 8 - 1 →
  ∃ s w, log body (flushed size idx pw, mkWorld fs []) = (Ok tt, (s, w)) ∧
    files w !! current_segment_path s = Some (pw_ s) ∧
    Z.of_nat (length (pw_ s)) <= Z.max (size + 1) (framed_size_upper_bound (Z.of_nat (length body))) ∧
    (if cut_now size pw body then
       seg_index_ s = idx + 1 ∧ ∃ n, files w !! format_segment_name idx = Some (pw ++ replicate n 0) ∧
         Z.of_nat n < k_page_size ∧ (Z.of_nat (length pw) + Z.of_nat n) mod k_page_size = 0
     else seg_index_ s = idx) ∧
    ∀ name, name ≠ format_segment_name idx → name ≠ current_segment_path s → files w !! name = fs !! name.
Proof.
  intros Hfs Hb Hroom Hidx. rewrite (log_eq size idx pw fs body Hfs Hb Hroom).
  pose proof (log_size body []) as H0. pose proof (log_size body pw) as H1.
  change (PageWriter.page_offset [] =? 0) with true in H0. change (Z.of_nat (length (@nil Z))) with 0 in H0.
  assert (format_segment_name idx ≠ format_segment_name (idx + 1)) as Hne.
  { intros Heq%(f_equal parse_segment_name). rewrite !seg_parse_format in Heq by lia. injection Heq. lia. }
  destruct (cut_now size pw body) eqn:Hcut; do 2 eexists; (split; [reflexivity|]); cbn [files flushed pw_ seg_index_];
    (split; [apply lookup_insert_eq|]).
  - split; [lia|]. split; [|intros name H2 H3; by rewrite !lookup_insert_ne by done].
    split; [done|]. destruct (close_page_pads pw) as (n & Hclose & Hn). exists n.
    by rewrite lookup_insert_ne, lookup_insert_eq, Hclose by done.
  - split; [|split; [done|intros name H2 H3; by rewrite lookup_insert_ne by done]].
    unfold cut_now in Hcut. destruct pw; [cbn [length] in *; lia|].
    destruct (PageWriter.page_offset _ =? 0); cbn [length] in *; lia.
Qed.

(** A rollover: the record of three bytes does not fit behind the first two. *)
Lemma segment_size_bound_witness :
  ∃ s w, log [1; 2; 3] (flushed 16 0 [7; 7], mkWorld {[ format_segment_name 0 := [7; 7] ]} []) = (Ok tt, (s, w)) ∧
    files w !! current_segment_path s = Some (pw_ s) ∧
    Z.of_nat (length (pw_ s)) <= Z.max (16 + 1) (framed_size_upper_bound (Z.of_nat (length [1; 2; 3]))) ∧
    (seg_index_ s = 1 ∧ ∃ n, files w !! format_segment_name 0 = Some ([7; 7] ++ replicate n 0) ∧
      Z.of_nat n < k_page_size ∧ (Z.of_nat (length [7; 7]) + Z.of_nat n) mod k_page_size = 0) ∧
    ∀ name, name ≠ format_segment_name 0 → name ≠ current_segment_path s →
      files w !! name = ({[ format_segment_name 0 := [7; 7] ]} : gmap str (list Z)) !! name.
Proof.
  apply (segment_size_bound 16 0 [7; 7]); [reflexivity|repeat constructor|right; vm_compute; discriminate|lia].
Defined.

(** C38: reading any directory. Whatever the files hold, the reader stops
    after finitely many records, with an error that says why. *)
Theorem wal_reader_ends (fs : gmap str (list Z)) :
  let r := SegmentReader.open fs in is_Some (snd (SegmentReader.read_all (S (bytes_left fs r)) fs r)).
Proof. apply reader_ends; [done|lia]. Qed.

(** A writer that lost its file. Once the descriptor is gone (a [cut]
    whose last [open] failed, or [release_fd]), [log] and [sync] succeed and
    write nothing. *)
Theorem log_without_file (s : t) (w : World) (body : list Z) :
  fd_ s = None →
  (∃ s', log body (s, w) = (Ok tt, (s', w)) ∧ fd_ s' = None) ∧ sync (s, w) = (Ok tt, (s, w)).
Proof.
  intros Hfd. split; [|unfold sync; by rewrite Hfd]. unfold log.
  assert ((if must_cut body s then cut else rret tt) (s, w) = (Ok tt, (s, w))) as Hcut
    by (destruct (must_cut body s); [unfold cut; by rewrite Hfd|done]).
  rewrite (rbind_ok _ _ _ _ _ Hcut). unfold flush_pending. cbn [fd_]. rewrite Hfd. eauto.
Qed.

Lemma log_without_file_witness :
  let s := mk 16 1 None [1] 1 in
  (∃ s', log [1; 2] (s, mkWorld ∅ []) = (Ok tt, (s', mkWorld ∅ [])) ∧ fd_ s' = None) ∧
  sync (s, mkWorld ∅ []) = (Ok tt, (s, mkWorld ∅ [])).
Proof. apply (log_without_file (mk 16 1 None [1] 1) (mkWorld ∅ []) [1; 2]). reflexivity. Defined.

(** ** Behaviours at the edges *)

(** A cut whose [open] fails leaves the writer without a file: the error is
    reported once, and the next record is lost without one. *)
Example failed_cut_loses_records :
  let '(o0, w0) := open 16 (mkWorld ∅ (replicate 7 Done ++ [Failed])) in
  match o0 with
  | Ok s0 =>
      let '(o1, st1) := log [1; 2; 3] (s0, w0) in
      let '(o2, st2) := log [4; 5; 6] st1 in
      let '(o3, st3) := log [7; 8; 9] st2 in
      o1 = Ok tt ∧ o2 = Err Errno ∧ o3 = Ok tt ∧
      SegmentReader.read_all 3 (files (snd st3)) (SegmentReader.open (files (snd st3))) =
        ([[1; 2; 3]], Some SegEndOfStream)
  | _ => False
  end.
Proof. vm_compute. repeat split; reflexivity. Qed.

(** A write that fails after part of the data leaves that part in the file;
    the next [log] succeeds and writes the whole again behind it. *)
Example failed_write_duplicates :
  let '(o0, w0) := open 4096 (mkWorld ∅ [Done; Done; Done; Wrote 3; Failed]) in
  match o0 with
  | Ok s0 =>
      let '(o1, st1) := log [1; 2; 3] (s0, w0) in
      let '(o2, st2) := log [4] st1 in
      o1 = Err Errno ∧ o2 = Ok tt ∧
      SegmentReader.read_all 3 (files (snd st2)) (SegmentReader.open (files (snd st2))) = ([], Some SegCrc)
  | _ => False
  end.
Proof. vm_compute. repeat split; reflexivity. Qed.

(** A record cut at a page boundary is the end of the log; once the log has
    been opened for writing again, the same bytes are an error. *)
Example torn_tail_then_reopen :
  let c := take (Z.to_nat 32768) (PageWriter.log (replicate (Z.to_nat 32770) 7) []) in
  let fs := {[ format_segment_name 0 := c ]} : gmap str (list Z) in
  let '(_, w) := session k_default_segment_size [] (mkWorld fs []) in
  SegmentReader.read_all 1 fs (SegmentReader.open fs) = ([], Some SegEndOfStream) ∧
  SegmentReader.read_all 1 (files w) (SegmentReader.open (files w)) = ([], Some CorruptMidStream).
Proof. vm_compute. split; reflexivity. Qed.

(** The bound of the rollover decision is one byte short: with eight bytes
    left in the page, ten bytes of body take two headers. *)
Example upper_bound_exceeded :
  let pw := replicate (Z.to_nat 32760) 0 in
  Z.of_nat (length (PageWriter.log (replicate 10 7) pw)) - Z.of_nat (length pw) = 24 ∧
  framed_size_upper_bound 10 = 23.
Proof. vm_compute. split; reflexivity. Qed.

(** An index of nine digits: the writer's own name for it is not a segment name. *)
Example nine_digits : parse_segment_name (format_segment_name (10 ^ 8)) = None.
Proof. vm_compute. reflexivity. Qed.

End SegmentProps.
