(* ===== verification/WalFailures.v ===== *)
(** The log when system calls fail. [Segment] follows a writer whose calls
    succeed; here the script may fail any of them, write short or interrupt. Up
    to its first error a writer has on disk what it acknowledged ([alive]); the
    error leaves a torn record or a torn padding behind the acknowledged records,
    which the reader stops at ([reads]). *)

From S2P Require Import Prelude Ordered Files Page Segment.

Module WalFailuresFacts.
Import FilesFacts SegmentWriter SegmentFacts.

(** The writer of [writing], whatever the calls to come answer. *)
Definition alive (size : Z) (segs : list (list (list Z))) (cur : list (list Z)) (st : t * World) : Prop :=
  writing size segs cur (st.1, calm st.2).

(** Reading the directory gives [recs] and then an end, clean or torn. *)
Definition reads (fs : gmap str (list Z)) (recs : list (list Z)) : Prop :=
  ∃ e, (e = SegEndOfStream ∨ e = InvalidFraming) ∧
    SegmentReader.read_all (S (length recs)) fs (SegmentReader.open fs) = (recs, Some e).

Lemma represents_reads fs segs : represents fs segs → reads fs (concat segs).
Proof. intros Hrep. exists SegEndOfStream. split; [by left|by apply read_represents]. Qed.

(** Flushing [pad] either appends it or stops before its end. *)
Lemma flush_any size idx name pw pad w :
  files w !! name = Some pw →
  let '(o, (s, w')) := flush_pending (mk size idx (Some name) (pw ++ pad) (length pw), w) in
  (o = Ok tt ∧ s = mk size idx (Some name) (pw ++ pad) (length (pw ++ pad)) ∧ files w' = <[name := pw ++ pad]> (files w)) ∨
  (∃ e n, o = Err e ∧ (n < length pad)%nat ∧ files w' = <[name := pw ++ take n pad]> (files w)).
Proof.
  intros Hfs. unfold flush_pending. cbn [fd_ pw_ flushed_bytes_ segment_size_ seg_index_].
  destruct (Nat.leb_spec (length (pw ++ pad)) (length pw)) as [Hle|Hlt]; rewrite length_app in *.
  - left. assert (pad = []) as -> by (apply nil_length_inv; lia). rewrite app_nil_r, Nat.add_0_r. by rewrite insert_id.
  - rewrite drop_app_length. pose proof (write_all_loop_spec (length (script w) + 2) name pad w pw Hfs (le_n _)) as Hw.
    unfold writes in Hw. unfold write_all. destruct (write_all_loop _ _ _ _) as [[e|] w'];
      destruct Hw as (n & Hn & -> & Hiff & _).
    + right. exists e, n. split_and!; [done| |done]. assert (n ≠ length pad); [|lia]. by intros Heq%Hiff.
    + left. by rewrite (proj1 Hiff eq_refl), firstn_all.
Qed.

(** Flushing what [log body] framed. *)
Lemma log_flush_any size segs cur body s w :
  alive size segs cur (s, w) → PageFacts.logs_ok [] (cur ++ [body]) →
  let '(o, st) := flush_pending (mk (segment_size_ s) (seg_index_ s) (fd_ s) (PageWriter.log body (pw_ s)) (flushed_bytes_ s), w) in
  (o = Ok tt ∧ alive size segs (cur ++ [body]) st) ∨ (∃ e, o = Err e ∧ reads (files st.2) (concat segs ++ cur)).
Proof.
  intros (fs & [= -> <-] & Hrep & Hcur & _) Hok. cbn [flushed segment_size_ seg_index_ fd_ pw_ flushed_bytes_ fst snd files] in *.
  rewrite <- PageFacts.log_all_snoc. pose proof (λ k, PageFacts.log_all_torn cur body k Hok) as Htorn.
  destruct (Htorn 0%nat) as (tail & Heq & _). rewrite Heq.
  pose proof (flush_any size (Z.of_nat (length segs)) (seg_path (length segs)) _ tail w Hcur) as Hflush.
  fold (seg_path (length segs)). destruct (flush_pending _) as [o [s' w']].
  destruct Hflush as [(-> & -> & Hw)|(e & n & -> & Hn & Hw)]; [left|right].
  - split; [done|]. exists (files w'). cbn [fst snd]. rewrite Heq. split_and!; [done| |by rewrite Hw, lookup_insert_eq|done].
    rewrite Hw. apply (represents_current _ _ _ _ _ Hrep). rewrite <- Heq. by apply content_flushed.
  - exists e. split; [done|]. cbn [snd]. rewrite Hw. destruct (Htorn n) as (tail' & Heq' & Hread).
    rewrite Heq in Heq'. apply app_inv_head in Heq' as <-. destruct (Hread Hn) as (e' & Hcut & Hread').
    exists (final_error e'). split; [by apply final_cut_error|]. by apply (read_torn _ segs cur).
Qed.

(** Reopening on the next segment after the current one was closed. *)
Lemma open_next_any size segs cur fs w pw fl :
  represents fs (segs ++ [cur]) → files w = fs → Z.of_nat (S (length segs)) < 10 ^ 8 →
  let '(o, st) := open_new_segment (mk size (Z.of_nat (length segs) + 1) None pw fl, w) in
  (o = Ok tt ∧ alive size (segs ++ [cur]) [] st) ∨ (∃ e, o = Err e ∧ reads (files st.2) (concat segs ++ cur)).
Proof.
  intros Hrep Hfs Hlen. unfold open_new_segment. pose proof (sys_ok_files w) as Hw. destruct (sys_ok w) as [[] w1]; cbn [negb snd] in *.
  - left. split; [done|]. replace (Z.of_nat (length segs) + 1) with (Z.of_nat (length (segs ++ [cur])))
      by (rewrite length_app; cbn [length]; lia).
    eexists. split_and!; [done| |apply lookup_insert_eq|done]. cbn [fst snd files current_segment_path seg_index_ flushed pw_].
    rewrite Hw, Hfs. apply represents_added; [done|rewrite length_app; cbn [length]; lia|by apply content_flushed].
  - right. eexists. split; [done|]. cbn [snd]. rewrite Hw, Hfs. apply represents_reads in Hrep.
    rewrite concat_app in Hrep. cbn [concat] in Hrep. by rewrite app_nil_r in Hrep.
Qed.

Lemma cut_any size segs cur s w :
  alive size segs cur (s, w) → Z.of_nat (S (length segs)) < 10 ^ 8 →
  let '(o, st) := cut (s, w) in
  (o = Ok tt ∧ alive size (segs ++ [cur]) [] st) ∨ (∃ e, o = Err e ∧ reads (files st.2) (concat segs ++ cur)).
Proof.
  intros (fs & [= -> <-] & Hrep & Hcur & Hok) Hlen. cbn [fst snd files] in *. unfold cut, flushed, close_page.
  cbn [segment_size_ seg_index_ fd_ pw_ flushed_bytes_]. fold (seg_path (length segs)).
  destruct (PageFacts.log_all_closing cur Hok) as (pad & Hclose & Hread). rewrite Hclose.
  pose proof (flush_any size (Z.of_nat (length segs)) (seg_path (length segs)) _ pad w Hcur) as Hflush.
  unfold rbind at 1. destruct (flush_pending _) as [o [s' w']].
  destruct Hflush as [(-> & -> & Hw)|(e & n & -> & _ & Hw)].
  2:{ right. exists e. split; [done|]. cbn [snd]. rewrite Hw. exists SegEndOfStream. split; [by left|].
      by apply (read_torn _ segs cur _ _ WalEndOfStream). }
  assert (represents (files w') (segs ++ [cur])) as Hrep'.
  { rewrite Hw. apply (represents_current _ _ _ _ _ Hrep). rewrite <- Hclose. split; [done|by right]. }
  assert (∀ w1, files w1 = files w' → reads (files w1) (concat segs ++ cur)) as Hfail.
  { intros w1 ->. apply represents_reads in Hrep'. rewrite concat_app in Hrep'. cbn [concat] in Hrep'. by rewrite app_nil_r in Hrep'. }
  pose proof (sys_ok_files w') as Hw1. destruct (sys_ok w') as [[] w1]; cbn [negb snd] in *; [|right; eexists; split; [done|by apply Hfail]].
  pose proof (sys_ok_files w1) as Hw2. destruct (sys_ok w1) as [[] w2]; cbn [negb snd] in *; [|right; eexists; split; [done|by apply Hfail; congruence]].
  cbn [segment_size_ seg_index_ pw_ flushed_bytes_]. apply (open_next_any _ _ _ (files w')); [done|congruence|done].
Qed.

(** One call of [log]. *)
Lemma log_any size segs cur body st :
  alive size segs cur st →
  let '(segs', cur') := log_step size (segs, cur) body in
  PageFacts.logs_ok [] cur' → Z.of_nat (length segs') < 10 ^ 8 →
  let '(o, st') := log body st in
  (o = Ok tt ∧ alive size segs' cur' st') ∨ (∃ e, o = Err e ∧ reads (files st'.2) (concat segs ++ cur)).
Proof.
  destruct st as [s w]. intros Halive. unfold log_step.
  assert (must_cut body s = cut_now size (PageFacts.log_all cur []) body) as Hmust.
  { destruct Halive as (fs & [= -> <-] & _). unfold must_cut, cut_now. cbn [flushed flushed_bytes_ pw_ segment_size_].
    by rewrite Z.add_sub_assoc, Z.add_simpl_l. }
  unfold log. rewrite Hmust. destruct (cut_now _ _ _); intros Hok Hlen; unfold rbind, rret.
  - rewrite length_app in Hlen. cbn [length] in Hlen. pose proof (cut_any _ _ _ _ _ Halive ltac:(lia)) as Hcut.
    destruct (cut (s, w)) as [o [s1 w1]]. destruct Hcut as [[-> Halive1]|(e & -> & Hreads)]; [|right; by exists e].
    pose proof (log_flush_any _ _ _ body _ _ Halive1 Hok) as Hflush. destruct (flush_pending _) as [o st].
    destruct Hflush as [Hl|(e & -> & Hreads)]; [by left|right]. exists e. split; [done|].
    rewrite concat_app in Hreads. cbn [concat] in Hreads. by rewrite !app_nil_r in Hreads.
  - by apply log_flush_any.
Qed.

(** A run of [log] up to the first error. *)
Lemma log_bodies_any size bodies segs cur st :
  alive size segs cur st → session_ok size (segs, cur) bodies →
  let '(o, st') := log_bodies bodies st in
  (o = Ok tt ∧ ∃ segs' cur', alive size segs' cur' st' ∧ concat (segs' ++ [cur']) = concat (segs ++ [cur]) ++ bodies) ∨
  (∃ e done body rest, o = Err e ∧ bodies = done ++ body :: rest ∧ (log_bodies done st).1 = Ok tt ∧
    reads (files st'.2) (concat (segs ++ [cur]) ++ done)).
Proof.
  revert segs cur st. induction bodies as [|body bodies IH]; intros segs cur st Halive Hok.
  { left. split; [done|]. exists segs, cur. by rewrite app_nil_r. }
  cbn [session_ok] in Hok. destruct Hok as (Hlogs & Hlen & Hok). pose proof (log_any size segs cur body st Halive) as Hstep.
  pose proof (log_steps_concat size [body] segs cur) as Hconcat. cbn [foldl] in Hconcat.
  destruct (log_step size (segs, cur) body) as [segs1 cur1]. specialize (Hstep Hlogs Hlen).
  cbn [log_bodies]. unfold rbind at 1. destruct (log body st) as [o st1] eqn:Hlog.
  destruct Hstep as [[-> Halive1]|(e & -> & Hreads)].
  - specialize (IH _ _ _ Halive1 Hok). rewrite Hconcat in IH. destruct (log_bodies bodies st1) as [o st2].
    destruct IH as [[-> (segs2 & cur2 & Halive2 & Hc)]|(e & done & next & rest & -> & -> & Hdone & Hreads)]; [left|right].
    + split; [done|]. exists segs2, cur2. split; [done|]. by rewrite Hc, <- app_assoc.
    + exists e, (body :: done), next, rest. split_and!; [done..| |].
      * cbn [log_bodies]. unfold rbind. by rewrite Hlog.
      * by rewrite <- app_assoc in Hreads.
  - right. exists e, [], body, bodies. split_and!; [done..|]. rewrite app_nil_r, concat_app. cbn [concat]. by rewrite app_nil_r.
Qed.

Lemma open_any size fs segs scr :
  represents fs segs → Z.of_nat (length segs) < 10 ^ 8 →
  match open size (mkWorld fs scr) with
  | (Ok s, w) => alive size segs [] (s, w)
  | (Err _, w) => files w = fs
  | (UB, _) => False
  end.
Proof.
  intros Hrep Hlt. pose proof Hrep as [Hdir _]. unfold open.
  pose proof (enter_dir_files (mkWorld fs scr)) as Hw. destruct (enter_dir (mkWorld fs scr)) as [[] w1]; cbn [negb snd files] in *; [|done].
  rewrite Hw, (next_index_dir _ _ Hdir). unfold open_new_segment.
  pose proof (sys_ok_files w1) as Hw1. destruct (sys_ok w1) as [[] w2]; cbn [negb snd] in *; [|by rewrite Hw1].
  eexists. split_and!; [done| |by apply lookup_insert_eq|done]. cbn [snd files]. rewrite Hw1, Hw. by apply represents_added, content_flushed.
Qed.

(** The destructor of a writer that failed nowhere writes nothing. *)
Lemma destroy_any size segs cur s w : alive size segs cur (s, w) → files (destroy s w) = files w.
Proof.
  intros (fs & [= -> _] & _). unfold destroy, flushed, flush_pending. cbn [fd_ pw_ flushed_bytes_].
  rewrite Nat.leb_refl. pose proof (sys_ok_files w) as H1. destruct (sys_ok w) as [ok1 w1]. pose proof (sys_ok_files w1) as H2.
  destruct (sys_ok w1) as [ok2 w2]. cbn [snd] in *. congruence.
Qed.

End WalFailuresFacts.

Module WalFailuresProps.
Import FilesFacts SegmentWriter SegmentFacts WalFailuresFacts.

(** C8: the log under any answers of the system calls: failures, short writes
    and interruptions in any order. A writer that cannot be opened changes
    nothing. From an open writer, records are logged up to the first error;
    reading the directory then returns the old log and exactly the records whose
    [log] succeeded, and ends with the end of the stream or, behind a torn
    record, with [InvalidFraming]. If no [log] failed, the stream ends cleanly,
    and neither does the destructor change it, whatever its calls answer. *)
Theorem wal_failures (size : Z) (fs : gmap str (list Z)) (segs : list (list (list Z))) (bodies : list (list Z)) (scr : list SysResult) :
  represents fs segs → Z.of_nat (length segs) < 10 ^ 8 → session_ok size (segs, []) bodies →
  match open size (mkWorld fs scr) with
  | (Err _, w) => files w = fs
  | (UB, _) => False
  | (Ok s, w) =>
      let '(o, (s', w')) := log_bodies bodies (s, w) in
      o ≠ UB ∧
      ∃ done rest e,
        bodies = done ++ rest ∧ (o = Ok tt ↔ rest = []) ∧ (log_bodies done (s, w)).1 = Ok tt ∧
        (e = SegEndOfStream ∨ e = InvalidFraming) ∧
        SegmentReader.read_all (S (length (concat segs ++ done))) (files w') (SegmentReader.open (files w')) =
          (concat segs ++ done, Some e) ∧
        (o = Ok tt → e = SegEndOfStream ∧ files (destroy s' w') = files w')
  end.
Proof.
  intros Hrep Hlen Hok. pose proof (open_any size fs segs scr Hrep Hlen) as Hopen.
  destruct (open size (mkWorld fs scr)) as [[s|e|] w]; [|done..].
  pose proof (log_bodies_any size bodies segs [] (s, w) Hopen Hok) as Hlog. rewrite concat_app in Hlog. cbn [concat] in Hlog.
  rewrite !app_nil_r in Hlog. destruct (log_bodies bodies (s, w)) as [o [s' w']] eqn:Hrun.
  destruct Hlog as [[-> (segs' & cur' & Halive & Hc)]|(e & done & body & rest & -> & -> & Hdone & e' & He & Hread)].
  - split; [done|]. exists bodies, [], SegEndOfStream. rewrite app_nil_r, Hrun. pose proof Halive as (fs' & [= _ <-] & Hrep' & _).
    split_and!; [done..|by left| |intros _; split; [done|by apply (destroy_any size segs' cur')]].
    rewrite <- Hc. by apply read_represents.
  - split; [done|]. by exists done, (body :: rest), e'.
Qed.

(** Opening and the first record succeed, the second record after an
    interruption; of the third, two bytes reach the disk. *)
Definition sample_script : list SysResult := [Done; Done; Done; Wrote 3; Done; Interrupted; Done; Wrote 2; Failed].

Lemma wal_failures_witness :
  match open 100 (mkWorld ∅ sample_script) with
  | (Err _, w) => files w = ∅
  | (UB, _) => False
  | (Ok s, w) =>
      let '(o, (s', w')) := log_bodies [[1; 2; 3]; [4]; [5; 6]] (s, w) in
      o ≠ UB ∧
      ∃ done rest e,
        [[1; 2; 3]; [4]; [5; 6]] = done ++ rest ∧ (o = Ok tt ↔ rest = []) ∧ (log_bodies done (s, w)).1 = Ok tt ∧
        (e = SegEndOfStream ∨ e = InvalidFraming) ∧
        SegmentReader.read_all (S (length (concat [] ++ done))) (files w') (SegmentReader.open (files w')) =
          (concat [] ++ done, Some e) ∧
        (o = Ok tt → e = SegEndOfStream ∧ files (destroy s' w') = files w')
  end.
Proof.
  apply (wal_failures 100 ∅ [] [[1; 2; 3]; [4]; [5; 6]] sample_script); [apply represents_empty|reflexivity|].
  apply (bool_decide_unpack _). vm_compute. exact I.
Defined.

(** In this run two records are acknowledged and the third is torn. *)
Example sample_run :
  match open 100 (mkWorld ∅ sample_script) with
  | (Ok s, w) =>
      let '(o, (_, w')) := log_bodies [[1; 2; 3]; [4]; [5; 6]] (s, w) in
      o = Err Errno ∧ SegmentReader.read_all 9 (files w') (SegmentReader.open (files w')) = ([[1; 2; 3]; [4]], Some InvalidFraming)
  | _ => False
  end.
Proof. vm_compute. split; reflexivity. Qed.

(** The theorem stops at the destructor of a writer that failed: it flushes the
    torn record a second time, behind the bytes that are already there, and the
    reader takes the copy for the rest of the fragment. *)
Example destructor_duplicates :
  match open 100 (mkWorld ∅ [Done; Done; Done; Done; Wrote 9; Failed]) with
  | (Ok s, w) =>
      let '(_, (s', w')) := log_bodies [[1; 2; 3]; [4; 5; 6]] (s, w) in
      let fs := files (destroy s' w') in
      SegmentReader.read_all 9 fs (SegmentReader.open fs) = ([[1; 2; 3]], Some SegCrc)
  | _ => False
  end.
Proof. vm_compute. reflexivity. Qed.

End WalFailuresProps.
