(* ===== verification/MemSeries.v ===== *)
(** A series in memory: [include/merlion_tsdb/head/mem_series.hpp] and
    [src/head/mem_series.cpp]. The appender of the code points into the last
    chunk; here the two are fields of the series and are updated together. *)

From S2P Require Import Prelude Ordered Varint BStream Xor Labels.

Definition k_max_bytes_per_chunk_before_append : nat := XORChunk.kMaxBytes - 19.

Module MemSeries.

Record t : Type := mk {
  ref_ : Z;
  labels_ : Labels.t;
  chunks_ : list XORChunk.t;
  current_appender_ : option XORAppender.t;
  last_t_ : Z;
  last_v_ : Z;
  num_samples_ : Z;
  has_sample_ : bool;
}.

Definition new (ref : Z) (labels : Labels.t) : t := mk ref labels [] None (- 2 ^ 63) 0 0 false.

Definition num_chunks (s : t) : nat := length (chunks_ s).
Definition num_samples (s : t) : Z := num_samples_ s.
Definition chunks (s : t) : list XORChunk.t := chunks_ s.

Definition set_chunks (cs : list XORChunk.t) (app : option XORAppender.t) (s : t) : t :=
  mk (ref_ s) (labels_ s) cs app (last_t_ s) (last_v_ s) (num_samples_ s) (has_sample_ s).

(** [None] as in [appender]. *)
Definition cut_chunk (s : t) : option t :=
  app ← appender XORChunk.new;
  Some (set_chunks (chunks_ s ++ [XORChunk.new]) (match app with Ok a => Some a | _ => None end) s).

(** [current_appender_->append(t, v)] on the last chunk; [None] when there is
    no appender to dereference. *)
Definition append_current (t v : Z) (s : MemSeries.t) : option (bool * MemSeries.t) :=
  a ← current_appender_ s;
  c ← last (chunks_ s);
  '(ok, a, c) ← XORAppender.append t v a c;
  Some (ok, set_chunks (removelast (chunks_ s) ++ [c]) (Some a) s).

(** [chunks_.empty() || chunks_.back()->bytes().size() > ...] *)
Definition must_cut (s : t) : bool :=
  match last (chunks_ s) with
  | None => true
  | Some c => (k_max_bytes_per_chunk_before_append <? length (XORChunk.bytes c))%nat
  end.

Definition append (t v : Z) (s : MemSeries.t) : option (bool * MemSeries.t) :=
  if has_sample_ s && (t <? last_t_ s) then Some (false, s)
  else
    s ← (if must_cut s then cut_chunk s else Some s);
    '(ok, s) ← append_current t v s;
    '(ok, s) ← (if ok : bool then Some (true, s) else s ← cut_chunk s; append_current t v s);
    if ok : bool
    then Some (true, mk (ref_ s) (labels_ s) (chunks_ s) (current_appender_ s) t v
                       (u64 (num_samples_ s + 1)) true)
    else Some (false, s).

Definition reset (s : t) : t := new (ref_ s) (labels_ s).

End MemSeries.

(** * Facts *)

Module MemSeriesFacts.
Import MemSeries XorFacts.

(** A chunk of the series and the samples in it. *)
Definition chunk_done (ss : list (Z * Z)) (c : XORChunk.t) : Prop :=
  ss ≠ [] ∧ (length (XORChunk.bytes c) <= XORChunk.kMaxBytes)%nat ∧ ∃ a, chunk_ok ss a c.

(** The last two timestamps of the current chunk, as the appender knows them. *)
Definition clock (prev : option (Z * option Z)) (last_t : Z) : Prop :=
  match prev with
  | None => False
  | Some (p, d) => p = last_t ∧ is_i64 p = true ∧ match d with None => True | Some d => 0 <= d end
  end.

(** The chunks of [s] hold [done] and then [cur], the chunk being written. *)
Definition holds (s : t) (done : list (list (Z * Z))) (cur : list (Z * Z)) : Prop :=
  ∃ cs c a prev,
    chunks_ s = cs ++ [c] ∧ current_appender_ s = Some a ∧
    Forall2 chunk_done done cs ∧ chunk_done cur c ∧ chunk_ok cur a c ∧
    prev_ok (length cur) a prev ∧ clock prev (last_t_ s).

(** The series [s] represents the list of [samples] appended to it. *)
Definition represents (s : t) (samples : list (Z * Z)) : Prop :=
  num_samples_ s = u64 (Z.of_nat (length samples)) ∧
  has_sample_ s = bool_decide (samples ≠ []) ∧
  match last samples with
  | None => chunks_ s = [] ∧ current_appender_ s = None
  | Some (t, v) =>
      last_t_ s = t ∧ last_v_ s = v ∧
      ∃ done cur, samples = concat done ++ cur ∧ holds s done cur
  end.

Lemma represents_new ref labels : represents (new ref labels) [].
Proof. done. Qed.

Lemma chunk_few ss a c :
  chunk_ok ss a c → (length (XORChunk.bytes c) <= XORChunk.kMaxBytes)%nat → Z.of_nat (length ss) < 65535.
Proof.
  intros (bits & st & Hw & _ & Hdec & _) Hlen. apply repr_size in Hw. apply decodes_length in Hdec as [Hdec _].
  unfold XORChunk.bytes, XORChunk.kMaxBytes in *. rewrite length_app, length_zbits in Hw. lia.
Qed.

Lemma chunk_samples ss c :
  chunk_done ss c →
  XORChunk.num_samples c = Some (Z.of_nat (length ss)) ∧
  ∃ it, XORIterator.drain XORIterator.kDrainFuel (iterator c) = Some (ss, it) ∧ XORIterator.err_ it = None.
Proof.
  intros (_ & _ & a & Hc). split; [by eapply chunk_ok_num|].
  destruct Hc as (bits & st & Hw & Hlen & Hdec & _).
  destruct (chunk_iterator _ _ _ _ Hw Hlen Hdec) as (r & Hdrain). eauto.
Qed.

Lemma append_current_eq t v s cs c a :
  chunks_ s = cs ++ [c] → current_appender_ s = Some a →
  append_current t v s =
    '(ok, a, c) ← XORAppender.append t v a c; Some (ok, set_chunks (cs ++ [c]) (Some a) s).
Proof.
  intros Hc Ha. unfold append_current. rewrite Ha, Hc, last_snoc, removelast_last. done.
Qed.

(** The first sample of a chunk. *)
Lemma first_sample t v :
  is_i64 t = true → is_u64 v = true →
  ∃ a c, XORAppender.append t v XORAppender.init XORChunk.new = Some (true, a, c) ∧
    chunk_done [(t, v)] c ∧ chunk_ok [(t, v)] a c ∧ prev_ok 1 a (Some (t, None)).
Proof.
  intros Ht Hv.
  destruct (append_one [] _ _ None t v chunk_ok_new eq_refl) as (a & c & Happ & Hc & Hprev & Hsize);
    [by unfold time_fits; rewrite Ht|done|simpl; lia|].
  exists a, c. split_and!; [done| |done|done]. split_and!; [done| |by exists a].
  apply Hsize. unfold roomy. simpl. lia.
Qed.

(** A sample appended to the current chunk. *)
Lemma next_sample cur c a prev last_t t v :
  chunk_done cur c → chunk_ok cur a c → prev_ok (length cur) a prev → clock prev last_t →
  (length (XORChunk.bytes c) <= k_max_bytes_per_chunk_before_append)%nat →
  last_t <= t → is_i64 (t - last_t) = true → is_i64 t = true → is_u64 v = true →
  ∃ a' c', XORAppender.append t v a c = Some (true, a', c') ∧
    chunk_done (cur ++ [(t, v)]) c' ∧ chunk_ok (cur ++ [(t, v)]) a' c' ∧
    prev_ok (S (length cur)) a' (advance prev t) ∧ clock (advance prev t) t.
Proof.
  intros (_ & Hsize & _) Hc Hprev Hclock Hroom Hle Hd Ht Hv.
  assert (time_fits prev t = true) as Hfits.
  { unfold time_fits. destruct prev as [[p [d|]]|]; [|by destruct Hclock as (-> & _); rewrite Ht, Hd|done].
    destruct Hclock as (-> & _ & Hd0). destruct Hprev as (_ & _ & _ & Hd64). rewrite Ht, Hd.
    unfold is_i64 in *. lia. }
  destruct (append_one cur a c prev t v Hc Hprev Hfits Hv (chunk_few _ _ _ Hc Hsize))
    as (a' & c' & Happ & Hc' & Hprev' & Hsize').
  exists a', c'. split_and!; [done| |done|done|].
  - split_and!; [by intros []%app_nil|by apply Hsize'|by exists a'].
  - destruct prev as [[p d]|]; [|done]. destruct Hclock as (-> & _). cbn [advance clock]. split_and!; [done..|lia].
Qed.

Lemma represents_snoc s samples done cur t v :
  num_samples_ s = u64 (Z.of_nat (length (samples ++ [(t, v)]))) → has_sample_ s = true →
  last_t_ s = t → last_v_ s = v → samples ++ [(t, v)] = concat done ++ cur → holds s done cur →
  represents s (samples ++ [(t, v)]).
Proof.
  intros Hnum Hhas Ht Hv Hsamples Hholds. unfold represents.
  rewrite bool_decide_true by by intros []%app_nil. rewrite last_snoc. eauto 10.
Qed.

(** A chunk cut for the sample: the first of the series, or the one after a
    chunk that is almost full. *)
Lemma append_cut s cs done t v :
  chunks_ s = cs → Forall2 chunk_done done cs → is_i64 t = true → is_u64 v = true →
  ∃ s1 s2, cut_chunk s = Some s1 ∧ append_current t v s1 = Some (true, s2) ∧
    ref_ s2 = ref_ s ∧ labels_ s2 = labels_ s ∧ num_samples_ s2 = num_samples_ s ∧
    ∀ num, holds (mk (ref_ s2) (labels_ s2) (chunks_ s2) (current_appender_ s2) t v num true) done [(t, v)].
Proof.
  intros Hcs Hdones Ht Hv. destruct (first_sample t v Ht Hv) as (a & c & Happ & Hdone & Hc & Hprev).
  unfold cut_chunk. change (appender XORChunk.new) with (Some (@Ok ReadError _ XORAppender.init)).
  cbn [mbind option_bind]. eexists _, _. split; [reflexivity|].
  rewrite (append_current_eq t v _ cs XORChunk.new XORAppender.init) by (by rewrite <- Hcs || done).
  rewrite Happ. cbn [mbind option_bind]. split_and!; [done..|]. intros num.
  exists cs, c, a, (Some (t, None)). cbn [chunks_ current_appender_ set_chunks last_t_]. by split_and!.
Qed.

(** A sample appended to the current chunk of [s]. *)
Lemma append_more s done cur cs c t v :
  holds s done cur → chunks_ s = cs ++ [c] →
  (length (XORChunk.bytes c) <= k_max_bytes_per_chunk_before_append)%nat →
  last_t_ s <= t → is_i64 (t - last_t_ s) = true → is_i64 t = true → is_u64 v = true →
  ∃ s2, append_current t v s = Some (true, s2) ∧
    ref_ s2 = ref_ s ∧ labels_ s2 = labels_ s ∧ num_samples_ s2 = num_samples_ s ∧
    ∀ num, holds (mk (ref_ s2) (labels_ s2) (chunks_ s2) (current_appender_ s2) t v num true) done (cur ++ [(t, v)]).
Proof.
  intros (cs' & c' & a & prev & Hcs' & Ha & Hdones & Hdone & Hc & Hprev & Hclock) Hcs Hroom Hle Hd Ht Hv.
  rewrite Hcs' in Hcs. apply app_inj_tail in Hcs as [-> ->].
  destruct (next_sample cur c a prev _ t v Hdone Hc Hprev Hclock Hroom Hle Hd Ht Hv)
    as (a2 & c2 & Happ & Hdone2 & Hc2 & Hprev2 & Hclock2).
  rewrite (append_current_eq t v _ _ _ _ Hcs' Ha), Happ. cbn [mbind option_bind].
  eexists. split_and!; [done..|]. intros num.
  exists cs, c2, a2, (advance prev t). cbn [chunks_ current_appender_ set_chunks last_t_].
  split_and!; try done. by rewrite length_app, Nat.add_1_r.
Qed.

(** What [append] promises for a sample [t], [v]. *)
Definition append_spec (t v : Z) (s : MemSeries.t) (samples : list (Z * Z)) (r : option (bool * MemSeries.t)) : Prop :=
  match r with
  | None => False
  | Some (false, s') => s' = s ∧ ∃ p, last samples = Some p ∧ t < fst p
  | Some (true, s') =>
      represents s' (samples ++ [(t, v)]) ∧ ref_ s' = ref_ s ∧ labels_ s' = labels_ s ∧
      ∀ p, last samples = Some p → fst p <= t
  end.

(** The time since the last sample fits a signed 64-bit integer. *)
Definition time_next (t : Z) (samples : list (Z * Z)) : Prop :=
  is_i64 t = true ∧ ∀ p, last samples = Some p → t < fst p ∨ is_i64 (t - fst p) = true.

Lemma append_represents s samples t v :
  represents s samples → time_next t samples → is_u64 v = true → append_spec t v s samples (append t v s).
Proof.
  intros (Hnum & Hhas & Hlast) [Ht Hfits] Hv.
  assert (u64 (num_samples_ s + 1) = u64 (Z.of_nat (length (samples ++ [(t, v)])))) as Hnum'.
  { rewrite Hnum, length_app. unfold u64. rewrite Zplus_mod_idemp_l. f_equal. simpl. lia. }
  unfold append. rewrite Hhas. destruct (last samples) as [[t' v']|] eqn:Hl.
  - destruct Hlast as (Hlt & Hlv & done & cur & Hsamples & Hholds).
    assert (samples ≠ []) as Hne by by intros ->. rewrite bool_decide_true, Hlt by done. cbn [andb].
    destruct (Z.ltb_spec t t') as [Hlt'|Hge]; [split; [done|]; exists (t', v'); by rewrite Hl|].
    destruct (Hfits _ eq_refl) as [|Hd]; [simpl in *; lia|]. cbn [fst] in Hd.
    pose proof Hholds as (cs & c & a & prev & Hcs & Ha & Hdones & Hdone & Hrest).
    unfold must_cut. rewrite Hcs, last_snoc.
    destruct (Nat.ltb_spec k_max_bytes_per_chunk_before_append (length (XORChunk.bytes c))) as [Hbig|Hroom].
    + destruct (append_cut s (cs ++ [c]) (done ++ [cur]) t v Hcs) as (s1 & s2 & -> & Happ & Href & Hlab & Hn & Hh);
        [apply Forall2_app; [done|by constructor]|done..|].
      cbn [mbind option_bind]. rewrite Happ. cbn [mbind option_bind]. rewrite <- Hn in Hnum'.
      unfold append_spec. rewrite Hl. split_and!; [|done|done|by intros p [= <-]].
      eapply represents_snoc; [done..| |apply Hh]. rewrite Hsamples, concat_app. cbn [concat]. by rewrite app_nil_r.
    + destruct (append_more s done cur cs c t v Hholds Hcs Hroom) as (s2 & Happ & Href & Hlab & Hn & Hh);
        [by rewrite Hlt..|done|done|].
      cbn [mbind option_bind]. rewrite Happ. cbn [mbind option_bind]. rewrite <- Hn in Hnum'.
      unfold append_spec. rewrite Hl. split_and!; [|done|done|by intros p [= <-]].
      eapply represents_snoc; [done..| |apply Hh]. by rewrite Hsamples, app_assoc.
  - apply last_None in Hl. subst samples. destruct Hlast as [Hcs Ha].
    rewrite bool_decide_false by auto. cbn [andb]. unfold must_cut. rewrite Hcs. cbn [last].
    destruct (append_cut s [] [] t v Hcs ltac:(constructor) Ht Hv) as (s1 & s2 & -> & Happ & Href & Hlab & Hn & Hh).
    cbn [mbind option_bind]. rewrite Happ. cbn [mbind option_bind]. rewrite <- Hn in Hnum'.
    split_and!; [|done|done|done]. by eapply represents_snoc; [..|apply Hh].
Qed.

(** ** Reading a series back *)

(** What the iterators of the chunks yield, one after the other. *)
Definition chunk_list (c : XORChunk.t) : option (list (Z * Z)) :=
  '(ss, it) ← XORIterator.drain XORIterator.kDrainFuel (iterator c);
  match XORIterator.err_ it with Some _ => None | None => Some ss end.

Definition read_back (s : t) : option (list (Z * Z)) := sss ← mapM chunk_list (chunks s); Some (concat sss).

Lemma represents_chunks s samples :
  represents s samples → ∃ sss, samples = concat sss ∧ Forall2 chunk_done sss (chunks_ s).
Proof.
  intros (_ & _ & Hlast). destruct (last samples) as [[t v]|] eqn:Hl.
  - destruct Hlast as (_ & _ & done & cur & -> & cs & c & a & prev & -> & _ & Hdones & Hdone & _).
    exists (done ++ [cur]). split; [rewrite concat_app; cbn [concat]; by rewrite app_nil_r|].
    by apply Forall2_app; [|constructor].
  - apply last_None in Hl. subst samples. exists []. destruct Hlast as [-> _]. by split.
Qed.

Lemma chunk_done_list ss c : chunk_done ss c → chunk_list c = Some ss.
Proof. intros Hdone. destruct (chunk_samples _ _ Hdone) as (_ & it & Hd & He). unfold chunk_list. rewrite Hd. simpl. by rewrite He. Qed.

Lemma represents_read s samples : represents s samples → read_back s = Some samples.
Proof.
  intros Hs. apply represents_chunks in Hs as (sss & -> & Hdone). unfold read_back, chunks.
  assert (mapM chunk_list (chunks_ s) = Some sss) as ->; [|done].
  apply mapM_Some. eapply Forall2_flip, Forall2_impl; [exact Hdone|]. intros ss c. apply chunk_done_list.
Qed.

End MemSeriesFacts.

(** * Properties *)

Module MemSeriesProps.
Import MemSeries MemSeriesFacts.

(** The abstract series: the list of its samples. A sample older than the last
    one is refused. *)
Definition push (samples : list (Z * Z)) (x : Z * Z) : bool * list (Z * Z) :=
  match last samples with
  | Some p => if fst x <? fst p then (false, samples) else (true, samples ++ [x])
  | None => (true, [x])
  end.

(** A client appending the samples [l], and what the specification says. *)
Fixpoint append_each (l : list (Z * Z)) (s : MemSeries.t) : option (list bool * MemSeries.t) :=
  match l with
  | [] => Some ([], s)
  | (t, v) :: l => '(ok, s) ← append t v s; '(oks, s) ← append_each l s; Some (ok :: oks, s)
  end.

Fixpoint push_each (l : list (Z * Z)) (samples : list (Z * Z)) : list bool * list (Z * Z) :=
  match l with
  | [] => ([], samples)
  | x :: l => let '(ok, samples) := push samples x in let '(oks, samples) := push_each l samples in (ok :: oks, samples)
  end.

(** Timestamps whose differences fit 64-bit signed integers, and values that
    are bit patterns of doubles. *)
Definition sample_fits (x : Z * Z) : bool :=
  (- 2 ^ 62 <=? fst x) && (fst x <? 2 ^ 62) && is_u64 (snd x).

Lemma fits_time_next samples x :
  Forall (λ x, sample_fits x = true) samples → sample_fits x = true → time_next (fst x) samples.
Proof.
  intros Hs Hx. unfold sample_fits in Hx. split; [unfold is_i64; lia|]. intros p Hp. right.
  apply last_Some_elem_of in Hp. apply (proj1 (Forall_forall _ _) Hs) in Hp. unfold sample_fits, is_i64 in *. lia.
Qed.

Lemma push_spec s samples x :
  represents s samples → Forall (λ x, sample_fits x = true) (samples ++ [x]) →
  ∃ s', append (fst x) (snd x) s = Some (fst (push samples x), s') ∧ represents s' (snd (push samples x)) ∧
    ref_ s' = ref_ s ∧ labels_ s' = labels_ s ∧ Forall (λ x, sample_fits x = true) (snd (push samples x)).
Proof.
  intros Hs Hfits. pose proof Hfits as Hall. apply Forall_app in Hall as [Hsamples [Hx _]%Forall_cons_1].
  pose proof (append_represents s samples (fst x) (snd x) Hs (fits_time_next _ _ Hsamples Hx)) as Happ.
  unfold sample_fits in Hx. specialize (Happ ltac:(lia)). unfold append_spec in Happ.
  rewrite <- surjective_pairing in Happ. unfold push.
  destruct (append (fst x) (snd x) s) as [[[] s']|]; [|..|done].
  - destruct Happ as (Hrep & Href & Hlab & Hle). exists s'.
    destruct (last samples) as [p|] eqn:Hl.
    + specialize (Hle p eq_refl). destruct (Z.ltb_spec (fst x) (fst p)); [lia|done].
    + apply last_None in Hl. subst samples. done.
  - destruct Happ as (-> & p & -> & Hlt). destruct (Z.ltb_spec (fst x) (fst p)); [|lia]. by exists s.
Qed.

Lemma push_each_spec l s samples :
  represents s samples → Forall (λ x, sample_fits x = true) (samples ++ l) →
  ∃ s', append_each l s = Some (fst (push_each l samples), s') ∧ represents s' (snd (push_each l samples)) ∧
    ref_ s' = ref_ s ∧ labels_ s' = labels_ s.
Proof.
  revert s samples. induction l as [|[t v] l IH]; intros s samples Hs Hfits; [by exists s|].
  rewrite cons_middle, app_assoc in Hfits. apply Forall_app in Hfits as [Hfits Hl].
  destruct (push_spec s samples (t, v) Hs Hfits) as (s1 & Happ & Hs1 & Href & Hlab & Hfits1).
  cbn [append_each push_each]. cbn [fst snd] in Happ. rewrite Happ. cbn [mbind option_bind].
  destruct (push samples (t, v)) as [ok samples1]. cbn [fst snd] in *.
  destruct (IH s1 samples1 Hs1 ltac:(by apply Forall_app)) as (s2 & -> & Hs2 & Href2 & Hlab2).
  cbn [mbind option_bind]. destruct (push_each l samples1) as [oks samples2]. exists s2. cbn [fst snd] in *.
  split_and!; congruence.
Qed.

(** C12: a series is the list of its accepted samples. Appending any samples
    to a new series accepts and refuses exactly what the specification does,
    through every chunk the size limit forces; iterating over the chunks
    yields the accepted samples, in order, bit for bit; no chunk exceeds 1024
    bytes, and every one counts its samples right. *)
Theorem mem_series_refines (ref : Z) (labels : Labels.t) (l : list (Z * Z)) :
  Forall (λ x, sample_fits x = true) l →
  let '(oks, samples) := push_each l [] in
  ∃ s, append_each l (new ref labels) = Some (oks, s) ∧ ref_ s = ref ∧ labels_ s = labels ∧
    read_back s = Some samples ∧ num_samples s = u64 (Z.of_nat (length samples)) ∧
    Forall (λ c, (length (XORChunk.bytes c) <= XORChunk.kMaxBytes)%nat ∧
      ∃ ss, chunk_list c = Some ss ∧ ss ≠ [] ∧ XORChunk.num_samples c = Some (Z.of_nat (length ss))) (chunks s).
Proof.
  intros Hl. destruct (push_each_spec l (new ref labels) [] (represents_new ref labels) Hl)
    as (s & Happ & Hs & Href & Hlab).
  destruct (push_each l []) as [oks samples]. cbn [fst snd] in *. exists s.
  pose proof (represents_read _ _ Hs) as Hread. pose proof Hs as (Hnum & _).
  apply represents_chunks in Hs as (sss & _ & Hdone).
  split_and!; [done..|]. unfold chunks. clear -Hdone. induction Hdone as [|ss c sss cs Hc _ IH]; constructor; [|done].
  destruct (chunk_samples _ _ Hc) as (Hn & _). apply chunk_done_list in Hc as Hlist.
  destruct Hc as (Hne & Hsize & _). eauto.
Qed.

Lemma mem_series_refines_witness :
  let l := [(1000, 0x3FF0000000000000); (2000, 0); (1500, 0); (2000, 0x7FF8000000000000)] in
  let '(oks, samples) := push_each l [] in
  ∃ s, append_each l (new 1 []) = Some (oks, s) ∧ ref_ s = 1 ∧ labels_ s = [] ∧
    read_back s = Some samples ∧ num_samples s = u64 (Z.of_nat (length samples)) ∧
    Forall (λ c, (length (XORChunk.bytes c) <= XORChunk.kMaxBytes)%nat ∧
      ∃ ss, chunk_list c = Some ss ∧ ss ≠ [] ∧ XORChunk.num_samples c = Some (Z.of_nat (length ss))) (chunks s).
Proof. apply (mem_series_refines 1 []). repeat constructor. Defined.

(** A sample further than 2^63 from the last one: the subtraction overflows. *)
Example distant_timestamps_undefined :
  append_each [(-1, 0); (2 ^ 63 - 1, 0)] (new 1 []) = None.
Proof. vm_compute. reflexivity. Qed.

End MemSeriesProps.
