(* ===== verification/SeriesStore.v ===== *)
(** The series store: [include/merlion_tsdb/head/series_store.hpp] and
    [src/head/series_store.cpp]. A [MemSeries*] of the code is the slot of
    [by_ref_] that owns the object; reading and writing through it are [slot]
    and [set_slot]. *)

From S2P Require Import Prelude Ordered Labels MemSeries.

(** [vector::max_size] for pointers: a longer [resize] throws. *)
Definition max_slots : Z := 2 ^ 60 - 1.

Module SeriesStore.

Record t : Type := mk {
  by_ref_ : list (option MemSeries.t);
  by_labels_ : gmap Labels.t Z;
  next_ref_ : Z;
}.

Definition new : t := mk [] ∅ 1.

(** [None]: [resize] throws. *)
Definition ensure_ref_slot (by_ref : list (option MemSeries.t)) (ref : Z) : option (list (option MemSeries.t)) :=
  if ref =? 0 then Some by_ref
  else if Z.of_nat (length by_ref) <=? ref - 1 then
    if max_slots <? ref then None
    else Some (by_ref ++ replicate (Z.to_nat ref - length by_ref) None)
  else Some by_ref.

Definition slot (st : t) (i : nat) : option MemSeries.t := mjoin (by_ref_ st !! i).

(** Writing through a pointer to the series of slot [i]. *)
Definition set_slot (i : nat) (s : MemSeries.t) (st : t) : t :=
  mk (<[i := Some s]> (by_ref_ st)) (by_labels_ st) (next_ref_ st).

(** The slot of the series returned, and whether it is new. [None]: an access
    out of range, or [resize] throws. *)
Definition get_or_create (labels : Labels.t) (st : t) : option (nat * bool * t) :=
  match by_labels_ st !! labels with
  | Some r =>
      let i := Z.to_nat (r - 1) in
      if (i <? length (by_ref_ st))%nat then Some (i, false, st) else None
  | None =>
      let ref := next_ref_ st in
      by_ref ← ensure_ref_slot (by_ref_ st) ref;
      let i := Z.to_nat (u64 (ref - 1)) in
      if (i <? length by_ref)%nat
      then Some (i, true, mk (<[i := Some (MemSeries.new ref labels)]> by_ref)
                             (<[labels := ref]> (by_labels_ st)) (u64 (ref + 1)))
      else None
  end.

(** The slot of a reference; [None] is [nullptr]. *)
Definition get (ref : Z) (st : t) : option nat :=
  if (ref =? 0) || (Z.of_nat (length (by_ref_ st)) <=? ref - 1) then None
  else match slot st (Z.to_nat (ref - 1)) with Some _ => Some (Z.to_nat (ref - 1)) | None => None end.

Definition insert_with_ref (ref : Z) (labels : Labels.t) (st : t) : option (bool * t) :=
  if ref =? 0 then Some (false, st)
  else
    match slot st (Z.to_nat (ref - 1)) with
    | Some s => Some (bool_decide (MemSeries.labels_ s = labels), st)
    | None =>
        match by_labels_ st !! labels with
        | Some r => Some (r =? ref, st)
        | None =>
            by_ref ← ensure_ref_slot (by_ref_ st) ref;
            Some (true, mk (<[Z.to_nat (ref - 1) := Some (MemSeries.new ref labels)]> by_ref)
                           (<[labels := ref]> (by_labels_ st)) (Z.max (next_ref_ st) (u64 (ref + 1))))
        end
    end.

Definition size (st : t) : nat := length (by_ref_ st).
Definition next_ref (st : t) : Z := next_ref_ st.

(** In the order of the references. *)
Definition all_series (st : t) : list MemSeries.t := omap id (by_ref_ st).

(** ** The invariant *)

(** Slot [i] holds the series of reference [i + 1], labels and references
    determine each other, and the next reference is the first unused slot. *)
Record wf (st : t) : Prop := {
  wf_slot : ∀ i s, slot st i = Some s →
    MemSeries.ref_ s = Z.of_nat i + 1 ∧ by_labels_ st !! MemSeries.labels_ s = Some (Z.of_nat i + 1);
  wf_labels : ∀ ls r, by_labels_ st !! ls = Some r →
    1 <= r ∧ ∃ s, slot st (Z.to_nat (r - 1)) = Some s ∧ MemSeries.labels_ s = ls;
  wf_next : next_ref_ st = Z.of_nat (length (by_ref_ st)) + 1;
  wf_size : Z.of_nat (length (by_ref_ st)) <= max_slots;
}.

End SeriesStore.

(** * Facts *)

Module SeriesStoreFacts.
Import SeriesStore.

Lemma wf_new : wf new.
Proof.
  split; [by intros i s| |done|done]. intros ls r Hr. cbn [by_labels_ new] in Hr. by rewrite lookup_empty in Hr.
Qed.

Lemma slot_lt st i s : slot st i = Some s → (i < length (by_ref_ st))%nat.
Proof. unfold slot. intros Hs. apply lookup_lt_is_Some. destruct (by_ref_ st !! i); by eauto. Qed.

Lemma slot_eq st i s : slot st i = Some s ↔ by_ref_ st !! i = Some (Some s).
Proof. unfold slot. destruct (by_ref_ st !! i) as [[]|]; naive_solver. Qed.

Lemma slot_set st i j s : slot (set_slot i s st) j = if decide (i = j ∧ (i < length (by_ref_ st))%nat) then Some s else slot st j.
Proof.
  unfold slot, set_slot. cbn [by_ref_]. destruct (decide (i = j ∧ _)) as [[-> Hi]|Hi].
  - by rewrite list_lookup_insert_eq.
  - destruct (decide (i = j)) as [->|]; [|by rewrite list_lookup_insert_ne].
    by rewrite list_insert_ge by lia.
Qed.

(** Writing a series back that kept its reference and its labels. *)
Lemma wf_set_slot st i s s' :
  wf st → slot st i = Some s → MemSeries.ref_ s' = MemSeries.ref_ s → MemSeries.labels_ s' = MemSeries.labels_ s →
  wf (set_slot i s' st).
Proof.
  intros [Hslot Hlabels Hnext Hsize] Hs Href Hlab. pose proof (slot_lt _ _ _ Hs) as Hi. split.
  - intros j s2. rewrite slot_set. case_decide as Hj; [|by apply Hslot]. destruct Hj as [<- _].
    intros [= <-]. rewrite Href, Hlab. by apply Hslot.
  - intros ls r Hr. destruct (Hlabels ls r Hr) as (Hr1 & s2 & Hs2 & Hls). split; [done|].
    rewrite slot_set. case_decide as Hj; [|by exists s2]. destruct Hj as [-> _].
    rewrite Hs in Hs2. injection Hs2 as ->. exists s'. by rewrite Hlab.
  - unfold set_slot. cbn [by_ref_ next_ref_]. by rewrite length_insert.
  - unfold set_slot. cbn [by_ref_]. by rewrite length_insert.
Qed.

(** ** New series *)

(** The store with a new series at the first free slots up to [ref]. *)
Definition add_series (ref : Z) (labels : Labels.t) (st : t) : t :=
  mk (by_ref_ st ++ replicate (Z.to_nat (ref - 1) - length (by_ref_ st)) None ++ [Some (MemSeries.new ref labels)])
     (<[labels := ref]> (by_labels_ st)) (ref + 1).

Lemma slot_add ref labels st j :
  Z.of_nat (length (by_ref_ st)) < ref →
  slot (add_series ref labels st) j =
    if decide (Z.of_nat j = ref - 1) then Some (MemSeries.new ref labels) else slot st j.
Proof.
  intros Hlen. unfold slot, add_series. cbn [by_ref_].
  destruct (decide (Z.of_nat j = ref - 1)) as [Hj|Hj].
  - rewrite app_assoc, list_lookup_middle; [done|]. rewrite length_app, length_replicate. lia.
  - destruct (decide (j < length (by_ref_ st))%nat); [by rewrite lookup_app_l|].
    rewrite (lookup_ge_None_2 (by_ref_ st)) by lia. rewrite lookup_app_r by lia.
    destruct (decide (j < Z.to_nat (ref - 1))%nat) as [Hlt|Hge].
    + rewrite lookup_app_l by (rewrite length_replicate; lia). by rewrite lookup_replicate_2 by lia.
    + rewrite lookup_ge_None_2; [done|]. rewrite length_app, length_replicate. cbn [length]. lia.
Qed.

Lemma wf_add_series ref labels st :
  wf st → Z.of_nat (length (by_ref_ st)) < ref <= max_slots → by_labels_ st !! labels = None →
  wf (add_series ref labels st).
Proof.
  intros [Hslot Hlabels Hnext Hsize] Href Hnew. split.
  - intros i s. rewrite slot_add by lia. case_decide as Hi.
    + intros [= <-]. cbn [MemSeries.ref_ MemSeries.labels_ MemSeries.new by_labels_ add_series].
      rewrite lookup_insert_eq. split; [lia|f_equal; lia].
    + intros Hs. destruct (Hslot i s Hs) as [Hr Hl]. split; [done|]. cbn [by_labels_ add_series].
      rewrite lookup_insert_ne; [done|]. intros ->. by rewrite Hl in Hnew.
  - intros ls r. cbn [by_labels_ add_series]. intros Hr. rewrite slot_add by lia.
    destruct (decide (labels = ls)) as [<-|Hne].
    + rewrite lookup_insert_eq in Hr. injection Hr as <-. split; [lia|].
      rewrite decide_True by lia. eauto.
    + rewrite lookup_insert_ne in Hr by done. destruct (Hlabels ls r Hr) as (Hr1 & s & Hs & Hls).
      split; [done|]. apply slot_lt in Hs as Hlt. rewrite decide_False by lia. eauto.
  - cbn [next_ref_ by_ref_ add_series]. rewrite !length_app, length_replicate. cbn [length]. lia.
  - cbn [by_ref_ add_series]. rewrite !length_app, length_replicate. cbn [length]. lia.
Qed.

Lemma ensure_ok by_ref ref :
  Z.of_nat (length by_ref) < ref <= max_slots →
  ensure_ref_slot by_ref ref = Some (by_ref ++ replicate (Z.to_nat ref - length by_ref) None).
Proof.
  intros Href. unfold ensure_ref_slot. destruct (Z.eqb_spec ref 0); [lia|].
  destruct (Z.leb_spec (Z.of_nat (length by_ref)) (ref - 1)); [|lia].
  by destruct (Z.ltb_spec max_slots ref); [lia|].
Qed.

Lemma insert_ensured by_ref ref (x : MemSeries.t) :
  Z.of_nat (length by_ref) < ref →
  <[Z.to_nat (ref - 1) := Some x]> (by_ref ++ replicate (Z.to_nat ref - length by_ref) None) =
    by_ref ++ replicate (Z.to_nat (ref - 1) - length by_ref) None ++ [Some x].
Proof.
  intros Href. replace (Z.to_nat ref - length by_ref)%nat with (S (Z.to_nat (ref - 1) - length by_ref)) by lia.
  rewrite replicate_S_end, !app_assoc. set (front := by_ref ++ replicate (Z.to_nat (ref - 1) - length by_ref) None).
  assert (Z.to_nat (ref - 1) = length front) as -> by (unfold front; rewrite length_app, length_replicate; lia).
  rewrite insert_app_r_alt, Nat.sub_diag by lia. done.
Qed.

Lemma u64_ref ref : 0 <= ref <= max_slots + 1 → u64 ref = ref.
Proof. intros Href. apply Z.mod_small. unfold max_slots in Href. lia. Qed.

(** [get_or_create] in a well-formed store. *)
Lemma get_or_create_old labels st r :
  wf st → by_labels_ st !! labels = Some r →
  get_or_create labels st = Some (Z.to_nat (r - 1), false, st).
Proof.
  intros [Hslot Hlabels _ _] Hr. unfold get_or_create. rewrite Hr.
  destruct (Hlabels _ _ Hr) as (_ & s & Hs & _). apply slot_lt in Hs.
  by destruct (Nat.ltb_spec (Z.to_nat (r - 1)) (length (by_ref_ st))); [|lia].
Qed.

Lemma get_or_create_new labels st :
  wf st → by_labels_ st !! labels = None → Z.of_nat (length (by_ref_ st)) < max_slots →
  get_or_create labels st = Some (length (by_ref_ st), true, add_series (next_ref_ st) labels st).
Proof.
  intros Hwf Hnew Hsize. unfold get_or_create. rewrite Hnew, (wf_next _ Hwf).
  rewrite ensure_ok by lia. cbn [mbind option_bind]. rewrite (u64_ref (_ - 1)) by lia.
  rewrite Z.add_simpl_r, Nat2Z.id, length_app, length_replicate.
  destruct (Nat.ltb_spec (length (by_ref_ st)) (length (by_ref_ st) + (Z.to_nat (Z.of_nat (length (by_ref_ st)) + 1) - length (by_ref_ st)))); [|lia].
  rewrite u64_ref by lia. do 2 f_equal. unfold add_series. f_equal.
  pose proof (insert_ensured (by_ref_ st) (Z.of_nat (length (by_ref_ st)) + 1)
    (MemSeries.new (Z.of_nat (length (by_ref_ st)) + 1) labels) ltac:(lia)) as Heq.
  rewrite Z.add_simpl_r, Nat2Z.id in *. exact Heq.
Qed.

Lemma insert_with_ref_new ref labels st :
  wf st → by_labels_ st !! labels = None → Z.of_nat (length (by_ref_ st)) < ref <= max_slots →
  insert_with_ref ref labels st = Some (true, add_series ref labels st).
Proof.
  intros Hwf Hnew Href. unfold insert_with_ref. destruct (Z.eqb_spec ref 0); [lia|].
  destruct (slot st (Z.to_nat (ref - 1))) as [s|] eqn:Hs; [apply slot_lt in Hs; lia|].
  rewrite Hnew, ensure_ok by lia. cbn [mbind option_bind]. rewrite insert_ensured by lia.
  rewrite u64_ref, (wf_next _ Hwf), Z.max_r by lia. done.
Qed.

(** A series for a reference below the end that no series has: a hole left by
    [resize]. *)
Definition fill_hole (i : nat) (labels : Labels.t) (st : t) : t :=
  mk (<[i := Some (MemSeries.new (Z.of_nat i + 1) labels)]> (by_ref_ st))
     (<[labels := Z.of_nat i + 1]> (by_labels_ st)) (next_ref_ st).

Lemma slot_fill i labels st j :
  (i < length (by_ref_ st))%nat →
  slot (fill_hole i labels st) j =
    if decide (i = j) then Some (MemSeries.new (Z.of_nat i + 1) labels) else slot st j.
Proof.
  intros Hi. pose proof (slot_set st i j (MemSeries.new (Z.of_nat i + 1) labels)) as Hset.
  change (slot (fill_hole i labels st) j) with (slot (set_slot i (MemSeries.new (Z.of_nat i + 1) labels) st) j).
  rewrite Hset.
  destruct (decide (i = j)) as [->|]; [by rewrite decide_True by done|].
  rewrite decide_False; [done|]. by intros [-> _].
Qed.

Lemma wf_fill_hole i labels st :
  wf st → slot st i = None → (i < length (by_ref_ st))%nat → by_labels_ st !! labels = None →
  wf (fill_hole i labels st).
Proof.
  intros [Hslot Hlabels Hnext Hsize] Hi Hlt Hnew. split.
  - intros j s. rewrite slot_fill by done. case_decide as Hj.
    + intros [= <-]. subst j. cbn [MemSeries.ref_ MemSeries.labels_ MemSeries.new by_labels_ fill_hole].
      by rewrite lookup_insert_eq.
    + intros Hs. destruct (Hslot j s Hs) as [Hr Hl]. split; [done|]. cbn [by_labels_ fill_hole].
      rewrite lookup_insert_ne; [done|]. intros ->. by rewrite Hl in Hnew.
  - intros ls r. cbn [by_labels_ fill_hole]. intros Hr. rewrite slot_fill by done.
    destruct (decide (labels = ls)) as [<-|Hne].
    + rewrite lookup_insert_eq in Hr. injection Hr as <-. split; [lia|].
      rewrite decide_True by lia. eauto.
    + rewrite lookup_insert_ne in Hr by done. destruct (Hlabels ls r Hr) as (Hr1 & s & Hs & Hls).
      split; [done|]. rewrite decide_False by (intros ->; congruence). eauto.
  - cbn [next_ref_ by_ref_ fill_hole]. by rewrite length_insert.
  - cbn [by_ref_ fill_hole]. by rewrite length_insert.
Qed.

Lemma insert_with_ref_hole ref labels st :
  wf st → slot st (Z.to_nat (ref - 1)) = None → by_labels_ st !! labels = None →
  1 <= ref <= Z.of_nat (length (by_ref_ st)) →
  insert_with_ref ref labels st = Some (true, fill_hole (Z.to_nat (ref - 1)) labels st).
Proof.
  intros Hwf Hs Hnew Href. unfold insert_with_ref. destruct (Z.eqb_spec ref 0); [lia|].
  rewrite Hs, Hnew. unfold ensure_ref_slot. destruct (Z.eqb_spec ref 0); [lia|].
  destruct (Z.leb_spec (Z.of_nat (length (by_ref_ st))) (ref - 1)); [lia|]. cbn [mbind option_bind].
  pose proof (wf_size _ Hwf). rewrite u64_ref, (wf_next _ Hwf), Z.max_l by lia.
  unfold fill_hole. rewrite (wf_next _ Hwf). rewrite Z2Nat.id by lia. by rewrite Z.sub_add.
Qed.

(** A reference and labels that were bound are bound already, or get a new
    series at the end or in a hole. *)
Lemma insert_with_ref_inv ref labels st st' :
  wf st → 0 <= ref → insert_with_ref ref labels st = Some (true, st') →
  st' = st ∨
  by_labels_ st !! labels = None ∧
    ((Z.of_nat (length (by_ref_ st)) < ref <= max_slots ∧ st' = add_series ref labels st) ∨
     (Z.to_nat (ref - 1) < length (by_ref_ st) ∧ slot st (Z.to_nat (ref - 1)) = None ∧
        st' = fill_hole (Z.to_nat (ref - 1)) labels st)%nat).
Proof.
  intros Hwf Href Hins. destruct (decide (ref = 0)) as [->|Hne]; [done|].
  destruct (slot st (Z.to_nat (ref - 1))) as [s|] eqn:Hs; [|destruct (by_labels_ st !! labels) as [r|] eqn:Hr].
  - left. unfold insert_with_ref in Hins. rewrite Hs in Hins. destruct (Z.eqb_spec ref 0); [done|].
    case_bool_decide; congruence.
  - left. unfold insert_with_ref in Hins. rewrite Hs, Hr in Hins. destruct (Z.eqb_spec ref 0); [done|].
    destruct (r =? ref); congruence.
  - right. split; [done|]. destruct (decide (ref <= Z.of_nat (length (by_ref_ st)))) as [Hold|Hnew]; [right|left].
    + rewrite insert_with_ref_hole in Hins by (done || lia). injection Hins as <-. split_and!; [lia|done..].
    + assert (ref <= max_slots) as Hfits.
      { destruct (decide (ref <= max_slots)); [done|]. unfold insert_with_ref, ensure_ref_slot in Hins.
        rewrite Hs, Hr in Hins. destruct (Z.eqb_spec ref 0); [done|].
        destruct (Z.leb_spec (Z.of_nat (length (by_ref_ st))) (ref - 1)); [|lia].
        destruct (Z.ltb_spec max_slots ref); [done|lia]. }
      rewrite insert_with_ref_new in Hins by (done || lia). injection Hins as <-. split; [lia|done].
Qed.

(** No series moves or disappears. *)
Definition keeps (st st' : t) : Prop := ∀ i s, slot st i = Some s → slot st' i = Some s.

Lemma keeps_add ref labels st : Z.of_nat (length (by_ref_ st)) < ref → keeps st (add_series ref labels st).
Proof. intros Href i s Hs. rewrite slot_add by done. apply slot_lt in Hs as Hi. by rewrite decide_False by lia. Qed.

Lemma get_spec ref st :
  wf st → 1 <= ref →
  get ref st = match slot st (Z.to_nat (ref - 1)) with Some _ => Some (Z.to_nat (ref - 1)) | None => None end.
Proof.
  intros Hwf Href. unfold get. destruct (slot st (Z.to_nat (ref - 1))) as [s|] eqn:Hs.
  - apply slot_lt in Hs. destruct (Z.eqb_spec ref 0); [lia|].
    by destruct (Z.leb_spec (Z.of_nat (length (by_ref_ st))) (ref - 1)); [lia|].
  - by destruct (_ || _).
Qed.

End SeriesStoreFacts.

(** * Properties *)

Module SeriesStoreProps.
Import SeriesStore SeriesStoreFacts.

(** C30: dispensing references. In a well-formed store with room,
    [get_or_create] returns the one series with these labels, new exactly when
    there was none, with the next reference, and leaves the other series and
    their references alone; the store stays well-formed, so labels and
    references keep determining each other. *)
Theorem store_get_or_create (labels : Labels.t) (st : t) :
  wf st → Z.of_nat (length (by_ref_ st)) < max_slots →
  ∃ i fresh st' s,
    get_or_create labels st = Some (i, fresh, st') ∧ wf st' ∧ keeps st st' ∧
    slot st' i = Some s ∧ MemSeries.labels_ s = labels ∧ MemSeries.ref_ s = Z.of_nat i + 1 ∧
    (∀ j s', slot st' j = Some s' → MemSeries.labels_ s' = labels → j = i) ∧
    match by_labels_ st !! labels with
    | Some r => fresh = false ∧ st' = st ∧ MemSeries.ref_ s = r
    | None => fresh = true ∧ s = MemSeries.new (next_ref_ st) labels ∧ slot st i = None
    end.
Proof.
  intros Hwf Hroom.
  assert (∀ st' i, wf st' → by_labels_ st' !! labels = Some (Z.of_nat i + 1) →
    ∀ j s', slot st' j = Some s' → MemSeries.labels_ s' = labels → j = i) as Huniq.
  { intros st' i Hwf' Hi j s' Hj Hls. apply (wf_slot _ Hwf') in Hj as [_ Hj].
    rewrite Hls, Hi in Hj. injection Hj as Hj. lia. }
  destruct (by_labels_ st !! labels) as [r|] eqn:Hr.
  - destruct (wf_labels _ Hwf _ _ Hr) as (Hr1 & s & Hs & Hls). rewrite (get_or_create_old _ _ _ Hwf Hr).
    destruct (wf_slot _ Hwf _ _ Hs) as [Href _]. exists (Z.to_nat (r - 1)), false, st, s.
    split_and!; [done|done|by intros ? ?|done..| |done|done|lia]. apply Huniq; [done|]. rewrite Hr. f_equal. lia.
  - rewrite (get_or_create_new _ _ Hwf Hr Hroom). pose proof (wf_next _ Hwf) as Hnext.
    assert (wf (add_series (next_ref_ st) labels st)) as Hwf' by (apply wf_add_series; [done|lia|done]).
    assert (slot (add_series (next_ref_ st) labels st) (length (by_ref_ st)) =
      Some (MemSeries.new (next_ref_ st) labels)) as Hs by (rewrite slot_add by lia; by rewrite decide_True by lia).
    eexists _, true, _, _. split_and!; [done|done|apply keeps_add; lia|exact Hs|done|simpl; lia| |done|done|].
    + apply Huniq; [done|]. by apply (wf_slot _ Hwf') in Hs as [_ Hs].
    + unfold slot. by rewrite lookup_ge_None_2 by lia.
Qed.

Lemma store_get_or_create_witness :
  let st := add_series 1 [mkLabel [97] [98]] new in
  ∃ i fresh st' s,
    get_or_create [] st = Some (i, fresh, st') ∧ wf st' ∧ keeps st st' ∧
    slot st' i = Some s ∧ MemSeries.labels_ s = [] ∧ MemSeries.ref_ s = Z.of_nat i + 1 ∧
    (∀ j s', slot st' j = Some s' → MemSeries.labels_ s' = [] → j = i) ∧
    match by_labels_ st !! [] with
    | Some r => fresh = false ∧ st' = st ∧ MemSeries.ref_ s = r
    | None => fresh = true ∧ s = MemSeries.new (next_ref_ st) [] ∧ slot st i = None
    end.
Proof.
  apply (store_get_or_create [] (add_series 1 [mkLabel [97] [98]] new)); [|reflexivity].
  apply wf_add_series; [apply wf_new|split; [reflexivity|discriminate]|reflexivity].
Defined.

(** C31: replaying a series record. [insert_with_ref] keeps the store
    well-formed and its series in place. It succeeds exactly when the
    reference then names a series with these labels and the labels that
    reference; it refuses, without a change, reference 0 and a reference or
    labels already bound otherwise; and it throws only for a reference no
    vector has room for. *)
Theorem store_insert_with_ref (ref : Z) (labels : Labels.t) (st : t) :
  wf st → 0 <= ref →
  match insert_with_ref ref labels st with
  | Some (true, st') =>
      wf st' ∧ keeps st st' ∧ by_labels_ st' !! labels = Some ref ∧ ref < next_ref_ st' ∧
      ∃ i s, get ref st' = Some i ∧ slot st' i = Some s ∧ MemSeries.labels_ s = labels ∧ MemSeries.ref_ s = ref
  | Some (false, st') =>
      st' = st ∧ (ref = 0 ∨ (∃ ls, ls ≠ labels ∧ by_labels_ st !! ls = Some ref) ∨
                  (∃ r, r ≠ ref ∧ by_labels_ st !! labels = Some r))
  | None => max_slots < ref
  end.
Proof.
  intros Hwf Href0. destruct (decide (ref = 0)) as [->|Hne]; [by split; [|left]|].
  set (i := Z.to_nat (ref - 1)). pose proof (wf_next _ Hwf) as Hnext. pose proof (wf_size _ Hwf) as Hsize.
  assert (∀ st', wf st' → by_labels_ st' !! labels = Some ref →
    ref < next_ref_ st' ∧
    ∃ i s, get ref st' = Some i ∧ slot st' i = Some s ∧ MemSeries.labels_ s = labels ∧ MemSeries.ref_ s = ref) as Hfound.
  { intros st' Hwf' Hr. destruct (wf_labels _ Hwf' _ _ Hr) as (Hr1 & s & Hs & Hls).
    destruct (wf_slot _ Hwf' _ _ Hs) as [Hsr _]. pose proof (wf_next _ Hwf'). apply slot_lt in Hs as Hlt.
    split; [lia|]. exists (Z.to_nat (ref - 1)), s. rewrite get_spec, Hs by (done || lia). split_and!; [done..|lia]. }
  destruct (slot st i) as [s|] eqn:Hs.
  - unfold insert_with_ref. destruct (Z.eqb_spec ref 0); [done|]. fold i. rewrite Hs.
    destruct (wf_slot _ Hwf _ _ Hs) as [Hsr Hl]. replace (Z.of_nat i + 1) with ref in * by lia.
    case_bool_decide as Hlab; [|split; [done|]; right; left; by eexists].
    rewrite Hlab in Hl. split_and!; [done|by intros ? ?|done|by apply Hfound..].
  - destruct (by_labels_ st !! labels) as [r|] eqn:Hr.
    + unfold insert_with_ref. destruct (Z.eqb_spec ref 0); [done|]. fold i. rewrite Hs, Hr.
      destruct (Z.eqb_spec r ref) as [->|Hrne]; [|split; [done|]; right; right; eauto].
      split_and!; [done|by intros ? ?|done|by apply Hfound..].
    + destruct (decide (ref <= Z.of_nat (length (by_ref_ st)))) as [Hold|Hbeyond].
      * rewrite insert_with_ref_hole by (done || lia). fold i.
        assert (i < length (by_ref_ st))%nat as Hlt by lia.
        assert (wf (fill_hole i labels st)) as Hwf' by by apply wf_fill_hole.
        assert (by_labels_ (fill_hole i labels st) !! labels = Some ref) as Hl
          by (cbn [by_labels_ fill_hole]; rewrite lookup_insert_eq; f_equal; lia).
        split_and!; [done| |done|by apply Hfound..].
        intros j s' Hj. rewrite slot_fill by done. rewrite decide_False by (intros ->; congruence). done.
      * destruct (decide (ref <= max_slots)) as [Hfits|Hbig].
        -- rewrite insert_with_ref_new by (done || lia).
           assert (wf (add_series ref labels st)) as Hwf' by (apply wf_add_series; [done|lia|done]).
           assert (by_labels_ (add_series ref labels st) !! labels = Some ref) as Hl
             by (cbn [by_labels_ add_series]; apply lookup_insert_eq).
           split_and!; [done|apply keeps_add; lia|done|by apply Hfound..].
        -- unfold insert_with_ref. destruct (Z.eqb_spec ref 0); [done|]. fold i. rewrite Hs, Hr.
           unfold ensure_ref_slot. destruct (Z.eqb_spec ref 0); [done|].
           destruct (Z.leb_spec (Z.of_nat (length (by_ref_ st))) (ref - 1)); [|lia].
           destruct (Z.ltb_spec max_slots ref); [|lia]. cbn [mbind option_bind]. lia.
Qed.

Lemma store_insert_with_ref_witness :
  match insert_with_ref 5 [mkLabel [97] [98]] new with
  | Some (true, st') =>
      wf st' ∧ keeps new st' ∧ by_labels_ st' !! [mkLabel [97] [98]] = Some 5 ∧ 5 < next_ref_ st' ∧
      ∃ i s, get 5 st' = Some i ∧ slot st' i = Some s ∧
        MemSeries.labels_ s = [mkLabel [97] [98]] ∧ MemSeries.ref_ s = 5
  | Some (false, st') =>
      st' = new ∧ (5 = 0 ∨ (∃ ls, ls ≠ [mkLabel [97] [98]] ∧ by_labels_ new !! ls = Some 5) ∨
                   (∃ r, r ≠ 5 ∧ by_labels_ new !! [mkLabel [97] [98]] = Some r))
  | None => max_slots < 5
  end.
Proof. apply (store_insert_with_ref 5 [mkLabel [97] [98]] new); [apply wf_new|discriminate]. Defined.

End SeriesStoreProps.
