(* ===== verification/Query.v ===== *)
(** What a query returns, and what the querier expects of a source:
    [Head::QueryResult] in [include/merlion_tsdb/head/head.hpp],
    [block::ChunkMeta] in [include/merlion_tsdb/block/index.hpp], and
    [labels_match_all] of [src/head/head.cpp]. *)

From S2P Require Import Prelude Ordered BStream Xor Labels Matcher.

Record ChunkMeta : Type := mkChunkMeta { min_time : Z; max_time : Z; chunk_ref : Z }.

#[export] Instance ChunkMeta_eq_dec : EqDecision ChunkMeta.
Proof. solve_decision. Defined.

Record QueryResult : Type := mkQueryResult {
  qr_labels : Labels.t;
  qr_chunks : list XORChunk.t;
  qr_metas : list ChunkMeta;
}.

Section Matching.
Context `{RegexEngine}.

(** An absent label has the empty value. *)
Definition labels_match_all (labels : Labels.t) (matchers : list Matcher.t) : bool :=
  forallb (λ m, Matcher.matches m (default [] (Labels.get labels (Matcher.name_ m)))) matchers.

End Matching.
