(* ===== verification/Index.v ===== *)
(** The index file of a block, reader side: [include/merlion_tsdb/block/index.hpp]
    and [src/block/index.cpp]. Offsets are [std::size_t], their arithmetic wraps;
    a span outside the file, a signed overflow and a [reserve] beyond
    [max_size()] are undefined outcomes. *)

From S2P Require Import Prelude Ordered Sorted Files Varint Bytes Crc32c Labels Record Xor Query.

(** * Format *)

Definition k_magic_index : Z := 0xBAAAD700.
Definition k_index_format_v1 : Z := 1.
Definition k_index_format_v2 : Z := 2.
Definition k_index_format_v3 : Z := 3.
Definition k_index_header_size : Z := 5.
Definition k_index_toc_size : Z := 6 * 8 + 4.
Definition k_symbol_sparse_stride : Z := 32.

Record IndexTOC : Type := mkTOC {
  toc_symbols : Z;
  toc_series : Z;
  toc_label_indices : Z;
  toc_label_indices_table : Z;
  toc_postings : Z;
  toc_postings_table : Z;
}.

#[export] Instance IndexTOC_eq_dec : EqDecision IndexTOC.
Proof. solve_decision. Defined.

Record PostingsOffsetEntry : Type := mkPostingsEntry { pe_name : str; pe_value : str; pe_offset : Z }.

#[export] Instance PostingsOffsetEntry_eq_dec : EqDecision PostingsOffsetEntry.
Proof. solve_decision. Defined.

Record SeriesEntry : Type := mkSeriesEntry { se_labels : Labels.t; se_chunks : list ChunkMeta }.

#[export] Instance SeriesEntry_eq_dec : EqDecision SeriesEntry.
Proof. solve_decision. Defined.

(** A result of the reader. *)
Abbreviation R := (outcome error_code).

Definition illegal {A} : R A := Err illegal_byte_sequence.

(** [varint::read_uvarint(bytes.subspan(pos))]: the value and the position
    behind it. *)
Definition uvarint_at (bytes : list Z) (pos : Z) : R (Z * Z) :=
  s ← of_option (subspan_from bytes pos);
  match read_uvarint s with
  | Ok (v, n) => Ok (v, u64 (pos + Z.of_nat n))
  | Err _ => illegal
  | UB => UB
  end.

Definition varint_at (bytes : list Z) (pos : Z) : R (Z * Z) :=
  s ← of_option (subspan_from bytes pos);
  match read_varint s with
  | Ok (v, n) => Ok (v, u64 (pos + Z.of_nat n))
  | Err _ => illegal
  | UB => UB
  end.

(** * Sections *)

(** Payload at [payload_off], [len] bytes long, and the checksum behind it. *)
Definition checked_payload (bytes : list Z) (payload_off len : Z) : R (list Z) :=
  if zlen bytes <? u64 (u64 (payload_off + len) + 4) then illegal
  else
    payload ← of_option (subspan bytes payload_off len);
    crc ← of_option (subspan bytes (u64 (payload_off + len)) 4);
    if negb (Crc32c.compute payload =? read_be32 crc) then illegal else Ok payload.

Definition read_section_payload (bytes : list Z) (offset : Z) : R (list Z) :=
  if zlen bytes <? u64 (offset + 4) then illegal
  else
    prefix ← of_option (subspan bytes offset 4);
    checked_payload bytes (u64 (offset + 4)) (read_be32 prefix).

Definition read_uvarint_section_payload (bytes : list Z) (offset : Z) : R (list Z) :=
  if zlen bytes <=? offset then illegal
  else
    '(len, payload_off) ← uvarint_at bytes offset;
    checked_payload bytes payload_off len.

Definition parse_toc (bytes : list Z) : R IndexTOC :=
  if zlen bytes <? k_index_toc_size then illegal
  else
    toc ← of_option (subspan bytes (zlen bytes - k_index_toc_size) k_index_toc_size);
    let field i := read_be64 (take 8 (drop (8 * i) toc)) in
    if negb (Crc32c.compute (take 48 toc) =? read_be32 (drop 48 toc)) then illegal
    else Ok (mkTOC (field 0%nat) (field 1%nat) (field 2%nat) (field 3%nat) (field 4%nat) (field 5%nat)).

(** * IndexSymbolTable *)

Module IndexSymbolTable.

Record t : Type := mk {
  file_bytes_ : list Z;
  version_ : Z;
  count_ : Z;
  payload_offset_ : Z;
  sparse_offsets_ : list Z;
}.

(** The loop of [parse], [todo] symbols before its end: [limit] is where the
    payload ends. *)
Fixpoint parse_loop (todo : nat) (bytes : list Z) (limit seen pos : Z) (offsets : list Z) : R (list Z) :=
  match todo with
  | O => Ok offsets
  | S todo =>
      let offsets := if seen mod k_symbol_sparse_stride =? 0 then offsets ++ [pos] else offsets in
      if zlen bytes <=? pos then illegal
      else
        '(len, str_pos) ← uvarint_at bytes pos;
        let pos := u64 (str_pos + len) in
        if limit <? pos then illegal else parse_loop todo bytes limit (seen + 1) pos offsets
  end.

Definition parse (bytes : list Z) (section_offset version : Z) : R t :=
  payload ← read_section_payload bytes section_offset;
  if zlen payload <? 4 then illegal
  else
    let count := read_be32 (take 4 payload) in
    let payload_off := u64 (section_offset + 4) in
    let data_start := u64 (payload_off + 4) in
    offsets ← parse_loop (Z.to_nat count) bytes (data_start + zlen payload - 4) 0 data_start [];
    Ok (mk bytes version count payload_off offsets).

(** Skipping [n] symbols. *)
Fixpoint walk (n : nat) (bytes : list Z) (pos : Z) : R Z :=
  match n with
  | O => Ok pos
  | S n =>
      '(len, str_pos) ← uvarint_at bytes pos;
      walk n bytes (u64 (str_pos + len))
  end.

(** The symbol whose length stands at [pos]. *)
Definition string_at (bytes : list Z) (pos : Z) : R str :=
  '(len, str_start) ← uvarint_at bytes pos;
  if zlen bytes <? u64 (str_start + len) then illegal
  else of_option (subspan bytes str_start len).

Definition lookup (s : t) (ref : Z) : R str :=
  let bytes := file_bytes_ s in
  if version_ s =? k_index_format_v1 then
    if zlen bytes <=? ref then illegal else string_at bytes ref
  else if count_ s <=? ref then Err result_out_of_range
  else
    match sparse_offsets_ s !! Z.to_nat (ref / k_symbol_sparse_stride) with
    | None => illegal
    | Some base =>
        pos ← walk (Z.to_nat (ref mod k_symbol_sparse_stride)) bytes base;
        string_at bytes pos
    end.

(** [all_symbols]; the loop stops quietly at a length it cannot read. *)
Fixpoint all_loop (todo : nat) (bytes : list Z) (pos : Z) : option (list str) :=
  match todo with
  | O => Some []
  | S todo =>
      match uvarint_at bytes pos with
      | Err _ => Some []
      | UB => None
      | Ok (len, str_pos) =>
          s ← subspan bytes str_pos len;
          rest ← all_loop todo bytes (u64 (str_pos + len));
          Some (s :: rest)
      end
  end.

Definition all_symbols (s : t) : option (list str) :=
  all_loop (Z.to_nat (count_ s)) (file_bytes_ s) (u64 (payload_offset_ s + 4)).

End IndexSymbolTable.

(** * Series entries *)

(** Above it [reserve] throws [std::length_error]. *)
Definition max_chunk_metas : Z := (2 ^ 63 - 1) / 24.

(** The loop over [todo] labels. Each takes two bytes at least: the length of
    the payload is enough fuel. *)
Fixpoint decode_label_refs (fuel : nat) (todo : Z) (payload : list Z) (symbols : IndexSymbolTable.t) (pos : Z)
    (labels : list Label) : R (list Label * Z) :=
  if todo <=? 0 then Ok (labels, pos)
  else
    match fuel with
    | O => UB
    | S fuel =>
        '(lno, pos) ← uvarint_at payload pos;
        '(lvo, pos) ← uvarint_at payload pos;
        match IndexSymbolTable.lookup symbols (u32 lno), IndexSymbolTable.lookup symbols (u32 lvo) with
        | Ok n, Ok v => decode_label_refs fuel (todo - 1) payload symbols pos (labels ++ [mkLabel n v])
        | UB, _ | _, UB => UB
        | _, _ => illegal
        end
    end.

(** The loop over the chunks but the first: [t0] is the end of the chunk
    before, [signed_ref] its reference. *)
Fixpoint decode_chunk_metas (fuel : nat) (todo : Z) (payload : list Z) (pos t0 signed_ref : Z)
    (chunks : list ChunkMeta) : R (list ChunkMeta) :=
  if todo <=? 0 then Ok chunks
  else
    match fuel with
    | O => UB
    | S fuel =>
        '(mint_delta, pos) ← uvarint_at payload pos;
        mint ← of_option (i64_add (i64 mint_delta) t0);
        '(maxt_d, pos) ← uvarint_at payload pos;
        this_maxt ← of_option (i64_add (i64 maxt_d) mint);
        '(ref_delta, pos) ← varint_at payload pos;
        signed_ref ← of_option (i64_add signed_ref ref_delta);
        decode_chunk_metas fuel (todo - 1) payload pos this_maxt signed_ref
          (chunks ++ [mkChunkMeta mint this_maxt (u64 signed_ref)])
    end.

Definition decode_series_payload (payload : list Z) (symbols : IndexSymbolTable.t) : R SeriesEntry :=
  '(k, pos) ← uvarint_at payload 0;
  if max_labels <? k then UB
  else
    '(labels, pos) ← decode_label_refs (S (length payload)) k payload symbols pos [];
    let labels := Labels.of_entries labels in
    '(k, pos) ← uvarint_at payload pos;
    if k =? 0 then Ok (mkSeriesEntry labels [])
    else if max_chunk_metas <? k then UB
    else
      '(t0, pos) ← varint_at payload pos;
      '(maxt_delta, pos) ← uvarint_at payload pos;
      maxt ← of_option (i64_add (i64 maxt_delta) t0);
      '(ref0, pos) ← uvarint_at payload pos;
      chunks ← decode_chunk_metas (S (length payload)) (k - 1) payload pos maxt (i64 ref0) [mkChunkMeta t0 maxt ref0];
      Ok (mkSeriesEntry labels chunks).

(** * PostingsOffsetTable *)

Module PostingsOffsetTable.

Record t : Type := mk { entries_ : list PostingsOffsetEntry; by_pair_ : gmap str Z }.

(** [name + '\0' + value]. *)
Definition pair_key (name value : str) : str := name ++ [0] ++ value.

(** [emplace]: the first entry of a key stays. *)
Definition new (entries : list PostingsOffsetEntry) : t :=
  mk entries (foldl (λ m e,
    let key := pair_key (pe_name e) (pe_value e) in
    match m !! key with Some _ => m | None => <[key := pe_offset e]> m end) ∅ entries).

(** A length and that many bytes. *)
Definition parse_string (payload : list Z) (pos : Z) : R (str * Z) :=
  '(len, pos) ← uvarint_at payload pos;
  if zlen payload <? u64 (pos + len) then illegal
  else s ← of_option (subspan payload pos len); Ok (s, u64 (pos + len)).

Fixpoint parse_loop (todo : nat) (payload : list Z) (pos : Z) (entries : list PostingsOffsetEntry)
    : R (list PostingsOffsetEntry * Z) :=
  match todo with
  | O => Ok (entries, pos)
  | S todo =>
      '(keycount, pos) ← uvarint_at payload pos;
      if negb (keycount =? 2) then illegal
      else
        '(name, pos) ← parse_string payload pos;
        '(value, pos) ← parse_string payload pos;
        '(off, pos) ← uvarint_at payload pos;
        parse_loop todo payload pos (entries ++ [mkPostingsEntry name value off])
  end.

Definition parse (bytes : list Z) (section_offset : Z) : R t :=
  payload ← read_section_payload bytes section_offset;
  if zlen payload <? 4 then illegal
  else
    let count := read_be32 (take 4 payload) in
    '(entries, pos) ← parse_loop (Z.to_nat count) payload 4 [];
    if negb (pos =? zlen payload) then illegal else Ok (new entries).

Definition lookup (p : t) (name value : str) : option Z := by_pair_ p !! pair_key name value.

End PostingsOffsetTable.

(** [payload.size() < 4 + 4 * count], then [count] big-endian integers. *)
Definition read_posting_list (bytes : list Z) (offset : Z) : R (list Z) :=
  payload ← read_section_payload bytes offset;
  if zlen payload <? 4 then illegal
  else
    let count := read_be32 (take 4 payload) in
    if zlen payload <? 4 + 4 * count then illegal
    else Ok ((λ i, read_be32 (take 4 (drop (4 + 4 * i) payload))) <$> seq 0 (Z.to_nat count)).

(** * IndexReader *)

Module IndexReader.

Record t : Type := mk {
  data_ : list Z;
  version_ : Z;
  toc_ : IndexTOC;
  symbols_ : IndexSymbolTable.t;
  postings_table_ : PostingsOffsetTable.t;
}.

Definition parse (data : list Z) : R t :=
  if zlen data <? k_index_header_size + k_index_toc_size then illegal
  else if negb (read_be32 (take 4 data) =? k_magic_index) then illegal
  else
    let version := nth 4 data 0 in
    if negb (version =? k_index_format_v1) && negb (version =? k_index_format_v2) && negb (version =? k_index_format_v3)
    then Err not_supported
    else
      toc ← parse_toc data;
      symbols ← IndexSymbolTable.parse data (toc_symbols toc) version;
      table ← PostingsOffsetTable.parse data (toc_postings_table toc);
      Ok (mk data version toc symbols table).

(** [open]: the file is read as a whole. *)
Definition open (fs : gmap str (list Z)) (index_file : str) : R t :=
  match fs !! index_file with
  | None => Err no_such_file_or_directory
  | Some data => parse data
  end.

Definition postings (r : t) (name value : str) : R (list Z) :=
  match PostingsOffsetTable.lookup (postings_table_ r) name value with
  | None => Ok []
  | Some off => read_posting_list (data_ r) off
  end.

(** The lists of the entries that [keep] selects, one after the other. *)
Fixpoint collect (keep : PostingsOffsetEntry → bool) (data : list Z) (entries : list PostingsOffsetEntry)
    : R (list Z) :=
  match entries with
  | [] => Ok []
  | e :: entries =>
      if keep e then
        ids ← read_posting_list data (pe_offset e);
        rest ← collect keep data entries;
        Ok (ids ++ rest)
      else collect keep data entries
  end.

Definition postings_for_name (r : t) (name : str) : R (list Z) :=
  ids ← collect (λ e, str_eqb (pe_name e) name) (data_ r) (PostingsOffsetTable.entries_ (postings_table_ r));
  Ok (sort_unique Z.ltb ids).

Definition all_postings (r : t) : R (list Z) :=
  ids ← collect (λ _, true) (data_ r) (PostingsOffsetTable.entries_ (postings_table_ r));
  Ok (sort_unique Z.ltb ids).

Definition label_values (r : t) (name : str) : list str :=
  sort_unique str_ltb
    (pe_value <$> filter (λ e, str_eqb (pe_name e) name = true) (PostingsOffsetTable.entries_ (postings_table_ r))).

Definition series (r : t) (id : Z) : R SeriesEntry :=
  let offset := if version_ r =? k_index_format_v1 then id else u64 (id * 16) in
  payload ← read_uvarint_section_payload (data_ r) offset;
  decode_series_payload payload (symbols_ r).

End IndexReader.

(** * Facts *)

Module IndexFacts.
Import BytesFacts.

(** A file in memory: a span of less than 2^63 bytes. *)
Definition file_ok (bytes : list Z) : Prop := zlen bytes < 2 ^ 63.

Lemma file_pos bytes x : file_ok bytes → 0 <= x <= zlen bytes → u64 x = x.
Proof. unfold file_ok. intros. apply u64_small. width. Qed.

(** ** Varints at a position *)

Lemma uvarint_at_holds bytes pos x :
  file_ok bytes → holds bytes pos (uvarint_bytes x) → is_u64 x = true →
  uvarint_at bytes pos = Ok (x, pos + zlen (uvarint_bytes x)).
Proof.
  intros Hf Hh Hx. pose proof (holds_bounds _ _ _ Hh). pose proof (zlen_nonneg (uvarint_bytes x)).
  destruct (holds_uvarint _ _ _ Hh Hx) as (s & Hs & Hread). unfold uvarint_at. rewrite Hs.
  cbn [of_option mbind outcome_bind]. rewrite Hread. do 2 f_equal. apply (file_pos bytes); [done|]. unfold zlen in *. lia.
Qed.

Lemma varint_at_holds bytes pos x :
  file_ok bytes → holds bytes pos (varint_bytes x) → is_i64 x = true →
  varint_at bytes pos = Ok (x, pos + zlen (varint_bytes x)).
Proof.
  intros Hf Hh Hx. pose proof (holds_bounds _ _ _ Hh). pose proof (zlen_nonneg (varint_bytes x)).
  apply holds_subspan_from in Hh as [post Hs]. unfold varint_at. rewrite Hs.
  cbn [of_option mbind outcome_bind]. rewrite read_varint_bytes by done. do 2 f_equal.
  apply (file_pos bytes); [done|]. unfold zlen in *. lia.
Qed.

(** ** Sections *)

(** A section with a 32-bit length, and one with a varint length. *)
Definition section (p : list Z) : list Z := be32 (zlen p) ++ p ++ be32 (Crc32c.compute p).
Definition usection (p : list Z) : list Z := uvarint_bytes (zlen p) ++ p ++ be32 (Crc32c.compute p).

Lemma checked_payload_holds bytes off p :
  file_ok bytes → holds bytes off (p ++ be32 (Crc32c.compute p)) → bytes_ok p →
  checked_payload bytes off (zlen p) = Ok p.
Proof.
  intros Hf Hh Hp. pose proof (holds_bounds _ _ _ Hh) as [? Hend]. rewrite zlen_app, zlen_be32 in Hend.
  pose proof (zlen_nonneg p). apply holds_split in Hh as [Hd Hcrc]. unfold checked_payload.
  rewrite (file_pos bytes (off + zlen p)), (file_pos bytes (off + zlen p + 4)) by (done || lia).
  destruct (Z.ltb_spec (zlen bytes) (off + zlen p + 4)); [lia|].
  rewrite (holds_subspan _ _ _ Hd). cbn [of_option mbind outcome_bind].
  pose proof (holds_subspan _ _ _ Hcrc) as Hcrc'. rewrite zlen_be32 in Hcrc'. rewrite Hcrc'. cbn [of_option mbind outcome_bind].
  rewrite read_be32_be32 by by apply compute_range. by rewrite Z.eqb_refl.
Qed.

Lemma read_section_holds bytes off p :
  file_ok bytes → holds bytes off (section p) → bytes_ok p → zlen p < 2 ^ 32 →
  read_section_payload bytes off = Ok p.
Proof.
  intros Hf Hh Hp Hlen. pose proof (holds_bounds _ _ _ Hh) as [? Hend]. unfold section in Hend, Hh.
  rewrite !zlen_app, !zlen_be32 in Hend. pose proof (zlen_nonneg p). unfold read_section_payload.
  rewrite (file_pos bytes (off + 4)) by (done || lia). destruct (Z.ltb_spec (zlen bytes) (off + 4)); [lia|].
  apply holds_split in Hh as [Hl Hh]. pose proof (holds_subspan _ _ _ Hl) as Hl'. rewrite zlen_be32 in Hl', Hh.
  rewrite Hl'. cbn [of_option mbind outcome_bind]. rewrite read_be32_be32 by lia. by apply checked_payload_holds.
Qed.

Lemma read_usection_holds bytes off p :
  file_ok bytes → holds bytes off (usection p) → bytes_ok p →
  read_uvarint_section_payload bytes off = Ok p.
Proof.
  intros Hf Hh Hp. pose proof (holds_bounds _ _ _ Hh) as [? Hend]. unfold usection in Hend, Hh.
  rewrite !zlen_app, zlen_be32 in Hend. pose proof (zlen_nonneg p). unfold read_uvarint_section_payload.
  pose proof (zlen_nonneg (uvarint_bytes (zlen p))). destruct (Z.leb_spec (zlen bytes) off); [lia|].
  apply holds_split in Hh as [Hl Hh]. rewrite (uvarint_at_holds _ _ _ Hf Hl) by (unfold file_ok in Hf; width).
  cbn [of_option mbind outcome_bind]. by apply checked_payload_holds.
Qed.

(** ** Strings and symbols *)

(** A length and that many bytes. *)
Definition str_bytes (s : str) : list Z := uvarint_bytes (zlen s) ++ s.

Lemma zlen_str_bytes s : zlen (str_bytes s) = zlen (uvarint_bytes (zlen s)) + zlen s.
Proof. apply zlen_app. Qed.

Lemma holds_str_u64 bytes pos s : file_ok bytes → holds bytes pos (str_bytes s) → is_u64 (zlen s) = true.
Proof.
  intros Hf Hh%holds_bounds. rewrite zlen_str_bytes in Hh. unfold file_ok in Hf.
  pose proof (zlen_nonneg s). pose proof (zlen_nonneg (uvarint_bytes (zlen s))). width.
Qed.

Lemma string_at_holds bytes pos s :
  file_ok bytes → holds bytes pos (str_bytes s) → IndexSymbolTable.string_at bytes pos = Ok s.
Proof.
  intros Hf Hh. pose proof (holds_str_u64 _ _ _ Hf Hh) as Hs. pose proof (holds_bounds _ _ _ Hh) as [? Hend].
  rewrite zlen_str_bytes in Hend. pose proof (zlen_nonneg s). pose proof (zlen_nonneg (uvarint_bytes (zlen s))).
  apply holds_split in Hh as [Hl Hh]. unfold IndexSymbolTable.string_at. rewrite (uvarint_at_holds _ _ _ Hf Hl Hs).
  cbn [mbind outcome_bind]. rewrite (file_pos bytes) by (done || lia).
  destruct (Z.ltb_spec (zlen bytes) (pos + zlen (uvarint_bytes (zlen s)) + zlen s)); [lia|].
  by rewrite (holds_subspan _ _ _ Hh).
Qed.

(** The bytes of a run of symbols. *)
Definition symbols_bytes (syms : list str) : list Z := concat (str_bytes <$> syms).

Lemma symbols_bytes_cons s syms : symbols_bytes (s :: syms) = str_bytes s ++ symbols_bytes syms.
Proof. done. Qed.

(** One symbol of a run: its length is read, the next one follows. *)
Lemma symbol_step bytes pos s syms :
  file_ok bytes → holds bytes pos (symbols_bytes (s :: syms)) →
  uvarint_at bytes pos = Ok (zlen s, pos + zlen (uvarint_bytes (zlen s))) ∧
  u64 (pos + zlen (uvarint_bytes (zlen s)) + zlen s) = pos + zlen (str_bytes s) ∧
  holds bytes pos (str_bytes s) ∧ holds bytes (pos + zlen (str_bytes s)) (symbols_bytes syms) ∧
  pos < zlen bytes.
Proof.
  intros Hf Hh. rewrite symbols_bytes_cons in Hh. apply holds_split in Hh as [Hs Hrest].
  pose proof (holds_str_u64 _ _ _ Hf Hs) as Hu. pose proof (holds_bounds _ _ _ Hs) as [? Hend].
  rewrite zlen_str_bytes in *. pose proof (zlen_nonneg s). pose proof (zlen_uvarint _ Hu).
  pose proof Hs as [Hl _]%holds_split. split_and!; [by apply uvarint_at_holds| |done|done|lia].
  rewrite (file_pos bytes); [lia|done|lia].
Qed.

Lemma walk_holds bytes pos syms n :
  file_ok bytes → holds bytes pos (symbols_bytes syms) → (n <= length syms)%nat →
  IndexSymbolTable.walk n bytes pos = Ok (pos + zlen (symbols_bytes (take n syms))).
Proof.
  intros Hf. revert pos syms. induction n as [|n IH]; intros pos syms Hh Hn.
  { cbn [IndexSymbolTable.walk take]. change (zlen (symbols_bytes [])) with 0. by rewrite Z.add_0_r. }
  destruct syms as [|s syms]; [simpl in Hn; lia|]. destruct (symbol_step _ _ _ _ Hf Hh) as (Hu & Hpos & _ & Hrest & _).
  cbn [IndexSymbolTable.walk take]. rewrite Hu. cbn [mbind outcome_bind]. rewrite Hpos, (IH _ syms) by (done || simpl in Hn; lia).
  rewrite symbols_bytes_cons, zlen_app. f_equal. lia.
Qed.

Lemma all_loop_holds bytes pos syms :
  file_ok bytes → holds bytes pos (symbols_bytes syms) →
  IndexSymbolTable.all_loop (length syms) bytes pos = Some syms.
Proof.
  intros Hf. revert pos. induction syms as [|s syms IH]; intros pos Hh; [done|].
  destruct (symbol_step _ _ _ _ Hf Hh) as (Hu & Hpos & Hs & Hrest & _). cbn [length IndexSymbolTable.all_loop].
  rewrite Hu, Hpos, IH by done. apply holds_split in Hs as [_ Hs]. by rewrite (holds_subspan _ _ _ Hs).
Qed.

(** Every 32nd position of a run whose first symbol has the number [seen]. *)
Fixpoint sparse (seen pos : Z) (syms : list str) : list Z :=
  match syms with
  | [] => []
  | s :: syms =>
      (if seen mod k_symbol_sparse_stride =? 0 then [pos] else []) ++ sparse (seen + 1) (pos + zlen (str_bytes s)) syms
  end.

Lemma parse_loop_holds bytes limit seen pos syms offsets :
  file_ok bytes → holds bytes pos (symbols_bytes syms) → pos + zlen (symbols_bytes syms) <= limit →
  IndexSymbolTable.parse_loop (length syms) bytes limit seen pos offsets = Ok (offsets ++ sparse seen pos syms).
Proof.
  intros Hf. revert seen pos offsets. induction syms as [|s syms IH]; intros seen pos offsets Hh Hlimit.
  { cbn. by rewrite app_nil_r. }
  destruct (symbol_step _ _ _ _ Hf Hh) as (Hu & Hpos & Hs & Hrest & Hlt). cbn [length IndexSymbolTable.parse_loop sparse].
  destruct (Z.leb_spec (zlen bytes) pos); [lia|]. rewrite Hu. cbn [mbind outcome_bind]. rewrite Hpos.
  rewrite symbols_bytes_cons, zlen_app in Hlimit. pose proof (zlen_nonneg (symbols_bytes syms)).
  destruct (Z.ltb_spec limit (pos + zlen (str_bytes s))); [lia|]. rewrite IH by (done || lia).
  by destruct (seen mod k_symbol_sparse_stride =? 0); rewrite <- ?app_assoc.
Qed.

Lemma sparse_lookup syms seen pos k i :
  0 <= seen → seen + Z.of_nat i = 32 * (Z.of_nat k + (seen + 31) / 32) → (i < length syms)%nat →
  sparse seen pos syms !! k = Some (pos + zlen (symbols_bytes (take i syms))).
Proof.
  revert seen pos k i. induction syms as [|s syms IH]; intros seen pos k i Hseen Hi Hlen; [simpl in Hlen; lia|].
  cbn [sparse length] in *. unfold k_symbol_sparse_stride. pose proof (Z.div_mod seen 32 ltac:(lia)) as Hdm.
  pose proof (Z.mod_pos_bound seen 32 eq_refl). pose proof (Z.div_mod (seen + 31) 32 ltac:(lia)).
  pose proof (Z.mod_pos_bound (seen + 31) 32 eq_refl). pose proof (Z.div_mod (seen + 1 + 31) 32 ltac:(lia)).
  pose proof (Z.mod_pos_bound (seen + 1 + 31) 32 eq_refl).
  assert (∀ i k, seen + 1 + Z.of_nat i = 32 * (Z.of_nat k + (seen + 1 + 31) / 32) → (i < length syms)%nat →
    sparse (seen + 1) (pos + zlen (str_bytes s)) syms !! k = Some (pos + zlen (symbols_bytes (take (S i) (s :: syms))))) as Hrest.
  { intros i' k' Hi' Hlen'. rewrite (IH _ _ k' i') by (done || lia). cbn [take]. rewrite symbols_bytes_cons, zlen_app. f_equal. lia. }
  destruct (Z.eqb_spec (seen mod 32) 0) as [Hmod|Hmod].
  - destruct k as [|k].
    + assert (i = 0%nat) as -> by lia. cbn. by rewrite Z.add_0_r.
    + destruct i as [|i]; [lia|]. cbn [app]. change ((pos :: ?l) !! S k) with (l !! k). apply Hrest; lia.
  - destruct i as [|i]; [lia|]. cbn [app]. apply Hrest; lia.
Qed.

(** The table of the symbols [syms], whose lengths and bytes start at [pos]. *)
Definition table (bytes : list Z) (version payload_off : Z) (syms : list str) : IndexSymbolTable.t :=
  IndexSymbolTable.mk bytes version (zlen syms) payload_off (sparse 0 (payload_off + 4) syms).

Definition symbols_payload (syms : list str) : list Z := be32 (zlen syms) ++ symbols_bytes syms.

Lemma parse_symbols bytes off version syms :
  file_ok bytes → holds bytes off (section (symbols_payload syms)) → bytes_ok (symbols_payload syms) →
  zlen (symbols_payload syms) < 2 ^ 32 → zlen syms < 2 ^ 32 →
  IndexSymbolTable.parse bytes off version = Ok (table bytes version (off + 4) syms) ∧
  holds bytes (off + 4 + 4) (symbols_bytes syms).
Proof.
  intros Hf Hh Hok Hlen Hn. unfold IndexSymbolTable.parse. rewrite (read_section_holds _ _ _ Hf Hh Hok Hlen).
  cbn [mbind outcome_bind]. pose proof (zlen_nonneg (symbols_bytes syms)). pose proof (zlen_nonneg syms).
  pose proof (holds_bounds _ _ _ Hh) as [? Hend]. unfold section in Hend, Hh. apply holds_split in Hh as [_ Hh].
  apply holds_split in Hh as [Hh _]. unfold symbols_payload in Hh. apply holds_split in Hh as [_ Hh].
  rewrite !zlen_be32 in Hh. rewrite !zlen_app, !zlen_be32 in Hend.
  assert (zlen (symbols_payload syms) = 4 + zlen (symbols_bytes syms)) as Hp
    by (unfold symbols_payload; rewrite zlen_app, zlen_be32; done).
  rewrite Hp in *. destruct (Z.ltb_spec (4 + zlen (symbols_bytes syms)) 4); [lia|].
  change (take 4 (symbols_payload syms)) with (be32 (zlen syms)). rewrite read_be32_be32 by lia.
  rewrite (file_pos bytes (off + 4)), (file_pos bytes (off + 4 + 4)) by (done || lia). rewrite zlen_nat.
  rewrite parse_loop_holds by (done || lia). done.
Qed.

Lemma lookup_table bytes version payload_off syms i s :
  file_ok bytes → holds bytes (payload_off + 4) (symbols_bytes syms) → version ≠ k_index_format_v1 →
  syms !! i = Some s → IndexSymbolTable.lookup (table bytes version payload_off syms) (Z.of_nat i) = Ok s.
Proof.
  intros Hf Hh Hv Hi. apply lookup_lt_Some in Hi as Hlt. unfold IndexSymbolTable.lookup, table.
  cbn [IndexSymbolTable.version_ IndexSymbolTable.count_ IndexSymbolTable.file_bytes_ IndexSymbolTable.sparse_offsets_].
  destruct (Z.eqb_spec version k_index_format_v1); [done|]. unfold k_symbol_sparse_stride.
  destruct (Z.leb_spec (zlen syms) (Z.of_nat i)); [unfold zlen in *; lia|].
  set (b := (i / 32)%nat). set (m := (i mod 32)%nat).
  assert (i = (32 * b + m)%nat) as Hbm by apply Nat.div_mod_eq. assert (m < 32)%nat by by apply Nat.mod_upper_bound.
  assert (Z.to_nat (Z.of_nat i / 32) = b) as ->
    by (change 32 with (Z.of_nat 32); by rewrite <- Nat2Z.inj_div, Nat2Z.id).
  assert (Z.to_nat (Z.of_nat i mod 32) = m) as ->
    by (change 32 with (Z.of_nat 32); by rewrite <- Nat2Z.inj_mod, Nat2Z.id).
  rewrite (sparse_lookup syms 0 _ b (32 * b)) by (change ((0 + 31) / 32) with 0; lia).
  rewrite <- (take_drop (32 * b) syms) in Hh at 1. unfold symbols_bytes at 1 in Hh. rewrite fmap_app, concat_app in Hh.
  change (concat (str_bytes <$> take (32 * b) syms)) with (symbols_bytes (take (32 * b) syms)) in Hh.
  apply holds_split in Hh as [_ Hh]. change (concat ?l) with (concat l) in Hh.
  rewrite (walk_holds _ _ (drop (32 * b) syms)) by (done || rewrite length_drop; lia). cbn [mbind outcome_bind].
  apply string_at_holds; [done|].
  rewrite <- (take_drop_middle (drop (32 * b) syms) m s) in Hh by (rewrite lookup_drop; by rewrite <- Hbm).
  rewrite fmap_app, concat_app in Hh. apply holds_split in Hh as [_ Hh]. by apply holds_split in Hh as [Hh _].
Qed.

(** ** Posting lists and the postings offset table *)

Definition posting_payload (ids : list Z) : list Z := be32 (zlen ids) ++ concat (be32 <$> ids).

Definition id_ok (id : Z) : Prop := 0 <= id < 2 ^ 32.

Lemma zlen_be32s ids : zlen (concat (be32 <$> ids)) = 4 * zlen ids.
Proof.
  induction ids as [|id ids IH]; [done|]. cbn [fmap list_fmap concat]. rewrite zlen_app, zlen_cons, zlen_be32, IH. lia.
Qed.

Lemma bytes_ok_concat {A} (f : A → list Z) l : (∀ x, x ∈ l → bytes_ok (f x)) → bytes_ok (concat (f <$> l)).
Proof.
  induction l as [|x l IH]; intros Hf; [constructor|]. cbn [fmap list_fmap concat]. apply Forall_app_2.
  - apply Hf. left.
  - apply IH. intros y Hy. apply Hf. by right.
Qed.

Lemma posting_payload_ok ids : bytes_ok (posting_payload ids).
Proof. apply Forall_app_2; [apply be32_ok|]. apply bytes_ok_concat. intros. apply be32_ok. Qed.

Lemma read_ids ids : Forall id_ok ids → ∀ pre,
  (λ i, read_be32 (take 4 (drop (length pre + 4 * i) (pre ++ concat (be32 <$> ids))))) <$> seq 0 (length ids) = ids.
Proof.
  induction 1 as [|id ids Hid _ IH]; intros pre; [done|]. cbn [length seq fmap list_fmap concat].
  rewrite Nat.mul_0_r, Nat.add_0_r, drop_app_length. f_equal.
  - change (take 4 (be32 id ++ concat (be32 <$> ids))) with (be32 id). by apply read_be32_be32.
  - rewrite <- (IH (pre ++ be32 id)) at 2. rewrite <- seq_shift, <- list_fmap_compose. apply list_fmap_ext.
    intros _ i _. cbn [compose]. rewrite length_app, <- app_assoc. change (length (be32 id)) with 4%nat.
    replace (length pre + 4 + 4 * i)%nat with (length pre + 4 * S i)%nat by lia. done.
Qed.

Lemma read_posting_holds bytes off ids :
  file_ok bytes → holds bytes off (section (posting_payload ids)) → Forall id_ok ids → 4 + 4 * zlen ids < 2 ^ 32 →
  read_posting_list bytes off = Ok ids.
Proof.
  intros Hf Hh Hids Hlen. pose proof (zlen_nonneg ids).
  assert (zlen (posting_payload ids) = 4 + 4 * zlen ids) as Hp
    by (unfold posting_payload; rewrite zlen_app, zlen_be32, zlen_be32s; done).
  unfold read_posting_list. rewrite (read_section_holds _ _ _ Hf Hh) by (apply posting_payload_ok || lia).
  cbn [mbind outcome_bind]. rewrite Hp. destruct (Z.ltb_spec (4 + 4 * zlen ids) 4); [lia|].
  change (take 4 (posting_payload ids)) with (be32 (zlen ids)). rewrite read_be32_be32 by lia.
  destruct (Z.ltb_spec (4 + 4 * zlen ids) (4 + 4 * zlen ids)); [lia|]. rewrite zlen_nat. f_equal.
  apply (read_ids ids Hids (be32 (zlen ids))).
Qed.

Definition entry_bytes (e : PostingsOffsetEntry) : list Z :=
  uvarint_bytes 2 ++ str_bytes (pe_name e) ++ str_bytes (pe_value e) ++ uvarint_bytes (pe_offset e).

Lemma parse_string_holds payload pos s :
  file_ok payload → holds payload pos (str_bytes s) →
  PostingsOffsetTable.parse_string payload pos = Ok (s, pos + zlen (str_bytes s)).
Proof.
  intros Hf Hh. pose proof (holds_str_u64 _ _ _ Hf Hh) as Hs. pose proof (holds_bounds _ _ _ Hh) as [? Hend].
  rewrite zlen_str_bytes in *. pose proof (zlen_nonneg s). pose proof (zlen_nonneg (uvarint_bytes (zlen s))).
  apply holds_split in Hh as [Hl Hh]. unfold PostingsOffsetTable.parse_string. rewrite (uvarint_at_holds _ _ _ Hf Hl Hs).
  cbn [mbind outcome_bind]. rewrite (file_pos payload) by (done || lia).
  destruct (Z.ltb_spec (zlen payload) (pos + zlen (uvarint_bytes (zlen s)) + zlen s)); [lia|].
  rewrite (holds_subspan _ _ _ Hh). cbn [of_option mbind outcome_bind]. do 2 f_equal. lia.
Qed.

Lemma parse_entries_holds payload pos es acc :
  file_ok payload → holds payload pos (concat (entry_bytes <$> es)) → Forall (λ e, is_u64 (pe_offset e) = true) es →
  PostingsOffsetTable.parse_loop (length es) payload pos acc = Ok (acc ++ es, pos + zlen (concat (entry_bytes <$> es))).
Proof.
  intros Hf Hh Hes. revert pos acc Hh. induction Hes as [|e es He _ IH]; intros pos acc Hh.
  { cbn. by rewrite app_nil_r, Z.add_0_r. }
  cbn [length PostingsOffsetTable.parse_loop fmap list_fmap concat] in *. apply holds_split in Hh as [He' Hrest].
  assert (zlen (entry_bytes e) = zlen (uvarint_bytes 2) + (zlen (str_bytes (pe_name e)) +
    (zlen (str_bytes (pe_value e)) + zlen (uvarint_bytes (pe_offset e))))) as Hz by (unfold entry_bytes; by rewrite !zlen_app).
  unfold entry_bytes in He'. apply holds_split in He' as [H1 He']. apply holds_split in He' as [H2 He'].
  apply holds_split in He' as [H3 H4].
  rewrite (uvarint_at_holds _ _ _ Hf H1) by done. cbn [mbind outcome_bind negb]. rewrite Z.eqb_refl. cbn [negb].
  rewrite (parse_string_holds _ _ _ Hf H2). cbn [mbind outcome_bind].
  rewrite (parse_string_holds _ _ _ Hf H3). cbn [mbind outcome_bind].
  rewrite (uvarint_at_holds _ _ _ Hf H4) by done. cbn [mbind outcome_bind].
  rewrite zlen_app, Hz in *. rewrite !Z.add_assoc in *. rewrite IH by done. rewrite <- app_assoc. destruct e. cbn [app].
  f_equal.
Qed.

Definition table_bytes (es : list PostingsOffsetEntry) : list Z := be32 (zlen es) ++ concat (entry_bytes <$> es).

Lemma parse_table bytes off es :
  file_ok bytes → holds bytes off (section (table_bytes es)) → bytes_ok (table_bytes es) →
  zlen (table_bytes es) < 2 ^ 32 → zlen es < 2 ^ 32 → Forall (λ e, is_u64 (pe_offset e) = true) es →
  PostingsOffsetTable.parse bytes off = Ok (PostingsOffsetTable.new es).
Proof.
  intros Hf Hh Hok Hlen Hn Hes. unfold PostingsOffsetTable.parse. rewrite (read_section_holds _ _ _ Hf Hh Hok Hlen).
  cbn [mbind outcome_bind]. pose proof (zlen_nonneg (concat (entry_bytes <$> es))). pose proof (zlen_nonneg es).
  assert (zlen (table_bytes es) = 4 + zlen (concat (entry_bytes <$> es))) as Hp
    by (unfold table_bytes; rewrite zlen_app, zlen_be32; done).
  destruct (Z.ltb_spec (zlen (table_bytes es)) 4); [lia|].
  change (take 4 (table_bytes es)) with (be32 (zlen es)). rewrite read_be32_be32 by lia. rewrite zlen_nat.
  rewrite parse_entries_holds; [|unfold file_ok; lia| |done].
  - cbn [mbind outcome_bind]. rewrite Hp, Z.eqb_refl. done.
  - exists (be32 (zlen es)), []. by rewrite app_nil_r.
Qed.

(** The table of contents of a file that ends with it. *)
Lemma parse_toc_holds pre toc :
  zlen (pre ++ toc ++ be32 (Crc32c.compute toc)) < 2 ^ 63 → zlen toc = 48 → bytes_ok toc →
  ∃ t, parse_toc (pre ++ toc ++ be32 (Crc32c.compute toc)) = Ok t ∧
    toc_symbols t = read_be64 (take 8 toc) ∧ toc_postings_table t = read_be64 (take 8 (drop 40 toc)).
Proof.
  intros Hf Hlen Hok. unfold parse_toc, k_index_toc_size. change (6 * 8 + 4) with 52. rewrite !zlen_app, zlen_be32, Hlen.
  pose proof (zlen_nonneg pre). destruct (Z.ltb_spec (zlen pre + (48 + 4)) 52); [lia|].
  assert (subspan (pre ++ toc ++ be32 (Crc32c.compute toc)) (zlen pre + (48 + 4) - 52) 52 =
    Some (toc ++ be32 (Crc32c.compute toc))) as ->.
  { replace (zlen pre + (48 + 4) - 52) with (zlen pre) by lia.
    replace 52 with (zlen (toc ++ be32 (Crc32c.compute toc))) by (rewrite zlen_app, zlen_be32, Hlen; done).
    apply holds_subspan. exists pre, []. by rewrite app_nil_r. }
  cbn [of_option mbind outcome_bind]. assert (length toc = 48%nat) as Hn by (unfold zlen in Hlen; lia).
  rewrite take_app_length' by done. rewrite drop_app_length' by done. rewrite read_be32_be32 by by apply compute_range.
  rewrite Z.eqb_refl. cbn [negb]. eexists. split; [done|]. cbn [toc_symbols toc_postings_table].
  rewrite drop_0, !take_app_le, drop_app_le, take_app_le by (rewrite ?length_drop; lia). done.
Qed.

(** ** What a parsed index promises *)

(** [r] reads an index with these symbols, these series under their
    identifiers and these posting lists in the order of the offset table. *)
Record index_of (r : IndexReader.t) (syms : list str) (ser : list (Z * SeriesEntry))
    (posts : list (str * str * list Z)) : Prop := {
  io_symbols : IndexSymbolTable.all_symbols (IndexReader.symbols_ r) = Some syms;
  io_lookup : ∀ i s, syms !! i = Some s → IndexSymbolTable.lookup (IndexReader.symbols_ r) (Z.of_nat i) = Ok s;
  io_series : ∀ id e, (id, e) ∈ ser → IndexReader.series r id = Ok e;
  io_posts : Forall2 (λ e '(n, v, ids), pe_name e = n ∧ pe_value e = v ∧
    read_posting_list (IndexReader.data_ r) (pe_offset e) = Ok ids)
    (PostingsOffsetTable.entries_ (IndexReader.postings_table_ r)) posts;
  io_table : IndexReader.postings_table_ r =
    PostingsOffsetTable.new (PostingsOffsetTable.entries_ (IndexReader.postings_table_ r));
}.

(** ** Looking up posting lists *)

(** The list of the first entry for a pair. *)
Fixpoint find_post (n v : str) (posts : list (str * str * list Z)) : option (list Z) :=
  match posts with
  | [] => None
  | (n', v', ids) :: posts => if decide (n = n' ∧ v = v') then Some ids else find_post n v posts
  end.

(** A name the offset table can tell from its value. *)
Definition no_nul (n : str) : Prop := 0 ∉ n.

#[export] Instance no_nul_dec n : Decision (no_nul n).
Proof. unfold no_nul. apply _. Defined.

Lemma pair_key_inj n v n' v' :
  no_nul n → no_nul n' → PostingsOffsetTable.pair_key n v = PostingsOffsetTable.pair_key n' v' → n = n' ∧ v = v'.
Proof.
  unfold PostingsOffsetTable.pair_key, no_nul. revert n'. induction n as [|x n IH]; intros [|y n'] Hn Hn'; cbn [app].
  - by intros [= ->].
  - intros [= <- _]. by destruct Hn'; left.
  - intros [= -> _]. by destruct Hn; left.
  - intros [= -> Heq]. apply IH in Heq as [-> ->]; [done|..].
    + intros Hin. apply Hn. by right.
    + intros Hin. apply Hn'. by right.
Qed.

Lemma new_lookup r syms ser posts n v :
  index_of r syms ser posts → Forall (λ x, no_nul x.1.1) posts → no_nul n →
  IndexReader.postings r n v = Ok (default [] (find_post n v posts)).
Proof.
  intros [_ _ _ Hposts Htable] Hnul Hn. unfold IndexReader.postings, PostingsOffsetTable.lookup. rewrite Htable.
  cbn [PostingsOffsetTable.new PostingsOffsetTable.by_pair_]. clear Htable.
  set (key := PostingsOffsetTable.pair_key n v). set (data := IndexReader.data_ r) in *.
  assert (∀ m : gmap str Z, m !! key = None →
    match foldl (λ m e, let key := PostingsOffsetTable.pair_key (pe_name e) (pe_value e) in
        match m !! key with Some _ => m | None => <[key := pe_offset e]> m end) m
      (PostingsOffsetTable.entries_ (IndexReader.postings_table_ r)) !! key with
    | None => Ok []
    | Some off => read_posting_list data off
    end = Ok (default [] (find_post n v posts))) as Hgen; [|by apply Hgen].
  revert Hnul. induction Hposts as [|e [[n' v'] ids] es posts (He1 & He2 & Hread) _ IH]; intros Hnul m Hm; cbn [foldl].
  { by rewrite Hm. }
  apply Forall_cons_1 in Hnul as [Hn' Hnul]. cbn [fst find_post] in *. rewrite He1, He2.
  destruct (decide (n = n' ∧ v = v')) as [[-> ->]|Hne].
  - fold key. rewrite Hm.
    assert (∀ (es : list PostingsOffsetEntry) (m : gmap str Z) off, m !! key = Some off →
      foldl (λ m e, let key := PostingsOffsetTable.pair_key (pe_name e) (pe_value e) in
        match m !! key with Some _ => m | None => <[key := pe_offset e]> m end) m es !! key = Some off) as Hstay.
    { clear. induction es as [|e es IH]; intros m off Hm; cbn [foldl]; [done|]. apply IH.
      destruct (m !! PostingsOffsetTable.pair_key _ _) eqn:Hk; [done|].
      rewrite lookup_insert_ne; [done|]. intros Heq. rewrite Heq in Hk. congruence. }
    by rewrite (Hstay _ _ (pe_offset e)) by by rewrite lookup_insert_eq.
  - apply IH; [done|]. destruct (m !! PostingsOffsetTable.pair_key n' v'); [done|].
    rewrite lookup_insert_ne; [done|]. intros Heq. apply Hne. by apply pair_key_inj in Heq as [-> ->].
Qed.

Lemma collect_posts keep data es posts :
  Forall2 (λ e '(n, v, ids), pe_name e = n ∧ pe_value e = v ∧ read_posting_list data (pe_offset e) = Ok ids) es posts →
  (∀ e e', pe_name e = pe_name e' → keep e = keep e') →
  IndexReader.collect keep data es =
    Ok (concat ((λ x, x.2) <$> filter (λ x, keep (mkPostingsEntry x.1.1 x.1.2 0) = true) posts)).
Proof.
  intros Hall Hkeep. induction Hall as [|e [[n v] ids] es posts (Hn & Hv & Hread) _ IH]; [done|].
  cbn [IndexReader.collect]. rewrite filter_cons. cbn [fst snd].
  rewrite (Hkeep e (mkPostingsEntry n v 0)) by done. destruct (keep (mkPostingsEntry n v 0)).
  - rewrite decide_True by done. rewrite Hread, IH. done.
  - by rewrite decide_False by done.
Qed.

End IndexFacts.
