(* ===== verification/IndexWriter.v ===== *)
(** The index file of a block, writer side:
    [include/merlion_tsdb/block/index_writer.hpp] and
    [src/block/index_writer.cpp], and the round trip through the reader.

    The writer keeps the whole file in memory; only [create] and [close] touch
    the directory, a [World]. *)

From S2P Require Import Prelude Ordered Sorted Files Varint Bytes Crc32c Labels Record Xor Query Index.

Definition k_index_write_format : Z := 2.
Definition k_index_series_align : Z := 16.

Module IndexWriter.

Inductive Stage : Type := Header | Symbols | Series | Postings | Done.

(** The six [off_*] members are those of the table of contents. *)
Record t : Type := mk {
  file_ : str;
  buf_ : list Z;
  stage_ : Stage;
  next_sym_ref_ : Z;
  last_symbol_ : str;
  any_symbol_ : bool;
  symbols_len_off_ : Z;
  off_ : IndexTOC;
  series_count_ : Z;
  pending_postings_ : list PostingsOffsetEntry;
}.

#[export] Instance Stage_eq_dec : EqDecision Stage.
Proof. solve_decision. Defined.

Definition M (A : Type) : Type := rd t error_code A.

(** * Buffer helpers *)

Definition set_buf (buf : list Z) (s : t) : t :=
  mk (file_ s) buf (stage_ s) (next_sym_ref_ s) (last_symbol_ s) (any_symbol_ s) (symbols_len_off_ s) (off_ s)
    (series_count_ s) (pending_postings_ s).

Definition set_stage (stage : Stage) (s : t) : t :=
  mk (file_ s) (buf_ s) stage (next_sym_ref_ s) (last_symbol_ s) (any_symbol_ s) (symbols_len_off_ s) (off_ s)
    (series_count_ s) (pending_postings_ s).

Definition set_off (off : IndexTOC) (s : t) : t :=
  mk (file_ s) (buf_ s) (stage_ s) (next_sym_ref_ s) (last_symbol_ s) (any_symbol_ s) (symbols_len_off_ s) off
    (series_count_ s) (pending_postings_ s).

(** [put_uvarint_str]. *)
Definition uvarint_str (s : str) : list Z := uvarint_buf (zlen s) ++ s.

Definition patch_be32 (off : Z) (v : Z) (buf : list Z) : list Z :=
  take (Z.to_nat off) buf ++ be32 v ++ drop (Z.to_nat off + 4) buf.

Definition append_crc (start fin : Z) (buf : list Z) : list Z :=
  buf ++ be32 (Crc32c.compute (take (Z.to_nat (fin - start)) (drop (Z.to_nat start) buf))).

Definition pad_to (align : Z) (buf : list Z) : list Z :=
  let rem := zlen buf mod align in
  if rem =? 0 then buf else buf ++ replicate (Z.to_nat (align - rem)) 0.

(** * Operations *)

(** [create]: an existing file is refused. *)
Definition create (file : str) (fs : gmap str (list Z)) : outcome error_code t :=
  match fs !! file with
  | Some _ => Err file_exists
  | None =>
      Ok (mk file (be32 k_magic_index ++ [k_index_write_format]) Symbols 0 [] false 0 (mkTOC 0 0 0 0 0 0) 0 [])
  end.

(** Room for the length and the count of the symbol section. *)
Definition reserve_symbols (s : t) : t :=
  let off := mkTOC (zlen (buf_ s)) (toc_series (off_ s)) (toc_label_indices (off_ s))
    (toc_label_indices_table (off_ s)) (toc_postings (off_ s)) (toc_postings_table (off_ s)) in
  mk (file_ s) (buf_ s ++ be32 0 ++ be32 0) (stage_ s) (next_sym_ref_ s) (last_symbol_ s) (any_symbol_ s)
    (zlen (buf_ s) + 4) off (series_count_ s) (pending_postings_ s).

Definition add_symbol (sym : str) : M Z := λ s,
  if negb (bool_decide (stage_ s = Symbols)) then (Err operation_not_permitted, s)
  else if any_symbol_ s && str_ltb sym (last_symbol_ s) then (Err invalid_argument, s)
  else
    let s := if any_symbol_ s then s else reserve_symbols s in
    (Ok (next_sym_ref_ s),
     mk (file_ s) (buf_ s ++ uvarint_str sym) (stage_ s) (u32 (next_sym_ref_ s + 1)) sym true (symbols_len_off_ s)
       (off_ s) (series_count_ s) (pending_postings_ s)).

Definition finish_symbols : M unit := λ s,
  if negb (bool_decide (stage_ s = Symbols)) then (Err operation_not_permitted, s)
  else
    let s := if any_symbol_ s then s else reserve_symbols s in
    let buf := patch_be32 (symbols_len_off_ s) (next_sym_ref_ s) (buf_ s) in
    let payload_start := toc_symbols (off_ s) + 4 in
    let payload_end := zlen buf in
    let buf := patch_be32 (toc_symbols (off_ s)) (u32 (payload_end - payload_start)) buf in
    let buf := append_crc payload_start payload_end buf in
    (Ok tt, set_stage Series (set_buf buf s)).

(** The chunks but the first of a series entry; [None]: a difference
    overflows. *)
Fixpoint chunk_deltas (t0 ref0 : Z) (metas : list ChunkMeta) : option (list Z) :=
  match metas with
  | [] => Some []
  | c :: metas =>
      dmin ← i64_sub (min_time c) t0;
      dmax ← i64_sub (max_time c) (min_time c);
      dref ← i64_sub (i64 (chunk_ref c)) ref0;
      rest ← chunk_deltas (max_time c) (i64 (chunk_ref c)) metas;
      Some (uvarint_buf (u64 dmin) ++ uvarint_buf (u64 dmax) ++ varint_buf dref ++ rest)
  end.

Definition encode_chunks (metas : list ChunkMeta) : option (list Z) :=
  match metas with
  | [] => Some []
  | first :: rest =>
      d ← i64_sub (max_time first) (min_time first);
      deltas ← chunk_deltas (max_time first) (i64 (chunk_ref first)) rest;
      Some (varint_buf (min_time first) ++ uvarint_buf (u64 d) ++ uvarint_buf (chunk_ref first) ++ deltas)
  end.

(** The side buffer of [add_series]. *)
Definition encode_series_payload (label_refs : list (Z * Z)) (metas : list ChunkMeta) : option (list Z) :=
  chunks ← encode_chunks metas;
  Some (uvarint_buf (zlen label_refs) ++ (label_refs ≫= λ '(n, v), uvarint_buf n ++ uvarint_buf v) ++
    uvarint_buf (zlen metas) ++ chunks).

Definition add_series (label_refs : list (Z * Z)) (metas : list ChunkMeta) : M Z := λ s,
  if negb (bool_decide (stage_ s = Series)) then (Err operation_not_permitted, s)
  else
    let buf := pad_to k_index_series_align (buf_ s) in
    let series_start := zlen buf in
    let off := if series_count_ s =? 0
      then mkTOC (toc_symbols (off_ s)) series_start (toc_label_indices (off_ s))
        (toc_label_indices_table (off_ s)) (toc_postings (off_ s)) (toc_postings_table (off_ s))
      else off_ s in
    match encode_series_payload label_refs metas with
    | None => (UB, s)
    | Some payload =>
        let buf := buf ++ uvarint_buf (zlen payload) in
        let payload_off := zlen buf in
        let buf := append_crc payload_off (payload_off + zlen payload) (buf ++ payload) in
        (Ok (u32 (series_start / k_index_series_align)),
         mk (file_ s) buf (stage_ s) (next_sym_ref_ s) (last_symbol_ s) (any_symbol_ s) (symbols_len_off_ s) off
           (u32 (series_count_ s + 1)) (pending_postings_ s))
    end.

Definition finish_series : M unit := λ s,
  if negb (bool_decide (stage_ s = Series)) then (Err operation_not_permitted, s)
  else
    let off_series := if series_count_ s =? 0 then zlen (buf_ s) else toc_series (off_ s) in
    let buf := pad_to k_index_series_align (buf_ s) in
    let off := mkTOC (toc_symbols (off_ s)) off_series (zlen buf) (zlen buf) (zlen buf) (toc_postings_table (off_ s)) in
    (Ok tt, set_stage Postings (set_off off (set_buf buf s))).

(** Every identifier above the one before. *)
Fixpoint strictly_ascending (ids : list Z) : bool :=
  match ids with
  | x :: ((y :: _) as ids') => negb (y <=? x) && strictly_ascending ids'
  | _ => true
  end.

(** A section with a length prefix, as the code builds it at the end of the
    buffer: placeholder, payload, patch, checksum. *)
Definition append_section (payload : list Z) (buf : list Z) : list Z :=
  let list_off := zlen buf in
  let buf := buf ++ be32 0 in
  let payload_off := zlen buf in
  let buf := buf ++ payload in
  let payload_end := zlen buf in
  append_crc payload_off payload_end (patch_be32 list_off (u32 (payload_end - payload_off)) buf).

Definition add_postings (name value : str) (series_ids : list Z) : M unit := λ s,
  if negb (bool_decide (stage_ s = Postings)) then (Err operation_not_permitted, s)
  else if negb (strictly_ascending series_ids) then (Err invalid_argument, s)
  else
    let buf := pad_to 4 (buf_ s) in
    let list_off := zlen buf in
    let buf := append_section (be32 (u32 (zlen series_ids)) ++ (series_ids ≫= be32)) buf in
    (Ok tt,
     mk (file_ s) buf (stage_ s) (next_sym_ref_ s) (last_symbol_ s) (any_symbol_ s) (symbols_len_off_ s) (off_ s)
       (series_count_ s) (pending_postings_ s ++ [mkPostingsEntry name value list_off])).

(** The payload of the postings offset table. *)
Definition table_payload (entries : list PostingsOffsetEntry) : list Z :=
  be32 (u32 (zlen entries)) ++
  (entries ≫= λ e, uvarint_buf 2 ++ uvarint_str (pe_name e) ++ uvarint_str (pe_value e) ++ uvarint_buf (pe_offset e)).

(** The bytes of the table of contents without its checksum. *)
Definition toc_bytes (off : IndexTOC) : list Z :=
  be64 (toc_symbols off) ++ be64 (toc_series off) ++ be64 (toc_label_indices off) ++
  be64 (toc_label_indices_table off) ++ be64 (toc_postings off) ++ be64 (toc_postings_table off).

(** The in-memory part of [close]. *)
Definition finish (s : t) : t :=
  let off := mkTOC (toc_symbols (off_ s)) (toc_series (off_ s)) (toc_label_indices (off_ s))
    (toc_label_indices_table (off_ s)) (toc_postings (off_ s)) (zlen (buf_ s)) in
  let buf := append_section (table_payload (pending_postings_ s)) (buf_ s) in
  let toc_start := zlen buf in
  let buf := append_crc toc_start (toc_start + 48) (buf ++ toc_bytes off) in
  set_off off (set_buf buf s).

(** The loop over [write]; [fuel] counts the calls: every call but the last
    takes an answer of the script. *)
Fixpoint write_loop (fuel : nat) (file : str) (data : list Z) (w : World) : bool * World :=
  match fuel with
  | O => (true, w)
  | S fuel =>
      match data with
      | [] => (true, w)
      | _ =>
          let '(r, w) := sys w in
          match r with
          | Files.Done => write_loop fuel file [] (append_file file data w)
          | Wrote n => write_loop fuel file (drop n data) (append_file file (take n data) w)
          | Interrupted => write_loop fuel file data w
          | Failed => (false, w)
          end
      end
  end.

(** [O_CREAT | O_EXCL]: an existing file is an error. The descriptor is closed
    on every path. *)
Definition flush (s : t) (w : World) : outcome error_code unit * World :=
  let '(ok, w) := sys_ok w in
  if negb ok || bool_decide (is_Some (files w !! file_ s)) then (Err errno_ec, w)
  else
    let w := mkWorld (<[file_ s := []]> (files w)) (script w) in
    let '(ok, w) := write_loop (length (script w) + 2) (file_ s) (buf_ s) w in
    if negb ok then (Err errno_ec, snd (sys_ok w))
    else
      let '(ok, w) := sys_ok w in
      if negb ok then (Err errno_ec, snd (sys_ok w))
      else
        let '(ok, w) := sys_ok w in
        if negb ok then (Err errno_ec, w) else (Ok tt, w).

Definition close : rd (t * World) error_code unit := λ '(s, w),
  if negb (bool_decide (stage_ s = Postings)) then (Err operation_not_permitted, (s, w))
  else
    let s := finish s in
    match flush s w with
    | (Ok _, w) => (Ok tt, (set_stage Done s, w))
    | (Err e, w) => (Err e, (s, w))
    | (UB, w) => (UB, (s, w))
    end.

Definition bytes_so_far (s : t) : Z := zlen (buf_ s).

End IndexWriter.

(** * Facts *)

Module IndexWriterFacts.
Import BytesFacts IndexFacts IndexWriter.

(** ** Series entries *)

(** A label reference and the label it stands for. *)
Definition resolves (symbols : IndexSymbolTable.t) (ref : Z * Z) (l : Label) : Prop :=
  0 <= ref.1 < 2 ^ 32 ∧ 0 <= ref.2 < 2 ^ 32 ∧
  IndexSymbolTable.lookup symbols ref.1 = Ok (name l) ∧ IndexSymbolTable.lookup symbols ref.2 = Ok (value l).

Definition ref_bytes (ref : Z * Z) : list Z := uvarint_bytes ref.1 ++ uvarint_bytes ref.2.

Lemma decode_label_refs_holds symbols payload pos refs ls acc fuel :
  file_ok payload → holds payload pos (concat (ref_bytes <$> refs)) → Forall2 (resolves symbols) refs ls →
  (length refs <= fuel)%nat →
  decode_label_refs fuel (zlen refs) payload symbols pos acc =
    Ok (acc ++ ls, pos + zlen (concat (ref_bytes <$> refs))).
Proof.
  intros Hf Hh Hall. revert pos acc fuel Hh.
  induction Hall as [|ref l refs ls (Hn & Hv & Hname & Hvalue) _ IH]; intros pos acc fuel Hh Hfuel.
  { destruct fuel; cbn; by rewrite app_nil_r, Z.add_0_r. }
  destruct fuel as [|fuel]; [cbn [length] in Hfuel; lia|]. cbn [decode_label_refs].
  destruct (Z.leb_spec (zlen (ref :: refs)) 0); [rewrite zlen_cons in *; pose proof (zlen_nonneg refs); lia|].
  cbn [fmap list_fmap concat] in *. apply holds_split in Hh as [Href Hrest]. unfold ref_bytes in Href.
  apply holds_split in Href as [H1 H2].
  rewrite (uvarint_at_holds _ _ _ Hf H1) by width. cbn [mbind outcome_bind].
  rewrite (uvarint_at_holds _ _ _ Hf H2) by width. cbn [mbind outcome_bind].
  unfold u32. rewrite !Z.mod_small, Hname, Hvalue by lia.
  replace (zlen (ref :: refs) - 1) with (zlen refs) by (rewrite zlen_cons; lia).
  assert (zlen (ref_bytes ref) = zlen (uvarint_bytes ref.1) + zlen (uvarint_bytes ref.2)) as Hrb by apply zlen_app.
  rewrite Hrb, Z.add_assoc in Hrest.
  rewrite IH by (done || simpl in Hfuel; lia). destruct l as [n v]. rewrite <- app_assoc. cbn [app name value].
  f_equal. f_equal. rewrite zlen_app. lia.
Qed.

Definition meta_ok (c : ChunkMeta) : Prop :=
  is_i64 (min_time c) = true ∧ is_i64 (max_time c) = true ∧ is_u64 (chunk_ref c) = true.

#[export] Instance meta_ok_dec c : Decision (meta_ok c).
Proof. unfold meta_ok. apply _. Defined.

(** A difference that did not overflow, written as an unsigned and added
    again. *)
Lemma delta_back a b d : i64_sub a b = Some d → is_i64 a = true → i64_add (i64 (u64 d)) b = Some a.
Proof.
  intros [-> Hd]%i64_sub_Some Ha. rewrite i64_u64, i64_small by done. apply i64_add_Some. split; [lia|done].
Qed.

Lemma i64_ref r : is_u64 r = true → u64 (i64 r) = r.
Proof. intros. by rewrite u64_i64, u64_small. Qed.

Lemma decode_chunk_metas_holds payload pos metas t0 ref0 bs acc fuel :
  file_ok payload → chunk_deltas t0 ref0 metas = Some bs → holds payload pos bs → Forall meta_ok metas →
  is_i64 t0 = true → is_i64 ref0 = true → (length metas <= fuel)%nat →
  decode_chunk_metas fuel (zlen metas) payload pos t0 ref0 acc = Ok (acc ++ metas).
Proof.
  intros Hf Henc Hh Hmetas. revert pos t0 ref0 bs acc fuel Henc Hh.
  induction Hmetas as [|c metas (Hmin & Hmax & Href) _ IH]; intros pos t0 ref0 bs acc fuel Henc Hh Ht0 Hr0 Hfuel.
  { destruct fuel; cbn; by rewrite app_nil_r. }
  destruct fuel as [|fuel]; [cbn [length] in Hfuel; lia|]. cbn [decode_chunk_metas chunk_deltas] in *.
  destruct (Z.leb_spec (zlen (c :: metas)) 0); [rewrite zlen_cons in *; pose proof (zlen_nonneg metas); lia|].
  destruct (i64_sub (min_time c) t0) as [dmin|] eqn:Hdmin; [|done]. cbn [mbind option_bind] in Henc.
  destruct (i64_sub (max_time c) (min_time c)) as [dmax|] eqn:Hdmax; [|done]. cbn [mbind option_bind] in Henc.
  destruct (i64_sub (i64 (chunk_ref c)) ref0) as [dref|] eqn:Hdref; [|done]. cbn [mbind option_bind] in Henc.
  destruct (chunk_deltas _ _ metas) as [rest|] eqn:Hrest; [|done]. injection Henc as <-.
  rewrite !uvarint_buf_eq, varint_buf_eq in Hh by apply u64_range.
  apply holds_split in Hh as [H1 Hh]. apply holds_split in Hh as [H2 Hh]. apply holds_split in Hh as [H3 Hh].
  rewrite (uvarint_at_holds _ _ _ Hf H1) by apply u64_range. cbn [mbind outcome_bind].
  rewrite (delta_back _ _ _ Hdmin) by done. cbn [of_option mbind outcome_bind].
  rewrite (uvarint_at_holds _ _ _ Hf H2) by apply u64_range. cbn [mbind outcome_bind].
  rewrite (delta_back _ _ _ Hdmax) by done. cbn [of_option mbind outcome_bind].
  pose proof Hdref as [Heq Hd]%i64_sub_Some. rewrite (varint_at_holds _ _ _ Hf H3) by done. cbn [mbind outcome_bind].
  assert (i64_add ref0 dref = Some (i64 (chunk_ref c))) as -> by (apply i64_add_Some; split; [lia|apply i64_range]).
  cbn [of_option mbind outcome_bind]. replace (zlen (c :: metas) - 1) with (zlen metas) by (rewrite zlen_cons; lia).
  rewrite i64_ref by done. rewrite (IH _ _ _ rest) by (done || apply i64_range || simpl in Hfuel; lia).
  destruct c. by rewrite <- app_assoc.
Qed.

(** A run of entries of at least one byte each is at least as long as it has
    entries. *)
Lemma concat_min {A} (f : A → list Z) (l : list A) :
  (∀ x, x ∈ l → 1 <= zlen (f x)) → zlen l <= zlen (concat (f <$> l)).
Proof.
  induction l as [|x l IH]; intros Hf; [done|]. cbn [fmap list_fmap concat]. rewrite zlen_app, zlen_cons.
  pose proof (Hf x ltac:(left)). specialize (IH (λ y Hy, Hf y (list_elem_of_further _ _ _ Hy))). lia.
Qed.

Lemma chunk_deltas_length t0 ref0 metas bs : chunk_deltas t0 ref0 metas = Some bs → zlen metas <= zlen bs.
Proof.
  revert t0 ref0 bs. induction metas as [|c metas IH]; intros t0 ref0 bs; cbn [chunk_deltas]; [by intros [= <-]|].
  destruct (i64_sub _ t0); [|done]. destruct (i64_sub (max_time c) _); [|done]. destruct (i64_sub _ ref0); [|done].
  cbn [mbind option_bind]. destruct (chunk_deltas _ _ metas) as [rest|] eqn:Hrest; [|done]. intros [= <-].
  specialize (IH _ _ _ Hrest). rewrite !uvarint_buf_eq, varint_buf_eq, !zlen_app by apply u64_range.
  pose proof (zlen_uvarint _ (u64_range z)). pose proof (zlen_nonneg (uvarint_bytes (u64 z0))).
  pose proof (zlen_nonneg (varint_bytes z1)). pose proof (zlen_cons c metas). lia.
Qed.

Lemma refs_bytes_eq symbols refs ls :
  Forall2 (resolves symbols) refs ls →
  (refs ≫= λ '(n, v), uvarint_buf n ++ uvarint_buf v) = concat (ref_bytes <$> refs) ∧
  zlen refs <= zlen (concat (ref_bytes <$> refs)).
Proof.
  intros Hall. split.
  - induction Hall as [|[n v] l refs ls (Hn & Hv & _) _ IH]; [done|]. cbn [fst snd] in *.
    rewrite bind_cons, IH, !uvarint_buf_eq by width. done.
  - apply concat_min. intros ref Hin. apply list_elem_of_lookup in Hin as [i Hi].
    destruct (Forall2_lookup_l _ _ _ _ _ Hall Hi) as (l & _ & Hn & Hv & _). unfold ref_bytes. rewrite zlen_app.
    pose proof (zlen_uvarint ref.1 ltac:(width)). pose proof (zlen_nonneg (uvarint_bytes ref.2)). lia.
Qed.

(** What [add_series] encodes is what [decode_series_payload] decodes. *)
Lemma decode_encode_entry symbols refs ls metas payload :
  encode_series_payload refs metas = Some payload → Forall2 (resolves symbols) refs ls → Forall meta_ok metas →
  zlen payload < 2 ^ 32 →
  decode_series_payload payload symbols = Ok (mkSeriesEntry (Labels.of_entries ls) metas).
Proof.
  unfold encode_series_payload. destruct (encode_chunks metas) as [cs|] eqn:Hcs; [|done]. cbn [mbind option_bind].
  intros [= Hp] Hall Hmetas Hlen. destruct (refs_bytes_eq _ _ _ Hall) as [Heq Hrefs]. rewrite Heq in Hp. clear Heq.
  pose proof (zlen_nonneg refs). pose proof (zlen_nonneg metas). pose proof (zlen_nonneg cs).
  set (rb := concat (ref_bytes <$> refs)) in *.
  assert (zlen refs <= zlen payload ∧ zlen metas <= zlen payload + 1 ∧ zlen cs <= zlen payload) as (Hkr & Hkm & Hkc).
  { rewrite <- Hp, !zlen_app. pose proof (zlen_nonneg (uvarint_buf (zlen refs))). pose proof (zlen_nonneg (uvarint_buf (zlen metas))).
    pose proof (zlen_nonneg rb). split_and!; [lia| |lia]. destruct metas as [|first rest]; [unfold zlen; simpl; lia|].
    cbn [encode_chunks] in Hcs. destruct (i64_sub _ _); [|done]. cbn [mbind option_bind] in Hcs.
    destruct (chunk_deltas _ _ rest) as [ds|] eqn:Hds; [|done]. injection Hcs as <-.
    apply chunk_deltas_length in Hds. rewrite !zlen_app.
    pose proof (zlen_nonneg (varint_buf (min_time first))). pose proof (zlen_nonneg (uvarint_buf (u64 z))).
    pose proof (zlen_nonneg (uvarint_buf (chunk_ref first))). pose proof (zlen_cons first rest). lia. }
  assert (file_ok payload) as Hf by (unfold file_ok; lia).
  rewrite !uvarint_buf_eq in Hp by width.
  assert (holds payload 0 payload) as Hh by (exists [], []; by rewrite app_nil_r). rewrite <- Hp in Hh at 2.
  apply holds_split in Hh as [Hh1 Hh]. apply holds_split in Hh as [Hh2 Hh]. apply holds_split in Hh as [Hh3 Hh].
  unfold decode_series_payload. rewrite (uvarint_at_holds _ _ _ Hf Hh1) by width. cbn [mbind outcome_bind].
  destruct (Z.ltb_spec max_labels (zlen refs)) as [Hbad|_]; [unfold max_labels in Hbad; lia|].
  rewrite (decode_label_refs_holds symbols _ _ refs ls) by (done || unfold zlen in *; lia). cbn [mbind outcome_bind].
  fold rb. rewrite (uvarint_at_holds _ _ _ Hf Hh3) by width. cbn [mbind outcome_bind]. rewrite app_nil_l.
  destruct metas as [|first rest]; [done|]. destruct (Z.eqb_spec (zlen (first :: rest)) 0) as [Hz|_]; [by apply zlen_nil in Hz|].
  destruct (Z.ltb_spec max_chunk_metas (zlen (first :: rest))) as [Hbad|_].
  { unfold max_chunk_metas in Hbad. change ((2 ^ 63 - 1) / 24) with 384307168202282325 in Hbad. lia. }
  cbn [encode_chunks] in Hcs. destruct (i64_sub _ _) as [d|] eqn:Hd; [|done]. cbn [mbind option_bind] in Hcs.
  destruct (chunk_deltas _ _ rest) as [ds|] eqn:Hds; [|done]. injection Hcs as <-.
  apply Forall_cons_1 in Hmetas as [(Hmin & Hmax & Href) Hrest].
  rewrite varint_buf_eq, !uvarint_buf_eq in Hh by (done || apply u64_range).
  apply holds_split in Hh as [Hh4 Hh]. apply holds_split in Hh as [Hh5 Hh]. apply holds_split in Hh as [Hh6 Hh].
  rewrite (varint_at_holds _ _ _ Hf Hh4) by done. cbn [mbind outcome_bind].
  rewrite (uvarint_at_holds _ _ _ Hf Hh5) by apply u64_range. cbn [mbind outcome_bind].
  rewrite (delta_back _ _ _ Hd) by done. cbn [of_option mbind outcome_bind].
  rewrite (uvarint_at_holds _ _ _ Hf Hh6) by done. cbn [mbind outcome_bind].
  replace (zlen (first :: rest) - 1) with (zlen rest) by (rewrite zlen_cons; lia).
  rewrite (decode_chunk_metas_holds _ _ _ _ _ ds); [by destruct first|done..| |].
  - apply i64_range.
  - unfold zlen in *. simpl length in *. lia.
Qed.

(** ** Building the buffer *)

Lemma append_crc_eq a b : append_crc (zlen a) (zlen a + zlen b) (a ++ b) = a ++ b ++ be32 (Crc32c.compute b).
Proof.
  unfold append_crc. replace (zlen a + zlen b - zlen a) with (zlen b) by lia.
  rewrite !zlen_nat, drop_app_length, take_ge by lia. by rewrite <- app_assoc.
Qed.

Lemma patch_eq a w v c : patch_be32 (zlen a) v (a ++ be32 w ++ c) = a ++ be32 v ++ c.
Proof.
  unfold patch_be32. rewrite zlen_nat, take_app_length. do 2 f_equal. by rewrite <- drop_drop, drop_app_length.
Qed.

Lemma append_section_eq p buf : zlen p < 2 ^ 32 → append_section p buf = buf ++ section p.
Proof.
  intros Hp. pose proof (zlen_nonneg p). unfold append_section, section.
  replace (zlen ((buf ++ be32 0) ++ p) - zlen (buf ++ be32 0)) with (zlen p) by (rewrite !zlen_app; lia).
  unfold u32. rewrite Z.mod_small by lia. rewrite <- (app_assoc buf), patch_eq.
  replace (zlen (buf ++ be32 0)) with (zlen (buf ++ be32 (zlen p))) by (by rewrite !zlen_app, !zlen_be32).
  replace (zlen (buf ++ be32 0 ++ p)) with (zlen (buf ++ be32 (zlen p)) + zlen p) by (rewrite !zlen_app, !zlen_be32; lia).
  rewrite app_assoc, append_crc_eq. by rewrite <- !app_assoc.
Qed.

Lemma pad_to_eq align buf :
  0 < align → ∃ pad, pad_to align buf = buf ++ pad ∧ zlen pad < align ∧ zlen (pad_to align buf) mod align = 0.
Proof.
  intros Ha. unfold pad_to. pose proof (Z.mod_pos_bound (zlen buf) align Ha).
  pose proof (Z.div_mod (zlen buf) align ltac:(lia)).
  destruct (Z.eqb_spec (zlen buf mod align) 0) as [Hz|Hz]; [exists []; by rewrite app_nil_r|]. eexists. split; [done|].
  assert (zlen (replicate (Z.to_nat (align - zlen buf mod align)) 0) = align - zlen buf mod align) as Hr
    by (unfold zlen; rewrite length_replicate; unfold zlen in *; lia).
  rewrite zlen_app, Hr. split; [lia|].
  replace (zlen buf + (align - zlen buf mod align)) with ((zlen buf / align + 1) * align) by lia. by apply Z.mod_mul; lia.
Qed.

(** What stands in the buffer stays there. *)
Definition extends (s s' : t) : Prop := ∃ ext, buf_ s' = buf_ s ++ ext.

Lemma extends_holds s s' off d : extends s s' → holds (buf_ s) off d → holds (buf_ s') off d.
Proof. intros [ext ->]. apply holds_app. Qed.

(** ** The symbol stage *)

Definition header : list Z := be32 k_magic_index ++ [k_index_write_format].

(** After adding [syms]. *)
Record symbols_stage (syms : list str) (s : t) : Prop := {
  ss_stage : stage_ s = Symbols;
  ss_count : series_count_ s = 0;
  ss_pending : pending_postings_ s = [];
  ss_next : next_sym_ref_ s = zlen syms;
  ss_any : any_symbol_ s = negb (bool_decide (syms = []));
  ss_last : last_symbol_ s = default [] (last syms);
  ss_offs : syms ≠ [] → toc_symbols (off_ s) = 5 ∧ symbols_len_off_ s = 9;
  ss_buf : buf_ s = header ++ (if any_symbol_ s then be32 0 ++ be32 0 ++ symbols_bytes syms else []);
}.

Lemma symbols_bytes_snoc syms sym : symbols_bytes (syms ++ [sym]) = symbols_bytes syms ++ str_bytes sym.
Proof. unfold symbols_bytes. rewrite fmap_app, concat_app. cbn [fmap list_fmap concat]. by rewrite app_nil_r. Qed.

Lemma uvarint_str_eq s : zlen s < 2 ^ 63 → uvarint_str s = str_bytes s.
Proof. intros. pose proof (zlen_nonneg s). unfold uvarint_str, str_bytes. by rewrite uvarint_buf_eq by width. Qed.

Lemma create_stage file fs s : create file fs = Ok s → symbols_stage [] s ∧ file_ s = file.
Proof. unfold create. destruct (fs !! file); [done|]. intros [= <-]. by repeat split. Qed.

(** The first symbol makes room for the section's length and count. *)
Lemma reserve_stage syms s :
  symbols_stage syms s →
  let s' := if any_symbol_ s then s else reserve_symbols s in
  stage_ s' = Symbols ∧ next_sym_ref_ s' = zlen syms ∧ series_count_ s' = 0 ∧ pending_postings_ s' = [] ∧
  toc_symbols (off_ s') = 5 ∧ symbols_len_off_ s' = 9 ∧ file_ s' = file_ s ∧
  buf_ s' = header ++ be32 0 ++ be32 0 ++ symbols_bytes syms.
Proof.
  intros [Hst Hc Hp Hn Hany _ Hoffs Hbuf]. rewrite Hany in *. case_bool_decide as Hnil; cbn [negb] in *.
  - subst syms. unfold reserve_symbols. cbn [stage_ next_sym_ref_ series_count_ pending_postings_ off_
      toc_symbols symbols_len_off_ file_ buf_]. rewrite Hbuf, app_nil_r. done.
  - by destruct (Hoffs Hnil).
Qed.

Lemma add_symbol_stage syms sym s :
  symbols_stage syms s → (syms ≠ [] → str_ltb sym (default [] (last syms)) = false) →
  zlen syms + 1 < 2 ^ 32 → zlen sym < 2 ^ 63 →
  ∃ s', add_symbol sym s = (Ok (zlen syms), s') ∧ symbols_stage (syms ++ [sym]) s' ∧ file_ s' = file_ s.
Proof.
  intros Hs Hlast Hlen Hsym. pose proof (reserve_stage syms s Hs) as Hres. cbn zeta in Hres.
  destruct Hs as [Hst _ _ _ Hany Hl _ _]. unfold add_symbol. rewrite bool_decide_eq_true_2 by done. cbn [negb].
  assert (any_symbol_ s && str_ltb sym (last_symbol_ s) = false) as ->.
  { rewrite Hany, Hl. case_bool_decide; [done|]. cbn [negb andb]. auto. }
  set (s1 := if any_symbol_ s then s else reserve_symbols s) in *.
  destruct Hres as (Hst1 & Hn1 & Hc1 & Hp1 & Ho1 & Hso1 & Hf1 & Hb1).
  rewrite Hn1. eexists. split; [done|]. split; [|done]. pose proof (zlen_nonneg syms).
  assert (syms ++ [sym] ≠ []) as Hne by by destruct syms. split; cbn [stage_ next_sym_ref_ series_count_
    pending_postings_ off_ symbols_len_off_ file_ buf_ any_symbol_ last_symbol_]; try done.
  - rewrite zlen_app. unfold u32. rewrite Z.mod_small by lia. done.
  - by rewrite bool_decide_eq_false_2.
  - by rewrite last_snoc.
  - rewrite Hb1, symbols_bytes_snoc, uvarint_str_eq by done. by rewrite <- !app_assoc.
Qed.

(** ** After the symbols *)

(** The buffer holds the header, the symbols [syms], the series payloads [ser]
    under their identifiers and the posting lists [posts]. *)
Record written (syms : list str) (ser : list (Z * list Z)) (posts : list (PostingsOffsetEntry * list Z)) (s : t) : Prop := {
  w_header : holds (buf_ s) 0 header;
  w_symbols_off : toc_symbols (off_ s) = 5;
  w_symbols : holds (buf_ s) 5 (section (symbols_payload syms));
  w_series : Forall (λ '(id, p), 0 <= id ∧ id * 16 < zlen (buf_ s) ∧ holds (buf_ s) (id * 16) (usection p)) ser;
  w_posts : Forall (λ '(e, ids), holds (buf_ s) (pe_offset e) (section (posting_payload ids))) posts;
  w_pending : pending_postings_ s = fst <$> posts;
  w_ids : ascending Z.ltb (fst <$> ser);
}.

Lemma written_extends syms ser posts s s' :
  written syms ser posts s → extends s s' → toc_symbols (off_ s') = toc_symbols (off_ s) →
  pending_postings_ s' = pending_postings_ s → written syms ser posts s'.
Proof.
  intros [Hh Ho Hs Hser Hp Hpend Hids] Hext Hoff Hpend'. assert (zlen (buf_ s) <= zlen (buf_ s')) as Hle.
  { destruct Hext as [ext ->]. rewrite zlen_app. pose proof (zlen_nonneg ext). lia. }
  split; [by eapply extends_holds|congruence|by eapply extends_holds| | |congruence|done].
  - eapply Forall_impl; [exact Hser|]. intros [id p] (? & ? & ?). split_and!; [done|lia|by eapply extends_holds].
  - eapply Forall_impl; [exact Hp|]. intros [e ids] ?. by eapply extends_holds.
Qed.

Lemma finish_symbols_written syms s :
  symbols_stage syms s → zlen (symbols_payload syms) < 2 ^ 32 →
  ∃ s', finish_symbols s = (Ok tt, s') ∧ stage_ s' = Series ∧ written syms [] [] s' ∧ file_ s' = file_ s ∧
    buf_ s' = header ++ section (symbols_payload syms).
Proof.
  intros Hs Hlen. pose proof (reserve_stage syms s Hs) as Hres. cbn zeta in Hres.
  destruct Hs as [Hst _ _ _ _ _ _ _]. unfold finish_symbols. rewrite bool_decide_eq_true_2 by done. cbn [negb].
  set (s1 := if any_symbol_ s then s else reserve_symbols s) in *.
  destruct Hres as (Hst1 & Hn1 & Hc1 & Hp1 & Ho1 & Hso1 & Hf1 & Hb1). rewrite Hn1, Ho1, Hso1, Hb1.
  assert (patch_be32 9 (zlen syms) (header ++ be32 0 ++ be32 0 ++ symbols_bytes syms) =
    header ++ be32 0 ++ symbols_payload syms) as ->.
  { rewrite (app_assoc header). change 9 with (zlen (header ++ be32 0)). rewrite patch_eq. by rewrite <- app_assoc. }
  assert (zlen (header ++ be32 0 ++ symbols_payload syms) = 9 + zlen (symbols_payload syms)) as Hz
    by (rewrite !zlen_app; change (zlen header) with 5; rewrite zlen_be32; lia). rewrite Hz.
  pose proof (zlen_nonneg (symbols_payload syms)).
  replace (u32 (9 + zlen (symbols_payload syms) - (5 + 4))) with (zlen (symbols_payload syms))
    by (unfold u32; rewrite Z.mod_small; lia).
  change 5 with (zlen header) at 2. rewrite patch_eq. change (5 + 4) with (zlen (header ++ be32 0)).
  replace (9 + zlen (symbols_payload syms)) with (zlen (header ++ be32 0) + zlen (symbols_payload syms)) by done.
  change (zlen (header ++ be32 0)) with (zlen (header ++ be32 (zlen (symbols_payload syms)))).
  rewrite app_assoc, append_crc_eq, <- app_assoc. change (be32 ?n ++ ?p ++ be32 ?c) with (section (symbols_payload syms)).
  eexists. split; [done|]. split; [done|]. cbn [set_stage set_buf buf_ file_]. split; [|done].
  split; cbn [set_stage set_buf buf_ off_ pending_postings_]; [|done| |constructor..|done|constructor].
  - by exists [], (section (symbols_payload syms)).
  - apply (holds_end header).
Qed.

(** ** The series stage *)

Lemma zlen_usection p : zlen p < 2 ^ 63 → zlen p <= zlen (usection p) <= zlen p + 14.
Proof.
  intros. pose proof (zlen_nonneg p). pose proof (zlen_uvarint (zlen p) ltac:(width)).
  unfold usection. rewrite !zlen_app, zlen_be32. lia.
Qed.

Lemma add_series_written syms ser posts s refs metas p :
  written syms ser posts s → stage_ s = Series → encode_series_payload refs metas = Some p →
  zlen (buf_ s) + zlen p + 30 <= 2 ^ 32 →
  ∃ id s', add_series refs metas s = (Ok id, s') ∧ stage_ s' = Series ∧ written syms (ser ++ [(id, p)]) posts s' ∧
    file_ s' = file_ s ∧ zlen (buf_ s') <= zlen (buf_ s) + zlen p + 30 ∧ id_ok id.
Proof.
  intros Hw Hst Henc Hlen. pose proof (zlen_nonneg p). pose proof (zlen_nonneg (buf_ s)).
  destruct (pad_to_eq k_index_series_align (buf_ s) eq_refl) as (pad & Hpad & Hpadlen & Hmod).
  unfold add_series. rewrite bool_decide_eq_true_2 by done. cbn [negb]. rewrite Henc. set (buf := pad_to _ _) in *.
  rewrite uvarint_buf_eq by width. rewrite append_crc_eq, <- app_assoc. change (_ ++ p ++ be32 _) with (usection p).
  pose proof (zlen_usection p ltac:(lia)). pose proof (zlen_nonneg pad). unfold k_index_series_align in *.
  assert (zlen buf = zlen (buf_ s) + zlen pad) as Hbuf by (rewrite Hpad, zlen_app; done).
  pose proof (Z.div_mod (zlen buf) 16 ltac:(lia)) as Hdiv.
  assert (u32 (zlen buf / 16) = zlen buf / 16 ∧ zlen buf / 16 * 16 = zlen buf) as [Hid Hback].
  { unfold u32. split; [apply Z.mod_small|]; lia. }
  rewrite Hid. eexists _, _. split; [done|]. split; [done|].
  assert (1 <= zlen (usection p)) by (unfold usection; pose proof (zlen_uvarint (zlen p) ltac:(width)); rewrite !zlen_app, zlen_be32; lia).
  split; [|split; [done|]].
  - destruct Hw as [Hh Ho Hs Hser Hp Hpend Hids].
    assert (∀ off d, holds (buf_ s) off d → holds (buf ++ usection p) off d) as Hkeep
      by (intros off d Hd; rewrite Hpad; by apply holds_app, holds_app).
    split; cbn [buf_ off_ pending_postings_]; [by apply Hkeep|by destruct (series_count_ s =? 0)|by apply Hkeep| | |done|].
    + apply Forall_app_2, Forall_singleton.
      * eapply Forall_impl; [exact Hser|]. intros [id' p'] (? & ? & ?). rewrite zlen_app. split_and!; [done|lia|by apply Hkeep].
      * rewrite Hback, zlen_app. split_and!; [lia|lia|apply holds_end].
    + eapply Forall_impl; [exact Hp|]. intros [e ids] ?. by apply Hkeep.
    + rewrite fmap_app. apply ascending_snoc; [done|]. intros y ([id' p'] & -> & Hin)%list_elem_of_fmap. cbn [fst].
      rewrite Forall_forall in Hser. destruct (Hser _ Hin) as (? & ? & _). lia.
  - cbn [buf_]. rewrite zlen_app. split; [lia|]. unfold id_ok. lia.
Qed.

Lemma finish_series_written syms ser posts s :
  written syms ser posts s → stage_ s = Series →
  ∃ s', finish_series s = (Ok tt, s') ∧ stage_ s' = Postings ∧ written syms ser posts s' ∧ file_ s' = file_ s ∧
    zlen (buf_ s') <= zlen (buf_ s) + 16.
Proof.
  intros Hw Hst. destruct (pad_to_eq k_index_series_align (buf_ s) eq_refl) as (pad & Hpad & Hpadlen & _).
  unfold finish_series. rewrite bool_decide_eq_true_2 by done. cbn [negb]. eexists. split; [done|]. split; [done|].
  split; [|split; [done|]].
  - eapply written_extends; [exact Hw| |done..]. by exists pad.
  - cbn [set_stage set_off set_buf buf_]. rewrite Hpad, zlen_app. unfold k_index_series_align in *. lia.
Qed.

(** ** The postings stage *)

(** The code's comparison of neighbours. *)
Lemma strictly_ascending_spec ids : ascending Z.ltb ids → strictly_ascending ids = true.
Proof.
  induction 1 as [|x ids _ IH Hx]; [done|]. destruct ids as [|y ids]; [done|]. cbn [strictly_ascending] in *.
  apply Forall_cons_1 in Hx as [Hxy _]. rewrite IH. lia.
Qed.

Lemma posting_section_bytes ids :
  zlen ids < 2 ^ 30 - 1 →
  be32 (u32 (zlen ids)) ++ (ids ≫= be32) = posting_payload ids ∧ zlen (posting_payload ids) = 4 + 4 * zlen ids.
Proof.
  intros Hlen. pose proof (zlen_nonneg ids). unfold posting_payload, u32. rewrite Z.mod_small by lia.
  rewrite zlen_app, zlen_be32, zlen_be32s. split; [|done]. f_equal. clear. induction ids as [|id ids IH]; [done|].
  by rewrite bind_cons, IH.
Qed.

Lemma add_postings_written syms ser posts s n v ids :
  written syms ser posts s → stage_ s = Postings → ascending Z.ltb ids →
  zlen (buf_ s) + 4 * zlen ids + 16 <= 2 ^ 32 →
  ∃ off s', add_postings n v ids s = (Ok tt, s') ∧ stage_ s' = Postings ∧
    written syms ser (posts ++ [(mkPostingsEntry n v off, ids)]) s' ∧ file_ s' = file_ s ∧
    zlen (buf_ s') <= zlen (buf_ s) + 4 * zlen ids + 16 ∧ 0 <= off < 2 ^ 32.
Proof.
  intros Hw Hst Hasc Hlen. pose proof (zlen_nonneg (buf_ s)). pose proof (zlen_nonneg ids).
  destruct (pad_to_eq 4 (buf_ s) eq_refl) as (pad & Hpad & Hpadlen & _). pose proof (zlen_nonneg pad).
  unfold add_postings. rewrite bool_decide_eq_true_2 by done. rewrite strictly_ascending_spec by done. cbn [negb].
  destruct (posting_section_bytes ids ltac:(lia)) as [-> Hp]. rewrite append_section_eq by lia.
  set (buf := pad_to 4 (buf_ s)) in *. assert (zlen buf = zlen (buf_ s) + zlen pad) as Hbuf by (rewrite Hpad, zlen_app; done).
  eexists _, _. split; [done|]. split; [done|]. split; [|split; [done|]].
  - destruct Hw as [Hh Ho Hs Hser Hposts Hpend Hids].
    assert (∀ off d, holds (buf_ s) off d → holds (buf ++ section (posting_payload ids)) off d) as Hkeep
      by (intros off d Hd; rewrite Hpad; by apply holds_app, holds_app).
    split; cbn [buf_ off_ pending_postings_]; [by apply Hkeep|done|by apply Hkeep| | |by rewrite Hpend, fmap_app|done].
    + eapply Forall_impl; [exact Hser|]. intros [id' p'] (? & ? & ?). rewrite zlen_app.
      pose proof (zlen_nonneg (section (posting_payload ids))). split_and!; [done|lia|by apply Hkeep].
    + apply Forall_app_2, Forall_singleton; [|cbn [pe_offset]; apply holds_end].
      eapply Forall_impl; [exact Hposts|]. intros [e ids'] ?. by apply Hkeep.
  - cbn [buf_]. rewrite zlen_app. unfold section. rewrite !zlen_app, !zlen_be32, Hp. lia.
Qed.

(** ** Closing *)

Lemma table_payload_eq es :
  Forall (λ e, is_u64 (pe_offset e) = true ∧ zlen (pe_name e) < 2 ^ 32 ∧ zlen (pe_value e) < 2 ^ 32) es →
  zlen es < 2 ^ 32 → table_payload es = table_bytes es.
Proof.
  intros Hes Hlen. pose proof (zlen_nonneg es). unfold table_payload, table_bytes, u32. rewrite Z.mod_small by lia. f_equal.
  clear Hlen. induction Hes as [|e es (He & Hn & Hv) _ IH]; [done|]. rewrite bind_cons, IH by (pose proof (zlen_nonneg es); done).
  cbn [fmap list_fmap concat]. unfold entry_bytes. rewrite !uvarint_str_eq, !uvarint_buf_eq by (done || lia). done.
Qed.

Lemma table_bytes_ok es :
  Forall (λ e, bytes_ok (pe_name e) ∧ bytes_ok (pe_value e)) es → bytes_ok (table_bytes es).
Proof.
  intros Hes. apply Forall_app_2; [apply be32_ok|]. apply bytes_ok_concat. intros e He.
  rewrite Forall_forall in Hes. destruct (Hes e He). unfold entry_bytes, str_bytes.
  repeat apply Forall_app_2; try done; apply uvarint_bytes_ok.
Qed.

Lemma toc_bytes_spec off :
  is_u64 (toc_symbols off) = true → is_u64 (toc_postings_table off) = true →
  zlen (toc_bytes off) = 48 ∧ bytes_ok (toc_bytes off) ∧
  read_be64 (take 8 (toc_bytes off)) = toc_symbols off ∧
  read_be64 (take 8 (drop 40 (toc_bytes off))) = toc_postings_table off.
Proof.
  intros H1 H2. split; [done|]. split; [repeat apply Forall_app_2; apply be64_ok|].
  change (take 8 (toc_bytes off)) with (be64 (toc_symbols off)).
  change (take 8 (drop 40 (toc_bytes off))) with (be64 (toc_postings_table off)). by rewrite !read_be64_be64.
Qed.

(** The finished buffer: what was written, the table, the table of contents. *)
Lemma finish_eq syms ser posts s :
  written syms ser posts s → zlen (table_bytes (fst <$> posts)) < 2 ^ 32 →
  Forall (λ '(e, _), is_u64 (pe_offset e) = true ∧ zlen (pe_name e) < 2 ^ 32 ∧ zlen (pe_value e) < 2 ^ 32) posts →
  zlen posts < 2 ^ 32 →
  let toc := toc_bytes (off_ (finish s)) in
  buf_ (finish s) = buf_ s ++ section (table_bytes (fst <$> posts)) ++ toc ++ be32 (Crc32c.compute toc) ∧
  toc_symbols (off_ (finish s)) = 5 ∧ toc_postings_table (off_ (finish s)) = zlen (buf_ s) ∧ file_ (finish s) = file_ s.
Proof.
  intros Hw Hlen Hposts Hn toc. subst toc. destruct Hw as [_ Ho _ _ _ Hpend _]. unfold finish. rewrite Hpend.
  rewrite table_payload_eq; [|by apply Forall_fmap; eapply Forall_impl; [exact Hposts|]; intros [e ids]|].
  2:{ unfold zlen in *. by rewrite length_fmap. }
  rewrite append_section_eq by done. cbn [set_off set_buf buf_ off_ toc_symbols toc_postings_table file_].
  set (off := mkTOC _ _ _ _ _ _). change 48 with (zlen (toc_bytes off)). by rewrite append_crc_eq, <- app_assoc.
Qed.

(** With no failing call the file is written as a whole. *)
Lemma flush_ok s fs : fs !! file_ s = None → flush s (mkWorld fs []) = (Ok tt, mkWorld (<[file_ s := buf_ s]> fs) []).
Proof.
  intros Hnew. unfold flush. cbn [sys_ok sys script files negb orb].
  rewrite bool_decide_eq_false_2 by (rewrite Hnew; by intros []). cbn [length Nat.add write_loop].
  destruct (buf_ s) as [|b buf]; [done|]. cbn [sys script]. unfold append_file. cbn [files script].
  by rewrite lookup_insert_eq, insert_insert_eq.
Qed.

(** ** What the reader makes of the finished file *)

(** The reference pair names the label in the symbol table. *)
Definition names (syms : list str) (ref : Z * Z) (l : Label) : Prop :=
  0 <= ref.1 ∧ 0 <= ref.2 ∧ syms !! Z.to_nat ref.1 = Some (name l) ∧ syms !! Z.to_nat ref.2 = Some (value l).

(** [p] encodes the entry [e]. *)
Definition encodes (syms : list str) (p : list Z) (e : SeriesEntry) : Prop :=
  ∃ refs ls, encode_series_payload refs (se_chunks e) = Some p ∧ Forall2 (names syms) refs ls ∧
    Forall meta_ok (se_chunks e) ∧ se_labels e = Labels.of_entries ls.

Lemma names_resolves bytes version off syms refs ls :
  file_ok bytes → holds bytes (off + 4) (symbols_bytes syms) → version ≠ k_index_format_v1 → zlen syms < 2 ^ 32 →
  Forall2 (names syms) refs ls → Forall2 (resolves (table bytes version off syms)) refs ls.
Proof.
  intros Hf Hh Hv Hlen Hall. eapply Forall2_impl; [exact Hall|]. intros [n v] l (Hn & Hv' & H1 & H2). cbn [fst snd] in *.
  apply lookup_lt_Some in H1 as Hn'. apply lookup_lt_Some in H2 as Hv''. unfold zlen in Hlen.
  unfold resolves. cbn [fst snd]. split_and!; [lia..| |].
  - rewrite <- (Z2Nat.id n) by done. by apply lookup_table.
  - rewrite <- (Z2Nat.id v) by done. by apply lookup_table.
Qed.

Lemma varint_buf_ok x : bytes_ok (varint_buf x).
Proof. rewrite varint_buf_eq. apply uvarint_bytes_ok. Qed.

Lemma uvarint_buf_ok x : is_u64 x = true → bytes_ok (uvarint_buf x).
Proof. intros. rewrite uvarint_buf_eq by done. apply uvarint_bytes_ok. Qed.

Lemma chunk_deltas_ok t0 ref0 metas bs :
  chunk_deltas t0 ref0 metas = Some bs → bytes_ok bs ∧ zlen bs <= 30 * zlen metas.
Proof.
  revert t0 ref0 bs. induction metas as [|c metas IH]; intros t0 ref0 bs; cbn [chunk_deltas]; [intros [= <-]; split; [constructor|done]|].
  destruct (i64_sub _ t0); [|done]. destruct (i64_sub (max_time c) _); [|done]. destruct (i64_sub _ ref0); [|done].
  cbn [mbind option_bind]. destruct (chunk_deltas _ _ metas) as [rest|] eqn:Hrest; [|done]. intros [= <-].
  destruct (IH _ _ _ Hrest). split.
  - apply Forall_app_2; [apply uvarint_buf_ok, u64_range|]. apply Forall_app_2; [apply uvarint_buf_ok, u64_range|].
    apply Forall_app_2; [apply varint_buf_ok|done].
  - rewrite !uvarint_buf_eq, varint_buf_eq, !zlen_app, zlen_cons by apply u64_range.
    pose proof (zlen_uvarint _ (u64_range z)). pose proof (zlen_uvarint _ (u64_range z0)).
    pose proof (zlen_uvarint _ (zigzag_range z1)). unfold varint_bytes. lia.
Qed.

Lemma encode_chunks_ok metas bs :
  encode_chunks metas = Some bs → Forall meta_ok metas → bytes_ok bs ∧ zlen bs <= 30 * zlen metas.
Proof.
  destruct metas as [|first rest]; cbn [encode_chunks]; [intros [= <-]; split; [constructor|done]|].
  destruct (i64_sub _ _) as [d|]; [|done]. cbn [mbind option_bind].
  destruct (chunk_deltas _ _ rest) as [ds|] eqn:Hds; [|done]. intros [= <-] [(_ & _ & Href) _]%Forall_cons_1.
  apply chunk_deltas_ok in Hds as [Hok Hlen]. split.
  - apply Forall_app_2; [apply varint_buf_ok|]. apply Forall_app_2; [apply uvarint_buf_ok, u64_range|].
    apply Forall_app_2; [by apply uvarint_buf_ok|done].
  - rewrite !uvarint_buf_eq, varint_buf_eq, !zlen_app, zlen_cons by (done || apply u64_range).
    pose proof (zlen_uvarint _ (u64_range d)). pose proof (zlen_uvarint _ Href).
    pose proof (zlen_uvarint _ (zigzag_range (min_time first))). unfold varint_bytes. lia.
Qed.

Lemma encode_series_ok syms refs ls metas p :
  encode_series_payload refs metas = Some p → Forall2 (names syms) refs ls → zlen syms < 2 ^ 32 → Forall meta_ok metas →
  zlen refs < 2 ^ 63 → zlen metas < 2 ^ 63 →
  bytes_ok p ∧ zlen p <= 20 + 20 * zlen refs + 30 * zlen metas.
Proof.
  unfold encode_series_payload. destruct (encode_chunks metas) as [cs|] eqn:Hcs; [|done]. cbn [mbind option_bind].
  intros [= <-] Hall Hsyms Hmetas Hr Hm. apply encode_chunks_ok in Hcs as [Hcok Hclen]; [|done].
  pose proof (zlen_nonneg refs). pose proof (zlen_nonneg metas).
  assert (bytes_ok (refs ≫= λ '(n, v), uvarint_buf n ++ uvarint_buf v) ∧
    zlen (refs ≫= λ '(n, v), uvarint_buf n ++ uvarint_buf v) <= 20 * zlen refs) as [Hrok Hrlen].
  { clear -Hall Hsyms. induction Hall as [|[n v] l refs ls (Hn & Hv & H1 & H2) _ [IH1 IH2]]; [split; [constructor|done]|]. rewrite bind_cons.
    cbn [fst snd] in *. apply lookup_lt_Some in H1, H2. unfold zlen in Hsyms.
    assert (is_u64 n = true ∧ is_u64 v = true) as [Hn' Hv'] by (split; width). split.
    - apply Forall_app_2, IH1. by apply Forall_app_2; apply uvarint_buf_ok.
    - rewrite !uvarint_buf_eq, !zlen_app, zlen_cons by done. pose proof (zlen_uvarint _ Hn'). pose proof (zlen_uvarint _ Hv'). lia. }
  split.
  - apply Forall_app_2; [apply uvarint_buf_ok; width|]. apply Forall_app_2; [done|].
    apply Forall_app_2; [apply uvarint_buf_ok; width|done].
  - rewrite !uvarint_buf_eq, !zlen_app by width. pose proof (zlen_uvarint (zlen refs) ltac:(width)).
    pose proof (zlen_uvarint (zlen metas) ltac:(width)). lia.
Qed.

(** The list a writer was given for an entry of the offset table. *)
Definition post_of (x : PostingsOffsetEntry * list Z) : str * str * list Z := (pe_name x.1, pe_value x.1, x.2).

(** A file of the layout [finish] produces is accepted. *)
Lemma parse_layout pre syms es toc :
  let data := pre ++ section (table_bytes es) ++ toc ++ be32 (Crc32c.compute toc) in
  file_ok data → holds pre 0 header → holds pre 5 (section (symbols_payload syms)) →
  bytes_ok (symbols_payload syms) → zlen (symbols_payload syms) < 2 ^ 32 → zlen syms < 2 ^ 32 →
  bytes_ok (table_bytes es) → zlen (table_bytes es) < 2 ^ 32 → zlen es < 2 ^ 32 →
  Forall (λ e, is_u64 (pe_offset e) = true) es →
  zlen toc = 48 → bytes_ok toc → read_be64 (take 8 toc) = 5 → read_be64 (take 8 (drop 40 toc)) = zlen pre →
  ∃ t, IndexReader.parse data = Ok (IndexReader.mk data 2 t (table data 2 (5 + 4) syms) (PostingsOffsetTable.new es)).
Proof.
  intros data Hf Hh Hs Hsok Hslen Hsn Htok Htlen Htn Hes Htl Htoc_ok Ht1 Ht2.
  destruct (parse_toc_holds (pre ++ section (table_bytes es)) toc) as (t & Htoc & Ht1' & Ht2'); [|done..|].
  { rewrite <- app_assoc. fold data. unfold file_ok in Hf. lia. }
  rewrite <- app_assoc in Htoc. fold data in Htoc. exists t.
  destruct (parse_symbols data 5 2 syms Hf (holds_app _ _ _ _ Hs) Hsok Hslen Hsn) as [Hparse _].
  unfold IndexReader.parse. unfold k_index_header_size, k_index_toc_size. change (5 + (6 * 8 + 4)) with 57.
  pose proof (holds_app _ (section (table_bytes es) ++ toc ++ be32 (Crc32c.compute toc)) _ _ Hh)
    as (nil & post & Hdata & ->%zlen_nil). fold data in Hdata. rewrite app_nil_l in Hdata.
  assert (57 <= zlen data) as Hlong.
  { unfold data. rewrite !zlen_app, Htl, zlen_be32. apply holds_bounds in Hh. change (zlen header) with 5 in Hh.
    pose proof (zlen_nonneg (section (table_bytes es))). lia. }
  destruct (Z.ltb_spec (zlen data) 57); [lia|].
  assert (take 4 data = be32 k_magic_index ∧ nth 4 data 0 = 2) as [-> ->] by (by rewrite Hdata).
  rewrite read_be32_be32 by done. rewrite Z.eqb_refl. cbn [negb andb Z.eqb k_index_format_v1 k_index_format_v2 Pos.eqb].
  rewrite Htoc. cbn [mbind outcome_bind]. rewrite Ht1', Ht1, Hparse. cbn [mbind outcome_bind]. rewrite Ht2', Ht2.
  rewrite (parse_table data (zlen pre) es Hf); [done|by exists pre, (toc ++ be32 (Crc32c.compute toc))|done..].
Qed.

(** The entry of a series is read through the symbol table. *)
Lemma series_holds data toc ptab syms id p e :
  file_ok data → holds data (5 + 4 + 4) (symbols_bytes syms) → zlen syms < 2 ^ 32 →
  id_ok id → holds data (id * 16) (usection p) → bytes_ok p → zlen p < 2 ^ 32 → encodes syms p e →
  IndexReader.series (IndexReader.mk data 2 toc (table data 2 (5 + 4) syms) ptab) id = Ok e.
Proof.
  intros Hf Hsyms Hsn Hid Hat Hpok Hplen (refs & ls & Henc & Hnames & Hmetas & Hlab). unfold id_ok in Hid.
  unfold IndexReader.series. cbn [IndexReader.version_ IndexReader.data_ IndexReader.symbols_].
  destruct (Z.eqb_spec 2 k_index_format_v1); [done|]. rewrite u64_small by width.
  rewrite (read_usection_holds _ _ _ Hf Hat Hpok). cbn [mbind outcome_bind].
  rewrite (decode_encode_entry _ refs ls (se_chunks e) p Henc); [|by apply names_resolves|done|done].
  destruct e as [lab ch]. cbn [se_labels se_chunks] in *. by rewrite Hlab.
Qed.

Lemma parse_finished syms ser entries posts s :
  written syms ser posts s → zlen (buf_ (finish s)) < 2 ^ 32 →
  bytes_ok (symbols_payload syms) → zlen (symbols_payload syms) < 2 ^ 32 → zlen syms < 2 ^ 32 →
  Forall2 (λ x e, bytes_ok x.2 ∧ zlen x.2 < 2 ^ 32 ∧ encodes syms x.2 e) ser entries → Forall (λ x, id_ok x.1) ser →
  zlen (table_bytes (fst <$> posts)) < 2 ^ 32 → zlen posts < 2 ^ 32 →
  Forall (λ '(e, ids), 0 <= pe_offset e < 2 ^ 32 ∧ zlen (pe_name e) < 2 ^ 32 ∧ zlen (pe_value e) < 2 ^ 32 ∧
    bytes_ok (pe_name e) ∧ bytes_ok (pe_value e) ∧ Forall id_ok ids ∧ 4 + 4 * zlen ids < 2 ^ 32) posts →
  ∃ r, IndexReader.parse (buf_ (finish s)) = Ok r ∧
    index_of r syms (zip (fst <$> ser) entries) (post_of <$> posts).
Proof.
  intros Hw Hlen Hsok Hslen Hsn Hser Hids Htlen Hpn Hposts.
  destruct (finish_eq syms ser posts s Hw Htlen) as (Hbuf & Hts & Htt & _);
    [by eapply Forall_impl; [exact Hposts|]; intros [e ids] (? & ? & ? & _); split_and!; [width|..]|done|].
  rewrite Hbuf in *. set (tail := section _ ++ _) in *. pose proof (zlen_nonneg (buf_ s)). pose proof (zlen_nonneg tail).
  assert (file_ok (buf_ s ++ tail)) as Hf by (unfold file_ok; lia). rewrite zlen_app in Hlen.
  destruct (toc_bytes_spec (off_ (finish s))) as (Htl & Htok & Ht1 & Ht2);
    [by rewrite Hts|by rewrite Htt; width|]. rewrite Hts in Ht1. rewrite Htt in Ht2.
  assert (∀ off d, holds (buf_ s) off d → holds (buf_ s ++ tail) off d) as Hkeep by (intros; by apply holds_app).
  destruct Hw as [Hh _ Hs Hser' Hposts' _ _].
  destruct (parse_symbols _ 5 2 syms Hf (Hkeep _ _ Hs) Hsok Hslen Hsn) as [_ Hsyms].
  destruct (parse_layout (buf_ s) syms (fst <$> posts) _ Hf Hh Hs Hsok Hslen Hsn) as (t & Hr);
    [|done|by unfold zlen in *; rewrite length_fmap| |done..|].
  { apply table_bytes_ok, Forall_fmap. eapply Forall_impl; [exact Hposts|]. by intros [e ids] (? & ? & ? & ? & ? & _). }
  { apply Forall_fmap. eapply Forall_impl; [exact Hposts|]. intros [e ids] (? & _). cbn. width. }
  eexists. split; [exact Hr|]. split; cbn [IndexReader.symbols_ IndexReader.data_ IndexReader.postings_table_].
  - unfold IndexSymbolTable.all_symbols, table. cbn [IndexSymbolTable.count_ IndexSymbolTable.file_bytes_ IndexSymbolTable.payload_offset_].
    rewrite zlen_nat. by apply all_loop_holds.
  - intros i sym Hi. by apply lookup_table.
  - intros id e Hin. apply elem_of_lookup_zip_with in Hin as (i & id' & e' & [= <- <-] & Hid & He).
    apply list_lookup_fmap_Some in Hid as ([id' p] & -> & Hp). cbn [fst].
    destruct (Forall2_lookup_lr _ _ _ _ _ _ Hser Hp He) as (Hpok & Hplen & Henc).
    rewrite Forall_lookup in Hids. specialize (Hids _ _ Hp).
    rewrite Forall_lookup in Hser'. destruct (Hser' _ _ Hp) as (_ & _ & Hat).
    apply (series_holds _ _ _ syms id' p); [done..| |done|done|done]. by apply Hkeep.
  - cbn [PostingsOffsetTable.new PostingsOffsetTable.entries_]. rewrite Forall2_fmap. apply Forall_Forall2_diag.
    rewrite Forall_forall in *. intros [e ids] Hin. cbn. specialize (Hposts _ Hin). specialize (Hposts' _ Hin). simpl in Hposts, Hposts'.
    split_and!; [done..|]. apply read_posting_holds; [done|by apply Hkeep|tauto|tauto].
  - done.
Qed.

End IndexWriterFacts.

(** * Properties *)

Module IndexWriterProps.
Import BytesFacts IndexFacts IndexWriter IndexWriterFacts.

(** A caller that follows the order of the phases. *)
Fixpoint add_symbols (syms : list str) : M unit :=
  match syms with
  | [] => rret tt
  | sym :: syms => _ <~ add_symbol sym ;; add_symbols syms
  end.

Fixpoint add_all_series (l : list (list (Z * Z) * list ChunkMeta)) : M (list Z) :=
  match l with
  | [] => rret []
  | (refs, metas) :: l => id <~ add_series refs metas ;; ids <~ add_all_series l ;; rret (id :: ids)
  end.

Fixpoint add_all_postings (l : list (str * str * list Z)) : M unit :=
  match l with
  | [] => rret tt
  | (n, v, ids) :: l => _ <~ add_postings n v ids ;; add_all_postings l
  end.

Definition write_index syms series posts : M (list Z) :=
  _ <~ add_symbols syms ;; _ <~ finish_symbols ;;
  ids <~ add_all_series series ;; _ <~ finish_series ;;
  _ <~ add_all_postings posts ;; rret ids.

(** Upper bounds of what a symbol, a series, a posting list and its entry in
    the offset table take in the file. *)
Definition sym_room (sym : str) : Z := 10 + zlen sym.

Definition series_room (x : list (Z * Z) * list ChunkMeta) : Z := 50 + 20 * zlen x.1 + 30 * zlen x.2.

Definition list_room (x : str * str * list Z) : Z := 16 + 4 * zlen x.2.

Definition entry_room (x : str * str * list Z) : Z := 40 + zlen x.1.1 + zlen x.1.2.

Definition post_room (x : str * str * list Z) : Z := 60 + zlen x.1.1 + zlen x.1.2 + 4 * zlen x.2.

Lemma sym_room_nonneg sym : 0 <= sym_room sym.
Proof. unfold sym_room. pose proof (zlen_nonneg sym). lia. Qed.

Lemma series_room_nonneg x : 0 <= series_room x.
Proof. unfold series_room. pose proof (zlen_nonneg x.1). pose proof (zlen_nonneg x.2). lia. Qed.

Lemma list_room_nonneg x : 0 <= list_room x.
Proof. unfold list_room. pose proof (zlen_nonneg x.2). lia. Qed.

Lemma entry_room_nonneg x : 0 <= entry_room x.
Proof. unfold entry_room. pose proof (zlen_nonneg x.1.1). pose proof (zlen_nonneg x.1.2). lia. Qed.

Lemma post_room_split x : post_room x = list_room x + entry_room x + 4.
Proof. unfold post_room, list_room, entry_room. lia. Qed.

Lemma post_room_nonneg x : 0 <= post_room x.
Proof. rewrite post_room_split. pose proof (list_room_nonneg x). pose proof (entry_room_nonneg x). lia. Qed.

(** An upper bound of the size of the file. *)
Definition index_room (syms : list str) (series : list (list (Z * Z) * list ChunkMeta)) (posts : list (str * str * list Z)) : Z :=
  200 + zsum sym_room syms + zsum series_room series +
  zsum post_room posts.

Lemma add_symbols_stage syms' syms s :
  symbols_stage syms s → StronglySorted (le_of str_ltb) (syms ++ syms') → zlen (syms ++ syms') < 2 ^ 32 →
  Forall (λ sym, zlen sym < 2 ^ 63) syms' →
  ∃ s', add_symbols syms' s = (Ok tt, s') ∧ symbols_stage (syms ++ syms') s' ∧ file_ s' = file_ s.
Proof.
  intros Hs Hsort Hlen Hsyms. revert syms s Hs Hsort Hlen. induction Hsyms as [|sym syms' Hsym _ IH]; intros syms s Hs Hsort Hlen.
  { exists s. by rewrite app_nil_r. }
  cbn [add_symbols]. destruct (add_symbol_stage syms sym s) as (s1 & Hadd & Hs1 & Hf1); [done| | |done|].
  - intros Hne. destruct (last syms) as [l|] eqn:Hl; [|by apply last_None in Hl].
    apply StronglySorted_app_1_elem_of with (x1 := l) (x2 := sym) in Hsort; [done| |left]. by apply last_Some_elem_of.
  - unfold zlen in *. rewrite length_app in Hlen. cbn [length] in Hlen. lia.
  - rewrite (rbind_ok _ _ _ _ _ Hadd). destruct (IH (syms ++ [sym]) s1) as (s2 & ? & ? & ?);
      [done|by rewrite <- app_assoc|by rewrite <- app_assoc|]. exists s2. rewrite <- app_assoc in *. by rewrite <- Hf1.
Qed.

Lemma add_series_list syms l entries ser posts s room :
  Forall2 (λ x e, ∃ p, encode_series_payload x.1 x.2 = Some p ∧ encodes syms p e ∧ bytes_ok p ∧
    zlen p <= 20 + 20 * zlen x.1 + 30 * zlen x.2) l entries →
  written syms ser posts s → stage_ s = Series → Forall (λ x, id_ok x.1) ser →
  zlen (buf_ s) + zsum series_room l <= room → room <= 2 ^ 32 →
  ∃ new s', add_all_series l s = (Ok (fst <$> new), s') ∧ written syms (ser ++ new) posts s' ∧ stage_ s' = Series ∧
    Forall2 (λ x e, bytes_ok x.2 ∧ zlen x.2 < 2 ^ 32 ∧ encodes syms x.2 e) new entries ∧ Forall (λ x, id_ok x.1) (ser ++ new) ∧
    file_ s' = file_ s ∧ zlen (buf_ s') <= zlen (buf_ s) + zsum series_room l.
Proof.
  intros Hall. revert ser s room. induction Hall as [|[refs metas] e l entries (p & Henc & He & Hok & Hlen) _ IH];
    intros ser s room Hw Hst Hids Hroom Hr; cbn [fst snd] in *.
  { exists [], s. rewrite app_nil_r. change (zsum _ []) with 0. split_and!; [done..|lia]. }
  cbn [add_all_series]. rewrite zsum_cons in *. cbn [fst snd] in *.
  pose proof (zsum_nonneg series_room l (λ x _, series_room_nonneg x)) as Hnn. unfold series_room at 1 in Hroom. unfold series_room at 1. cbn [fst snd] in *.
  pose proof (zlen_nonneg refs). pose proof (zlen_nonneg metas).
  destruct (add_series_written syms ser posts s refs metas p) as (id & s1 & Hadd & Hst1 & Hw1 & Hf1 & Hb1 & Hid); [done..|lia|].
  rewrite (rbind_ok _ _ _ _ _ Hadd).
  destruct (IH (ser ++ [(id, p)]) s1 room) as (new & s2 & Hadds & Hw2 & Hst2 & Hnew & Hids2 & Hf2 & Hb2);
    [done|done|by apply Forall_app_2, Forall_singleton|lia|done|].
  rewrite (rbind_ok _ _ _ _ _ Hadds). exists ((id, p) :: new), s2. rewrite <- app_assoc in Hw2, Hids2. cbn [app] in *.
  pose proof (zlen_nonneg (buf_ s)). split_and!; [done..| |done|congruence|lia]. constructor; [|done]. cbn [fst snd].
  split_and!; [done|lia|done].
Qed.

Lemma add_postings_list syms ser l posts s room :
  written syms ser posts s → stage_ s = Postings → Forall (λ x, ascending Z.ltb x.2) l →
  zlen (buf_ s) + zsum post_room l <= room → room <= 2 ^ 32 →
  Forall (λ x, 0 <= pe_offset x.1 < 2 ^ 32) posts →
  ∃ new s', add_all_postings l s = (Ok tt, s') ∧ written syms ser (posts ++ new) s' ∧ stage_ s' = Postings ∧
    post_of <$> new = l ∧ Forall (λ x, 0 <= pe_offset x.1 < 2 ^ 32) (posts ++ new) ∧ file_ s' = file_ s ∧
    zlen (buf_ s') <= zlen (buf_ s) + zsum list_room l.
Proof.
  intros Hw Hst Hasc. revert posts s Hw Hst. induction Hasc as [|[[n v] ids] l Hids _ IH]; intros posts s Hw Hst Hroom Hr Hoffs.
  { exists [], s. rewrite app_nil_r. change (zsum _ []) with 0. split_and!; [done..|lia]. }
  cbn [add_all_postings snd] in *. rewrite !zsum_cons in *.
  pose proof (zsum_nonneg post_room l (λ x _, post_room_nonneg x)) as Hnn.
  unfold post_room at 1 in Hroom. unfold list_room at 1. cbn [fst snd] in *.
  pose proof (zlen_nonneg n). pose proof (zlen_nonneg v). pose proof (zlen_nonneg ids).
  destruct (add_postings_written syms ser posts s n v ids) as (off & s1 & Hadd & Hst1 & Hw1 & Hf1 & Hb1 & Hoff); [done..|lia|].
  rewrite (rbind_ok _ _ _ _ _ Hadd).
  destruct (IH (posts ++ [(mkPostingsEntry n v off, ids)]) s1) as (new & s2 & Hadds & Hw2 & Hst2 & Hnew & Hoffs2 & Hf2 & Hb2);
    [done|done|lia|done|by apply Forall_app_2, Forall_singleton|].
  exists ((mkPostingsEntry n v off, ids) :: new), s2. rewrite <- app_assoc in Hw2, Hoffs2.
  split_and!; [done..| |done|congruence|lia]. cbn [fmap list_fmap]. by rewrite Hnew.
Qed.

(** The labels a list of reference pairs stands for. *)
Definition resolve (syms : list str) (refs : list (Z * Z)) : list Label :=
  (λ r : Z * Z, mkLabel (default [] (syms !! Z.to_nat r.1)) (default [] (syms !! Z.to_nat r.2))) <$> refs.

(** A series the writer can encode: references to symbols, times whose
    differences do not overflow. *)
Definition series_ok (syms : list str) (x : list (Z * Z) * list ChunkMeta) : Prop :=
  Forall (λ r : Z * Z, 0 <= r.1 < zlen syms ∧ 0 <= r.2 < zlen syms) x.1 ∧
  Forall meta_ok x.2 ∧ is_Some (encode_chunks x.2).

#[export] Instance series_ok_dec syms x : Decision (series_ok syms x).
Proof. unfold series_ok. apply _. Defined.

(** A posting list the writer accepts. *)
Definition post_ok (x : str * str * list Z) : Prop :=
  bytes_ok x.1.1 ∧ bytes_ok x.1.2 ∧ no_nul x.1.1 ∧ Forall id_ok x.2 ∧ strictly_ascending x.2 = true.

#[export] Instance post_ok_dec x : Decision (post_ok x).
Proof. unfold post_ok, bytes_ok, id_ok. apply _. Defined.

Lemma strictly_ascending_inv ids : strictly_ascending ids = true → ascending Z.ltb ids.
Proof.
  induction ids as [|x ids IH]; [constructor|]. destruct ids as [|y ids]; [by repeat constructor|].
  cbn [strictly_ascending]. intros [Hxy Hids]%andb_prop. specialize (IH Hids). constructor; [done|].
  constructor; [lia|]. apply StronglySorted_inv in IH as [_ Hy]. eapply Forall_impl; [exact Hy|]. intros z Hz. cbn beta in Hz. lia.
Qed.

Lemma names_resolve syms refs :
  Forall (λ r : Z * Z, 0 <= r.1 < zlen syms ∧ 0 <= r.2 < zlen syms) refs → Forall2 (names syms) refs (resolve syms refs).
Proof.
  intros Hrefs. unfold resolve. apply Forall2_fmap_r, Forall_Forall2_diag. eapply Forall_impl; [exact Hrefs|].
  intros [a b] [Ha Hb]. unfold names, zlen in *. cbn [compose fst snd name value] in *.
  destruct (lookup_lt_is_Some_2 syms (Z.to_nat a)) as [x Hx]; [lia|].
  destruct (lookup_lt_is_Some_2 syms (Z.to_nat b)) as [y Hy]; [lia|].
  unfold str in *. rewrite Hx, Hy. split_and!; done || lia.
Qed.

Lemma symbols_payload_size syms :
  Forall bytes_ok syms → zsum sym_room syms < 2 ^ 32 →
  zlen (symbols_payload syms) <= 4 + zsum sym_room syms ∧ bytes_ok (symbols_payload syms) ∧
  zlen syms <= zsum sym_room syms.
Proof.
  intros Hok Hsum. unfold symbols_payload. rewrite zlen_app, zlen_be32.
  enough (zlen (symbols_bytes syms) <= zsum sym_room syms ∧ bytes_ok (symbols_bytes syms) ∧
    zlen syms <= zsum sym_room syms) as (? & ? & ?).
  { split_and!; [lia|apply Forall_app_2; [apply be32_ok|done]|done]. }
  induction Hok as [|s syms Hs Hok IH]; [by split_and!; [|constructor|]|]. rewrite zsum_cons in *. pose proof (zlen_nonneg s).
  pose proof (zsum_nonneg sym_room syms (λ x _, sym_room_nonneg x)). unfold sym_room at 1 in Hsum.
  unfold sym_room at 1 3.
  destruct IH as (IH1 & IH2 & IH3); [lia|]. rewrite symbols_bytes_cons, zlen_app, zlen_cons, zlen_str_bytes.
  pose proof (zlen_uvarint (zlen s) ltac:(width)). split_and!; [lia| |lia].
  apply Forall_app_2, IH2. apply Forall_app_2; [apply uvarint_bytes_ok|done].
Qed.

Lemma table_size (new : list (PostingsOffsetEntry * list Z)) :
  Forall (λ x, is_u64 (pe_offset x.1) = true ∧ zlen (pe_name x.1) < 2 ^ 32 ∧ zlen (pe_value x.1) < 2 ^ 32) new →
  zlen (table_bytes (fst <$> new)) <=
    4 + zsum entry_room (post_of <$> new) ∧
  zlen new <= zsum entry_room (post_of <$> new).
Proof.
  intros Hall. unfold table_bytes. rewrite zlen_app, zlen_be32.
  induction Hall as [|[e ids] new (Ho & Hn & Hv) _ [IH1 IH2]]; [done|]. cbn [fmap list_fmap concat] in *. rewrite zsum_cons, zlen_cons.
  change (post_of (e, ids)) with (pe_name e, pe_value e, ids). cbn [fst]. cbn [fst] in Ho, Hn, Hv.
  pose proof (zlen_nonneg (pe_name e)). pose proof (zlen_nonneg (pe_value e)). unfold entry_bytes at 1.
  rewrite !zlen_app, !zlen_str_bytes. pose proof (zlen_uvarint _ Ho). pose proof (zlen_uvarint (zlen (pe_name e)) ltac:(width)).
  pose proof (zlen_uvarint (zlen (pe_value e)) ltac:(width)). change (zlen (uvarint_bytes 2)) with 1. unfold entry_room at 1 3. cbn [fst snd]. lia.
Qed.

Lemma zsum_split (posts : list (str * str * list Z)) :
  zsum post_room posts =
    zsum list_room posts + zsum entry_room posts + 4 * zlen posts.
Proof. induction posts as [|x posts IH]; [done|]. rewrite !zsum_cons, IH, zlen_cons, post_room_split. lia. Qed.

Lemma post_small (posts : list (str * str * list Z)) x :
  x ∈ posts → zlen x.1.1 + zlen x.1.2 + 4 * zlen x.2 + 60 <= zsum post_room posts.
Proof.
  intros Hin. pose proof (zsum_elem post_room x posts post_room_nonneg Hin) as Hle. unfold post_room at 1 in Hle. unfold str in *. lia.
Qed.

(** The entry the reader returns for a series the writer was given. *)
Definition entry_of (syms : list str) (x : list (Z * Z) * list ChunkMeta) : SeriesEntry :=
  mkSeriesEntry (Labels.of_entries (resolve syms x.1)) x.2.

(** [lia] up to the name of the type of strings. *)
Ltac slia := unfold str in *; lia.

Lemma series_encodes syms series :
  Forall (series_ok syms) series → zlen syms < 2 ^ 32 →
  zsum series_room series < 2 ^ 32 →
  Forall2 (λ x e, ∃ p, encode_series_payload x.1 x.2 = Some p ∧ encodes syms p e ∧ bytes_ok p ∧
    zlen p <= 20 + 20 * zlen x.1 + 30 * zlen x.2) series (entry_of syms <$> series).
Proof.
  intros Hall Hsyms Hsum. apply Forall2_fmap_r, Forall_Forall2_diag. rewrite Forall_forall in *. intros [refs metas] Hin.
  destruct (Hall _ Hin) as (Hrefs & Hmetas & cs & Hcs). cbn [compose fst snd] in *.
  assert (50 + 20 * zlen refs + 30 * zlen metas < 2 ^ 32) as Hsmall.
  { pose proof (zsum_elem series_room _ _ series_room_nonneg Hin) as Hle. unfold series_room at 1 in Hle. cbn [fst snd] in Hle. lia. }
  pose proof (zlen_nonneg refs). pose proof (zlen_nonneg metas).
  destruct (encode_series_payload refs metas) as [p|] eqn:Hp.
  2:{ unfold encode_series_payload in Hp. by rewrite Hcs in Hp. }
  pose proof (names_resolve syms refs Hrefs) as Hnames. exists p. split; [done|]. split; [|].
  - exists refs, (resolve syms refs). by split_and!.
  - by apply (encode_series_ok syms refs (resolve syms refs) metas); [..|lia|lia].
Qed.

(** What the writer has done when the series are finished: the payloads [ser]
    under their identifiers stand for [series]. *)
Record series_done (file : str) (syms : list str) (series : list (list (Z * Z) * list ChunkMeta))
    (ser : list (Z * list Z)) (s : t) : Prop := {
  sd_written : written syms ser [] s;
  sd_stage : stage_ s = Postings;
  sd_file : file_ s = file;
  sd_series : Forall2 (λ x e, bytes_ok x.2 ∧ zlen x.2 < 2 ^ 32 ∧ encodes syms x.2 e) ser (entry_of syms <$> series);
  sd_ids : Forall (λ x, id_ok x.1) ser;
  sd_payload : bytes_ok (symbols_payload syms) ∧ zlen (symbols_payload syms) < 2 ^ 32 ∧ zlen syms < 2 ^ 32;
  sd_size : zlen (buf_ s) <= 33 + zsum sym_room syms + zsum series_room series;
}.

(** The phases up to the series. *)
Lemma series_written file fs syms series s :
  create file fs = Ok s → StronglySorted (le_of str_ltb) syms → Forall bytes_ok syms → Forall (series_ok syms) series →
  200 + zsum sym_room syms + zsum series_room series <= 2 ^ 32 →
  ∃ s1 s2 ser s3 s4, add_symbols syms s = (Ok tt, s1) ∧ finish_symbols s1 = (Ok tt, s2) ∧
    add_all_series series s2 = (Ok (fst <$> ser), s3) ∧ finish_series s3 = (Ok tt, s4) ∧
    series_done file syms series ser s4.
Proof.
  intros Hcreate Hsort Hsyms Hseries Hroom. destruct (create_stage _ _ _ Hcreate) as [Hs0 Hf0].
  pose proof (zsum_nonneg sym_room syms (λ x _, sym_room_nonneg x)) as Hn1.
  pose proof (zsum_nonneg series_room series (λ x _, series_room_nonneg x)) as Hn2.
  destruct (symbols_payload_size syms Hsyms ltac:(slia)) as (Hsize & Hspok & Hcount).
  destruct (add_symbols_stage syms [] s) as (s1 & Hadd1 & Hst1 & Hf1); [done..|cbn [app]; slia| |].
  { apply Forall_forall. intros sym Hin. pose proof (zsum_elem sym_room sym syms sym_room_nonneg Hin) as Hle.
    unfold sym_room at 1 in Hle. slia. }
  cbn [app] in Hst1. destruct (finish_symbols_written syms s1 Hst1 ltac:(slia)) as (s2 & Hadd2 & Hst2 & Hw2 & Hf2 & Hb2).
  assert (zlen (buf_ s2) = 13 + zlen (symbols_payload syms)) as Hz2.
  { rewrite Hb2. unfold section. rewrite !zlen_app, !zlen_be32. change (zlen header) with 5. slia. }
  destruct (add_series_list syms series (entry_of syms <$> series) [] [] s2 (2 ^ 32)) as (ser & s3 & Hadd3 & Hw3 & Hst3 & Hser & Hids & Hf3 & Hb3);
    [apply series_encodes; [done|slia|slia]|done|done|constructor|slia|done|].
  cbn [app] in Hw3, Hids. destruct (finish_series_written _ _ _ _ Hw3 Hst3) as (s4 & Hadd4 & Hst4 & Hw4 & Hf4 & Hb4).
  exists s1, s2, ser, s3, s4. split_and!; [done..|]. split; [done|done|congruence|done|done| |slia]. split_and!; [done|slia|slia].
Qed.

(** The entries of the offset table are small. *)
Lemma new_posts_small (posts : list (str * str * list Z)) (new : list (PostingsOffsetEntry * list Z)) :
  Forall post_ok posts → zsum post_room posts <= 2 ^ 32 → post_of <$> new = posts →
  Forall (λ x, 0 <= pe_offset x.1 < 2 ^ 32) new →
  Forall (λ '(e, ids), 0 <= pe_offset e < 2 ^ 32 ∧ zlen (pe_name e) < 2 ^ 32 ∧ zlen (pe_value e) < 2 ^ 32 ∧
    bytes_ok (pe_name e) ∧ bytes_ok (pe_value e) ∧ Forall id_ok ids ∧ 4 + 4 * zlen ids < 2 ^ 32) new.
Proof.
  intros Hposts Hroom Hnew Hoffs. rewrite Forall_forall in Hposts. rewrite Forall_forall in Hoffs. apply Forall_forall. intros [e ids] Hin. pose proof (Hoffs _ Hin) as Ho. cbn [fst] in Ho.
  assert (post_of (e, ids) ∈ posts) as Hin' by (rewrite <- Hnew; by apply list_elem_of_fmap_2).
  destruct (Hposts _ Hin') as (? & ? & ? & ? & ?).
  pose proof (post_small _ _ Hin') as Hsmall. cbn [post_of fst snd] in *.
  pose proof (zlen_nonneg (pe_name e)). pose proof (zlen_nonneg (pe_value e)). pose proof (zlen_nonneg ids).
  split_and!; [lia|lia|slia|slia|done|done|done|slia].
Qed.

(** The posting lists and the finished file. *)
Lemma postings_written file syms series ser posts s4 :
  series_done file syms series ser s4 → Forall post_ok posts → index_room syms series posts <= 2 ^ 32 →
  ∃ s5 r, add_all_postings posts s4 = (Ok tt, s5) ∧
    stage_ s5 = Postings ∧ file_ (finish s5) = file ∧ IndexReader.parse (buf_ (finish s5)) = Ok r ∧
    index_of r syms (zip (fst <$> ser) (entry_of syms <$> series)) posts.
Proof.
  intros [Hw4 Hst4 Hf4 Hser Hids (Hspok & Hslen & Hcount) Hb4] Hposts Hroom.
  unfold index_room in Hroom. pose proof (zsum_split posts) as Hsplit.
  pose proof (zsum_nonneg sym_room syms (λ x _, sym_room_nonneg x)) as Hn1.
  pose proof (zsum_nonneg series_room series (λ x _, series_room_nonneg x)) as Hn2.
  pose proof (zsum_nonneg list_room posts (λ x _, list_room_nonneg x)) as Hn3.
  pose proof (zsum_nonneg entry_room posts (λ x _, entry_room_nonneg x)) as Hn4. pose proof (zlen_nonneg posts).
  destruct (add_postings_list syms ser posts [] s4 (2 ^ 32)) as (new & s5 & Hadd5 & Hw5 & Hst5 & Hnew & Hoffs & Hf5 & Hb5);
    [done|done| |slia|done|constructor|].
  { eapply Forall_impl; [exact Hposts|]. intros x (_ & _ & _ & _ & Hasc). by apply strictly_ascending_inv. }
  cbn [app] in Hw5, Hoffs. assert (zsum post_room posts <= 2 ^ 32) as Hproom by slia.
  pose proof (new_posts_small posts new Hposts Hproom Hnew Hoffs) as Hsmall.
  assert (Forall (λ x, is_u64 (pe_offset x.1) = true ∧ zlen (pe_name x.1) < 2 ^ 32 ∧ zlen (pe_value x.1) < 2 ^ 32) new) as Hsmall'.
  { eapply Forall_impl; [exact Hsmall|]. intros [e ids] (? & ? & ? & _). cbn [fst]. split_and!; [width|done..]. }
  destruct (table_size new Hsmall') as [Htable Hnewlen]. rewrite Hnew in Htable, Hnewlen.
  destruct (finish_eq syms ser new s5 Hw5) as (Hbuf & _ & _ & Hfile); [slia| |slia|].
  { eapply Forall_impl; [exact Hsmall'|]. by intros [e ids]. }
  destruct (parse_finished syms ser (entry_of syms <$> series) new s5 Hw5) as (r & Hparse & Hindex); [|done..|slia|slia|done|].
  - rewrite Hbuf. unfold section. rewrite !zlen_app, !zlen_be32. change (zlen (toc_bytes _)) with 48. slia.
  - exists s5, r. split_and!; [done|done|congruence|done|by rewrite Hnew in Hindex].
Qed.

(** [close] writes what [finish] has built. *)
Lemma close_eq s fs :
  stage_ s = Postings → fs !! file_ (finish s) = None →
  close (s, mkWorld fs []) = (Ok tt, (set_stage Done (finish s), mkWorld (<[file_ (finish s) := buf_ (finish s)]> fs) [])).
Proof. intros Hst Hnew. unfold close. rewrite bool_decide_eq_true_2 by done. cbn [negb]. by rewrite flush_ok. Qed.

(** C16: the index file. Symbols in ascending order, series that refer to them
    and ascending posting lists, given to a fresh [IndexWriter] in the order of
    its phases and closed, make a file that [IndexReader.open] accepts; the
    reader returns the symbols by number and as a list, every series under the
    identifier the writer returned (its labels in canonical order, its chunks
    unchanged), and for every label pair the posting list that was written
    first for it, or none. Identifiers ascend. The file is below 4 GiB. *)
Theorem index_roundtrip (file : str) (fs : gmap str (list Z)) (syms : list str)
    (series : list (list (Z * Z) * list ChunkMeta)) (posts : list (str * str * list Z)) :
  fs !! file = None → StronglySorted (le_of str_ltb) syms → Forall bytes_ok syms →
  Forall (series_ok syms) series → Forall post_ok posts → index_room syms series posts <= 2 ^ 32 →
  ∃ s ids s1 s2 w, create file fs = Ok s ∧ write_index syms series posts s = (Ok ids, s1) ∧
    close (s1, mkWorld fs []) = (Ok tt, (s2, w)) ∧ ascending Z.ltb ids ∧ length ids = length series ∧
    ∃ r, IndexReader.open (files w) file = Ok r ∧
      IndexSymbolTable.all_symbols (IndexReader.symbols_ r) = Some syms ∧
      (∀ i sym, syms !! i = Some sym → IndexSymbolTable.lookup (IndexReader.symbols_ r) (Z.of_nat i) = Ok sym) ∧
      (∀ i id x, ids !! i = Some id → series !! i = Some x →
        IndexReader.series r id = Ok (mkSeriesEntry (Labels.of_entries (resolve syms x.1)) x.2)) ∧
      (∀ n v, no_nul n → IndexReader.postings r n v = Ok (default [] (find_post n v posts))).
Proof.
  intros Hnew Hsort Hsyms Hseries Hposts Hroom.
  assert (∃ s, create file fs = Ok s) as [s Hcreate] by (unfold create; rewrite Hnew; eauto).
  pose proof (zsum_nonneg post_room posts (λ x _, post_room_nonneg x)). unfold index_room in Hroom.
  destruct (series_written file fs syms series s) as (s1 & s2 & ser & s3 & s4 & H1 & H2 & H3 & H4 & Hdone); [done..|lia|].
  destruct (postings_written file syms series ser posts s4 Hdone Hposts Hroom) as (s5 & r & H5 & Hst & Hfile & Hparse & Hindex).
  exists s, (fst <$> ser), s5, (set_stage Done (finish s5)), (mkWorld (<[file := buf_ (finish s5)]> fs) []).
  split; [done|]. split.
  { unfold write_index. by rewrite (rbind_ok _ _ _ _ _ H1), (rbind_ok _ _ _ _ _ H2), (rbind_ok _ _ _ _ _ H3),
      (rbind_ok _ _ _ _ _ H4), (rbind_ok _ _ _ _ _ H5). }
  split; [pose proof (close_eq s5 fs Hst) as Hclose; rewrite Hfile in Hclose; by apply Hclose|].
  pose proof (sd_series _ _ _ _ _ Hdone) as Hlen%Forall2_length. rewrite length_fmap in Hlen.
  split; [apply Hdone|]. split; [by rewrite length_fmap|]. exists r. split_and!.
  - unfold IndexReader.open. cbn [files]. by rewrite lookup_insert_eq.
  - apply (io_symbols _ _ _ _ Hindex).
  - apply (io_lookup _ _ _ _ Hindex).
  - intros i id x Hi Hx. apply (io_series _ _ _ _ Hindex). apply elem_of_lookup_zip_with.
    exists i, id, (entry_of syms x). split_and!; [done..|]. by rewrite list_lookup_fmap, Hx.
  - intros n v Hn. apply (new_lookup r syms (zip (fst <$> ser) (entry_of syms <$> series))); [done| |done].
    eapply Forall_impl; [exact Hposts|]. by intros x (_ & _ & ? & _).
Qed.

Lemma index_roundtrip_witness :
  let syms := [[]; [97]; [98]] in
  let series := [([(1, 2)], [mkChunkMeta 5 9 8; mkChunkMeta 10 20 90]); ([(1, 1)], [])] in
  let posts := [([97], [97], [3]); ([97], [98], [2])] in
  ∃ s ids s1 s2 w, create [105] ∅ = Ok s ∧ write_index syms series posts s = (Ok ids, s1) ∧
    close (s1, mkWorld ∅ []) = (Ok tt, (s2, w)) ∧ ascending Z.ltb ids ∧ length ids = length series ∧
    ∃ r, IndexReader.open (files w) [105] = Ok r ∧
      IndexSymbolTable.all_symbols (IndexReader.symbols_ r) = Some syms ∧
      (∀ i sym, syms !! i = Some sym → IndexSymbolTable.lookup (IndexReader.symbols_ r) (Z.of_nat i) = Ok sym) ∧
      (∀ i id x, ids !! i = Some id → series !! i = Some x →
        IndexReader.series r id = Ok (mkSeriesEntry (Labels.of_entries (resolve syms x.1)) x.2)) ∧
      (∀ n v, no_nul n → IndexReader.postings r n v = Ok (default [] (find_post n v posts))).
Proof.
  apply (index_roundtrip [105] ∅ [[]; [97]; [98]]
    [([(1, 2)], [mkChunkMeta 5 9 8; mkChunkMeta 10 20 90]); ([(1, 1)], [])] [([97], [97], [3]); ([97], [98], [2])]).
  - reflexivity.
  - repeat constructor.
  - repeat constructor.
  - apply (bool_decide_unpack _). vm_compute. exact I.
  - apply (bool_decide_unpack _). vm_compute. exact I.
  - vm_compute. discriminate.
Defined.

(** A symbol equal to the one before is accepted, although the interface asks
    for strictly ascending symbols. *)
Example equal_symbols :
  ∃ s ids s1, create [105] ∅ = Ok s ∧ write_index [[97]; [97]] [] [] s = (Ok ids, s1).
Proof. do 3 eexists. split; reflexivity. Qed.

(** A section offset near 2^64 wraps in the bounds check. *)
Example section_offset_wraps : read_section_payload [0; 0; 0; 0] (2 ^ 64 - 2) = UB.
Proof. reflexivity. Qed.

(** Two pairs share a key of the offset table when a name contains a zero
    byte: the second list cannot be found. *)
Example nul_in_name :
  let r entries := PostingsOffsetTable.lookup (PostingsOffsetTable.new entries) in
  r [mkPostingsEntry [97] [0; 98] 1; mkPostingsEntry [97; 0] [98] 2] [97; 0] [98] = Some 1.
Proof. reflexivity. Qed.

End IndexWriterProps.
