(* ===== verification/Ulid.v ===== *)
(** Block identifiers: [include/merlion_tsdb/block/ulid.hpp] and
    [src/block/ulid.cpp]. The clock and the random device are inputs of
    [new_ulid]. *)

From S2P Require Import Prelude Ordered.

(** "0123456789ABCDEFGHJKMNPQRSTVWXYZ". *)
Definition k_crockford_alphabet : str :=
  [48; 49; 50; 51; 52; 53; 54; 55; 56; 57; 65; 66; 67; 68; 69; 70; 71; 72; 74; 75; 77; 78; 80; 81; 82; 83; 84; 86;
   87; 88; 89; 90].

Definition k_ulid_byte_size : nat := 16.
Definition k_ulid_char_size : nat := 26.

(** [bit_at]: two zeros stand before the bits of the identifier. *)
Definition bit_at (bytes : list Z) (virtual_pos : nat) : Z :=
  if (virtual_pos <? 2)%nat then 0
  else
    let real_pos := (virtual_pos - 2)%nat in
    Z.land (Z.shiftr (nth (real_pos / 8) bytes 0) (7 - Z.of_nat (real_pos mod 8))) 1.

(** The inner loop of [encode_ulid]: five bits make one character. *)
Definition char_bits (bytes : list Z) (c : nat) : Z :=
  foldl (λ v b, u8 (Z.lor (Z.shiftl v 1) (bit_at bytes (c * 5 + b)))) 0 (seq 0 5).

Definition encode_ulid (bytes : list Z) : str :=
  (λ c, nth (Z.to_nat (char_bits bytes c)) k_crockford_alphabet 0) <$> seq 0 k_ulid_char_size.

(** The bytes of [new_ulid] for the time [now_ms] and the answers [rd] of the
    random device, one per call. *)
Definition ulid_bytes (now_ms : Z) (rd : list Z) : list Z :=
  let ts := Z.land (u64 now_ms) 0x0000FFFFFFFFFFFF in
  [u8 (Z.shiftr ts 40); u8 (Z.shiftr ts 32); u8 (Z.shiftr ts 24); u8 (Z.shiftr ts 16); u8 (Z.shiftr ts 8); u8 ts] ++
  take 10 (rd ≫= λ r, (λ j : nat, u8 (Z.shiftr r (8 * Z.of_nat j))) <$> seq 0 4).

Definition new_ulid (now_ms : Z) (rd : list Z) : str := encode_ulid (ulid_bytes now_ms rd).

(** * Facts *)

Module UlidFacts.

(** The order of two bit strings of the same length. *)
Fixpoint bits_ltb (a b : list bool) : bool :=
  match a, b with
  | x :: a, y :: b => if Bool.eqb x y then bits_ltb a b else y
  | _, _ => false
  end.

Lemma bits_ltb_app w a b k l :
  length a = w → length b = w →
  bits_ltb (a ++ k) (b ++ l) = (bits_val a <? bits_val b) || ((bits_val a =? bits_val b) && bits_ltb k l).
Proof.
  revert a b. induction w as [|w IH]; intros [|x a] [|y b] Ha Hb; try done.
  injection Ha as Ha. injection Hb as Hb. cbn [app bits_ltb]. rewrite IH by done. rewrite !bits_val_cons, Ha, Hb.
  pose proof (bits_val_range a) as Hra. pose proof (bits_val_range b) as Hrb. rewrite Ha in Hra. rewrite Hb in Hrb.
  destruct x, y; cbn [Bool.eqb Z.b2z]; repeat case_match; lia.
Qed.

(** Comparing strings of characters that stand for groups of [w] bits. *)
Lemma str_ltb_groups w (f : list bool → Z) gs hs :
  (∀ g h, length g = w → length h = w → (f g <? f h) = (bits_val g <? bits_val h)) →
  Forall (λ g, length g = w) gs → Forall (λ g, length g = w) hs → length gs = length hs →
  str_ltb (f <$> gs) (f <$> hs) = bits_ltb (concat gs) (concat hs).
Proof.
  intros Hf Hgs. revert hs. induction Hgs as [|g gs Hg _ IH]; intros hs Hhs Hlen; destruct Hhs as [|h hs Hh Hhs]; try done.
  injection Hlen as Hlen. rewrite !fmap_cons. cbn [concat str_ltb]. rewrite (bits_ltb_app w) by done.
  rewrite (IH hs Hhs Hlen).
  pose proof (Hf g h Hg Hh) as H1. pose proof (Hf h g Hh Hg) as H2. rewrite H1.
  destruct (Z.ltb_spec (bits_val g) (bits_val h)), (Z.ltb_spec (bits_val h) (bits_val g)), (Z.eqb_spec (bits_val g) (bits_val h)),
    (Z.eqb_spec (f g) (f h)); cbn [orb andb]; done || lia.
Qed.

Lemma stream_bits_concat l : stream_bits l = concat (zbits 8 <$> l).
Proof. induction l as [|b l IH]; [done|]. rewrite stream_bits_cons, IH. done. Qed.

Lemma bits_val_byte b : is_byte b = true → bits_val (zbits 8 b) = b.
Proof. intros Hb. rewrite bits_val_zbits. change (2 ^ Z.of_nat 8) with 256. apply Z.mod_small. unfold is_byte in Hb. lia. Qed.

Lemma bits_val_bytes l : bytes_ok l → bits_val <$> (zbits 8 <$> l) = l.
Proof. induction 1 as [|b l Hb _ IH]; [done|]. cbn [fmap list_fmap] in *. rewrite bits_val_byte by done. by f_equal. Qed.

(** Bytes compare as their bits do. *)
Lemma str_ltb_bytes a b : bytes_ok a → bytes_ok b → length a = length b → str_ltb a b = bits_ltb (stream_bits a) (stream_bits b).
Proof.
  intros Ha Hb Hlen. rewrite !stream_bits_concat. rewrite <- (bits_val_bytes a), <- (bits_val_bytes b) at 1 by done.
  apply (str_ltb_groups 8); [done| | |by rewrite !length_fmap]; apply Forall_fmap, Forall_true; intros x; apply length_zbits.
Qed.

(** The stream [encode_ulid] cuts into characters. *)
Definition virtual (bytes : list Z) : list bool := [false; false] ++ stream_bits bytes.

Lemma nth_stream_bits l p :
  nth p (stream_bits l) false = Z.testbit (nth (p / 8) l 0) (7 - Z.of_nat (p mod 8)).
Proof.
  revert p. induction l as [|b l IH]; intros p.
  { change (stream_bits []) with (@nil bool). destruct (p / 8)%nat, p; cbn [nth]; by rewrite Z.testbit_0_l. }
  rewrite stream_bits_cons. destruct (decide (p < 8)%nat).
  - rewrite app_nth1 by (rewrite length_zbits; lia). rewrite Nat.div_small, Nat.mod_small by done.
    do 8 (destruct p as [|p]; [reflexivity|]). lia.
  - rewrite app_nth2 by (rewrite length_zbits; lia). rewrite length_zbits, IH.
    replace p with (p - 8 + 1 * 8)%nat at 3 4 by lia. rewrite Nat.div_add, Nat.Div0.mod_add by lia.
    by rewrite Nat.add_1_r.
Qed.

Lemma bit_at_virtual bytes p : bit_at bytes p = Z.b2z (nth p (virtual bytes) false).
Proof.
  unfold bit_at, virtual. destruct (Nat.ltb_spec p 2).
  { destruct p as [|[|p]]; done || lia. }
  destruct p as [|[|p]]; [lia..|]. cbn [app nth]. replace (S (S p) - 2)%nat with p by lia.
  rewrite nth_stream_bits, (Z.land_ones _ 1) by lia. rewrite <- Z.bit0_mod, Z.shiftr_spec by lia. done.
Qed.

(** The five bits of character [c]. *)
Definition group (bytes : list Z) (c : nat) : list bool := (λ b, nth (c * 5 + b) (virtual bytes) false) <$> seq 0 5.

Lemma char_bits_group bytes c : char_bits bytes c = bits_val (group bytes c).
Proof.
  unfold char_bits, group. cbn [seq foldl fmap list_fmap]. rewrite !bit_at_virtual. generalize (virtual bytes). intros l.
  do 5 (destruct (nth _ l false)); reflexivity.
Qed.

Lemma concat_groups (l : list bool) n :
  length l = (n * 5)%nat → concat ((λ c, (λ b, nth (c * 5 + b) l false) <$> seq 0 5) <$> seq 0 n) = l.
Proof.
  revert l. induction n as [|n IH]; intros l Hl; [by destruct l|].
  destruct l as [|b0 [|b1 [|b2 [|b3 [|b4 l]]]]]; [done..|]. cbn [seq]. rewrite fmap_cons, <- fmap_S_seq, <- list_fmap_compose. cbn [concat].
  injection Hl as Hl. exact (f_equal2 app (eq_refl [b0; b1; b2; b3; b4]) (IH l Hl)).
Qed.

Lemma concat_group bytes : length bytes = k_ulid_byte_size → concat (group bytes <$> seq 0 k_ulid_char_size) = virtual bytes.
Proof. intros Hl. apply concat_groups. unfold virtual. rewrite length_app, length_stream_bits, Hl. done. Qed.

(** The character of a group of five bits. *)
Definition crockford (g : list bool) : Z := nth (Z.to_nat (bits_val g)) k_crockford_alphabet 0.

Lemma encode_eq bytes : encode_ulid bytes = crockford <$> (group bytes <$> seq 0 k_ulid_char_size).
Proof.
  unfold encode_ulid. rewrite <- list_fmap_compose. apply list_fmap_ext. intros i c _. unfold compose, crockford.
  by rewrite char_bits_group.
Qed.

Lemma crockford_table i j :
  (i < 32)%nat → (j < 32)%nat → (nth i k_crockford_alphabet 0 <? nth j k_crockford_alphabet 0) = (i <? j)%nat.
Proof.
  intros Hi Hj.
  assert (forallb (λ i, forallb (λ j, Bool.eqb (nth i k_crockford_alphabet 0 <? nth j k_crockford_alphabet 0) (i <? j)%nat)
    (seq 0 32)) (seq 0 32) = true) as H by (vm_compute; reflexivity).
  rewrite forallb_forall in H. specialize (H i). rewrite forallb_forall in H.
  apply eqb_prop, H; apply in_seq; lia.
Qed.

Lemma bits_val_nat g w : length g = w → 0 <= bits_val g < 2 ^ Z.of_nat w.
Proof. intros <-. apply bits_val_range. Qed.

Lemma crockford_less g h :
  length g = 5%nat → length h = 5%nat → (crockford g <? crockford h) = (bits_val g <? bits_val h).
Proof.
  intros Hg%bits_val_nat Hh%bits_val_nat. change (2 ^ Z.of_nat 5) with 32 in *. unfold crockford. rewrite crockford_table by lia.
  destruct (Z.ltb_spec (bits_val g) (bits_val h)); [apply Nat.ltb_lt|apply Nat.ltb_ge]; lia.
Qed.

Lemma groups_ok bytes : Forall (λ g, length g = 5%nat) (group bytes <$> seq 0 k_ulid_char_size).
Proof. apply Forall_fmap, Forall_true. done. Qed.

Lemma encode_less a b :
  bytes_ok a → bytes_ok b → length a = k_ulid_byte_size → length b = k_ulid_byte_size →
  str_ltb (encode_ulid a) (encode_ulid b) = str_ltb a b.
Proof.
  intros Ha Hb Hla Hlb. rewrite !encode_eq, (str_ltb_bytes a b) by congruence.
  rewrite (str_ltb_groups 5), !concat_group by (done || apply crockford_less || apply groups_ok). done.
Qed.

Lemma length_encode bytes : length (encode_ulid bytes) = k_ulid_char_size.
Proof. unfold encode_ulid. by rewrite length_fmap. Qed.

Lemma encode_ascii bytes : Forall (λ c, 48 <= c <= 90) (encode_ulid bytes).
Proof.
  rewrite encode_eq. apply Forall_fmap, Forall_fmap, Forall_true. intros c. unfold compose, crockford.
  pose proof (bits_val_nat (group bytes c) 5 eq_refl) as Hr. change (2 ^ Z.of_nat 5) with 32 in Hr.
  assert (Forall (λ c, 48 <= c <= 90) k_crockford_alphabet) as Hall by (apply (bool_decide_unpack _); vm_compute; exact I).
  rewrite Forall_forall in Hall. apply Hall, list_elem_of_In, nth_In. change (length k_crockford_alphabet) with 32%nat. lia.
Qed.

Lemma length_ulid_bytes now rd : (3 <= length rd)%nat → length (ulid_bytes now rd) = k_ulid_byte_size.
Proof. intros Hrd. do 3 (destruct rd as [|? rd]; [simpl in Hrd; lia|]). reflexivity. Qed.

Lemma ulid_bytes_ok now rd : bytes_ok (ulid_bytes now rd).
Proof.
  unfold ulid_bytes. apply Forall_app_2; [repeat (apply Forall_cons_2; [apply u8_range|]); constructor|].
  apply Forall_take, Forall_bind, Forall_true. intros r.
  apply Forall_fmap, Forall_true. intros j. unfold compose. apply u8_range.
Qed.

(** The first six bytes are the time. *)
Lemma ulid_bytes_time now rd : 0 <= now < 2 ^ 48 → ∃ r, ulid_bytes now rd = be_bytes 6 now ++ r.
Proof.
  intros Hn. eexists. unfold ulid_bytes. f_equal. change 0x0000FFFFFFFFFFFF with (Z.ones 48).
  assert (u64 now = now) as -> by (apply Z.mod_small; lia). rewrite Z.land_ones, Z.mod_small by lia.
  reflexivity.
Qed.

Lemma crockford_elem g : length g = 5%nat → crockford g ∈ k_crockford_alphabet.
Proof.
  intros Hr%bits_val_nat. change (2 ^ Z.of_nat 5) with 32 in Hr.
  apply list_elem_of_In, nth_In. change (length k_crockford_alphabet) with 32%nat. lia.
Qed.

(** Two leading zeros leave the first eight characters. *)
Lemma encode_head bytes : ∃ c rest, encode_ulid bytes = c :: rest ∧ c <= 55.
Proof.
  eexists _, _. rewrite encode_eq. split; [reflexivity|]. unfold group. cbn [seq fmap list_fmap].
  change (nth (0 * 5 + 0) (virtual bytes) false) with false. change (nth (0 * 5 + 1) (virtual bytes) false) with false.
  generalize (virtual bytes). intros l. unfold crockford.
  do 3 (destruct (nth _ l false)); vm_compute; discriminate.
Qed.

Lemma be_bytes_mod n m x : (8 * Z.of_nat n <= m) → be_bytes n (x mod 2 ^ m) = be_bytes n x.
Proof.
  induction n as [|n IH]; intros Hm; [done|]. cbn [be_bytes]. rewrite IH by lia. f_equal.
  unfold u8. apply Z.bits_inj'. intros i Hi. destruct (decide (i < 8)).
  - by rewrite !Z.mod_pow2_bits_low, !Z.shiftr_spec, Z.mod_pow2_bits_low by lia.
  - by rewrite !Z.mod_pow2_bits_high by lia.
Qed.

(** Big-endian bytes are ordered as the numbers. *)
Lemma be_bytes_less n x y r s :
  0 <= x < y → y < 2 ^ (8 * Z.of_nat n) → str_ltb (be_bytes n x ++ r) (be_bytes n y ++ s) = true.
Proof.
  revert x y. induction n as [|n IH]; intros x y Hx Hy; [change (8 * Z.of_nat 0) with 0 in Hy; lia|].
  cbn [be_bytes app str_ltb]. set (p := 2 ^ (8 * Z.of_nat n)) in *.
  assert (2 ^ (8 * Z.of_nat (S n)) = 256 * p) as Hp.
  { unfold p. replace (8 * Z.of_nat (S n)) with (8 + 8 * Z.of_nat n) by lia. by rewrite Z.pow_add_r by lia. }
  assert (0 < p) by (apply Z.pow_pos_nonneg; lia).
  rewrite !Z.shiftr_div_pow2 by lia. fold p.
  pose proof (Z.div_lt_upper_bound y p 256 ltac:(lia) ltac:(lia)). pose proof (Z.div_pos x p ltac:(lia) ltac:(lia)).
  pose proof (Z.div_le_mono x y p ltac:(lia) ltac:(lia)). unfold u8. rewrite !Z.mod_small by (change (2 ^ 8) with 256; lia).
  destruct (Z.ltb_spec (x / p) (y / p)); [done|]. rewrite (proj2 (Z.eqb_eq _ _)) by lia. cbn [orb andb].
  rewrite <- (be_bytes_mod n (8 * Z.of_nat n) x), <- (be_bytes_mod n (8 * Z.of_nat n) y) by lia. fold p. apply IH; [|by apply Z.mod_pos_bound].
  pose proof (Z.mod_pos_bound x p ltac:(lia)). pose proof (Z.div_mod x p). pose proof (Z.div_mod y p).
  assert (x / p = y / p) as Heq by lia. rewrite Heq in *. lia.
Qed.

End UlidFacts.

Module UlidProps.
Import UlidFacts.

(** C32: block identifiers. The text of sixteen bytes has 26 characters of the
    alphabet, of which the first is at most '7', and texts are ordered as the
    bytes are; in particular different bytes have different texts. Of two
    identifiers of [new_ulid] the one made in an earlier millisecond comes
    first, whatever the random device answers. *)
Theorem ulid_sortable (a b : list Z) (t1 t2 : Z) (rd1 rd2 : list Z) :
  bytes_ok a → bytes_ok b → length a = k_ulid_byte_size → length b = k_ulid_byte_size →
  0 <= t1 < t2 → t2 < 2 ^ 48 → (3 <= length rd1)%nat → (3 <= length rd2)%nat →
  length (encode_ulid a) = k_ulid_char_size ∧ Forall (λ c, c ∈ k_crockford_alphabet) (encode_ulid a) ∧
  (∃ c rest, encode_ulid a = c :: rest ∧ c <= 55) ∧
  str_ltb (encode_ulid a) (encode_ulid b) = str_ltb a b ∧ (encode_ulid a = encode_ulid b → a = b) ∧
  str_ltb (new_ulid t1 rd1) (new_ulid t2 rd2) = true.
Proof.
  intros Ha Hb Hla Hlb Ht1 Ht2 Hr1 Hr2. split_and!.
  - apply length_encode.
  - rewrite encode_eq. apply Forall_fmap, Forall_fmap, Forall_true. intros c. unfold compose. by apply crockford_elem.
  - by apply encode_head.
  - by apply encode_less.
  - intros Heq. apply str_ltb_total; rewrite <- encode_less, Heq by done; apply str_ltb_irrefl.
  - unfold new_ulid. rewrite encode_less by (apply ulid_bytes_ok || by apply length_ulid_bytes).
    destruct (ulid_bytes_time t1 rd1) as [r1 ->]; [lia|]. destruct (ulid_bytes_time t2 rd2) as [r2 ->]; [lia|].
    by apply be_bytes_less.
Qed.

Lemma ulid_sortable_witness :
  let a := replicate 16 255 in let b := ulid_bytes 1 [1; 2; 3] in
  length (encode_ulid a) = k_ulid_char_size ∧ Forall (λ c, c ∈ k_crockford_alphabet) (encode_ulid a) ∧
  (∃ c rest, encode_ulid a = c :: rest ∧ c <= 55) ∧
  str_ltb (encode_ulid a) (encode_ulid b) = str_ltb a b ∧ (encode_ulid a = encode_ulid b → a = b) ∧
  str_ltb (new_ulid 1700000000000 [0; 1; 2]) (new_ulid 1700000000001 [5; 4; 3]) = true.
Proof.
  apply (ulid_sortable (replicate 16 255) (ulid_bytes 1 [1; 2; 3]) 1700000000000 1700000000001 [0; 1; 2] [5; 4; 3]);
    try reflexivity; try (simpl; lia); apply (bool_decide_unpack _); vm_compute; exact I.
Defined.

End UlidProps.
