(* ===== verification/Meta.v ===== *)
(** The metadata of a block, [meta.json]: [include/merlion_tsdb/block/meta.hpp]
    and [src/block/meta.cpp]. The JSON library is a parameter: [Json] has the
    operations the code calls, [JsonLaws] their documented behaviour. An
    exception that leaves a function is the outcome [UB]. *)

From Stdlib Require Import String Ascii.
From S2P Require Import Prelude Ordered Files.

(** The characters of a literal. *)
Definition text (s : string) : str := (λ a, Z.of_N (N_of_ascii a)) <$> list_ascii_of_string s.

(** * The library *)

(** Documents of [nlohmann::json]. [set_field] is [j[key] = v], [find] is
    [None] for [end()]; a getter, a parser or a serializer that throws a
    [json::exception] gives [None]. *)
Class Json : Type := {
  json : Type;
  json_null : json;
  json_object : json;
  json_array : list json → json;
  of_string : str → json;
  of_strings : list str → json;
  of_signed : Z → json;
  of_unsigned : Z → json;
  of_bool : bool → json;
  set_field : json → str → json → json;
  find : json → str → option json;
  is_null : json → bool;
  is_object : json → bool;
  is_array : json → bool;
  is_empty : json → bool;
  elements : json → list json;
  get_string : json → option str;
  get_strings : json → option (list str);
  get_int : json → option Z;
  get_int64 : json → option Z;
  get_uint64 : json → option Z;
  get_bool : json → option bool;
  dump : Z → json → option str;
  parse : str → option json;
}.

(** * Data *)

Definition k_meta_version_1 : Z := 1.
Definition k_meta_filename : str := text "meta.json".

Module BlockStats.
Record t : Type := mk {
  num_samples : Z;
  num_float_samples : Z;
  num_histogram_samples : Z;
  num_series : Z;
  num_chunks : Z;
  num_tombstones : Z;
}.
Definition init : t := mk 0 0 0 0 0 0.
End BlockStats.

Module BlockDesc.
Record t : Type := mk { ulid : str; min_time : Z; max_time : Z }.
Definition init : t := mk [] 0 0.
End BlockDesc.

Module BlockMetaCompaction.
Record t : Type := mk {
  level : Z;
  sources : list str;
  deletable : bool;
  parents : list BlockDesc.t;
  failed : bool;
  hints : list str;
}.
Definition init : t := mk 0 [] false [] false [].
End BlockMetaCompaction.

Module BlockMeta.
Record t : Type := mk {
  version : Z;
  ulid : str;
  min_time : Z;
  max_time : Z;
  stats : BlockStats.t;
  compaction : BlockMetaCompaction.t;
}.
Definition init : t := mk k_meta_version_1 [] 0 0 BlockStats.init BlockMetaCompaction.init.
End BlockMeta.

Section Codec.
Context `{Json}.

(** * Decoding *)

(** A missing or null field leaves the destination as it is; [None]: the
    getter throws. *)
Definition load_if_present {T} (get : json → option T) (src : json) (key : str) (dst : T) : option T :=
  match find src key with
  | Some j => if is_null j then Some dst else get j
  | None => Some dst
  end.

Definition load_stats (src : json) (dst : BlockStats.t) : option BlockStats.t :=
  num_samples ← load_if_present get_uint64 src (text "numSamples") (BlockStats.num_samples dst);
  num_float_samples ← load_if_present get_uint64 src (text "numFloatSamples") (BlockStats.num_float_samples dst);
  num_histogram_samples ←
    load_if_present get_uint64 src (text "numHistogramSamples") (BlockStats.num_histogram_samples dst);
  num_series ← load_if_present get_uint64 src (text "numSeries") (BlockStats.num_series dst);
  num_chunks ← load_if_present get_uint64 src (text "numChunks") (BlockStats.num_chunks dst);
  num_tombstones ← load_if_present get_uint64 src (text "numTombstones") (BlockStats.num_tombstones dst);
  Some (BlockStats.mk num_samples num_float_samples num_histogram_samples num_series num_chunks num_tombstones).

Definition load_block_desc (src : json) (dst : BlockDesc.t) : option BlockDesc.t :=
  ulid ← load_if_present get_string src (text "ulid") (BlockDesc.ulid dst);
  min_time ← load_if_present get_int64 src (text "minTime") (BlockDesc.min_time dst);
  max_time ← load_if_present get_int64 src (text "maxTime") (BlockDesc.max_time dst);
  Some (BlockDesc.mk ulid min_time max_time).

Definition load_compaction (src : json) (dst : BlockMetaCompaction.t) : option BlockMetaCompaction.t :=
  level ← load_if_present get_int src (text "level") (BlockMetaCompaction.level dst);
  sources ← load_if_present get_strings src (text "sources") (BlockMetaCompaction.sources dst);
  deletable ← load_if_present get_bool src (text "deletable") (BlockMetaCompaction.deletable dst);
  failed ← load_if_present get_bool src (text "failed") (BlockMetaCompaction.failed dst);
  hints ← load_if_present get_strings src (text "hints") (BlockMetaCompaction.hints dst);
  parents ← match find src (text "parents") with
    | Some j => if is_array j then mapM (λ p, load_block_desc p BlockDesc.init) (elements j)
                else Some (BlockMetaCompaction.parents dst)
    | None => Some (BlockMetaCompaction.parents dst)
    end;
  Some (BlockMetaCompaction.mk level sources deletable parents failed hints).

(** A sub-object that is missing or no object leaves the default. *)
Definition load_object {T} (load : json → T → option T) (src : json) (key : str) (dst : T) : option T :=
  match find src key with
  | Some j => if is_object j then load j dst else Some dst
  | None => Some dst
  end.

(** The rest of [from_json] once the version is accepted. *)
Definition load_meta (root : json) (version : Z) : option BlockMeta.t :=
  ulid ← load_if_present get_string root (text "ulid") [];
  min_time ← load_if_present get_int64 root (text "minTime") 0;
  max_time ← load_if_present get_int64 root (text "maxTime") 0;
  stats ← load_object load_stats root (text "stats") BlockStats.init;
  compaction ← load_object load_compaction root (text "compaction") BlockMetaCompaction.init;
  Some (BlockMeta.mk version ulid min_time max_time stats compaction).

Definition from_json (root : json) : outcome error_code BlockMeta.t :=
  match load_if_present get_int root (text "version") k_meta_version_1 with
  | None => Err invalid_argument
  | Some version =>
      if negb (version =? k_meta_version_1) then Err invalid_argument
      else match load_meta root version with None => Err invalid_argument | Some m => Ok m end
  end.

Definition decode_meta_json (json_text : str) : outcome error_code BlockMeta.t :=
  match parse json_text with
  | None => Err invalid_argument
  | Some root => from_json root
  end.

(** * Encoding *)

(** [if (c) dst[key] = v]. *)
Definition set_if (c : bool) (dst : json) (key : str) (v : json) : json := if c then set_field dst key v else dst.

Definition dump_stats (dst : json) (s : BlockStats.t) : json :=
  let put dst key x := set_if (negb (x =? 0)) dst key (of_unsigned x) in
  let dst := put dst (text "numSamples") (BlockStats.num_samples s) in
  let dst := put dst (text "numFloatSamples") (BlockStats.num_float_samples s) in
  let dst := put dst (text "numHistogramSamples") (BlockStats.num_histogram_samples s) in
  let dst := put dst (text "numSeries") (BlockStats.num_series s) in
  let dst := put dst (text "numChunks") (BlockStats.num_chunks s) in
  put dst (text "numTombstones") (BlockStats.num_tombstones s).

Definition dump_block_desc (dst : json) (d : BlockDesc.t) : json :=
  let dst := set_field dst (text "ulid") (of_string (BlockDesc.ulid d)) in
  let dst := set_field dst (text "minTime") (of_signed (BlockDesc.min_time d)) in
  set_field dst (text "maxTime") (of_signed (BlockDesc.max_time d)).

Definition nonempty {A} (l : list A) : bool := match l with [] => false | _ => true end.

Definition dump_compaction (dst : json) (c : BlockMetaCompaction.t) : json :=
  let dst := set_field dst (text "level") (of_signed (BlockMetaCompaction.level c)) in
  let dst := set_if (nonempty (BlockMetaCompaction.sources c)) dst (text "sources") (of_strings (BlockMetaCompaction.sources c)) in
  let dst := set_if (BlockMetaCompaction.deletable c) dst (text "deletable") (of_bool true) in
  let dst := set_if (nonempty (BlockMetaCompaction.parents c)) dst (text "parents")
    (json_array (dump_block_desc json_null <$> BlockMetaCompaction.parents c)) in
  let dst := set_if (BlockMetaCompaction.failed c) dst (text "failed") (of_bool true) in
  set_if (nonempty (BlockMetaCompaction.hints c)) dst (text "hints") (of_strings (BlockMetaCompaction.hints c)).

Definition to_json (m : BlockMeta.t) : json :=
  let root := set_field json_null (text "ulid") (of_string (BlockMeta.ulid m)) in
  let root := set_field root (text "minTime") (of_signed (BlockMeta.min_time m)) in
  let root := set_field root (text "maxTime") (of_signed (BlockMeta.max_time m)) in
  let stats_obj := dump_stats json_object (BlockMeta.stats m) in
  let root := set_if (negb (is_empty stats_obj)) root (text "stats") stats_obj in
  let root := set_field root (text "compaction") (dump_compaction json_object (BlockMeta.compaction m)) in
  set_field root (text "version") (of_signed (BlockMeta.version m)).

(** [None]: [dump] throws. *)
Definition encode_meta_json (m : BlockMeta.t) : option str := dump 4 (to_json m).

(** * Files *)

(** [atomic_write]. The calls are: opening the temporary file, writing to the
    stream, flushing it when it is closed, the rename, and opening, syncing and
    closing the directory. The stream is tested after the write, not after the
    flush: a flush that writes only [n] bytes goes unnoticed. *)
Definition atomic_write (path content : str) (w : World) : outcome error_code unit * World :=
  let tmp_path := path ++ text ".tmp" in
  let '(ok, w) := sys_ok w in
  if negb ok then (Err errno_ec, w)
  else
    let w := mkWorld (<[tmp_path := []]> (files w)) (script w) in
    let '(ok, w) := sys_ok w in
    if negb ok then (Err errno_ec, w)
    else
      let '(r, w) := sys w in
      let flushed := match r with Wrote n => take n content | Failed => [] | _ => content end in
      let w := mkWorld (<[tmp_path := flushed]> (files w)) (script w) in
      let '(ok, w) := sys_ok w in
      if negb ok then (Err errno_ec, w)
      else
        let w := mkWorld (<[path := flushed]> (delete tmp_path (files w))) (script w) in
        let '(ok, w) := sys_ok w in
        (Ok tt, if ok then snd (sys_ok (snd (sys_ok w))) else w).

Definition read_meta (fs : gmap str (list Z)) : outcome error_code BlockMeta.t :=
  match fs !! k_meta_filename with
  | None => Err errno_ec
  | Some json_text => decode_meta_json json_text
  end.

Definition write_meta (m : BlockMeta.t) (w : World) : outcome error_code unit * World :=
  match encode_meta_json m with
  | None => (UB, w)
  | Some json_text => atomic_write k_meta_filename json_text w
  end.

End Codec.

(** * What the code relies on *)

(** The laws of the library: the getters invert the constructors, fields are
    found under their keys, and parsing what was dumped gives an equal document.
    Equality of documents is [operator==], which ignores how a number is
    stored; every query respects it. [valid] documents contain UTF-8 only. *)
Class JsonLaws (J : Json) : Type := {
  json_equiv :: Equiv json;
  json_equivalence :: Equivalence (≡@{json});
  find_proper :: Proper ((≡@{json}) ==> (=) ==> (≡)) find;
  is_null_proper :: Proper ((≡@{json}) ==> (=)) is_null;
  is_object_proper :: Proper ((≡@{json}) ==> (=)) is_object;
  is_array_proper :: Proper ((≡@{json}) ==> (=)) is_array;
  elements_proper :: Proper ((≡@{json}) ==> (≡)) elements;
  get_string_proper :: Proper ((≡@{json}) ==> (=)) get_string;
  get_strings_proper :: Proper ((≡@{json}) ==> (=)) get_strings;
  get_int_proper :: Proper ((≡@{json}) ==> (=)) get_int;
  get_int64_proper :: Proper ((≡@{json}) ==> (=)) get_int64;
  get_uint64_proper :: Proper ((≡@{json}) ==> (=)) get_uint64;
  get_bool_proper :: Proper ((≡@{json}) ==> (=)) get_bool;
  get_of_string s : get_string (of_string s) = Some s;
  get_of_strings l : get_strings (of_strings l) = Some l;
  get_int_of_signed x : -2 ^ 31 <= x < 2 ^ 31 → get_int (of_signed x) = Some x;
  get_int64_of_signed x : is_i64 x = true → get_int64 (of_signed x) = Some x;
  get_of_unsigned x : is_u64 x = true → get_uint64 (of_unsigned x) = Some x;
  get_of_bool b : get_bool (of_bool b) = Some b;
  null_of_string s : is_null (of_string s) = false;
  null_of_strings l : is_null (of_strings l) = false;
  null_of_signed x : is_null (of_signed x) = false;
  null_of_unsigned x : is_null (of_unsigned x) = false;
  null_of_bool b : is_null (of_bool b) = false;
  array_of_array l : is_array (json_array l) = true;
  elements_of_array l : elements (json_array l) = l;
  null_is_null : is_null json_null = true;
  object_is_object : is_object json_object = true;
  object_is_empty : is_empty json_object = true;
  find_null k : find json_null k = None;
  find_object k : find json_object k = None;
  set_is_object j k v : is_null j = true ∨ is_object j = true → is_object (set_field j k v) = true;
  set_not_empty j k v : is_null j = true ∨ is_object j = true → is_empty (set_field j k v) = false;
  find_set_eq j k v : is_null j = true ∨ is_object j = true → find (set_field j k v) k = Some v;
  find_set_ne j k k' v : is_null j = true ∨ is_object j = true → k ≠ k' → find (set_field j k v) k' = find j k';
  utf8 : str → Prop;
  utf8_ascii s : Forall (λ c, 0 <= c < 128) s → utf8 s;
  valid : json → Prop;
  valid_null : valid json_null;
  valid_object : valid json_object;
  valid_array l : Forall valid l → valid (json_array l);
  valid_string s : utf8 s → valid (of_string s);
  valid_strings l : Forall utf8 l → valid (of_strings l);
  valid_signed x : valid (of_signed x);
  valid_unsigned x : valid (of_unsigned x);
  valid_bool b : valid (of_bool b);
  valid_set j k v : valid j → utf8 k → valid v → valid (set_field j k v);
  parse_dump j : valid j → ∃ s j', dump 4 j = Some s ∧ parse s = Some j' ∧ j' ≡ j;
}.

(** * Facts *)

Module MetaFacts.
Section Facts.
Context `{JsonLaws}.

(** The decoder does not see how numbers are stored. *)
#[export] Instance load_if_present_proper {T} (get : json → option T) :
  Proper ((≡) ==> (=)) get → Proper ((≡) ==> (=) ==> (=) ==> (=)) (load_if_present get).
Proof.
  intros Hget j1 j2 Hj k ? <- d ? <-. unfold load_if_present.
  pose proof (find_proper j1 j2 Hj k k eq_refl) as Hf. destruct Hf as [x y Hxy|]; [|done]. by rewrite (is_null_proper _ _ Hxy), (Hget _ _ Hxy).
Qed.

Lemma load_eq {T} (get : json → option T) `{!Proper ((≡) ==> (=)) get} j1 j2 k d :
  j1 ≡ j2 → load_if_present get j1 k d = load_if_present get j2 k d.
Proof. intros Hj. by apply load_if_present_proper. Qed.

#[export] Instance load_object_proper {T} (load : json → T → option T) :
  Proper ((≡) ==> (=) ==> (=)) load → Proper ((≡) ==> (=) ==> (=) ==> (=)) (load_object load).
Proof.
  intros Hload j1 j2 Hj k ? <- d ? <-. unfold load_object.
  pose proof (find_proper j1 j2 Hj k k eq_refl) as Hf. destruct Hf as [x y Hxy|]; [|done].
  by rewrite (is_object_proper _ _ Hxy), (Hload _ _ Hxy d d eq_refl).
Qed.

#[export] Instance load_stats_proper : Proper ((≡) ==> (=) ==> (=)) load_stats.
Proof. intros j1 j2 Hj d ? <-. unfold load_stats. by rewrite !(load_eq get_uint64 j1 j2) by done. Qed.

#[export] Instance load_block_desc_proper : Proper ((≡) ==> (=) ==> (=)) load_block_desc.
Proof. intros j1 j2 Hj d ? <-. unfold load_block_desc.
  by rewrite (load_eq get_string j1 j2), !(load_eq get_int64 j1 j2) by done. Qed.

Lemma load_descs_proper (l1 l2 : list json) :
  l1 ≡ l2 → mapM (λ p, load_block_desc p BlockDesc.init) l1 = mapM (λ p, load_block_desc p BlockDesc.init) l2.
Proof.
  induction 1 as [|x y l1 l2 Hxy _ IH]; [done|]. cbn [mapM]. rewrite IH. by rewrite (load_block_desc_proper _ _ Hxy _ _ eq_refl).
Qed.

#[export] Instance load_compaction_proper : Proper ((≡) ==> (=) ==> (=)) load_compaction.
Proof.
  intros j1 j2 Hj d ? <-. unfold load_compaction.
  assert (match find j1 (text "parents") with Some j => if is_array j then mapM (λ p, load_block_desc p BlockDesc.init) (elements j) else Some (BlockMetaCompaction.parents d) | None => Some (BlockMetaCompaction.parents d) end =
    match find j2 (text "parents") with Some j => if is_array j then mapM (λ p, load_block_desc p BlockDesc.init) (elements j) else Some (BlockMetaCompaction.parents d) | None => Some (BlockMetaCompaction.parents d) end) as Hp.
  { pose proof (find_proper j1 j2 Hj _ _ (eq_refl (text "parents"))) as Hf. destruct Hf as [x y Hxy|]; [|done].
    rewrite (is_array_proper _ _ Hxy). by rewrite (load_descs_proper _ _ (elements_proper _ _ Hxy)). }
  rewrite Hp. by rewrite (load_eq get_int j1 j2), !(load_eq get_strings j1 j2), !(load_eq get_bool j1 j2) by done.
Qed.

#[export] Instance from_json_proper : Proper ((≡) ==> (=)) from_json.
Proof.
  intros j1 j2 Hj. unfold from_json, load_meta.
  rewrite (load_eq get_int j1 j2), (load_eq get_string j1 j2), !(load_eq get_int64 j1 j2) by done.
  by rewrite (load_object_proper load_stats _ j1 j2 Hj _ _ eq_refl _ _ eq_refl),
    (load_object_proper load_compaction _ j1 j2 Hj _ _ eq_refl _ _ eq_refl).
Qed.

(** What can carry fields. *)
Definition fields (j : json) : Prop := is_null j = true ∨ is_object j = true.

Lemma fields_null : fields json_null.
Proof. left. apply null_is_null. Qed.

Lemma fields_object : fields json_object.
Proof. right. apply object_is_object. Qed.

Lemma fields_set j k v : fields j → fields (set_field j k v).
Proof. right. by apply set_is_object. Qed.

Lemma fields_set_if c j k v : fields j → fields (set_if c j k v).
Proof. destruct c; [apply fields_set|done]. Qed.

Lemma find_if_eq c j k v : fields j → find j k = None → find (set_if c j k v) k = if c then Some v else None.
Proof. destruct c; [intros; by apply find_set_eq|done]. Qed.

Lemma find_if_ne c j k k' v : fields j → k ≠ k' → find (set_if c j k v) k' = find j k'.
Proof. destruct c; [intros; by apply find_set_ne|done]. Qed.

(** A chain of fields on an object. *)
Ltac can_set := repeat first [apply fields_set_if | apply fields_set]; first [assumption | apply fields_object | apply fields_null].

Lemma text_ascii l : forallb (λ c, (0 <=? c) && (c <? 128)) l = true → utf8 l.
Proof. intros Hl. apply utf8_ascii. rewrite forallb_forall in Hl. apply Forall_forall. intros c Hc%list_elem_of_In%Hl. lia. Qed.

(** Different literals; fields that were set, and fields that were not. *)
Ltac other_key := solve [can_set | let E := fresh in intros E; vm_compute in E; discriminate E].
Ltac skip_fields := repeat first [rewrite find_if_ne by other_key | rewrite find_set_ne by other_key].
Ltac no_field := skip_fields; first [apply find_object | apply find_null].
Ltac field := skip_fields; first
  [ rewrite find_set_eq by can_set; reflexivity
  | rewrite find_if_eq; [reflexivity|can_set|no_field]
  | no_field ].

Lemma load_missing {T} (get : json → option T) src k d : find src k = None → load_if_present get src k d = Some d.
Proof. unfold load_if_present. by intros ->. Qed.

Lemma load_found {T} (get : json → option T) src k d j x :
  find src k = Some j → is_null j = false → get j = Some x → load_if_present get src k d = Some x.
Proof. unfold load_if_present. by intros -> ->. Qed.

(** A field that is only written when [c] holds reads back when the default is
    right without it. *)
Lemma load_if {T} (get : json → option T) src k d c j x :
  find src k = (if c : bool then Some j else None) → is_null j = false → (c = true → get j = Some x) → (c = false → d = x) →
  load_if_present get src k d = Some x.
Proof. destruct c; intros Hf Hn Hg Hd; [apply (load_found _ _ _ _ j); auto|rewrite <- Hd by done; by apply load_missing]. Qed.

(** * The codec *)

Definition stats_ok (s : BlockStats.t) : Prop :=
  is_u64 (BlockStats.num_samples s) = true ∧ is_u64 (BlockStats.num_float_samples s) = true ∧
  is_u64 (BlockStats.num_histogram_samples s) = true ∧ is_u64 (BlockStats.num_series s) = true ∧
  is_u64 (BlockStats.num_chunks s) = true ∧ is_u64 (BlockStats.num_tombstones s) = true.

Definition desc_ok (d : BlockDesc.t) : Prop :=
  utf8 (BlockDesc.ulid d) ∧ is_i64 (BlockDesc.min_time d) = true ∧ is_i64 (BlockDesc.max_time d) = true.

Definition compaction_ok (c : BlockMetaCompaction.t) : Prop :=
  -2 ^ 31 <= BlockMetaCompaction.level c < 2 ^ 31 ∧ Forall utf8 (BlockMetaCompaction.sources c) ∧
  Forall desc_ok (BlockMetaCompaction.parents c) ∧ Forall utf8 (BlockMetaCompaction.hints c).

(** The values the fields of the C++ structure can have. *)
Definition meta_ok (m : BlockMeta.t) : Prop :=
  -2 ^ 31 <= BlockMeta.version m < 2 ^ 31 ∧ utf8 (BlockMeta.ulid m) ∧ is_i64 (BlockMeta.min_time m) = true ∧
  is_i64 (BlockMeta.max_time m) = true ∧ stats_ok (BlockMeta.stats m) ∧ compaction_ok (BlockMeta.compaction m).

Lemma load_stats_dump s : stats_ok s → load_stats (dump_stats json_object s) BlockStats.init = Some s.
Proof.
  intros (H1 & H2 & H3 & H4 & H5 & H6). unfold load_stats, BlockStats.init. cbn [BlockStats.num_samples BlockStats.num_float_samples
    BlockStats.num_histogram_samples BlockStats.num_series BlockStats.num_chunks BlockStats.num_tombstones].
  assert (∀ k x, is_u64 x = true → find (dump_stats json_object s) k = (if negb (x =? 0) then Some (of_unsigned x) else None) →
    load_if_present get_uint64 (dump_stats json_object s) k 0 = Some x) as Hload.
  { intros k x Hx Hf. apply (load_if _ _ _ _ _ _ _ Hf); [apply null_of_unsigned|intros _; by apply get_of_unsigned|lia]. }
  rewrite (Hload (text "numSamples") (BlockStats.num_samples s)); [|done|unfold dump_stats; field].
  rewrite (Hload (text "numFloatSamples") (BlockStats.num_float_samples s)); [|done|unfold dump_stats; field].
  rewrite (Hload (text "numHistogramSamples") (BlockStats.num_histogram_samples s)); [|done|unfold dump_stats; field].
  rewrite (Hload (text "numSeries") (BlockStats.num_series s)); [|done|unfold dump_stats; field].
  rewrite (Hload (text "numChunks") (BlockStats.num_chunks s)); [|done|unfold dump_stats; field].
  rewrite (Hload (text "numTombstones") (BlockStats.num_tombstones s)); [|done|unfold dump_stats; field].
  by destruct s.
Qed.

Lemma empty_if c j k v : fields j → is_empty (set_if c j k v) = true → c = false ∧ is_empty j = true.
Proof. destruct c; [|done]. intros Hj. cbn [set_if]. by rewrite set_not_empty. Qed.

Lemma stats_empty s : is_empty (dump_stats json_object s) = true → s = BlockStats.init.
Proof.
  destruct s as [a b c d e f]. unfold dump_stats.
  cbn [BlockStats.num_samples BlockStats.num_float_samples BlockStats.num_histogram_samples BlockStats.num_series
    BlockStats.num_chunks BlockStats.num_tombstones].
  intros He. do 6 (apply empty_if in He as [? He]; [|can_set]).
  unfold BlockStats.init. repeat match goal with E : negb _ = false |- _ => apply negb_false_iff, Z.eqb_eq in E; subst end. done.
Qed.

Lemma load_desc_dump d : desc_ok d → load_block_desc (dump_block_desc json_null d) BlockDesc.init = Some d.
Proof.
  intros (H1 & H2 & H3). unfold load_block_desc.
  rewrite (load_found get_string _ (text "ulid") _ (of_string (BlockDesc.ulid d)) (BlockDesc.ulid d));
    [|unfold dump_block_desc; field|apply null_of_string|apply get_of_string].
  rewrite (load_found get_int64 _ (text "minTime") _ (of_signed (BlockDesc.min_time d)) (BlockDesc.min_time d));
    [|unfold dump_block_desc; field|apply null_of_signed|by apply get_int64_of_signed].
  rewrite (load_found get_int64 _ (text "maxTime") _ (of_signed (BlockDesc.max_time d)) (BlockDesc.max_time d));
    [|unfold dump_block_desc; field|apply null_of_signed|by apply get_int64_of_signed].
  by destruct d.
Qed.

Lemma load_descs_dump ds :
  Forall desc_ok ds → mapM (λ p, load_block_desc p BlockDesc.init) (dump_block_desc json_null <$> ds) = Some ds.
Proof. induction 1 as [|d ds Hd _ IH]; [done|]. rewrite fmap_cons. cbn [mapM]. by rewrite load_desc_dump, IH. Qed.

Lemma load_strings_if src k l :
  find src k = (if nonempty l then Some (of_strings l) else None) → load_if_present get_strings src k [] = Some l.
Proof.
  intros Hf. apply (load_if _ _ _ _ _ _ _ Hf); [apply null_of_strings|intros _; apply get_of_strings|by destruct l].
Qed.

Lemma load_flag_if src k b :
  find src k = (if b : bool then Some (of_bool true) else None) → load_if_present get_bool src k false = Some b.
Proof.
  intros Hf. apply (load_if _ _ _ _ _ _ _ Hf); [apply null_of_bool| |done]. intros ->. apply get_of_bool.
Qed.

Lemma load_compaction_dump c :
  compaction_ok c → load_compaction (dump_compaction json_object c) BlockMetaCompaction.init = Some c.
Proof.
  intros (H1 & H2 & H3 & H4). unfold load_compaction, BlockMetaCompaction.init. cbn [BlockMetaCompaction.level BlockMetaCompaction.sources
    BlockMetaCompaction.deletable BlockMetaCompaction.parents BlockMetaCompaction.failed BlockMetaCompaction.hints].
  rewrite (load_found get_int _ (text "level") _ (of_signed (BlockMetaCompaction.level c)) (BlockMetaCompaction.level c));
    [|unfold dump_compaction; field|apply null_of_signed|by apply get_int_of_signed].
  rewrite (load_strings_if _ (text "sources") (BlockMetaCompaction.sources c)) by (unfold dump_compaction; field).
  rewrite (load_strings_if _ (text "hints") (BlockMetaCompaction.hints c)) by (unfold dump_compaction; field).
  rewrite (load_flag_if _ (text "deletable") (BlockMetaCompaction.deletable c)) by (unfold dump_compaction; field).
  rewrite (load_flag_if _ (text "failed") (BlockMetaCompaction.failed c)) by (unfold dump_compaction; field).
  assert (find (dump_compaction json_object c) (text "parents") = (if nonempty (BlockMetaCompaction.parents c)
    then Some (json_array (dump_block_desc json_null <$> BlockMetaCompaction.parents c)) else None)) as -> by (unfold dump_compaction; field).
  destruct c as [l s d [|p ps] f h]; [done|]. cbn [nonempty BlockMetaCompaction.parents BlockMetaCompaction.level BlockMetaCompaction.sources
    BlockMetaCompaction.deletable BlockMetaCompaction.failed BlockMetaCompaction.hints mbind option_bind] in *.
  by rewrite array_of_array, elements_of_array, load_descs_dump.
Qed.

Lemma object_if c j k v : is_object j = true → is_object (set_if c j k v) = true.
Proof. destruct c; [intros; apply set_is_object; by right|done]. Qed.

Lemma stats_object s : is_object (dump_stats json_object s) = true.
Proof. unfold dump_stats. do 6 apply object_if. apply object_is_object. Qed.

Lemma compaction_object c : is_object (dump_compaction json_object c) = true.
Proof. unfold dump_compaction. do 5 apply object_if. apply set_is_object, fields_object. Qed.

(** The document as a whole, whatever the version. *)
Lemma from_to_json m :
  meta_ok m →
  from_json (to_json m) = if BlockMeta.version m =? k_meta_version_1 then Ok m else Err invalid_argument.
Proof.
  intros (H1 & H2 & H3 & H4 & H5 & H6). unfold from_json, load_meta, load_object.
  rewrite (load_found get_int _ (text "version") _ (of_signed (BlockMeta.version m)) (BlockMeta.version m));
    [|unfold to_json; field|apply null_of_signed|by apply get_int_of_signed].
  destruct (BlockMeta.version m =? k_meta_version_1); [|done]. cbn [negb].
  rewrite (load_found get_string _ (text "ulid") _ (of_string (BlockMeta.ulid m)) (BlockMeta.ulid m));
    [|unfold to_json; field|apply null_of_string|apply get_of_string].
  rewrite (load_found get_int64 _ (text "minTime") _ (of_signed (BlockMeta.min_time m)) (BlockMeta.min_time m));
    [|unfold to_json; field|apply null_of_signed|by apply get_int64_of_signed].
  rewrite (load_found get_int64 _ (text "maxTime") _ (of_signed (BlockMeta.max_time m)) (BlockMeta.max_time m));
    [|unfold to_json; field|apply null_of_signed|by apply get_int64_of_signed].
  assert (find (to_json m) (text "compaction") = Some (dump_compaction json_object (BlockMeta.compaction m))) as ->
    by (unfold to_json; field).
  assert (find (to_json m) (text "stats") = if negb (is_empty (dump_stats json_object (BlockMeta.stats m)))
    then Some (dump_stats json_object (BlockMeta.stats m)) else None) as -> by (unfold to_json; field).
  rewrite (compaction_object), load_compaction_dump by done.
  destruct (is_empty (dump_stats json_object (BlockMeta.stats m))) eqn:He; cbn [negb].
  - apply stats_empty in He. rewrite <- He. by destruct m.
  - rewrite stats_object, load_stats_dump by done. by destruct m.
Qed.

Lemma valid_set_if c j k v : valid j → utf8 k → valid v → valid (set_if c j k v).
Proof. destruct c; [apply valid_set|done]. Qed.

Ltac can_dump := repeat first [apply valid_set_if | apply valid_set];
  first [assumption | apply valid_object | apply valid_null | apply text_ascii; reflexivity | apply valid_signed
    | apply valid_unsigned | apply valid_bool | by apply valid_string | by apply valid_strings | idtac].

Lemma valid_to_json m : meta_ok m → valid (to_json m).
Proof.
  intros (_ & Hu & _ & _ & _ & (_ & Hs & Hp & Hh)). unfold to_json, dump_stats, dump_compaction. can_dump.
  apply valid_array, Forall_fmap. eapply Forall_impl; [exact Hp|]. intros d (Hd & _). unfold compose, dump_block_desc. can_dump.
Qed.

Lemma encode_decode m :
  meta_ok m →
  ∃ json_text, encode_meta_json m = Some json_text ∧
    decode_meta_json json_text = if BlockMeta.version m =? k_meta_version_1 then Ok m else Err invalid_argument.
Proof.
  intros Hm. destruct (parse_dump _ (valid_to_json m Hm)) as (t & j & Hd & Hp & Hj). exists t. split; [done|].
  unfold decode_meta_json. rewrite Hp, (from_json_proper _ _ Hj). by apply from_to_json.
Qed.

End Facts.

(** Without failing calls the file is replaced; the other files stay. *)
Lemma atomic_write_eq path content fs :
  atomic_write path content (mkWorld fs []) =
    (Ok tt, mkWorld (<[path := content]> (delete (path ++ text ".tmp") (<[path ++ text ".tmp" := content]> (<[path ++ text ".tmp" := []]> fs)))) []).
Proof. done. Qed.

Lemma tmp_ne path : path ≠ path ++ text ".tmp".
Proof. intros Heq%(f_equal length). rewrite length_app in Heq. change (length (text ".tmp")) with 4%nat in Heq. lia. Qed.

Lemma atomic_write_other path content fs :
  ∃ fs', atomic_write path content (mkWorld fs []) = (Ok tt, mkWorld fs' []) ∧ fs' !! path = Some content ∧
    ∀ name, name ≠ path → name ≠ path ++ text ".tmp" → fs' !! name = fs !! name.
Proof.
  eexists. split; [apply atomic_write_eq|]. split; [apply lookup_insert_eq|].
  intros name H1 H2. rewrite lookup_insert_ne, lookup_delete_ne, !lookup_insert_ne by congruence. done.
Qed.

(** Only a completed rename touches the file. *)
Lemma atomic_write_old path content w e w' :
  atomic_write path content w = (Err e, w') → files w' !! path = files w !! path.
Proof.
  pose proof (tmp_ne path) as Hne. unfold atomic_write.
  pose proof (FilesFacts.sys_ok_files w) as H1. destruct (sys_ok w) as [[] w1]; cbn [negb snd] in *; [|by intros [= <- <-]; rewrite H1].
  set (w1' := mkWorld _ (script w1)).
  pose proof (FilesFacts.sys_ok_files w1') as H2. destruct (sys_ok w1') as [[] w2]; cbn [negb snd] in *.
  2:{ intros [= <- <-]. rewrite H2. cbn [files w1']. by rewrite lookup_insert_ne, H1. }
  pose proof (FilesFacts.sys_files w2) as H3. destruct (sys w2) as [r w3]. cbn [snd] in H3.
  set (w3' := mkWorld _ (script w3)).
  pose proof (FilesFacts.sys_ok_files w3') as H4. destruct (sys_ok w3') as [[] w4]; cbn [negb snd] in *.
  2:{ intros [= <- <-]. rewrite H4. cbn [files w3']. rewrite lookup_insert_ne, H3, H2 by done. cbn [files w1']. by rewrite lookup_insert_ne, H1. }
  by destruct (sys_ok _) as [[] ?].
Qed.

End MetaFacts.

(** * A library *)

(** Trees as documents, their number in binary as text: an instance that shows
    that the laws can hold. *)
Module TreeJson.

Definition tree : Type := gen_tree (Z + list Z).

Definition tree_field (k : str) (v : tree) : tree := GenNode 5 [GenLeaf (inr k); v].

Definition as_field (t : tree) : option (str * tree) :=
  match t with GenNode 5 [GenLeaf (inr k); v] => Some (k, v) | _ => None end.

Definition is_key (k : str) (t : tree) : bool :=
  match as_field t with Some (k', _) => bool_decide (k = k') | None => false end.

Fixpoint tree_find (k : str) (l : list tree) : option tree :=
  match l with
  | [] => None
  | t :: l => if is_key k t then snd <$> as_field t else tree_find k l
  end.

Fixpoint tree_set (k : str) (v : tree) (l : list tree) : list tree :=
  match l with
  | [] => [tree_field k v]
  | t :: l => if is_key k t then tree_field k v :: l else t :: tree_set k v l
  end.

Definition tree_fields (t : tree) : list tree := match t with GenNode 4 l => l | _ => [] end.

Definition leaf_str (t : tree) : option str := match t with GenLeaf (inr s) => Some s | _ => None end.
Definition leaf_int (t : tree) : option Z := match t with GenLeaf (inl x) => Some x | _ => None end.

Definition is_node (n : nat) (t : tree) : bool := match t with GenNode m _ => (m =? n)%nat | _ => false end.
Definition children (t : tree) : list tree := match t with GenNode _ l => l | _ => [] end.

Fixpoint pos_text (p : positive) : str :=
  match p with xH => [] | xO p => 48 :: pos_text p | xI p => 49 :: pos_text p end.

Fixpoint text_pos (s : str) : positive :=
  match s with [] => xH | c :: s => if c =? 48 then xO (text_pos s) else xI (text_pos s) end.

Lemma text_pos_text p : text_pos (pos_text p) = p.
Proof. induction p; simpl; congruence. Qed.

#[export] Instance tree_json : Json := {|
  json := tree;
  json_null := GenNode 0 [];
  json_object := GenNode 4 [];
  json_array := GenNode 3;
  of_string s := GenLeaf (inr s);
  of_strings l := GenNode 3 ((λ s, GenLeaf (inr s)) <$> l);
  of_signed x := GenLeaf (inl x);
  of_unsigned x := GenLeaf (inl x);
  of_bool b := if b : bool then GenNode 1 [] else GenNode 2 [];
  set_field t k v := GenNode 4 (tree_set k v (tree_fields t));
  find t k := tree_find k (tree_fields t);
  is_null := is_node 0;
  is_object := is_node 4;
  is_array := is_node 3;
  is_empty t := match children t with [] => true | _ => false end;
  elements := children;
  get_string := leaf_str;
  get_strings t := mapM leaf_str (children t);
  get_int := leaf_int;
  get_int64 := leaf_int;
  get_uint64 := leaf_int;
  get_bool t := if is_node 1 t then Some true else if is_node 2 t then Some false else None;
  dump _ t := Some (pos_text (encode t));
  parse s := decode (text_pos s);
|}.

Lemma mapM_leaf l : mapM leaf_str ((λ s, GenLeaf (inr s)) <$> l) = Some l.
Proof. induction l as [|s l IH]; [done|]. rewrite fmap_cons. cbn [mapM]. by rewrite IH. Qed.

Lemma is_key_field k k' v : is_key k (tree_field k' v) = bool_decide (k = k').
Proof. done. Qed.

Lemma tree_find_set_eq k v l : tree_find k (tree_set k v l) = Some v.
Proof.
  induction l as [|t l IH]; cbn [tree_set tree_find].
  - rewrite is_key_field, bool_decide_eq_true_2 by done. done.
  - destruct (is_key k t) eqn:Hk; cbn [tree_find]; [rewrite is_key_field, bool_decide_eq_true_2 by done; done|by rewrite Hk].
Qed.

Lemma tree_find_set_ne k k' v l : k ≠ k' → tree_find k' (tree_set k v l) = tree_find k' l.
Proof.
  intros Hne. induction l as [|t l IH]; cbn [tree_set tree_find].
  - by rewrite is_key_field, bool_decide_eq_false_2 by congruence.
  - destruct (is_key k t) eqn:Hk; cbn [tree_find]; [|by rewrite IH].
    rewrite is_key_field, bool_decide_eq_false_2 by congruence.
    unfold is_key in *. destruct (as_field t) as [[k1 v1]|]; [|done].
    apply bool_decide_eq_true in Hk as ->. by rewrite bool_decide_eq_false_2 by congruence.
Qed.

Lemma tree_set_nonempty k v l : tree_set k v l ≠ [].
Proof. destruct l; cbn [tree_set]; [done|]. by case_match. Qed.

#[export] Instance tree_laws : JsonLaws tree_json.
Proof.
  refine {| json_equiv := (=); utf8 := λ _, True; valid := λ _, True |}; try done; try (by intros ? ? ->).
  - intros j1 j2 Hj k ? <-. change (j1 = j2) in Hj. subst j2. by destruct (find j1 k); constructor.
  - intros j1 j2 Hj. change (j1 = j2) in Hj. subst j2. by induction (elements j1); constructor.
  - intros l. apply mapM_leaf.
  - by intros [].
  - by intros [].
  - intros j k v _. cbn. destruct (tree_set k v (tree_fields j)) eqn:E; [by apply tree_set_nonempty in E|done].
  - intros j k v _. apply tree_find_set_eq.
  - intros j k k' v _. apply tree_find_set_ne.
  - intros j _. eexists _, j. split; [done|]. split; [|done]. cbn. rewrite text_pos_text. apply decode_encode.
Defined.

End TreeJson.

(** * Properties *)

Module MetaProps.
Import MetaFacts.

(** C25: block metadata. With a JSON library that keeps its laws, a structure
    whose numbers fit their types and whose strings are UTF-8 is written as a
    text that reads back as the same structure, fields of value zero included,
    which are left out of the text; a version other than one is refused.
    Writing it to a directory without a failing call makes [read_meta] return
    it and leaves all other files alone, and a write that reports an error
    leaves the old [meta.json] in place. *)
Theorem meta_roundtrip `{JsonLaws} (m : BlockMeta.t) (fs : gmap str (list Z)) (w : World) :
  meta_ok m →
  ∃ json_text, encode_meta_json m = Some json_text ∧
    decode_meta_json json_text = (if BlockMeta.version m =? k_meta_version_1 then Ok m else Err invalid_argument) ∧
    (∃ fs', write_meta m (mkWorld fs []) = (Ok tt, mkWorld fs' []) ∧ read_meta fs' = decode_meta_json json_text ∧
      ∀ name, name ≠ k_meta_filename → name ≠ k_meta_filename ++ text ".tmp" → fs' !! name = fs !! name) ∧
    ∀ e w', write_meta m w = (Err e, w') → files w' !! k_meta_filename = files w !! k_meta_filename.
Proof.
  intros Hm. destruct (encode_decode m Hm) as (t & Henc & Hdec). exists t. unfold write_meta. rewrite Henc.
  split_and!; [done|done| |apply atomic_write_old].
  destruct (atomic_write_other k_meta_filename t fs) as (fs' & Hw & Hf & Hother). exists fs'. split_and!; [done| |done].
  unfold read_meta. by rewrite Hf.
Qed.

Import TreeJson.

Lemma meta_roundtrip_witness :
  let m := BlockMeta.mk 1 [48; 49] (-5) 7 (BlockStats.mk 3 0 0 1 0 0)
    (BlockMetaCompaction.mk 2 [[48]; [49]] true [BlockDesc.mk [48] 0 1] false []) in
  ∃ json_text, encode_meta_json m = Some json_text ∧
    decode_meta_json json_text = (if BlockMeta.version m =? k_meta_version_1 then Ok m else Err invalid_argument) ∧
    (∃ fs', write_meta m (mkWorld ∅ []) = (Ok tt, mkWorld fs' []) ∧ read_meta fs' = decode_meta_json json_text ∧
      ∀ name, name ≠ k_meta_filename → name ≠ k_meta_filename ++ text ".tmp" → fs' !! name = (∅ : gmap str (list Z)) !! name) ∧
    ∀ e w', write_meta m (mkWorld ∅ [Done; Failed]) = (Err e, w') →
      files w' !! k_meta_filename = files (mkWorld ∅ [Done; Failed]) !! k_meta_filename.
Proof.
  apply (meta_roundtrip (J := TreeJson.tree_json)). split_and!; try done; repeat constructor; done.
Defined.

(** A flush that fails when the temporary file is closed goes unnoticed: the
    call succeeds and the rename puts a truncated file in place. *)
Lemma flush_unnoticed `{Json} (m : BlockMeta.t) (fs : gmap str (list Z)) (json_text : str) (n : nat) :
  encode_meta_json m = Some json_text →
  ∃ w', write_meta m (mkWorld fs [Done; Done; Wrote n]) = (Ok tt, w') ∧
    files w' !! k_meta_filename = Some (take n json_text).
Proof.
  intros Henc. unfold write_meta. rewrite Henc. eexists. split; [done|]. apply lookup_insert_eq.
Qed.

(** A document that is no object is accepted as the default metadata. *)
Lemma no_object_accepted `{Json} (t : str) (j : json) :
  parse t = Some j → (∀ k, find j k = None) → decode_meta_json t = Ok BlockMeta.init.
Proof.
  intros Hp Hf. unfold decode_meta_json, from_json, load_meta, load_if_present, load_object. by rewrite Hp, !Hf.
Qed.

End MetaProps.
