(* ===== verification/Names.v ===== *)
(** Tags and their names: [include/merlion_tsdb/chunkenc/encoding.hpp] and
    [include/merlion_tsdb/encoding/error.hpp]. An [Encoding] is the byte on disk,
    which [static_cast] takes from the file without a check, so the functions
    are total on bytes; [Encoding_None] and [Encoding_XOR] are in [Chunks], which
    uses them. *)

From Stdlib Require Import String.
From S2P Require Import Prelude Ordered Varint Chunks Meta.

(** * Encodings *)

Definition Encoding_Histogram : Z := 2.
Definition Encoding_FloatHistogram : Z := 3.
Definition Encoding_XOR2 : Z := 4.

(** [to_string(Encoding)]: the last case is the fall-through after the switch. *)
Definition encoding_to_string (e : Z) : str :=
  if e =? Encoding_None then text "none"
  else if e =? Encoding_XOR then text "XOR"
  else if e =? Encoding_Histogram then text "histogram"
  else if e =? Encoding_FloatHistogram then text "floathistogram"
  else if e =? Encoding_XOR2 then text "XOR2"
  else text "<unknown>".

(** The kind of value an iterator exposes. *)
Inductive ValueType : Type :=
| ValueType_None
| ValueType_Float
| ValueType_Histogram
| ValueType_FloatHistogram.

(** The values the declaration fixes. *)
Definition ValueType_value (v : ValueType) : Z :=
  match v with
  | ValueType_None => 0
  | ValueType_Float => 1
  | ValueType_Histogram => 2
  | ValueType_FloatHistogram => 3
  end.

(** * Errors *)

(** [to_string(ReadError)]. *)
Definition read_error_to_string (e : ReadError) : str :=
  match e with
  | EndOfStream => text "end of stream"
  | UnexpectedEnd => text "unexpected end of stream"
  | VarintOverflow => text "varint overflow"
  end.

(** * Facts *)

(** A name identifies its tag: the enumerators have distinct names, and every
    other byte has the name of none of them. *)
Lemma encoding_to_string_inj e e' :
  encoding_to_string e = encoding_to_string e' →
  e = e' ∨ ¬ (0 <= e <= 4) ∧ ¬ (0 <= e' <= 4).
Proof.
  unfold encoding_to_string, Encoding_None, Encoding_XOR, Encoding_Histogram, Encoding_FloatHistogram, Encoding_XOR2.
  repeat case_match; intros [=]; lia.
Qed.

#[export] Instance read_error_to_string_inj : Inj (=) (=) read_error_to_string.
Proof. by intros [] []. Qed.
