(* ===== verification/Block.v ===== *)
(** Persistent blocks: [include/merlion_tsdb/block/block.hpp] and
    [src/block/block.cpp] up to the compaction, which is in Compact.v.
    A block is a directory with [meta.json], [index], [tombstones] and a
    directory of chunk segments; the directories are a [Disk], and the calls of
    the operating system take their answers from its script. *)

From Stdlib Require Import String.
From S2P Require Import Prelude Ordered Sorted Files Varint Bytes Crc32c Labels Matcher Record BStream Xor Chunks Query Index IndexWriter Ulid Meta.

(** * Directories *)

Record BlockDir : Type := mkDir { dir_files : gmap str (list Z); dir_chunks : option (gmap str (list Z)) }.

Record Disk : Type := mkDisk { dirs : gmap str BlockDir; calls : list SysResult }.

Definition D (A : Type) : Type := rd Disk error_code A.

Definition dir_of (dir : str) (d : Disk) : BlockDir := default (mkDir ∅ None) (dirs d !! dir).

(** A component at work on the files of [dir], or on its chunks directory,
    which its first call creates unless it fails. *)
Definition in_files {A} (dir : str) (m : World → A * World) : Disk → A * Disk := λ d,
  let b := dir_of dir d in
  let '(a, w) := m (mkWorld (dir_files b) (calls d)) in
  (a, mkDisk (<[dir := mkDir (files w) (dir_chunks b)]> (dirs d)) (script w)).

Definition in_chunks {A} (dir : str) (m : World → A * World) : Disk → A * Disk := λ d,
  let b := dir_of dir d in
  let '(a, w) := m (mkWorld (default ∅ (dir_chunks b)) (calls d)) in
  let made := match calls d with Failed :: _ => dir_chunks b | _ => Some (files w) end in
  (a, mkDisk (<[dir := mkDir (dir_files b) made]> (dirs d)) (script w)).

(** A call that only succeeds or fails. *)
Definition disk_call (e : error_code) : D unit := λ d,
  let '(ok, w) := sys_ok (mkWorld ∅ (calls d)) in
  (if ok : bool then Ok tt else Err e, mkDisk (dirs d) (script w)).

Definition k_index_filename : str := text "index".
Definition k_tombstones_filename : str := text "tombstones".

(** * Data *)

Record ChunkInput : Type := mkChunkInput { ci_min_time : Z; ci_max_time : Z; ci_bytes : list Z }.

Record SeriesInput : Type := mkSeriesInput { si_labels : Labels.t; si_chunks : list ChunkInput }.

Record PreparedSeries : Type := mkPrepared { ps_input : SeriesInput; ps_metas : list ChunkMeta }.

(** The counters of the first step of [create_from_series]. *)
Record Totals : Type := mkTotals {
  total_samples : Z;
  total_chunks : Z;
  tot_min_time : Z;
  tot_max_time : Z;
}.

Definition totals_init : Totals := mkTotals 0 0 (2 ^ 63 - 1) (- 2 ^ 63).

(** * create_from_series *)

(** The count in the first two bytes of a chunk. *)
Definition sample_count (bytes : list Z) : Z :=
  match bytes with
  | b0 :: b1 :: _ => Z.lor (Z.shiftl b0 8) b1
  | _ => 0
  end.

Definition count_chunk (chk : ChunkInput) (tot : Totals) : Totals :=
  mkTotals (u64 (total_samples tot + sample_count (ci_bytes chk))) (u64 (total_chunks tot + 1))
    (if ci_min_time chk <? tot_min_time tot then ci_min_time chk else tot_min_time tot)
    (if tot_max_time tot <? ci_max_time chk then ci_max_time chk else tot_max_time tot).

(** The loop over the chunks of a series. *)
Fixpoint write_chunk_inputs (cs : list ChunkInput) (tot : Totals) : ChunkWriter.M (list ChunkMeta * Totals) :=
  match cs with
  | [] => rret ([], tot)
  | chk :: cs =>
      ref <~ ChunkWriter.write Encoding_XOR (ci_bytes chk) ;;
      let meta := mkChunkMeta (ci_min_time chk) (ci_max_time chk) (to_u64 ref) in
      r <~ write_chunk_inputs cs (count_chunk chk tot) ;;
      rret (meta :: r.1, r.2)
  end.

(** The loop over the series; one without chunks is skipped. *)
Fixpoint write_series_inputs (series : list SeriesInput) (tot : Totals)
    : ChunkWriter.M (list PreparedSeries * Totals) :=
  match series with
  | [] => rret ([], tot)
  | s :: series =>
      match si_chunks s with
      | [] => write_series_inputs series tot
      | cs =>
          r <~ write_chunk_inputs cs tot ;;
          rest <~ write_series_inputs series r.2 ;;
          rret (mkPrepared s r.1 :: rest.1, rest.2)
      end
  end.

(** The first step; the writer is destroyed at its end. *)
Definition write_chunk_files (series : list SeriesInput) (w : World)
    : outcome error_code (list PreparedSeries * Totals) * World :=
  match ChunkWriter.open k_default_chunks_segment_size w with
  | (Ok cw, w) =>
      let '(res, (cw, w)) :=
        (r <~ write_series_inputs series totals_init ;; _ <~ ChunkWriter.close ;; rret r) (cw, w) in
      (res, ChunkWriter.destroy cw w)
  | (Err e, w) => (Err e, w)
  | (UB, w) => (UB, w)
  end.

(** The symbols: the empty string, the names and the values. *)
Definition block_symbols (prepared : list PreparedSeries) : list str :=
  foldl (λ acc ps,
    foldl (λ acc l, set_insert str_ltb (value l) (set_insert str_ltb (name l) acc)) acc (si_labels (ps_input ps)))
    (set_insert str_ltb [] []) prepared.

Fixpoint add_block_symbols (symbols : list str) (sym_ref : gmap str Z) : IndexWriter.M (gmap str Z) :=
  match symbols with
  | [] => rret sym_ref
  | s :: symbols =>
      ref <~ IndexWriter.add_symbol s ;;
      add_block_symbols symbols (match sym_ref !! s with Some _ => sym_ref | None => <[s := ref]> sym_ref end)
  end.

(** The posting lists under construction, ordered by name and value. *)
Definition PostingsMap : Type := list (str * str * list Z).

Definition add_posting (id : Z) (l : Label) (postings : PostingsMap) : PostingsMap :=
  map_update (pair_less str_ltb str_ltb) [] (λ ids, ids ++ [id]) (name l, value l) postings.

(** [sym_ref.at] of the labels; [None]: it throws. *)
Definition label_refs (sym_ref : gmap str Z) (labels : Labels.t) : option (list (Z * Z)) :=
  mapM (λ l, n ← sym_ref !! name l; v ← sym_ref !! value l; Some (n, v)) labels.

Fixpoint add_prepared (sym_ref : gmap str Z) (prepared : list PreparedSeries) (postings : PostingsMap)
    : IndexWriter.M PostingsMap :=
  match prepared with
  | [] => rret postings
  | ps :: prepared =>
      let labels := si_labels (ps_input ps) in
      match label_refs sym_ref labels with
      | None => rundef
      | Some refs =>
          series_id <~ IndexWriter.add_series refs (ps_metas ps) ;;
          add_prepared sym_ref prepared (foldl (λ acc l, add_posting series_id l acc) postings labels)
      end
  end.

Fixpoint add_block_postings (postings : PostingsMap) : IndexWriter.M unit :=
  match postings with
  | [] => rret tt
  | (n, v, ids) :: postings =>
      _ <~ IndexWriter.add_postings n v ids ;; add_block_postings postings
  end.

(** Steps two and three without [create] and [close]. *)
Definition build_index (prepared : list PreparedSeries) : IndexWriter.M unit :=
  sym_ref <~ add_block_symbols (block_symbols prepared) ∅ ;;
  _ <~ IndexWriter.finish_symbols ;;
  postings <~ add_prepared sym_ref prepared [] ;;
  _ <~ IndexWriter.finish_series ;;
  add_block_postings postings.

Definition write_index_file (prepared : list PreparedSeries) (w : World) : outcome error_code unit * World :=
  match IndexWriter.create k_index_filename (files w) with
  | Ok iw =>
      match build_index prepared iw with
      | (Ok _, iw) => let '(res, (_, w)) := IndexWriter.close (iw, w) in (res, w)
      | (Err e, _) => (Err e, w)
      | (UB, _) => (UB, w)
      end
  | Err e => (Err e, w)
  | UB => (UB, w)
  end.

(** The metadata; a block without series spans the instant zero. *)
Definition block_meta (ulid : str) (prepared : list PreparedSeries) (tot : Totals) : BlockMeta.t :=
  let span := match prepared with [] => (0, 0) | _ => (tot_min_time tot, tot_max_time tot) end in
  BlockMeta.mk 1 ulid span.1 span.2
    (BlockStats.mk (total_samples tot) 0 0 (zlen prepared) (total_chunks tot) 0)
    (BlockMetaCompaction.mk 1 [ulid] false [] false []).

(** Opening the tombstones for writing. *)
Definition write_tombstones (w : World) : outcome error_code unit * World :=
  let '(ok, w) := sys_ok w in
  if negb ok then (Err io_error, w)
  else (Ok tt, mkWorld (<[k_tombstones_filename := []]> (files w)) (script w)).

(** The new directory: its parent is created first, its name must be free. *)
Definition make_dir (dir : str) : D unit :=
  _ <~ disk_call errno_ec ;;
  _ <~ disk_call errno_ec ;;
  λ d, match dirs d !! dir with
  | Some _ => (Err file_exists, d)
  | None =>
      (_ <~ disk_call errno_ec ;;
       λ d, (Ok tt, mkDisk (<[dir := mkDir ∅ None]> (dirs d)) (calls d))) d
  end.

Section Create.
Context `{Json}.

(** [create_from_series] at the time [now_ms] with the answers [rd] of the
    random device. *)
Definition create_from_series (now_ms : Z) (random : list Z) (series : list SeriesInput) : D str :=
  let ulid := new_ulid now_ms random in
  _ <~ make_dir ulid ;;
  r <~ in_chunks ulid (write_chunk_files series) ;;
  _ <~ in_files ulid (write_index_file r.1) ;;
  _ <~ in_files ulid (write_meta (block_meta ulid r.1 r.2)) ;;
  _ <~ in_files ulid write_tombstones ;;
  rret ulid.

End Create.

(** * Block *)

Module Block.

Record t : Type := mk { dir_ : str; meta_ : BlockMeta.t; index_ : IndexReader.t; chunks_ : ChunkReader.t }.

Definition M (A : Type) : Type := rd t error_code A.

(** The chunks directory, with no failure to come. *)
Definition open_chunks (b : BlockDir) : outcome error_code ChunkReader.t :=
  fst (ChunkReader.open_path (match dir_chunks b with None => Missing | Some _ => Directory end)
         (mkWorld (default ∅ (dir_chunks b)) [])).

(** Asking for the type of a path that does not exist sets the error code. *)
Definition open `{Json} (dir : str) (d : Disk) : outcome error_code t :=
  match dirs d !! dir with
  | None => Err errno_ec
  | Some b =>
      meta ← read_meta (dir_files b);
      index ← IndexReader.open (dir_files b) k_index_filename;
      chunks ← open_chunks b;
      Ok (mk dir meta index chunks)
  end.

(** The chunk of [cm] in the chunks directory [fs]; the reader caches. *)
Definition read_xor (fs : gmap str (list Z)) (cm : ChunkMeta) : M XORChunk.t := λ b,
  let '(res, chunks) := ChunkReader.read fs (from_u64 (chunk_ref cm)) (chunks_ b) in
  (match res with
   | Ok payload =>
       if negb (encoding payload =? Encoding_XOR) then Err not_supported
       else Ok (XORChunk.from_bytes (payload_data payload))
   | Err e => Err e
   | UB => UB
   end, mk (dir_ b) (meta_ b) (index_ b) chunks).

End Block.

(** * Matchers *)

Definition sorted_intersection : list Z → list Z → list Z := set_intersection Z.ltb.
Definition sorted_difference : list Z → list Z → list Z := set_difference Z.ltb.

Section Postings.
Context `{RegexEngine}.

(** The series without the label [n]. *)
Definition postings_without (idx : IndexReader.t) (n : str) : outcome error_code (list Z) :=
  all ← IndexReader.all_postings idx;
  with_ ← IndexReader.postings_for_name idx n;
  Ok (sorted_difference all with_).

(** The lists of the values that [f] accepts, one after the other. *)
Fixpoint postings_of_values (idx : IndexReader.t) (n : str) (f : str → bool) (vs : list str)
    : outcome error_code (list Z) :=
  match vs with
  | [] => Ok []
  | v :: vs =>
      if negb (f v) then postings_of_values idx n f vs
      else
        ids ← IndexReader.postings idx n v;
        rest ← postings_of_values idx n f vs;
        Ok (ids ++ rest)
  end.

(** The series whose value [f] accepts, an absent label counting as the empty
    value. *)
Definition postings_accepted (idx : IndexReader.t) (n : str) (f : str → bool) : outcome error_code (list Z) :=
  out ← postings_of_values idx n f (IndexReader.label_values idx n);
  without ← (if f [] then postings_without idx n else Ok []);
  Ok (sort_unique Z.ltb (out ++ without)).

Definition postings_for_matcher (idx : IndexReader.t) (m : Matcher.t) : outcome error_code (list Z) :=
  let n := Matcher.name_ m in
  let v := Matcher.value_ m in
  match Matcher.type_ m with
  | Eq => if bool_decide (v = []) then postings_without idx n else IndexReader.postings idx n v
  | Neq =>
      if bool_decide (v = []) then IndexReader.postings_for_name idx n
      else
        all ← IndexReader.all_postings idx;
        eq ← IndexReader.postings idx n v;
        Ok (sorted_difference all eq)
  | Re => postings_accepted idx n (Matcher.matches m)
  | Nre =>
      matching ← postings_accepted idx n (Matcher.regex_matches m);
      all ← IndexReader.all_postings idx;
      Ok (sorted_difference all matching)
  end.

(** The loop over the matchers but the first: it stops at an empty result. *)
Fixpoint intersect_matchers (idx : IndexReader.t) (ms : list Matcher.t) (ids : list Z) : outcome error_code (list Z) :=
  match ms, ids with
  | [], _ | _, [] => Ok ids
  | m :: ms, _ =>
      next ← postings_for_matcher idx m;
      intersect_matchers idx ms (sorted_intersection ids next)
  end.

(** * Queries *)

Import Block.

(** The loop over the chunks of a series: those that overlap the range. *)
Fixpoint select_chunks (fs : gmap str (list Z)) (mint maxt : Z) (cms : list ChunkMeta)
    : Block.M (list (XORChunk.t * ChunkMeta)) :=
  match cms with
  | [] => rret []
  | cm :: cms =>
      if (maxt <? min_time cm) || (max_time cm <? mint) then select_chunks fs mint maxt cms
      else
        xc <~ read_xor fs cm ;;
        rest <~ select_chunks fs mint maxt cms ;;
        rret ((xc, cm) :: rest)
  end.

(** [index_.series(id)]. *)
Definition series_entry (id : Z) : Block.M SeriesEntry := λ b, (IndexReader.series (index_ b) id, b).

Fixpoint select_ids (fs : gmap str (list Z)) (mint maxt : Z) (ids : list Z) : Block.M (list QueryResult) :=
  match ids with
  | [] => rret []
  | id :: ids =>
      se <~ series_entry id ;;
      found <~ select_chunks fs mint maxt (se_chunks se) ;;
      rest <~ select_ids fs mint maxt ids ;;
      rret (match found with
            | [] => rest
            | _ => mkQueryResult (se_labels se) (fst <$> found) (snd <$> found) :: rest
            end)
  end.

(** [select] over the chunks directory [fs]. *)
Definition select (fs : gmap str (list Z)) (matchers : list Matcher.t) (mint maxt : Z) : Block.M (list QueryResult) :=
  λ b, match matchers with
  | [] => (Err invalid_argument, b)
  | m :: ms =>
      match (ids ← postings_for_matcher (index_ b) m; intersect_matchers (index_ b) ms ids) with
      | Ok ids => select_ids fs mint maxt ids b
      | Err e => (Err e, b)
      | UB => (UB, b)
      end
  end.

Fixpoint read_all_chunks (fs : gmap str (list Z)) (cms : list ChunkMeta) : Block.M (list XORChunk.t) :=
  match cms with
  | [] => rret []
  | cm :: cms =>
      xc <~ read_xor fs cm ;; rest <~ read_all_chunks fs cms ;; rret (xc :: rest)
  end.

Fixpoint query_ids (fs : gmap str (list Z)) (ids : list Z) : Block.M (list QueryResult) :=
  match ids with
  | [] => rret []
  | id :: ids =>
      se <~ series_entry id ;;
      xcs <~ read_all_chunks fs (se_chunks se) ;;
      rest <~ query_ids fs ids ;;
      rret (mkQueryResult (se_labels se) xcs (se_chunks se) :: rest)
  end.

Definition query (fs : gmap str (list Z)) (name value : str) : Block.M (list QueryResult) := λ b,
  match IndexReader.postings (index_ b) name value with
  | Ok ids => query_ids fs ids b
  | Err e => (Err e, b)
  | UB => (UB, b)
  end.

End Postings.
