(* ===== verification/IndexSafe.v ===== *)
(** The index reader on arbitrary files: which reads stay inside the file. A
    span operation outside of it is undefined in the model, so the theorem of
    this file is memory safety: only integers near 2^64 that the reader takes for
    lengths or offsets, whose sums wrap around, can break it (see
    [IndexWriterProps.section_offset_wraps]). The conditions below are on the
    integers at the positions the reader reads, and on no other bytes. *)

From S2P Require Import Prelude Ordered Sorted Files Varint Bytes Crc32c Labels Record Xor Query Index IndexWriter Ulid Meta Block.

(** The varint at [pos], if one can be read there, is less than 2^62. *)
Definition short_at (bytes : list Z) (pos : Z) : bool :=
  match uvarint_at bytes pos with Ok (v, _) => v <? 2 ^ 62 | _ => true end.

(** No varint of 2^62 or more can be read anywhere in the file. *)
Definition small_varints (bytes : list Z) : bool :=
  forallb (λ i, short_at bytes (Z.of_nat i)) (seq 0 (length bytes)).

(** The lengths of the symbols in the section at [offset]. *)
Definition symbols_fit (bytes : list Z) (offset : Z) : bool :=
  match read_section_payload bytes offset with
  | Ok payload =>
      forallb (λ i,
        match IndexSymbolTable.walk i bytes (u64 (u64 (offset + 4) + 4)) with
        | Ok pos => short_at bytes pos
        | _ => true
        end) (seq 0 (Z.to_nat (read_be32 (take 4 payload))))
  | _ => true
  end.

(** The lengths of the name and of the value of the entry at [pos] of the
    postings offset table, and the offset in it. *)
Definition row_fits (payload : list Z) (pos : Z) : bool :=
  match uvarint_at payload pos with
  | Ok (_, pos) =>
      short_at payload pos &&
      match PostingsOffsetTable.parse_string payload pos with
      | Ok (_, pos) =>
          short_at payload pos &&
          match PostingsOffsetTable.parse_string payload pos with Ok (_, pos) => short_at payload pos | _ => true end
      | _ => true
      end
  | _ => true
  end.

(** The entries of the table at [offset]. *)
Definition table_fits (bytes : list Z) (offset : Z) : bool :=
  match read_section_payload bytes offset with
  | Ok payload =>
      forallb (λ i,
        match PostingsOffsetTable.parse_loop i payload 4 [] with
        | Ok (_, pos) => row_fits payload pos
        | _ => true
        end) (seq 0 (Z.to_nat (read_be32 (take 4 payload))))
  | _ => true
  end.

(** The lengths and offsets that opening an index reads are less than 2^62. *)
Definition opens_fit (bytes : list Z) : bool :=
  match parse_toc bytes with
  | Ok t =>
      (toc_symbols t <? 2 ^ 62) && (toc_postings_table t <? 2 ^ 62) &&
      symbols_fit bytes (toc_symbols t) && table_fits bytes (toc_postings_table t)
  | _ => true
  end.

Module IndexSafeFacts.
Import BytesFacts IndexFacts.

(** A file of a size a [std::vector] can have. *)
Definition sized (bytes : list Z) : Prop := bytes_ok bytes ∧ zlen bytes < 2 ^ 62.

Definition tame (bytes : list Z) : Prop := bytes_ok bytes ∧ zlen bytes < 2 ^ 62 ∧ small_varints bytes = true.

Lemma subspan_from_eq l pos : 0 <= pos <= zlen l → subspan_from l pos = Some (drop (Z.to_nat pos) l).
Proof.
  intros Hpos. unfold subspan_from, subspan.
  replace ((0 <=? pos) && (0 <=? zlen l - pos) && (pos + (zlen l - pos) <=? zlen l)) with true by lia.
  f_equal. apply take_ge. rewrite length_drop. unfold zlen. lia.
Qed.

Lemma subspan_eq l off len : 0 <= off → 0 <= len → off + len <= zlen l →
  subspan l off len = Some (take (Z.to_nat len) (drop (Z.to_nat off) l)).
Proof. intros. unfold subspan. by replace ((0 <=? off) && (0 <=? len) && (off + len <=? zlen l)) with true by lia. Qed.

Lemma subspan_Some l off len s : subspan l off len = Some s →
  0 <= off ∧ 0 <= len ∧ off + len <= zlen l ∧ s = take (Z.to_nat len) (drop (Z.to_nat off) l) ∧ zlen s = len.
Proof.
  unfold subspan. destruct ((0 <=? off) && (0 <=? len) && (off + len <=? zlen l)) eqn:Hb; [|done]. intros [= <-].
  split_and!; [lia..|done|]. unfold zlen in *. rewrite length_take, length_drop. lia.
Qed.

Lemma subspan_ok l off len s : bytes_ok l → subspan l off len = Some s → bytes_ok s.
Proof. intros Hl (_ & _ & _ & -> & _)%subspan_Some. by apply Forall_take, Forall_drop. Qed.

Lemma read_uvarint_loop_defined buf i x s : read_uvarint_loop buf i x s ≠ UB.
Proof.
  revert i x s. induction buf as [|b buf IH]; intros i x s; [done|]. cbn [read_uvarint_loop].
  destruct (_ =? _)%nat; [done|]. destruct (b <? _); [by destruct (_ && _)|apply IH].
Qed.

Lemma read_uvarint_defined buf : read_uvarint buf ≠ UB.
Proof. destruct buf; [done|]. apply read_uvarint_loop_defined. Qed.

(** A varint inside the file: an error, or a value and a position further on. *)
Lemma uvarint_at_cases bytes pos :
  zlen bytes < 2 ^ 62 → 0 <= pos <= zlen bytes →
  uvarint_at bytes pos = illegal ∨
  ∃ v p, uvarint_at bytes pos = Ok (v, p) ∧ pos < p <= zlen bytes ∧ is_u64 v = true.
Proof.
  intros Hlen Hpos. unfold uvarint_at. rewrite subspan_from_eq by done. cbn [of_option mbind outcome_bind].
  destruct (read_uvarint _) as [[v n]|e|] eqn:Hread; [|by left|by apply read_uvarint_defined in Hread].
  right. apply (read_uvarint_ok _ _ _ []) in Hread as (Hn & _ & Hv & _). rewrite length_drop in Hn. unfold zlen in *.
  eexists v, _. split; [done|]. rewrite u64_small by width. split; [lia|done].
Qed.

Lemma uvarint_at_inv bytes pos v p :
  uvarint_at bytes pos = Ok (v, p) → 0 <= pos < zlen bytes ∧ ∃ n, read_uvarint (drop (Z.to_nat pos) bytes) = Ok (v, n).
Proof.
  unfold uvarint_at, subspan_from. destruct (subspan bytes pos _) as [s|] eqn:Hs; [|done]. cbn [of_option mbind outcome_bind].
  destruct (read_uvarint s) as [[v' n]|e|] eqn:Hread; [|done..]. intros [= -> _]. apply subspan_Some in Hs as (H1 & H2 & H3 & -> & _).
  rewrite take_ge in Hread by (rewrite length_drop; unfold zlen in *; lia). split; [|by exists n].
  apply (read_uvarint_ok _ _ _ []) in Hread as (Hn & _). rewrite length_drop in Hn. unfold zlen. lia.
Qed.

Lemma short_lt bytes pos v p : short_at bytes pos = true → uvarint_at bytes pos = Ok (v, p) → v < 2 ^ 62.
Proof. unfold short_at. intros Hs Hread. rewrite Hread in Hs. lia. Qed.

Lemma tame_sized bytes : tame bytes → sized bytes.
Proof. by intros (? & ? & _). Qed.

Lemma tame_short bytes pos : tame bytes → short_at bytes pos = true.
Proof.
  intros (_ & _ & Hs). unfold short_at. destruct (uvarint_at bytes pos) as [[v p]|e|] eqn:Hread; [|done..].
  destruct (uvarint_at_inv _ _ _ _ Hread) as [Hpos _]. unfold small_varints in Hs. rewrite forallb_forall in Hs.
  specialize (Hs (Z.to_nat pos)). unfold short_at in Hs. rewrite Z2Nat.id, Hread in Hs by lia. apply Hs, in_seq. unfold zlen in Hpos. lia.
Qed.

(** A length: an error, or one below 2^62. *)
Lemma short_cases bytes pos :
  sized bytes → short_at bytes pos = true → 0 <= pos <= zlen bytes →
  uvarint_at bytes pos = illegal ∨
  ∃ v p, uvarint_at bytes pos = Ok (v, p) ∧ pos < p <= zlen bytes ∧ 0 <= v < 2 ^ 62.
Proof.
  intros [_ Hlen] Hs Hpos. destruct (uvarint_at_cases bytes pos Hlen Hpos) as [->|(v & p & Hat & Hp & Hu)]; [by left|right].
  exists v, p. split_and!; [done|lia..|width|by eapply short_lt].
Qed.

(** ** Sections *)

Lemma sized_sub bytes off len s : sized bytes → subspan bytes off len = Some s → sized s.
Proof.
  intros (Hok & Hlen) Hs. split; [by eapply subspan_ok|]. apply subspan_Some in Hs as (? & ? & ? & _ & ->). lia.
Qed.

Lemma checked_payload_cases bytes off len :
  zlen bytes < 2 ^ 62 → 0 <= off <= zlen bytes → 0 <= len < 2 ^ 62 →
  checked_payload bytes off len = illegal ∨
  ∃ p, checked_payload bytes off len = Ok p ∧ subspan bytes off len = Some p ∧ off + len + 4 <= zlen bytes.
Proof.
  intros Hlen Hoff Hl. unfold checked_payload. rewrite (u64_small (off + len)) by width. rewrite u64_small by width.
  destruct (Z.ltb_spec (zlen bytes) (off + len + 4)); [by left|].
  rewrite (subspan_eq bytes off len), (subspan_eq bytes (off + len) 4) by lia. cbn [of_option mbind outcome_bind].
  destruct (negb _); [by left|]. right. eexists. split; [done|]. split; [done|lia].
Qed.

Lemma read_section_cases bytes offset :
  sized bytes → 0 <= offset < 2 ^ 62 →
  read_section_payload bytes offset = illegal ∨
  ∃ p, read_section_payload bytes offset = Ok p ∧ sized p ∧ offset + 4 + zlen p + 4 <= zlen bytes.
Proof.
  intros Ht Hoff. pose proof Ht as (Hok & Hlen). unfold read_section_payload. rewrite (u64_small (offset + 4)) by width.
  destruct (Z.ltb_spec (zlen bytes) (offset + 4)) as [|Hin]; [by left|]. rewrite (subspan_eq bytes offset 4) by lia.
  cbn [of_option mbind outcome_bind]. set (pre := take _ _).
  assert (0 <= read_be32 pre < 2 ^ 32) as Hl.
  { apply read_be32_range; [by apply Forall_take, Forall_drop|]. unfold pre. rewrite length_take, length_drop. unfold zlen in *. lia. }
  destruct (checked_payload_cases bytes (offset + 4) (read_be32 pre)) as [->|(p & -> & Hp & Hend)]; [lia..|by left|].
  right. exists p. split; [done|]. split; [by eapply sized_sub|]. apply subspan_Some in Hp as (_ & _ & _ & _ & ->). lia.
Qed.

(** ** The symbol table *)

Section Symbols.
Context (bytes : list Z) (Hsized : sized bytes) (start : Z).

Lemma walk_add n m pos : IndexSymbolTable.walk (n + m) bytes pos = p ← IndexSymbolTable.walk n bytes pos; IndexSymbolTable.walk m bytes p.
Proof.
  revert pos. induction n as [|n IH]; intros pos; [done|]. cbn [Nat.add IndexSymbolTable.walk].
  destruct (uvarint_at bytes pos) as [[len sp]|e|]; [|done..]. cbn [mbind outcome_bind]. apply IH.
Qed.

(** Symbol [i] of the table stands inside the file. *)
Definition symbol_in (i : nat) : Prop :=
  ∃ p len sp, IndexSymbolTable.walk i bytes start = Ok p ∧ 0 <= p < zlen bytes ∧ uvarint_at bytes p = Ok (len, sp) ∧
    short_at bytes p = true ∧ 0 <= len ∧ 0 <= sp ∧ sp + len <= zlen bytes.

(** What [parse_loop] has established after [seen] symbols. *)
Definition scanned (seen : nat) (pos : Z) (offsets : list Z) : Prop :=
  IndexSymbolTable.walk seen bytes start = Ok pos ∧ 0 <= pos <= zlen bytes ∧ (∀ i, (i < seen)%nat → symbol_in i) ∧
  zlen offsets = (Z.of_nat seen + 31) / 32 ∧
  ∀ k p, offsets !! k = Some p → IndexSymbolTable.walk (32 * k) bytes start = Ok p.

Lemma scanned_offset seen pos offsets :
  scanned seen pos offsets →
  let offsets' := if Z.of_nat seen mod k_symbol_sparse_stride =? 0 then offsets ++ [pos] else offsets in
  zlen offsets' = (Z.of_nat (S seen) + 31) / 32 ∧
  ∀ k p, offsets' !! k = Some p → IndexSymbolTable.walk (32 * k) bytes start = Ok p.
Proof.
  intros (Hwalk & _ & _ & Hl & Hoff). unfold k_symbol_sparse_stride. cbn zeta.
  destruct (Z.eqb_spec (Z.of_nat seen mod 32) 0) as [Hz|Hz].
  - assert (Z.of_nat seen = 32 * zlen offsets) as Hs by (rewrite Hl; Z.to_euclidean_division_equations; lia). split.
    + rewrite zlen_app, Hl. change (zlen [pos]) with 1. Z.to_euclidean_division_equations; lia.
    + intros k p [Hk|[Hk Hp]]%lookup_app_Some; [by apply Hoff|]. apply list_lookup_singleton_Some in Hp as [Hk0 <-].
      replace (32 * k)%nat with seen by (unfold zlen in Hs; lia). done.
  - split; [|done]. rewrite Hl. Z.to_euclidean_division_equations; lia.
Qed.

Lemma parse_loop_cases limit todo seen pos offsets :
  limit <= zlen bytes → scanned seen pos offsets →
  (∀ i p, (i < seen + todo)%nat → IndexSymbolTable.walk i bytes start = Ok p → short_at bytes p = true) →
  IndexSymbolTable.parse_loop todo bytes limit (Z.of_nat seen) pos offsets = illegal ∨
  ∃ res pos', IndexSymbolTable.parse_loop todo bytes limit (Z.of_nat seen) pos offsets = Ok res ∧ scanned (seen + todo) pos' res.
Proof.
  intros Hlimit. revert seen pos offsets. induction todo as [|todo IH]; intros seen pos offsets Hs Hshort.
  { right. exists offsets, pos. by rewrite Nat.add_0_r. }
  cbn [IndexSymbolTable.parse_loop]. pose proof (scanned_offset _ _ _ Hs) as [Hl' Hoff'].
  set (offsets' := if _ =? 0 then _ else _) in *. destruct Hs as (Hwalk & Hpos & Hin & _ & _).
  destruct (Z.leb_spec (zlen bytes) pos); [by left|]. pose proof Hsized as (_ & Hlen). pose proof (Hshort seen pos ltac:(lia) Hwalk) as Hs.
  destruct (short_cases bytes pos Hsized Hs Hpos) as [->|(len & sp & Hat & Hsp & Hv)]; [by left|].
  rewrite Hat. cbn [mbind outcome_bind].
  rewrite u64_small by width. destruct (Z.ltb_spec limit (sp + len)); [by left|].
  replace (Z.of_nat seen + 1) with (Z.of_nat (S seen)) by lia. replace (seen + S todo)%nat with (S seen + todo)%nat by lia.
  apply IH; [|intros i p Hi; apply Hshort; lia]. split_and!; [|width|width| |done|done].
  - replace (S seen) with (seen + 1)%nat by lia. rewrite walk_add, Hwalk. cbn [mbind outcome_bind IndexSymbolTable.walk].
    rewrite Hat. cbn [mbind outcome_bind]. by rewrite u64_small by width.
  - intros i Hi. destruct (decide (i = seen)) as [->|]; [|apply Hin; lia]. exists pos, len, sp. split_and!; [done|lia..|done|done|lia|lia|lia].
Qed.

Lemma string_at_symbol pos :
  short_at bytes pos = true → 0 <= pos < zlen bytes → IndexSymbolTable.string_at bytes pos ≠ UB.
Proof.
  intros Hs Hpos. unfold IndexSymbolTable.string_at. pose proof Hsized as (_ & Hlen).
  destruct (short_cases bytes pos Hsized Hs ltac:(lia)) as [->|(len & sp & Hat & Hsp & Hv)]; [done|]. rewrite Hat. cbn [mbind outcome_bind]. rewrite u64_small by width.
  destruct (Z.ltb_spec (zlen bytes) (sp + len)); [done|]. by rewrite subspan_eq by width.
Qed.

Lemma all_loop_defined todo seen pos :
  IndexSymbolTable.walk seen bytes start = Ok pos → (∀ i, (i < seen + todo)%nat → symbol_in i) →
  IndexSymbolTable.all_loop todo bytes pos ≠ None.
Proof.
  revert seen pos. induction todo as [|todo IH]; intros seen pos Hwalk Hin; [done|]. cbn [IndexSymbolTable.all_loop].
  destruct (Hin seen ltac:(lia)) as (p & len & sp & Hp & Hpos & Hat & _ & Hl & Hsp & Hend). rewrite Hwalk in Hp. injection Hp as <-.
  rewrite Hat, subspan_eq by done. cbn [mbind option_bind]. pose proof Hsized as (_ & Hlen). rewrite u64_small by width.
  specialize (IH (S seen) (sp + len)). destruct (IndexSymbolTable.all_loop todo bytes (sp + len)); [done|]. apply IH; [|intros; apply Hin; lia].
  replace (S seen) with (seen + 1)%nat by lia. rewrite walk_add, Hwalk. cbn [mbind outcome_bind IndexSymbolTable.walk].
  rewrite Hat. cbn [mbind outcome_bind]. by rewrite u64_small by width.
Qed.

End Symbols.

(** A table [parse] accepts. *)
Definition table_ok (bytes : list Z) (t : IndexSymbolTable.t) : Prop :=
  IndexSymbolTable.file_bytes_ t = bytes ∧ is_u64 (IndexSymbolTable.payload_offset_ t + 4) = true ∧
  ∃ pos, scanned bytes (IndexSymbolTable.payload_offset_ t + 4) (Z.to_nat (IndexSymbolTable.count_ t)) pos
    (IndexSymbolTable.sparse_offsets_ t).

Lemma be32_take_range p : bytes_ok p → 4 <= zlen p → 0 <= read_be32 (take 4 p) < 2 ^ 32.
Proof. intros Hok Hl. apply read_be32_range; [by apply Forall_take|]. rewrite length_take. unfold zlen in Hl. lia. Qed.

Lemma symbols_parse_cases bytes offset version :
  sized bytes → symbols_fit bytes offset = true → 0 <= offset < 2 ^ 62 →
  (∃ e, IndexSymbolTable.parse bytes offset version = Err e) ∨
  ∃ t, IndexSymbolTable.parse bytes offset version = Ok t ∧ table_ok bytes t.
Proof.
  intros Ht Hfit Hoff. unfold IndexSymbolTable.parse, symbols_fit in *.
  destruct (read_section_cases bytes offset Ht Hoff) as [->|(p & Hp & (Hok & Hpl) & Hend)]; [left; by eexists|].
  rewrite Hp in *. cbn [mbind outcome_bind]. rewrite forallb_forall in Hfit. destruct (Z.ltb_spec (zlen p) 4); [left; by eexists|].
  pose proof Ht as (_ & Hlen). rewrite (u64_small (offset + 4)), (u64_small (offset + 4 + 4)) in * by width.
  pose proof (be32_take_range p Hok ltac:(lia)) as Hc.
  destruct (parse_loop_cases bytes Ht (offset + 4 + 4) (offset + 4 + 4 + zlen p - 4) (Z.to_nat (read_be32 (take 4 p))) 0 (offset + 4 + 4) [])
    as [Hloop|(res & pos & Hloop & Hscan)]; [lia| | |left|right].
  - split_and!; [done|lia|lia|lia|done|by intros k q Hk].
  - intros i q Hi Hw. specialize (Hfit i). rewrite Hw in Hfit. apply Hfit, in_seq. lia.
  - change (Z.of_nat 0) with 0 in Hloop. rewrite Hloop. by eexists.
  - change (Z.of_nat 0) with 0 in Hloop. rewrite Hloop. eexists. split; [done|]. split; [done|]. cbn. split; [width|]. by exists pos.
Qed.

Lemma lookup_defined bytes t ref :
  sized bytes → table_ok bytes t → 0 <= ref →
  (IndexSymbolTable.version_ t = k_index_format_v1 → short_at bytes ref = true) → IndexSymbolTable.lookup t ref ≠ UB.
Proof.
  intros Ht (Hb & _ & pos & _ & _ & Hin & _ & Hoff) Href Hv1. unfold IndexSymbolTable.lookup. rewrite Hb.
  destruct (Z.eqb_spec (IndexSymbolTable.version_ t) k_index_format_v1) as [Hv|_].
  { destruct (Z.leb_spec (zlen bytes) ref); [done|]. apply string_at_symbol; [done|by apply Hv1|done]. }
  destruct (Z.leb_spec (IndexSymbolTable.count_ t) ref); [done|]. unfold k_symbol_sparse_stride.
  destruct (IndexSymbolTable.sparse_offsets_ t !! Z.to_nat (ref / 32)) as [base|] eqn:Hbase; [|done].
  destruct (Hin (Z.to_nat ref) ltac:(lia)) as (p & len & sp & Hp & Hpos & _ & Hs & _).
  replace (Z.to_nat ref) with (32 * Z.to_nat (ref / 32) + Z.to_nat (ref mod 32))%nat in Hp
    by (Z.to_euclidean_division_equations; lia).
  rewrite walk_add, (Hoff _ _ Hbase) in Hp. cbn [mbind outcome_bind] in Hp. rewrite Hp. cbn [mbind outcome_bind].
  by apply string_at_symbol.
Qed.

Lemma all_symbols_defined bytes t : sized bytes → table_ok bytes t → IndexSymbolTable.all_symbols t ≠ None.
Proof.
  intros Ht (Hb & Hu & pos & _ & _ & Hin & _). unfold IndexSymbolTable.all_symbols. rewrite Hb, u64_small by done.
  by apply (all_loop_defined bytes Ht (IndexSymbolTable.payload_offset_ t + 4) _ 0%nat).
Qed.

(** ** The postings offset table *)

Definition offset_ok (e : PostingsOffsetEntry) : Prop := 0 <= pe_offset e < 2 ^ 62.

Lemma parse_string_cases payload pos :
  sized payload → short_at payload pos = true → 0 <= pos <= zlen payload →
  PostingsOffsetTable.parse_string payload pos = illegal ∨
  ∃ s p, PostingsOffsetTable.parse_string payload pos = Ok (s, p) ∧ 0 <= p <= zlen payload.
Proof.
  intros Ht Hs Hpos. pose proof Ht as (_ & Hlen). unfold PostingsOffsetTable.parse_string.
  destruct (short_cases payload pos Ht Hs Hpos) as [->|(len & sp & Hat & Hsp & Hv)]; [by left|].
  rewrite Hat. cbn [mbind outcome_bind]. rewrite u64_small by width.
  destruct (Z.ltb_spec (zlen payload) (sp + len)); [by left|]. rewrite subspan_eq by width. cbn [of_option mbind outcome_bind].
  right. eexists _, _. split; [done|]. width.
Qed.

Lemma table_loop_add n m payload pos entries :
  PostingsOffsetTable.parse_loop (n + m) payload pos entries =
    '(es, p) ← PostingsOffsetTable.parse_loop n payload pos entries; PostingsOffsetTable.parse_loop m payload p es.
Proof.
  revert pos entries. induction n as [|n IH]; intros pos entries; [done|]. cbn [Nat.add PostingsOffsetTable.parse_loop].
  destruct (uvarint_at payload pos) as [[kc p1]|e|]; [|done..]. cbn [mbind outcome_bind]. destruct (negb _); [done|].
  destruct (PostingsOffsetTable.parse_string payload p1) as [[n1 p2]|e|]; [|done..]. cbn [mbind outcome_bind].
  destruct (PostingsOffsetTable.parse_string payload p2) as [[v1 p3]|e|]; [|done..]. cbn [mbind outcome_bind].
  destruct (uvarint_at payload p3) as [[off p4]|e|]; [|done..]. cbn [mbind outcome_bind]. apply IH.
Qed.

(** One entry of the table. *)
Lemma table_row_cases payload pos entries :
  sized payload → row_fits payload pos = true → 0 <= pos <= zlen payload → Forall offset_ok entries →
  PostingsOffsetTable.parse_loop 1 payload pos entries = illegal ∨
  ∃ es p, PostingsOffsetTable.parse_loop 1 payload pos entries = Ok (es, p) ∧ 0 <= p <= zlen payload ∧ Forall offset_ok es.
Proof.
  intros Ht Hrow Hpos Hes. cbn [PostingsOffsetTable.parse_loop]. pose proof Ht as (_ & Hlen). unfold row_fits in Hrow.
  destruct (uvarint_at_cases payload pos Hlen Hpos) as [->|(kc & p1 & Hat1 & Hp1 & _)]; [by left|].
  rewrite Hat1 in *. cbn [mbind outcome_bind]. destruct (negb _); [by left|]. apply andb_prop in Hrow as [Hs1 Hrow].
  destruct (parse_string_cases payload p1 Ht Hs1 ltac:(lia)) as [->|(n & p2 & Hn & Hp2)]; [by left|].
  rewrite Hn in *. cbn [mbind outcome_bind]. apply andb_prop in Hrow as [Hs2 Hs3].
  destruct (parse_string_cases payload p2 Ht Hs2 Hp2) as [->|(v & p3 & Hv & Hp3)]; [by left|].
  rewrite Hv in *. cbn [mbind outcome_bind].
  destruct (short_cases payload p3 Ht Hs3 Hp3) as [->|(off & p4 & -> & Hp4 & Hoff)]; [by left|]. cbn [mbind outcome_bind].
  right. eexists _, _. split; [done|]. split; [lia|]. apply Forall_app_2; [done|]. by constructor; [|constructor].
Qed.

Lemma table_loop_cases payload todo seen pos entries :
  sized payload → PostingsOffsetTable.parse_loop seen payload 4 [] = Ok (entries, pos) →
  (∀ i es p, (i < seen + todo)%nat → PostingsOffsetTable.parse_loop i payload 4 [] = Ok (es, p) → row_fits payload p = true) →
  0 <= pos <= zlen payload → Forall offset_ok entries →
  PostingsOffsetTable.parse_loop todo payload pos entries = illegal ∨
  ∃ es p, PostingsOffsetTable.parse_loop todo payload pos entries = Ok (es, p) ∧ Forall offset_ok es.
Proof.
  intros Ht. revert seen pos entries. induction todo as [|todo IH]; intros seen pos entries Hseen Hfit Hpos Hes; [right; by eexists _, _|].
  change (S todo) with (1 + todo)%nat. rewrite table_loop_add.
  pose proof (Hfit seen _ _ ltac:(lia) Hseen) as Hrow.
  destruct (table_row_cases payload pos entries Ht Hrow Hpos Hes) as [->|(es & p & Hone & Hp & Hes')]; [by left|].
  rewrite Hone. cbn [mbind outcome_bind]. apply (IH (seen + 1)%nat); [|intros i es1 p1 Hi; apply Hfit; lia|done|done].
  by rewrite table_loop_add, Hseen.
Qed.

Lemma table_parse_cases bytes offset :
  sized bytes → table_fits bytes offset = true → 0 <= offset < 2 ^ 62 →
  (∃ e, PostingsOffsetTable.parse bytes offset = Err e) ∨
  ∃ es, PostingsOffsetTable.parse bytes offset = Ok (PostingsOffsetTable.new es) ∧ Forall offset_ok es.
Proof.
  intros Ht Hfit Hoff. unfold PostingsOffsetTable.parse, table_fits in *.
  destruct (read_section_cases bytes offset Ht Hoff) as [->|(p & Hread & Hp & _)]; [left; by eexists|].
  rewrite Hread in *. cbn [mbind outcome_bind]. destruct (Z.ltb_spec (zlen p) 4); [left; by eexists|]. rewrite forallb_forall in Hfit.
  destruct (table_loop_cases p (Z.to_nat (read_be32 (take 4 p))) 0 4 [] Hp eq_refl) as [->|(es & q & -> & Hes)];
    [|lia|constructor|left; by eexists|].
  - intros i es q Hi Hl. specialize (Hfit i). rewrite Hl in Hfit. apply Hfit, in_seq. lia.
  - cbn [mbind outcome_bind]. destruct (negb _); [left; by eexists|]. right. by exists es.
Qed.

Lemma table_lookup_offset es n v off :
  Forall offset_ok es → PostingsOffsetTable.lookup (PostingsOffsetTable.new es) n v = Some off → 0 <= off < 2 ^ 62.
Proof.
  intros Hes. unfold PostingsOffsetTable.lookup, PostingsOffsetTable.new. cbn [PostingsOffsetTable.by_pair_]. generalize (PostingsOffsetTable.pair_key n v). intros key.
  assert (∀ k x, (∅ : gmap str Z) !! k = Some x → 0 <= x < 2 ^ 62) as Hm by (intros k x; by rewrite lookup_empty).
  revert Hm. generalize (∅ : gmap str Z). induction Hes as [|e es He _ IH]; intros m Hm; cbn [foldl]; [apply Hm|]. apply IH.
  intros k x. destruct (m !! PostingsOffsetTable.pair_key _ _); [apply Hm|]. intros [[_ <-]|[_ Hk]]%lookup_insert_Some; [exact He|by eapply Hm].
Qed.

Lemma posting_list_defined bytes off : sized bytes → 0 <= off < 2 ^ 62 → read_posting_list bytes off ≠ UB.
Proof.
  intros Ht Hoff. unfold read_posting_list. destruct (read_section_cases bytes off Ht Hoff) as [->|(p & -> & _)]; [done|].
  cbn [mbind outcome_bind]. destruct (_ <? 4); [done|]. by destruct (_ <? _).
Qed.

Lemma collect_defined keep bytes es : sized bytes → Forall offset_ok es → IndexReader.collect keep bytes es ≠ UB.
Proof.
  intros Ht Hes. induction Hes as [|e es He _ IH]; [done|]. cbn [IndexReader.collect]. destruct (keep e); [|done].
  pose proof (posting_list_defined bytes (pe_offset e) Ht He). destruct (read_posting_list _ _) as [ids|e'|]; [|done..].
  cbn [mbind outcome_bind]. by destruct (IndexReader.collect keep bytes es).
Qed.

(** ** The table of contents *)

Lemma nth_nonneg b i : bytes_ok b → 0 <= nth i b 0.
Proof.
  intros Hb. destruct (decide (i < length b)%nat) as [Hi|Hi]; [|by rewrite nth_overflow by lia].
  unfold bytes_ok in Hb. rewrite Forall_forall in Hb. specialize (Hb (nth i b 0)). unfold is_byte in Hb.
  assert (nth i b 0 ∈ b) as Hin by (apply list_elem_of_In, nth_In; lia). specialize (Hb Hin). lia.
Qed.

Lemma read_be32_nonneg b : bytes_ok b → 0 <= read_be32 b.
Proof. intros Hb. unfold read_be32, be32_at. rewrite !Z.lor_nonneg, !Z.shiftl_nonneg. split_and!; by apply nth_nonneg. Qed.

Lemma read_be64_nonneg b : bytes_ok b → 0 <= read_be64 b.
Proof. intros Hb. unfold read_be64, be64_at. rewrite !Z.lor_nonneg, !Z.shiftl_nonneg. split_and!; by apply nth_nonneg. Qed.

Lemma parse_toc_cases bytes :
  bytes_ok bytes → (∃ e, parse_toc bytes = Err e) ∨ ∃ t, parse_toc bytes = Ok t ∧ 0 <= toc_symbols t ∧ 0 <= toc_postings_table t.
Proof.
  intros Hok. unfold parse_toc, k_index_toc_size. change (6 * 8 + 4) with 52. destruct (Z.ltb_spec (zlen bytes) 52); [left; by eexists|].
  rewrite subspan_eq by lia. cbn [of_option mbind outcome_bind]. destruct (negb _); [left; by eexists|]. right. eexists. split; [done|].
  split; apply read_be64_nonneg; repeat first [apply Forall_take|apply Forall_drop]; exact Hok.
Qed.

(** ** The reader *)

(** What [parse] accepts. *)
Definition reader_ok (data : list Z) (r : IndexReader.t) : Prop :=
  IndexReader.data_ r = data ∧ table_ok data (IndexReader.symbols_ r) ∧
  ∃ es, IndexReader.postings_table_ r = PostingsOffsetTable.new es ∧ Forall offset_ok es.

Lemma parse_cases data :
  sized data → opens_fit data = true →
  (∃ e, IndexReader.parse data = Err e) ∨ ∃ r, IndexReader.parse data = Ok r ∧ reader_ok data r.
Proof.
  intros Ht Htoc. pose proof Ht as (Hok & _). unfold IndexReader.parse, opens_fit in *.
  destruct (Z.ltb_spec (zlen data) (k_index_header_size + k_index_toc_size)) as [|Hlen]; [left; by eexists|]. unfold k_index_header_size, k_index_toc_size in Hlen.
  destruct (negb _); [left; by eexists|]. destruct (_ && _); [left; by eexists|].
  destruct (parse_toc_cases data Hok) as [[e ->]|(t & Heq & Hs & Hp)]; [left; by eexists|]. rewrite Heq in *. cbn [mbind outcome_bind].
  apply andb_prop in Htoc as [[[Hs1 Hp1]%andb_prop Hsyms]%andb_prop Htab].
  destruct (symbols_parse_cases data (toc_symbols t) (nth 4 data 0) Ht Hsyms ltac:(lia)) as [[e ->]|(st & -> & Hst)]; [left; by eexists|].
  cbn [mbind outcome_bind].
  destruct (table_parse_cases data (toc_postings_table t) Ht Htab ltac:(lia)) as [[e ->]|(es & -> & Hes)]; [left; by eexists|].
  cbn [mbind outcome_bind]. right. eexists. split; [done|]. split; [done|]. split; [done|]. by exists es.
Qed.

End IndexSafeFacts.

Module IndexSafeProps.
Import BytesFacts IndexFacts IndexSafeFacts.

(** Memory safety of the index reader. On any file, hostile ones
    included, in which the lengths and offsets that opening it reads are less
    than 2^62, [IndexReader::open] ends with a reader or an error, and on a
    reader every symbol reference, the list of all symbols, and the posting
    lists of any pair, of any name and of all series are looked up without an
    access outside the file, whatever the lengths, counts and offsets in it say;
    in the first version of the format a symbol reference is an offset, and the
    length that stands there must be less than 2^62, too. *)
Theorem index_reader_in_bounds (data : list Z) :
  bytes_ok data → zlen data < 2 ^ 62 → opens_fit data = true →
  match IndexReader.parse data with
  | Ok r =>
      (∀ ref, 0 <= ref →
        (IndexSymbolTable.version_ (IndexReader.symbols_ r) = k_index_format_v1 → short_at data ref = true) →
        IndexSymbolTable.lookup (IndexReader.symbols_ r) ref ≠ UB) ∧
      IndexSymbolTable.all_symbols (IndexReader.symbols_ r) ≠ None ∧
      (∀ n v, IndexReader.postings r n v ≠ UB) ∧ (∀ n, IndexReader.postings_for_name r n ≠ UB) ∧ IndexReader.all_postings r ≠ UB
  | Err _ => True
  | UB => False
  end.
Proof.
  intros Hok Hlen Hfit. assert (sized data) as Ht by done.
  destruct (parse_cases data Ht Hfit) as [[e ->]|(r & -> & (Hdata & Htable & es & Hes & Hoffs))]; [done|]. split_and!.
  - intros ref. by apply (lookup_defined data).
  - by apply (all_symbols_defined data).
  - intros n v. unfold IndexReader.postings. rewrite Hes, Hdata.
    destruct (PostingsOffsetTable.lookup _ n v) as [off|] eqn:Hl; [|done]. apply posting_list_defined; [done|]. by eapply table_lookup_offset.
  - intros n. unfold IndexReader.postings_for_name. rewrite Hes, Hdata.
    pose proof (collect_defined (λ e, str_eqb (pe_name e) n) data es Ht Hoffs). cbn [PostingsOffsetTable.new PostingsOffsetTable.entries_].
    by destruct (IndexReader.collect _ data es).
  - unfold IndexReader.all_postings. rewrite Hes, Hdata.
    pose proof (collect_defined (λ _, true) data es Ht Hoffs). cbn [PostingsOffsetTable.new PostingsOffsetTable.entries_].
    by destruct (IndexReader.collect _ data es).
Qed.

(** The index of one series with the labels a=b, as the block writer makes it. *)
Definition sample_index : list Z :=
  match write_index_file [mkPrepared (mkSeriesInput [mkLabel [97] [98]] []) [mkChunkMeta 5 9 8]] (mkWorld ∅ []) with
  | (Ok _, w) => default [] (files w !! k_index_filename)
  | _ => []
  end.

Lemma index_reader_in_bounds_witness :
  100 < zlen sample_index ∧
  match IndexReader.parse sample_index with
  | Ok r =>
      (∀ ref, 0 <= ref →
        (IndexSymbolTable.version_ (IndexReader.symbols_ r) = k_index_format_v1 → short_at sample_index ref = true) →
        IndexSymbolTable.lookup (IndexReader.symbols_ r) ref ≠ UB) ∧
      IndexSymbolTable.all_symbols (IndexReader.symbols_ r) ≠ None ∧
      (∀ n v, IndexReader.postings r n v ≠ UB) ∧ (∀ n, IndexReader.postings_for_name r n ≠ UB) ∧ IndexReader.all_postings r ≠ UB
  | Err _ => True
  | UB => False
  end.
Proof.
  split; [vm_compute; reflexivity|]. apply (index_reader_in_bounds sample_index).
  - apply (bool_decide_unpack (Forall (λ b, is_byte b = true) sample_index)). vm_compute. exact I.
  - vm_compute. reflexivity.
  - vm_compute. reflexivity.
Defined.

(** A damaged count of the symbols, which the checksum notices. *)
Example damaged_index_refused :
  IndexReader.parse (<[12%nat := 255]> sample_index) = Err illegal_byte_sequence ∧
  match IndexReader.parse sample_index with Ok _ => true | _ => false end = true.
Proof. vm_compute. split; reflexivity. Qed.

(** The hypothesis on lengths is needed: a name of 2^64 - 3 bytes in the
    postings offset table passes the bounds check, whose sum wraps around. *)
Example name_length_wraps :
  PostingsOffsetTable.parse_string (uvarint_bytes (2 ^ 64 - 3)) 0 = UB.
Proof. vm_compute. reflexivity. Qed.

End IndexSafeProps.
