(* ===== verification/ChunkSafe.v ===== *)
(** The chunk reader on arbitrary segment files: reads stay inside the file,
    the iteration over a segment ends, and both agree on what a chunk is. As for
    the index, only lengths near 2^64, whose sums wrap around, can break this
    (see [ChunksProps.length_wraps] and [ChunksProps.iteration_loops]). *)

From S2P Require Import Prelude Ordered Files Varint Bytes Crc32c Chunks Index IndexSafe.

Module ChunkSafeFacts.
Import BytesFacts IndexSafeFacts ChunkReader.

(** What follows is about one chunk, at [off] in the bytes of a segment. *)
Lemma length_at bytes off :
  sized bytes → short_at bytes off = true → 0 <= off < zlen bytes →
  ∃ s, subspan_from bytes off = Some s ∧
    ((∃ e, read_uvarint s = Err e) ∨
     ∃ len n, read_uvarint s = Ok (len, n) ∧ 0 < Z.of_nat n ∧ off + Z.of_nat n <= zlen bytes ∧ 0 <= len < 2 ^ 62).
Proof.
  intros (_ & Hlen) Hsmall Hoff. rewrite subspan_from_eq by lia. eexists. split; [done|].
  destruct (read_uvarint _) as [[len n]|e|] eqn:Hread; [right|left; by exists e|by apply read_uvarint_defined in Hread].
  exists len, n. pose proof (read_uvarint_ok _ _ _ [] Hread) as (Hn & _ & Hu & _). rewrite length_drop in Hn.
  assert (uvarint_at bytes off = Ok (len, u64 (off + Z.of_nat n))) as Hat
    by (unfold uvarint_at; rewrite subspan_from_eq by lia; cbn [of_option mbind outcome_bind]; by rewrite Hread).
  apply (short_lt _ _ _ _ Hsmall) in Hat. unfold zlen in *. split_and!; [done|lia|lia| |done]. width.
Qed.

Lemma byte_at_eq l i : 0 <= i < zlen l → ∃ b, byte_at l i = Some b.
Proof.
  intros Hi. unfold byte_at. destruct (Z.ltb_spec i 0); [lia|]. apply lookup_lt_is_Some. unfold zlen in Hi. lia.
Qed.

(** A chunk is refused by both operations, or the iteration lists it, and
    reading it gives what was listed unless the checksum is wrong. *)
Definition agree (bytes : list Z) (off : Z) : Prop :=
  (parse_chunk bytes off = Err illegal_byte_sequence ∧ ∀ seq, iterate_step bytes seq off = Err illegal_byte_sequence) ∨
  ∃ enc size next,
    off < next <= zlen bytes ∧ (∀ seq, iterate_step bytes seq off = Ok (mkInfo (mkRef seq (u32 off)) enc size, next)) ∧
    (parse_chunk bytes off = Err illegal_byte_sequence ∨
     ∃ data, parse_chunk bytes off = Ok (mkPayload enc data) ∧ zlen data = size).

Lemma chunk_agree bytes off :
  sized bytes → short_at bytes off = true → 0 <= off < zlen bytes → agree bytes off.
Proof.
  intros Ht Hshort Hoff. pose proof Ht as (_ & Hlen). destruct (length_at bytes off Ht Hshort Hoff) as (s & Hs & Hread).
  unfold agree, parse_chunk, iterate_step. rewrite Hs. cbn [of_option mbind outcome_bind].
  destruct (Z.leb_spec (zlen bytes) off); [lia|].
  destruct Hread as [[e ->]|(len & n & -> & Hn & Hend & Hl)]; [by left|].
  unfold k_chunk_encoding_size, k_chunk_crc_size. set (p := off + Z.of_nat n) in *.
  rewrite (u64_small p), (u64_small (p + 1)), (u64_small (p + 1 + len)), (u64_small (p + 1 + len + 4)) by width.
  destruct (Z.ltb_spec (zlen bytes) (p + 1 + len + 4)); [by left|]. right.
  destruct (byte_at_eq bytes p) as [b ->]; [lia|]. rewrite !subspan_eq by lia. cbn [of_option mbind outcome_bind].
  exists b, len, (p + 1 + len + 4). split_and!; [lia|lia|done|].
  destruct (negb _); [by left|right]. eexists. split; [done|]. unfold zlen in *. rewrite length_take, length_drop. lia.
Qed.

(** ** The iteration *)

Definition listed (bytes : list Z) (seq : Z) (i : ChunkInfo) : Prop :=
  ∃ off, 0 <= off < zlen bytes ∧ info_ref i = mkRef seq (u32 off) ∧
    (parse_chunk bytes off = Err illegal_byte_sequence ∨
     ∃ data, parse_chunk bytes off = Ok (mkPayload (info_encoding i) data) ∧ zlen data = data_size i).

Lemma iterate_loop_ends fuel bytes seq off out :
  tame bytes → 0 <= off → zlen bytes <= off + Z.of_nat fuel → Forall (listed bytes seq) out →
  iterate_loop fuel bytes seq off out = Some (Err illegal_byte_sequence) ∨
  ∃ l, iterate_loop fuel bytes seq off out = Some (Ok l) ∧ Forall (listed bytes seq) l.
Proof.
  intros Ht. revert off out. induction fuel as [|fuel IH]; intros off out Hoff Hfuel Hout; cbn [iterate_loop];
    (destruct (Z.leb_spec (zlen bytes) off); [right; by exists out|]); [lia|].
  destruct (chunk_agree bytes off (tame_sized _ Ht) (tame_short _ _ Ht) ltac:(lia)) as [[_ ->]|(enc & size & next & Hnext & -> & Hparse)]; [by left|].
  apply IH; [lia|lia|]. apply Forall_app_2; [done|]. constructor; [|constructor]. exists off. split_and!; [lia|lia|done|done].
Qed.

(** ** The reader between calls *)

(** The readers that calls on [fs] lead to. *)
Inductive used (fs : gmap str (list Z)) : t → Prop :=
| used_open : used fs (ChunkReader.open fs)
| used_read r ref : used fs r → used fs (ChunkReader.read fs ref r).2
| used_iterate r seq : used fs r → used fs (iterate_segment fs seq r).2.

Definition cache_ok (fs : gmap str (list Z)) (r : t) : Prop :=
  length (segment_bytes_cache_ r) = length (segments_ r) ∧
  ∀ i b path, segment_bytes_cache_ r !! i = Some b → segments_ r !! i = Some path → b = [] ∨ fs !! path = Some b.

(** [bytes_for] is defined, gives a file of the directory, and is stable. *)
Lemma bytes_for_cases fs seq r :
  cache_ok fs r →
  cache_ok fs (bytes_for fs seq r).2 ∧
  ((∃ e, (bytes_for fs seq r).1 = Err e) ∨
   ∃ bytes path, (bytes_for fs seq r).1 = Ok bytes ∧ fs !! path = Some bytes ∧
     (bytes ≠ [] → bytes_for fs seq (bytes_for fs seq r).2 = (Ok bytes, (bytes_for fs seq r).2))).
Proof.
  intros [Hlen Hcache]. unfold bytes_for. destruct (segment_bytes_cache_ r !! Z.to_nat seq) as [[|b cached]|] eqn:Hb.
  - destruct (lookup_lt_is_Some_2 (segments_ r) (Z.to_nat seq)) as [path Hp]; [rewrite <- Hlen; by eapply lookup_lt_Some|].
    rewrite Hp. destruct (fs !! path) as [bytes|] eqn:Hf; [|split; [done|left; by eexists]]. cbn [fst snd segment_bytes_cache_ segments_].
    apply lookup_lt_Some in Hb as Hlt. split.
    + split; cbn [segment_bytes_cache_ segments_]; [by rewrite length_insert|]. intros i b p Hi Hpi.
      destruct (decide (i = Z.to_nat seq)) as [->|Hne]; [|rewrite list_lookup_insert_ne in Hi by done; by eapply Hcache].
      rewrite list_lookup_insert_eq in Hi by done. injection Hi as <-. right. by rewrite Hp in Hpi; injection Hpi as <-.
    + unfold check_header. repeat (destruct (_ : bool); [left; by eexists|]). right. exists bytes, path. split_and!; [done..|].
      intros Hne. rewrite list_lookup_insert_eq by done. by destruct bytes.
  - split; [done|]. right. destruct (lookup_lt_is_Some_2 (segments_ r) (Z.to_nat seq)) as [path Hp]; [rewrite <- Hlen; by eapply lookup_lt_Some|].
    exists (b :: cached), path. cbn [fst snd]. rewrite Hb. split_and!; [done| |done]. by destruct (Hcache _ _ _ Hb Hp).
  - split; [done|]. left. by eexists.
Qed.

Lemma used_cache fs r : used fs r → cache_ok fs r.
Proof.
  induction 1 as [|r ref _ IH|r seq _ IH].
  - split; [unfold ChunkReader.open; cbn [segment_bytes_cache_ segments_]; by rewrite length_replicate|].
    intros i b path Hb _. left. by apply lookup_replicate in Hb as [-> _].
  - destruct (bytes_for_cases fs (ref_seq ref) r IH) as [Hok _]. unfold ChunkReader.read, rbind.
    by destruct (bytes_for fs (ref_seq ref) r) as [[bytes|e|] r'].
  - destruct (bytes_for_cases fs seq r IH) as [Hok _]. unfold iterate_segment, rbind.
    by destruct (bytes_for fs seq r) as [[bytes|e|] r'].
Qed.

Lemma bytes_for_segments fs seq r : segments_ (bytes_for fs seq r).2 = segments_ r.
Proof.
  unfold bytes_for. destruct (segment_bytes_cache_ r !! _) as [[|b c]|]; [|done..].
  destruct (segments_ r !! _) as [path|]; [|done]. by destruct (fs !! path).
Qed.

(** The bytes come from the file that stands at that place in the listing. *)
Lemma bytes_for_path fs seq r bytes :
  cache_ok fs r → (bytes_for fs seq r).1 = Ok bytes →
  ∃ path, segments_ r !! Z.to_nat seq = Some path ∧ fs !! path = Some bytes.
Proof.
  intros [Hlen Hcache]. unfold bytes_for. destruct (segment_bytes_cache_ r !! Z.to_nat seq) as [c|] eqn:Hb; [|done].
  destruct (lookup_lt_is_Some_2 (segments_ r) (Z.to_nat seq)) as [path Hp]; [rewrite <- Hlen; by eapply lookup_lt_Some|].
  rewrite Hp. destruct c as [|b c].
  - destruct (fs !! path) as [bytes'|] eqn:Hf; [|done]. cbn [fst]. unfold check_header.
    repeat (destruct (_ : bool); [done|]). intros [= ->]. by exists path.
  - intros [= <-]. exists path. split; [done|]. by destruct (Hcache _ _ _ Hb Hp).
Qed.

(** The length of the chunk that [ref] points at, in the listing [paths] of the
    files [fs]. *)
Definition ref_fits (fs : gmap str (list Z)) (paths : list str) (ref : BlockChunkRef) : bool :=
  match paths !! Z.to_nat (ref_seq ref) with
  | Some path => match fs !! path with Some bytes => short_at bytes (ref_offset ref) | None => true end
  | None => true
  end.

Lemma read_safe fs r ref :
  (∀ path bytes, fs !! path = Some bytes → sized bytes) → ref_fits fs (segments_ r) ref = true →
  cache_ok fs r → 0 <= ref_offset ref →
  (ChunkReader.read fs ref r).1 ≠ UB ∧ cache_ok fs (ChunkReader.read fs ref r).2 ∧
    segments_ (ChunkReader.read fs ref r).2 = segments_ r.
Proof.
  intros Hsized Hfit Hr Hoff. unfold ChunkReader.read, rbind.
  destruct (bytes_for_cases fs (ref_seq ref) r Hr) as [Hr' Ho]. pose proof (bytes_for_segments fs (ref_seq ref) r) as Hsegs.
  pose proof (bytes_for_path fs (ref_seq ref) r) as Hpath.
  destruct (bytes_for fs (ref_seq ref) r) as [o r']; cbn [fst snd] in *.
  destruct Ho as [[e He]|(bytes & path' & Hb & _)]; subst o; [done|]. split; [|done].
  destruct (Hpath bytes Hr eq_refl) as (path & Hp & Hf). unfold ref_fits in Hfit. rewrite Hp, Hf in Hfit.
  destruct (Z.leb_spec (zlen bytes) (ref_offset ref)) as [Hle|Hlt].
  { unfold parse_chunk. by destruct (Z.leb_spec (zlen bytes) (ref_offset ref)); [|lia]. }
  destruct (chunk_agree bytes (ref_offset ref) (Hsized _ _ Hf) Hfit ltac:(lia)) as [[-> _]|(? & ? & ? & _ & _ & [->|(? & -> & _)])]; done.
Qed.

Lemma tame_ref_fits fs paths ref :
  (∀ path bytes, fs !! path = Some bytes → tame bytes) → ref_fits fs paths ref = true.
Proof.
  intros Htame. unfold ref_fits. destruct (paths !! _) as [path|]; [|done].
  destruct (fs !! path) as [bytes|] eqn:Hf; [|done]. by eapply tame_short, Htame.
Qed.

(** A segment with a chunk and a chunk whose checksum is wrong. *)
Definition damaged_segment : list Z := segment_header ++ frame 1 [7; 8] ++ [2; 1; 7; 8; 0; 0; 0; 0].

End ChunkSafeFacts.

Module ChunkSafeProps.
Import ChunkReader IndexSafeFacts ChunkSafeFacts.

(** C26: the chunk reader on any directory of segment files, hostile ones
    included, in which no varint is 2^62 or more. After any calls, [read] ends
    with a chunk or an error for every reference, without an access outside a
    file; [iterate_segment] ends as well, after no more rounds than the segment
    has bytes; and the chunks it lists in a segment of at most 4 GiB are those
    that [read] returns for their references, with the encoding and the size
    listed, where their checksums are right. *)
Theorem chunk_reader_in_bounds (fs : gmap str (list Z)) (r : ChunkReader.t) :
  (∀ path bytes, fs !! path = Some bytes → tame bytes) → used fs r →
  (∀ ref, 0 <= ref_offset ref → (ChunkReader.read fs ref r).1 ≠ UB) ∧
  ∀ seq,
    match iterate_segment fs seq r with
    | (Ok (Some infos), r') =>
        ∀ i, i ∈ infos → (∀ path bytes, fs !! path = Some bytes → zlen bytes <= 2 ^ 32) →
          (ChunkReader.read fs (info_ref i) r').1 = Err illegal_byte_sequence ∨
          ∃ data, (ChunkReader.read fs (info_ref i) r').1 = Ok (mkPayload (info_encoding i) data) ∧ zlen data = data_size i
    | (Ok None, _) | (UB, _) => False
    | (Err _, _) => True
    end.
Proof.
  intros Htame Hused%used_cache. split.
  - intros ref Hoff. apply read_safe; [|by apply tame_ref_fits|done..].
    intros path bytes Hf. by eapply tame_sized, Htame.
  - intros seq. unfold iterate_segment, rbind.
    destruct (bytes_for_cases fs seq r Hused) as [_ [[e He]|(bytes & path & Hb & Hp & Hstable)]];
      destruct (bytes_for fs seq r) as [o r']; cbn [fst snd] in *; subst o; [done|].
    destruct (iterate_loop_ends (length bytes) bytes seq k_chunks_segment_header_size [] (Htame _ _ Hp))
      as [->|(infos & -> & Hl)]; [done|unfold zlen, k_chunks_segment_header_size; lia|constructor|done|].
    intros i Hi Hsize. rewrite Forall_forall in Hl. destruct (Hl i Hi) as (off & Hoff & -> & Hparse).
    specialize (Hsize _ _ Hp). unfold ChunkReader.read, rbind. cbn [ref_seq ref_offset].
    unfold u32. rewrite Z.mod_small by lia. rewrite Hstable by (intros ->; unfold zlen in Hoff; cbn in Hoff; lia). cbn [fst]. exact Hparse.
Qed.

Lemma chunk_reader_in_bounds_witness :
  let fs := {[ format_chunk_name 1 := damaged_segment ]} : gmap str (list Z) in
  let r := (ChunkReader.read fs (mkRef 0 8) (ChunkReader.open fs)).2 in
  (ChunkReader.read fs (mkRef 0 8) (ChunkReader.open fs)).1 = Ok (mkPayload 1 [7; 8]) ∧
  match (iterate_segment fs 0 r).1 with Ok (Some infos) => length infos = 2%nat | _ => False end ∧
  (∀ ref, 0 <= ref_offset ref → (ChunkReader.read fs ref r).1 ≠ UB) ∧
  ∀ seq,
    match iterate_segment fs seq r with
    | (Ok (Some infos), r') =>
        ∀ i, i ∈ infos → (∀ path bytes, fs !! path = Some bytes → zlen bytes <= 2 ^ 32) →
          (ChunkReader.read fs (info_ref i) r').1 = Err illegal_byte_sequence ∨
          ∃ data, (ChunkReader.read fs (info_ref i) r').1 = Ok (mkPayload (info_encoding i) data) ∧ zlen data = data_size i
    | (Ok None, _) | (UB, _) => False
    | (Err _, _) => True
    end.
Proof.
  intros fs r. split; [vm_compute; reflexivity|]. split; [vm_compute; reflexivity|].
  apply (chunk_reader_in_bounds fs r).
  - intros path bytes [_ <-]%lookup_singleton_Some. split; [|vm_compute; split; reflexivity].
    apply (bool_decide_unpack (Forall (λ b, is_byte b = true) damaged_segment)). vm_compute. exact I.
  - apply used_read, used_open.
Defined.

End ChunkSafeProps.
