(* ===== verification/BlockSafe.v ===== *)
(** A whole block on arbitrary files: opening a directory and querying it. The
    readers of the index and of the chunks stay inside their files by
    [IndexSafe] and [ChunkSafe]; left are the series entries, whose times and
    references are sums that a hostile file can make overflow, and the way of an
    identifier from a posting list through the matchers to its entry.

    The conditions on the files are on the integers at the positions that a
    query can reach: the series entries are those the posting lists name, the
    chunks those the entries refer to. *)

From Stdlib Require Import String.
From S2P Require Import Prelude Ordered Sorted Files Varint Bytes Crc32c Labels Matcher Record BStream Xor Chunks Query Index IndexWriter Ulid Meta Block IndexSafe ChunkSafe.

(** * What the files may hold *)

(** The varints from [pos] on, one after the other, up to the first that cannot
    be read. *)
Fixpoint varints_from (fuel : nat) (p : list Z) (pos : Z) : list Z :=
  match fuel with
  | O => []
  | S fuel => match uvarint_at p pos with Ok (v, pos) => v :: varints_from fuel p pos | _ => [] end
  end.

Definition varints (p : list Z) : list Z := varints_from (length p) p 0.

(** The times and the references of [todo] chunks behind one that ends at [t0]
    and has the reference [ref]: no sum leaves the signed 64-bit integers. *)
Fixpoint chunk_sums_fit (todo t0 ref : Z) (vs : list Z) : bool :=
  if todo <=? 0 then true
  else
    match vs with
    | [] => true
    | mint_delta :: vs =>
        let mint := i64 mint_delta + t0 in
        is_i64 mint &&
        match vs with
        | [] => true
        | maxt_d :: vs =>
            let maxt := i64 maxt_d + mint in
            is_i64 maxt &&
            match vs with
            | [] => true
            | ref_delta :: vs =>
                is_i64 (ref + unzigzag ref_delta) && chunk_sums_fit (todo - 1) maxt (ref + unzigzag ref_delta) vs
            end
        end
    end.

(** The same for the part of a series entry behind its labels; the count of the
    chunks is one for which [reserve] does not throw. *)
Definition chunks_fit (vs : list Z) : bool :=
  match vs with
  | c :: t0 :: maxt_delta :: vs =>
      (c =? 0) ||
      (c <=? max_chunk_metas) && is_i64 (i64 maxt_delta + unzigzag t0) &&
      match vs with
      | ref0 :: vs => chunk_sums_fit (c - 1) (i64 maxt_delta + unzigzag t0) (i64 ref0) vs
      | [] => true
      end
  | c :: _ => c <=? max_chunk_metas
  | [] => true
  end.

(** A series entry: the count of its labels, two references for each, and the
    chunks. *)
Definition entry_fits (p : list Z) : bool :=
  match varints p with
  | k :: vs => (k <=? max_labels) && chunks_fit (drop (Z.to_nat (2 * k)) vs)
  | [] => true
  end.

Definition entry_refs (p : list Z) : list Z :=
  match varints p with k :: vs => take (Z.to_nat (2 * k)) vs | [] => [] end.

(** The series [id]: its length is less than 2^62, its entry fits, and in the
    first version of the format, where the symbol references are offsets, so do
    the lengths of the symbols. *)
Definition series_fits (r : IndexReader.t) (id : Z) : bool :=
  let data := IndexReader.data_ r in
  let v1 := IndexReader.version_ r =? k_index_format_v1 in
  let offset := if v1 then id else u64 (id * 16) in
  short_at data offset &&
  match read_uvarint_section_payload data offset with
  | Ok p => entry_fits p && (negb v1 || forallb (λ ref, short_at data (u32 ref)) (entry_refs p))
  | _ => true
  end.

(** The series that the posting lists name. *)
Definition listed_ids (r : IndexReader.t) : list Z :=
  PostingsOffsetTable.entries_ (IndexReader.postings_table_ r) ≫= λ e,
    match read_posting_list (IndexReader.data_ r) (pe_offset e) with Ok ids => ids | _ => [] end.

(** The lengths of the chunks of the series [id], in the files [fs]. *)
Definition series_chunks_fit (fs : gmap str (list Z)) (r : IndexReader.t) (id : Z) : bool :=
  match IndexReader.series r id with
  | Ok e =>
      forallb (λ cm, ChunkSafeFacts.ref_fits fs (ChunkReader.segments_ (ChunkReader.open fs)) (from_u64 (chunk_ref cm)))
        (se_chunks e)
  | _ => true
  end.

Definition queries_fit (data : list Z) (chunks : option (gmap str (list Z))) : bool :=
  match IndexReader.parse data with
  | Ok r =>
      forallb (λ id, series_fits r id && match chunks with Some fs => series_chunks_fit fs r id | None => true end)
        (listed_ids r)
  | _ => true
  end.

Module BlockSafeFacts.
Import BytesFacts IndexFacts IndexSafeFacts ChunkSafeFacts.

(** ** Series entries *)

Lemma varints_fuel f1 f2 p pos :
  zlen p < 2 ^ 62 → 0 <= pos <= zlen p → zlen p - pos <= Z.of_nat f1 → zlen p - pos <= Z.of_nat f2 →
  varints_from f1 p pos = varints_from f2 p pos.
Proof.
  intros Hlen. revert f2 pos. induction f1 as [|f1 IH]; intros [|f2] pos Hpos H1 H2; cbn [varints_from]; [done|..];
    (destruct (uvarint_at_cases p pos Hlen Hpos) as [->|(v & q & -> & Hq & _)]; [done|]); [lia|lia|].
  f_equal. apply IH; lia.
Qed.

Section Entry.
Context (p : list Z) (Hp : sized p).

(** The varints not read yet. *)
Definition ahead (pos : Z) : list Z := varints_from (Z.to_nat (zlen p - pos)) p pos.

Lemma next_varint pos :
  0 <= pos <= zlen p →
  (uvarint_at p pos = illegal ∧ varint_at p pos = illegal) ∨
  ∃ v q, uvarint_at p pos = Ok (v, q) ∧ varint_at p pos = Ok (unzigzag v, q) ∧ pos < q <= zlen p ∧ is_u64 v = true ∧
    ahead pos = v :: ahead q.
Proof.
  intros Hpos. destruct Hp as [_ Hlen]. destruct (uvarint_at_cases p pos Hlen Hpos) as [Hat|(v & q & Hat & Hq & Hu)].
  - left. split; [done|]. unfold varint_at, uvarint_at in *. rewrite subspan_from_eq in * by done. cbn [of_option mbind outcome_bind] in *.
    unfold read_varint. by destruct (read_uvarint _) as [[ux n]|e|].
  - right. exists v, q. split; [done|]. split; [|split; [done|split; [done|]]].
    + unfold varint_at, uvarint_at in *. rewrite subspan_from_eq in * by done. cbn [of_option mbind outcome_bind] in *.
      unfold read_varint. destruct (read_uvarint _) as [[ux n]|e|]; [|done..]. by injection Hat as -> <-.
    + unfold ahead. destruct (Z.to_nat (zlen p - pos)) as [|f] eqn:Hf; [lia|]. cbn [varints_from]. rewrite Hat.
      f_equal. apply varints_fuel; [done|lia..].
Qed.

#[local] Ltac next pos v q :=
  let Hat := fresh in let Hvat := fresh in
  destruct (next_varint pos ltac:(lia)) as [[Hat Hvat]|(v & q & Hat & Hvat & ? & ? & ?)];
  rewrite ?Hat, ?Hvat; cbn [mbind outcome_bind].

Lemma label_refs_defined symbols fuel todo pos labels :
  (∀ x, x ∈ take (Z.to_nat (2 * todo)) (ahead pos) → IndexSymbolTable.lookup symbols (u32 x) ≠ UB) →
  0 <= pos <= zlen p → zlen p < pos + Z.of_nat fuel →
  decode_label_refs fuel todo p symbols pos labels = illegal ∨
  ∃ ls q, decode_label_refs fuel todo p symbols pos labels = Ok (ls, q) ∧ pos <= q <= zlen p ∧
    ahead q = drop (Z.to_nat (2 * todo)) (ahead pos).
Proof.
  revert todo pos labels. induction fuel as [|fuel IH]; intros todo pos labels Hl Hpos Hfuel; [lia|].
  cbn [decode_label_refs]. destruct (Z.leb_spec todo 0) as [Hz|Htodo].
  { right. exists labels, pos. split_and!; [done|lia|lia|]. by replace (Z.to_nat (2 * todo)) with 0%nat by lia. }
  next pos lno q1; [by left|]. next q1 lvo q2; [by left|].
  replace (Z.to_nat (2 * todo)) with (S (S (Z.to_nat (2 * (todo - 1))))) in * by lia.
  match goal with H1 : ahead pos = _, H2 : ahead q1 = _ |- _ => rewrite H1, H2 in * end. cbn [take drop] in *.
  pose proof (Hl lno ltac:(by left)) as Hn. pose proof (Hl lvo ltac:(by right; left)) as Hv.
  destruct (IndexSymbolTable.lookup symbols (u32 lno)) as [n|e|]; [|left|done];
    destruct (IndexSymbolTable.lookup symbols (u32 lvo)) as [v|e'|]; try done; [|by left].
  destruct (IH (todo - 1) q2 (labels ++ [mkLabel n v])) as [->|(ls & q & -> & Hq & Hahead)]; [|lia|lia|by left|].
  - intros x Hx. apply Hl. by do 2 right.
  - right. exists ls, q. split_and!; [done|lia|lia|done].
Qed.

Lemma i64_add_fits a b : is_i64 (a + b) = true → i64_add a b = Some (a + b).
Proof. intros Hs. unfold i64_add, i64_checked. by rewrite Hs. Qed.

Lemma chunk_metas_defined fuel todo pos t0 ref chunks :
  0 <= pos <= zlen p → zlen p < pos + Z.of_nat fuel → chunk_sums_fit todo t0 ref (ahead pos) = true →
  decode_chunk_metas fuel todo p pos t0 ref chunks ≠ UB.
Proof.
  revert todo pos t0 ref chunks. induction fuel as [|fuel IH]; intros todo pos t0 ref chunks Hpos Hfuel Hfit; [lia|].
  cbn [decode_chunk_metas]. destruct (ahead pos) as [|md vs] eqn:Hahead.
  { destruct (todo <=? 0); [done|]. next pos v q; [done|congruence]. }
  cbn [chunk_sums_fit] in Hfit. destruct (todo <=? 0); [done|]. apply andb_prop in Hfit as [Hmint Hfit].
  next pos md' q1; [done|]. assert (md' = md ∧ ahead q1 = vs) as [-> Hvs] by (split; congruence). rewrite <- Hvs in *.
  rewrite i64_add_fits by done. cbn [of_option mbind outcome_bind].
  next q1 xd q2; [done|]. match goal with H : ahead q1 = _ |- _ => rewrite H in Hfit end. apply andb_prop in Hfit as [Hmaxt Hfit].
  rewrite i64_add_fits by done. cbn [of_option mbind outcome_bind].
  next q2 rdelta q3; [done|]. match goal with H : ahead q2 = _ |- _ => rewrite H in Hfit end. apply andb_prop in Hfit as [Href Hfit].
  rewrite i64_add_fits by done. cbn [of_option mbind outcome_bind]. apply IH; [lia|lia|done].
Qed.

Lemma ahead_0 : ahead 0 = varints p.
Proof. unfold ahead, varints. f_equal. unfold zlen. lia. Qed.

Lemma series_payload_defined symbols :
  entry_fits p = true → (∀ x, x ∈ entry_refs p → IndexSymbolTable.lookup symbols (u32 x) ≠ UB) →
  decode_series_payload p symbols ≠ UB.
Proof.
  unfold entry_fits, entry_refs, decode_series_payload. rewrite <- ahead_0. intros Hfit Hl. pose proof (zlen_nonneg p) as Hlen.
  next 0 k q1; [done|]. match goal with H : ahead 0 = _ |- _ => rewrite H in * end. apply andb_prop in Hfit as [Hk Hfit].
  destruct (Z.ltb_spec max_labels k) as [Hbig|_]; [lia|].
  destruct (label_refs_defined symbols (S (length p)) k q1 [] Hl) as [->|(ls & q2 & -> & Hq2 & Hahead)]; [lia|unfold zlen; lia|done|].
  cbn [mbind outcome_bind]. rewrite <- Hahead in Hfit. unfold chunks_fit in Hfit.
  next q2 c q3; [done|]. match goal with H : ahead q2 = _ |- _ => rewrite H in Hfit end.
  destruct (Z.eqb_spec c 0) as [->|Hc]; [done|].
  assert (c <= max_chunk_metas) as Hmax.
  { destruct (ahead q3) as [|t0 [|d vs]]; [lia..|]. cbn [orb] in Hfit. apply andb_prop in Hfit as [[Hm _]%andb_prop _]. lia. }
  destruct (Z.ltb_spec max_chunk_metas c) as [Hbig|_]; [lia|].
  next q3 t0 q4; [done|]. next q4 d q5; [done|].
  match goal with H1 : ahead q3 = _, H2 : ahead q4 = _ |- _ => rewrite H1, H2 in Hfit end.
  cbn [orb] in Hfit. apply andb_prop in Hfit as [[_ Ht]%andb_prop Hfit].
  rewrite i64_add_fits by done. cbn [of_option mbind outcome_bind].
  next q5 ref0 q6; [done|]. match goal with H : ahead q5 = _ |- _ => rewrite H in Hfit end.
  pose proof (chunk_metas_defined (S (length p)) (c - 1) q6 (i64 d + unzigzag t0) (i64 ref0)
    [mkChunkMeta (unzigzag t0) (i64 d + unzigzag t0) ref0]) as Hchunks.
  destruct (decode_chunk_metas _ _ _ _ _ _ _); [done..|]. exfalso. apply Hchunks; [lia|unfold zlen; lia|done|done].
Qed.

End Entry.

(** ** Index files *)

Lemma usection_cases data offset :
  sized data → 0 <= offset → short_at data offset = true →
  read_uvarint_section_payload data offset = illegal ∨
  ∃ p, read_uvarint_section_payload data offset = Ok p ∧ sized p.
Proof.
  intros Ht Hoff Hs. pose proof Ht as [_ Hlen]. unfold read_uvarint_section_payload. destruct (Z.leb_spec (zlen data) offset); [by left|].
  destruct (short_cases data offset Ht Hs ltac:(lia)) as [->|(len & off & -> & Hp & Hl)]; [by left|]. cbn [mbind outcome_bind].
  destruct (checked_payload_cases data off len) as [->|(p & -> & Hsub & _)]; [lia|lia|lia|by left|]. right. exists p. split; [done|]. by eapply sized_sub.
Qed.

(** Identifiers read from the posting lists. *)
Definition gives_ids (ids : list Z) (o : outcome error_code (list Z)) : Prop :=
  match o with Ok l => Forall (.∈ ids) l | Err _ => True | UB => False end.

(** An index on which queries are defined: they lead to series in [ids]. *)
Definition index_safe (ids : list Z) (idx : IndexReader.t) : Prop :=
  (∀ n v, gives_ids ids (IndexReader.postings idx n v)) ∧ (∀ n, gives_ids ids (IndexReader.postings_for_name idx n)) ∧
  gives_ids ids (IndexReader.all_postings idx) ∧ ∀ id, id ∈ ids → IndexReader.series idx id ≠ UB.

Lemma gives_bind ids o f :
  gives_ids ids o → (∀ l, Forall (.∈ ids) l → gives_ids ids (f l)) → gives_ids ids (o ≫= f).
Proof. destruct o; cbn; auto. Qed.

Lemma listed_nonneg idx id : bytes_ok (IndexReader.data_ idx) → id ∈ listed_ids idx → 0 <= id.
Proof.
  intros Hok (e & Hid & _)%list_elem_of_bind. unfold read_posting_list, read_section_payload, checked_payload in Hid.
  destruct (_ <? _); [by apply elem_of_nil in Hid|]. destruct (of_option _) as [pre|e1|]; [|by apply elem_of_nil in Hid..].
  cbn [mbind outcome_bind] in Hid. destruct (_ <? _); [by apply elem_of_nil in Hid|].
  destruct (subspan _ _ (read_be32 pre)) as [p|] eqn:Hs; [|by apply elem_of_nil in Hid]. cbn [of_option mbind outcome_bind] in Hid.
  destruct (of_option _) as [crc|e1|]; [|by apply elem_of_nil in Hid..]. cbn [mbind outcome_bind] in Hid.
  destruct (negb _); [by apply elem_of_nil in Hid|]. cbn [mbind outcome_bind] in Hid.
  destruct (_ <? 4); [by apply elem_of_nil in Hid|]. destruct (_ <? _); [by apply elem_of_nil in Hid|].
  apply list_elem_of_fmap in Hid as (i & -> & _). apply read_be32_nonneg. apply Forall_take, Forall_drop. by eapply subspan_ok.
Qed.

Section Parsed.
Context (data : list Z) (Hsized : sized data) (idx : IndexReader.t).
Context (Hdata : IndexReader.data_ idx = data) (es : list PostingsOffsetEntry).
Context (Hes : IndexReader.postings_table_ idx = PostingsOffsetTable.new es) (Hoffs : Forall offset_ok es).

Lemma list_ids e : e ∈ es → gives_ids (listed_ids idx) (read_posting_list data (pe_offset e)).
Proof.
  intros He. rewrite Forall_forall in Hoffs. pose proof (posting_list_defined data (pe_offset e) Hsized (Hoffs e He)) as Hdef.
  destruct (read_posting_list data (pe_offset e)) as [l|err|] eqn:Hl; [|done..]. apply Forall_forall. intros id Hid.
  unfold listed_ids. rewrite Hes, Hdata. apply list_elem_of_bind. exists e. by rewrite Hl.
Qed.

Lemma pair_offset n v off :
  PostingsOffsetTable.lookup (PostingsOffsetTable.new es) n v = Some off → ∃ e, e ∈ es ∧ pe_offset e = off.
Proof.
  unfold PostingsOffsetTable.lookup, PostingsOffsetTable.new. cbn [PostingsOffsetTable.by_pair_]. generalize (PostingsOffsetTable.pair_key n v). intros key.
  assert (∀ l (m : gmap str Z), (∀ e, e ∈ l → e ∈ es) → (∀ k x, m !! k = Some x → ∃ e, e ∈ es ∧ pe_offset e = x) →
    ∀ k x, foldl (λ m e, let key := PostingsOffsetTable.pair_key (pe_name e) (pe_value e) in
      match m !! key with Some _ => m | None => <[key := pe_offset e]> m end) m l !! k = Some x →
    ∃ e, e ∈ es ∧ pe_offset e = x) as Hfold; [|by apply (Hfold es ∅); [done|intros k x; by rewrite lookup_empty]].
  induction l as [|e l IH]; intros m Hin Hm k x; cbn [foldl]; [apply Hm|]. apply IH; [intros e' He'; apply Hin; by right|].
  clear k x. intros k x. cbn zeta. destruct (m !! PostingsOffsetTable.pair_key _ _); [apply Hm|].
  intros [[_ <-]|[_ Hk]]%lookup_insert_Some; [|by eapply Hm]. exists e. split; [apply Hin; by left|done].
Qed.

Lemma collect_ids keep l :
  (∀ e, e ∈ l → e ∈ es) → gives_ids (listed_ids idx) (IndexReader.collect keep data l).
Proof.
  induction l as [|e l IH]; intros Hin; [by constructor|]. specialize (IH ltac:(intros e' He'; apply Hin; by right)).
  cbn [IndexReader.collect]. destruct (keep e); [|done]. apply gives_bind; [apply list_ids, Hin; by left|].
  intros ids Hids. apply gives_bind; [done|]. intros rest Hrest. by apply Forall_app_2.
Qed.

End Parsed.

Lemma sort_unique_ids (ids l : list Z) : Forall (.∈ ids) l → Forall (.∈ ids) (sort_unique Z.ltb l).
Proof. rewrite !Forall_forall. intros Hids id Hid. by apply Hids, (sort_unique_spec Z.ltb). Qed.

(** A series entry that fits is decoded. *)
Lemma series_defined data idx id :
  sized data → IndexReader.data_ idx = data → table_ok data (IndexReader.symbols_ idx) →
  IndexSymbolTable.version_ (IndexReader.symbols_ idx) = IndexReader.version_ idx →
  0 <= id → series_fits idx id = true → IndexReader.series idx id ≠ UB.
Proof.
  intros Ht Hdata Htab Hver Hid. unfold series_fits, IndexReader.series. cbn zeta. rewrite Hdata. set (offset := if _ =? _ then _ else _).
  assert (0 <= offset) as Hoff by (unfold offset; destruct (_ =? _); [done|unfold u64; by apply Z.mod_pos_bound]).
  intros [Hs Hfit]%andb_prop. destruct (usection_cases data offset Ht Hoff Hs) as [->|(p & Hread & Hp)]; [done|].
  rewrite Hread in *. cbn [mbind outcome_bind]. apply andb_prop in Hfit as [Hfit Hv1].
  apply series_payload_defined; [done|done|]. intros x Hx. apply (lookup_defined data); [done|done|unfold u32; by apply Z.mod_pos_bound|].
  rewrite Hver. intros Hv. rewrite Hv, Z.eqb_refl in Hv1. cbn [negb orb] in Hv1. rewrite forallb_forall in Hv1.
  by apply Hv1, list_elem_of_In.
Qed.

Lemma parse_versions data r :
  IndexReader.parse data = Ok r → IndexSymbolTable.version_ (IndexReader.symbols_ r) = IndexReader.version_ r.
Proof.
  unfold IndexReader.parse. destruct (_ <? _); [done|]. destruct (negb _); [done|]. destruct (_ && _); [done|].
  destruct (parse_toc data) as [t|e|]; [|done..]. cbn [mbind outcome_bind]. unfold IndexSymbolTable.parse.
  destruct (read_section_payload data _) as [p|e|]; [|done..]. cbn [mbind outcome_bind]. destruct (_ <? 4); [done|].
  destruct (IndexSymbolTable.parse_loop _ _ _ _ _ _) as [o|e|]; [|done..]. cbn [mbind outcome_bind].
  destruct (PostingsOffsetTable.parse _ _) as [tb|e|]; [|done..]. by intros [= <-].
Qed.

Lemma parse_safe data chunks :
  sized data → opens_fit data = true → queries_fit data chunks = true →
  match IndexReader.parse data with Ok idx => index_safe (listed_ids idx) idx | Err _ => True | UB => False end.
Proof.
  intros Ht Hfit Hq. unfold queries_fit in Hq.
  destruct (parse_cases data Ht Hfit) as [[e ->]|(r & Hr & (Hdata & Htable & es & Hes & Hoffs))]; [done|].
  pose proof (parse_versions data r Hr) as Hver. rewrite Hr in *. split_and!.
  - intros n v. unfold IndexReader.postings. rewrite Hes, Hdata.
    destruct (PostingsOffsetTable.lookup _ n v) as [off|] eqn:Hl; [|by constructor].
    apply pair_offset in Hl as (e & He & <-). by apply (list_ids data Ht r Hdata es).
  - intros n. unfold IndexReader.postings_for_name. rewrite Hes, Hdata. apply gives_bind; [|apply sort_unique_ids].
    by apply (collect_ids data Ht r Hdata es).
  - unfold IndexReader.all_postings. rewrite Hes, Hdata. apply gives_bind; [|apply sort_unique_ids].
    by apply (collect_ids data Ht r Hdata es).
  - intros id Hid. rewrite forallb_forall in Hq. pose proof (Hq id) as Hidfit. rewrite <- list_elem_of_In in Hidfit.
    apply Hidfit in Hid as Hboth. apply andb_prop in Hboth as [Hsf _].
    apply (series_defined data); [done..| |done]. apply (listed_nonneg r); [|done]. rewrite Hdata. apply Ht.
Qed.

(** ** Matchers *)

Lemma intersection_ids (ids : list Z) fuel a b : Forall (.∈ ids) a → Forall (.∈ ids) (set_intersection_loop Z.ltb fuel a b).
Proof.
  revert a b. induction fuel as [|fuel IH]; intros a b Ha; [by constructor|]. cbn [set_intersection_loop].
  destruct a as [|x a]; [by constructor|]. destruct b as [|y b]; [by constructor|]. apply Forall_cons_1 in Ha as [Hx Ha].
  destruct (x <? y); [by apply IH|]. destruct (y <? x); [apply IH|]; constructor; auto.
Qed.

Lemma difference_ids (ids : list Z) fuel a b : Forall (.∈ ids) a → Forall (.∈ ids) (set_difference_loop Z.ltb fuel a b).
Proof.
  revert a b. induction fuel as [|fuel IH]; intros a b Ha; [done|]. cbn [set_difference_loop].
  destruct a as [|x a]; [by constructor|]. destruct b as [|y b]; [done|]. apply Forall_cons_1 in Ha as [Hx Ha].
  destruct (x <? y); [constructor; auto|]. destruct (y <? x); apply IH; [by constructor|done].
Qed.

Section Queries.
Context `{RegexEngine} (sids : list Z) (idx : IndexReader.t) (Hidx : index_safe sids idx).

Lemma without_ids n : gives_ids sids (postings_without idx n).
Proof.
  destruct Hidx as (_ & Hname & Hall & _). unfold postings_without. apply gives_bind; [done|]. intros all Ha.
  apply gives_bind; [done|]. intros with_ _. by apply difference_ids.
Qed.

Lemma of_values_ids n f vs : gives_ids sids (postings_of_values idx n f vs).
Proof.
  induction vs as [|v vs IH]; [by constructor|]. cbn [postings_of_values]. destruct (negb (f v)); [done|].
  apply gives_bind; [apply Hidx|]. intros ids Hids. apply gives_bind; [done|]. intros rest Hrest. by apply Forall_app_2.
Qed.

Lemma accepted_ids n f : gives_ids sids (postings_accepted idx n f).
Proof.
  unfold postings_accepted. apply gives_bind; [apply of_values_ids|]. intros out Hout.
  apply gives_bind; [destruct (f []); [apply without_ids|by constructor]|]. intros rest Hrest. by apply sort_unique_ids, Forall_app_2.
Qed.

Lemma matcher_ids m : gives_ids sids (postings_for_matcher idx m).
Proof.
  pose proof Hidx as (Hpair & Hname & Hall & _). unfold postings_for_matcher. destruct (Matcher.type_ m).
  - case_bool_decide; [apply without_ids|apply Hpair].
  - case_bool_decide; [apply Hname|]. apply gives_bind; [done|]. intros all Ha. apply gives_bind; [done|]. intros eq _. by apply difference_ids.
  - apply accepted_ids.
  - apply gives_bind; [apply accepted_ids|]. intros matching _. apply gives_bind; [done|]. intros all Ha. by apply difference_ids.
Qed.

Lemma intersect_ids ms ids : Forall (.∈ sids) ids → gives_ids sids (intersect_matchers idx ms ids).
Proof.
  revert ids. induction ms as [|m ms IH]; intros ids Hids; [done|]. cbn [intersect_matchers]. destruct ids as [|id ids]; [done|].
  apply gives_bind; [apply matcher_ids|]. intros next _. by apply IH, intersection_ids.
Qed.

(** ** Reading what the matchers select *)

Context (fs : gmap str (list Z)) (Hsized : ∀ path bytes, fs !! path = Some bytes → sized bytes).
Context (Hchunks : ∀ id, id ∈ sids → series_chunks_fit fs idx id = true).

(** A block with this index, whose chunk reader caches files of [fs]. *)
Definition kept (b : Block.t) : Prop :=
  Block.index_ b = idx ∧ cache_ok fs (Block.chunks_ b) ∧
  ChunkReader.segments_ (Block.chunks_ b) = ChunkReader.segments_ (ChunkReader.open fs).

(** A chunk whose length fits. *)
Definition cm_fits (cm : ChunkMeta) : Prop :=
  ref_fits fs (ChunkReader.segments_ (ChunkReader.open fs)) (from_u64 (chunk_ref cm)) = true.

Definition safe {A} (m : Block.M A) : Prop := ∀ b, kept b → (m b).1 ≠ UB ∧ kept (m b).2.

Lemma safe_ret {A} (a : A) : safe (rret a).
Proof. by intros b Hb. Qed.

Lemma safe_bind {A C} (m : Block.M A) (k : A → Block.M C) : safe m → (∀ a, safe (k a)) → safe (rbind m k).
Proof.
  intros Hm Hk b Hb. destruct (Hm b Hb) as [Ho Hb']. unfold rbind. destruct (m b) as [[a|e|] b']; cbn [fst snd] in *; [by apply Hk|done..].
Qed.

Lemma safe_read_xor cm : cm_fits cm → safe (Block.read_xor fs cm).
Proof.
  intros Hcm b (Hi & Hc & Hs). unfold Block.read_xor. unfold cm_fits in Hcm. rewrite <- Hs in Hcm.
  pose proof (read_safe fs (Block.chunks_ b) (from_u64 (chunk_ref cm)) Hsized Hcm Hc) as Hread.
  destruct (ChunkReader.read fs (from_u64 (chunk_ref cm)) (Block.chunks_ b)) as [o r]. cbn [fst snd] in *.
  destruct Hread as (Ho & Hr & Hsegs); [unfold from_u64, u32; by apply Z.mod_pos_bound|].
  split; [|split; [done|split; [done|]]; by rewrite <- Hs].
  destruct o as [payload|e|]; [by destruct (negb _)|done..].
Qed.

Lemma safe_select_chunks mint maxt cms : Forall cm_fits cms → safe (select_chunks fs mint maxt cms).
Proof.
  induction 1 as [|cm cms Hcm _ IH]; [apply safe_ret|]. cbn [select_chunks]. destruct (_ || _); [done|].
  apply safe_bind; [by apply safe_read_xor|]. intros xc. apply safe_bind; [done|]. intros rest. apply safe_ret.
Qed.

Lemma safe_read_all cms : Forall cm_fits cms → safe (read_all_chunks fs cms).
Proof.
  induction 1 as [|cm cms Hcm _ IH]; [apply safe_ret|]. cbn [read_all_chunks].
  apply safe_bind; [by apply safe_read_xor|]. intros xc. apply safe_bind; [done|]. intros rest. apply safe_ret.
Qed.

(** Going on with the entry of a series that a posting list names. *)
Lemma safe_entry {A} id (k : SeriesEntry → Block.M A) :
  id ∈ sids → (∀ se, Forall cm_fits (se_chunks se) → safe (k se)) → safe (rbind (series_entry id) k).
Proof.
  intros Hid Hk b Hb. pose proof Hb as (Hi & _). unfold rbind, series_entry. rewrite Hi.
  destruct Hidx as (_ & _ & _ & Hseries). specialize (Hseries id Hid). specialize (Hchunks id Hid). unfold series_chunks_fit in Hchunks.
  destruct (IndexReader.series idx id) as [se|e|]; [|done..]. apply Hk; [|done].
  apply Forall_forall. intros cm Hcm. rewrite forallb_forall in Hchunks. unfold cm_fits.
  specialize (Hchunks cm). apply Hchunks. by rewrite <- list_elem_of_In.
Qed.

Lemma safe_select_ids mint maxt ids : Forall (.∈ sids) ids → safe (select_ids fs mint maxt ids).
Proof.
  induction 1 as [|id ids Hid _ IH]; [apply safe_ret|]. cbn [select_ids]. apply safe_entry; [done|]. intros se Hse.
  apply safe_bind; [by apply safe_select_chunks|]. intros found. apply safe_bind; [done|]. intros rest. apply safe_ret.
Qed.

Lemma safe_query_ids ids : Forall (.∈ sids) ids → safe (query_ids fs ids).
Proof.
  induction 1 as [|id ids Hid _ IH]; [apply safe_ret|]. cbn [query_ids]. apply safe_entry; [done|]. intros se Hse.
  apply safe_bind; [by apply safe_read_all|]. intros xcs. apply safe_bind; [done|]. intros rest. apply safe_ret.
Qed.

(** Continuing with the identifiers that the index gives. *)
Lemma safe_ids {A} (o : outcome error_code (list Z)) (k : list Z → Block.M A) :
  gives_ids sids o → (∀ ids, Forall (.∈ sids) ids → safe (k ids)) →
  safe (λ b, match o with Ok ids => k ids b | Err e => (Err e, b) | UB => (UB, b) end).
Proof. intros Ho Hk b Hb. destruct o as [ids|e|]; [by apply Hk|done..]. Qed.

Lemma safe_select ms mint maxt b : kept b → (select fs ms mint maxt b).1 ≠ UB ∧ kept (select fs ms mint maxt b).2.
Proof.
  intros Hb. unfold select. destruct ms as [|m ms]; [done|]. pose proof Hb as [-> _].
  apply (safe_ids _ (select_ids fs mint maxt)); [|intros ids; apply safe_select_ids|done].
  apply gives_bind; [apply matcher_ids|]. intros ids. apply intersect_ids.
Qed.

Lemma safe_query n v b : kept b → (query fs n v b).1 ≠ UB ∧ kept (query fs n v b).2.
Proof.
  intros Hb. unfold query. pose proof Hb as [-> _].
  apply (safe_ids _ (query_ids fs)); [apply Hidx|intros ids; apply safe_query_ids|done].
Qed.

End Queries.

(** ** Directories *)

#[export] Instance sized_dec bytes : Decision (sized bytes).
Proof. unfold sized, bytes_ok. apply _. Defined.

(** A directory that may be hostile: its files may hold any bytes, as long as
    - the lengths and offsets that opening and querying read, of the symbols, of
      the rows of the postings offset table, of the series entries that the
      posting lists name and of the chunks that those entries refer to, are less
      than 2^62;
    - in those entries no time and no reference, a sum of the varints there,
      overflows, and [reserve] accepts the counts. *)
Definition bounded_dir (b : BlockDir) : Prop :=
  match dir_files b !! k_index_filename with
  | Some data => sized data ∧ opens_fit data = true ∧ queries_fit data (dir_chunks b) = true
  | None => True
  end ∧
  match dir_chunks b with Some fs => map_Forall (λ _ bytes, sized bytes) fs | None => True end.

#[export] Instance bounded_dir_dec b : Decision (bounded_dir b).
Proof. unfold bounded_dir. apply and_dec; [destruct (dir_files b !! _)|destruct (dir_chunks b)]; apply _. Defined.

(** The blocks that opening and querying lead to. *)
Inductive visited `{RegexEngine} `{Json} (dir : str) (d : Disk) (fs : gmap str (list Z)) : Block.t → Prop :=
| visited_open b : Block.open dir d = Ok b → visited dir d fs b
| visited_select b ms mint maxt : visited dir d fs b → visited dir d fs (select fs ms mint maxt b).2
| visited_query b n v : visited dir d fs b → visited dir d fs (query fs n v b).2.

Lemma read_meta_defined `{Json} fs : read_meta fs ≠ UB.
Proof.
  unfold read_meta, decode_meta_json, from_json. destruct (fs !! _); [|done]. destruct (parse _); [|done].
  destruct (load_if_present _ _ _ _); [|done]. destruct (negb _); [done|]. by destruct (load_meta _ _).
Qed.

Lemma open_cases `{Json} dir d b0 :
  dirs d !! dir = Some b0 → bounded_dir b0 →
  (∃ e, Block.open dir d = Err e) ∨
  ∃ b fs, Block.open dir d = Ok b ∧ dir_chunks b0 = Some fs ∧ index_safe (listed_ids (Block.index_ b)) (Block.index_ b) ∧
    (∀ id, id ∈ listed_ids (Block.index_ b) → series_chunks_fit fs (Block.index_ b) id = true) ∧
    Block.chunks_ b = ChunkReader.open fs.
Proof.
  intros Hd [Hindex _]. unfold Block.open, IndexReader.open. rewrite Hd.
  pose proof (read_meta_defined (dir_files b0)) as Hmeta. destruct (read_meta (dir_files b0)) as [meta|e|]; [|left; by exists e|done].
  cbn [mbind outcome_bind]. destruct (dir_files b0 !! k_index_filename) as [data|]; [|left; by eexists].
  destruct Hindex as (Ht & Hfit & Hq). pose proof (parse_safe data _ Ht Hfit Hq) as Hsafe. unfold queries_fit in Hq.
  destruct (IndexReader.parse data) as [idx|e|]; [|left; by exists e|done].
  unfold Block.open_chunks. cbn [mbind outcome_bind]. destruct (dir_chunks b0) as [fs|]; [right|left; by eexists].
  eexists _, fs. split_and!; [done|done|done| |done]. intros id Hid. cbn [Block.index_] in *. rewrite forallb_forall in Hq.
  specialize (Hq id). rewrite <- list_elem_of_In in Hq. by apply Hq in Hid as [_ Hfs]%andb_prop.
Qed.

(** What a block that was opened keeps under queries. *)
Lemma visited_kept `{RegexEngine} `{Json} dir d b0 fs b :
  dirs d !! dir = Some b0 → bounded_dir b0 → dir_chunks b0 = Some fs → visited dir d fs b →
  ∃ idx, index_safe (listed_ids idx) idx ∧ (∀ id, id ∈ listed_ids idx → series_chunks_fit fs idx id = true) ∧ kept idx fs b.
Proof.
  intros Hd Hh Hfs. pose proof Hh as [_ Hsized]. rewrite Hfs in Hsized.
  induction 1 as [b Hopen|b ms mint maxt _ (idx & Hidx & Hc & Hb)|b n v _ (idx & Hidx & Hc & Hb)].
  - destruct (open_cases dir d b0 Hd Hh) as [[e He]|(b' & fs' & Hb & Hfs' & Hsafe & Hch & Hc)]; [congruence|].
    rewrite Hb in Hopen. injection Hopen as ->. rewrite Hfs in Hfs'. injection Hfs' as <-. exists (Block.index_ b).
    split_and!; [done..|]. unfold kept. rewrite Hc. split_and!; [done|apply used_cache, used_open|done].
  - exists idx. split_and!; [done..|]. by apply (safe_select (listed_ids idx) idx Hidx fs Hsized Hc ms mint maxt b).
  - exists idx. split_and!; [done..|]. by apply (safe_query (listed_ids idx) idx Hidx fs Hsized Hc n v b).
Qed.

End BlockSafeFacts.

Module BlockSafeProps.
Import FilesFacts BytesFacts IndexSafeFacts ChunkSafeFacts BlockSafeFacts TreeJson.

(** C24: memory safety of blocks. In any directory, hostile ones included,
    whose lengths and offsets are less than 2^62 where opening and querying read
    them, and in whose series entries no sum of times or references overflows,
    [Block::open] ends with a block or an error; and whatever was asked of the
    block before, every [select] and every [query] ends with a result or an
    error, without an access outside a file, a signed overflow or an uncaught
    exception, whatever lengths, counts, references and offsets the files
    hold. *)
Theorem block_in_bounds `{RegexEngine} `{Json} (dir : str) (d : Disk) (files : BlockDir) :
  dirs d !! dir = Some files → bounded_dir files →
  Block.open dir d ≠ UB ∧
  ∀ fs b, dir_chunks files = Some fs → visited dir d fs b →
    (∀ ms mint maxt, (select fs ms mint maxt b).1 ≠ UB) ∧ ∀ n v, (query fs n v b).1 ≠ UB.
Proof.
  intros Hd Hh. split.
  - by destruct (open_cases dir d files Hd Hh) as [[e ->]|(b & fs & -> & _)].
  - intros fs b Hfs Hv. destruct (visited_kept dir d files fs b Hd Hh Hfs Hv) as (idx & Hidx & Hc & Hb).
    destruct Hh as [_ Hsized]. rewrite Hfs in Hsized. split.
    + intros ms mint maxt. by apply (safe_select (listed_ids idx) idx Hidx fs Hsized Hc).
    + intros n v. by apply (safe_query (listed_ids idx) idx Hidx fs Hsized Hc).
Qed.

#[local] Instance exact_engine : RegexEngine := {| std_regex := str; regex_compile := Some; regex_match p s := bool_decide (p = s) |}.

(** The directory of a new block. *)
Definition created (series : list SeriesInput) : BlockDir :=
  default (mkDir ∅ None) (dirs (create_from_series 0 [] series (mkDisk ∅ [])).2 !! new_ulid 0 []).

(** A label value of twelve bytes above 127, which is Cyrillic text. *)
Definition cyrillic : str := [208; 191; 209; 128; 208; 184; 208; 178; 208; 181; 209; 130].

(** A block of two series, one of them with times in milliseconds; its chunk
    segment is replaced by one in which the second chunk has a wrong checksum. *)
Definition sample_dir : BlockDir :=
  mkDir (dir_files (created [mkSeriesInput [mkLabel [97] cyrillic] [mkChunkInput 5 9 [7; 8]];
                             mkSeriesInput [mkLabel [98] [99]] [mkChunkInput 1700000000000 1700003600000 [7; 8]]]))
    (Some {[ format_chunk_name 1 := damaged_segment ]}).
Definition sample_disk : Disk := mkDisk {[ [97] := sample_dir ]} [].

Lemma block_in_bounds_witness :
  Block.open [97] sample_disk ≠ UB ∧
  ∀ fs b, dir_chunks sample_dir = Some fs → visited [97] sample_disk fs b →
    (∀ ms mint maxt, (select fs ms mint maxt b).1 ≠ UB) ∧ ∀ n v, (query fs n v b).1 ≠ UB.
Proof.
  apply (block_in_bounds [97] sample_disk sample_dir); [vm_compute; reflexivity|].
  apply (bool_decide_unpack _). vm_compute. exact I.
Defined.

(** In that block the first series is found, the second is refused. *)
Example damaged_block_queried :
  match Block.open [97] sample_disk, dir_chunks sample_dir with
  | Ok b, Some fs =>
      match (query fs [97] cyrillic b).1 with Ok [_] => True | _ => False end ∧ (query fs [98] [99] b).1 = Err illegal_byte_sequence
  | _, _ => False
  end.
Proof. vm_compute. split; reflexivity. Qed.

(** Also in the scope of the theorem: a series whose second chunk begins before
    the end of the first, which the index stores as a difference near 2^64, and
    a chunk in whose bytes a reader could see such a length. *)
Example overlapping_chunks_bounded :
  bool_decide (bounded_dir (created
    [mkSeriesInput [mkLabel [97] cyrillic] [mkChunkInput 5 9 (replicate 20 255); mkChunkInput 7 1700000000000 (replicate 9 255 ++ [1])];
     mkSeriesInput [mkLabel [98] [99]] [mkChunkInput (-1700000000000) 1700003600000 [7; 8]]])) = true.
Proof. vm_compute. reflexivity. Qed.

(** Not in its scope: an entry in whose times a sum overflows. *)
Example overflowing_times_unbounded :
  let p := uvarint_bytes 0 ++ uvarint_bytes 1 ++ varint_bytes (2 ^ 63 - 1) ++ uvarint_bytes 1 ++ uvarint_bytes 8 in
  entry_fits p = false ∧ decode_series_payload p (IndexSymbolTable.mk [] 2 0 0 []) = UB.
Proof. vm_compute. split; reflexivity. Qed.

End BlockSafeProps.
