(* ===== verification/Smoke.v ===== *)
(** The toolchain test: [src/src/smoke.cpp]. It exercises the standard library
    and touches no part of the database; what it prints is computed here as a
    list of lines, given the version number of the library. *)

From Stdlib Require Import String.
From S2P Require Import Prelude Ordered Sorted Files Bytes Meta.

(** * The parser *)

Inductive ParseError : Type := ParseError_Empty | ParseError_NotANumber.

#[export] Instance ParseError_eq_dec : EqDecision ParseError.
Proof. solve_decision. Defined.

Definition is_digit (c : Z) : bool := (48 <=? c) && (c <=? 57).

(** [n * 10 + (c - '0')] of an [int] that is not negative. *)
Fixpoint parse_digits (s : str) (n : Z) : outcome ParseError Z :=
  match s with
  | [] => Ok n
  | c :: s =>
      if negb (is_digit c) then Err ParseError_NotANumber
      else if 2 ^ 31 <=? n * 10 + (c - 48) then UB
      else parse_digits s (n * 10 + (c - 48))
  end.

Definition parse_positive (s : str) : outcome ParseError Z :=
  match s with
  | [] => Err ParseError_Empty
  | _ => parse_digits s 0
  end.

(** * The test *)

(** [std::flat_map::insert] keeps the element that is there. *)
Definition flat_insert (k : str) (v : Z) (m : list (str * Z)) : list (str * Z) :=
  match map_get k m with
  | Some _ => m
  | None => map_update str_ltb 0 (λ _, v) k m
  end.

Definition smoke_labels : list (str * Z) :=
  flat_insert (text "instance") 3 (flat_insert (text "job") 2 (flat_insert (text "__name__") 1 [])).

(** [iota(1, 6)], transformed. *)
Definition squares : list Z := (λ x, x * x) <$> seqZ 1 5.

(** [std::format] of a small [int]. *)
Definition show_int (x : Z) : str := if x <? 0 then text "-" ++ dec_digits 20 (- x) [] else dec_digits 20 x [].

Definition value_or (x : Z) (o : outcome ParseError Z) : option Z :=
  match o with Ok n => Some n | Err _ => Some x | UB => None end.

Definition has_value (o : outcome ParseError Z) : option bool :=
  match o with Ok _ => Some true | Err _ => Some false | UB => None end.

Definition quoted (s : str) : str := [34] ++ s ++ [34].

(** The lines of [main]. *)
Definition main_lines (libcpp_version : Z) : option (list str) :=
  good ← value_or (-1) (parse_positive (text "42"));
  bad ← has_value (parse_positive (text "nope"));
  Some
    ([text "libc++ version: " ++ show_int libcpp_version;
      text "flat_map size: " ++ show_int (zlen smoke_labels)] ++
     ((λ '(k, v), text "  " ++ k ++ text " -> " ++ show_int v) <$> smoke_labels) ++
     [text "parse(" ++ quoted (text "42") ++ text ") = " ++ show_int good;
      text "parse(" ++ quoted (text "nope") ++ text ") has_value = " ++ (if bad : bool then text "true" else text "false");
      text "squares:" ++ concat ((λ s, text " " ++ show_int s) <$> squares)]).

Module SmokeFacts.

(** The number a string of digits stands for, behind [n]. *)
Definition number (s : str) (n : Z) : Z := foldl (λ n c, n * 10 + (c - 48)) n s.

Lemma number_grows s n : forallb is_digit s = true → 0 <= n → n <= number s n.
Proof.
  revert n. induction s as [|c s IH]; intros n Hs Hn; cbn [number foldl forallb] in *; [lia|].
  apply andb_prop in Hs as [Hc Hs]. unfold is_digit in Hc. specialize (IH (n * 10 + (c - 48)) Hs ltac:(lia)).
  unfold number in IH. lia.
Qed.

Lemma parse_digits_app s rest n :
  forallb is_digit s = true → 0 <= n < 2 ^ 31 →
  parse_digits (s ++ rest) n = if 2 ^ 31 <=? number s n then UB else parse_digits rest (number s n).
Proof.
  revert n. induction s as [|c s IH]; intros n Hs Hn; cbn [app number foldl forallb parse_digits] in *.
  { by destruct (Z.leb_spec (2 ^ 31) n); [lia|]. }
  apply andb_prop in Hs as [Hc Hs]. rewrite Hc. cbn [negb]. unfold is_digit in Hc.
  destruct (Z.leb_spec (2 ^ 31) (n * 10 + (c - 48))) as [Hbig|Hsmall]; [|apply IH; [done|lia]].
  pose proof (number_grows s (n * 10 + (c - 48)) Hs ltac:(lia)) as Hgrow. unfold number in Hgrow.
  by destruct (Z.leb_spec (2 ^ 31) (foldl (λ n c, n * 10 + (c - 48)) (n * 10 + (c - 48)) s)); [|lia].
Qed.

End SmokeFacts.

Module SmokeProps.
Import SmokeFacts.

(** [parse_positive] on every input: the empty string and a string with another
    character are refused, a string of digits gives its number; and whatever
    follows the first digits that exceed an [int] is never looked at. *)
Theorem parse_positive_cases (s rest : str) (c : Z) :
  forallb is_digit s = true → is_digit c = false →
  parse_positive [] = Err ParseError_Empty ∧
  (s ≠ [] → parse_positive s = if 2 ^ 31 <=? number s 0 then UB else Ok (number s 0)) ∧
  parse_positive (s ++ c :: rest) = if 2 ^ 31 <=? number s 0 then UB else Err ParseError_NotANumber.
Proof.
  intros Hs Hc. split; [done|]. split.
  - intros Hne. pose proof (parse_digits_app s [] 0 Hs ltac:(done)) as Heq. rewrite app_nil_r in Heq. by destruct s.
  - pose proof (parse_digits_app s (c :: rest) 0 Hs ltac:(done)) as Heq. cbn [parse_digits] in Heq. rewrite Hc in Heq.
    by destruct s.
Qed.

Lemma parse_positive_cases_witness :
  parse_positive [] = Err ParseError_Empty ∧
  (text "42" ≠ [] → parse_positive (text "42") = Ok 42) ∧ parse_positive (text "42" ++ 110 :: text "ope") = Err ParseError_NotANumber.
Proof. apply (parse_positive_cases (text "42") (text "ope") 110); reflexivity. Defined.

(** The number 2^31 overflows an [int]. *)
Example parse_overflows :
  parse_positive (text "2147483647") = Ok 2147483647 ∧ parse_positive (text "2147483648") = UB.
Proof. split; reflexivity. Qed.

(** What the test prints: the labels in the order of their names. *)
Example smoke_prints :
  main_lines 220000 = Some
    [text "libc++ version: 220000"; text "flat_map size: 3"; text "  __name__ -> 1"; text "  instance -> 3"; text "  job -> 2";
     text "parse(" ++ quoted (text "42") ++ text ") = 42"; text "parse(" ++ quoted (text "nope") ++ text ") has_value = false";
     text "squares: 1 4 9 16 25"].
Proof. reflexivity. Qed.

End SmokeProps.
