(* ===== verification/BlockSelect.v ===== *)
(** What a query on a block returns: matchers against posting lists, and
    [Block.select] as a function of the series and chunks the block holds. *)

From S2P Require Import Prelude Ordered Sorted Files Varint Bytes Crc32c Labels Matcher Record BStream Xor Chunks Query Index IndexWriter Ulid Meta Block.

Module BlockSelectFacts.
Import IndexFacts ChunksFacts.

(** * The index as sets of series *)

(** What the matchers need of an index: [ser] are the series in ascending order
    of their identifiers, none without labels, no label with an empty value. *)
Record denotes (idx : IndexReader.t) (ser : list (Z * Labels.t)) : Prop := {
  dn_ids : ascending Z.ltb (fst <$> ser);
  dn_values_ok : Forall (λ x : Z * Labels.t, Forall (λ l, value l ≠ []) x.2) ser;
  dn_postings : ∀ n v, no_nul n → IndexReader.postings idx n v = Ok (fst <$> filter (λ x, Labels.get x.2 n = Some v) ser);
  dn_name : ∀ n, IndexReader.postings_for_name idx n = Ok (fst <$> filter (λ x, is_Some (Labels.get x.2 n)) ser);
  dn_all : IndexReader.all_postings idx = Ok (fst <$> ser);
  dn_values : ∀ n v, v ∈ IndexReader.label_values idx n ↔ ∃ x, x ∈ ser ∧ Labels.get x.2 n = Some v;
}.

Lemma ascending_filter (P : Z * Labels.t → Prop) `{!∀ x, Decision (P x)} (ser : list (Z * Labels.t)) :
  ascending Z.ltb (fst <$> ser) → ascending Z.ltb (fst <$> filter P ser).
Proof.
  induction ser as [|x ser IH]; [done|]. rewrite fmap_cons. intros [Hs Hx]%ascending_cons. rewrite filter_cons.
  destruct (decide (P x)); [|by apply IH]. rewrite fmap_cons. apply ascending_cons. split; [by apply IH|].
  intros y Hy. apply Hx. apply list_elem_of_fmap in Hy as (z & -> & Hz). apply list_elem_of_fmap_2.
  by apply list_elem_of_filter in Hz as [_ ?].
Qed.

(** Two ascending selections with the same members are the same. *)
Lemma selection_eq l (P : Z * Labels.t → Prop) `{!∀ x, Decision (P x)} (ser : list (Z * Labels.t)) :
  ascending Z.ltb (fst <$> ser) → ascending Z.ltb l →
  (∀ x, x ∈ ser → (fst x ∈ l ↔ P x)) → (∀ id, id ∈ l → id ∈ (fst <$> ser)) → l = fst <$> filter P ser.
Proof.
  intros Hser Hl HP Hin. apply (ascending_unique Z.ltb); [done|by apply ascending_filter|]. intros id. split.
  - intros Hid. destruct (proj1 (list_elem_of_fmap _ _ _) (Hin id Hid)) as (x & -> & Hx).
    apply list_elem_of_fmap_2, list_elem_of_filter. split; [by apply HP|done].
  - intros (x & -> & [Hx Hxs]%list_elem_of_filter)%list_elem_of_fmap. by apply HP.
Qed.

(** An identifier belongs to one series only. *)
Lemma ids_inj (ser : list (Z * Labels.t)) x y :
  ascending Z.ltb (fst <$> ser) → x ∈ ser → y ∈ ser → x.1 = y.1 → x = y.
Proof.
  induction ser as [|z ser IH]; [by intros _ ?%elem_of_nil|]. rewrite fmap_cons. intros [Hs Hz]%ascending_cons.
  assert (∀ w, w ∈ ser → z.1 ≠ w.1) as Hne.
  { intros w Hw Heq. specialize (Hz w.1 (list_elem_of_fmap_2 _ _ _ Hw)). rewrite Heq in Hz. lia. }
  rewrite !elem_of_cons. intros [->|Hx] [->|Hy] Heq; [done|by destruct (Hne y)|by destruct (Hne x)|auto].
Qed.

Lemma elem_selection (P : Z * Labels.t → Prop) `{!∀ x, Decision (P x)} (ser : list (Z * Labels.t)) x :
  ascending Z.ltb (fst <$> ser) → x ∈ ser → (x.1 ∈ (fst <$> filter P ser) ↔ P x).
Proof.
  intros Hs Hx. rewrite list_elem_of_fmap. split.
  - intros (y & Heq & [Hy Hin]%list_elem_of_filter). by rewrite (ids_inj ser x y).
  - intros HP. exists x. split; [done|]. by apply list_elem_of_filter.
Qed.

Lemma selection_incl (P : Z * Labels.t → Prop) `{!∀ x, Decision (P x)} (ser : list (Z * Labels.t)) (id : Z) :
  id ∈ (fst <$> filter P ser) → id ∈ (fst <$> ser).
Proof. intros (x & -> & [_ Hx]%list_elem_of_filter)%list_elem_of_fmap. by apply list_elem_of_fmap_2. Qed.

Lemma difference_selection (P : Z * Labels.t → Prop) `{!∀ x, Decision (P x)} (ser : list (Z * Labels.t)) :
  ascending Z.ltb (fst <$> ser) →
  sorted_difference (fst <$> ser) (fst <$> filter P ser) = fst <$> filter (λ x, ¬ P x) ser.
Proof.
  intros Hs. destruct (set_difference_spec Z.ltb _ _ Hs (ascending_filter P ser Hs)) as [Hasc Hin].
  apply selection_eq; [done|done| |].
  - intros x Hx. unfold sorted_difference. rewrite Hin, (elem_selection P) by done. split; [by intros [_ ?]|].
    split; [by apply list_elem_of_fmap_2|done].
  - intros id Hid. unfold sorted_difference in Hid. rewrite Hin in Hid. tauto.
Qed.

Lemma intersection_selection (P Q : Z * Labels.t → Prop) `{!∀ x, Decision (P x), !∀ x, Decision (Q x)} (ser : list (Z * Labels.t)) :
  ascending Z.ltb (fst <$> ser) →
  sorted_intersection (fst <$> filter P ser) (fst <$> filter Q ser) = fst <$> filter (λ x, P x ∧ Q x) ser.
Proof.
  intros Hs.
  destruct (set_intersection_spec Z.ltb _ _ (ascending_filter P ser Hs) (ascending_filter Q ser Hs)) as [Hasc Hin].
  apply selection_eq; [done|done| |].
  - intros x Hx. unfold sorted_intersection. by rewrite Hin, (elem_selection P), (elem_selection Q).
  - intros id Hid. unfold sorted_intersection in Hid. rewrite Hin in Hid. destruct Hid as [Hid _]. by eapply selection_incl.
Qed.

Section Matchers.
Context `{RegexEngine}.
Context (idx : IndexReader.t) (ser : list (Z * Labels.t)) (Hidx : denotes idx ser).

Lemma postings_without_eq n :
  postings_without idx n = Ok (fst <$> filter (λ x, ¬ is_Some (Labels.get x.2 n)) ser).
Proof.
  unfold postings_without. rewrite (dn_all _ _ Hidx), (dn_name _ _ Hidx). cbn [mbind outcome_bind].
  by rewrite difference_selection by apply Hidx.
Qed.

Lemma postings_of_values_spec n f vs :
  no_nul n →
  ∃ out, postings_of_values idx n f vs = Ok out ∧
    ∀ id, id ∈ out ↔ ∃ v, v ∈ vs ∧ f v = true ∧ id ∈ (fst <$> filter (λ x, Labels.get x.2 n = Some v) ser).
Proof.
  intros Hn. induction vs as [|v vs (out & Hout & Hin)]; cbn [postings_of_values].
  { exists []. split; [done|]. intros id. split; [by intros ?%elem_of_nil|]. by intros (v & ?%elem_of_nil & _). }
  destruct (f v) eqn:Hf; cbn [negb].
  - rewrite (dn_postings _ _ Hidx) by done. cbn [mbind outcome_bind]. rewrite Hout. eexists. split; [done|].
    intros id. rewrite elem_of_app, Hin. split.
    + intros [Hid|(v' & Hv' & ?)]; [exists v|exists v']; rewrite elem_of_cons; auto.
    + intros (v' & [->|Hv']%elem_of_cons & ? & ?); [by left|right; eauto].
  - exists out. split; [done|]. intros id. rewrite Hin. split.
    + intros (v' & Hv' & ?). exists v'. rewrite elem_of_cons. auto.
    + intros (v' & [->|Hv']%elem_of_cons & Ht & ?); [congruence|eauto].
Qed.

(** The value of a label that may be absent. *)
Definition value_of (labels : Labels.t) (n : str) : str := default [] (Labels.get labels n).

Lemma postings_accepted_eq n f :
  no_nul n → postings_accepted idx n f = Ok (fst <$> filter (λ x : Z * Labels.t, f (value_of x.2 n) = true) ser).
Proof.
  intros Hn. unfold postings_accepted.
  destruct (postings_of_values_spec n f (IndexReader.label_values idx n) Hn) as (out & -> & Hin). cbn [mbind outcome_bind].
  assert (∃ without, (if f [] then postings_without idx n else Ok []) = Ok without ∧
    ∀ id, id ∈ without ↔ f [] = true ∧ id ∈ (fst <$> filter (λ x, ¬ is_Some (Labels.get x.2 n)) ser)) as (without & -> & Hw).
  { destruct (f []) eqn:Hf; [rewrite postings_without_eq|]; eexists; (split; [done|]); intros id.
    - tauto.
    - split; [by intros ?%elem_of_nil|by intros [? _]]. }
  cbn [mbind outcome_bind]. f_equal. destruct (sort_unique_spec Z.ltb (out ++ without)) as [Hasc Hmem].
  pose proof (dn_ids _ _ Hidx) as Hser. apply selection_eq; [done|done| |].
  - intros x Hx. rewrite Hmem, elem_of_app, Hin, Hw. unfold value_of. destruct (Labels.get x.2 n) as [v|] eqn:Hget; cbn [default from_option id].
    + split.
      * intros [(v' & _ & Hf & Hx')|[_ Hx']].
        -- apply elem_selection in Hx'; [|done..]. simpl in *. congruence.
        -- apply elem_selection in Hx'; [|done..]. simpl in *. rewrite Hget in Hx'. by destruct Hx'.
      * intros Hf. left. exists v. split_and!; [|done|by apply elem_selection]. apply (dn_values _ _ Hidx). eauto.
    + split.
      * intros [(v' & _ & Hf & Hx')|[? _]]; [|done]. apply elem_selection in Hx'; [|done..]. simpl in *. congruence.
      * intros Hf. right. split; [done|]. apply elem_selection; [done|done|]. rewrite Hget. by intros [? ?].
  - intros id Hid. rewrite Hmem, elem_of_app, Hin, Hw in Hid. destruct Hid as [(v & _ & _ & Hid)|[_ Hid]]; by eapply selection_incl.
Qed.

Lemma get_elem (ls : list Label) n v : Labels.get ls n = Some v → ∃ l, l ∈ ls ∧ name l = n ∧ value l = v.
Proof.
  unfold Labels.get. destruct (ls !! _) as [l|] eqn:Hl; [|done]. unfold str_eqb.
  destruct (bool_decide_reflect (name l = n)); [|done]. intros [= <-]. exists l. split_and!; [by eapply list_elem_of_lookup_2|done..].
Qed.

(** A matcher as the factories make it, with a name the index can store. *)
Definition matcher_ok (m : Matcher.t) : Prop :=
  no_nul (Matcher.name_ m) ∧ (Matcher.type_ m = Nre → is_Some (Matcher.compiled_ m)).

Lemma get_nonempty x n v : x ∈ ser → Labels.get x.2 n = Some v → v ≠ [].
Proof.
  intros Hx Hget. pose proof (dn_values_ok _ _ Hidx) as Hok. rewrite Forall_forall in Hok. specialize (Hok x Hx).
  rewrite Forall_forall in Hok. apply get_elem in Hget as (l & Hl & _ & <-). by apply Hok.
Qed.

(** The posting list of a matcher are the series it accepts. *)
Lemma postings_for_matcher_eq m :
  matcher_ok m →
  postings_for_matcher idx m =
    Ok (fst <$> filter (λ x : Z * Labels.t, Matcher.matches m (value_of x.2 (Matcher.name_ m)) = true) ser).
Proof.
  intros [Hn Hre]. pose proof (dn_ids _ _ Hidx) as Hser. unfold postings_for_matcher. set (n := Matcher.name_ m) in *.
  set (v := Matcher.value_ m) in *.
  assert (∀ x w, x ∈ ser → w = value_of x.2 n → (w = [] ↔ ¬ is_Some (Labels.get x.2 n))) as Hempty.
  { intros x w Hx ->. unfold value_of. destruct (Labels.get x.2 n) as [u|] eqn:Hget; cbn [default from_option id].
    - split; [by intros Hu%(get_nonempty _ _ _ Hx Hget)|by intros []].
    - split; [by intros _ [? ?]|done]. }
  assert (∀ x, x ∈ ser → v ≠ [] → (Labels.get x.2 n = Some v ↔ value_of x.2 n = v)) as Hvalue.
  { intros x _ Hv. unfold value_of. destruct (Labels.get x.2 n) as [u|]; cbn [default from_option id]; [split; [intros Hs; by injection Hs|by intros ->]|].
    split; [done|]. intros Hv'. by destruct Hv. }
  destruct (Matcher.type_ m) eqn:Ht.
  - destruct (bool_decide_reflect (v = [])) as [Hv|Hv]; [rewrite postings_without_eq|rewrite (dn_postings _ _ Hidx) by done];
      do 2 f_equal; apply filter_ext_in; intros x Hx; unfold Matcher.matches, str_eqb; rewrite Ht; fold v n;
      rewrite bool_decide_eq_true; [rewrite Hv; symmetry; by apply Hempty|by apply Hvalue].
  - destruct (bool_decide_reflect (v = [])) as [Hv|Hv].
    + rewrite (dn_name _ _ Hidx). do 2 f_equal. apply filter_ext_in. intros x Hx. unfold Matcher.matches, str_eqb. rewrite Ht. fold v.
      rewrite negb_true_iff, bool_decide_eq_false, Hv, (Hempty x _ Hx eq_refl). destruct (decide (is_Some (Labels.get x.2 n))); tauto.
    + rewrite (dn_all _ _ Hidx), (dn_postings _ _ Hidx) by done. cbn [mbind outcome_bind].
      rewrite difference_selection by done. do 2 f_equal. apply filter_ext_in. intros x Hx. unfold Matcher.matches, str_eqb. rewrite Ht. fold v.
      rewrite negb_true_iff, bool_decide_eq_false. by rewrite (Hvalue x Hx Hv).
  - by rewrite postings_accepted_eq.
  - rewrite postings_accepted_eq, (dn_all _ _ Hidx) by done. cbn [mbind outcome_bind].
    rewrite difference_selection by done. do 2 f_equal. apply filter_ext_in. intros x Hx.
    unfold Matcher.matches, Matcher.regex_matches. rewrite Ht. destruct (Hre eq_refl) as [re ->].
    by rewrite negb_true_iff, not_true_iff_false.
Qed.

(** The series that all matchers accept. *)
Lemma intersect_matchers_eq ms (P : Z * Labels.t → Prop) `{!∀ x, Decision (P x)} :
  Forall matcher_ok ms →
  intersect_matchers idx ms (fst <$> filter P ser) = Ok (fst <$> filter (λ x, P x ∧ labels_match_all x.2 ms = true) ser).
Proof.
  intros Hms. revert P H0. induction Hms as [|m ms Hm _ IH]; intros P HP; cbn [intersect_matchers].
  { do 2 f_equal. apply filter_ext_in. intros x _. unfold labels_match_all. cbn. tauto. }
  assert (∀ x : Z * Labels.t, P x ∧ labels_match_all x.2 (m :: ms) = true ↔
    (P x ∧ Matcher.matches m (value_of x.2 (Matcher.name_ m)) = true) ∧ labels_match_all x.2 ms = true) as Hall.
  { intros x. unfold labels_match_all. cbn [forallb]. rewrite andb_true_iff. unfold value_of. tauto. }
  destruct (fst <$> filter P ser) as [|id ids] eqn:Hids.
  - destruct (filter P ser) as [|y l] eqn:Hf; [|done]. f_equal.
    rewrite (filter_ext_in _ (λ x, labels_match_all x.2 (m :: ms) = true ∧ P x)) by tauto. by rewrite <- list_filter_filter, Hf.
  - rewrite <- Hids, postings_for_matcher_eq by done. cbn [mbind outcome_bind].
    rewrite intersection_selection by apply Hidx. rewrite IH. do 2 f_equal. apply filter_ext_in. intros x _. by rewrite Hall.
Qed.

End Matchers.
(** * A block as a list of series *)

(** A series of a block: its identifier, its labels and its chunks with their
    bytes. *)
Record view : Type := mkView { vw_id : Z; vw_labels : Labels.t; vw_chunks : list (ChunkMeta * list Z) }.

(** The handle [b] on a block whose chunks directory is [fs] presents [vs]. *)
Definition block_of (fs : gmap str (list Z)) (vs : list view) (b : Block.t) : Prop :=
  denotes (Block.index_ b) ((λ v, (vw_id v, vw_labels v)) <$> vs) ∧
  (∀ v, v ∈ vs → IndexReader.series (Block.index_ b) (vw_id v) = Ok (mkSeriesEntry (vw_labels v) (fst <$> vw_chunks v))) ∧
  ∃ segs, chunks_dir fs segs ∧ segs_ok segs ∧ reader_ok segs (Block.chunks_ b) ∧
    ∀ v c, v ∈ vs → c ∈ vw_chunks v → stored segs (from_u64 (chunk_ref c.1)) (Encoding_XOR, c.2).

(** Whether a chunk overlaps the closed range. *)
Definition overlaps (mint maxt : Z) (m : ChunkMeta) : bool := (min_time m <=? maxt) && (mint <=? max_time m).

(** What [select] returns for a series: nothing when no chunk overlaps. *)
Definition result_of (mint maxt : Z) (v : view) : option QueryResult :=
  match filter (λ c : ChunkMeta * list Z, overlaps mint maxt c.1 = true) (vw_chunks v) with
  | [] => None
  | cs => Some (mkQueryResult (vw_labels v) ((λ c, XORChunk.from_bytes c.2) <$> cs) (fst <$> cs))
  end.

Definition accepts `{RegexEngine} (ms : list Matcher.t) (v : view) : Prop := labels_match_all (vw_labels v) ms = true.

#[export] Instance accepts_dec `{RegexEngine} ms v : Decision (accepts ms v).
Proof. unfold accepts. apply _. Defined.

Section Select.
Context `{RegexEngine}.
Context (fs : gmap str (list Z)) (vs : list view).

(** Reading a chunk changes the cache only. *)
Lemma read_xor_eq v c b :
  block_of fs vs b → v ∈ vs → c ∈ vw_chunks v →
  ∃ b', Block.read_xor fs c.1 b = (Ok (XORChunk.from_bytes c.2), b') ∧ block_of fs vs b'.
Proof.
  intros (Hidx & Hser & segs & Hdir & Hok & Hr & Hst) Hv Hc. unfold Block.read_xor.
  destruct (read_stored fs segs (Block.chunks_ b) _ _ Hdir Hok Hr (Hst v c Hv Hc)) as (r' & -> & Hr').
  cbn [encoding payload_data fst snd]. change (negb (Encoding_XOR =? Encoding_XOR)) with false. cbn iota.
  eexists. split; [done|]. split_and!; [done|done|]. by exists segs.
Qed.

Lemma select_chunks_eq mint maxt v cs b :
  block_of fs vs b → v ∈ vs → (∀ c, c ∈ cs → c ∈ vw_chunks v) →
  ∃ b', select_chunks fs mint maxt (fst <$> cs) b =
      (Ok ((λ c, (XORChunk.from_bytes c.2, c.1)) <$> filter (λ c : ChunkMeta * list Z, overlaps mint maxt c.1 = true) cs), b') ∧
    block_of fs vs b'.
Proof.
  intros Hb Hv. revert b Hb. induction cs as [|c cs IH]; intros b Hb Hin; [by exists b|].
  rewrite fmap_cons. cbn [select_chunks]. rewrite filter_cons.
  assert ((maxt <? min_time c.1) || (max_time c.1 <? mint) = negb (overlaps mint maxt c.1)) as ->.
  { unfold overlaps. destruct (Z.ltb_spec maxt (min_time c.1)), (Z.ltb_spec (max_time c.1) mint),
      (Z.leb_spec (min_time c.1) maxt), (Z.leb_spec mint (max_time c.1)); done || lia. }
  destruct (overlaps mint maxt c.1) eqn:Ho; cbn [negb].
  - rewrite decide_True by done. destruct (read_xor_eq v c b Hb Hv (Hin c ltac:(left))) as (b1 & Hread & Hb1).
    rewrite (rbind_ok _ _ _ _ _ Hread). destruct (IH b1 Hb1) as (b2 & Hrest & Hb2); [by intros c' Hc'; apply Hin; right|].
    rewrite (rbind_ok _ _ _ _ _ Hrest). by exists b2.
  - rewrite decide_False by done. apply IH; [done|]. intros c' Hc'. apply Hin. by right.
Qed.

Lemma select_ids_eq mint maxt sel b :
  block_of fs vs b → (∀ v, v ∈ sel → v ∈ vs) →
  ∃ b', select_ids fs mint maxt (vw_id <$> sel) b = (Ok (omap (result_of mint maxt) sel), b') ∧ block_of fs vs b'.
Proof.
  revert b. induction sel as [|v sel IH]; intros b Hb Hin; [by exists b|]. rewrite fmap_cons. cbn [select_ids].
  assert (v ∈ vs) as Hv by (apply Hin; left). pose proof Hb as (_ & Hser & _).
  assert (series_entry (vw_id v) b = (Ok (mkSeriesEntry (vw_labels v) (fst <$> vw_chunks v)), b)) as Hse
    by (unfold series_entry; by rewrite Hser).
  rewrite (rbind_ok _ _ _ _ _ Hse). cbn [se_labels se_chunks].
  destruct (select_chunks_eq mint maxt v (vw_chunks v) b Hb Hv ltac:(done)) as (b1 & Hc & Hb1).
  rewrite (rbind_ok _ _ _ _ _ Hc). destruct (IH b1 Hb1) as (b2 & Hrest & Hb2); [by intros w Hw; apply Hin; right|].
  rewrite (rbind_ok _ _ _ _ _ Hrest). exists b2. split; [|done]. 
  change (omap (result_of mint maxt) (v :: sel)) with (match result_of mint maxt v with
    | Some y => y :: omap (result_of mint maxt) sel | None => omap (result_of mint maxt) sel end).
  generalize (omap (result_of mint maxt) sel). intros rest. unfold result_of.
  destruct (filter _ (vw_chunks v)) as [|c cs]; [done|]. unfold rret. by rewrite !fmap_cons, <- !list_fmap_compose.
Qed.

Lemma matched_ids ms :
  fst <$> filter (λ x : Z * Labels.t, labels_match_all x.2 ms = true) ((λ v, (vw_id v, vw_labels v)) <$> vs) =
    vw_id <$> filter (accepts ms) vs.
Proof.
  induction vs as [|v l IH]; [done|]. rewrite fmap_cons, !filter_cons. unfold accepts at 1. cbn [snd].
  destruct (decide (labels_match_all (vw_labels v) ms = true)); [|done]. by rewrite !fmap_cons, IH.
Qed.

Lemma select_block ms mint maxt b :
  block_of fs vs b → ms ≠ [] → Forall matcher_ok ms →
  ∃ b', select fs ms mint maxt b = (Ok (omap (result_of mint maxt) (filter (accepts ms) vs)), b') ∧ block_of fs vs b'.
Proof.
  intros Hb Hne Hms. destruct Hms as [|m ms Hm Hms]; [done|]. unfold select. pose proof Hb as (Hidx & _).
  rewrite (postings_for_matcher_eq _ _ Hidx m Hm). cbn [mbind outcome_bind].
  rewrite (intersect_matchers_eq _ _ Hidx ms _ Hms).
  rewrite (filter_ext_in _ (λ x, labels_match_all x.2 (m :: ms) = true)).
  2:{ intros x _. unfold labels_match_all, value_of. cbn [forallb]. by rewrite andb_true_iff. }
  rewrite matched_ids. apply select_ids_eq; [done|]. by intros v [_ ?]%list_elem_of_filter.
Qed.

End Select.

End BlockSelectFacts.
