(* ===== verification/BlockIndex.v ===== *)
(** The index [create_from_series] builds: its symbols, its posting lists, and
    that it denotes the series it was built from. *)

From S2P Require Import Prelude Ordered Sorted Files Varint Bytes Crc32c Labels Matcher Record BStream Xor Chunks Query Index IndexWriter Ulid Meta Block BlockSelect.

Module BlockIndexFacts.
Import BytesFacts IndexFacts IndexWriter IndexWriterFacts IndexWriterProps BlockSelectFacts LabelsFacts.

(** * Symbols *)

Definition label_strings (l : Label) : list str := [name l; value l].

Definition strings (prepared : list PreparedSeries) : list str :=
  prepared ≫= λ ps, si_labels (ps_input ps) ≫= label_strings.

Lemma strings_cons ps prepared : strings (ps :: prepared) = (si_labels (ps_input ps) ≫= label_strings) ++ strings prepared.
Proof. unfold strings. by rewrite bind_cons. Qed.

Definition insert_all (l : list str) (acc : list str) : list str := foldl (λ acc s, set_insert str_ltb s acc) acc l.

Lemma insert_labels ls acc :
  foldl (λ acc l, set_insert str_ltb (value l) (set_insert str_ltb (name l) acc)) acc ls =
    insert_all (ls ≫= label_strings) acc.
Proof. revert acc. induction ls as [|l ls IH]; intros acc; [done|]. rewrite bind_cons. cbn [foldl app label_strings]. apply IH. Qed.

Lemma insert_prepared prepared acc :
  foldl (λ acc ps,
    foldl (λ acc l, set_insert str_ltb (value l) (set_insert str_ltb (name l) acc)) acc (si_labels (ps_input ps))) acc prepared =
    insert_all (strings prepared) acc.
Proof.
  revert acc. induction prepared as [|ps prepared IH]; intros acc; [done|]. cbn [foldl]. rewrite IH, insert_labels, strings_cons.
  unfold insert_all. by rewrite foldl_app.
Qed.

Lemma block_symbols_eq prepared : block_symbols prepared = insert_all (strings prepared) [[]].
Proof. apply insert_prepared. Qed.

Lemma block_symbols_ascending prepared : ascending str_ltb (block_symbols prepared).
Proof. rewrite block_symbols_eq. apply (foldl_set_insert_ascending str_ltb (λ s, s)). by repeat constructor. Qed.

Lemma elem_of_block_symbols prepared s : s ∈ block_symbols prepared ↔ s = [] ∨ s ∈ strings prepared.
Proof.
  rewrite block_symbols_eq. unfold insert_all. rewrite (elem_of_foldl_set_insert str_ltb (λ s, s)).
  rewrite list_elem_of_singleton. split.
  - intros [Hs|(x & Hx & ->)]; [by left|by right].
  - intros [Hs|Hs]; [by left|right; eauto].
Qed.

Lemma label_symbols prepared ps l :
  ps ∈ prepared → l ∈ si_labels (ps_input ps) → name l ∈ block_symbols prepared ∧ value l ∈ block_symbols prepared.
Proof.
  intros Hps Hl. assert (∀ s, s ∈ label_strings l → s ∈ block_symbols prepared) as Hin.
  { intros s Hs. apply elem_of_block_symbols. right. unfold strings. apply list_elem_of_bind. exists ps. split; [|done].
    apply list_elem_of_bind. by exists l. }
  split; apply Hin; [left|right; left].
Qed.

(** The room symbols take. *)
Lemma zsum_set_insert (f : str → Z) x l : (∀ y, 0 <= f y) → zsum f (set_insert str_ltb x l) <= f x + zsum f l.
Proof.
  intros Hf. induction l as [|y l IH]; cbn [set_insert]; [done|]. pose proof (Hf x).
  destruct (str_ltb x y); [by rewrite !zsum_cons|]. destruct (str_ltb y x); rewrite !zsum_cons; lia.
Qed.

Lemma zsum_insert_all (f : str → Z) l acc : (∀ y, 0 <= f y) → zsum f (insert_all l acc) <= zsum f l + zsum f acc.
Proof.
  intros Hf. revert acc. unfold insert_all. induction l as [|x l IH]; intros acc; cbn [foldl]; [done|].
  pose proof (zsum_set_insert f x acc Hf). specialize (IH (set_insert str_ltb x acc)). rewrite zsum_cons. lia.
Qed.

Lemma zsum_bind {A B} (f : B → Z) (g : A → list B) l : zsum f (l ≫= g) = zsum (λ x, zsum f (g x)) l.
Proof. induction l as [|x l IH]; [done|]. by rewrite bind_cons, zsum_app, zsum_cons, IH. Qed.

(** ** Numbering them *)

(** The references after adding [syms]: each symbol has its position. *)
Lemma add_block_symbols_eq (syms pre : list str) (s : IndexWriter.t) (sr : gmap str Z) :
  symbols_stage pre s → StronglySorted (le_of str_ltb) (pre ++ syms) → zlen (pre ++ syms) < 2 ^ 32 →
  Forall (λ sym, zlen sym < 2 ^ 63) syms → NoDup (pre ++ syms) → (∀ sym : str, is_Some (sr !! sym) → sym ∈ pre) →
  ∃ (sr' : gmap str Z) s', add_symbols syms s = (Ok tt, s') ∧ add_block_symbols syms sr s = (Ok sr', s') ∧
    (∀ sym : str, sym ∈ pre → sr' !! sym = sr !! sym) ∧
    ∀ i (sym : str), syms !! i = Some sym → sr' !! sym = Some (zlen pre + Z.of_nat i).
Proof.
  intros Hst Hsort Hlen Hsyms. revert pre s sr Hst Hsort Hlen.
  induction Hsyms as [|sym syms Hsym _ IH]; intros pre s sr Hst Hsort Hlen Hnd Hsr; [by exists sr, s|].
  cbn [add_symbols add_block_symbols] in *.
  destruct (add_symbol_stage pre sym s) as (s1 & Hadd & Hst1 & _); [done| | |done|].
  { intros Hne. destruct (last pre) as [l|] eqn:Hl; [|by apply last_None in Hl].
    apply StronglySorted_app_1_elem_of with (x1 := l) (x2 := sym) in Hsort; [done| |left]. by apply last_Some_elem_of. }
  { unfold zlen in *. rewrite length_app in Hlen. cbn [length] in Hlen. lia. }
  rewrite !(rbind_ok _ _ _ _ _ Hadd).
  assert (sr !! sym = None) as Hnone.
  { destruct (sr !! sym) eqn:E; [|done]. exfalso. apply NoDup_app in Hnd as (_ & Hd & _). apply (Hd sym); [|left].
    apply Hsr. eexists. exact E. }
  match goal with |- context [match ?x with Some _ => _ | None => _ end] => assert (x = None) as -> by exact Hnone end.
  destruct (IH (pre ++ [sym]) s1 (<[sym := zlen pre]> sr) Hst1) as (sr' & s' & Hadds & Hrest & Hkeep & Hnew).
  - by rewrite <- app_assoc.
  - by rewrite <- app_assoc.
  - by rewrite <- app_assoc.
  - intros x Hx. apply elem_of_app. destruct (decide (x = sym)) as [->|Hne]; [right; left|left].
    rewrite lookup_insert_ne in Hx by done. by apply Hsr.
  - exists sr', s'. split_and!; [done..| |].
    + intros x Hx. rewrite Hkeep by (apply elem_of_app; by left). apply lookup_insert_ne. intros <-.
      apply NoDup_app in Hnd as (_ & Hd & _). apply (Hd sym Hx). left.
    + intros [|i] x Hx; cbn [lookup list_lookup] in Hx.
      * injection Hx as <-. rewrite Hkeep by (apply elem_of_app; right; left). rewrite lookup_insert_eq. f_equal. lia.
      * rewrite (Hnew i x Hx). f_equal. rewrite zlen_app. change (zlen [sym]) with 1. lia.
Qed.

(** * Posting lists *)

Definition key_less : str * str → str * str → bool := pair_less str_ltb str_ltb.

(** The list of a key, empty without one. *)
Definition list_of (n v : str) (postings : PostingsMap) : list Z := default [] (map_get (n, v) postings).

(** [postings] are those of the series [done]. *)
Definition postings_of (done : list (Z * Labels.t)) (postings : PostingsMap) : Prop :=
  ascending key_less (fst <$> postings) ∧
  (∀ n v, list_of n v postings = fst <$> filter (λ x, mkLabel n v ∈ x.2) done) ∧
  ∀ n v, (n, v) ∈ (fst <$> postings) ↔ ∃ x, x ∈ done ∧ mkLabel n v ∈ x.2.

Definition add_all (id : Z) (ls : list Label) (postings : PostingsMap) : PostingsMap :=
  foldl (λ acc l, add_posting id l acc) postings ls.

Lemma add_posting_spec id l postings :
  ascending key_less (fst <$> postings) →
  ascending key_less (fst <$> add_posting id l postings) ∧
  (∀ n v, list_of n v (add_posting id l postings) =
    list_of n v postings ++ if decide (mkLabel n v = l) then [id] else []) ∧
  ∀ n v, (n, v) ∈ (fst <$> add_posting id l postings) ↔ mkLabel n v = l ∨ (n, v) ∈ (fst <$> postings).
Proof.
  intros Hp. unfold add_posting, list_of, key_less in *. split_and!.
  - by apply (map_update_ascending (pair_less str_ltb str_ltb)).
  - intros n v. rewrite (map_get_update (pair_less str_ltb str_ltb)) by done. destruct l as [n' v']. cbn [name value].
    destruct (decide ((n, v) = (n', v'))) as [[= -> ->]|Hne].
    + by rewrite decide_True.
    + rewrite decide_False by congruence. by rewrite app_nil_r.
  - intros n v. rewrite (map_update_keys (pair_less str_ltb str_ltb)). destruct l as [n' v']. cbn [name value]. split; intros [Heq|?]; auto; left; congruence.
Qed.

Lemma add_all_spec id ls postings :
  NoDup ls → ascending key_less (fst <$> postings) →
  ascending key_less (fst <$> add_all id ls postings) ∧
  (∀ n v, list_of n v (add_all id ls postings) = list_of n v postings ++ if decide (mkLabel n v ∈ ls) then [id] else []) ∧
  ∀ n v, (n, v) ∈ (fst <$> add_all id ls postings) ↔ mkLabel n v ∈ ls ∨ (n, v) ∈ (fst <$> postings).
Proof.
  intros Hnd. revert postings. induction Hnd as [|l ls Hl _ IH]; intros postings Hp; cbn [add_all foldl].
  { split_and!; [done| |]; intros n v; [by rewrite decide_False, app_nil_r by apply not_elem_of_nil|].
    split; [by right|]. by intros [?%elem_of_nil|?]. }
  destruct (add_posting_spec id l postings Hp) as (Hp1 & Hl1 & Hk1). destruct (IH _ Hp1) as (Hp2 & Hl2 & Hk2).
  fold (add_all id ls (add_posting id l postings)). split_and!; [done| |]; intros n v.
  - rewrite Hl2, Hl1, <- app_assoc. f_equal. destruct (decide (mkLabel n v = l)) as [Heq|Hne].
    + rewrite decide_False by by rewrite Heq. by rewrite decide_True by (rewrite Heq; left).
    + cbn [app]. apply decide_ext. rewrite elem_of_cons. tauto.
  - rewrite Hk2, Hk1, elem_of_cons. tauto.
Qed.

Lemma postings_of_snoc done id labels postings :
  NoDup labels → postings_of done postings → postings_of (done ++ [(id, labels)]) (add_all id labels postings).
Proof.
  intros Hnd (Hp & Hl & Hk). destruct (add_all_spec id labels postings Hnd Hp) as (Hp1 & Hl1 & Hk1).
  split_and!; [done| |]; intros n v.
  - rewrite Hl1, Hl, filter_app, fmap_app, filter_cons, filter_nil. f_equal. cbn [snd]. by destruct (decide (mkLabel n v ∈ labels)).
  - rewrite Hk1, Hk. split.
    + intros [Hin|(x & Hx & Hin)]; [exists (id, labels)|exists x]; rewrite elem_of_app, list_elem_of_singleton; auto.
    + intros (x & [Hx| ->%list_elem_of_singleton]%elem_of_app & Hin); [right; eauto|by left].
Qed.

(** The loop over the series. *)
Definition add_prepared_pure (l : list (Z * Labels.t)) (postings : PostingsMap) : PostingsMap :=
  foldl (λ acc x, add_all x.1 x.2 acc) postings l.

Lemma postings_of_all done l postings :
  Forall (λ x : Z * Labels.t, NoDup x.2) l → postings_of done postings → postings_of (done ++ l) (add_prepared_pure l postings).
Proof.
  intros Hnd. revert done postings. induction Hnd as [|[id labels] l Hnd _ IH]; intros done postings Hp; [by rewrite app_nil_r|].
  cbn [add_prepared_pure foldl]. rewrite cons_middle, app_assoc. by apply IH, postings_of_snoc.
Qed.

Lemma postings_of_nil : postings_of [] [].
Proof.
  split_and!; [constructor|done|]. intros n v. split; [by intros ?%elem_of_nil|]. by intros (x & ?%elem_of_nil & _).
Qed.

Lemma add_prepared_eq sr prepared refss ids postings s s' :
  Forall2 (λ ps refs, label_refs sr (si_labels (ps_input ps)) = Some refs) prepared refss →
  add_all_series (zip refss (ps_metas <$> prepared)) s = (Ok ids, s') →
  add_prepared sr prepared postings s =
    (Ok (add_prepared_pure (zip ids ((λ ps, si_labels (ps_input ps)) <$> prepared)) postings), s').
Proof.
  intros Hall. revert ids postings s. induction Hall as [|ps refs prepared refss Hrefs _ IH]; intros ids postings s.
  { intros [= <- <-]. done. }
  rewrite fmap_cons. cbn [zip zip_with add_all_series add_prepared]. rewrite Hrefs. unfold rbind.
  destruct (add_series refs (ps_metas ps) s) as [[id|e|] s1]; [|done..].
  destruct (add_all_series (zip refss (ps_metas <$> prepared)) s1) as [[ids'|e|] s2] eqn:Hrest; [|done..].
  intros [= <- <-]. rewrite (IH _ _ _ Hrest). done.
Qed.

Lemma add_block_postings_eq l s : add_block_postings l s = add_all_postings l s.
Proof. revert s. induction l as [|[[n v] ids] l IH]; intros s; [done|]. cbn. unfold rbind. destruct (add_postings n v ids s) as [[]]; auto. Qed.

Lemma find_post_get n v (posts : PostingsMap) : find_post n v posts = map_get (n, v) posts.
Proof.
  induction posts as [|[[n' v'] ids] posts IH]; [done|]. cbn [find_post map_get]. rewrite IH. apply decide_ext. split; [intros [-> ->]|intros [= -> ->]]; done.
Qed.

(** ** Their size *)

Definition label_post_room (l : Label) : Z := 64 + zlen (name l) + zlen (value l).

Lemma add_posting_room id l postings :
  zsum post_room (add_posting id l postings) <= zsum post_room postings + label_post_room l.
Proof.
  unfold add_posting, label_post_room. pose proof (zlen_nonneg (name l)). pose proof (zlen_nonneg (value l)).
  induction postings as [|[[n v] ids] postings IH]; cbn [map_update].
  { rewrite zsum_cons. unfold post_room at 1. cbn [fst snd app]. change (zlen [id]) with 1. unfold str in *. lia. }
  pose proof (zsum_nonneg post_room postings (λ x _, post_room_nonneg x)).
  destruct (pair_less _ _ (name l, value l) (n, v)).
  { rewrite zsum_cons. unfold post_room at 1. cbn [fst snd app]. change (zlen [id]) with 1. unfold str in *. lia. }
  destruct (pair_less _ _ (n, v) (name l, value l)); rewrite !zsum_cons; [lia|].
  unfold post_room at 1 3. cbn [fst snd]. rewrite zlen_app. change (zlen [id]) with 1. unfold str in *. lia.
Qed.

Lemma add_all_room id ls postings :
  zsum post_room (add_all id ls postings) <= zsum post_room postings + zsum label_post_room ls.
Proof.
  revert postings. induction ls as [|l ls IH]; intros postings; cbn [add_all foldl]; [change (zsum label_post_room []) with 0; lia|].
  specialize (IH (add_posting id l postings)). unfold add_all in IH. pose proof (add_posting_room id l postings). rewrite zsum_cons. lia.
Qed.

Lemma add_prepared_room l postings :
  zsum post_room (add_prepared_pure l postings) <=
    zsum post_room postings + zsum (λ x : Z * Labels.t, zsum label_post_room x.2) l.
Proof.
  revert postings. induction l as [|x l IH]; intros postings; cbn [add_prepared_pure foldl]; [unfold zsum; cbn [foldr]; lia|].
  specialize (IH (add_all x.1 x.2 postings)). unfold add_prepared_pure in IH. pose proof (add_all_room x.1 x.2 postings).
  rewrite zsum_cons. lia.
Qed.

(** * What the index denotes *)

(** A label the index can store, and labels that belong to a series. *)
Definition label_ok (l : Label) : Prop := bytes_ok (name l) ∧ bytes_ok (value l) ∧ no_nul (name l) ∧ value l ≠ [].

#[export] Instance label_ok_dec l : Decision (label_ok l).
Proof. unfold label_ok, bytes_ok. apply _. Defined.

Definition labels_ok (ls : Labels.t) : Prop := Labels.wf ls ∧ ls ≠ [] ∧ Forall label_ok ls.

#[export] Instance labels_ok_dec ls : Decision (labels_ok ls).
Proof. unfold labels_ok, Labels.wf. apply _. Defined.

Lemma labels_nodup ls : Labels.wf ls → NoDup ls.
Proof.
  unfold Labels.wf. induction 1 as [|l ls _ IH Hl]; constructor; [|done]. intros Hin.
  rewrite Forall_forall in Hl. specialize (Hl l Hin). unfold Labels.name_less in Hl. by rewrite str_ltb_irrefl in Hl.
Qed.

Lemma get_label ls n v : Labels.wf ls → mkLabel n v ∈ ls ↔ Labels.get ls n = Some v.
Proof. intros Hwf. exact (wf_get_elem ls (mkLabel n v) Hwf). Qed.

Section Denotes.
Context (r : IndexReader.t) (syms : list str) (entries : list (Z * SeriesEntry)) (posts : PostingsMap)
  (ser : list (Z * Labels.t)).
Context (Hr : index_of r syms entries posts) (Hposts : postings_of ser posts).
Context (Hids : ascending Z.ltb (fst <$> ser)) (Hser : Forall (λ x : Z * Labels.t, labels_ok x.2) ser).

Lemma elem_posts n v ids : (n, v, ids) ∈ posts ↔ (∃ x, x ∈ ser ∧ mkLabel n v ∈ x.2) ∧ ids = list_of n v posts.
Proof.
  destruct Hposts as (Hasc & _ & Hk). rewrite <- Hk. unfold key_less in Hasc.
  rewrite (map_get_elem (pair_less str_ltb str_ltb) (n, v) posts ids Hasc). unfold list_of. split.
  - intros Hget. rewrite Hget. split; [|done]. apply (map_get_elem (pair_less str_ltb str_ltb)) in Hget; [|done].
    by apply (list_elem_of_fmap_2 fst) in Hget.
  - intros [Hin ->]. apply list_elem_of_fmap in Hin as ([k ids'] & Heq & Hin). cbn [fst] in Heq. subst k.
    apply (map_get_elem (pair_less str_ltb str_ltb)) in Hin; [|done]. by rewrite Hin.
Qed.

Lemma elem_list n v id : id ∈ list_of n v posts ↔ ∃ x, x ∈ ser ∧ x.1 = id ∧ mkLabel n v ∈ x.2.
Proof.
  destruct Hposts as (_ & Hl & _). rewrite Hl, list_elem_of_fmap. split.
  - intros (x & -> & [? ?]%list_elem_of_filter). eauto.
  - intros (x & Hx & <- & Hin). exists x. split; [done|]. by apply list_elem_of_filter.
Qed.

Lemma posts_names_ok : Forall (λ x : str * str * list Z, no_nul x.1.1) posts.
Proof.
  apply Forall_forall. intros [[n v] ids] [(x & Hx & Hin) _]%elem_posts. cbn [fst].
  rewrite Forall_forall in Hser. destruct (Hser x Hx) as (_ & _ & Hok). rewrite Forall_forall in Hok.
  by destruct (Hok _ Hin) as (_ & _ & ? & _).
Qed.

(** The union of the lists that [keep] selects by name. *)
Lemma collected keep :
  (∀ e e', pe_name e = pe_name e' → keep e = keep e') →
  ∃ ids, IndexReader.collect keep (IndexReader.data_ r) (PostingsOffsetTable.entries_ (IndexReader.postings_table_ r)) = Ok ids ∧
    ∀ id, id ∈ ids ↔ ∃ x n v, x ∈ ser ∧ x.1 = id ∧ mkLabel n v ∈ x.2 ∧ keep (mkPostingsEntry n v 0) = true.
Proof.
  intros Hkeep. rewrite (collect_posts keep _ _ _ (io_posts _ _ _ _ Hr) Hkeep). eexists. split; [done|]. intros id.
  rewrite list_elem_of_In, in_concat. setoid_rewrite <- list_elem_of_In. split.
  - intros (ids & ([[n v] ids'] & -> & [Hk Hin]%list_elem_of_filter)%list_elem_of_fmap & Hid). cbn [fst snd] in *.
    apply elem_posts in Hin as [_ ->]. apply elem_list in Hid as (x & ? & ? & ?). by exists x, n, v.
  - intros (x & n & v & Hx & Hid & Hin & Hk). exists (list_of n v posts). split; [|apply elem_list; eauto].
    apply list_elem_of_fmap. exists (n, v, list_of n v posts). split; [done|]. apply list_elem_of_filter. split; [done|].
    apply elem_posts. eauto.
Qed.

Lemma ser_wf x : x ∈ ser → Labels.wf x.2.
Proof. intros Hx. rewrite Forall_forall in Hser. by destruct (Hser x Hx). Qed.

Lemma index_denotes : denotes r ser.
Proof.
  split.
  - done.
  - eapply Forall_impl; [exact Hser|]. intros x (_ & _ & Hok). eapply Forall_impl; [exact Hok|]. by intros l (_ & _ & _ & ?).
  - intros n v Hn. rewrite (new_lookup _ _ _ _ n v Hr posts_names_ok Hn), find_post_get. fold (list_of n v posts).
    destruct Hposts as (_ & Hl & _). rewrite Hl. do 2 f_equal. apply filter_ext_in. intros x Hx. by apply get_label, ser_wf.
  - intros n. unfold IndexReader.postings_for_name.
    destruct (collected (λ e, str_eqb (pe_name e) n)) as (ids & -> & Hin); [by intros e e' ->|]. cbn [mbind outcome_bind]. f_equal.
    destruct (sort_unique_spec Z.ltb ids) as [Hasc Hmem]. apply selection_eq; [done|done| |].
    + intros x Hx. rewrite Hmem, Hin. cbn [pe_name]. split.
      * intros (y & n' & v & Hy & Heq & Hl & Hn). rewrite (ids_inj ser x y Hids Hx Hy (eq_sym Heq)).
        unfold str_eqb in Hn. apply bool_decide_eq_true in Hn as ->. apply get_label in Hl; [by rewrite Hl|by apply ser_wf].
      * intros [v Hv]. exists x, n, v. apply get_label in Hv; [|by apply ser_wf]. split_and!; [done..|].
        by apply bool_decide_eq_true_2.
    + intros id Hid. apply Hmem, Hin in Hid as (x & _ & _ & Hx & <- & _). by apply list_elem_of_fmap_2.
  - unfold IndexReader.all_postings. destruct (collected (λ _, true)) as (ids & -> & Hin); [done|]. cbn [mbind outcome_bind]. f_equal.
    destruct (sort_unique_spec Z.ltb ids) as [Hasc Hmem]. apply (ascending_unique Z.ltb); [done|done|]. intros id.
    rewrite Hmem, Hin, list_elem_of_fmap. split.
    + intros (x & n & v & Hx & <- & _). eauto.
    + intros (x & -> & Hx). rewrite Forall_forall in Hser. destruct (Hser x Hx) as (_ & Hne & _).
      destruct x as [id [|[n v] ls]]; [done|]. exists (id, mkLabel n v :: ls), n, v. split_and!; [done|done|left|done].
  - intros n v. unfold IndexReader.label_values. destruct (sort_unique_spec str_ltb (pe_value <$> filter (λ e, str_eqb (pe_name e) n = true)
      (PostingsOffsetTable.entries_ (IndexReader.postings_table_ r)))) as [_ Hmem]. rewrite Hmem, list_elem_of_fmap. clear Hmem.
    pose proof (io_posts _ _ _ _ Hr) as Hall. split.
    + intros (e & -> & [Hn He]%list_elem_of_filter). unfold str_eqb in Hn. apply bool_decide_eq_true in Hn.
      apply list_elem_of_lookup_1 in He as [i Hi]. destruct (Forall2_lookup_l _ _ _ _ _ Hall Hi) as ([[n' v'] ids] & Hp & Hn' & Hv' & _).
      apply list_elem_of_lookup_2, elem_posts in Hp as [(x & Hx & Hin) _]. exists x. split; [done|].
      rewrite <- get_label by by apply ser_wf. rewrite <- Hn, Hn', Hv'. done.
    + intros (x & Hx & Hget). apply get_label in Hget; [|by apply ser_wf].
      assert ((n, v, list_of n v posts) ∈ posts) as Hp by (apply elem_posts; eauto).
      apply list_elem_of_lookup_1 in Hp as [i Hi]. destruct (Forall2_lookup_r _ _ _ _ _ Hall Hi) as (e & He & Hn & Hv & _).
      exists e. split; [done|]. apply list_elem_of_filter. split; [by apply bool_decide_eq_true_2|by eapply list_elem_of_lookup_2].
Qed.

End Denotes.

(** * Writing the index *)

(** The room a series takes: its entry, its symbols and its postings. *)
Definition label_room (l : Label) : Z := 104 + 2 * zlen (name l) + 2 * zlen (value l).

Definition prepared_room (ps : PreparedSeries) : Z :=
  50 + 30 * zlen (ps_metas ps) + zsum label_room (si_labels (ps_input ps)).

(** The references of labels whose strings are numbered. *)
Lemma label_refs_eq (syms : list str) (sr : gmap str Z) (ls : list Label) :
  (∀ i (sym : str), syms !! i = Some sym → sr !! sym = Some (Z.of_nat i)) →
  (∀ l, l ∈ ls → name l ∈ syms ∧ value l ∈ syms) →
  ∃ refs, label_refs sr ls = Some refs ∧ resolve syms refs = ls ∧ zlen refs = zlen ls ∧
    Forall (λ r : Z * Z, 0 <= r.1 < zlen syms ∧ 0 <= r.2 < zlen syms) refs.
Proof.
  intros Hsr. unfold label_refs. induction ls as [|[n v] ls IH]; intros Hls; [by exists []|].
  destruct IH as (refs & Hrefs & Hres & Hlen & Hall); [intros l Hl; apply Hls; by right|].
  destruct (Hls (mkLabel n v)) as [[i Hi]%list_elem_of_lookup_1 [j Hj]%list_elem_of_lookup_1]; [left|]. cbn [name value] in *.
  exists ((Z.of_nat i, Z.of_nat j) :: refs). cbn [mapM].
  pose proof (Hsr i n Hi) as Hn. pose proof (Hsr j v Hj) as Hv. apply lookup_lt_Some in Hi as Hil. apply lookup_lt_Some in Hj as Hjl.
  split_and!.
  - rewrite Hrefs. cbn [name value]. setoid_rewrite Hn. cbn [mbind option_bind]. by setoid_rewrite Hv.
  - cbn [resolve fmap list_fmap fst snd]. rewrite !Nat2Z.id. unfold str in *. rewrite Hi, Hj. by f_equal.
  - rewrite !zlen_cons. lia.
  - constructor; [|done]. unfold zlen. cbn [fst snd]. lia.
Qed.

Definition prepared_ok (ps : PreparedSeries) : Prop :=
  labels_ok (si_labels (ps_input ps)) ∧ Forall IndexWriterFacts.meta_ok (ps_metas ps) ∧ is_Some (encode_chunks (ps_metas ps)).

Definition prepared_labels (prepared : list PreparedSeries) : list Labels.t := (λ ps, si_labels (ps_input ps)) <$> prepared.

Lemma refs_of_prepared (syms : list str) (sr : gmap str Z) (prepared : list PreparedSeries) :
  (∀ i (sym : str), syms !! i = Some sym → sr !! sym = Some (Z.of_nat i)) →
  (∀ ps l, ps ∈ prepared → l ∈ si_labels (ps_input ps) → name l ∈ syms ∧ value l ∈ syms) →
  Forall prepared_ok prepared →
  ∃ refss, Forall2 (λ ps refs, label_refs sr (si_labels (ps_input ps)) = Some refs) prepared refss ∧
    Forall (series_ok syms) (zip refss (ps_metas <$> prepared)) ∧
    entry_of syms <$> zip refss (ps_metas <$> prepared) =
      (λ ps, mkSeriesEntry (si_labels (ps_input ps)) (ps_metas ps)) <$> prepared ∧
    zsum series_room (zip refss (ps_metas <$> prepared)) =
      zsum (λ ps, 50 + 20 * zlen (si_labels (ps_input ps)) + 30 * zlen (ps_metas ps)) prepared.
Proof.
  intros Hsr Hin Hok. induction Hok as [|ps prepared ((Hwf & _ & _) & Hmetas & Henc) _ IH]; [by exists []|].
  destruct IH as (refss & Hrefs & Hall & Hent & Hsum); [intros ps' l Hps'; apply Hin; by right|].
  destruct (label_refs_eq syms sr (si_labels (ps_input ps)) Hsr) as (refs & Heq & Hres & Hlen & Hrange);
    [intros l; apply Hin; left|].
  exists (refs :: refss). rewrite !fmap_cons.
  change (zip (refs :: refss) (ps_metas ps :: (ps_metas <$> prepared)))
    with ((refs, ps_metas ps) :: zip refss (ps_metas <$> prepared)). split_and!.
  - by constructor.
  - constructor; [|done]. split_and!; done.
  - rewrite fmap_cons, <- Hent. f_equal. unfold entry_of. cbn [fst snd]. rewrite Hres. f_equal. by apply canonicalize_id.
  - rewrite !zsum_cons. rewrite Hsum. unfold series_room at 1. cbn [fst snd]. rewrite Hlen. done.
Qed.

Lemma labels_room ls :
  zsum (λ l, zsum sym_room (label_strings l)) ls + 20 * zlen ls + zsum label_post_room ls = zsum label_room ls.
Proof.
  induction ls as [|l ls IH]; [done|]. rewrite !zsum_cons, zlen_cons, <- IH.
  assert (zsum sym_room (label_strings l) = 20 + zlen (name l) + zlen (value l)) as ->.
  { unfold label_strings. rewrite !zsum_cons. unfold sym_room, zsum. cbn [foldr]. lia. }
  unfold label_room, label_post_room at 1. lia.
Qed.

(** The sizes of symbols and posting lists, by series. *)
Lemma prepared_rooms prepared ids :
  200 + zsum sym_room (block_symbols prepared) +
    zsum (λ ps, 50 + 20 * zlen (si_labels (ps_input ps)) + 30 * zlen (ps_metas ps)) prepared +
    zsum post_room (add_prepared_pure (zip ids (prepared_labels prepared)) []) <= 210 + zsum prepared_room prepared.
Proof.
  pose proof (add_prepared_room (zip ids (prepared_labels prepared)) []) as Hposts. change (zsum post_room []) with 0 in Hposts.
  assert (zsum sym_room (block_symbols prepared) <= zsum sym_room (strings prepared) + 10) as Hsyms.
  { rewrite block_symbols_eq. pose proof (zsum_insert_all sym_room (strings prepared) [[]] sym_room_nonneg) as Hle.
    change (zsum sym_room [[]]) with 10 in Hle. done. }
  assert (zsum (λ x : Z * Labels.t, zsum label_post_room x.2) (zip ids (prepared_labels prepared)) <=
    zsum (λ ps, zsum label_post_room (si_labels (ps_input ps))) prepared) as Hzip.
  { clear. revert ids. induction prepared as [|ps prepared IH]; intros [|id ids]; [done..| |].
    - apply zsum_nonneg. intros ps' _. apply zsum_nonneg. intros l _. unfold label_post_room.
      pose proof (zlen_nonneg (name l)). pose proof (zlen_nonneg (value l)). lia.
    - unfold prepared_labels. rewrite fmap_cons. cbn [zip zip_with]. rewrite !zsum_cons. apply Z.add_le_mono_l, IH. }
  assert (zsum sym_room (strings prepared) +
    zsum (λ ps, 50 + 20 * zlen (si_labels (ps_input ps)) + 30 * zlen (ps_metas ps)) prepared +
    zsum (λ ps, zsum label_post_room (si_labels (ps_input ps))) prepared = zsum prepared_room prepared) as Hsum; [|lia].
  clear. induction prepared as [|ps prepared IH]; [done|]. rewrite strings_cons, zsum_app, !zsum_cons, <- IH, zsum_bind.
  unfold prepared_room at 1. enough (zsum (λ l, zsum sym_room (label_strings l)) (si_labels (ps_input ps)) +
    20 * zlen (si_labels (ps_input ps)) + zsum label_post_room (si_labels (ps_input ps)) =
    zsum label_room (si_labels (ps_input ps))) by lia.
  apply labels_room.
Qed.

Lemma block_symbols_ok prepared : Forall prepared_ok prepared → Forall bytes_ok (block_symbols prepared).
Proof.
  intros Hok. apply Forall_forall. intros s [-> | Hs]%elem_of_block_symbols; [constructor|].
  unfold strings in Hs. apply list_elem_of_bind in Hs as (ps & Hs & Hps). apply list_elem_of_bind in Hs as (l & Hs & Hl).
  rewrite Forall_forall in Hok. destruct (Hok ps Hps) as ((_ & _ & Hlabels) & _). rewrite Forall_forall in Hlabels.
  destruct (Hlabels l Hl) as (? & ? & _). unfold label_strings in Hs.
  by apply elem_of_cons in Hs as [-> |[-> |?%elem_of_nil]%elem_of_cons].
Qed.

Lemma posts_ok posts (ser : list (Z * Labels.t)) :
  postings_of ser posts → ascending Z.ltb (fst <$> ser) → Forall (λ x : Z * Labels.t, labels_ok x.2) ser →
  Forall id_ok (fst <$> ser) → Forall post_ok posts.
Proof.
  intros Hposts Hasc Hser Hids. apply Forall_forall. intros [[n v] ids] Hin.
  apply (elem_posts posts ser Hposts) in Hin as [(x & Hx & Hl) ->].
  pose proof Hser as Hser'. rewrite Forall_forall in Hser'. destruct (Hser' x Hx) as (_ & _ & Hok). rewrite Forall_forall in Hok.
  destruct (Hok _ Hl) as (? & ? & ? & _). cbn [fst snd name value] in *. split_and!; [done|done|done| |].
  - apply Forall_forall. intros id (y & Hy & <- & _)%(elem_list posts ser Hposts). rewrite Forall_forall in Hids.
    by apply Hids, list_elem_of_fmap_2.
  - destruct Hposts as (_ & Hlist & _). rewrite Hlist. apply strictly_ascending_spec. by apply ascending_filter.
Qed.

Lemma zip_fst {B} (ids : list Z) (l : list B) : length ids = length l → fst <$> zip ids l = ids.
Proof. intros Hl. apply fst_zip. lia. Qed.

Lemma prepared_series_ok prepared ids :
  Forall prepared_ok prepared → Forall (λ x : Z * Labels.t, labels_ok x.2) (zip ids (prepared_labels prepared)).
Proof.
  intros Hok. apply Forall_forall. intros [id ls] Hin. apply elem_of_zip_r in Hin. cbn [snd].
  apply list_elem_of_fmap in Hin as (ps & -> & Hps). rewrite Forall_forall in Hok. by destruct (Hok ps Hps).
Qed.

(** The sum [prepared_rooms] bounds, and its parts. *)
Definition index_sum (prepared : list PreparedSeries) : Z :=
  zsum (λ ps, 50 + 20 * zlen (si_labels (ps_input ps)) + 30 * zlen (ps_metas ps)) prepared.

Lemma index_sum_nonneg prepared : 0 <= index_sum prepared.
Proof.
  apply zsum_nonneg. intros ps _. pose proof (zlen_nonneg (si_labels (ps_input ps))). pose proof (zlen_nonneg (ps_metas ps)). lia.
Qed.

Lemma symbols_room prepared :
  210 + zsum prepared_room prepared <= 2 ^ 32 → 200 + zsum sym_room (block_symbols prepared) + index_sum prepared <= 2 ^ 32.
Proof.
  intros Hroom. pose proof (prepared_rooms prepared []) as Hrooms. fold (index_sum prepared) in Hrooms.
  pose proof (zsum_nonneg post_room (add_prepared_pure (zip [] (prepared_labels prepared)) []) (λ x _, post_room_nonneg x)). lia.
Qed.

(** The phase of the symbols. *)
Lemma symbols_added prepared file fs s :
  create file fs = Ok s → Forall prepared_ok prepared → 210 + zsum prepared_room prepared <= 2 ^ 32 →
  ∃ (sr : gmap str Z) s1, add_symbols (block_symbols prepared) s = (Ok tt, s1) ∧
    add_block_symbols (block_symbols prepared) ∅ s = (Ok sr, s1) ∧
    ∀ i (sym : str), block_symbols prepared !! i = Some sym → sr !! sym = Some (Z.of_nat i).
Proof.
  intros Hcreate Hok Hroom. destruct (create_stage _ _ _ Hcreate) as [Hst0 _].
  pose proof (symbols_room prepared Hroom) as Hsum. pose proof (index_sum_nonneg prepared).
  destruct (symbols_payload_size (block_symbols prepared) (block_symbols_ok prepared Hok) ltac:(slia)) as (_ & _ & Hcount).
  pose proof (block_symbols_ascending prepared) as Hasc.
  destruct (add_block_symbols_eq (block_symbols prepared) [] s ∅ Hst0) as (sr & s1 & Hadd & Hblock & _ & Hsr); cbn [app].
  - by apply (ascending_le str_ltb).
  - slia.
  - apply Forall_forall. intros sym Hin. pose proof (zsum_elem sym_room sym _ sym_room_nonneg Hin) as Hle. unfold sym_room at 1 in Hle. slia.
  - by apply (ascending_nodup str_ltb).
  - intros sym [x Hx]. by rewrite lookup_empty in Hx.
  - exists sr, s1. split_and!; [done..|]. intros i sym Hi. exact (Hsr i sym Hi).
Qed.

(** The index file of prepared series, and what the reader finds in it. *)
Lemma write_index_file_eq prepared fs :
  fs !! k_index_filename = None → Forall prepared_ok prepared → 210 + zsum prepared_room prepared <= 2 ^ 32 →
  ∃ buf r ids, write_index_file prepared (mkWorld fs []) = (Ok tt, mkWorld (<[k_index_filename := buf]> fs) []) ∧
    IndexReader.parse buf = Ok r ∧ length ids = length prepared ∧ denotes r (zip ids (prepared_labels prepared)) ∧
    ∀ i id ps, ids !! i = Some id → prepared !! i = Some ps →
      IndexReader.series r id = Ok (mkSeriesEntry (si_labels (ps_input ps)) (ps_metas ps)).
Proof.
  intros Hnew Hok Hroom.
  assert (∃ s, create k_index_filename fs = Ok s) as [s Hcreate] by (unfold create; rewrite Hnew; eauto).
  destruct (symbols_added prepared _ _ _ Hcreate Hok Hroom) as (sr & s1 & Hadd & Hblock & Hsr).
  destruct (refs_of_prepared _ sr prepared Hsr (label_symbols prepared) Hok) as (refss & Hrefs & Hseries & Hent & Hsum).
  fold (index_sum prepared) in Hsum. set (series := zip refss (ps_metas <$> prepared)) in *.
  destruct (series_written _ _ (block_symbols prepared) series s Hcreate) as (s1' & s2 & ser & s3 & s4 & H1 & H2 & H3 & H4 & Hdone);
    [by apply (ascending_le str_ltb), block_symbols_ascending|by apply block_symbols_ok|done|rewrite Hsum; by apply symbols_room|].
  rewrite Hadd in H1. injection H1 as <-.
  pose proof (sd_series _ _ _ _ _ Hdone) as Hlen%Forall2_length. rewrite Hent, length_fmap in Hlen.
  set (ids := fst <$> ser) in *. set (labelled := zip ids (prepared_labels prepared)).
  assert (length ids = length prepared) as Hids by by unfold ids; rewrite length_fmap.
  assert (fst <$> labelled = ids) as Hfst by (apply zip_fst; unfold prepared_labels; by rewrite length_fmap).
  assert (ascending Z.ltb (fst <$> labelled)) as Hasc by (rewrite Hfst; apply Hdone).
  pose proof (prepared_series_ok prepared ids Hok) as Hlok. fold labelled in Hlok.
  assert (postings_of labelled (add_prepared_pure labelled [])) as Hpostings.
  { apply (postings_of_all []); [|apply postings_of_nil]. eapply Forall_impl; [exact Hlok|]. intros x (Hwf & _). by apply labels_nodup. }
  destruct (postings_written _ _ _ _ (add_prepared_pure labelled []) s4 Hdone) as (s5 & r & H5 & Hst & Hfile & Hparse & Hindex).
  { apply (posts_ok _ labelled); [done..|]. rewrite Hfst. unfold ids. apply Forall_fmap. apply Hdone. }
  { unfold index_room. rewrite Hsum. pose proof (prepared_rooms prepared ids) as Hle. fold labelled in Hle. fold (index_sum prepared) in Hle. lia. }
  exists (buf_ (finish s5)), r, ids. split_and!; [|done|done| |].
  - unfold write_index_file. cbn [files]. rewrite Hcreate. unfold build_index.
    rewrite (rbind_ok _ _ _ _ _ Hblock), (rbind_ok _ _ _ _ _ H2),
      (rbind_ok _ _ _ _ _ (add_prepared_eq sr prepared refss ids [] s2 s3 Hrefs H3)), (rbind_ok _ _ _ _ _ H4), add_block_postings_eq.
    fold labelled. unfold prepared_labels in labelled. fold labelled. rewrite H5.
    pose proof (close_eq s5 fs Hst) as Hclose. rewrite Hfile in Hclose. by rewrite Hclose.
  - by eapply index_denotes.
  - intros i id ps Hi Hps. apply (io_series _ _ _ _ Hindex). apply elem_of_lookup_zip_with. rewrite Hent.
    exists i, id, (mkSeriesEntry (si_labels (ps_input ps)) (ps_metas ps)). split_and!; [done..|]. by rewrite list_lookup_fmap, Hps.
Qed.

End BlockIndexFacts.
