(* ===== verification/BlockCreate.v ===== *)
(** The creation of a block: the directory [create_from_series] leaves behind,
    what [Block.open] makes of it, and the query end to end. *)

From Stdlib Require Import String.
From S2P Require Import Prelude Ordered Sorted Files Varint Bytes Crc32c Labels Matcher Record BStream Xor Chunks Query Index IndexWriter Ulid Meta Block BlockSelect BlockIndex.

Module BlockCreateFacts.
Import BytesFacts ChunksFacts IndexFacts IndexWriter IndexWriterFacts IndexWriterProps BlockSelectFacts BlockIndexFacts.

(** * Chunks *)

(** The chunks of an input as the chunk writer sees them. *)
Definition xor_chunks (cs : list ChunkInput) : list chunk := (λ c, (Encoding_XOR, ci_bytes c)) <$> cs.

Definition all_chunks (series : list SeriesInput) : list chunk := series ≫= λ s, xor_chunks (si_chunks s).

Lemma all_chunks_cons s series : all_chunks (s :: series) = xor_chunks (si_chunks s) ++ all_chunks series.
Proof. unfold all_chunks. by rewrite bind_cons. Qed.

Definition chunk_meta (c : ChunkInput) (ref : BlockChunkRef) : ChunkMeta :=
  mkChunkMeta (ci_min_time c) (ci_max_time c) (to_u64 ref).

Lemma place_all_app size l cs1 cs2 :
  place_all size l (cs1 ++ cs2) =
    let '(l1, r1) := place_all size l cs1 in let '(l2, r2) := place_all size l1 cs2 in (l2, r1 ++ r2).
Proof.
  revert l. induction cs1 as [|c cs1 IH]; intros l; cbn [app place_all]; [by destruct (place_all size l cs2)|].
  destruct (place size l c) as [l1 ref]. rewrite IH. destruct (place_all size l1 cs1) as [l2 r2].
  by destruct (place_all size l2 cs2).
Qed.

(** The series with chunks, and where their chunks go. *)
Fixpoint prepare_all (size : Z) (l : layout) (series : list SeriesInput) : layout * list PreparedSeries :=
  match series with
  | [] => (l, [])
  | s :: series =>
      if bool_decide (si_chunks s = []) then prepare_all size l series
      else
        let '(l, refs) := place_all size l (xor_chunks (si_chunks s)) in
        let '(l, rest) := prepare_all size l series in
        (l, mkPrepared s (zip_with chunk_meta (si_chunks s) refs) :: rest)
  end.

Lemma prepare_all_layout size l series : (prepare_all size l series).1 = (place_all size l (all_chunks series)).1.
Proof.
  revert l. induction series as [|s series IH]; intros l; [done|]. cbn [prepare_all].
  rewrite all_chunks_cons, place_all_app. case_bool_decide as Hs.
  - rewrite Hs. change (xor_chunks []) with ([] : list chunk). cbn [place_all]. specialize (IH l). by destruct (place_all size l _).
  - destruct (place_all size l (xor_chunks (si_chunks s))) as [l1 refs]. specialize (IH l1).
    destruct (prepare_all size l1 series) as [l2 rest]. by destruct (place_all size l1 _).
Qed.

Definition count_all (cs : list ChunkInput) (tot : Totals) : Totals := foldl (λ tot c, count_chunk c tot) tot cs.

Lemma write_chunk_inputs_eq size l cs tot st :
  writing size l st → Forall chunk_ok (xor_chunks cs) → size <= 2 ^ 32 →
  Z.of_nat (length (segments (place_all size l (xor_chunks cs)).1)) < 10 ^ 6 →
  ∃ st', write_chunk_inputs cs tot st =
      (Ok (zip_with chunk_meta cs (place_all size l (xor_chunks cs)).2, count_all cs tot), st') ∧
    writing size (place_all size l (xor_chunks cs)).1 st'.
Proof.
  intros Hw Hcs Hsize. revert l tot st Hw. induction cs as [|c cs IH]; intros l tot st Hw Hlen; [by exists st|].
  unfold xor_chunks in *. rewrite fmap_cons in *. apply Forall_cons_1 in Hcs as [Hc Hcs]. cbn [write_chunk_inputs place_all] in *.
  pose proof (write_writing size l _ st Hw Hc Hsize) as Hstep.
  destruct (place size l (Encoding_XOR, ci_bytes c)) as [l1 ref]. cbn [fst snd] in *.
  set (f := λ c, (Encoding_XOR, ci_bytes c)) in *. pose proof (place_all_length size l1 (f <$> cs)).
  specialize (IH Hcs l1 (count_chunk c tot)). destruct (place_all size l1 (f <$> cs)) as [l2 refs]. cbn [fst snd] in *.
  destruct Hstep as (st1 & Hwrite & Hw1); [lia|]. rewrite (rbind_ok _ _ _ _ _ Hwrite). cbv zeta.
  destruct (IH st1 Hw1 Hlen) as (st2 & Hrest & Hw2). by rewrite (rbind_ok _ _ _ _ _ Hrest); exists st2.
Qed.

Lemma write_series_inputs_eq size l series tot st :
  writing size l st → Forall chunk_ok (all_chunks series) → size <= 2 ^ 32 →
  Z.of_nat (length (segments (place_all size l (all_chunks series)).1)) < 10 ^ 6 →
  ∃ st', write_series_inputs series tot st =
      (Ok ((prepare_all size l series).2, count_all (series ≫= si_chunks) tot), st') ∧
    writing size (prepare_all size l series).1 st'.
Proof.
  intros Hw Hcs Hsize. revert l tot st Hw. induction series as [|s series IH]; intros l tot st Hw Hlen; [by exists st|].
  rewrite all_chunks_cons in Hcs, Hlen. apply Forall_app in Hcs as [Hc Hcs]. rewrite place_all_app in Hlen. rewrite bind_cons.
  cbn [write_series_inputs prepare_all]. unfold count_all. rewrite foldl_app. fold (count_all (si_chunks s) tot).
  destruct (si_chunks s) as [|c cs] eqn:Hs.
  { rewrite bool_decide_eq_true_2 by done. change (xor_chunks []) with ([] : list chunk) in Hlen. cbn [place_all] in Hlen. apply IH; [done..|].
    by destruct (place_all size l _). }
  rewrite bool_decide_eq_false_2 by done. rewrite <- Hs in *.
  pose proof (write_chunk_inputs_eq size l (si_chunks s) tot st Hw Hc Hsize) as Hstep.
  destruct (place_all size l (xor_chunks (si_chunks s))) as [l1 refs]. cbn [fst snd] in *.
  pose proof (place_all_length size l1 (all_chunks series)).
  specialize (IH Hcs l1 (count_all (si_chunks s) tot)).
  destruct (place_all size l1 (all_chunks series)) as [l2 refs2]. cbn [fst snd] in *.
  destruct Hstep as (st1 & Hwrite & Hw1); [lia|]. destruct (IH st1 Hw1 Hlen) as (st2 & Hrest & Hw2).
  rewrite (rbind_ok _ _ _ _ _ Hwrite). cbn [snd]. rewrite (rbind_ok _ _ _ _ _ Hrest). exists st2.
  destruct (prepare_all size l1 series) as [l3 rest]. done.
Qed.

(** [m] describes the chunk [c], which is stored. *)
Definition described (segs : list (list chunk)) (c : ChunkInput) (m : ChunkMeta) : Prop :=
  ∃ ref, m = chunk_meta c ref ∧ stored segs ref (Encoding_XOR, ci_bytes c).

Definition with_chunks (series : list SeriesInput) : list SeriesInput := filter (λ s, si_chunks s ≠ []) series.

Lemma prepare_all_spec size l series :
  size <= 2 ^ 32 →
  let '(l', prepared) := prepare_all size l series in
  Forall2 (λ s ps, ps_input ps = s ∧ Forall2 (described (segments l')) (si_chunks s) (ps_metas ps)) (with_chunks series) prepared ∧
  (∀ ref c, stored (segments l) ref c → stored (segments l') ref c).
Proof.
  intros Hsize. revert l. induction series as [|s series IH]; intros l; cbn [prepare_all]; [by split; [constructor|]|].
  unfold with_chunks in *. rewrite filter_cons. case_bool_decide as Hs.
  { rewrite decide_False by by intros Hn. apply IH. }
  rewrite decide_True by done. pose proof (place_all_spec size l (xor_chunks (si_chunks s)) Hsize) as Hall.
  destruct (place_all size l (xor_chunks (si_chunks s))) as [l1 refs]. destruct Hall as (_ & _ & Hstored & Hkeep1).
  specialize (IH l1). destruct (prepare_all size l1 series) as [l2 rest]. destruct IH as [Hrest Hkeep2].
  split; [|by auto]. constructor; [|done]. split; [done|]. cbn [ps_metas].
  unfold xor_chunks in Hstored. rewrite Forall2_fmap_r in Hstored.
  revert Hstored. generalize (si_chunks s). clear -Hkeep2. intros cs0 Hstored. induction Hstored as [|ref c refs cs Hst _ IH]; cbn [zip_with]; constructor; [|done].
  exists ref. split; [done|]. by apply Hkeep2.
Qed.

Lemma write_chunk_files_eq series fs :
  (∀ name, is_Some (fs !! name) → parse_chunk_name name = None) → Forall chunk_ok (all_chunks series) →
  Z.of_nat (length (segments (place_all k_default_chunks_segment_size ([], []) (all_chunks series)).1)) < 10 ^ 6 →
  ∃ fs' segs prepared, write_chunk_files series (mkWorld fs []) =
      (Ok (prepared, count_all (series ≫= si_chunks) totals_init), mkWorld fs' []) ∧
    chunks_dir fs' segs ∧ segs_ok segs ∧
    Forall2 (λ s ps, ps_input ps = s ∧ Forall2 (described segs) (si_chunks s) (ps_metas ps)) (with_chunks series) prepared.
Proof.
  intros Hfresh Hcs Hlen. unfold write_chunk_files.
  destruct (chunk_open_writing k_default_chunks_segment_size fs Hfresh) as ([cw w] & Hopen & Hw). rewrite Hopen. cbn [fst snd].
  assert (k_default_chunks_segment_size <= 2 ^ 32) as Hsize by done.
  destruct (write_series_inputs_eq _ _ series totals_init _ Hw Hcs Hsize Hlen) as (st1 & Hwrite & Hw1).
  rewrite (rbind_ok _ _ _ _ _ Hwrite). pose proof (prepare_all_spec k_default_chunks_segment_size ([], []) series Hsize) as Hspec.
  destruct (prepare_all k_default_chunks_segment_size ([], []) series) as [l prepared]. destruct Hspec as [Hspec _]. cbn [fst snd] in *.
  destruct (close_writing _ _ _ Hw1) as (s' & Hclose & Hdir & Hok & Hdestroy). rewrite (rbind_ok _ _ _ _ _ Hclose). cbn [rret].
  unfold rret. rewrite Hdestroy. exists (files st1.2), (segments l), prepared.
  destruct st1 as [s1 [fs1 scr]], Hw1 as (_ & Hscr & _). cbn [snd files script] in *. by subst scr.
Qed.

(** * Inputs *)

(** The times of a chunk and of consecutive chunks whose differences the index
    can store. *)
Definition chunk_input_ok (c : ChunkInput) : Prop :=
  is_i64 (ci_min_time c) = true ∧ is_i64 (ci_max_time c) = true ∧ is_i64 (ci_max_time c - ci_min_time c) = true ∧
  bytes_ok (ci_bytes c) ∧ zlen (ci_bytes c) < 2 ^ 62.

#[export] Instance chunk_input_ok_dec c : Decision (chunk_input_ok c).
Proof. unfold chunk_input_ok, bytes_ok. apply _. Defined.

Fixpoint gaps_ok (t0 : Z) (cs : list ChunkInput) : bool :=
  match cs with
  | [] => true
  | c :: cs => is_i64 (ci_min_time c - t0) && gaps_ok (ci_max_time c) cs
  end.

Definition series_input_ok (s : SeriesInput) : Prop :=
  labels_ok (si_labels s) ∧ Forall chunk_input_ok (si_chunks s) ∧
  match si_chunks s with [] => True | c :: cs => gaps_ok (ci_max_time c) cs = true end.

#[export] Instance series_input_ok_dec s : Decision (series_input_ok s).
Proof. unfold series_input_ok. destruct (si_chunks s); apply _. Defined.

(** The room a series takes in the index. *)
Definition series_input_room (s : SeriesInput) : Z := 50 + 30 * zlen (si_chunks s) + zsum label_room (si_labels s).

Lemma label_room_nonneg l : 0 <= label_room l.
Proof. unfold label_room. pose proof (zlen_nonneg (name l)). pose proof (zlen_nonneg (value l)). lia. Qed.

Lemma series_input_room_pos s : 50 + 30 * zlen (si_chunks s) <= series_input_room s.
Proof. unfold series_input_room. pose proof (zsum_nonneg label_room (si_labels s) (λ l _, label_room_nonneg l)). lia. Qed.

(** ** Chunk references *)

Lemma to_u64_eq seq off : 0 <= seq < 2 ^ 32 → 0 <= off < 2 ^ 32 → to_u64 (mkRef seq off) = off + seq * 2 ^ 32.
Proof.
  intros Hs Ho. unfold to_u64. cbn [ref_seq ref_offset].
  rewrite u64_small by (rewrite Z.shiftl_mul_pow2 by lia; width).
  by rewrite Z.lor_comm, lor_shiftl_add by lia.
Qed.

Lemma from_to_u64 seq off : 0 <= seq < 2 ^ 32 → 0 <= off < 2 ^ 32 → from_u64 (to_u64 (mkRef seq off)) = mkRef seq off.
Proof.
  intros Hs Ho. rewrite to_u64_eq by done. unfold from_u64. f_equal.
  - rewrite Z.shiftr_div_pow2, Z.div_add, Z.div_small by lia. unfold u32. apply Z.mod_small. lia.
  - change 0xFFFFFFFF with (Z.ones 32). rewrite Z.land_ones, Z.mod_add, Z.mod_small by lia. unfold u32. apply Z.mod_small. lia.
Qed.

Lemma stored_range segs ref c :
  Z.of_nat (length segs) < 10 ^ 6 → stored segs ref c → 0 <= ref_seq ref < 10 ^ 6 ∧ 0 <= ref_offset ref < 2 ^ 32.
Proof.
  intros Hlen (i & pre & post & Hi & -> & Hoff). cbn [ref_seq ref_offset]. apply lookup_lt_Some in Hi.
  pose proof (zlen_nonneg (seg_bytes pre)). lia.
Qed.

(** ** Chunk descriptions *)

Section Described.
Context (segs : list (list chunk)).
Context (Hsegs : Z.of_nat (length segs) < 10 ^ 6).

Lemma described_meta c m :
  described segs c m → chunk_input_ok c →
  IndexWriterFacts.meta_ok m ∧ min_time m = ci_min_time c ∧ max_time m = ci_max_time c ∧
  i64 (chunk_ref m) = chunk_ref m ∧ 0 <= chunk_ref m < 2 ^ 62 ∧ stored segs (from_u64 (chunk_ref m)) (Encoding_XOR, ci_bytes c).
Proof.
  intros (ref & -> & Hst) (Hmin & Hmax & _). pose proof (stored_range _ _ _ Hsegs Hst) as [Hs Ho]. destruct ref as [seq off]. cbn [ref_seq ref_offset] in *.
  unfold chunk_meta, IndexWriterFacts.meta_ok. cbn [min_time max_time chunk_ref].
  rewrite from_to_u64 by lia. pose proof (to_u64_eq seq off ltac:(lia) ltac:(lia)) as ->.
  split_and!; [done|done|width|done|done|apply i64_small; width|lia|lia|done].
Qed.

Lemma i64_sub_eq a b : is_i64 (a - b) = true → i64_sub a b = Some (a - b).
Proof. intros Hd. by apply i64_sub_Some. Qed.

Lemma described_deltas cs ms t0 ref0 :
  Forall2 (described segs) cs ms → Forall chunk_input_ok cs → gaps_ok t0 cs = true → 0 <= ref0 < 2 ^ 62 →
  is_Some (chunk_deltas t0 ref0 ms).
Proof.
  intros Hall. revert t0 ref0. induction Hall as [|c m cs ms Hd _ IH]; intros t0 ref0 Hok Hgaps Href; [by eexists|].
  apply Forall_cons_1 in Hok as [Hc Hok]. cbn [gaps_ok] in Hgaps. apply andb_prop in Hgaps as [Hgap Hgaps].
  pose proof Hc as (_ & _ & Hspan & _). destruct (described_meta c m Hd Hc) as (_ & Hmin & Hmax & Hi & Hr & _).
  cbn [chunk_deltas]. rewrite Hmin, Hmax, Hi. rewrite !i64_sub_eq by (done || width). cbn [mbind option_bind].
  destruct (IH (ci_max_time c) (chunk_ref m) Hok Hgaps Hr) as [bs ->]. by eexists.
Qed.

Lemma described_encodes cs ms :
  Forall2 (described segs) cs ms → Forall chunk_input_ok cs →
  match cs with [] => True | c :: cs => gaps_ok (ci_max_time c) cs = true end → is_Some (encode_chunks ms).
Proof.
  intros Hall Hok Hgaps. destruct Hall as [|c m cs ms Hd Hall]; [by eexists|]. apply Forall_cons_1 in Hok as [Hc Hok].
  pose proof Hc as (_ & _ & Hspan & _). destruct (described_meta c m Hd Hc) as (_ & Hmin & Hmax & Hi & Hr & _).
  cbn [encode_chunks]. rewrite Hmin, Hmax, Hi. rewrite i64_sub_eq by done. cbn [mbind option_bind].
  destruct (described_deltas cs ms (ci_max_time c) (chunk_ref m) Hall Hok Hgaps Hr) as [bs ->]. by eexists.
Qed.

Lemma described_prepared s ps :
  ps_input ps = s → Forall2 (described segs) (si_chunks s) (ps_metas ps) → series_input_ok s →
  prepared_ok ps ∧ prepared_room ps = series_input_room s.
Proof.
  intros <- Hd (Hl & Hc & Hgaps). split.
  - split_and!; [done| |by eapply described_encodes].
    revert Hd Hc. generalize (si_chunks (ps_input ps)) (ps_metas ps). clear -Hsegs. induction 1 as [|c m cs ms Hd _ IH]; intros Hc; [constructor|].
    apply Forall_cons_1 in Hc as [Hc Hcs]. constructor; [|by apply IH]. by eapply described_meta.
  - unfold prepared_room, series_input_room, zlen. by rewrite (Forall2_length _ _ _ Hd).
Qed.

End Described.

(** * Counters *)

Definition times_ok (tot : Totals) : Prop := is_i64 (tot_min_time tot) = true ∧ is_i64 (tot_max_time tot) = true.

Lemma count_all_times cs tot :
  times_ok tot → Forall chunk_input_ok cs →
  times_ok (count_all cs tot) ∧ tot_min_time (count_all cs tot) <= tot_min_time tot ∧ tot_max_time tot <= tot_max_time (count_all cs tot) ∧
  Forall (λ c, tot_min_time (count_all cs tot) <= ci_min_time c ∧ ci_max_time c <= tot_max_time (count_all cs tot)) cs.
Proof.
  intros Htot Hcs. revert tot Htot. induction Hcs as [|c cs (Hmin & Hmax & _) _ IH]; intros tot Htot; [by split_and!|].
  cbn [count_all foldl]. destruct (IH (count_chunk c tot)) as (Hok & H1 & H2 & H3).
  { destruct Htot. unfold times_ok, count_chunk. cbn [tot_min_time tot_max_time].
    by destruct (ci_min_time c <? _), (_ <? ci_max_time c). }
  fold (count_all cs (count_chunk c tot)). generalize dependent (count_all cs (count_chunk c tot)). intros res Hok H1 H2 H3.
  unfold count_chunk in H1, H2. cbn [tot_min_time tot_max_time] in *.
  destruct (Z.ltb_spec (ci_min_time c) (tot_min_time tot)), (Z.ltb_spec (tot_max_time tot) (ci_max_time c)).
  all: split_and!; [done|lia|lia|constructor; [lia|done]].
Qed.

Lemma count_all_chunks cs tot :
  0 <= total_chunks tot → total_chunks tot + zlen cs < 2 ^ 64 → total_chunks (count_all cs tot) = total_chunks tot + zlen cs.
Proof.
  revert tot. induction cs as [|c cs IH]; intros tot H0 Hlen; cbn [count_all foldl]; [change (zlen []) with 0; lia|].
  rewrite zlen_cons in *. pose proof (zlen_nonneg cs). fold (count_all cs (count_chunk c tot)).
  assert (total_chunks (count_chunk c tot) = total_chunks tot + 1) as Heq by (unfold count_chunk; cbn [total_chunks]; apply u64_small; width).
  rewrite IH; rewrite Heq; lia.
Qed.

Lemma count_all_u64 cs tot :
  is_u64 (total_samples tot) = true → is_u64 (total_chunks tot) = true →
  is_u64 (total_samples (count_all cs tot)) = true ∧ is_u64 (total_chunks (count_all cs tot)) = true.
Proof.
  revert tot. induction cs as [|c cs IH]; intros tot H1 H2; [done|]. cbn [count_all foldl]. apply IH; apply u64_range.
Qed.

(** * The metadata *)

Section Meta.
Context `{JsonLaws}.

Lemma ulid_utf8 now random : utf8 (new_ulid now random).
Proof. apply utf8_ascii. eapply Forall_impl; [apply UlidFacts.encode_ascii|]. intros c Hc. cbn beta in *. lia. Qed.

Lemma block_meta_ok now random prepared tot :
  times_ok tot → is_u64 (total_samples tot) = true → is_u64 (total_chunks tot) = true → zlen prepared < 2 ^ 64 →
  MetaFacts.meta_ok (block_meta (new_ulid now random) prepared tot).
Proof.
  intros [Hmin Hmax] Hs Hc Hlen. pose proof (zlen_nonneg prepared). unfold block_meta.
  split_and!; cbn [BlockMeta.version BlockMeta.ulid BlockMeta.min_time BlockMeta.max_time BlockMeta.stats BlockMeta.compaction].
  - lia.
  - lia.
  - apply ulid_utf8.
  - by destruct prepared.
  - by destruct prepared.
  - split_and!; try done. cbn [BlockStats.num_series]. width.
  - split_and!; cbn [BlockMetaCompaction.level BlockMetaCompaction.sources BlockMetaCompaction.parents BlockMetaCompaction.hints]; [lia|lia| |constructor..].
    constructor; [apply ulid_utf8|constructor].
Qed.

Lemma write_meta_eq m fs :
  MetaFacts.meta_ok m → BlockMeta.version m = k_meta_version_1 →
  ∃ fs', write_meta m (mkWorld fs []) = (Ok tt, mkWorld fs' []) ∧ read_meta fs' = Ok m ∧
    (∀ name, name ≠ k_meta_filename → name ≠ k_meta_filename ++ text ".tmp" → fs' !! name = fs !! name) ∧
    ∀ name bs, name ≠ k_meta_filename → read_meta (<[name := bs]> fs') = Ok m.
Proof.
  intros Hm Hv. destruct (MetaFacts.encode_decode m Hm) as (t & Henc & Hdec). rewrite Hv in Hdec.
  change (k_meta_version_1 =? k_meta_version_1) with true in Hdec. cbn iota in Hdec. unfold write_meta. rewrite Henc.
  destruct (MetaFacts.atomic_write_other k_meta_filename t fs) as (fs' & Hw & Hf & Hother). exists fs'.
  split_and!; [done| |done|]; [by unfold read_meta; rewrite Hf|]. intros name bs Hne. unfold read_meta.
  assert (<[name := bs]> fs' !! k_meta_filename = Some t) as -> by by rewrite lookup_insert_ne. done.
Qed.

End Meta.

(** * The directory *)

Lemma make_dir_eq dir ds :
  ds !! dir = None → make_dir dir (mkDisk ds []) = (Ok tt, mkDisk (<[dir := mkDir ∅ None]> ds) []).
Proof. intros Hnew. unfold make_dir, rbind, disk_call. cbn. by rewrite Hnew. Qed.

Lemma in_files_eq {A} dir (m : World → A * World) a ds fs fs' cs :
  ds !! dir = Some (mkDir fs cs) → m (mkWorld fs []) = (a, mkWorld fs' []) →
  in_files dir m (mkDisk ds []) = (a, mkDisk (<[dir := mkDir fs' cs]> ds) []).
Proof. intros Hd Hm. unfold in_files, dir_of. cbn [dirs calls]. rewrite Hd. cbn [default from_option id dir_files]. by rewrite Hm. Qed.

Lemma in_chunks_eq {A} dir (m : World → A * World) a ds fs cs' :
  ds !! dir = Some (mkDir fs None) → m (mkWorld ∅ []) = (a, mkWorld cs' []) →
  in_chunks dir m (mkDisk ds []) = (a, mkDisk (<[dir := mkDir fs (Some cs')]> ds) []).
Proof. intros Hd Hm. unfold in_chunks, dir_of. cbn [dirs calls]. rewrite Hd. cbn [default from_option id dir_chunks]. by rewrite Hm. Qed.

Lemma write_tombstones_eq fs : write_tombstones (mkWorld fs []) = (Ok tt, mkWorld (<[k_tombstones_filename := []]> fs) []).
Proof. done. Qed.

(** The steps one after the other on a disk where nothing fails. *)
Lemma create_eq `{Json} now random series ds cs prepared tot fs1 fs2 :
  ds !! new_ulid now random = None →
  write_chunk_files series (mkWorld ∅ []) = (Ok (prepared, tot), mkWorld cs []) →
  write_index_file prepared (mkWorld ∅ []) = (Ok tt, mkWorld fs1 []) →
  write_meta (block_meta (new_ulid now random) prepared tot) (mkWorld fs1 []) = (Ok tt, mkWorld fs2 []) →
  create_from_series now random series (mkDisk ds []) =
    (Ok (new_ulid now random),
     mkDisk (<[new_ulid now random := mkDir (<[k_tombstones_filename := []]> fs2) (Some cs)]> ds) []).
Proof.
  intros Hnew Hc Hi Hm. unfold create_from_series. set (ulid := new_ulid now random) in *.
  rewrite (rbind_ok _ _ _ _ _ (make_dir_eq ulid ds Hnew)).
  rewrite (rbind_ok _ _ _ _ _ (in_chunks_eq ulid _ _ _ ∅ cs (lookup_insert_eq _ _ _) Hc)), insert_insert_eq. cbn [fst snd].
  rewrite (rbind_ok _ _ _ _ _ (in_files_eq ulid _ _ _ ∅ fs1 _ (lookup_insert_eq _ _ _) Hi)), insert_insert_eq.
  rewrite (rbind_ok _ _ _ _ _ (in_files_eq ulid _ _ _ fs1 fs2 _ (lookup_insert_eq _ _ _) Hm)), insert_insert_eq.
  by rewrite (rbind_ok _ _ _ _ _ (in_files_eq ulid _ _ _ fs2 _ _ (lookup_insert_eq _ _ _) (write_tombstones_eq fs2))), insert_insert_eq.
Qed.

(** * What a reader sees *)

(** A prepared series in the block. *)
Definition view_of (id : Z) (ps : PreparedSeries) : view :=
  mkView id (si_labels (ps_input ps)) (zip (ps_metas ps) (ci_bytes <$> si_chunks (ps_input ps))).

(** The series as they were given, and as they were prepared. *)
Definition prepared_from (segs : list (list chunk)) (s : SeriesInput) (ps : PreparedSeries) : Prop :=
  ps_input ps = s ∧ Forall2 (described segs) (si_chunks s) (ps_metas ps).

Lemma views_labels ids prepared :
  (λ v, (vw_id v, vw_labels v)) <$> zip_with view_of ids prepared = zip ids (prepared_labels prepared).
Proof.
  unfold prepared_labels. revert ids. induction prepared as [|ps prepared IH]; intros [|id ids]; [done..|].
  rewrite fmap_cons. cbn [zip_with]. rewrite fmap_cons, IH. done.
Qed.

(** A result without the references of its chunks. *)
Definition answer (r : QueryResult) : Labels.t * list (XORChunk.t * Z * Z) :=
  (qr_labels r, zip_with (λ x m, (x, min_time m, max_time m)) (qr_chunks r) (qr_metas r)).

Definition in_range (mint maxt : Z) (c : ChunkInput) : bool := (ci_min_time c <=? maxt) && (mint <=? ci_max_time c).

(** What a query over the closed range returns of a series. *)
Definition selected (mint maxt : Z) (s : SeriesInput) : option (Labels.t * list (XORChunk.t * Z * Z)) :=
  match filter (λ c, in_range mint maxt c = true) (si_chunks s) with
  | [] => None
  | cs => Some (si_labels s, (λ c, (XORChunk.from_bytes (ci_bytes c), ci_min_time c, ci_max_time c)) <$> cs)
  end.

(** A view that shows a series input. *)
Definition input_of (c : ChunkMeta * list Z) : ChunkInput := mkChunkInput (min_time c.1) (max_time c.1) c.2.

Definition shows (s : SeriesInput) (v : view) : Prop :=
  vw_labels v = si_labels s ∧
  input_of <$> vw_chunks v = si_chunks s.

Lemma selected_chunks mint maxt (cs : list (ChunkMeta * list Z)) :
  let found := filter (λ c : ChunkMeta * list Z, overlaps mint maxt c.1 = true) cs in
  zip_with (λ x m, (x, min_time m, max_time m)) ((λ c, XORChunk.from_bytes c.2) <$> found) (fst <$> found) =
    (λ c, (XORChunk.from_bytes (ci_bytes c), ci_min_time c, ci_max_time c)) <$>
      filter (λ c, in_range mint maxt c = true) (input_of <$> cs) ∧
  (found = [] ↔ filter (λ c, in_range mint maxt c = true) (input_of <$> cs) = []).
Proof.
  induction cs as [|c cs IH]; [done|]. cbn zeta in *. rewrite fmap_cons, !filter_cons.
  change (in_range mint maxt (input_of c)) with (overlaps mint maxt c.1).
  destruct (decide (overlaps mint maxt c.1 = true)); [|done]. split; [|done]. rewrite !fmap_cons. cbn [zip_with]. by rewrite (proj1 IH).
Qed.

Lemma result_answer mint maxt s v : shows s v → answer <$> result_of mint maxt v = selected mint maxt s.
Proof.
  intros [Hl Hc]. unfold result_of, selected. rewrite <- Hc, <- Hl.
  destruct (selected_chunks mint maxt (vw_chunks v)) as [Heq Hnil]. cbn zeta in *.
  destruct (filter (λ c : ChunkMeta * list Z, _) _) as [|x l], (filter (λ c, in_range mint maxt c = true) _) as [|c cs].
  - done.
  - by destruct (proj1 Hnil eq_refl).
  - by destruct (proj2 Hnil eq_refl).
  - apply (f_equal (λ a, Some (vw_labels v, a)) Heq).
Qed.

Lemma selected_without_chunks mint maxt s : si_chunks s = [] → selected mint maxt s = None.
Proof. unfold selected. by intros ->. Qed.

Lemma omap_cons {A B} (f : A → option B) x l : omap f (x :: l) = match f x with Some y => y :: omap f l | None => omap f l end.
Proof. done. Qed.

Lemma answers_shown `{RegexEngine} ms mint maxt series vs :
  Forall2 shows series vs →
  answer <$> omap (result_of mint maxt) (filter (accepts ms) vs) =
    omap (selected mint maxt) (filter (λ s, labels_match_all (si_labels s) ms = true) series).
Proof.
  induction 1 as [|s v series vs Hs _ IH]; [done|]. rewrite !filter_cons. pose proof Hs as [Hl _].
  destruct (decide (accepts ms v)) as [Ha|Ha]; unfold accepts in Ha; rewrite Hl in Ha.
  - rewrite decide_True by done. rewrite !omap_cons, <- (result_answer mint maxt s v Hs), <- IH. by destruct (result_of mint maxt v).
  - by rewrite decide_False.
Qed.

Lemma answers_with_chunks `{RegexEngine} ms mint maxt series :
  omap (selected mint maxt) (filter (λ s, labels_match_all (si_labels s) ms = true) (with_chunks series)) =
    omap (selected mint maxt) (filter (λ s, labels_match_all (si_labels s) ms = true) series).
Proof.
  unfold with_chunks. induction series as [|s series IH]; [done|]. rewrite !filter_cons.
  destruct (decide (si_chunks s ≠ [])) as [Hne|Hnil]; rewrite ?filter_cons;
    destruct (decide (labels_match_all (si_labels s) ms = true)); rewrite ?omap_cons, ?IH; [done|done| |done].
  rewrite selected_without_chunks; [done|]. by destruct (si_chunks s); [|exfalso; apply Hnil].
Qed.

Section Views.
Context (segs : list (list chunk)).
Context (Hsegs : Z.of_nat (length segs) < 10 ^ 6).

Lemma shows_prepared s ps id : prepared_from segs s ps → shows s (view_of id ps).
Proof.
  intros [<- Hall]. split; [done|]. cbn [vw_chunks view_of]. clear -Hall.
  induction Hall as [|c m cs ms (ref & -> & _) _ IH]; [done|]. rewrite fmap_cons.
  change (zip (chunk_meta c ref :: ms) (ci_bytes c :: (ci_bytes <$> cs))) with ((chunk_meta c ref, ci_bytes c) :: zip ms (ci_bytes <$> cs)).
  rewrite fmap_cons, IH. by destruct c.
Qed.

Lemma shows_all series prepared ids :
  Forall2 (prepared_from segs) series prepared → length ids = length prepared →
  Forall2 shows series (zip_with view_of ids prepared).
Proof.
  intros Hall. revert ids. induction Hall as [|s ps series prepared Hp _ IH]; intros [|id ids] Hlen; try done.
  cbn [zip_with]. constructor; [by apply shows_prepared|]. apply IH. by injection Hlen.
Qed.

(** The handle on the new block. *)
Lemma block_of_prepared fs series prepared ids r dir meta :
  chunks_dir fs segs → segs_ok segs → Forall2 (prepared_from segs) series prepared → Forall series_input_ok series →
  denotes r (zip ids (prepared_labels prepared)) →
  (∀ i id ps, ids !! i = Some id → prepared !! i = Some ps →
    IndexReader.series r id = Ok (mkSeriesEntry (si_labels (ps_input ps)) (ps_metas ps))) →
  block_of fs (zip_with view_of ids prepared) (Block.mk dir meta r (ChunkReader.open fs)).
Proof.
  intros Hdir Hok Hall Hin Hden Hser. split_and!; cbn [Block.index_ Block.chunks_].
  - by rewrite views_labels.
  - intros v (i & id & ps & -> & Hi & Hps)%elem_of_lookup_zip_with. cbn [vw_id vw_labels vw_chunks view_of].
    rewrite (Hser i id ps Hi Hps). do 2 f_equal. symmetry. apply fst_zip. rewrite length_fmap.
    destruct (Forall2_lookup_r _ _ _ _ _ Hall Hps) as (s & _ & <- & Hd). apply Forall2_length in Hd. lia.
  - exists segs. split_and!; [done|done|by apply open_reader|].
    intros v c (i & id & ps & -> & Hi & Hps)%elem_of_lookup_zip_with Hc. cbn [vw_chunks view_of] in Hc.
    destruct (Forall2_lookup_r _ _ _ _ _ Hall Hps) as (s & Hs & <- & Hd).
    apply elem_of_lookup_zip_with in Hc as (j & m & bs & -> & Hm & Hbs). rewrite list_lookup_fmap in Hbs.
    destruct (si_chunks (ps_input ps) !! j) as [ci|] eqn:Hci; [|done]. injection Hbs as <-. cbn [fst snd].
    apply (described_meta segs Hsegs ci m); [by eapply Forall2_lookup_lr|].
    rewrite Forall_lookup in Hin. destruct (Hin i _ Hs) as (_ & Hcs & _). rewrite Forall_lookup in Hcs. by apply (Hcs j).
Qed.

End Views.

(** * Sizes *)

Lemma zsum_with_chunks series : zsum series_input_room (with_chunks series) <= zsum series_input_room series.
Proof.
  unfold with_chunks. induction series as [|s series IH]; [done|]. rewrite filter_cons, zsum_cons.
  pose proof (series_input_room_pos s). pose proof (zlen_nonneg (si_chunks s)).
  destruct (decide (si_chunks s ≠ [])); [rewrite zsum_cons|]; lia.
Qed.

Lemma prepared_zsum segs series prepared :
  Z.of_nat (length segs) < 10 ^ 6 → Forall2 (prepared_from segs) series prepared → Forall series_input_ok series →
  Forall prepared_ok prepared ∧ zsum prepared_room prepared = zsum series_input_room series.
Proof.
  intros Hsegs. induction 1 as [|s ps series prepared [Hs Hd] _ IH]; intros Hok; [done|].
  apply Forall_cons_1 in Hok as [Hok Hrest]. destruct (described_prepared segs Hsegs s ps Hs Hd Hok) as [Hps Hroom].
  destruct (IH Hrest) as [Hall Hsum]. split; [by constructor|]. rewrite !zsum_cons. lia.
Qed.

Lemma chunk_count series : 30 * zlen (series ≫= si_chunks) + 50 * zlen series <= zsum series_input_room series.
Proof.
  induction series as [|s series IH]; [done|]. rewrite bind_cons, zlen_app, zlen_cons, zsum_cons.
  pose proof (series_input_room_pos s). lia.
Qed.

Lemma zlen_all_chunks series : zlen (all_chunks series) = zlen (series ≫= si_chunks).
Proof.
  induction series as [|s series IH]; [done|]. rewrite all_chunks_cons, bind_cons, !zlen_app, IH.
  unfold xor_chunks, zlen. by rewrite length_fmap.
Qed.

Lemma all_chunks_ok series : Forall series_input_ok series → Forall chunk_ok (all_chunks series).
Proof.
  induction 1 as [|s series (_ & Hc & _) _ IH]; [constructor|]. rewrite all_chunks_cons. apply Forall_app_2; [|done].
  unfold xor_chunks. apply Forall_fmap. eapply Forall_impl; [exact Hc|]. intros c (_ & _ & _ & Hb & Hl). by split_and!.
Qed.

Lemma input_chunks_ok series : Forall series_input_ok series → Forall chunk_input_ok (series ≫= si_chunks).
Proof.
  induction 1 as [|s series (_ & Hc & _) _ IH]; [constructor|]. rewrite bind_cons. by apply Forall_app_2.
Qed.

Lemma with_chunks_ok series : Forall series_input_ok series → Forall series_input_ok (with_chunks series).
Proof. rewrite !Forall_forall. intros Hok s [_ Hs]%list_elem_of_filter. by apply Hok. Qed.

(** The metadata of prepared series. *)
Lemma block_meta_spec `{JsonLaws} segs now random series prepared :
  Forall2 (prepared_from segs) (with_chunks series) prepared → Forall series_input_ok series →
  210 + zsum series_input_room series <= 2 ^ 32 →
  let m := block_meta (new_ulid now random) prepared (count_all (series ≫= si_chunks) totals_init) in
  MetaFacts.meta_ok m ∧ BlockStats.num_series (BlockMeta.stats m) = zlen (with_chunks series) ∧
  BlockStats.num_chunks (BlockMeta.stats m) = zlen (all_chunks series) ∧
  ∀ s c, s ∈ series → c ∈ si_chunks s → BlockMeta.min_time m <= ci_min_time c ∧ ci_max_time c <= BlockMeta.max_time m.
Proof.
  intros Hall Hok Hroom. set (tot := count_all _ _). cbn zeta.
  destruct (count_all_times (series ≫= si_chunks) totals_init) as (Htimes & _ & _ & Hspan); [done|by apply input_chunks_ok|].
  destruct (count_all_u64 (series ≫= si_chunks) totals_init eq_refl eq_refl) as [Hs Hc]. fold tot in Htimes, Hspan, Hs, Hc.
  pose proof (chunk_count series). pose proof (zlen_nonneg (series ≫= si_chunks)). pose proof (zlen_nonneg series).
  assert (zlen prepared = zlen (with_chunks series)) as Hlen by (unfold zlen; by rewrite (Forall2_length _ _ _ Hall)).
  assert (zlen (with_chunks series) <= zlen series) as Hle by (unfold zlen, with_chunks; pose proof (length_filter (λ s, si_chunks s ≠ []) series) as Hf; apply Nat2Z.inj_le, Hf).
  split_and!.
  - apply block_meta_ok; [done..|lia].
  - done.
  - cbn. unfold tot. rewrite count_all_chunks; cbn [total_chunks totals_init]; [by rewrite zlen_all_chunks|done|lia].
  - intros s c Hin Hc'. rewrite Forall_forall in Hspan. assert (s ∈ with_chunks series) as Hw.
    { apply list_elem_of_filter. split; [|done]. intros Hnil. rewrite Hnil in Hc'. by apply elem_of_nil in Hc'. }
    unfold block_meta. cbn [BlockMeta.min_time BlockMeta.max_time].
    destruct prepared as [|ps prepared]; [apply Forall2_nil_inv_r in Hall; rewrite Hall in Hw; by apply elem_of_nil in Hw|].
    cbn [fst snd]. apply Hspan, list_elem_of_bind. by exists s.
Qed.

(** The input that [create_from_series] can store. *)
Definition input_ok (series : list SeriesInput) : Prop :=
  Forall series_input_ok series ∧ 210 + zsum series_input_room series <= 2 ^ 32 ∧
  Z.of_nat (length (segments (place_all k_default_chunks_segment_size ([], []) (all_chunks series)).1)) < 10 ^ 6.

(** The files of the directory [dir] hold a block that opens as [b] and shows
    [series]. *)
Definition block_holds `{Json} (dir : str) (d : Disk) (series : list SeriesInput) (b : Block.t) : Prop :=
  ∃ files fs vs, dirs d !! dir = Some (mkDir files (Some fs)) ∧ Block.open dir d = Ok b ∧
    Block.dir_ b = dir ∧ block_of fs vs b ∧ Forall2 shows (with_chunks series) vs.

(** The chunk files and the index that the writers make of [series], and that
    any directory with these files holds it, whatever its metadata. *)
Lemma built (series : list SeriesInput) :
  input_ok series →
  ∃ cs segs prepared buf r, write_chunk_files series (mkWorld ∅ []) =
      (Ok (prepared, count_all (series ≫= si_chunks) totals_init), mkWorld cs []) ∧
    Forall2 (λ s ps, ps_input ps = s ∧ Forall2 (described segs) (si_chunks s) (ps_metas ps)) (with_chunks series) prepared ∧
    write_index_file prepared (mkWorld ∅ []) = (Ok tt, mkWorld (<[k_index_filename := buf]> ∅) []) ∧
    IndexReader.parse buf = Ok r ∧
    ∀ (J : Json) dir d fls b, dirs d !! dir = Some (mkDir fls (Some cs)) → fls !! k_index_filename = Some buf →
      Block.open dir d = Ok b → block_holds dir d series b.
Proof.
  intros (Hok & Hroom & Hlen).
  destruct (write_chunk_files_eq series ∅) as (cs & segs & prepared & Hchunks & Hdir & Hsegs & Hall);
    [by intros n [? Hn]; rewrite lookup_empty in Hn|by apply all_chunks_ok|done|].
  assert (Z.of_nat (length segs) < 10 ^ 6) as Hcount by apply Hdir.
  destruct (prepared_zsum segs _ _ Hcount Hall (with_chunks_ok _ Hok)) as [Hprep Hsum]. pose proof (zsum_with_chunks series).
  destruct (write_index_file_eq prepared ∅ (lookup_empty _) Hprep ltac:(lia)) as (buf & r & ids & Hindex & Hparse & Hids & Hden & Hser).
  exists cs, segs, prepared, buf, r. split_and!; [done..|]. intros J dir d fls b Hd Hbuf Hopen. pose proof Hopen as Hb.
  unfold Block.open, IndexReader.open in Hb. rewrite Hd in Hb. cbn [dir_files dir_chunks] in Hb.
  destruct (read_meta fls) as [m|e|]; [|done..]. cbn [mbind outcome_bind] in Hb. rewrite Hbuf, Hparse in Hb. cbn [mbind outcome_bind] in Hb.
  injection Hb as <-. exists fls, cs, (zip_with view_of ids prepared). split_and!; [done|done|done| |by eapply shows_all].
  exact (block_of_prepared segs Hcount cs _ prepared ids r dir m Hdir Hsegs Hall (with_chunks_ok _ Hok) Hden Hser).
Qed.

Lemma created `{JsonLaws} (now : Z) (random : list Z) (series : list SeriesInput) (d : Disk) :
  let ulid := new_ulid now random in
  calls d = [] → dirs d !! ulid = None → input_ok series →
  ∃ d' dir b, create_from_series now random series d = (Ok ulid, d') ∧
    calls d' = [] ∧ dirs d' = <[ulid := dir]> (dirs d) ∧ block_holds ulid d' series b ∧
    read_meta (dir_files dir) = Ok (Block.meta_ b) ∧ MetaFacts.meta_ok (Block.meta_ b) ∧
    BlockMeta.version (Block.meta_ b) = k_meta_version_1 ∧
    BlockMeta.ulid (Block.meta_ b) = ulid ∧
    BlockMeta.compaction (Block.meta_ b) = BlockMetaCompaction.mk 1 [ulid] false [] false [] ∧
    BlockStats.num_series (BlockMeta.stats (Block.meta_ b)) = zlen (with_chunks series) ∧
    BlockStats.num_chunks (BlockMeta.stats (Block.meta_ b)) = zlen (all_chunks series) ∧
    ∀ s c, s ∈ series → c ∈ si_chunks s →
      BlockMeta.min_time (Block.meta_ b) <= ci_min_time c ∧ ci_max_time c <= BlockMeta.max_time (Block.meta_ b).
Proof.
  intros ulid Hcalls Hnew Hinput. destruct d as [ds scr]. cbn [calls dirs] in *. subst scr.
  destruct (built series Hinput) as (cs & segs & prepared & buf & r & Hchunks & Hall & Hindex & Hparse & Hholds).
  destruct Hinput as (Hok & Hroom & Hlen).
  destruct (block_meta_spec segs now random series prepared Hall Hok Hroom) as (Hmeta & Hnums & Hnumc & Hspan).
  set (m := block_meta _ _ _) in *.
  destruct (write_meta_eq m (<[k_index_filename := buf]> ∅) Hmeta eq_refl) as (fs2 & Hwrite & _ & Hother & Hread).
  set (dir := mkDir (<[k_tombstones_filename := []]> fs2) (Some cs)).
  assert (<[k_tombstones_filename := []]> fs2 !! k_index_filename = Some buf) as Hbuf.
  { rewrite lookup_insert_ne by done. rewrite Hother by done. apply lookup_insert_eq. }
  assert (Block.open ulid (mkDisk (<[ulid := dir]> ds) []) = Ok (Block.mk ulid m r (ChunkReader.open cs))) as Hopen.
  { unfold Block.open. cbn [dirs]. rewrite lookup_insert_eq. cbn [dir dir_files dir_chunks]. rewrite Hread by done. cbn [mbind outcome_bind].
    unfold IndexReader.open. by rewrite Hbuf, Hparse. }
  exists (mkDisk (<[ulid := dir]> ds) []), dir, (Block.mk ulid m r (ChunkReader.open cs)). cbn [Block.meta_].
  split; [by apply (create_eq now random series ds cs prepared _ _ fs2 Hnew Hchunks Hindex)|].
  split_and!; [done|done| |by apply Hread|done..]. by apply (Hholds _ ulid _ _ _ (lookup_insert_eq _ _ _)).
Qed.

End BlockCreateFacts.

(** * Theorems *)

Module BlockProps.
Import BytesFacts ChunksFacts BlockSelectFacts BlockIndexFacts BlockCreateFacts.

(** Queries one after the other on a handle: matchers and a closed range. *)
Fixpoint run_queries `{RegexEngine} (fs : gmap str (list Z)) (qs : list (list Matcher.t * Z * Z)) : Block.M (list (list QueryResult)) :=
  match qs with
  | [] => rret []
  | (ms, mint, maxt) :: qs => r <~ select fs ms mint maxt ;; rs <~ run_queries fs qs ;; rret (r :: rs)
  end.

Lemma run_queries_eq `{RegexEngine} fs vs b qs :
  block_of fs vs b → Forall (λ q, q.1.1 ≠ [] ∧ Forall matcher_ok q.1.1) qs →
  ∃ b', run_queries fs qs b = (Ok ((λ q, omap (result_of q.1.2 q.2) (filter (accepts q.1.1) vs)) <$> qs), b').
Proof.
  intros Hb Hqs. revert b Hb. induction Hqs as [|[[ms mint] maxt] qs [Hne Hms] _ IH]; intros b Hb; [by exists b|].
  cbn [run_queries fst snd] in *. destruct (select_block fs vs ms mint maxt b Hb Hne Hms) as (b1 & Hsel & Hb1).
  rewrite (rbind_ok _ _ _ _ _ Hsel). destruct (IH b1 Hb1) as (b2 & Hrest). rewrite (rbind_ok _ _ _ _ _ Hrest). by exists b2.
Qed.

(** C17: a persistent block. On a disk where no call fails and the new name is
    free, [create_from_series] returns that name and adds one directory, which
    [Block.open] accepts; the metadata count the series with chunks and the
    chunks, and their range covers every chunk. Any sequence of queries on the
    handle succeeds and answers, in the order of the input, exactly the series
    whose labels satisfy all matchers and that have a chunk in the closed
    range, with their labels, and with the bytes and the times of those chunks.
    The inputs: canonical, nonempty label sets without zero bytes in names and
    without empty values; chunks whose times and differences of times fit
    64 bits; an index below 4 GiB and fewer than 10^6 chunk segments. *)
Theorem block_roundtrip `{JsonLaws} `{RegexEngine} (now : Z) (random : list Z) (series : list SeriesInput) (d : Disk) :
  let ulid := new_ulid now random in
  calls d = [] → dirs d !! ulid = None → Forall series_input_ok series →
  210 + zsum series_input_room series <= 2 ^ 32 →
  Z.of_nat (length (segments (place_all k_default_chunks_segment_size ([], []) (all_chunks series)).1)) < 10 ^ 6 →
  ∃ d' dir fs b, create_from_series now random series d = (Ok ulid, d') ∧
    dirs d' = <[ulid := dir]> (dirs d) ∧ dir_chunks dir = Some fs ∧ Block.open ulid d' = Ok b ∧
    BlockStats.num_series (BlockMeta.stats (Block.meta_ b)) = zlen (with_chunks series) ∧
    BlockStats.num_chunks (BlockMeta.stats (Block.meta_ b)) = zlen (all_chunks series) ∧
    (∀ s c, s ∈ series → c ∈ si_chunks s →
      BlockMeta.min_time (Block.meta_ b) <= ci_min_time c ∧ ci_max_time c <= BlockMeta.max_time (Block.meta_ b)) ∧
    ∀ qs, Forall (λ q, q.1.1 ≠ [] ∧ Forall matcher_ok q.1.1) qs →
      ∃ rs b', run_queries fs qs b = (Ok rs, b') ∧
        fmap answer <$> rs = (λ q, omap (selected q.1.2 q.2)
          (filter (λ s, labels_match_all (si_labels s) q.1.1 = true) series)) <$> qs.
Proof.
  intros ulid Hcalls Hnew Hok Hroom Hlen.
  destruct (created now random series d Hcalls Hnew) as (d' & dir & b & Hcreate & _ & Hdirs & Hholds & _ & _ & _ & _ & _ & Hnums & Hnumc & Hspan); [done|].
  destruct Hholds as (files & fs & vs & Hdir & Hopen & _ & Hblock & Hshows).
  rewrite Hdirs, lookup_insert_eq in Hdir. injection Hdir as ->.
  exists d', (mkDir files (Some fs)), fs, b. split_and!; [done..|].
  intros qs Hqs. destruct (run_queries_eq fs vs b qs Hblock Hqs) as (b' & Hrun). eexists _, b'. split; [done|].
  rewrite <- list_fmap_compose. apply list_fmap_ext. intros i q _. unfold compose.
  by rewrite (answers_shown q.1.1 q.1.2 q.2 _ _ Hshows), answers_with_chunks.
Qed.

#[local] Instance exact_engine : RegexEngine := {| std_regex := str; regex_compile := Some; regex_match p s := bool_decide (p = s) |}.

Import TreeJson.

Lemma block_roundtrip_witness :
  let series := [mkSeriesInput [mkLabel [97] [98]] [mkChunkInput 5 9 [0; 1; 7]; mkChunkInput 10 20 [0; 2; 8]];
    mkSeriesInput [mkLabel [97] [99]] []; mkSeriesInput [mkLabel [97] [100]; mkLabel [120] [121]] [mkChunkInput (-3) 1 [0; 0]]] in
  let ulid := new_ulid 1700000000000 [1; 2; 3] in
  ∃ d' dir fs b, create_from_series 1700000000000 [1; 2; 3] series (mkDisk ∅ []) = (Ok ulid, d') ∧
    dirs d' = <[ulid := dir]> ∅ ∧ dir_chunks dir = Some fs ∧ Block.open ulid d' = Ok b ∧
    BlockStats.num_series (BlockMeta.stats (Block.meta_ b)) = zlen (with_chunks series) ∧
    BlockStats.num_chunks (BlockMeta.stats (Block.meta_ b)) = zlen (all_chunks series) ∧
    (∀ s c, s ∈ series → c ∈ si_chunks s →
      BlockMeta.min_time (Block.meta_ b) <= ci_min_time c ∧ ci_max_time c <= BlockMeta.max_time (Block.meta_ b)) ∧
    ∀ qs, Forall (λ q, q.1.1 ≠ [] ∧ Forall matcher_ok q.1.1) qs →
      ∃ rs b', run_queries fs qs b = (Ok rs, b') ∧
        fmap answer <$> rs = (λ q, omap (selected q.1.2 q.2)
          (filter (λ s, labels_match_all (si_labels s) q.1.1 = true) series)) <$> qs.
Proof.
  apply (block_roundtrip (J := tree_json) 1700000000000 [1; 2; 3]
    [mkSeriesInput [mkLabel [97] [98]] [mkChunkInput 5 9 [0; 1; 7]; mkChunkInput 10 20 [0; 2; 8]];
     mkSeriesInput [mkLabel [97] [99]] []; mkSeriesInput [mkLabel [97] [100]; mkLabel [120] [121]] [mkChunkInput (-3) 1 [0; 0]]] (mkDisk ∅ [])).
  - reflexivity.
  - reflexivity.
  - apply (bool_decide_unpack _). vm_compute. exact I.
  - vm_compute. discriminate.
  - vm_compute. reflexivity.
Defined.

(** A block with one series and the answer to one query, to evaluate. *)
Definition ask (labels : Labels.t) (m : Matcher.t) : option (list Labels.t) :=
  match create_from_series 0 [1; 2; 3] [mkSeriesInput labels [mkChunkInput 5 9 [0; 0]]] (mkDisk ∅ []) with
  | (Ok ulid, d) =>
      match Block.open ulid d with
      | Ok b => match fst (select (default ∅ (dir_chunks (dir_of ulid d))) [m] 0 10 b) with Ok rs => Some (qr_labels <$> rs) | _ => None end
      | _ => None
      end
  | _ => None
  end.

(** A label with an empty value gets a posting list, so the matcher for the
    empty value, which looks for series without the name, misses the series
    although [labels_match_all] accepts it. *)
Example empty_value_missed :
  let ls := [mkLabel [97] []; mkLabel [98] [99]] in
  ask ls (Matcher.equal [97] []) = Some [] ∧ labels_match_all ls [Matcher.equal [97] []] = true.
Proof. vm_compute. split; reflexivity. Qed.

(** A series without labels is in no posting list: no query finds it. *)
Example no_labels_missed : ask [] (Matcher.equal [97] []) = Some [] ∧ labels_match_all [] [Matcher.equal [97] []] = true.
Proof. vm_compute. split; reflexivity. Qed.

End BlockProps.
