(* ===== verification/Head.v ===== *)
(** The head: [include/merlion_tsdb/head/head.hpp] and [src/head/head.cpp].

    [dir/wal] is the directory of the world, which does not tell a directory
    without files from a missing one. *)

From S2P Require Import Prelude Ordered Files BStream Xor Labels Matcher Record Page Segment MemSeries SeriesStore Query.

(** The [std::errc] values of the head; [WalError] passes on an error of the
    segment writer. *)
Inductive HeadError : Type :=
| OperationNotPermitted
| InvalidArgument
| HeadIoError
| WalError (e : IoError).

Definition to_wal_labels (l : Labels.t) : list Label := (λ e, mkLabel (name e) (value e)) <$> l.

Definition to_model_labels (src : list Label) : Labels.t :=
  Labels.of_entries ((λ l, mkLabel (name l) (value l)) <$> src).

(** * Replay *)

(** An optional result of the store and of the series: [None] is undefined. *)
Definition defined {A} (o : option A) : outcome HeadError A :=
  match o with Some a => Ok a | None => UB end.

Fixpoint replay_series (ss : list RefSeries) (store : SeriesStore.t) : outcome HeadError SeriesStore.t :=
  match ss with
  | [] => Ok store
  | s :: ss =>
      '(ok, store) ← defined (SeriesStore.insert_with_ref (rs_ref s) (to_model_labels (rs_labels s)) store);
      if ok : bool then replay_series ss store else Err HeadIoError
  end.

(** [store.get(s.ref)->append(s.t, s.v)]. *)
Fixpoint replay_samples (ss : list RefSample) (store : SeriesStore.t) : outcome HeadError SeriesStore.t :=
  match ss with
  | [] => Ok store
  | s :: ss =>
      match SeriesStore.get (sm_ref s) store with
      | None => Err HeadIoError
      | Some i =>
          series ← defined (SeriesStore.slot store i);
          '(ok, series) ← defined (MemSeries.append (sm_t s) (sm_v s) series);
          let store := SeriesStore.set_slot i series store in
          if ok : bool then replay_samples ss store else Err HeadIoError
      end
  end.

(** The body of the loop, after a record was read. *)
Definition replay_record (rec : list Z) (store : SeriesStore.t) : outcome HeadError SeriesStore.t :=
  let type := peek_type rec in
  if type =? Type_Series then
    match decode_series rec with
    | Ok decoded => replay_series decoded store
    | Err _ => Err HeadIoError
    | UB => UB
    end
  else if type =? Type_SamplesV2 then
    match decode_samples_v2 rec with
    | Ok decoded => replay_samples decoded store
    | Err _ => Err HeadIoError
    | UB => UB
    end
  else Ok store.

(** [while (true)]: every round but the last consumes bytes of the files. *)
Fixpoint replay_loop (fuel : nat) (fs : gmap str (list Z)) (rdr : SegmentReader.t) (store : SeriesStore.t)
    : outcome HeadError SeriesStore.t :=
  match fuel with
  | O => UB
  | S fuel =>
      match SegmentReader.next fs rdr with
      | (Err SegEndOfStream, _) => Ok store
      | (Err _, _) => Err HeadIoError
      | (UB, _) => UB
      | (Ok rec, rdr) => store ← replay_record rec store; replay_loop fuel fs rdr store
      end
  end.

Definition replay_reader (fs : gmap str (list Z)) (rdr : SegmentReader.t) (store : SeriesStore.t)
    : outcome HeadError SeriesStore.t :=
  replay_loop (S (SegmentFacts.bytes_left fs rdr)) fs rdr store.

(** A path that is missing or no directory has nothing to replay; the other
    error of [open] is passed on. *)
Definition replay_wal_into (p : Path) (store : SeriesStore.t) (w : World) : outcome HeadError SeriesStore.t * World :=
  match SegmentReader.open_path p w with
  | (Ok rdr, w) => (replay_reader (files w) rdr store, w)
  | (Err no_such_file_or_directory, w) | (Err not_a_directory, w) => (Ok store, w)
  | (Err _, w) => (Err (WalError Errno), w)
  | (UB, w) => (UB, w)
  end.

(** * Head *)

Module Head.

Record t : Type := mk {
  wal_ : SegmentWriter.t;
  series_ : SeriesStore.t;
  pending_series_ : list RefSeries;
  pending_samples_ : list RefSample;
  closed_ : bool;
}.

Definition M (A : Type) : Type := rd (t * World) HeadError A.

Definition set_wal (wal : SegmentWriter.t) (h : t) : t :=
  mk wal (series_ h) (pending_series_ h) (pending_samples_ h) (closed_ h).
Definition set_pending (ps : list RefSeries) (ss : list RefSample) (h : t) : t :=
  mk (wal_ h) (series_ h) ps ss (closed_ h).
Definition set_closed (h : t) : t :=
  mk (wal_ h) (series_ h) (pending_series_ h) (pending_samples_ h) true.

(** An operation on [wal_]. *)
Definition on_wal {A} (m : SegmentWriter.M A) : M A := λ '(h, w),
  let '(o, (wal, w)) := m (wal_ h, w) in
  (match o with Ok a => Ok a | Err e => Err (WalError e) | UB => UB end, (set_wal wal h, w)).

(** [dir/wal]: without files it is taken to be missing. *)
Definition wal_dir (w : World) : Path := if decide (files w = ∅) then Missing else Directory.

Definition open (w : World) : outcome HeadError t * World :=
  let '(ok, w) := sys_ok w in
  if negb ok then (Err (WalError Errno), w)
  else
  match replay_wal_into (wal_dir w) SeriesStore.new w with
  | (Err e, w) => (Err e, w)
  | (UB, w) => (UB, w)
  | (Ok store, w) =>
      match SegmentWriter.open k_default_segment_size w with
      | (Ok wal, w) => (Ok (mk wal store [] [] false), w)
      | (Err e, w) => (Err (WalError e), w)
      | (UB, w) => (UB, w)
      end
  end.

(** Returns the reference of the series; the head changes also when the
    sample is refused. *)
Definition append (labels : Labels.t) (t v : Z) (h : Head.t) : outcome HeadError Z * Head.t :=
  if closed_ h then (Err OperationNotPermitted, h)
  else
    match SeriesStore.get_or_create labels (series_ h) with
    | None => (UB, h)
    | Some (i, fresh, store) =>
        match SeriesStore.slot store i with
        | None => (UB, h)
        | Some series =>
            let ps := if fresh : bool
              then pending_series_ h ++ [mkRefSeries (MemSeries.ref_ series) (to_wal_labels labels)]
              else pending_series_ h in
            match MemSeries.append t v series with
            | None => (UB, h)
            | Some (false, series) =>
                (Err InvalidArgument,
                 mk (wal_ h) (SeriesStore.set_slot i series store) ps (pending_samples_ h) (closed_ h))
            | Some (true, series) =>
                (Ok (MemSeries.ref_ series),
                 mk (wal_ h) (SeriesStore.set_slot i series store) ps
                   (pending_samples_ h ++ [mkRefSample (MemSeries.ref_ series) t 0 v]) (closed_ h))
            end
        end
    end.

Definition commit_series : M unit := λ '(h, w),
  match pending_series_ h with
  | [] => (Ok tt, (h, w))
  | ps =>
      (_ <~ on_wal (SegmentWriter.log (encode_series ps)) ;;
       λ '(h, w), (Ok tt, (set_pending [] (pending_samples_ h) h, w))) (h, w)
  end.

Definition commit_samples : M unit := λ '(h, w),
  match pending_samples_ h with
  | [] => (Ok tt, (h, w))
  | ss =>
      match encode_samples_v2 ss with
      | None => (UB, (h, w))
      | Some rec =>
          (_ <~ on_wal (SegmentWriter.log rec) ;;
           λ '(h, w), (Ok tt, (set_pending (pending_series_ h) [] h, w))) (h, w)
      end
  end.

Definition commit : M unit := λ '(h, w),
  if closed_ h then (Err OperationNotPermitted, (h, w))
  else (_ <~ commit_series ;; _ <~ commit_samples ;; on_wal SegmentWriter.sync) (h, w).

Definition close : M unit := λ '(h, w),
  if closed_ h then (Ok tt, (h, w))
  else
    let '(o, (h, w)) := (_ <~ commit ;; on_wal SegmentWriter.cut) (h, w) in
    (o, (set_closed h, w)).

(** The destructor, and then the one of [wal_]. *)
Definition destroy (h : t) (w : World) : World :=
  let '(_, (h, w)) := if closed_ h then (Ok tt, (h, w)) else close (h, w) in
  SegmentWriter.destroy (wal_ h) w.

(** Moving: the moved-from head is closed, and its containers are empty. *)
Definition moved_from (other : t) : t :=
  mk (SegmentWriter.moved_from (wal_ other)) (SeriesStore.mk [] ∅ (SeriesStore.next_ref_ (series_ other))) [] [] true.

Definition move_construct (other : t) : t * t := (other, moved_from other).

(** The target commits what is pending, and a failure to do so is ignored. *)
Definition move_assign (h other : t) (w : World) : t * t * World :=
  let '(_, (h, w)) := if closed_ h then (Ok tt, (h, w)) else commit (h, w) in
  let '(_, _, w) := SegmentWriter.move_assign (wal_ h) (wal_ other) w in
  (other, moved_from other, w).

Section Select.
Context `{RegexEngine}.

(** [while (it.next()) cmax = it.t()], and the iterator at the end. *)
Definition chunk_range (c : XORChunk.t) : option (option (Z * Z) * XORIterator.t) :=
  '(ss, it) ← XORIterator.drain XORIterator.kDrainFuel (iterator c);
  Some (match ss with [] => None | s :: _ => Some (fst s, default (fst s) (fst <$> last ss)) end, it).

(** The loop over the chunks of a series: those with samples in the range. A
    chunk without samples is skipped before its error is looked at. *)
Fixpoint select_chunks (mint maxt : Z) (cs : list XORChunk.t) : outcome HeadError (list (XORChunk.t * ChunkMeta)) :=
  match cs with
  | [] => Ok []
  | xc :: cs =>
      n ← defined (XORChunk.num_samples xc);
      if n =? 0 then select_chunks mint maxt cs
      else
        '(range, it) ← defined (chunk_range xc);
        match range with
        | None => select_chunks mint maxt cs
        | Some (cmin, cmax) =>
            if bool_decide (is_Some (XORIterator.err_ it)) then Err HeadIoError
            else if (maxt <? cmin) || (cmax <? mint) then select_chunks mint maxt cs
            else
              rest ← select_chunks mint maxt cs;
              Ok ((XORChunk.from_bytes (XORChunk.bytes xc), mkChunkMeta cmin cmax 0) :: rest)
        end
  end.

Fixpoint select_series (matchers : list Matcher.t) (mint maxt : Z) (ss : list MemSeries.t)
    : outcome HeadError (list QueryResult) :=
  match ss with
  | [] => Ok []
  | s :: ss =>
      if (MemSeries.num_samples s =? 0) || negb (labels_match_all (MemSeries.labels_ s) matchers)
      then select_series matchers mint maxt ss
      else
        found ← select_chunks mint maxt (MemSeries.chunks s);
        rest ← select_series matchers mint maxt ss;
        match found with
        | [] => Ok rest
        | _ => Ok (mkQueryResult (MemSeries.labels_ s) (fst <$> found) (snd <$> found) :: rest)
        end
  end.

Definition select (matchers : list Matcher.t) (mint maxt : Z) (h : t) : outcome HeadError (list QueryResult) :=
  match matchers with
  | [] => Err InvalidArgument
  | _ => select_series matchers mint maxt (SeriesStore.all_series (series_ h))
  end.

End Select.

End Head.

(** * Facts *)

Module HeadFacts.

(** ** Series in the store *)

Lemma append_keeps t v s ok s' :
  MemSeries.append t v s = Some (ok, s') →
  MemSeries.ref_ s' = MemSeries.ref_ s ∧ MemSeries.labels_ s' = MemSeries.labels_ s.
Proof.
  assert (∀ s s', MemSeries.cut_chunk s = Some s' →
    MemSeries.ref_ s' = MemSeries.ref_ s ∧ MemSeries.labels_ s' = MemSeries.labels_ s) as Hcut.
  { intros s1 s2. unfold MemSeries.cut_chunk. intros (a & _ & [= <-])%bind_Some. done. }
  assert (∀ s ok s', MemSeries.append_current t v s = Some (ok, s') →
    MemSeries.ref_ s' = MemSeries.ref_ s ∧ MemSeries.labels_ s' = MemSeries.labels_ s) as Happ.
  { intros s1 ok1 s2. unfold MemSeries.append_current.
    intros (a & _ & (c & _ & ([[]] & _ & [= _ <-])%bind_Some)%bind_Some)%bind_Some. done. }
  unfold MemSeries.append. destruct (_ && _); [by intros [= _ <-]|].
  intros (s1 & H1 & ([ok2 s2] & H2 & ([ok3 s3] & H3 & H4)%bind_Some)%bind_Some)%bind_Some.
  assert (MemSeries.ref_ s1 = MemSeries.ref_ s ∧ MemSeries.labels_ s1 = MemSeries.labels_ s) as [<- <-]
    by (destruct (MemSeries.must_cut s); [by apply Hcut|by simplify_eq]).
  apply Happ in H2 as [<- <-].
  assert (MemSeries.ref_ s3 = MemSeries.ref_ s2 ∧ MemSeries.labels_ s3 = MemSeries.labels_ s2) as [<- <-].
  { destruct ok2; [by simplify_eq|].
    apply bind_Some in H3 as (s4 & [<- <-]%Hcut & H3). by apply Happ in H3. }
  by destruct ok3; simplify_eq.
Qed.

(** A sample is refused only for its timestamp, without a trace: the second
    attempt on a new chunk cannot hit the sample limit. *)
Lemma append_refused t v s s' : MemSeries.append t v s = Some (false, s') → s' = s.
Proof.
  unfold MemSeries.append. destruct (_ && _); [by intros [= <-]|].
  intros (s1 & _ & ([ok2 s2] & _ & ([ok3 s3] & H3 & H4)%bind_Some)%bind_Some)%bind_Some.
  destruct ok3; [done|]. destruct ok2; [done|]. exfalso.
  apply bind_Some in H3 as (s4 & Hcut & Happ). unfold MemSeries.cut_chunk in Hcut.
  change (appender XORChunk.new) with (Some (@Ok Varint.ReadError _ XORAppender.init)) in Hcut.
  injection Hcut as <-. rewrite (MemSeriesFacts.append_current_eq t v _ (MemSeries.chunks_ s2) XORChunk.new
    XORAppender.init) in Happ by done.
  apply bind_Some in Happ as ([[ok5 a5] c5] & Happ & [= -> _]).
  unfold XORAppender.append in Happ. apply bind_Some in Happ as (n & [= <-] & Happ).
  change (u16 (Z.lor (Z.shiftl 0 8) 0) =? XORChunk.kMaxSamples) with false in Happ. cbv iota in Happ.
  by apply bind_Some in Happ as ([[td a6] c6] & _ & [= Hok]).
Qed.

Lemma bind_Ok {A B} (m : outcome HeadError A) (f : A → outcome HeadError B) b :
  m ≫= f = Ok b ↔ ∃ a, m = Ok a ∧ f a = Ok b.
Proof.
  destruct m as [a| |]; simpl; split; [by exists a|by intros (? & [= <-] & ?)|done|by intros (? & [=] & _)|done|
    by intros (? & [=] & _)].
Qed.

Lemma defined_Ok {A} (o : option A) a : defined o = Ok a ↔ o = Some a.
Proof. destruct o; simpl; naive_solver. Qed.

(** ** Replaying sequences *)

Lemma replay_series_app ps qs st :
  replay_series (ps ++ qs) st = replay_series ps st ≫= replay_series qs.
Proof.
  revert st. induction ps as [|p ps IH]; intros st; [done|]. cbn [app replay_series].
  destruct (SeriesStore.insert_with_ref _ _ st) as [[[] st']|]; cbn; [apply IH|done..].
Qed.

Lemma replay_samples_app ss qs st :
  replay_samples (ss ++ qs) st = replay_samples ss st ≫= replay_samples qs.
Proof.
  revert st. induction ss as [|s ss IH]; intros st; [done|]. cbn [app replay_samples].
  destruct (SeriesStore.get _ st) as [i|]; [|done].
  destruct (SeriesStore.slot st i) as [s0|]; [|done]. cbn.
  destruct (MemSeries.append _ _ s0) as [[[] s1]|]; cbn; [apply IH|done..].
Qed.

(** One sample: what a successful replay did. *)
Lemma replay_sample_inv s ss st st' :
  replay_samples (s :: ss) st = Ok st' →
  ∃ i series series',
    SeriesStore.get (sm_ref s) st = Some i ∧ SeriesStore.slot st i = Some series ∧
    MemSeries.append (sm_t s) (sm_v s) series = Some (true, series') ∧
    replay_samples ss (SeriesStore.set_slot i series' st) = Ok st'.
Proof.
  cbn [replay_samples]. destruct (SeriesStore.get _ st) as [i|]; [|done].
  intros (series & Hs%defined_Ok & ([ok series'] & Happ%defined_Ok & Hrest)%bind_Ok)%bind_Ok.
  destruct ok; [|done]. eauto 10.
Qed.

(** Samples change neither the labels nor the references. *)
Lemma replay_samples_frame ss st st' :
  replay_samples ss st = Ok st' → SeriesStore.wf st →
  SeriesStore.wf st' ∧ SeriesStore.by_labels_ st' = SeriesStore.by_labels_ st ∧
  SeriesStore.next_ref_ st' = SeriesStore.next_ref_ st ∧
  length (SeriesStore.by_ref_ st') = length (SeriesStore.by_ref_ st).
Proof.
  revert st. induction ss as [|s ss IH]; intros st; [by intros [= <-]|].
  intros (i & series & series' & _ & Hs & Happ & Hrest)%replay_sample_inv Hwf.
  apply append_keeps in Happ as [Href Hlab].
  destruct (IH _ Hrest) as (Hwf' & -> & -> & ->); [by eapply SeriesStoreFacts.wf_set_slot|].
  unfold SeriesStore.set_slot. cbn [SeriesStore.by_labels_ SeriesStore.next_ref_ SeriesStore.by_ref_].
  by rewrite length_insert.
Qed.

Lemma set_slot_add i s ref labels st :
  (i < length (SeriesStore.by_ref_ st))%nat →
  SeriesStore.set_slot i s (SeriesStoreFacts.add_series ref labels st) =
    SeriesStoreFacts.add_series ref labels (SeriesStore.set_slot i s st).
Proof.
  intros Hi. unfold SeriesStore.set_slot, SeriesStoreFacts.add_series.
  cbn [SeriesStore.by_labels_ SeriesStore.next_ref_ SeriesStore.by_ref_].
  by rewrite insert_app_l, length_insert by done.
Qed.

Lemma get_add ref r labels st i :
  Z.of_nat (length (SeriesStore.by_ref_ st)) < r → SeriesStore.get ref st = Some i →
  SeriesStore.get ref (SeriesStoreFacts.add_series r labels st) = Some i.
Proof.
  intros Hr. unfold SeriesStore.get. destruct (Z.eqb_spec ref 0); [done|]. cbn [orb].
  destruct (Z.leb_spec (Z.of_nat (length (SeriesStore.by_ref_ st))) (ref - 1)); [done|].
  destruct (SeriesStore.slot st (Z.to_nat (ref - 1))) as [s|] eqn:Hs; [|done]. intros [= <-].
  destruct (Z.leb_spec (Z.of_nat (length (SeriesStore.by_ref_ (SeriesStoreFacts.add_series r labels st)))) (ref - 1)) as [Hle|].
  { unfold SeriesStoreFacts.add_series in Hle. cbn [SeriesStore.by_ref_] in Hle. rewrite length_app in Hle. lia. }
  rewrite SeriesStoreFacts.slot_add by done. apply SeriesStoreFacts.slot_lt in Hs as Hlt.
  by rewrite decide_False, Hs by lia.
Qed.

(** A new series does not disturb the samples of the others. *)
Lemma replay_samples_add ss st st' labels r :
  replay_samples ss st = Ok st' → Z.of_nat (length (SeriesStore.by_ref_ st)) < r →
  replay_samples ss (SeriesStoreFacts.add_series r labels st) = Ok (SeriesStoreFacts.add_series r labels st').
Proof.
  revert st. induction ss as [|s ss IH]; intros st; [by intros [= <-]|].
  intros (i & series & series' & Hget & Hs & Happ & Hrest)%replay_sample_inv Hr. cbn [replay_samples].
  rewrite (get_add _ _ _ _ i Hr Hget), SeriesStoreFacts.slot_add by done.
  apply SeriesStoreFacts.slot_lt in Hs as Hlt. rewrite decide_False, Hs by lia. cbn [defined mbind outcome_bind].
  rewrite Happ. cbn [defined mbind outcome_bind]. rewrite set_slot_add by done. apply IH; [done|].
  unfold SeriesStore.set_slot. cbn [SeriesStore.by_ref_]. by rewrite length_insert.
Qed.

(** ** Pending records *)

(** The store [st0] with the pending records of [h] replayed is the store of [h]. *)
Definition pending_ok (st0 : SeriesStore.t) (h : Head.t) : Prop :=
  ∃ st1, replay_series (Head.pending_series_ h) st0 = Ok st1 ∧ SeriesStore.wf st1 ∧
    replay_samples (Head.pending_samples_ h) st1 = Ok (Head.series_ h).

Lemma to_wal_id l : to_wal_labels l = l.
Proof. unfold to_wal_labels. induction l as [|[n v] l IH]; [done|]. cbn. by f_equal. Qed.

Lemma to_model_wal l : Labels.wf l → to_model_labels (to_wal_labels l) = l.
Proof.
  intros Hl. rewrite to_wal_id. unfold to_model_labels. change (_ <$> l) with (to_wal_labels l).
  rewrite to_wal_id. by apply LabelsFacts.canonicalize_id.
Qed.

Lemma get_or_create_room labels st r :
  SeriesStore.wf st → SeriesStore.by_labels_ st !! labels = None →
  SeriesStore.get_or_create labels st = Some r → Z.of_nat (length (SeriesStore.by_ref_ st)) < max_slots.
Proof.
  intros Hwf Hnew Hr. pose proof (SeriesStore.wf_size _ Hwf).
  destruct (decide (Z.of_nat (length (SeriesStore.by_ref_ st)) < max_slots)); [done|].
  unfold SeriesStore.get_or_create in Hr. rewrite Hnew, (SeriesStore.wf_next _ Hwf) in Hr.
  unfold SeriesStore.ensure_ref_slot in Hr.
  destruct (Z.eqb_spec (Z.of_nat (length (SeriesStore.by_ref_ st)) + 1) 0); [lia|].
  destruct (Z.leb_spec (Z.of_nat (length (SeriesStore.by_ref_ st))) (Z.of_nat (length (SeriesStore.by_ref_ st)) + 1 - 1)); [|lia].
  destruct (Z.ltb_spec max_slots (Z.of_nat (length (SeriesStore.by_ref_ st)) + 1)); [done|lia].
Qed.

(** [get_or_create] against the pending records: a new series is one more
    pending series record. *)
Lemma get_or_create_pending st0 ps ss st st1 labels i fresh st' series :
  replay_series ps st0 = Ok st1 → SeriesStore.wf st1 → replay_samples ss st1 = Ok st → Labels.wf labels →
  SeriesStore.get_or_create labels st = Some (i, fresh, st') → SeriesStore.slot st' i = Some series →
  SeriesStore.wf st' ∧ MemSeries.ref_ series = Z.of_nat i + 1 ∧
  ∃ st1', SeriesStore.wf st1' ∧ replay_samples ss st1' = Ok st' ∧
    replay_series (if fresh : bool then ps ++ [mkRefSeries (MemSeries.ref_ series) (to_wal_labels labels)] else ps) st0
      = Ok st1'.
Proof.
  intros Hps Hwf1 Hss Hlabels Hget Hslot.
  destruct (replay_samples_frame _ _ _ Hss Hwf1) as (Hwf & Hbl & Hnext & Hlen).
  destruct (SeriesStore.by_labels_ st !! labels) as [r|] eqn:Hr.
  - rewrite (SeriesStoreFacts.get_or_create_old _ _ _ Hwf Hr) in Hget. injection Hget as <- <- <-.
    split; [done|]. split; [by apply (SeriesStore.wf_slot _ Hwf)|]. by exists st1.
  - pose proof (get_or_create_room _ _ _ Hwf Hr Hget) as Hroom.
    rewrite (SeriesStoreFacts.get_or_create_new _ _ Hwf Hr Hroom) in Hget. injection Hget as <- <- <-.
    pose proof (SeriesStore.wf_next _ Hwf) as Hn.
    assert (SeriesStore.wf (SeriesStoreFacts.add_series (SeriesStore.next_ref_ st) labels st)) as Hwf'
      by (apply SeriesStoreFacts.wf_add_series; [done|lia|done]).
    split; [done|]. destruct (SeriesStore.wf_slot _ Hwf' _ _ Hslot) as [Href _]. split; [done|].
    exists (SeriesStoreFacts.add_series (SeriesStore.next_ref_ st) labels st1).
    rewrite Hbl in Hr. split_and!.
    + apply SeriesStoreFacts.wf_add_series; [done|lia|done].
    + apply replay_samples_add; [done|lia].
    + rewrite replay_series_app, Hps. cbn [mbind outcome_bind replay_series rs_ref rs_labels].
      rewrite (to_model_wal _ Hlabels), Href, <- Hn.
      rewrite SeriesStoreFacts.insert_with_ref_new by (done || lia). done.
Qed.

Lemma append_pending st0 labels t v h :
  pending_ok st0 h → Labels.wf labels → Head.closed_ h = false →
  let '(o, h') := Head.append labels t v h in
  o ≠ UB → pending_ok st0 h' ∧ Head.wal_ h' = Head.wal_ h ∧ Head.closed_ h' = false ∧
    (o = Err InvalidArgument ∨ ∃ r, o = Ok r).
Proof.
  intros (st1 & Hps & Hwf1 & Hss) Hlabels Hopen. unfold Head.append. rewrite Hopen.
  destruct (SeriesStore.get_or_create labels (Head.series_ h)) as [[[i fresh] st']|] eqn:Hget; [|done].
  destruct (SeriesStore.slot st' i) as [series|] eqn:Hslot; [|done].
  destruct (get_or_create_pending _ _ _ _ _ _ _ _ _ _ Hps Hwf1 Hss Hlabels Hget Hslot)
    as (Hwf' & Href & st1' & Hwf1' & Hss' & Hps').
  destruct (MemSeries.append t v series) as [[[] series']|] eqn:Happ; [..|done]; intros _.
  - split_and!; [|done..|by right; eexists]. exists st1'. split_and!; [done..|].
    cbn [Head.pending_samples_ Head.series_]. rewrite replay_samples_app, Hss'. cbn [mbind outcome_bind replay_samples sm_ref sm_t sm_v].
    destruct (append_keeps _ _ _ _ _ Happ) as [-> _].
    rewrite Href, SeriesStoreFacts.get_spec by (done || lia). rewrite Z.add_simpl_r, Nat2Z.id, Hslot, Hslot.
    cbn [defined mbind outcome_bind]. by rewrite Happ.
  - split_and!; [|done..|by left]. exists st1'. split_and!; [done..|].
    cbn [Head.pending_samples_ Head.series_]. rewrite (append_refused _ _ _ _ Happ), Hss'.
    f_equal. unfold SeriesStore.set_slot. apply SeriesStoreFacts.slot_eq in Hslot.
    rewrite list_insert_id by done. by destruct st'.
Qed.

(** ** Replaying a log *)

Fixpoint replay_records (recs : list (list Z)) (st : SeriesStore.t) : outcome HeadError SeriesStore.t :=
  match recs with
  | [] => Ok st
  | rec :: recs => st ← replay_record rec st; replay_records recs st
  end.

Lemma replay_records_app a b st : replay_records (a ++ b) st = replay_records a st ≫= replay_records b.
Proof.
  revert st. induction a as [|rec a IH]; intros st; [done|]. cbn [app replay_records].
  destruct (replay_record rec st); cbn; [apply IH|done..].
Qed.

Lemma replay_loop_records fuel fs rdr st recs n :
  SegmentReader.read_all n fs rdr = (recs, Some SegEndOfStream) → (length recs < fuel)%nat →
  replay_loop fuel fs rdr st = replay_records recs st.
Proof.
  revert n rdr st fuel. induction recs as [|rec recs IH]; intros [|n] rdr st [|fuel] Hread Hfuel;
    cbn [length] in Hfuel; try (lia || done); cbn [SegmentReader.read_all] in Hread; cbn [replay_loop];
    destruct (SegmentReader.next fs rdr) as [[rec'|e|] rdr']; try done.
  - by destruct (SegmentReader.read_all n fs rdr').
  - by injection Hread as ->.
  - destruct (SegmentReader.read_all n fs rdr') as [recs' e'] eqn:Hrest. injection Hread as -> -> ->.
    cbn [replay_records]. destruct (replay_record rec st); cbn [mbind outcome_bind]; [|done..].
    apply (IH n); [done|lia].
Qed.

Lemma read_all_bytes n fs rdr recs e :
  SegmentFacts.reader_ok rdr → SegmentReader.read_all n fs rdr = (recs, e) →
  (length recs <= SegmentFacts.bytes_left fs rdr)%nat.
Proof.
  revert rdr recs. induction n as [|n IH]; intros rdr recs Hok; cbn [SegmentReader.read_all]; [intros [= <- _]; simpl; lia|].
  pose proof (SegmentFacts.next_progress fs rdr Hok) as (Hok' & Hleft).
  destruct (SegmentReader.next fs rdr) as [[rec|e'|] rdr']; cbn [fst snd] in *; [|intros [= <- _]; simpl; lia..].
  destruct (SegmentReader.read_all n fs rdr') as [recs' e'] eqn:Hrest. intros [= <- ->].
  specialize (IH rdr' recs' Hok' Hrest). cbn [length]. lia.
Qed.

Lemma replay_segments fs segs st :
  SegmentFacts.represents fs segs → replay_reader fs (SegmentReader.open fs) st = replay_records (concat segs) st.
Proof.
  intros Hrep. pose proof (SegmentFacts.read_represents fs segs Hrep) as Hread. unfold replay_reader.
  eapply replay_loop_records; [exact Hread|]. apply read_all_bytes in Hread; [lia|done].
Qed.

Lemma replay_fuel f1 f2 fs rdr st :
  SegmentFacts.reader_ok rdr → (SegmentFacts.bytes_left fs rdr < f1)%nat → (SegmentFacts.bytes_left fs rdr < f2)%nat →
  replay_loop f1 fs rdr st = replay_loop f2 fs rdr st.
Proof.
  revert f2 rdr st. induction f1 as [|f1 IH]; intros [|f2] rdr st Hok H1 H2; [lia..|]. cbn [replay_loop].
  pose proof (SegmentFacts.next_progress fs rdr Hok) as (Hok' & Hleft).
  destruct (SegmentReader.next fs rdr) as [[rec|e|] rdr']; cbn [fst snd] in *; [|done..].
  destruct (replay_record rec st); cbn [mbind outcome_bind]; [|done..]. apply IH; [done|lia..].
Qed.

(** Without files there is nothing to replay. *)
Lemma replay_missing st : replay_reader ∅ (SegmentReader.open ∅) st = Ok st.
Proof. done. Qed.

(** Replay under any answers: the log is replayed, or a call failed; the files
    are not touched. *)
Lemma replay_any st w :
  let '(o, w') := replay_wal_into (Head.wal_dir w) st w in
  files w' = files w ∧ (o = replay_reader (files w) (SegmentReader.open (files w)) st ∨ o = Err (WalError Errno)).
Proof.
  unfold replay_wal_into, SegmentReader.open_path, Head.wal_dir. pose proof (FilesFacts.list_dir_files (Head.wal_dir w) w) as Hw.
  unfold Head.wal_dir, list_dir in *. pose proof (FilesFacts.sys_ok_files w) as Hw0. destruct (sys_ok w) as [[] w1]; cbn [negb snd] in *; [|by split; [|right]].
  case_decide as Hfs; [split; [done|left; by rewrite Hfs]|].
  destruct (sys_ok w1) as [[] w2]; cbn [snd] in *; [rewrite Hw; by split; [|left]|by split; [|right]].
Qed.

Lemma replay_calm st fs :
  replay_wal_into (Head.wal_dir (mkWorld fs [])) st (mkWorld fs []) = (replay_reader fs (SegmentReader.open fs) st, mkWorld fs []).
Proof. unfold replay_wal_into, Head.wal_dir. cbn [files]. case_decide as Hfs; [by rewrite Hfs|done]. Qed.

(** ** Committing *)

Import SegmentFacts.

Lemma on_wal_ok {A} (m : SegmentWriter.M A) h w a wal' w' :
  m (Head.wal_ h, w) = (Ok a, (wal', w')) → Head.on_wal m (h, w) = (Ok a, (Head.set_wal wal' h, w')).
Proof. intros Hm. unfold Head.on_wal. by rewrite Hm. Qed.

(** The records a commit writes. *)
Definition series_records (ps : list RefSeries) : list (list Z) :=
  match ps with [] => [] | _ => [encode_series ps] end.
Definition sample_records (ss : list RefSample) : list (list Z) :=
  match ss with [] => [] | _ => match encode_samples_v2 ss with Some rec => [rec] | None => [] end end.
Definition commit_records (h : Head.t) : list (list Z) :=
  series_records (Head.pending_series_ h) ++ sample_records (Head.pending_samples_ h).

#[export] Instance str_ok_dec s : Decision (RecordFacts.str_ok s).
Proof. unfold RecordFacts.str_ok, bytes_ok. apply _. Defined.
#[export] Instance label_ok_dec l : Decision (RecordFacts.label_ok l).
Proof. unfold RecordFacts.label_ok. apply _. Defined.
#[export] Instance series_ok_dec s : Decision (RecordFacts.series_ok s).
Proof. unfold RecordFacts.series_ok. apply _. Defined.
#[export] Instance sample_ok_dec s : Decision (RecordFacts.sample_ok s).
Proof. unfold RecordFacts.sample_ok. apply _. Defined.

(** The pending records can be encoded: their integers have the widths of
    their types, and no difference the sample encoder takes overflows. *)
Definition encodable (h : Head.t) : bool :=
  bool_decide (Forall RecordFacts.series_ok (Head.pending_series_ h)) &&
  (Z.of_nat (length (encode_series (Head.pending_series_ h))) <? 2 ^ 64) &&
  bool_decide (Forall RecordFacts.sample_ok (Head.pending_samples_ h)) &&
  match encode_samples_v2 (Head.pending_samples_ h) with
  | Some rec => Z.of_nat (length rec) <? 2 ^ 64
  | None => false
  end.

Lemma replay_series_records ps st :
  Forall RecordFacts.series_ok ps → Z.of_nat (length (encode_series ps)) < 2 ^ 64 →
  replay_records (series_records ps) st = replay_series ps st.
Proof.
  intros Hps Hlen. destruct ps as [|p ps]; [done|]. unfold series_records. cbn [replay_records].
  destruct (RecordFacts.decode_encode_series _ Hps Hlen) as [Htype Hdec].
  unfold replay_record. rewrite Htype, Hdec. cbn [Z.eqb Type_Series Pos.eqb].
  by destruct (replay_series (p :: ps) st).
Qed.

Lemma replay_sample_records ss st rec :
  Forall RecordFacts.sample_ok ss → encode_samples_v2 ss = Some rec → Z.of_nat (length rec) < 2 ^ 64 →
  replay_records (sample_records ss) st = replay_samples ss st.
Proof.
  intros Hss Henc Hlen. destruct ss as [|s ss]; [done|]. unfold sample_records. rewrite Henc. cbn [replay_records].
  pose proof (RecordFacts.decode_encode_samples _ Hss) as Hdec. rewrite Henc in Hdec.
  destruct (Hdec Hlen) as [Htype Hok]. unfold replay_record. rewrite Htype, Hok.
  cbn [Z.eqb Type_Series Type_SamplesV2 Pos.eqb]. by destruct (replay_samples (s :: ss) st).
Qed.

Lemma replay_commit h st :
  encodable h = true →
  replay_records (commit_records h) st =
    replay_series (Head.pending_series_ h) st ≫= replay_samples (Head.pending_samples_ h).
Proof.
  unfold encodable. destruct (encode_samples_v2 (Head.pending_samples_ h)) as [rec|] eqn:Henc; [|lia].
  intros [[[H1%bool_decide_eq_true_1 H2]%andb_prop H3%bool_decide_eq_true_1]%andb_prop H4]%andb_prop.
  unfold commit_records. rewrite replay_records_app, replay_series_records by (done || lia).
  destruct (replay_series _ st) as [st1| |]; cbn [mbind outcome_bind]; [|done..].
  by rewrite (replay_sample_records _ _ rec) by (done || lia).
Qed.

Lemma log_writing_head segs cur h w body :
  writing k_default_segment_size segs cur (Head.wal_ h, w) →
  session_ok k_default_segment_size (segs, cur) [body] →
  let '(segs', cur') := foldl (log_step k_default_segment_size) (segs, cur) [body] in
  ∃ wal' w', Head.on_wal (SegmentWriter.log body) (h, w) = (Ok tt, (Head.set_wal wal' h, w')) ∧
    writing k_default_segment_size segs' cur' (wal', w').
Proof.
  intros Hw (Hok & Hlen & _). pose proof (log_writing _ _ _ _ body Hw) as Hlog. cbn [foldl].
  destruct (log_step k_default_segment_size (segs, cur) body) as [segs' cur'].
  destruct (Hlog Hok Hlen) as ([wal' w'] & Heq & Hw'). exists wal', w'. split; [by apply on_wal_ok|done].
Qed.

Lemma commit_series_writing segs cur h w :
  writing k_default_segment_size segs cur (Head.wal_ h, w) →
  session_ok k_default_segment_size (segs, cur) (series_records (Head.pending_series_ h)) →
  let '(segs', cur') := foldl (log_step k_default_segment_size) (segs, cur) (series_records (Head.pending_series_ h)) in
  ∃ wal' w', Head.commit_series (h, w) =
      (Ok tt, (Head.mk wal' (Head.series_ h) [] (Head.pending_samples_ h) (Head.closed_ h), w')) ∧
    writing k_default_segment_size segs' cur' (wal', w').
Proof.
  intros Hw Hok. unfold Head.commit_series. destruct h as [wal st [|p ps] ss cl];
    cbn [Head.pending_series_ Head.wal_ series_records] in *; [by exists wal, w|].
  pose proof (log_writing_head segs cur (Head.mk wal st (p :: ps) ss cl) w _ Hw Hok) as Hlog.
  destruct (foldl _ _ _) as [segs' cur']. destruct Hlog as (wal' & w' & Hlog & Hw').
  exists wal', w'. by rewrite (rbind_ok _ _ _ _ _ Hlog).
Qed.

Lemma commit_samples_writing segs cur h w :
  writing k_default_segment_size segs cur (Head.wal_ h, w) → is_Some (encode_samples_v2 (Head.pending_samples_ h)) →
  session_ok k_default_segment_size (segs, cur) (sample_records (Head.pending_samples_ h)) →
  let '(segs', cur') := foldl (log_step k_default_segment_size) (segs, cur) (sample_records (Head.pending_samples_ h)) in
  ∃ wal' w', Head.commit_samples (h, w) =
      (Ok tt, (Head.mk wal' (Head.series_ h) (Head.pending_series_ h) [] (Head.closed_ h), w')) ∧
    writing k_default_segment_size segs' cur' (wal', w').
Proof.
  intros Hw [rec Henc] Hok. unfold Head.commit_samples. destruct h as [wal st ps [|s ss] cl];
    cbn [Head.pending_samples_ Head.wal_] in *; [by exists wal, w|].
  unfold sample_records in *. rewrite Henc in *.
  pose proof (log_writing_head segs cur (Head.mk wal st ps (s :: ss) cl) w _ Hw Hok) as Hlog.
  destruct (foldl _ _ _) as [segs' cur']. destruct Hlog as (wal' & w' & Hlog & Hw').
  exists wal', w'. by rewrite (rbind_ok _ _ _ _ _ Hlog).
Qed.

Lemma commit_writing segs cur h w :
  writing k_default_segment_size segs cur (Head.wal_ h, w) → Head.closed_ h = false → encodable h = true →
  session_ok k_default_segment_size (segs, cur) (commit_records h) →
  let '(segs', cur') := foldl (log_step k_default_segment_size) (segs, cur) (commit_records h) in
  ∃ wal' w', Head.commit (h, w) = (Ok tt, (Head.mk wal' (Head.series_ h) [] [] false, w')) ∧
    writing k_default_segment_size segs' cur' (wal', w').
Proof.
  intros Hw Hopen Henc [Hok1 Hok2]%session_ok_app. unfold commit_records. rewrite foldl_app.
  assert (is_Some (encode_samples_v2 (Head.pending_samples_ h))) as Hsome.
  { unfold encodable in Henc. destruct (encode_samples_v2 _); [by eexists|lia]. }
  pose proof (commit_series_writing segs cur h w Hw Hok1) as H1.
  destruct (foldl _ (segs, cur) _) as [segs1 cur1]. destruct H1 as (wal1 & w1 & H1 & Hw1).
  pose proof (commit_samples_writing segs1 cur1
    (Head.mk wal1 (Head.series_ h) [] (Head.pending_samples_ h) (Head.closed_ h)) w1 Hw1 Hsome Hok2) as H2.
  cbn [Head.pending_samples_ Head.series_ Head.pending_series_ Head.closed_] in H2.
  destruct (foldl _ (segs1, cur1) _) as [segs2 cur2]. destruct H2 as (wal2 & w2 & H2 & Hw2).
  exists wal2, w2. split; [|done]. unfold Head.commit. rewrite Hopen.
  rewrite (rbind_ok _ _ _ _ _ H1), (rbind_ok _ _ _ _ _ H2).
  erewrite on_wal_ok by (cbn [Head.wal_]; by eapply sync_writing). by rewrite Hopen.
Qed.

(** ** The invariant of an open head *)

(** The log in the directory is [segs] and then [cur]; its records replay to
    [st0], and the pending ones lead from there to the series of [h]. *)
Definition head_ok (segs : list (list (list Z))) (cur : list (list Z)) (st0 : SeriesStore.t) (st : Head.t * World) : Prop :=
  let '(h, w) := st in
  writing k_default_segment_size segs cur (Head.wal_ h, w) ∧ Head.closed_ h = false ∧
  replay_records (concat (segs ++ [cur])) SeriesStore.new = Ok st0 ∧ SeriesStore.wf st0 ∧ pending_ok st0 h.

Lemma pending_none st0 wal st : SeriesStore.wf st → st0 = st → pending_ok st0 (Head.mk wal st [] [] false).
Proof. intros Hwf ->. by exists st. Qed.

Lemma open_head_ok fs segs st :
  represents fs segs → Z.of_nat (length segs) < 10 ^ 8 →
  replay_records (concat segs) SeriesStore.new = Ok st → SeriesStore.wf st →
  ∃ h w, Head.open (mkWorld fs []) = (Ok h, w) ∧ Head.series_ h = st ∧ head_ok segs [] st (h, w).
Proof.
  intros Hrep Hlen Hreplay Hwf. unfold Head.open, sys_ok, sys. cbn [files script negb].
  rewrite replay_calm, (replay_segments _ _ _ Hrep), Hreplay.
  destruct (open_writing k_default_segment_size fs segs Hrep Hlen) as (wal & w & -> & Hw).
  do 2 eexists. split; [done|]. split; [done|]. split_and!; [done|done| |done|by apply pending_none].
  rewrite concat_app. cbn [concat]. by rewrite !app_nil_r.
Qed.

Lemma pending_wf st0 h : pending_ok st0 h → SeriesStore.wf (Head.series_ h).
Proof. intros (st1 & _ & Hwf & Hss). by apply replay_samples_frame in Hss as [? _]. Qed.

Lemma commit_head_ok segs cur st0 h w :
  head_ok segs cur st0 (h, w) → encodable h = true →
  session_ok k_default_segment_size (segs, cur) (commit_records h) →
  let '(segs', cur') := foldl (log_step k_default_segment_size) (segs, cur) (commit_records h) in
  ∃ wal' w', Head.commit (h, w) = (Ok tt, (Head.mk wal' (Head.series_ h) [] [] false, w')) ∧
    head_ok segs' cur' (Head.series_ h) (Head.mk wal' (Head.series_ h) [] [] false, w').
Proof.
  intros (Hw & Hopen & Hreplay & Hwf & Hpending) Henc Hok.
  pose proof (commit_writing segs cur h w Hw Hopen Henc Hok) as Hcommit.
  pose proof (log_steps_concat k_default_segment_size (commit_records h) segs cur) as Hconcat.
  destruct (foldl _ (segs, cur) _) as [segs' cur']. destruct Hcommit as (wal' & w' & Hcommit & Hw').
  pose proof (pending_wf _ _ Hpending) as Hwf'.
  exists wal', w'. split; [done|]. split_and!; [done|done| |done|by apply pending_none].
  rewrite Hconcat, replay_records_app, Hreplay. cbn [mbind outcome_bind]. rewrite (replay_commit _ _ Henc).
  destruct Hpending as (st1 & -> & _ & Hss). exact Hss.
Qed.

Lemma writing_represents size segs cur s w :
  writing size segs cur (s, w) → ∃ fs, w = mkWorld fs [] ∧ represents fs (segs ++ [cur]).
Proof. intros (fs & [= -> ->] & Hrep & _). eauto. Qed.

(** Whoever opens the directory next gets what is committed. *)
Lemma head_ok_reopen segs cur st0 h w :
  head_ok segs cur st0 (h, w) → Z.of_nat (S (length segs)) < 10 ^ 8 →
  ∃ h' w', Head.open w = (Ok h', w') ∧ Head.series_ h' = st0 ∧ head_ok (segs ++ [cur]) [] st0 (h', w').
Proof.
  intros (Hw & _ & Hreplay & Hwf & _) Hlen. apply writing_represents in Hw as (fs & -> & Hrep).
  apply open_head_ok; [done| |done|done]. rewrite length_app. cbn [length]. lia.
Qed.

Lemma close_head_ok segs cur st0 h w :
  head_ok segs cur st0 (h, w) → encodable h = true →
  session_ok k_default_segment_size (segs, cur) (commit_records h) →
  Z.of_nat (length (fst (foldl (log_step k_default_segment_size) (segs, cur) (commit_records h)))) + 2 < 10 ^ 8 →
  ∃ h' w', Head.close (h, w) = (Ok tt, (h', w')) ∧ Head.series_ h' = Head.series_ h ∧ Head.closed_ h' = true ∧
    Head.destroy h' w' = w' ∧
    ∃ h2 w2, Head.open w' = (Ok h2, w2) ∧ Head.series_ h2 = Head.series_ h.
Proof.
  intros Hhead Henc Hok Hlen. pose proof (commit_head_ok _ _ _ _ _ Hhead Henc Hok) as Hcommit.
  destruct (foldl _ (segs, cur) _) as [segs' cur']. destruct Hcommit as (wal' & w' & Hcommit & Hhead').
  cbn [fst] in Hlen. destruct Hhead' as (Hw' & _ & Hreplay & Hwf & _).
  destruct (cut_writing _ _ _ _ Hw' ltac:(lia)) as ([wal2 w2] & Hcut & Hw2).
  destruct Hhead as (_ & Hopen & _). unfold Head.close. rewrite Hopen, (rbind_ok _ _ _ _ _ Hcommit).
  erewrite on_wal_ok by exact Hcut. do 2 eexists. split; [done|]. split; [done|]. split; [done|].
  split; [unfold Head.destroy; cbn [Head.closed_ Head.set_closed]; by eapply destroy_writing|].
  apply writing_represents in Hw2 as (fs & -> & Hrep).
  destruct (open_head_ok fs ((segs' ++ [cur']) ++ [[]]) (Head.series_ h) Hrep) as (h2 & w3 & Hopen2 & Hs2 & _);
    [rewrite !length_app; cbn [length]; lia| |done|by eauto].
  rewrite concat_app. cbn [concat]. by rewrite !app_nil_r.
Qed.


(** ** Select *)

Section SelectFacts.
Context `{RegexEngine}.
Import MemSeriesFacts.

(** A chunk with the samples [ss] and what is returned for it: the samples as
    they are, with their first and last timestamps, which overlap the range. *)
Definition found_chunk (mint maxt : Z) (ss : list (Z * Z)) (c : XORChunk.t) (m : ChunkMeta) : Prop :=
  chunk_list c = Some ss ∧ chunk_ref m = 0 ∧
  (∃ x y, head ss = Some x ∧ last ss = Some y ∧ min_time m = fst x ∧ max_time m = fst y) ∧
  min_time m <= maxt ∧ mint <= max_time m.

Lemma chunk_range_eq ss c :
  chunk_done ss c →
  ∃ x y it, head ss = Some x ∧ last ss = Some y ∧
    Head.chunk_range c = Some (Some (fst x, fst y), it) ∧ XORIterator.err_ it = None.
Proof.
  intros Hdone. destruct (chunk_samples _ _ Hdone) as (_ & it & Hdrain & Herr).
  unfold Head.chunk_range. rewrite Hdrain. cbn [mbind option_bind].
  destruct Hdone as (Hne & _). destruct ss as [|x ss]; [done|].
  destruct (last (x :: ss)) as [y|] eqn:Hl; [|by apply last_None in Hl]. by exists x, y, it.
Qed.

Lemma select_chunks_spec mint maxt sss cs :
  Forall2 chunk_done sss cs →
  ∃ found, Head.select_chunks mint maxt cs = Ok found ∧
    Forall (λ p, ∃ ss, ss ∈ sss ∧ found_chunk mint maxt ss (fst p) (snd p)) found ∧
    ∀ ss x y, ss ∈ sss → head ss = Some x → last ss = Some y → fst x <= maxt → mint <= fst y →
      ∃ p, p ∈ found ∧ chunk_list (fst p) = Some ss.
Proof.
  induction 1 as [|ss c sss cs Hdone _ IH].
  { exists []. split_and!; [done|constructor|]. by intros ? ? ? ?%elem_of_nil. }
  destruct IH as (found & Hfound & Hall & Hin).
  destruct (chunk_samples _ _ Hdone) as (Hnum & _). apply chunk_done_list in Hdone as Hlist.
  destruct (chunk_range_eq _ _ Hdone) as (x & y & it & Hx & Hy & Hrange & Herr).
  pose proof Hdone as (Hne & _). cbn [Head.select_chunks]. rewrite Hnum. cbn [defined mbind outcome_bind].
  destruct (Z.eqb_spec (Z.of_nat (length ss)) 0); [destruct ss; [done|simpl in *; lia]|].
  rewrite Hrange. cbn [defined mbind outcome_bind]. rewrite Herr.
  rewrite bool_decide_false by (by intros [? ?]).
  destruct ((maxt <? fst x) || (fst y <? mint)) eqn:Hout.
  - exists found. split_and!; [done| |].
    + eapply Forall_impl; [exact Hall|]. intros p (ss' & Hin' & Hp). exists ss'. split; [by right|done].
    + intros ss' x' y' [->|Hss']%elem_of_cons Hx' Hy' Hlo Hhi; [|by eapply Hin].
      rewrite Hx in Hx'. rewrite Hy in Hy'. simplify_eq. lia.
  - rewrite Hfound. cbn [mbind outcome_bind]. eexists. split; [done|]. split.
    + constructor.
      * exists ss. split; [by left|]. cbn [fst snd]. split_and!; [done|done|by exists x, y|simpl; lia|simpl; lia].
      * eapply Forall_impl; [exact Hall|]. intros p (ss' & Hin' & Hp). exists ss'. split; [by right|done].
    + intros ss' x' y' [->|Hss']%elem_of_cons Hx' Hy' Hlo Hhi.
      * eexists. split; [by left|done].
      * destruct (Hin ss' x' y' Hss' Hx' Hy' Hlo Hhi) as (p & Hp & Hpl). exists p. split; [by right|done].
Qed.

(** The samples of a series, as [append] leaves them. *)
Definition series_samples (s : MemSeries.t) (samples : list (Z * Z)) : Prop :=
  represents s samples ∧ StronglySorted (λ a b, fst a <= fst b) samples ∧ Z.of_nat (length samples) < 2 ^ 64.

Lemma sorted_ends (ss : list (Z * Z)) x y s :
  StronglySorted (λ a b, fst a <= fst b) ss → head ss = Some x → last ss = Some y → s ∈ ss →
  fst x <= fst s <= fst y.
Proof.
  intros Hsorted. revert x. induction Hsorted as [|a ss Hss IH Hall]; intros x; [done|].
  intros [= ->] Hlast Hs. destruct ss as [|b ss].
  { injection Hlast as <-. apply list_elem_of_singleton in Hs as ->. lia. }
  rewrite last_cons_cons in Hlast. rewrite Forall_forall in Hall.
  assert (fst x <= fst y) by (apply Hall; by apply last_Some_elem_of).
  apply elem_of_cons in Hs as [->|Hs]; [lia|]. split; [by apply Hall|]. by apply (IH b).
Qed.

Lemma sorted_concat (sss : list (list (Z * Z))) ss :
  StronglySorted (λ a b, fst a <= fst b) (concat sss) → ss ∈ sss → StronglySorted (λ a b, fst a <= fst b) ss.
Proof.
  induction sss as [|k sss IH]; intros Hs Hin; [by apply elem_of_nil in Hin|]. cbn [concat] in Hs.
  apply StronglySorted_app in Hs as (_ & Hk & Hrest). apply elem_of_cons in Hin as [->|Hin]; auto.
Qed.

(** The chunks found for a range hold every sample of the range. *)
Lemma select_chunks_covers mint maxt sss cs :
  Forall2 chunk_done sss cs → StronglySorted (λ a b, fst a <= fst b) (concat sss) →
  ∃ found, Head.select_chunks mint maxt cs = Ok found ∧
    Forall (λ p, ∃ ss, ss ∈ sss ∧ found_chunk mint maxt ss (fst p) (snd p)) found ∧
    ∀ x, x ∈ concat sss → mint <= fst x <= maxt → ∃ p ss', p ∈ found ∧ chunk_list (fst p) = Some ss' ∧ x ∈ ss'.
Proof.
  intros Hdone Hsorted. destruct (select_chunks_spec mint maxt sss _ Hdone) as (found & Hfound & Hchunks & Hcover).
  exists found. split_and!; [done..|]. intros x Hx Hrange. apply list_elem_of_In, in_concat in Hx as (ss' & Hss' & Hx).
  apply list_elem_of_In in Hss', Hx. pose proof (sorted_concat _ _ Hsorted Hss') as Hsorted'.
  destruct (head ss') as [a|] eqn:Ha; [|destruct ss'; [by apply elem_of_nil in Hx|done]].
  destruct (last ss') as [b|] eqn:Hb; [|apply last_None in Hb; subst; by apply elem_of_nil in Hx].
  pose proof (sorted_ends _ _ _ _ Hsorted' Ha Hb Hx) as Hends.
  destruct (Hcover ss' a b Hss' Ha Hb) as (p & Hp & Hpl); [lia..|]. eauto.
Qed.

(** What a result says about the series [s] with the samples [samples]. *)
Definition found_series (mint maxt : Z) (s : MemSeries.t) (qr : QueryResult) : Prop :=
  qr_labels qr = MemSeries.labels_ s ∧ qr_chunks qr ≠ [] ∧
  Forall2 (λ c m, ∃ ss, found_chunk mint maxt ss c m) (qr_chunks qr) (qr_metas qr).

(** The samples of a result. *)
Definition qr_sample (qr : QueryResult) (x : Z * Z) : Prop :=
  ∃ c ss, c ∈ qr_chunks qr ∧ chunk_list c = Some ss ∧ x ∈ ss.

Lemma select_series_spec matchers mint maxt ss :
  Forall (λ s, ∃ samples, series_samples s samples) ss →
  ∃ res, Head.select_series matchers mint maxt ss = Ok res ∧
    Forall (λ qr, ∃ s samples, s ∈ ss ∧ series_samples s samples ∧
      labels_match_all (MemSeries.labels_ s) matchers = true ∧ found_series mint maxt s qr ∧
      ∀ x, qr_sample qr x → x ∈ samples) res ∧
    ∀ s samples x, s ∈ ss → series_samples s samples → labels_match_all (MemSeries.labels_ s) matchers = true →
      x ∈ samples → mint <= fst x <= maxt → ∃ qr, qr ∈ res ∧ qr_labels qr = MemSeries.labels_ s ∧ qr_sample qr x.
Proof.
  induction 1 as [|s ss (samples & Hsamples) _ (res & Hres & Hall & Hin)].
  { exists []. split_and!; [done|constructor|]. by intros ? ? ? ?%elem_of_nil. }
  assert (Forall (λ qr, ∃ s0 samples, s0 ∈ s :: ss ∧ series_samples s0 samples ∧
      labels_match_all (MemSeries.labels_ s0) matchers = true ∧ found_series mint maxt s0 qr ∧
      ∀ x, qr_sample qr x → x ∈ samples) res) as Hall'.
  { eapply Forall_impl; [exact Hall|]. intros qr (s' & samples' & ? & ?). exists s', samples'. split; [by right|done]. }
  cbn [Head.select_series]. destruct Hsamples as (Hrep & Hsorted & Hlen).
  pose proof Hrep as (Hnum & _). unfold MemSeries.num_samples. rewrite Hnum.
  assert (∀ samples', represents s samples' → samples' = samples) as Huniq.
  { intros samples' Hrep'. apply represents_read in Hrep, Hrep'. congruence. }
  unfold u64. rewrite Z.mod_small by lia.
  destruct ((Z.of_nat (length samples) =? 0) || negb (labels_match_all (MemSeries.labels_ s) matchers)) eqn:Hskip.
  { exists res. split_and!; [done|done|]. intros s0 samples' x [->|Hs0]%elem_of_cons Hss Hmatch Hx Hrange; [|by eapply Hin].
    destruct Hss as (Hrep' & _). rewrite (Huniq _ Hrep') in Hx. rewrite Hmatch in Hskip.
    destruct samples; [by apply elem_of_nil in Hx|]. cbn [length] in Hskip. lia. }
  apply orb_false_elim in Hskip as [_ Hmatch%negb_false_iff].
  pose proof (represents_chunks _ _ Hrep) as (sss & -> & Hdone).
  destruct (select_chunks_covers mint maxt sss _ Hdone Hsorted) as (found & Hfound & Hchunks & Hget).
  unfold MemSeries.chunks. rewrite Hfound, Hres. cbn [mbind outcome_bind].
  destruct found as [|p found].
  { exists res. split_and!; [done|done|]. intros s0 samples' x [->|Hs0]%elem_of_cons Hss Hm Hx Hrange; [|by eapply Hin].
    destruct Hss as (Hrep' & _). rewrite (Huniq _ Hrep') in Hx.
    destruct (Hget x Hx Hrange) as (p & ? & Hp & _). by apply elem_of_nil in Hp. }
  set (qr := mkQueryResult _ _ _). exists (qr :: res). split; [done|]. split.
  - constructor; [|done]. exists s, (concat sss). split_and!; [by left|done|done| |].
    + split_and!; [done|done|]. cbn [qr qr_chunks qr_metas]. apply Forall2_fmap_2, Forall_Forall2_diag.
      eapply Forall_impl; [exact Hchunks|]. intros q (ss' & _ & Hq). by exists ss'.
    + intros x (c & ss' & Hc & Hl & Hx). cbn [qr qr_chunks] in Hc. apply list_elem_of_fmap in Hc as (q & -> & Hq).
      rewrite Forall_forall in Hchunks. destruct (Hchunks q Hq) as (ss2 & Hss2 & Hl2 & _).
      rewrite Hl in Hl2. injection Hl2 as ->. apply list_elem_of_In, in_concat. exists ss2.
      by rewrite <- !list_elem_of_In.
  - intros s0 samples' x [->|Hs0]%elem_of_cons Hss Hm Hx Hrange.
    + destruct Hss as (Hrep' & _). rewrite (Huniq _ Hrep') in Hx.
      destruct (Hget x Hx Hrange) as (q & ss' & Hq & Hl & Hx'). exists qr. split; [by left|]. split; [done|].
      exists (fst q), ss'. split_and!; [by apply list_elem_of_fmap_2|done|done].
    + destruct (Hin s0 samples' x Hs0 Hss Hm Hx Hrange) as (qr' & ? & ?). exists qr'. split; [by right|done].
Qed.

End SelectFacts.

(** ** The head as a map from label sets to samples *)

Import MemSeriesFacts.

(** The samples the store holds for [labels]. *)
Definition view (st : SeriesStore.t) (labels : Labels.t) : option (list (Z * Z)) :=
  r ← SeriesStore.by_labels_ st !! labels; s ← SeriesStore.slot st (Z.to_nat (r - 1)); read_back s.

Definition store_ok (st : SeriesStore.t) : Prop :=
  SeriesStore.wf st ∧ ∀ i s, SeriesStore.slot st i = Some s → ∃ samples, series_samples s samples.

Lemma store_ok_new : store_ok SeriesStore.new.
Proof. split; [apply SeriesStoreFacts.wf_new|]. by intros i s. Qed.

Lemma store_ok_all st :
  store_ok st → Forall (λ s, ∃ samples, series_samples s samples) (SeriesStore.all_series st).
Proof.
  intros [_ Hss]. apply Forall_forall. intros s Hs. unfold SeriesStore.all_series in Hs.
  apply list_elem_of_omap in Hs as (o & Ho & Hos). apply list_elem_of_lookup in Ho as [i Hi].
  apply (Hss i). apply SeriesStoreFacts.slot_eq. unfold id in Hos. by rewrite Hos in Hi.
Qed.

Lemma view_slot st i s samples :
  SeriesStore.wf st → SeriesStore.slot st i = Some s → represents s samples →
  view st (MemSeries.labels_ s) = Some samples.
Proof.
  intros Hwf Hs Hrep. unfold view. destruct (SeriesStore.wf_slot _ Hwf _ _ Hs) as [_ ->]. cbn [mbind option_bind].
  rewrite Z.add_simpl_r, Nat2Z.id, Hs. cbn [mbind option_bind]. by apply represents_read.
Qed.

Lemma view_other st st' l :
  SeriesStore.wf st → SeriesStore.by_labels_ st' !! l = SeriesStore.by_labels_ st !! l →
  (∀ i s, SeriesStore.slot st i = Some s → MemSeries.labels_ s = l → SeriesStore.slot st' i = Some s) →
  view st' l = view st l.
Proof.
  intros Hwf Hbl Hslots. unfold view. rewrite Hbl. destruct (SeriesStore.by_labels_ st !! l) as [r|] eqn:Hr; [|done].
  cbn [mbind option_bind]. destruct (SeriesStore.wf_labels _ Hwf _ _ Hr) as (_ & s & Hs & Hls).
  by rewrite (Hslots _ _ Hs Hls), Hs.
Qed.

(** Creating the series does not show. *)
Lemma get_or_create_view labels st i fresh st' :
  store_ok st → SeriesStore.get_or_create labels st = Some (i, fresh, st') →
  store_ok st' ∧ (∀ l, default [] (view st' l) = default [] (view st l)) ∧ (∀ l, l ≠ labels → view st' l = view st l) ∧
  ∃ s, SeriesStore.slot st' i = Some s ∧ MemSeries.labels_ s = labels ∧ MemSeries.ref_ s = Z.of_nat i + 1 ∧
    (i < length (SeriesStore.by_ref_ st'))%nat.
Proof.
  intros [Hwf Hss] Hget. destruct (SeriesStore.by_labels_ st !! labels) as [r|] eqn:Hr.
  - rewrite (SeriesStoreFacts.get_or_create_old _ _ _ Hwf Hr) in Hget. injection Hget as <- <- <-.
    destruct (SeriesStore.wf_labels _ Hwf _ _ Hr) as (_ & s & Hs & Hls).
    split_and!; [done..|]. exists s. split_and!; [done|done|by apply (SeriesStore.wf_slot _ Hwf)|by eapply SeriesStoreFacts.slot_lt].
  - pose proof (get_or_create_room _ _ _ Hwf Hr Hget) as Hroom. pose proof (SeriesStore.wf_next _ Hwf) as Hn.
    rewrite (SeriesStoreFacts.get_or_create_new _ _ Hwf Hr Hroom) in Hget. injection Hget as <- _ <-.
    set (st' := SeriesStoreFacts.add_series _ _ _).
    assert (SeriesStore.wf st') as Hwf' by (apply SeriesStoreFacts.wf_add_series; [done|lia|done]).
    assert (SeriesStore.slot st' (length (SeriesStore.by_ref_ st)) =
      Some (MemSeries.new (SeriesStore.next_ref_ st) labels)) as Hs
      by (unfold st'; rewrite SeriesStoreFacts.slot_add by lia; by rewrite decide_True by lia).
    assert (∀ l, l ≠ labels → view st' l = view st l) as Hother.
    { intros l Hl. apply view_other; [done|by apply lookup_insert_ne|].
      intros j s2 Hj _. by apply SeriesStoreFacts.keeps_add; [lia|]. }
    split; [|split; [|split; [done|]]].
    + split; [done|]. intros j s2. unfold st'. rewrite SeriesStoreFacts.slot_add by lia. case_decide; [|apply Hss].
      intros [= <-]. exists []. split_and!; [apply represents_new|constructor|done].
    + intros l. destruct (decide (l = labels)) as [->|Hl]; [|by rewrite Hother].
      pose proof (view_slot _ _ _ [] Hwf' Hs (represents_new _ _)) as Hv. cbn [MemSeries.labels_ MemSeries.new] in Hv.
      rewrite Hv. unfold view. by rewrite Hr.
    + exists (MemSeries.new (SeriesStore.next_ref_ st) labels).
      split_and!; [done|done|simpl; lia|by eapply SeriesStoreFacts.slot_lt].
Qed.

Lemma sorted_snoc (ss : list (Z * Z)) x :
  StronglySorted (λ a b, fst a <= fst b) ss → (∀ p, last ss = Some p → fst p <= fst x) →
  StronglySorted (λ a b, fst a <= fst b) (ss ++ [x]).
Proof.
  intros Hss Hlast. apply StronglySorted_app_2; [|done|repeat constructor].
  intros a b Ha ->%list_elem_of_singleton.
  destruct (last ss) as [y|] eqn:Hy; [|apply last_None in Hy; subst; by apply elem_of_nil in Ha].
  destruct (head ss) as [z|] eqn:Hz; [|destruct ss; [by apply elem_of_nil in Ha|done]].
  pose proof (sorted_ends ss z y a Hss Hz Hy Ha). specialize (Hlast y eq_refl). lia.
Qed.

(** [append] against the abstract map. *)
Lemma append_view labels t v h :
  store_ok (Head.series_ h) → Head.closed_ h = false →
  is_Some (SeriesStore.get_or_create labels (Head.series_ h)) →
  let old := default [] (view (Head.series_ h) labels) in
  time_next t old → is_u64 v = true → Z.of_nat (length old) + 1 < 2 ^ 64 →
  let '(o, h') := Head.append labels t v h in
  store_ok (Head.series_ h') ∧
  (∀ l, l ≠ labels → view (Head.series_ h') l = view (Head.series_ h) l) ∧
  ((∃ p, last old = Some p ∧ t < fst p ∧ o = Err InvalidArgument ∧
      view (Head.series_ h') labels = Some old ∧ Head.pending_samples_ h' = Head.pending_samples_ h) ∨
   (∃ r, (∀ p, last old = Some p → fst p <= t) ∧ o = Ok r ∧
      view (Head.series_ h') labels = Some (old ++ [(t, v)]) ∧
      Head.pending_samples_ h' = Head.pending_samples_ h ++ [mkRefSample r t 0 v])).
Proof.
  intros Hst Hopen [[[i fresh] st'] Hget] old Htime Hv Hlen. unfold Head.append. rewrite Hopen, Hget.
  destruct (get_or_create_view _ _ _ _ _ Hst Hget) as ([Hwf' Hss'] & Hdef & Hother & s & Hs & Hls & Href & Hi).
  rewrite Hs. destruct (Hss' i s Hs) as (samples & Hrep & Hsorted & _).
  assert (view st' labels = Some samples) as Hview by (rewrite <- Hls; by apply (view_slot _ _ _ _ Hwf' Hs)).
  assert (old = samples) as -> by (unfold old; rewrite <- Hdef, Hview; done).
  pose proof (append_represents s samples t v Hrep Htime Hv) as Happ. unfold append_spec in Happ.
  destruct (MemSeries.append t v s) as [[[] s']|] eqn:Hms; [..|done]; cbn [Head.series_ Head.pending_samples_].
  - destruct Happ as (Hrep' & Href' & Hls' & Hlast).
    assert (SeriesStore.wf (SeriesStore.set_slot i s' st')) as Hwf2 by by eapply SeriesStoreFacts.wf_set_slot.
    assert (SeriesStore.slot (SeriesStore.set_slot i s' st') i = Some s') as Hs'
      by (rewrite SeriesStoreFacts.slot_set; by rewrite decide_True by done).
    split_and!.
    + split; [done|]. intros j s2. rewrite SeriesStoreFacts.slot_set. case_decide as Hj; [|apply Hss'].
      intros [= <-]. exists (samples ++ [(t, v)]). split_and!; [done|by apply sorted_snoc|].
      rewrite length_app. cbn [length]. lia.
    + intros l Hl. rewrite <- Hother by done. apply view_other; [done|done|].
      intros j s2 Hj Hl2. rewrite SeriesStoreFacts.slot_set. rewrite decide_False; [done|]. intros [<- _].
      rewrite Hs in Hj. injection Hj as <-. by rewrite Hls in Hl2.
    + right. exists (MemSeries.ref_ s'). split_and!; [done|done| |done].
      rewrite <- Hls, <- Hls'. by apply (view_slot _ i).
  - destruct Happ as (-> & p & Hp & Hlt).
    assert (SeriesStore.set_slot i s st' = st') as ->.
    { unfold SeriesStore.set_slot. rewrite list_insert_id by by apply SeriesStoreFacts.slot_eq. by destruct st'. }
    split_and!; [done|done|]. left. exists p. by split_and!.
Qed.

(** A new head after one sample. *)
Definition sample_head (l : Labels.t) (t v : Z) : Head.t :=
  snd (Head.append l t v (Head.mk (SegmentWriter.mk 16 0 None [] 0) SeriesStore.new [] [] false)).

Lemma sample_head_store l t v :
  is_Some (SeriesStore.get_or_create l SeriesStore.new) → is_i64 t && is_u64 v = true →
  store_ok (Head.series_ (sample_head l t v)).
Proof.
  intros Hget [Ht Hv]%andb_prop.
  pose proof (append_view l t v (Head.mk (SegmentWriter.mk 16 0 None [] 0) SeriesStore.new [] [] false) store_ok_new eq_refl Hget) as Happ.
  unfold sample_head. destruct (Head.append _ _ _ _) as [o h']. by apply Happ.
Qed.

(** ** Runs of operations *)

Inductive op : Type :=
| OpAppend (labels : Labels.t) (t v : Z)
| OpCommit.

Definition run_op (st : Head.t * World) (o : op) : Head.t * World :=
  match o with
  | OpAppend labels t v => let '(h, w) := st in (snd (Head.append labels t v h), w)
  | OpCommit => snd (Head.commit st)
  end.

(** No operation of the run is undefined: the label sets are canonical, no
    timestamp overflows a subtraction and every commit can be encoded and
    meets the condition of [page_log_roundtrip] in every segment it fills.
    [log] is the log before the run. *)
Fixpoint run_ok (ops : list op) (log : list (list (list Z)) * list (list Z)) (st : Head.t * World) : bool :=
  match ops with
  | [] => Z.of_nat (length (fst log)) + 2 <? 10 ^ 8
  | o :: ops =>
      match o with
      | OpAppend labels t v =>
          bool_decide (Labels.canonicalize labels = labels) &&
          match fst (Head.append labels t v (fst st)) with UB => false | _ => true end &&
          run_ok ops log (run_op st o)
      | OpCommit =>
          encodable (fst st) && bool_decide (session_ok k_default_segment_size log (commit_records (fst st))) &&
          run_ok ops (foldl (log_step k_default_segment_size) log (commit_records (fst st))) (run_op st o)
      end
  end.

Lemma append_head_ok segs cur st0 labels t v h w :
  head_ok segs cur st0 (h, w) → Labels.canonicalize labels = labels → fst (Head.append labels t v h) ≠ UB →
  head_ok segs cur st0 (snd (Head.append labels t v h), w).
Proof.
  intros (Hw & Hopen & Hreplay & Hwf & Hpending) Hl Hdef.
  assert (Labels.wf labels) as Hlwf by (rewrite <- Hl; apply LabelsFacts.canonicalize_wf).
  pose proof (append_pending st0 labels t v h Hpending Hlwf Hopen) as Happ.
  destruct (Head.append labels t v h) as [o h']. cbn [fst snd] in *.
  destruct Happ as (Hpending' & Hwal & Hopen' & _); [done|]. split_and!; [by rewrite Hwal|done..].
Qed.

(** A run that ends with a commit, up to that commit. *)
Lemma run_head_ok ops segs cur st0 h w :
  head_ok segs cur st0 (h, w) → run_ok (ops ++ [OpCommit]) (segs, cur) (h, w) = true →
  let '(h', w') := foldl run_op (h, w) ops in
  ∃ segs' cur' st0', head_ok segs' cur' st0' (h', w') ∧ encodable h' = true ∧
    session_ok k_default_segment_size (segs', cur') (commit_records h') ∧
    Z.of_nat (length (fst (foldl (log_step k_default_segment_size) (segs', cur') (commit_records h')))) + 2 < 10 ^ 8.
Proof.
  revert segs cur st0 h w. induction ops as [|[labels t v|] ops IH]; intros segs cur st0 h w Hhead; cbn [app run_ok foldl fst].
  - intros [[Henc Hok%bool_decide_eq_true_1]%andb_prop Hlen]%andb_prop. exists segs, cur, st0. split_and!; [done..|lia].
  - intros [[Hl%bool_decide_eq_true_1 Hdef]%andb_prop Hrun]%andb_prop.
    cbn [fst run_op] in *. apply (IH segs cur st0); [|done]. apply append_head_ok; [done..|]. intros HUB. by rewrite HUB in Hdef.
  - intros [[Henc Hok%bool_decide_eq_true_1]%andb_prop Hrun]%andb_prop. cbn [fst] in *.
    pose proof (commit_head_ok segs cur st0 h w Hhead Henc Hok) as Hcommit. cbn [run_op] in *.
    destruct (foldl (log_step _) (segs, cur) _) as [segs' cur'] eqn:Hlog.
    destruct Hcommit as (wal' & w' & Hcommit & Hhead'). rewrite Hcommit in *. cbn [snd] in *.
    by apply (IH segs' cur' (Head.series_ h)).
Qed.

End HeadFacts.

(** * Properties *)

Module HeadProps.
Import MemSeriesFacts SegmentFacts HeadFacts.

(** C1: recovery. Whatever samples a client appends and commits to a head
    opened on an empty directory, and however many segments that takes, closing
    the head succeeds, and opening the directory again rebuilds the very same
    series store: references, labels, chunks to the byte, and appenders. *)
Theorem head_run_recovers (ops : list op) :
  match Head.open (mkWorld ∅ []) with
  | (Ok h0, w0) =>
      run_ok (ops ++ [OpCommit]) ([], []) (h0, w0) = true →
      let '(h, w) := foldl run_op (h0, w0) ops in
      ∃ h' w' h2 w2,
        Head.close (h, w) = (Ok tt, (h', w')) ∧ Head.open (Head.destroy h' w') = (Ok h2, w2) ∧
        Head.series_ h2 = Head.series_ h
  | _ => False
  end.
Proof.
  destruct (open_head_ok ∅ [] SeriesStore.new represents_empty eq_refl eq_refl SeriesStoreFacts.wf_new)
    as (h0 & w0 & -> & _ & Hhead). intros Hrun.
  pose proof (run_head_ok ops [] [] _ h0 w0 Hhead Hrun) as Hok. destruct (foldl run_op (h0, w0) ops) as [h w].
  destruct Hok as (segs & cur & st0 & Hhead' & Henc & Hok & Hlen).
  destruct (close_head_ok _ _ _ _ _ Hhead' Henc Hok Hlen) as (h' & w' & Hclose & _ & _ & Hdestroy & h2 & w2 & Hopen & Hs).
  exists h', w', h2, w2. by rewrite Hdestroy.
Qed.

Lemma head_run_recovers_witness :
  let a := [mkLabel [97] [49]] in
  let b := [mkLabel [97] [50]; mkLabel [98] [51]] in
  let ops := [OpAppend a 1000 0x3FF0000000000000; OpAppend b 1000 0; OpCommit;
              OpAppend a 900 0; OpAppend a 2000 5; OpAppend b 1001 6] in
  match Head.open (mkWorld ∅ []) with
  | (Ok h0, w0) =>
      let '(h, w) := foldl run_op (h0, w0) ops in
      ∃ h' w' h2 w2,
        Head.close (h, w) = (Ok tt, (h', w')) ∧ Head.open (Head.destroy h' w') = (Ok h2, w2) ∧
        Head.series_ h2 = Head.series_ h
  | _ => False
  end.
Proof.
  intros a b ops. pose proof (head_run_recovers ops) as Hrun.
  destruct (Head.open (mkWorld ∅ [])) as [[h0| |] w0] eqn:Hopen; [|exact Hrun|exact Hrun]. apply Hrun.
  vm_compute in Hopen. injection Hopen as <- <-. vm_compute. reflexivity.
Defined.

(** C2: durability of a commit and atomicity of a crash. In an open head over
    a log, [commit] succeeds, and from then on whoever opens the directory gets
    exactly the series of the head at that commit; until it returns, and
    without it, whoever opens the directory gets the series of the commit
    before. *)
Theorem head_commit_durable (segs : list (list (list Z))) (cur : list (list Z)) (st0 : SeriesStore.t)
    (h : Head.t) (w : World) :
  head_ok segs cur st0 (h, w) → encodable h = true →
  session_ok k_default_segment_size (segs, cur) (commit_records h) →
  let log := foldl (log_step k_default_segment_size) (segs, cur) (commit_records h) in
  Z.of_nat (length segs) + 1 < 10 ^ 8 → Z.of_nat (length (fst log)) + 1 < 10 ^ 8 →
  (∃ h1 w1, Head.open w = (Ok h1, w1) ∧ Head.series_ h1 = st0) ∧
  ∃ h' w', Head.commit (h, w) = (Ok tt, (h', w')) ∧ head_ok (fst log) (snd log) (Head.series_ h) (h', w') ∧
    Head.series_ h' = Head.series_ h ∧ Head.pending_series_ h' = [] ∧ Head.pending_samples_ h' = [] ∧
    ∃ h2 w2, Head.open w' = (Ok h2, w2) ∧ Head.series_ h2 = Head.series_ h.
Proof.
  intros Hhead Henc Hok log Hlen Hlen'. split.
  { destruct (head_ok_reopen _ _ _ _ _ Hhead ltac:(lia)) as (h1 & w1 & ? & ? & _). eauto. }
  pose proof (commit_head_ok _ _ _ _ _ Hhead Henc Hok) as Hcommit. fold log in Hcommit.
  destruct log as [segs' cur']. destruct Hcommit as (wal' & w' & Hcommit & Hhead'). cbn [fst snd] in *.
  do 2 eexists. split_and!; [exact Hcommit|exact Hhead'|done..|].
  destruct (head_ok_reopen _ _ _ _ _ Hhead' ltac:(lia)) as (h2 & w2 & ? & ? & _). eauto.
Qed.

(** A second commit, of a new sample in an old series and of a new series with
    one: two records. The commit before holds two series. *)
Lemma head_commit_durable_witness :
  let a := [mkLabel [97] [49]] in
  let b := [mkLabel [97] [50]; mkLabel [98] [51]] in
  let c := [mkLabel [99] [52]] in
  let ops := [OpAppend a 1000 7; OpAppend b 1000 0; OpCommit; OpAppend a 2000 5; OpAppend c 1500 6] in
  match Head.open (mkWorld ∅ []) with
  | (Ok h0, w0) =>
      let '(h, w) := foldl run_op (h0, w0) ops in
      length (commit_records h) = 2%nat ∧
      match Head.open w with
      | (Ok h1, _) => (view (Head.series_ h1) <$> [a; b; c]) = [Some [(1000, 7)]; Some [(1000, 0)]; None]
      | _ => False
      end ∧
      (view (Head.series_ h) <$> [a; b; c]) = [Some [(1000, 7); (2000, 5)]; Some [(1000, 0)]; Some [(1500, 6)]] ∧
      ∃ segs cur st0,
        (∃ h1 w1, Head.open w = (Ok h1, w1) ∧ Head.series_ h1 = st0) ∧
        ∃ h' w', Head.commit (h, w) = (Ok tt, (h', w')) ∧
          let log := foldl (log_step k_default_segment_size) (segs, cur) (commit_records h) in
          head_ok (fst log) (snd log) (Head.series_ h) (h', w') ∧
          Head.series_ h' = Head.series_ h ∧ Head.pending_series_ h' = [] ∧ Head.pending_samples_ h' = [] ∧
          ∃ h2 w2, Head.open w' = (Ok h2, w2) ∧ Head.series_ h2 = Head.series_ h
  | _ => False
  end.
Proof.
  intros a b c ops.
  destruct (open_head_ok ∅ [] SeriesStore.new represents_empty eq_refl eq_refl SeriesStoreFacts.wf_new)
    as (h0 & w0 & Hopen & _ & Hhead). rewrite Hopen.
  assert (run_ok (ops ++ [OpCommit]) ([], []) (h0, w0) = true) as Hrun
    by (vm_compute in Hopen; injection Hopen as <- <-; vm_compute; reflexivity).
  pose proof (run_head_ok ops [] [] _ h0 w0 Hhead Hrun) as Hok. clear Hhead Hrun.
  assert (let '(h, w) := foldl run_op (h0, w0) ops in
    length (commit_records h) = 2%nat ∧
    match Head.open w with
    | (Ok h1, _) => (view (Head.series_ h1) <$> [a; b; c]) = [Some [(1000, 7)]; Some [(1000, 0)]; None]
    | _ => False
    end ∧
    (view (Head.series_ h) <$> [a; b; c]) = [Some [(1000, 7); (2000, 5)]; Some [(1000, 0)]; Some [(1500, 6)]]) as Hviews
    by (vm_compute in Hopen; injection Hopen as <- <-; vm_compute; repeat split; reflexivity).
  destruct (foldl run_op _ ops) as [h w]. destruct Hviews as (Hn & Hbefore & Hafter).
  destruct Hok as (segs & cur & st0 & Hhead & Henc & Hsession & Hlen).
  split; [exact Hn|]. split; [exact Hbefore|]. split; [exact Hafter|]. exists segs, cur, st0.
  apply (head_commit_durable segs cur st0 h w Hhead Henc Hsession); [|lia].
  pose proof (prefix_length _ _ (log_steps_closed k_default_segment_size (commit_records h) segs cur)). lia.
Defined.

(** C9: the head is a map from label sets to samples. An append to an open
    head either refuses a sample older than the last one of its label set,
    with [InvalidArgument] and nothing pending for it, or adds the sample to
    that label set and to the pending ones; the other label sets keep their
    samples. *)
Theorem head_append_refines (labels : Labels.t) (t v : Z) (h : Head.t) :
  store_ok (Head.series_ h) → Head.closed_ h = false →
  is_Some (SeriesStore.get_or_create labels (Head.series_ h)) →
  let old := default [] (view (Head.series_ h) labels) in
  time_next t old → is_u64 v = true → Z.of_nat (length old) + 1 < 2 ^ 64 →
  let '(o, h') := Head.append labels t v h in
  store_ok (Head.series_ h') ∧
  (∀ l, l ≠ labels → view (Head.series_ h') l = view (Head.series_ h) l) ∧
  ((∃ p, last old = Some p ∧ t < fst p ∧ o = Err InvalidArgument ∧
      view (Head.series_ h') labels = Some old ∧ Head.pending_samples_ h' = Head.pending_samples_ h) ∨
   (∃ r, (∀ p, last old = Some p → fst p <= t) ∧ o = Ok r ∧
      view (Head.series_ h') labels = Some (old ++ [(t, v)]) ∧
      Head.pending_samples_ h' = Head.pending_samples_ h ++ [mkRefSample r t 0 v])).
Proof. apply append_view. Qed.

Lemma head_append_refines_witness :
  let h := Head.mk (SegmentWriter.mk 16 0 None [] 0) SeriesStore.new [] [] false in
  let labels := [mkLabel [97] [98]] in
  let '(o, h') := Head.append labels 1000 7 h in
  store_ok (Head.series_ h') ∧
  (∀ l, l ≠ labels → view (Head.series_ h') l = view (Head.series_ h) l) ∧
  ((∃ p : Z * Z, last [] = Some p ∧ 1000 < fst p ∧ o = Err InvalidArgument ∧
      view (Head.series_ h') labels = Some [] ∧ Head.pending_samples_ h' = Head.pending_samples_ h) ∨
   (∃ r, (∀ p : Z * Z, last [] = Some p → fst p <= 1000) ∧ o = Ok r ∧
      view (Head.series_ h') labels = Some ([] ++ [(1000, 7)]) ∧
      Head.pending_samples_ h' = Head.pending_samples_ h ++ [mkRefSample r 1000 0 7])).
Proof.
  apply (head_append_refines [mkLabel [97] [98]] 1000 7
    (Head.mk (SegmentWriter.mk 16 0 None [] 0) SeriesStore.new [] [] false));
    [apply store_ok_new|reflexivity|vm_compute; eexists; reflexivity|split; [reflexivity|done]|reflexivity|reflexivity].
Defined.

(** C13: a query of the head. On a store as [append] leaves it, [select] with
    at least one matcher succeeds. Every sample of a matching series in the
    range is in a result for the labels of the series; every result is for a
    matching series, has at least one chunk, holds samples of that series only,
    and describes each chunk by its first and last timestamps, which overlap
    the range. *)
Theorem head_select `{RegexEngine} (matchers : list Matcher.t) (mint maxt : Z) (h : Head.t) :
  matchers ≠ [] →
  store_ok (Head.series_ h) →
  ∃ res, Head.select matchers mint maxt h = Ok res ∧
    Forall (λ qr, ∃ s samples, s ∈ SeriesStore.all_series (Head.series_ h) ∧ series_samples s samples ∧
      labels_match_all (MemSeries.labels_ s) matchers = true ∧ found_series mint maxt s qr ∧
      ∀ x, qr_sample qr x → x ∈ samples) res ∧
    ∀ s samples x, s ∈ SeriesStore.all_series (Head.series_ h) → series_samples s samples →
      labels_match_all (MemSeries.labels_ s) matchers = true →
      x ∈ samples → mint <= fst x <= maxt → ∃ qr, qr ∈ res ∧ qr_labels qr = MemSeries.labels_ s ∧ qr_sample qr x.
Proof. intros Hm Hst. unfold Head.select. destruct matchers; [done|]. by apply select_series_spec, store_ok_all. Qed.

(** An engine for which a pattern matches the string equal to it. *)
#[local] Instance literal_engine : RegexEngine :=
  { std_regex := str; regex_compile p := Some p; regex_match p s := str_eqb p ([94; 40] ++ s ++ [41; 36]) }.

Lemma head_select_witness :
  let h := sample_head [mkLabel [97] [98]] 5 7 in
  ∃ res, Head.select [Matcher.equal [97] [98]] 0 10 h = Ok res ∧
    Forall (λ qr, ∃ s samples, s ∈ SeriesStore.all_series (Head.series_ h) ∧ series_samples s samples ∧
      labels_match_all (MemSeries.labels_ s) [Matcher.equal [97] [98]] = true ∧ found_series 0 10 s qr ∧
      ∀ x, qr_sample qr x → x ∈ samples) res ∧
    ∀ s samples x, s ∈ SeriesStore.all_series (Head.series_ h) → series_samples s samples →
      labels_match_all (MemSeries.labels_ s) [Matcher.equal [97] [98]] = true →
      x ∈ samples → 0 <= fst x <= 10 → ∃ qr, qr ∈ res ∧ qr_labels qr = MemSeries.labels_ s ∧ qr_sample qr x.
Proof.
  intros h. apply (head_select [Matcher.equal [97] [98]] 0 10 h); [discriminate|].
  apply sample_head_store; [vm_compute; eexists; reflexivity|reflexivity].
Defined.

(** Replay stops. On any directory, replaying needs no more rounds than
    there are bytes in the segment files: more of them change nothing. *)
Theorem replay_ends (fs : gmap str (list Z)) (store : SeriesStore.t) (j : nat) :
  let rdr := SegmentReader.open fs in
  replay_loop (S (bytes_left fs rdr) + j) fs rdr store = replay_reader fs rdr store.
Proof. apply replay_fuel; [done|lia..]. Qed.

(** ** Behaviours at the edges *)

(** A commit whose write fails leaves the samples pending, with their record
    in the page writer: the next commit succeeds and writes the record twice,
    and the head cannot be opened again. *)
Example commit_retry_unreadable :
  let a := [mkLabel [97] [49]] in
  match Head.open (mkWorld ∅ (replicate 6 Done ++ [Failed])) with
  | (Ok h0, w0) =>
      let '(h, w) := foldl run_op (h0, w0) [OpAppend a 1000 0; OpAppend a 2000 0] in
      let '(o1, st1) := Head.commit (h, w) in
      let '(o2, st2) := Head.commit st1 in
      o1 = Err (WalError Errno) ∧ o2 = Ok tt ∧ fst (Head.open (snd st2)) = Err HeadIoError
  | _ => False
  end.
Proof. vm_compute. repeat split; reflexivity. Qed.

(** A head that was opened once after a crash at a page boundary inside a
    record cannot be opened a second time. *)
Example second_open_after_crash_fails :
  let c := take (Z.to_nat 32768) (PageWriter.log (replicate (Z.to_nat 32770) 7) []) in
  let fs := {[ format_segment_name 0 := c ]} : gmap str (list Z) in
  match Head.open (mkWorld fs []) with
  | (Ok h, w) => fst (Head.open (Head.destroy h w)) = Err HeadIoError
  | _ => False
  end.
Proof. vm_compute. reflexivity. Qed.

End HeadProps.
