(* ===== verification/HeadFailures.v ===== *)
(** The head when system calls fail. A commit writes two records, the new
    series and the samples, and any call on the way may fail; here is what a
    process that opens the directory afterwards finds. *)

From S2P Require Import Prelude Ordered Files BStream Xor Labels Matcher Record Page Segment WalFailures MemSeries SeriesStore Query Head.

Module HeadFailuresFacts.
Import FilesFacts SegmentFacts WalFailuresFacts HeadFacts.

(** The head of [head_ok], whatever the calls to come answer. *)
Definition head_alive (segs : list (list (list Z))) (cur : list (list Z)) (st0 : SeriesStore.t) (st : Head.t * World) : Prop :=
  head_ok segs cur st0 (st.1, calm st.2).

(** Replay stops with an error behind a torn record. *)
Lemma replay_loop_torn fuel fs rdr st recs n st' :
  SegmentReader.read_all n fs rdr = (recs, Some InvalidFraming) → (length recs < fuel)%nat →
  replay_records recs st = Ok st' → replay_loop fuel fs rdr st = Err HeadIoError.
Proof.
  revert n rdr st fuel. induction recs as [|rec recs IH]; intros [|n] rdr st [|fuel] Hread Hfuel;
    cbn [length] in Hfuel; try (lia || done); cbn [SegmentReader.read_all] in Hread; cbn [replay_loop];
    destruct (SegmentReader.next fs rdr) as [[rec'|e|] rdr']; try done.
  - by destruct (SegmentReader.read_all n fs rdr').
  - by injection Hread as ->.
  - destruct (SegmentReader.read_all n fs rdr') as [recs' e'] eqn:Hrest. injection Hread as -> -> ->.
    cbn [replay_records]. destruct (replay_record rec st); cbn [mbind outcome_bind]; [|done..].
    apply (IH n); [done|lia].
Qed.

(** What the next process finds in a directory: the store [st], or an error. *)
Definition reopens (w : World) (st : SeriesStore.t) : Prop :=
  (Head.open (calm w)).1 = Err HeadIoError ∨ ∃ h, (Head.open (calm w)).1 = Ok h ∧ Head.series_ h = st.

Lemma reads_reopens w recs st :
  reads (files w) recs → replay_records recs SeriesStore.new = Ok st → reopens w st.
Proof.
  intros (e & He & Hread) Hreplay. assert (reader_ok (SegmentReader.open (files w))) as Hok by done. pose proof (read_all_bytes _ _ _ _ _ Hok Hread) as Hlen.
  unfold reopens, Head.open, calm, sys_ok, sys. cbn [files script negb]. rewrite replay_calm. unfold replay_reader. destruct He as [->| ->].
  - right. rewrite (replay_loop_records _ _ _ _ _ _ Hread) by lia. rewrite Hreplay. by eexists.
  - left. by rewrite (replay_loop_torn _ _ _ _ _ _ st Hread) by (lia || done).
Qed.

Lemma alive_reads size segs cur s w : alive size segs cur (s, w) → reads (files w) (concat (segs ++ [cur])).
Proof. intros (fs & [= _ <-] & Hrep & _). by apply represents_reads. Qed.

#[local] Abbreviation size := k_default_segment_size.

(** One record of a commit. *)
Lemma log_head_any segs cur h w body :
  alive size segs cur (Head.wal_ h, w) → session_ok size (segs, cur) [body] →
  let '(segs', cur') := foldl (log_step size) (segs, cur) [body] in
  let '(o, (h', w')) := Head.on_wal (SegmentWriter.log body) (h, w) in
  ∃ wal', h' = Head.set_wal wal' h ∧
    ((o = Ok tt ∧ alive size segs' cur' (wal', w')) ∨
     (∃ e, o = Err (WalError e) ∧ reads (files w') (concat (segs ++ [cur])))).
Proof.
  intros Hw (Hok & Hlen & _). pose proof (log_any _ _ _ body _ Hw) as Hlog. cbn [foldl].
  destruct (log_step size (segs, cur) body) as [segs' cur']. specialize (Hlog Hok Hlen). unfold Head.on_wal.
  destruct (SegmentWriter.log body (Head.wal_ h, w)) as [o [wal' w']]. exists wal'. split; [done|].
  destruct Hlog as [[-> Halive]|(e & -> & Hreads)]; [by left|right]. exists e. split; [done|].
  rewrite concat_app. cbn [concat]. by rewrite app_nil_r.
Qed.

Lemma commit_series_any segs cur h w :
  alive size segs cur (Head.wal_ h, w) → session_ok size (segs, cur) (series_records (Head.pending_series_ h)) →
  let '(segs', cur') := foldl (log_step size) (segs, cur) (series_records (Head.pending_series_ h)) in
  let '(o, (h', w')) := Head.commit_series (h, w) in
  Head.series_ h' = Head.series_ h ∧
  ((∃ wal', o = Ok tt ∧ h' = Head.mk wal' (Head.series_ h) [] (Head.pending_samples_ h) (Head.closed_ h) ∧
     alive size segs' cur' (wal', w')) ∨
   (∃ e, o = Err (WalError e) ∧ reads (files w') (concat (segs ++ [cur])))).
Proof.
  intros Hw Hok. unfold Head.commit_series. destruct h as [wal st [|p ps] ss cl]; cbn [Head.pending_series_ Head.wal_ series_records] in *.
  { split; [done|]. left. by exists wal. }
  pose proof (log_head_any segs cur (Head.mk wal st (p :: ps) ss cl) w _ Hw Hok) as Hlog.
  destruct (foldl _ _ _) as [segs' cur']. unfold rbind. destruct (Head.on_wal _ _) as [o [h' w']].
  destruct Hlog as (wal' & -> & [[-> Halive]|(e & -> & Hreads)]); (split; [done|]); [left|right]; by eexists.
Qed.

Lemma commit_samples_any segs cur h w :
  alive size segs cur (Head.wal_ h, w) → is_Some (encode_samples_v2 (Head.pending_samples_ h)) →
  session_ok size (segs, cur) (sample_records (Head.pending_samples_ h)) →
  let '(segs', cur') := foldl (log_step size) (segs, cur) (sample_records (Head.pending_samples_ h)) in
  let '(o, (h', w')) := Head.commit_samples (h, w) in
  Head.series_ h' = Head.series_ h ∧
  ((∃ wal', o = Ok tt ∧ h' = Head.mk wal' (Head.series_ h) (Head.pending_series_ h) [] (Head.closed_ h) ∧
     alive size segs' cur' (wal', w')) ∨
   (∃ e, o = Err (WalError e) ∧ reads (files w') (concat (segs ++ [cur])))).
Proof.
  intros Hw [rec Henc] Hok. unfold Head.commit_samples. destruct h as [wal st ps [|s ss] cl]; cbn [Head.pending_samples_ Head.wal_] in *.
  { split; [done|]. left. by exists wal. }
  unfold sample_records in *. rewrite Henc in *.
  pose proof (log_head_any segs cur (Head.mk wal st ps (s :: ss) cl) w _ Hw Hok) as Hlog.
  destruct (foldl _ _ _) as [segs' cur']. unfold rbind. destruct (Head.on_wal _ _) as [o [h' w']].
  destruct Hlog as (wal' & -> & [[-> Halive]|(e & -> & Hreads)]); (split; [done|]); [left|right]; by eexists.
Qed.

Lemma sync_any segs cur h w :
  alive size segs cur (Head.wal_ h, w) →
  let '(o, (h', w')) := Head.on_wal SegmentWriter.sync (h, w) in
  h' = h ∧ files w' = files w ∧ (o = Ok tt ∨ ∃ e, o = Err (WalError e)).
Proof.
  intros (fs & [= Hwal <-] & _). destruct h as [wal st ps ss cl]. cbn [Head.wal_ fst] in Hwal. subst wal.
  unfold Head.on_wal, SegmentWriter.sync, flushed, SegmentWriter.flush_pending, rbind.
  cbn [Head.wal_ SegmentWriter.fd_ SegmentWriter.pw_ SegmentWriter.flushed_bytes_]. rewrite Nat.leb_refl.
  pose proof (sys_ok_files w) as Hw. destruct (sys_ok w) as [[] w']; cbn [snd] in Hw; (split_and!; [done|done|]); [by left|right]; by eexists.
Qed.

(** The stores between the last commit and this one. *)
Definition between (st0 : SeriesStore.t) (h : Head.t) (st : SeriesStore.t) : Prop :=
  st = st0 ∨ replay_series (Head.pending_series_ h) st0 = Ok st ∨ st = Head.series_ h.

Lemma commit_any segs cur st0 h w :
  head_alive segs cur st0 (h, w) → encodable h = true → session_ok size (segs, cur) (commit_records h) →
  let '(segs', cur') := foldl (log_step size) (segs, cur) (commit_records h) in
  let '(o, (h', w')) := Head.commit (h, w) in
  Head.series_ h' = Head.series_ h ∧
  ((∃ wal', o = Ok tt ∧ h' = Head.mk wal' (Head.series_ h) [] [] false ∧ head_alive segs' cur' (Head.series_ h) (h', w')) ∨
   (∃ e st, o = Err (WalError e) ∧ between st0 h st ∧ reopens w' st)).
Proof.
  intros (Hw & Hopen & Hreplay & Hwf & Hpending) Henc Hok. cbn [fst snd] in *. pose proof (pending_wf _ _ Hpending) as Hwf'.
  destruct Hpending as (st1 & Hst1 & _ & Hst2). pose proof (replay_commit h st0 Henc) as Hcommit.
  rewrite Hst1 in Hcommit. cbn [mbind outcome_bind] in Hcommit. rewrite Hst2 in Hcommit.
  assert (is_Some (encode_samples_v2 (Head.pending_samples_ h))) as Hsome.
  { unfold encodable in Henc. destruct (encode_samples_v2 _); [by eexists|lia]. }
  assert (replay_records (series_records (Head.pending_series_ h)) st0 = Ok st1) as Hseries.
  { unfold encodable in Henc. rewrite replay_series_records; [done| |lia].
    destruct (bool_decide (Forall RecordFacts.series_ok (Head.pending_series_ h))) eqn:Hb; [by apply bool_decide_eq_true_1 in Hb|done]. }
  unfold commit_records in Hok, Hcommit |- *. apply session_ok_app in Hok as [Hok1 Hok2]. rewrite foldl_app.
  pose proof (commit_series_any segs cur h w Hw Hok1) as H1. pose proof (log_steps_concat size (series_records (Head.pending_series_ h)) segs cur) as Hc1.
  destruct (foldl _ (segs, cur) _) as [segs1 cur1]. unfold Head.commit. rewrite Hopen. unfold rbind at 1.
  destruct (Head.commit_series (h, w)) as [o1 [h1 w1]].
  destruct H1 as [Hs1 [(wal1 & -> & -> & Hw1)|(e & -> & Hreads)]].
  2:{ pose proof (log_steps_concat size (sample_records (Head.pending_samples_ h)) segs1 cur1) as Hc2.
      destruct (foldl _ (segs1, cur1) _) as [segs2 cur2]. split; [done|]. right. exists e, st0. split_and!; [done|by left|].
      by apply (reads_reopens _ _ _ Hreads). }
  pose proof (commit_samples_any segs1 cur1 (Head.mk wal1 (Head.series_ h) [] (Head.pending_samples_ h) (Head.closed_ h)) w1 Hw1 Hsome Hok2) as H2. cbn [Head.pending_samples_ Head.series_ Head.pending_series_ Head.closed_] in H2.
  pose proof (log_steps_concat size (sample_records (Head.pending_samples_ h)) segs1 cur1) as Hc2. rewrite Hc1, <- app_assoc in Hc2.
  destruct (foldl _ (segs1, cur1) _) as [segs2 cur2]. unfold rbind.
  destruct (Head.commit_samples _) as [o2 [h2 w2]]. destruct H2 as [Hs2 [(wal2 & -> & -> & Hw2)|(e & -> & Hreads)]].
  2:{ split; [done|]. right. exists e, st1. split_and!; [done|by right; left|]. apply (reads_reopens _ _ _ Hreads).
      rewrite Hc1, replay_records_app, Hreplay. exact Hseries. }
  assert (replay_records (concat (segs2 ++ [cur2])) SeriesStore.new = Ok (Head.series_ h)) as Hall
    by (rewrite Hc2, replay_records_app, Hreplay; exact Hcommit).
  pose proof (sync_any segs2 cur2 (Head.mk wal2 (Head.series_ h) [] [] (Head.closed_ h)) w2 Hw2) as H3. rewrite Hopen in *.
  destruct (Head.on_wal SegmentWriter.sync _) as [o3 [h3 w3]]. destruct H3 as (-> & Hw3 & [->|[e ->]]); (split; [done|]); [left|right].
  - exists wal2. split_and!; [done|done|]. unfold head_alive, calm. cbn [fst snd]. rewrite Hw3.
    split_and!; [exact Hw2|done|done|done|by apply pending_none].
  - exists e, (Head.series_ h). split_and!; [done|by right; right|]. apply (reads_reopens w3 (concat (segs2 ++ [cur2]))); [|done].
    rewrite Hw3. by eapply alive_reads.
Qed.

Lemma alive_opens segs cur st0 h w :
  head_alive segs cur st0 (h, w) → ∃ h2, (Head.open (calm w)).1 = Ok h2 ∧ Head.series_ h2 = st0.
Proof.
  intros ((fs & [= _ <-] & Hrep & _) & _ & Hreplay & _). unfold Head.open, calm, sys_ok, sys in *. cbn [fst snd files script negb] in *.
  rewrite replay_calm, (replay_segments _ _ _ Hrep), Hreplay. by eexists.
Qed.

(** ** What can be seen of a store between two commits *)

Import SeriesStoreFacts MemSeriesFacts.

(** A series appears, without samples. *)
Definition appears (st st' : SeriesStore.t) : Prop :=
  ∀ l, view st' l = view st l ∨ (view st l = None ∧ view st' l = Some []).

Lemma appears_trans st1 st2 st3 : appears st1 st2 → appears st2 st3 → appears st1 st3.
Proof. intros H1 H2 l. destruct (H1 l) as [E1|[N1 S1]], (H2 l) as [E2|[N2 S2]]; [left; congruence|right; split; congruence..|congruence]. Qed.

(** The labels get a series, in an empty slot, and nothing else changes. *)
Lemma appears_new st st' labels i :
  SeriesStore.wf st → SeriesStore.wf st' → SeriesStore.by_labels_ st !! labels = None →
  SeriesStore.slot st' i = Some (MemSeries.new (Z.of_nat i + 1) labels) → keeps st st' →
  (∀ l, l ≠ labels → SeriesStore.by_labels_ st' !! l = SeriesStore.by_labels_ st !! l) → appears st st'.
Proof.
  intros Hwf Hwf' Hnew Hs Hkeeps Hother l. destruct (decide (l = labels)) as [->|Hne]; [right|left].
  - split; [unfold view; by rewrite Hnew|]. exact (view_slot st' i _ [] Hwf' Hs (represents_new _ _)).
  - apply view_other; [done|by apply Hother|]. intros j s Hj _. by apply Hkeeps.
Qed.

Lemma insert_appears ref labels st st' :
  SeriesStore.wf st → 0 <= ref → SeriesStore.insert_with_ref ref labels st = Some (true, st') →
  SeriesStore.wf st' ∧ appears st st'.
Proof.
  intros Hwf Href Hins. destruct (insert_with_ref_inv _ _ _ _ Hwf Href Hins) as [->|(Hnew & [[Hbig ->]|(Hi & Hs & ->)])].
  - split; [done|]. by left.
  - assert (SeriesStore.wf (add_series ref labels st)) as Hwf' by (apply wf_add_series; [done|lia|done]).
    split; [done|]. apply (appears_new _ _ labels (Z.to_nat (ref - 1)) Hwf Hwf' Hnew); [|apply keeps_add; lia|].
    + rewrite slot_add by lia. rewrite decide_True by lia. repeat f_equal. lia.
    + intros l Hl. by apply lookup_insert_ne.
  - assert (SeriesStore.wf (fill_hole (Z.to_nat (ref - 1)) labels st)) as Hwf' by by apply wf_fill_hole.
    split; [done|]. apply (appears_new _ _ labels (Z.to_nat (ref - 1)) Hwf Hwf' Hnew).
    + rewrite slot_fill by done. by rewrite decide_True.
    + intros j s Hj. rewrite slot_fill by done. rewrite decide_False by (intros <-; congruence). done.
    + intros l Hl. by apply lookup_insert_ne.
Qed.

Lemma replay_series_appears ps st st' :
  SeriesStore.wf st → Forall RecordFacts.series_ok ps → replay_series ps st = Ok st' → SeriesStore.wf st' ∧ appears st st'.
Proof.
  revert st. induction ps as [|p ps IH]; intros st Hwf Hps; cbn [replay_series]; [intros [= <-]; split; [done|by left]|].
  apply Forall_cons_1 in Hps as [Hp Hps].
  intros ([ok st1] & Hins%defined_Ok & Hrest)%bind_Ok. destruct ok; [|done].
  assert (0 <= rs_ref p) as Href by (destruct Hp; width).
  destruct (insert_appears _ _ _ _ Hwf Href Hins) as [Hwf1 H1].
  destruct (IH _ Hwf1 Hps Hrest) as [Hwf' H2]. split; [done|]. by eapply appears_trans.
Qed.

(** ** Runs *)

(** A run up to the first commit that fails; [saved] is the store at the last
    commit that was acknowledged. *)
Fixpoint run_until (ops : list op) (saved : SeriesStore.t) (st : Head.t * World)
    : outcome HeadError unit * SeriesStore.t * (Head.t * World) :=
  match ops with
  | [] => (Ok tt, saved, st)
  | OpAppend labels t v :: ops => run_until ops saved (run_op st (OpAppend labels t v))
  | OpCommit :: ops =>
      match Head.commit st with
      | (Ok _, st) => run_until ops (Head.series_ st.1) st
      | (o, st) => (o, saved, st)
      end
  end.

(** The conditions of [run_ok], on the head alone: a commit that is acknowledged
    clears what is pending. *)
Fixpoint run_ready (ops : list op) (log : list (list (list Z)) * list (list Z)) (h : Head.t) : bool :=
  match ops with
  | [] => true
  | OpAppend labels t v :: ops =>
      bool_decide (Labels.canonicalize labels = labels) &&
      match fst (Head.append labels t v h) with UB => false | _ => true end &&
      run_ready ops log (snd (Head.append labels t v h))
  | OpCommit :: ops =>
      encodable h && bool_decide (session_ok k_default_segment_size log (commit_records h)) &&
      run_ready ops (foldl (log_step k_default_segment_size) log (commit_records h)) (Head.set_pending [] [] h)
  end.

Lemma append_set_wal wal labels t v h :
  Head.append labels t v (Head.set_wal wal h) =
    (fst (Head.append labels t v h), Head.set_wal wal (snd (Head.append labels t v h))).
Proof.
  destruct h as [wal0 store ps ss []]; [done|]. unfold Head.append, Head.set_wal.
  cbn [Head.closed_ Head.series_ Head.pending_series_ Head.pending_samples_ Head.wal_].
  destruct (SeriesStore.get_or_create _ _) as [[[i fresh] st]|]; [|done].
  destruct (SeriesStore.slot st i) as [s|]; [|done]. by destruct (MemSeries.append t v s) as [[[] s']|].
Qed.

Lemma run_ready_wal wal ops log h : run_ready ops log (Head.set_wal wal h) = run_ready ops log h.
Proof.
  revert log h. induction ops as [|[labels t v|] ops IH]; intros log h; [done|..]; cbn [run_ready].
  - rewrite append_set_wal. cbn [fst snd]. by rewrite IH.
  - change (Head.set_pending [] [] (Head.set_wal wal h)) with (Head.set_wal wal (Head.set_pending [] [] h)). by rewrite IH.
Qed.

(** What the next process finds after a run that ended with [o] and whose last
    acknowledged commit was at [saved]. *)
Definition found (o : outcome HeadError unit) (saved last : SeriesStore.t) (next : outcome HeadError Head.t) : Prop :=
  match o with
  | Ok _ => ∃ h2, next = Ok h2 ∧ Head.series_ h2 = saved
  | Err e =>
      (∃ io, e = WalError io) ∧
      (next = Err HeadIoError ∨ ∃ h2, next = Ok h2 ∧ (Head.series_ h2 = last ∨ appears saved (Head.series_ h2)))
  | UB => False
  end.

Lemma commit_found segs cur st0 h w :
  head_alive segs cur st0 (h, w) → encodable h = true → session_ok size (segs, cur) (commit_records h) →
  let '(segs', cur') := foldl (log_step size) (segs, cur) (commit_records h) in
  let '(o, (h', w')) := Head.commit (h, w) in
  Head.series_ h' = Head.series_ h ∧
  match o with
  | Ok _ => ∃ wal', h' = Head.mk wal' (Head.series_ h) [] [] false ∧ head_alive segs' cur' (Head.series_ h) (h', w')
  | _ => found o st0 (Head.series_ h) (Head.open (calm w')).1
  end.
Proof.
  intros Halive Henc Hok. pose proof (commit_any _ _ _ _ _ Halive Henc Hok) as Hcommit.
  destruct Halive as (_ & _ & _ & Hwf & _). destruct (foldl _ _ _) as [segs' cur'].
  destruct (Head.commit (h, w)) as [o [h' w']]. destruct Hcommit as [Hs [(wal' & -> & Hh & Halive')|(e & st & -> & Hst & Hre)]]; (split; [done|]); [by exists wal'|].
  split; [by exists e|]. destruct Hre as [Hre|(h2 & Hre & <-)]; [by left|right]. exists h2. split; [done|].
  destruct Hst as [->|[Hst|Hst]]; [right; by left|right|by left].
  apply (replay_series_appears _ _ _ Hwf) in Hst as [_ ?]; [done|]. unfold encodable in Henc.
  destruct (bool_decide (Forall RecordFacts.series_ok (Head.pending_series_ h))) eqn:Hb; [by apply bool_decide_eq_true_1 in Hb|done].
Qed.

Lemma run_found ops segs cur st0 h w :
  head_alive segs cur st0 (h, w) → run_ready ops (segs, cur) h = true →
  let '(o, saved, (h', w')) := run_until ops st0 (h, w) in
  found o saved (Head.series_ h') (Head.open (calm w')).1.
Proof.
  revert segs cur st0 h w. induction ops as [|[labels t v|] ops IH]; intros segs cur st0 h w Halive; cbn [run_until run_ready].
  - intros _. exact (alive_opens segs cur st0 h w Halive).
  - intros [[Hl%bool_decide_eq_true_1 Hdef]%andb_prop Hrun]%andb_prop. cbn [run_op]. apply (IH segs cur st0); [|done].
    apply append_head_ok; [done..|]. intros HUB. by rewrite HUB in Hdef.
  - intros [[Henc Hok%bool_decide_eq_true_1]%andb_prop Hrun]%andb_prop.
    pose proof (commit_found segs cur st0 h w Halive Henc Hok) as Hcommit.
    destruct (foldl _ (segs, cur) _) as [segs' cur']. destruct (Head.commit (h, w)) as [[u|e|] [h' w']];
      destruct Hcommit as [Hs Hcommit]; [|by rewrite Hs..].
    destruct Hcommit as (wal' & -> & Halive'). apply (IH segs' cur' (Head.series_ h)); [done|].
    destruct Halive as (_ & Hopen & _). cbn [fst] in Hopen. rewrite <- (run_ready_wal wal') in Hrun. rewrite <- Hrun. f_equal.
    unfold Head.set_wal, Head.set_pending. cbn [Head.series_ Head.closed_ Head.pending_series_ Head.pending_samples_]. by rewrite Hopen.
Qed.

(** Opening under any answers of the calls: the series that the log replays to,
    in a head that appends and commits are valid on, whatever their
    calls answer; or an error, and the directory is as it was. *)
Lemma head_open_any (fs : gmap str (list Z)) (segs : list (list (list Z))) (st : SeriesStore.t) (scr : list SysResult) :
  SegmentFacts.represents fs segs → Z.of_nat (length segs) < 10 ^ 8 →
  replay_records (concat segs) SeriesStore.new = Ok st → SeriesStore.wf st →
  match Head.open (mkWorld fs scr) with
  | (Ok h, w) => Head.series_ h = st ∧ head_alive segs [] st (h, w)
  | (Err e, w) => (∃ io, e = WalError io) ∧ files w = fs
  | (UB, _) => False
  end.
Proof.
  intros Hrep Hlen Hreplay Hwf. unfold Head.open. pose proof (sys_ok_files (mkWorld fs scr)) as Hw0.
  destruct (sys_ok (mkWorld fs scr)) as [[] [fs0 scr0]]; cbn [negb snd files] in *; subst fs0; [|split; [by eexists|done]].
  pose proof (replay_any SeriesStore.new (mkWorld fs scr0)) as Hany. destruct (replay_wal_into _ _ _) as [o [fs1 scr1]].
  cbn [files] in Hany. destruct Hany as [-> [-> | ->]]; [|split; [by eexists|done]].
  rewrite (replay_segments _ _ _ Hrep), Hreplay. pose proof (open_any k_default_segment_size fs segs scr1 Hrep Hlen) as Hopen.
  destruct (SegmentWriter.open _ _) as [[wal|e|] w]; [|split; [by eexists|done]|done]. split; [done|].
  split; [exact Hopen|]. split_and!; [done| |done|by apply pending_none]. rewrite concat_app. cbn [concat]. by rewrite !app_nil_r.
Qed.

End HeadFailuresFacts.

Module HeadFailuresProps.
Import FilesFacts SegmentFacts WalFailuresFacts HeadFacts HeadFailuresFacts.

(** C3: a head over a failing disk. A process opens the directory of a log,
    appends and commits, until a commit fails or it stops, and every system
    call on the way may fail, write short or be interrupted. If the head cannot
    be opened the directory is as it was. Otherwise no operation is undefined,
    and the next process finds: after a run without an error, exactly the series
    at the last commit that was acknowledged, what was appended later being
    absent; after a commit that failed, a directory that is refused because of a
    torn record, or the series in memory, with all the samples of that commit,
    or those at the last acknowledged commit, to which label sets without
    samples may have been added. An acknowledged sample is never lost from a
    directory that opens, and never doubled, provided that nobody uses the head
    after the failure, not even its destructor, which commits once more: see
    [destructor_unreadable]. *)
Theorem head_run_failures (ops : list op) (fs : gmap str (list Z)) (segs : list (list (list Z))) (st : SeriesStore.t) (scr : list SysResult) :
  represents fs segs → Z.of_nat (length segs) < 10 ^ 8 →
  replay_records (concat segs) SeriesStore.new = Ok st → SeriesStore.wf st →
  match Head.open (mkWorld fs scr) with
  | (Ok h0, w0) =>
      Head.series_ h0 = st ∧
      (run_ready ops (segs, []) h0 = true →
       let '(o, saved, (h, w)) := run_until ops st (h0, w0) in
       found o saved (Head.series_ h) (Head.open (calm w)).1)
  | (Err e, w) => (∃ io, e = WalError io) ∧ files w = fs
  | (UB, _) => False
  end.
Proof.
  intros Hrep Hlen Hreplay Hwf. pose proof (head_open_any fs segs st scr Hrep Hlen Hreplay Hwf) as Hopen.
  destruct (Head.open _) as [[h0|e|] w0]; [|done..]. destruct Hopen as [Hs Halive]. split; [done|]. by apply run_found.
Qed.


(** A commit under any answers of the system calls, from any state that
    appends and commits lead to. It never changes the series in memory. On
    success, a process that opens the directory next has exactly those series.
    On failure it either refuses the directory, because of a torn record, or has
    all the samples of the commit, or none of them: the state of the commit
    before, in which label sets that were new may already appear, without
    samples. *)
Theorem head_commit_failures (segs : list (list (list Z))) (cur : list (list Z)) (st0 : SeriesStore.t) (h : Head.t) (w : World) :
  head_alive segs cur st0 (h, w) → encodable h = true →
  session_ok k_default_segment_size (segs, cur) (commit_records h) →
  let '(o, (h', w')) := Head.commit (h, w) in
  Head.series_ h' = Head.series_ h ∧
  match o with
  | Ok _ =>
      Head.pending_series_ h' = [] ∧ Head.pending_samples_ h' = [] ∧
      ∃ h2, (Head.open (calm w')).1 = Ok h2 ∧ Head.series_ h2 = Head.series_ h
  | Err e =>
      (∃ io, e = WalError io) ∧
      ((Head.open (calm w')).1 = Err HeadIoError ∨
       ∃ h2, (Head.open (calm w')).1 = Ok h2 ∧ (Head.series_ h2 = Head.series_ h ∨ appears st0 (Head.series_ h2)))
  | UB => False
  end.
Proof.
  intros Halive Henc Hok. pose proof (commit_found _ _ _ _ _ Halive Henc Hok) as Hcommit. destruct (foldl _ _ _) as [segs' cur'].
  destruct (Head.commit (h, w)) as [[u|e|] [h' w']]; destruct Hcommit as [Hs Hcommit]; (split; [done|]); [|exact Hcommit..].
  destruct Hcommit as (wal' & -> & Halive'). split_and!; [done..|]. by eapply alive_opens.
Qed.

(** A head with one sample; the record of the sample is torn when it is
    committed. *)
Definition sample_op : op := OpAppend [mkLabel [97] [49]] 1000 0.
Definition sample_script : list SysResult := [Done; Wrote 4; Failed].

(** Two commits are acknowledged and the third is torn after four bytes. *)
Definition sample_run : list op := [sample_op; OpCommit; OpAppend [mkLabel [97] [49]] 1001 0; OpCommit; OpAppend [mkLabel [97] [49]] 1002 0; OpCommit].
Definition failing_script : list SysResult := replicate 10 Done ++ [Wrote 4; Failed].

Lemma head_run_failures_witness :
  match Head.open (mkWorld ∅ failing_script) with
  | (Ok h0, w0) =>
      let '(o, saved, (h, w)) := run_until sample_run SeriesStore.new (h0, w0) in
      found o saved (Head.series_ h) (Head.open (calm w)).1 ∧
      o = Err (WalError Errno) ∧ view saved [mkLabel [97] [49]] = Some [(1000, 0); (1001, 0)]
  | _ => False
  end.
Proof.
  pose proof (head_run_failures sample_run ∅ [] SeriesStore.new failing_script represents_empty eq_refl eq_refl SeriesStoreFacts.wf_new) as Hrun.
  assert (match Head.open (mkWorld ∅ failing_script) with (Ok h0, w0) => run_ready sample_run ([], []) h0 &&
      let '(o, saved, _) := run_until sample_run SeriesStore.new (h0, w0) in
      match o with Err (WalError Errno) => true | _ => false end &&
      bool_decide (view saved [mkLabel [97] [49]] = Some [(1000, 0); (1001, 0)]) | _ => false end = true) as Hcheck by (vm_compute; reflexivity).
  destruct (Head.open (mkWorld ∅ failing_script)) as [[h0|e|] w0]; [|discriminate..].
  destruct Hrun as [_ Hrun]. apply andb_prop in Hcheck as [Hready Hcheck]. specialize (Hrun Hready).
  destruct (run_until sample_run SeriesStore.new (h0, w0)) as [[o saved] [h w]].
  apply andb_prop in Hcheck as [Ho Hv%bool_decide_eq_true_1]. split; [exact Hrun|]. split; [|exact Hv].
  destruct o as [|[| | |[]]|]; first [discriminate Ho|reflexivity].
Defined.

Lemma head_commit_failures_witness :
  ∃ h0 w0,
    Head.open (mkWorld ∅ []) = (Ok h0, w0) ∧
    let '(h, w) := run_op (h0, w0) sample_op in
    ∃ st0,
      let '(o, (h', w')) := Head.commit (h, mkWorld (files w) sample_script) in
      Head.series_ h' = Head.series_ h ∧
      match o with
      | Ok _ =>
          Head.pending_series_ h' = [] ∧ Head.pending_samples_ h' = [] ∧
          ∃ h2, (Head.open (calm w')).1 = Ok h2 ∧ Head.series_ h2 = Head.series_ h
      | Err e =>
          (∃ io, e = WalError io) ∧
          ((Head.open (calm w')).1 = Err HeadIoError ∨
           ∃ h2, (Head.open (calm w')).1 = Ok h2 ∧ (Head.series_ h2 = Head.series_ h ∨ appears st0 (Head.series_ h2)))
      | UB => False
      end.
Proof.
  destruct (open_head_ok ∅ [] SeriesStore.new represents_empty eq_refl eq_refl SeriesStoreFacts.wf_new)
    as (h0 & w0 & Hopen & _ & Hhead). exists h0, w0. split; [exact Hopen|].
  assert (run_ok ([sample_op] ++ [OpCommit]) ([], []) (h0, w0) = true) as Hrun
    by (vm_compute in Hopen; injection Hopen as <- <-; vm_compute; reflexivity).
  pose proof (run_head_ok [sample_op] [] [] _ h0 w0 Hhead Hrun) as Hok. cbn [foldl] in Hok.
  destruct (run_op (h0, w0) sample_op) as [h w]. destruct Hok as (segs & cur & st0 & Halive & Henc & Hsession & _).
  exists st0. apply (head_commit_failures segs cur); [|exact Henc|exact Hsession].
  destruct Halive as (Hw & Hrest). split; [|exact Hrest]. unfold calm. cbn [fst snd files].
  destruct Hw as (fs & Heq & Hw). exists fs. split; [|exact Hw]. injection Heq as -> ->. reflexivity.
Defined.

(** In that run the commit fails and the next process refuses the directory; it
    accepts it, with the series and no sample, if no byte of the record was
    written. *)
Example torn_commit :
  match Head.open (mkWorld ∅ []) with
  | (Ok h0, w0) =>
      let '(h, w) := run_op (h0, w0) sample_op in
      let '(o, (_, w')) := Head.commit (h, mkWorld (files w) sample_script) in
      let '(o2, (_, w2)) := Head.commit (h, mkWorld (files w) [Done; Failed]) in
      o = Err (WalError Errno) ∧ (Head.open (calm w')).1 = Err HeadIoError ∧
      o2 = Err (WalError Errno) ∧
      match (Head.open (calm w2)).1 with Ok h2 => view (Head.series_ h2) [mkLabel [97] [49]] = Some [] | _ => False end
  | _ => False
  end.
Proof. vm_compute. repeat split; reflexivity. Qed.

(** A commit whose second record fails before a byte of it is written leaves a
    directory that opens. The destructor of the head then commits again: the
    samples, whose record is still in the page writer, are logged twice, and the
    directory cannot be opened any more. *)
Example destructor_unreadable :
  let a := [mkLabel [97] [49]] in
  match Head.open (mkWorld ∅ (replicate 6 Done ++ [Failed])) with
  | (Ok h0, w0) =>
      let '(h, w) := foldl run_op (h0, w0) [OpAppend a 1000 0; OpAppend a 2000 0] in
      let '(o, (h, w)) := Head.commit (h, w) in
      o = Err (WalError Errno) ∧ bool_decide (script w = []) = true ∧
      match (Head.open w).1 with Ok h2 => view (Head.series_ h2) a = Some [] | _ => False end ∧
      (Head.open (Head.destroy h w)).1 = Err HeadIoError
  | _ => False
  end.
Proof. vm_compute. repeat split; reflexivity. Qed.

End HeadFailuresProps.
