(* ===== verification/Compact.v ===== *)
(** Blocks from a head and from other blocks: [create_from_head] and [compact]
    of [src/block/block.cpp]. *)

From S2P Require Import Prelude Ordered Sorted Containers Files Varint Bytes Crc32c Labels Matcher Record BStream Xor Chunks Query Index IndexWriter Ulid Meta MemSeries SeriesStore Head Block.

(** * The flush of a head *)

(** The chunks of a series with the first and the last timestamp of each; a
    chunk without samples is skipped. *)
Fixpoint head_chunks (cs : list XORChunk.t) : outcome error_code (list ChunkInput) :=
  match cs with
  | [] => Ok []
  | xc :: cs =>
      match XORChunk.num_samples xc with
      | None => UB
      | Some n =>
          if n =? 0 then head_chunks cs
          else
            match Head.chunk_range xc with
            | None => UB
            | Some (None, _) => Err io_error
            | Some (Some (tmin, tmax), it) =>
                if bool_decide (is_Some (XORIterator.err_ it)) then Err io_error
                else
                  rest ← head_chunks cs;
                  Ok (mkChunkInput tmin tmax (XORChunk.bytes xc) :: rest)
            end
      end
  end.

Fixpoint head_inputs (ss : list MemSeries.t) : outcome error_code (list SeriesInput) :=
  match ss with
  | [] => Ok []
  | s :: ss =>
      if MemSeries.num_samples s =? 0 then head_inputs ss
      else
        cs ← head_chunks (MemSeries.chunks s);
        rest ← head_inputs ss;
        Ok (match cs with [] => rest | _ => mkSeriesInput (MemSeries.labels_ s) cs :: rest end)
  end.

(** Going on with a pure result. *)
Definition lift {A} (res : outcome error_code A) : D A := λ d, (res, d).

Definition create_from_head `{Json} (now_ms : Z) (random : list Z) (h : Head.t) : D str :=
  inputs <~ lift (head_inputs (SeriesStore.all_series (Head.series_ h))) ;;
  create_from_series now_ms random inputs.

(** * Compaction *)

(** The handles, the highest level and the union of the sources. *)
Fixpoint open_blocks `{Json} (dirs : list str) (d : Disk) (max_level : Z) (sources : list str)
    : outcome error_code (list Block.t * Z * list str) :=
  match dirs with
  | [] => Ok ([], max_level, sources)
  | dir :: dirs =>
      blk ← Block.open dir d;
      let c := BlockMeta.compaction (Block.meta_ blk) in
      '(blocks, max_level, sources) ← open_blocks dirs d (Z.max max_level (BlockMetaCompaction.level c))
        (foldl (λ acc src, set_insert str_ltb src acc) sources (BlockMetaCompaction.sources c));
      Ok (blk :: blocks, max_level, sources)
  end.

(** The identifiers in all posting lists of an index. *)
Definition seen_ids (idx : IndexReader.t) : outcome error_code (list Z) :=
  refs ← IndexReader.collect (λ _, true) (IndexReader.data_ idx)
    (PostingsOffsetTable.entries_ (IndexReader.postings_table_ idx));
  Ok (foldl (λ acc id, set_insert Z.ltb id acc) [] refs).

(** The chunks of a series, read from the chunks directory [fs]. *)
Definition read_input (fs : gmap str (list Z)) (cm : ChunkMeta) : Block.M ChunkInput := λ b,
  let '(res, chunks) := ChunkReader.read fs (from_u64 (chunk_ref cm)) (Block.chunks_ b) in
  (match res with
   | Ok payload =>
       if negb (encoding payload =? Encoding_XOR) then Err not_supported
       else Ok (mkChunkInput (min_time cm) (max_time cm) (payload_data payload))
   | Err e => Err e
   | UB => UB
   end, Block.mk (Block.dir_ b) (Block.meta_ b) (Block.index_ b) chunks).

Fixpoint read_inputs (fs : gmap str (list Z)) (cms : list ChunkMeta) : Block.M (list ChunkInput) :=
  match cms with
  | [] => rret []
  | cm :: cms => ci <~ read_input fs cm ;; rest <~ read_inputs fs cms ;; rret (ci :: rest)
  end.

(** The chunks of all blocks by labels. *)
Definition MergedInputs : Type := list (Labels.t * list ChunkInput).

Definition add_inputs (cis dst : list ChunkInput) : list ChunkInput := dst ++ cis.

Fixpoint merge_ids (fs : gmap str (list Z)) (ids : list Z) (merged : MergedInputs) : Block.M MergedInputs :=
  match ids with
  | [] => rret merged
  | id :: ids =>
      se <~ series_entry id ;;
      cis <~ read_inputs fs (se_chunks se) ;;
      merge_ids fs ids (upsert (se_labels se) [] (add_inputs cis) merged)
  end.

Fixpoint merge_blocks (d : Disk) (blocks : list Block.t) (merged : MergedInputs) : outcome error_code MergedInputs :=
  match blocks with
  | [] => Ok merged
  | blk :: blocks =>
      ids ← seen_ids (Block.index_ blk);
      merged ← fst (merge_ids (default ∅ (dir_chunks (dir_of (Block.dir_ blk) d))) ids merged blk);
      merge_blocks d blocks merged
  end.

(** ** Merging samples *)

Fixpoint decode_inputs (cs : list ChunkInput) : outcome error_code (list (Z * Z)) :=
  match cs with
  | [] => Ok []
  | ci :: cs =>
      match XORIterator.drain XORIterator.kDrainFuel (iterator (XORChunk.from_bytes (ci_bytes ci))) with
      | None => UB
      | Some (ss, it) =>
          if bool_decide (is_Some (XORIterator.err_ it)) then Err io_error
          else rest ← decode_inputs cs; Ok (ss ++ rest)
      end
  end.

(** The last sample of every run of equal timestamps. *)
Fixpoint dedupe (l : list (Z * Z)) : list (Z * Z) :=
  match l with
  | [] => []
  | x :: l =>
      match l with
      | y :: _ => if fst y =? fst x then dedupe l else x :: dedupe l
      | [] => [x]
      end
  end.

Definition merge_samples (samples : list (Z * Z)) : list (Z * Z) :=
  dedupe (stable_sort (λ a b : Z * Z, fst a <? fst b) samples).

(** Appending to the throwaway series. *)
Fixpoint append_samples (samples : list (Z * Z)) (ms : MemSeries.t) : outcome error_code MemSeries.t :=
  match samples with
  | [] => Ok ms
  | (t, v) :: samples =>
      match MemSeries.append t v ms with
      | None => UB
      | Some (false, _) => Err io_error
      | Some (true, ms) => append_samples samples ms
      end
  end.

(** Its chunks; one without samples is skipped. *)
Fixpoint recut (cs : list XORChunk.t) : outcome error_code (list ChunkInput) :=
  match cs with
  | [] => Ok []
  | xc :: cs =>
      match XORChunk.num_samples xc with
      | None => UB
      | Some n =>
          if n =? 0 then recut cs
          else
            match Head.chunk_range xc with
            | None => UB
            | Some (None, _) => recut cs
            | Some (Some (tmin, tmax), _) =>
                rest ← recut cs; Ok (mkChunkInput tmin tmax (XORChunk.bytes xc) :: rest)
            end
      end
  end.

Definition merge_series (labels : Labels.t) (chunks : list ChunkInput) : outcome error_code SeriesInput :=
  samples ← decode_inputs chunks;
  match merge_samples samples with
  | [] => Ok (mkSeriesInput labels [])
  | deduped =>
      ms ← append_samples deduped (MemSeries.new 0 labels);
      cs ← recut (MemSeries.chunks ms);
      Ok (mkSeriesInput labels cs)
  end.

Fixpoint merge_all (merged : MergedInputs) : outcome error_code (list SeriesInput) :=
  match merged with
  | [] => Ok []
  | (labels, chunks) :: merged =>
      si ← merge_series labels chunks; rest ← merge_all merged; Ok (si :: rest)
  end.

(** ** The whole *)

Section Compact.
Context `{Json} `{StdOrder}.

(** Everything up to the creation of the new block. *)
Definition compact_inputs (dirs : list str) (d : Disk) : outcome error_code (list SeriesInput * Z * list str) :=
  '(blocks, max_level, sources) ← open_blocks dirs d 0 [];
  merged ← merge_blocks d blocks [];
  inputs ← merge_all (visit merged);
  Ok (inputs, max_level, sources).

Definition patched (level : Z) (sources : list str) (m : BlockMeta.t) : BlockMeta.t :=
  let c := BlockMeta.compaction m in
  BlockMeta.mk (BlockMeta.version m) (BlockMeta.ulid m) (BlockMeta.min_time m) (BlockMeta.max_time m) (BlockMeta.stats m)
    (BlockMetaCompaction.mk level sources (BlockMetaCompaction.deletable c) (BlockMetaCompaction.parents c)
      (BlockMetaCompaction.failed c) (BlockMetaCompaction.hints c)).

(** Patching [meta.json]; the level is an [int]. *)
Definition patch_meta (max_level : Z) (sources : list str) (dir : str) : D unit :=
  meta <~ (λ d, (read_meta (dir_files (dir_of dir d)), d)) ;;
  if 2 ^ 31 <=? max_level + 1 then rundef
  else in_files dir (write_meta (patched (max_level + 1) sources meta)).

Definition compact (now_ms : Z) (random : list Z) (input_block_dirs : list str) : D str := λ d,
  match input_block_dirs with
  | [] => (Err invalid_argument, d)
  | dirs =>
      (r <~ lift (compact_inputs dirs d) ;;
       let '(inputs, max_level, sources) := r in
       dir <~ create_from_series now_ms random inputs ;;
       _ <~ patch_meta max_level sources dir ;;
       rret dir) d
  end.

End Compact.
