(* ===== verification/Flush.v ===== *)
(** The flush of a head into a block: the inputs [create_from_head] collects,
    and the block that answers as the head did. *)

From S2P Require Import Prelude Ordered Sorted Containers Files Varint Bytes Crc32c Labels Matcher Record BStream Xor Segment Chunks Query Index IndexWriter Ulid Meta MemSeries SeriesStore Head Block BlockSelect BlockIndex BlockCreate Compact.

Module FlushFacts.
Import BytesFacts ChunksFacts HeadFacts MemSeriesFacts MemSeriesProps BlockSelectFacts BlockIndexFacts BlockCreateFacts.

(** ** Chunks of a series as inputs *)

(** The input [ci] holds the samples [ss] and says when they begin and end. *)
Definition input_samples (ss : list (Z * Z)) (ci : ChunkInput) : Prop :=
  chunk_list (XORChunk.from_bytes (ci_bytes ci)) = Some ss ∧
  ∃ x y, head ss = Some x ∧ last ss = Some y ∧ ci_min_time ci = fst x ∧ ci_max_time ci = fst y.

Definition fits (l : list (Z * Z)) : Prop := Forall (λ x, sample_fits x = true) l.

Lemma chunk_done_bytes ss c : chunk_done ss c → bytes_ok (XORChunk.bytes c) ∧ zlen (XORChunk.bytes c) <= 1024.
Proof.
  intros (_ & Hlen & a & bits & st & (Hok & _) & _). split; [exact Hok|]. unfold zlen, XORChunk.kMaxBytes in *. lia.
Qed.

Lemma chunk_inputs sss cs :
  Forall2 chunk_done sss cs →
  ∃ cis, head_chunks cs = Ok cis ∧ recut cs = Ok cis ∧ Forall2 input_samples sss cis ∧
    Forall (λ ci, bytes_ok (ci_bytes ci) ∧ zlen (ci_bytes ci) <= 1024) cis ∧ ci_bytes <$> cis = XORChunk.bytes <$> cs.
Proof.
  induction 1 as [|ss c sss cs Hdone _ (cis & Hhead & Hrecut & Hall & Hok & Hbytes)]; [by exists []|].
  destruct (chunk_samples _ _ Hdone) as (Hnum & _). destruct (chunk_range_eq _ _ Hdone) as (x & y & it & Hx & Hy & Hrange & Herr).
  pose proof (chunk_done_list _ _ Hdone) as Hlist. pose proof Hdone as (Hne & _).
  exists (mkChunkInput (fst x) (fst y) (XORChunk.bytes c) :: cis). cbn [head_chunks recut]. rewrite Hnum, Hrange, Herr.
  destruct (Z.eqb_spec (Z.of_nat (length ss)) 0); [destruct ss; [done|simpl in *; lia]|].
  rewrite bool_decide_false by (by intros [? ?]). rewrite Hhead, Hrecut. split_and!; [done|done| | |].
  - constructor; [|done]. split; [exact Hlist|]. by exists x, y.
  - constructor; [by apply (chunk_done_bytes ss)|done].
  - rewrite !fmap_cons, Hbytes. done.
Qed.

(** Bounded timestamps: no difference overflows. *)
Lemma fits_ends ss ci : fits ss → input_samples ss ci →
  - 2 ^ 62 <= ci_min_time ci < 2 ^ 62 ∧ - 2 ^ 62 <= ci_max_time ci < 2 ^ 62.
Proof.
  intros Hss (_ & x & y & Hx & Hy & -> & ->). unfold fits in Hss. rewrite Forall_forall in Hss.
  destruct ss as [|x' ss]; [done|]. injection Hx as ->.
  pose proof (Hss x ltac:(left)) as H1. pose proof (Hss y ltac:(by apply last_Some_elem_of)) as H2.
  unfold sample_fits in H1, H2. lia.
Qed.

Lemma fits_inputs sss cis t0 :
  Forall2 input_samples sss cis → fits (concat sss) → - 2 ^ 62 <= t0 < 2 ^ 62 → gaps_ok t0 cis = true.
Proof.
  intros Hall. revert t0. induction Hall as [|ss ci sss cis Hci _ IH]; intros t0 Hfits Ht0; [done|]. cbn [concat gaps_ok] in *.
  apply Forall_app in Hfits as [Hss Hfits]. pose proof (fits_ends ss ci Hss Hci) as [Hmin Hmax].
  rewrite IH by done. rewrite andb_true_r. width.
Qed.

Lemma series_of_chunks labels sss cis :
  labels_ok labels → Forall2 input_samples sss cis → fits (concat sss) →
  Forall (λ ci, bytes_ok (ci_bytes ci) ∧ zlen (ci_bytes ci) <= 1024) cis → series_input_ok (mkSeriesInput labels cis).
Proof.
  intros Hl Hall Hfits Hok. split_and!; [done| |]; cbn [si_chunks].
  - clear -Hall Hfits Hok. induction Hall as [|ss ci sss cis Hci _ IH]; [constructor|]. cbn [concat] in *.
    apply Forall_app in Hfits as [Hss Hfits]. apply Forall_cons_1 in Hok as [[Hb Hz] Hok]. constructor; [|by apply IH].
    pose proof (fits_ends ss ci Hss Hci) as [Hmin Hmax]. split_and!; [width|width|width|done|lia].
  - destruct Hall as [|ss ci sss cis Hci Hall]; [done|]. cbn [concat] in Hfits. apply Forall_app in Hfits as [Hss Hfits].
    eapply fits_inputs; [done|done|]. by apply (fits_ends ss ci).
Qed.


(** ** The inputs of a head *)

Lemma in_range_negb mint maxt c :
  in_range mint maxt c = negb ((maxt <? ci_min_time c) || (ci_max_time c <? mint)).
Proof. unfold in_range. lia. Qed.

(** A query of the head in terms of the inputs. *)
Lemma head_chunks_select mint maxt cs cis :
  head_chunks cs = Ok cis →
  ∃ found, Head.select_chunks mint maxt cs = Ok found ∧
    (λ p : XORChunk.t * ChunkMeta, (p.1, min_time p.2, max_time p.2)) <$> found =
      (λ c, (XORChunk.from_bytes (ci_bytes c), ci_min_time c, ci_max_time c)) <$> filter (λ c, in_range mint maxt c = true) cis.
Proof.
  revert cis. induction cs as [|xc cs IH]; intros cis; cbn [head_chunks Head.select_chunks]; [intros [= <-]; by exists []|].
  destruct (XORChunk.num_samples xc) as [n|]; [|done]. cbn [defined mbind outcome_bind]. destruct (n =? 0); [apply IH|].
  destruct (Head.chunk_range xc) as [[[[tmin tmax]|] it]|]; [|done..]. cbn [defined mbind outcome_bind].
  case_bool_decide; [done|]. destruct (head_chunks cs) as [rest|e|]; [|done..]. cbn [mbind outcome_bind]. intros [= <-].
  destruct (IH rest eq_refl) as (found & Hfound & Heq). rewrite filter_cons.
  pose proof (in_range_negb mint maxt (mkChunkInput tmin tmax (XORChunk.bytes xc))) as Hin. cbn [ci_min_time ci_max_time] in Hin.
  destruct ((maxt <? tmin) || (tmax <? mint)).
  - rewrite decide_False by by rewrite Hin. by exists found.
  - rewrite decide_True by done. rewrite Hfound. cbn [mbind outcome_bind]. eexists. split; [done|]. rewrite !fmap_cons, Heq. done.
Qed.

Lemma answer_found l (found : list (XORChunk.t * ChunkMeta)) :
  answer (mkQueryResult l (fst <$> found) (snd <$> found)) =
    (l, (λ p : XORChunk.t * ChunkMeta, (p.1, min_time p.2, max_time p.2)) <$> found).
Proof.
  unfold answer. cbn [qr_labels qr_chunks qr_metas]. f_equal. induction found as [|p found IH]; [done|].
  rewrite !fmap_cons. cbn [zip_with]. by rewrite IH.
Qed.

Lemma head_inputs_select `{RegexEngine} ms mint maxt ss inputs :
  head_inputs ss = Ok inputs →
  ∃ res, Head.select_series ms mint maxt ss = Ok res ∧
    answer <$> res = omap (selected mint maxt) (filter (λ s, labels_match_all (si_labels s) ms = true) inputs).
Proof.
  revert inputs. induction ss as [|s ss IH]; intros inputs; cbn [head_inputs Head.select_series]; [intros [= <-]; by exists []|].
  destruct (MemSeries.num_samples s =? 0); [apply IH|]. cbn [orb].
  destruct (head_chunks (MemSeries.chunks s)) as [cis|e|] eqn:Hcis; [|done..]. cbn [mbind outcome_bind].
  destruct (head_inputs ss) as [rest|e|]; [|done..]. cbn [mbind outcome_bind]. intros [= <-].
  destruct (IH rest eq_refl) as (res & Hres & Heq). destruct (head_chunks_select mint maxt _ _ Hcis) as (found & Hfound & Hpairs).
  destruct (labels_match_all (MemSeries.labels_ s) ms) eqn:Hm; cbn [negb].
  - rewrite Hfound, Hres. cbn [mbind outcome_bind].
    assert (omap (selected mint maxt) (filter (λ s, labels_match_all (si_labels s) ms = true)
        (match cis with [] => rest | _ => mkSeriesInput (MemSeries.labels_ s) cis :: rest end)) =
      match found with [] => answer <$> res | _ => answer (mkQueryResult (MemSeries.labels_ s) (fst <$> found) (snd <$> found)) :: (answer <$> res) end) as ->.
    { rewrite answer_found, Hpairs, Heq. destruct cis as [|c cis]; [by destruct found|].
      rewrite filter_cons, decide_True by done. rewrite omap_cons. unfold selected at 1. cbn [si_chunks si_labels].
      destruct (filter (λ c, in_range mint maxt c = true) (c :: cis)), found; done. }
    by destruct found; eexists.
  - exists res. split; [done|]. rewrite Heq. destruct cis; [done|]. by rewrite filter_cons, decide_False by (cbn [si_labels]; congruence).
Qed.

(** ** What can be flushed *)

(** A series as appending leaves it, with labels and timestamps that a block
    can store. *)
Definition flushable (s : MemSeries.t) : Prop :=
  labels_ok (MemSeries.labels_ s) ∧ ∃ samples, series_samples s samples ∧ fits samples.

(** The room it takes in the index. *)
Definition mem_series_room (s : MemSeries.t) : Z :=
  50 + 30 * zlen (MemSeries.chunks s) + zsum label_room (MemSeries.labels_ s).

(** The chunks of all series, as the chunk writer gets them. *)
Definition mem_chunks (ss : list MemSeries.t) : list chunk :=
  ss ≫= λ s, (λ c, (Encoding_XOR, XORChunk.bytes c)) <$> MemSeries.chunks s.

Lemma mem_series_room_pos s : 0 <= mem_series_room s.
Proof.
  unfold mem_series_room. pose proof (zsum_nonneg label_room (MemSeries.labels_ s) (λ l _, label_room_nonneg l)).
  pose proof (zlen_nonneg (MemSeries.chunks s)). lia.
Qed.

Lemma empty_series s samples : series_samples s samples → MemSeries.num_samples s = 0 → MemSeries.chunks s = [].
Proof.
  intros ((Hnum & _ & Hlast) & _ & Hlen) Hz. unfold MemSeries.num_samples in Hz. rewrite Hnum in Hz.
  rewrite u64_small in Hz by width. destruct samples; [|simpl in Hz; lia]. by destruct Hlast.
Qed.

Lemma chunk_input_count (cis : list ChunkInput) (cs : list XORChunk.t) :
  ci_bytes <$> cis = XORChunk.bytes <$> cs → zlen cis = zlen cs ∧ xor_chunks cis = (λ c, (Encoding_XOR, XORChunk.bytes c)) <$> cs.
Proof.
  intros Hbytes. split; [apply (f_equal length) in Hbytes; rewrite !length_fmap in Hbytes; unfold zlen; by rewrite Hbytes|].
  unfold xor_chunks. change ((λ c, (Encoding_XOR, ci_bytes c)) <$> cis) with ((pair Encoding_XOR ∘ ci_bytes) <$> cis).
  rewrite list_fmap_compose, Hbytes, <- list_fmap_compose. done.
Qed.

Lemma head_inputs_eq ss :
  Forall flushable ss →
  ∃ inputs, head_inputs ss = Ok inputs ∧ Forall series_input_ok inputs ∧
    zsum series_input_room inputs <= zsum mem_series_room ss ∧ all_chunks inputs = mem_chunks ss.
Proof.
  induction 1 as [|s ss (Hl & samples & Hs & Hfits) _ (inputs & Hinputs & Hok & Hroom & Hchunks)]; [by exists []|].
  cbn [head_inputs]. rewrite zsum_cons. pose proof (mem_series_room_pos s). unfold mem_chunks. rewrite bind_cons. fold (mem_chunks ss).
  destruct (Z.eqb_spec (MemSeries.num_samples s) 0) as [Hz|Hnz].
  { exists inputs. rewrite (empty_series s samples Hs Hz). split_and!; [done|done|lia|done]. }
  destruct Hs as (Hrep & _ & _). destruct (represents_chunks s samples Hrep) as (sss & Heq & Hdone).
  destruct (chunk_inputs sss _ Hdone) as (cis & Hcis & _ & Hall & Hbytes & Hsame). unfold MemSeries.chunks in *.
  rewrite Hcis, Hinputs. cbn [mbind outcome_bind]. rewrite Heq in Hfits.
  pose proof (series_of_chunks _ _ _ Hl Hall Hfits Hbytes) as Hsi.
  destruct (chunk_input_count _ _ Hsame) as [Hcount Hxor].
  destruct cis as [|ci cis].
  { destruct (MemSeries.chunks_ s) eqn:Hcs; [|done]. exists inputs. split_and!; [done|done|lia|done]. }
  eexists. split; [done|]. split; [by constructor|]. split.
  - rewrite zsum_cons. unfold series_input_room at 1, mem_series_room at 1. cbn [si_chunks si_labels]. unfold MemSeries.chunks. lia.
  - by rewrite all_chunks_cons, Hchunks, <- Hxor.
Qed.

(** A check of [flushable]. *)
Lemma flushable_check ss :
  Forall (λ s, ∃ samples, series_samples s samples) ss →
  forallb (λ s, bool_decide (labels_ok (MemSeries.labels_ s)) &&
    match read_back s with Some l => forallb sample_fits l | None => false end) ss = true →
  Forall flushable ss.
Proof.
  intros Hall Hcheck. rewrite forallb_forall in Hcheck. rewrite Forall_forall in Hall. apply Forall_forall. intros s Hs.
  destruct (Hall s Hs) as (samples & Hsam). apply list_elem_of_In, Hcheck, andb_prop in Hs as [Hl Hfits].
  apply bool_decide_eq_true in Hl. split; [done|]. exists samples. split; [done|]. destruct Hsam as (Hrep & _).
  rewrite (represents_read _ _ Hrep), forallb_forall in Hfits. apply Forall_forall. intros x Hx. by apply Hfits, list_elem_of_In.
Qed.

End FlushFacts.

Module FlushProps.
Import BytesFacts ChunksFacts HeadFacts MemSeriesFacts MemSeriesProps BlockSelectFacts BlockIndexFacts BlockCreateFacts BlockProps FlushFacts.

(** The results of several queries without the references of the chunks. *)
Definition answers (rs : list (list QueryResult)) : list (list (Labels.t * list (XORChunk.t * Z * Z))) := map (map answer) rs.

(** C18: the flush of a head. On a disk where no call fails and the new name is
    free, [create_from_head] writes the series of a head, as appending leaves
    them, to a block that opens; any sequence of queries on the block answers
    exactly as [Head.select] does: the same label sets in the same order, and
    for each the same chunks with the same times. The timestamps are between
    -2^62 and 2^62, the labels such as a block can store. *)
Theorem flush_answers `{JsonLaws} `{RegexEngine} (now : Z) (random : list Z) (h : Head.t) (d : Disk) :
  let ulid := new_ulid now random in
  let ss := SeriesStore.all_series (Head.series_ h) in
  calls d = [] → dirs d !! ulid = None → Forall flushable ss → 210 + zsum mem_series_room ss <= 2 ^ 32 →
  Z.of_nat (length (segments (place_all k_default_chunks_segment_size ([], []) (mem_chunks ss)).1)) < 10 ^ 6 →
  ∃ d' files fs b, create_from_head now random h d = (Ok ulid, d') ∧
    dirs d' = <[ulid := mkDir files (Some fs)]> (dirs d) ∧ Block.open ulid d' = Ok b ∧
    ∀ qs, Forall (λ q, q.1.1 ≠ [] ∧ Forall matcher_ok q.1.1) qs →
      ∃ rs b' hrs, run_queries fs qs b = (Ok rs, b') ∧
        Forall2 (λ q res, Head.select q.1.1 q.1.2 q.2 h = Ok res) qs hrs ∧ answers rs = answers hrs.
Proof.
  intros ulid ss Hcalls Hnew Hss Hroom Hlen. destruct (head_inputs_eq ss Hss) as (inputs & Hinputs & Hok & Hle & Hchunks).
  destruct (created now random inputs d Hcalls Hnew) as (d' & dir & b & Hcreate & _ & Hdirs & Hholds & _);
    [split_and!; [done|lia|by rewrite Hchunks]|].
  destruct Hholds as (files & fs & vs & Hdir & Hopen & _ & Hblock & Hshows).
  rewrite Hdirs, lookup_insert_eq in Hdir. injection Hdir as ->. exists d', files, fs, b. split_and!; [|done|done|].
  { unfold create_from_head. fold ss. rewrite Hinputs. exact Hcreate. }
  intros qs Hqs. destruct (run_queries_eq fs vs b qs Hblock Hqs) as (b' & Hrun).
  assert (∃ hrs, Forall2 (λ q res, Head.select q.1.1 q.1.2 q.2 h = Ok res) qs hrs ∧
    answers hrs = (λ q, omap (selected q.1.2 q.2) (filter (λ s, labels_match_all (si_labels s) q.1.1 = true) inputs)) <$> qs)
    as (hrs & Hhrs & Heq).
  { clear -Hqs Hinputs. induction Hqs as [|q qs [Hne _] _ (hrs & Hhrs & Heq)]; [by exists []|].
    destruct (head_inputs_select q.1.1 q.1.2 q.2 ss inputs Hinputs) as (res & Hres & Hans). exists (res :: hrs). split.
    - constructor; [|done]. unfold Head.select. by destruct q.1.1.
    - rewrite fmap_cons, <- Heq, <- Hans. done. }
  eexists _, b', hrs. split; [done|]. split; [done|]. rewrite Heq. unfold answers. rewrite <- list_fmap_compose. apply list_fmap_ext. intros i q _. unfold compose.
  change (map answer) with (fmap (M := list) answer).
  by rewrite (answers_shown q.1.1 q.1.2 q.2 _ _ Hshows), answers_with_chunks.
Qed.

#[local] Instance exact_engine : RegexEngine := {| std_regex := str; regex_compile := Some; regex_match p s := bool_decide (p = s) |}.

Lemma flush_answers_witness :
  let h := sample_head [mkLabel [97] [98]] 50 7 in
  let ulid := new_ulid 1700000000000 [1; 2; 3] in
  length (SeriesStore.all_series (Head.series_ h)) = 1%nat ∧
  ∃ d' files fs b, create_from_head (H := TreeJson.tree_json) 1700000000000 [1; 2; 3] h (mkDisk ∅ []) = (Ok ulid, d') ∧
    dirs d' = <[ulid := mkDir files (Some fs)]> ∅ ∧ Block.open (H := TreeJson.tree_json) ulid d' = Ok b ∧
    ∀ qs, Forall (λ q, q.1.1 ≠ [] ∧ Forall matcher_ok q.1.1) qs →
      ∃ rs b' hrs, run_queries fs qs b = (Ok rs, b') ∧
        Forall2 (λ q res, Head.select q.1.1 q.1.2 q.2 h = Ok res) qs hrs ∧ answers rs = answers hrs.
Proof.
  intros h ulid. split; [vm_compute; reflexivity|].
  assert (store_ok (Head.series_ h)) as Hst by (apply sample_head_store; [vm_compute; eexists; reflexivity|reflexivity]).
  pose proof (store_ok_all _ Hst) as Hall.
  apply (flush_answers (J := TreeJson.tree_json) (H := TreeJson.tree_laws) 1700000000000 [1; 2; 3] h (mkDisk ∅ [])).
  - reflexivity.
  - reflexivity.
  - apply (flushable_check _ Hall). vm_compute. reflexivity.
  - vm_compute. discriminate.
  - vm_compute. reflexivity.
Defined.

End FlushProps.
