(* ===== verification/Merge.v ===== *)
(** Compaction: samples merged by timestamp, the inputs gathered from blocks,
    and the block [compact] leaves behind. *)

From S2P Require Import Prelude Ordered Sorted Containers Files Varint Bytes Crc32c Labels Matcher Record BStream Xor Segment Chunks Query Index IndexWriter Ulid Meta MemSeries SeriesStore Head Block BlockSelect BlockIndex BlockCreate Compact Flush.

Module MergeFacts.
Import BytesFacts ChunksFacts HeadFacts MemSeriesFacts MemSeriesProps BlockSelectFacts BlockIndexFacts BlockCreateFacts FlushFacts.

(** ** Samples *)

Definition at_time (t : Z) (l : list (Z * Z)) : list (Z * Z) := filter (λ x, x.1 = t) l.

Definition by_time (a b : Z * Z) : bool := fst a <? fst b.

(** Ascending timestamps, no two of them equal. *)
Definition strict (l : list (Z * Z)) : Prop := StronglySorted (λ a b, a.1 < b.1) l.

Lemma at_time_later t l : Forall (λ x : Z * Z, t < x.1) l → at_time t l = [].
Proof.
  induction 1 as [|x l Hx _ IH]; [done|]. unfold at_time. rewrite filter_cons, decide_False by lia. exact IH.
Qed.

Lemma dedupe_cons x y l : dedupe (x :: y :: l) = if fst y =? fst x then dedupe (y :: l) else x :: dedupe (y :: l).
Proof. done. Qed.

(** The timestamps stay, the last sample of each is kept. *)
Lemma dedupe_spec l :
  StronglySorted (λ a b : Z * Z, a.1 <= b.1) l →
  strict (dedupe l) ∧ (∀ x, x ∈ dedupe l → x ∈ l) ∧ ∀ x, x ∈ dedupe l ↔ last (at_time x.1 l) = Some x.
Proof.
  induction 1 as [|x l Hl (Hs & Hin & Hlast) Hx].
  { split_and!; [constructor|done|]. intros x. split; [by intros ?%elem_of_nil|done]. }
  destruct l as [|y l].
  { cbn [dedupe]. split_and!; [by repeat constructor|done|]. intros z. rewrite list_elem_of_singleton. unfold at_time.
    rewrite filter_cons, filter_nil. destruct (decide (x.1 = z.1)) as [Heq|Hne]; cbn [last]; split; try congruence. }
  rewrite dedupe_cons. destruct (Z.eqb_spec (fst y) (fst x)) as [Heq|Hne].
  - split_and!; [done|intros z Hz; right; by apply Hin|]. intros z. rewrite Hlast. unfold at_time at 2. rewrite (filter_cons _ x).
    destruct (decide (x.1 = z.1)) as [Hz|]; [|done]. unfold at_time. rewrite filter_cons. rewrite decide_True by congruence.
    by rewrite last_cons_cons.
  - assert (Forall (λ z : Z * Z, x.1 < z.1) (y :: l)) as Hlater.
    { rewrite Forall_forall in Hx. apply StronglySorted_inv in Hl as [_ Hy]. rewrite Forall_forall in Hy. apply Forall_forall.
      intros z Hz. pose proof (Hx y ltac:(left)). apply elem_of_cons in Hz as [->|Hz]; [lia|]. specialize (Hy z Hz). lia. }
    split_and!.
    + constructor; [done|]. rewrite Forall_forall in Hlater. apply Forall_forall. auto.
    + intros z [->|Hz]%elem_of_cons; [left|right; by apply Hin].
    + intros z. rewrite elem_of_cons, Hlast. unfold at_time at 2. rewrite (filter_cons _ x).
      destruct (decide (x.1 = z.1)) as [Hz|Hz].
      * rewrite <- Hz. fold (at_time x.1 (y :: l)). rewrite (at_time_later _ _ Hlater). cbn [last]. split; [by intros [->|?]|intros [= ->]; by left].
      * fold (at_time z.1 (y :: l)). split; [by intros [->|?]|by right].
Qed.

(** The merge keeps, for every timestamp, the sample that came last. *)
Lemma merge_samples_spec l :
  strict (merge_samples l) ∧ ∀ x, x ∈ merge_samples l ↔ last (at_time x.1 l) = Some x.
Proof.
  unfold merge_samples. set (less := λ a b : Z * Z, fst a <? fst b).
  assert (StronglySorted (λ a b : Z * Z, a.1 <= b.1) (stable_sort less l)) as Hs.
  { eapply (StronglySorted_weaken (le_of less)); [intros x y; unfold le_of, less; lia|].
    apply stable_sort_sorted; unfold le_of, less; intros *; lia. }
  destruct (dedupe_spec _ Hs) as (Hstrict & _ & Hlast). split; [done|]. intros x. rewrite Hlast. unfold at_time.
  by rewrite stable_sort_filter by (unfold less; intros; lia).
Qed.

Lemma merge_samples_in l x : x ∈ merge_samples l → x ∈ l.
Proof.
  intros Hx%merge_samples_spec. apply last_Some_elem_of in Hx. by apply list_elem_of_filter in Hx as [_ ?].
Qed.

(** ** Rebuilding chunks *)

Lemma append_samples_eq l s samples :
  represents s samples → fits (samples ++ l) → strict (samples ++ l) →
  ∃ s', append_samples l s = Ok s' ∧ represents s' (samples ++ l).
Proof.
  revert s samples. induction l as [|[t v] l IH]; intros s samples Hs Hfits Hstrict; [exists s; by rewrite app_nil_r|].
  rewrite cons_middle, app_assoc in Hfits, Hstrict. cbn [append_samples].
  pose proof Hfits as [Hfits1 _]%Forall_app. destruct (push_spec s samples (t, v) Hs Hfits1) as (s1 & Happ & Hs1 & _). cbn [fst snd] in Happ.
  assert (push samples (t, v) = (true, samples ++ [(t, v)])) as Hpush.
  { unfold push. destruct (last samples) as [p|] eqn:Hp; [|apply last_None in Hp; by rewrite Hp].
    unfold strict in Hstrict. rewrite <- app_assoc in Hstrict.
    apply StronglySorted_app_1_elem_of with (x1 := p) (x2 := (t, v)) in Hstrict; [|by apply last_Some_elem_of|left].
    cbn [fst]. cbn [fst] in Hstrict. destruct (Z.ltb_spec t p.1); [lia|done]. }
  rewrite Hpush in Happ, Hs1. cbn [fst snd] in *. rewrite Happ.
  destruct (IH s1 _ Hs1 Hfits Hstrict) as (s2 & Hrest & Hs2). exists s2. by rewrite <- app_assoc in Hs2.
Qed.

(** The samples of a chunk, none when it does not decode. *)
Definition input_list (ci : ChunkInput) : list (Z * Z) := default [] (chunk_list (XORChunk.from_bytes (ci_bytes ci))).

Definition input_decodes (ci : ChunkInput) : Prop :=
  is_Some (chunk_list (XORChunk.from_bytes (ci_bytes ci))) ∧ fits (input_list ci).

Lemma decode_inputs_eq cs : Forall input_decodes cs → decode_inputs cs = Ok (cs ≫= input_list) ∧ fits (cs ≫= input_list).
Proof.
  induction 1 as [|ci cs [[ss Hss] Hfits] _ (IH & Hrest)]; [split; [done|constructor]|]. rewrite bind_cons. split; [|by apply Forall_app_2].
  cbn [decode_inputs]. unfold input_list. rewrite Hss. unfold chunk_list in Hss.
  destruct (XORIterator.drain _ _) as [[ss' it]|]; [|done]. cbn [mbind option_bind] in Hss.
  destruct (XORIterator.err_ it); [done|]. injection Hss as ->. rewrite bool_decide_false by (by intros [? ?]). by rewrite IH.
Qed.

Lemma input_samples_list sss cis : Forall2 input_samples sss cis → cis ≫= input_list = concat sss.
Proof.
  induction 1 as [|ss ci sss cis (Hss & _) _ IH]; [done|]. rewrite bind_cons, IH. unfold input_list. by rewrite Hss.
Qed.

(** A chunk of the result: not empty, its times those of its first and last
    samples. *)
Definition input_spans (ci : ChunkInput) : Prop :=
  ∃ x y, head (input_list ci) = Some x ∧ last (input_list ci) = Some y ∧ ci_min_time ci = x.1 ∧ ci_max_time ci = y.1.

(** The series that a list of samples is cut into. *)
Definition rebuilt (labels : Labels.t) (deduped : list (Z * Z)) : outcome error_code SeriesInput :=
  match deduped with
  | [] => Ok (mkSeriesInput labels [])
  | x :: deduped =>
      ms ← append_samples (x :: deduped) (MemSeries.new 0 labels);
      cs ← recut (MemSeries.chunks ms);
      Ok (mkSeriesInput labels cs)
  end.

Lemma merge_series_rebuilt labels chunks :
  Forall input_decodes chunks → merge_series labels chunks = rebuilt labels (merge_samples (chunks ≫= input_list)).
Proof. intros Hchunks. unfold merge_series. rewrite (proj1 (decode_inputs_eq chunks Hchunks)). done. Qed.

(** What the merge makes of the chunks of one series. *)
Lemma merge_series_eq labels chunks :
  labels_ok labels → Forall input_decodes chunks →
  ∃ si, merge_series labels chunks = Ok si ∧ si_labels si = labels ∧
    si_chunks si ≫= input_list = merge_samples (chunks ≫= input_list) ∧
    Forall input_spans (si_chunks si) ∧ series_input_ok si.
Proof.
  intros Hl Hchunks. destruct (decode_inputs_eq chunks Hchunks) as [Hdec Hfits]. unfold merge_series. rewrite Hdec.
  cbn [mbind outcome_bind]. set (samples := chunks ≫= input_list) in *.
  destruct (merge_samples_spec samples) as [Hstrict _]. pose proof (merge_samples_in samples) as Hin.
  assert (fits (merge_samples samples)) as Hmfits.
  { unfold fits in *. rewrite Forall_forall in *. auto. }
  destruct (merge_samples samples) as [|x deduped] eqn:Hm.
  { eexists. split; [done|]. split_and!; try done; cbn [si_chunks]; constructor. }
  destruct (append_samples_eq (x :: deduped) (MemSeries.new 0 labels) [] (represents_new 0 labels) Hmfits Hstrict) as (s & Happ & Hs).
  rewrite Happ. cbn [mbind outcome_bind]. destruct (represents_chunks s _ Hs) as (sss & Heq & Hdone). cbn [app] in Heq.
  destruct (chunk_inputs sss _ Hdone) as (cis & _ & Hrecut & Hall & Hbytes & _). unfold MemSeries.chunks. rewrite Hrecut.
  cbn [mbind outcome_bind]. eexists. split; [done|]. split_and!; cbn [si_labels si_chunks]; [done| | |].
  - by rewrite (input_samples_list _ _ Hall).
  - clear -Hall. induction Hall as [|ss ci sss cis (Hss & x & y & Hx & Hy & Hmin & Hmax) _ IH]; [constructor|]. constructor; [|done].
    exists x, y. unfold input_list. by rewrite Hss.
  - apply (series_of_chunks labels sss); [done..| |done]. by rewrite <- Heq.
Qed.

(** ** Gathering the chunks of the blocks *)

Lemma seen_ids_eq idx ser : denotes idx ser → seen_ids idx = Ok (fst <$> ser).
Proof.
  intros Hidx. pose proof (dn_all _ _ Hidx) as Hall. unfold IndexReader.all_postings in Hall. unfold seen_ids.
  destruct (IndexReader.collect _ _ _) as [refs|e|]; [|done..]. cbn [mbind outcome_bind] in *. f_equal.
  assert (sort_unique Z.ltb refs = fst <$> ser) as Heq by by injection Hall.
  apply (ascending_unique Z.ltb); [by apply (foldl_set_insert_ascending Z.ltb (λ x, x)); constructor|apply Hidx|].
  intros id. rewrite (elem_of_foldl_set_insert Z.ltb (λ x, x)), <- Heq, (proj2 (sort_unique_spec Z.ltb refs)). split.
  - intros [?%elem_of_nil|(x & Hx & ->)]; done.
  - intros Hid. right. by exists id.
Qed.

Section Gather.
Context (fs : gmap str (list Z)) (vs : list view).

Lemma read_inputs_eq v cs b :
  block_of fs vs b → v ∈ vs → (∀ c, c ∈ cs → c ∈ vw_chunks v) →
  ∃ b', read_inputs fs (fst <$> cs) b = (Ok (input_of <$> cs), b') ∧ block_of fs vs b'.
Proof.
  intros Hb Hv. revert b Hb. induction cs as [|c cs IH]; intros b Hb Hin; [by exists b|]. rewrite fmap_cons. cbn [read_inputs].
  pose proof Hb as (Hidx & Hser & segs & Hdir & Hok & Hr & Hst).
  destruct (read_stored fs segs (Block.chunks_ b) _ _ Hdir Hok Hr (Hst v c Hv (Hin c ltac:(left)))) as (r' & Hread & Hr').
  assert (read_input fs c.1 b = (Ok (input_of c), Block.mk (Block.dir_ b) (Block.meta_ b) (Block.index_ b) r')) as Hone.
  { unfold read_input. rewrite Hread. done. }
  rewrite (rbind_ok _ _ _ _ _ Hone). destruct (IH (Block.mk (Block.dir_ b) (Block.meta_ b) (Block.index_ b) r')) as (b2 & Hrest & Hb2).
  { split_and!; [done|done|]. by exists segs. }
  { intros c' Hc'. apply Hin. by right. }
  rewrite (rbind_ok _ _ _ _ _ Hrest). by exists b2.
Qed.

(** One group per series. *)
Definition group_of (v : view) : Labels.t * list ChunkInput := (vw_labels v, input_of <$> vw_chunks v).

Definition add_group (m : MergedInputs) (x : Labels.t * list ChunkInput) : MergedInputs := upsert x.1 [] (add_inputs x.2) m.

Lemma merge_ids_eq sel m b :
  block_of fs vs b → (∀ v, v ∈ sel → v ∈ vs) →
  (merge_ids fs (vw_id <$> sel) m b).1 = Ok (foldl add_group m (group_of <$> sel)).
Proof.
  revert m b. induction sel as [|v sel IH]; intros m b Hb Hin; [done|]. rewrite !fmap_cons. cbn [merge_ids foldl].
  assert (v ∈ vs) as Hv by (apply Hin; left). pose proof Hb as (_ & Hser & _).
  assert (series_entry (vw_id v) b = (Ok (mkSeriesEntry (vw_labels v) (fst <$> vw_chunks v)), b)) as Hse
    by (unfold series_entry; by rewrite Hser).
  rewrite (rbind_ok _ _ _ _ _ Hse). cbn [se_labels se_chunks].
  destruct (read_inputs_eq v (vw_chunks v) b Hb Hv ltac:(done)) as (b1 & Hc & Hb1).
  rewrite (rbind_ok _ _ _ _ _ Hc). apply IH; [done|]. intros w Hw. apply Hin. by right.
Qed.

End Gather.

Definition series_group (s : SeriesInput) : Labels.t * list ChunkInput := (si_labels s, si_chunks s).

Lemma shown_groups series vs : Forall2 shows series vs → group_of <$> vs = series_group <$> series.
Proof.
  induction 1 as [|s v series vs [Hl Hc] _ IH]; [done|]. rewrite !fmap_cons, IH. f_equal. unfold group_of, series_group. by rewrite Hl, Hc.
Qed.

(** A block together with the series it holds. *)
Definition source : Type := list SeriesInput * Block.t.

Definition groups (xs : list source) : list (Labels.t * list ChunkInput) := xs ≫= λ x, series_group <$> with_chunks x.1.

Section Blocks.
Context `{Json} (d : Disk).

Lemma merge_blocks_eq xs m :
  Forall (λ x : source, ∃ dir, block_holds dir d x.1 x.2) xs → merge_blocks d (snd <$> xs) m = Ok (foldl add_group m (groups xs)).
Proof.
  intros Hxs. revert m. induction Hxs as [|x xs (dir & files & fs & vs & Hdir & _ & Hname & Hblock & Hshows) _ IH]; intros m; [done|].
  rewrite fmap_cons. unfold groups. rewrite bind_cons, foldl_app. fold (groups xs). cbn [merge_blocks].
  pose proof Hblock as (Hidx & _). rewrite (seen_ids_eq _ _ Hidx). cbn [mbind outcome_bind].
  unfold dir_of. rewrite Hname, Hdir. cbn [default from_option id dir_chunks].
  rewrite <- list_fmap_compose. change (fst ∘ (λ v, (vw_id v, vw_labels v))) with vw_id.
  rewrite (merge_ids_eq fs vs vs m x.2 Hblock ltac:(done)). cbn [mbind outcome_bind]. by rewrite (shown_groups _ _ Hshows), IH.
Qed.

Definition level_of (x : source) : Z := BlockMetaCompaction.level (BlockMeta.compaction (Block.meta_ x.2)).
Definition sources_of (x : source) : list str := BlockMetaCompaction.sources (BlockMeta.compaction (Block.meta_ x.2)).

Definition max_level (l0 : Z) (xs : list source) : Z := foldl (λ a x, Z.max a (level_of x)) l0 xs.
Definition all_sources (s0 : list str) (xs : list source) : list str :=
  foldl (λ a x, foldl (λ acc src, set_insert str_ltb src acc) a (sources_of x)) s0 xs.

Lemma open_blocks_eq dirs xs l0 s0 :
  Forall2 (λ dir x, block_holds dir d x.1 x.2) dirs xs →
  open_blocks dirs d l0 s0 = Ok (snd <$> xs, max_level l0 xs, all_sources s0 xs).
Proof.
  intros Hall. revert l0 s0. induction Hall as [|dir x dirs xs (files & fs & vs & _ & Hopen & _) _ IH]; intros l0 s0; [done|].
  cbn [open_blocks]. rewrite Hopen. cbn [mbind outcome_bind]. by rewrite IH.
Qed.

Lemma max_level_spec l0 xs : l0 <= max_level l0 xs ∧ (∀ x, x ∈ xs → level_of x <= max_level l0 xs) ∧
  (max_level l0 xs = l0 ∨ ∃ x, x ∈ xs ∧ max_level l0 xs = level_of x).
Proof.
  revert l0. induction xs as [|x xs IH]; intros l0; [split_and!; [done|by intros ? ?%elem_of_nil|by left]|].
  change (max_level l0 (x :: xs)) with (max_level (Z.max l0 (level_of x)) xs). destruct (IH (Z.max l0 (level_of x))) as (Hle & Hall & Hmax).
  split_and!; [lia| |].
  - intros y [->|Hy]%elem_of_cons; [lia|by apply Hall].
  - destruct Hmax as [Heq|(y & Hy & Heq)]; [|right; exists y; split; [by right|done]].
    destruct (Z.max_spec l0 (level_of x)) as [[_ Hm]|[_ Hm]]; rewrite Hm in Heq; [right; exists x; split; [left|by rewrite Hm]|left; by rewrite Hm].
Qed.

Lemma all_sources_spec s0 xs :
  ascending str_ltb s0 → ascending str_ltb (all_sources s0 xs) ∧
  ∀ s, s ∈ all_sources s0 xs ↔ s ∈ s0 ∨ ∃ x, x ∈ xs ∧ s ∈ sources_of x.
Proof.
  revert s0. induction xs as [|x xs IH]; intros s0 Hs0.
  { split; [done|]. intros s. split; [by left|]. by intros [?|(x & ?%elem_of_nil & _)]. }
  set (s1 := foldl (λ acc src, set_insert str_ltb src acc) s0 (sources_of x)).
  change (all_sources s0 (x :: xs)) with (all_sources s1 xs).
  assert (ascending str_ltb s1) as Hs1 by by apply (foldl_set_insert_ascending str_ltb (λ x, x)).
  destruct (IH s1 Hs1) as [Hasc Hin]. split; [done|]. intros s. rewrite Hin. unfold s1.
  rewrite (elem_of_foldl_set_insert str_ltb (λ x, x)). split.
  - intros [[Hs|(y & Hy & ->)]|(y & Hy & Hs)]; [by left|right; exists x; split; [left|done]|right; exists y; split; [by right|done]].
  - intros [Hs|(y & [->|Hy]%elem_of_cons & Hs)]; [by left; left|left; right; by exists s|right; by exists y].
Qed.

End Blocks.

(** ** The inputs of the new block *)

(** All series of the blocks, in order, and the samples among them under the
    labels [l]. *)
Definition all_series (xs : list source) : list SeriesInput := xs ≫= fst.

Definition samples_in (series : list SeriesInput) (l : Labels.t) : list (Z * Z) :=
  filter (λ s, si_labels s = l) series ≫= λ s, si_chunks s ≫= input_list.

(** The result of compacting [series]: every label set once; its samples are,
    in the order of time, the last one of each timestamp. *)
Definition compacted (series inputs : list SeriesInput) : Prop :=
  NoDup (si_labels <$> inputs) ∧
  (∀ l, l ∈ (si_labels <$> inputs) ↔ l ∈ (si_labels <$> with_chunks series)) ∧
  ∀ si, si ∈ inputs →
    strict (si_chunks si ≫= input_list) ∧
    (∀ x, x ∈ (si_chunks si ≫= input_list) ↔ last (at_time x.1 (samples_in series (si_labels si))) = Some x) ∧
    Forall input_spans (si_chunks si).

Lemma groups_eq xs : groups xs = series_group <$> with_chunks (all_series xs).
Proof.
  unfold groups, all_series. induction xs as [|x xs IH]; [done|]. rewrite !bind_cons, IH. unfold with_chunks.
  by rewrite filter_app, fmap_app.
Qed.

Lemma concat_foldl {A} (l : list (list A)) acc : foldl (λ v w, v ++ w) acc l = acc ++ concat l.
Proof. revert acc. induction l as [|x l IH]; intros acc; cbn [foldl concat]; [by rewrite app_nil_r|]. by rewrite IH, app_assoc. Qed.

Lemma bind_concat {A B} (f : A → list B) (l : list (list A)) : concat l ≫= f = l ≫= λ x, x ≫= f.
Proof. induction l as [|x l IH]; [done|]. cbn [concat]. by rewrite bind_app, bind_cons, IH. Qed.

Lemma group_samples series l :
  concat (values_of l (series_group <$> with_chunks series)) ≫= input_list = samples_in series l.
Proof.
  rewrite bind_concat. unfold samples_in, values_of, with_chunks. induction series as [|s series IH]; [done|].
  rewrite !filter_cons. destruct (decide (si_chunks s ≠ [])) as [Hs|Hs].
  - rewrite fmap_cons, filter_cons. cbn [series_group fst]. destruct (decide (si_labels s = l)); [|done].
    by rewrite fmap_cons, !bind_cons, IH.
  - destruct (decide (si_labels s = l)); [|done]. rewrite bind_cons, IH.
    assert (si_chunks s = []) as -> by (destruct (si_chunks s); [done|by exfalso; apply Hs]). done.
Qed.

(** What a series must be for the compaction: labels that can be stored, chunks
    that decode. *)
Definition mergeable (s : SeriesInput) : Prop := labels_ok (si_labels s) ∧ Forall input_decodes (si_chunks s).

Lemma group_mergeable series l :
  Forall mergeable series → Forall input_decodes (concat (values_of l (series_group <$> with_chunks series))).
Proof.
  intros Hs. apply Forall_concat. unfold values_of. apply Forall_fmap, Forall_forall. intros g [_ Hg]%list_elem_of_filter.
  apply list_elem_of_fmap in Hg as (s & -> & [_ Hin]%list_elem_of_filter). rewrite Forall_forall in Hs. by apply Hs.
Qed.

Lemma merge_all_eq m :
  Forall (λ x : Labels.t * list ChunkInput, labels_ok x.1 ∧ Forall input_decodes x.2) m →
  ∃ inputs, merge_all m = Ok inputs ∧
    Forall2 (λ x si, si_labels si = x.1 ∧ si_chunks si ≫= input_list = merge_samples (x.2 ≫= input_list) ∧
      Forall input_spans (si_chunks si) ∧ series_input_ok si ∧ rebuilt (si_labels si) (si_chunks si ≫= input_list) = Ok si) m inputs.
Proof.
  induction 1 as [|[l chunks] m [Hl Hc] _ (inputs & Hrest & Hall)]; [by exists []|]. cbn [fst snd] in *.
  destruct (merge_series_eq l chunks Hl Hc) as (si & Hsi & Hlab & Hsam & Hspan & Hok). exists (si :: inputs).
  cbn [merge_all]. rewrite Hsi, Hrest. split; [done|]. constructor; [|done]. rewrite (merge_series_rebuilt _ _ Hc) in Hsi. cbn [fst snd].
  split_and!; [done..|]. by rewrite Hlab, Hsam.
Qed.

Lemma compact_inputs_eq `{Json} `{StdOrderLaws} d dirs xs :
  Forall2 (λ dir x, block_holds dir d x.1 x.2) dirs xs → Forall mergeable (all_series xs) →
  ∃ inputs, compact_inputs dirs d = Ok (inputs, max_level 0 xs, all_sources [] xs) ∧
    compacted (all_series xs) inputs ∧ Forall series_input_ok inputs ∧
    Forall (λ si, rebuilt (si_labels si) (si_chunks si ≫= input_list) = Ok si) inputs.
Proof.
  intros Hall Hmerge. unfold compact_inputs. rewrite (open_blocks_eq d dirs xs 0 [] Hall). cbn [mbind outcome_bind].
  rewrite (merge_blocks_eq d xs []).
  2:{ clear -Hall. induction Hall as [|dir x dirs xs Hx _ IH]; constructor; eauto. }
  cbn [mbind outcome_bind]. pose proof (grouped_all (λ _, []) add_inputs [] (groups xs) [] (grouped_nil _ _)) as (Hnd & Hkeys & Hvals).
  cbn [app] in *. change (foldl _ [] (groups xs)) with (foldl add_group [] (groups xs)) in Hnd, Hkeys, Hvals.
  set (m := foldl add_group [] (groups xs)) in *. rewrite groups_eq in Hkeys, Hvals.
  assert (∀ l chunks, (l, chunks) ∈ m → chunks = concat (values_of l (series_group <$> with_chunks (all_series xs)))) as Hchunks.
  { intros l chunks Hin. rewrite (Hvals l chunks Hin). unfold add_inputs. apply (concat_foldl _ []). }
  assert (∀ l, l ∈ m.*1 ↔ l ∈ (si_labels <$> with_chunks (all_series xs))) as Hlabels.
  { intros l. rewrite Hkeys, <- list_fmap_compose. done. }
  destruct (merge_all_eq (visit m)) as (inputs & Hinputs & Hrel).
  { rewrite visit_perm. apply Forall_forall. intros [l chunks] Hin. cbn [fst snd]. split.
    - assert (l ∈ m.*1) as Hl by (by apply (list_elem_of_fmap_2 fst) in Hin). apply Hlabels in Hl.
      apply list_elem_of_fmap in Hl as (s & -> & [_ Hs]%list_elem_of_filter). rewrite Forall_forall in Hmerge. by apply Hmerge.
    - rewrite (Hchunks l chunks Hin). by apply group_mergeable. }
  exists inputs. rewrite Hinputs. split; [done|].
  assert (si_labels <$> inputs = (visit m).*1) as Heq.
  { clear -Hrel. revert Hrel. generalize (visit m). intros k Hrel. induction Hrel as [|x si k inputs (Hl & _) _ IH]; [done|]. by rewrite !fmap_cons, Hl, IH. }
  split; [|clear -Hrel; rewrite <- Forall_and; revert Hrel; generalize (visit m); intros k Hrel; induction Hrel as [|x si k inputs (_ & _ & _ & Hok) _ IH]; by constructor].
  split_and!.
  - rewrite Heq. by rewrite visit_perm.
  - intros l. rewrite Heq, <- Hlabels. by rewrite visit_perm.
  - intros si Hsi. apply list_elem_of_lookup in Hsi as [i Hi]. destruct (Forall2_lookup_r _ _ _ _ _ Hrel Hi) as ([l chunks] & Hx & Hl & Hsam & Hspan & _).
    apply list_elem_of_lookup_2 in Hx. rewrite visit_perm in Hx. cbn [fst snd] in *. subst l. rewrite Hsam, (Hchunks _ _ Hx), group_samples.
    destruct (merge_samples_spec (samples_in (all_series xs) (si_labels si))) as [Hstrict Hin]. by split_and!.
Qed.

End MergeFacts.

Module MergeProps.
Import BytesFacts ChunksFacts HeadFacts MemSeriesFacts MemSeriesProps BlockSelectFacts BlockIndexFacts BlockCreateFacts FlushFacts MergeFacts.

(** Replacing the metadata of a block leaves the series it holds. *)
Lemma patched_holds `{Json} dir d d2 series b files files' fs m :
  block_holds dir d series b → dirs d !! dir = Some (mkDir files (Some fs)) →
  dirs d2 !! dir = Some (mkDir files' (Some fs)) → read_meta files' = Ok m →
  files' !! k_index_filename = files !! k_index_filename →
  block_holds dir d2 series (Block.mk dir m (Block.index_ b) (Block.chunks_ b)).
Proof.
  intros (files0 & fs0 & vs & Hdir & Hopen & Hname & Hblock & Hshows) Hd Hd2 Hm Hindex.
  rewrite Hd in Hdir. injection Hdir as <- <-. exists files', fs, vs. split_and!; [done| |done|exact Hblock|done].
  unfold Block.open in *. rewrite Hd in Hopen. rewrite Hd2. cbn [dir_files dir_chunks] in *. rewrite Hm. cbn [mbind outcome_bind].
  destruct (read_meta files) as [m0|e|]; [|done..]. cbn [mbind outcome_bind] in Hopen. unfold IndexReader.open in *. rewrite Hindex.
  destruct (files !! k_index_filename) as [bytes|]; [|done]. destruct (IndexReader.parse bytes) as [r|e|]; [|done..].
  cbn [mbind outcome_bind] in *. by injection Hopen as <-.
Qed.

(** Patching the metadata of a fresh block. *)
Lemma patch_meta_eq `{JsonLaws} level sources dir d series b files fs :
  calls d = [] → block_holds dir d series b → dirs d !! dir = Some (mkDir files (Some fs)) →
  read_meta files = Ok (Block.meta_ b) → MetaFacts.meta_ok (Block.meta_ b) →
  BlockMeta.version (Block.meta_ b) = k_meta_version_1 → 0 <= level → level + 1 < 2 ^ 31 → Forall utf8 sources →
  ∃ d2, patch_meta level sources dir d = (Ok tt, d2) ∧ (∀ dir', dir' ≠ dir → dirs d2 !! dir' = dirs d !! dir') ∧
    block_holds dir d2 series (Block.mk dir (patched (level + 1) sources (Block.meta_ b)) (Block.index_ b) (Block.chunks_ b)).
Proof.
  intros Hcalls Hholds Hdir Hread (Hv1 & Hu & Hmin & Hmax & Hstats & _ & _ & Hp & Hh) Hv Hl0 Hlevel Hsrc.
  assert (MetaFacts.meta_ok (patched (level + 1) sources (Block.meta_ b))) as Hok.
  { split_and!; try done; [apply Hv1|apply Hv1|]. split_and!; [cbn; lia|cbn; lia|done..]. }
  destruct (write_meta_eq _ files Hok Hv) as (files' & Hwrite & Hread' & Hother & _). destruct d as [ds scr]. cbn [calls dirs] in *. subst scr.
  exists (mkDisk (<[dir := mkDir files' (Some fs)]> ds) []). split_and!.
  - unfold patch_meta, rbind, dir_of. cbn [dirs]. rewrite Hdir. cbn [default from_option id dir_files]. rewrite Hread.
    destruct (Z.leb_spec (2 ^ 31) (level + 1)); [lia|]. by apply (in_files_eq dir _ _ ds files).
  - intros dir' Hne. by apply lookup_insert_ne.
  - eapply patched_holds; [exact Hholds|exact Hdir|apply lookup_insert_eq|done|by apply Hother].
Qed.

(** What [compact] does with the inputs it has gathered. *)
Lemma compact_eq `{JsonLaws} `{StdOrderLaws} (now : Z) (random : list Z) (input_dirs : list str) (d : Disk) (xs : list source) inputs :
  let ulid := new_ulid now random in
  input_dirs ≠ [] → calls d = [] → dirs d !! ulid = None →
  Forall (λ x, level_of x + 1 < 2 ^ 31 ∧ Forall utf8 (sources_of x)) xs →
  compact_inputs input_dirs d = Ok (inputs, max_level 0 xs, all_sources [] xs) → input_ok inputs →
  ∃ d' b, compact now random input_dirs d = (Ok ulid, d') ∧ (∀ dir, dir ≠ ulid → dirs d' !! dir = dirs d !! dir) ∧
    block_holds ulid d' inputs b ∧ level_of (inputs, b) = max_level 0 xs + 1 ∧ sources_of (inputs, b) = all_sources [] xs.
Proof.
  intros ulid Hne Hcalls Hnew Hmetas Hinputs Hok.
  destruct (created now random inputs d Hcalls Hnew Hok) as (d1 & dir & b & Hcreate & Hcalls1 & Hdirs & Hholds & Hread & Hmeta & Hv & _).
  destruct (all_sources_spec [] xs) as [_ Hsources]; [constructor|].
  destruct (max_level_spec 0 xs) as (Hl0 & _ & Hmax). rewrite Forall_forall in Hmetas.
  pose proof Hholds as (files & fs & vs & Hdir & _). rewrite Hdirs, lookup_insert_eq in Hdir. injection Hdir as ->. cbn [dir_files] in Hread.
  destruct (patch_meta_eq (max_level 0 xs) (all_sources [] xs) ulid d1 inputs b files fs) as (d2 & Hpatch & Hother & Hholds2); try done.
  { rewrite Hdirs. apply lookup_insert_eq. }
  { destruct Hmax as [->|(x & Hx & ->)]; [done|]. by apply Hmetas. }
  { apply Forall_forall. intros s [?%elem_of_nil|(x & Hx & Hs)]%Hsources; [done|]. destruct (Hmetas x Hx) as [_ Hu].
    rewrite Forall_forall in Hu. by apply Hu. }
  eexists d2, _. split_and!; [| |exact Hholds2|done..].
  - unfold compact. destruct input_dirs as [|i input_dirs]; [done|]. unfold lift. rewrite Hinputs. unfold rbind at 1. cbn beta iota.
    rewrite (rbind_ok _ _ _ _ _ Hcreate). by rewrite (rbind_ok _ _ _ _ _ Hpatch).
  - intros dir' Hdir'. rewrite Hother, Hdirs by done. by apply lookup_insert_ne.
Qed.

(** C19: compaction. Given directories whose blocks open and hold series with
    labels that can be stored and chunks that decode to bounded timestamps,
    [compact] gathers every label set once; the samples of each are, in strict
    order of time, for every timestamp the sample that comes last when the
    blocks are read in the order given; its chunks announce the times of their
    first and last samples. When that result fits a block, [compact] returns the
    new directory, which opens as a block holding it, with a level above that of
    every input and the sources of all of them in order; the other directories
    are untouched. *)
Theorem compact_merges `{JsonLaws} `{StdOrderLaws} (now : Z) (random : list Z) (input_dirs : list str) (d : Disk) (xs : list source) :
  let ulid := new_ulid now random in
  input_dirs ≠ [] → calls d = [] → dirs d !! ulid = None → Forall2 (λ dir x, block_holds dir d x.1 x.2) input_dirs xs →
  Forall mergeable (all_series xs) → Forall (λ x, level_of x + 1 < 2 ^ 31 ∧ Forall utf8 (sources_of x)) xs →
  ∃ inputs level sources, compact_inputs input_dirs d = Ok (inputs, level, sources) ∧ compacted (all_series xs) inputs ∧
    (input_ok inputs →
      ∃ d' b, compact now random input_dirs d = (Ok ulid, d') ∧ (∀ dir, dir ≠ ulid → dirs d' !! dir = dirs d !! dir) ∧
        block_holds ulid d' inputs b ∧
        (∀ x, x ∈ xs → level_of x < level_of (inputs, b)) ∧
        ascending str_ltb (sources_of (inputs, b)) ∧
        ∀ s, s ∈ sources_of (inputs, b) ↔ ∃ x, x ∈ xs ∧ s ∈ sources_of x).
Proof.
  intros ulid Hne Hcalls Hnew Hall Hmerge Hmetas.
  destruct (compact_inputs_eq d input_dirs xs Hall Hmerge) as (inputs & Hinputs & Hcompacted & _).
  exists inputs, (max_level 0 xs), (all_sources [] xs). split; [done|]. split; [done|]. intros Hok.
  destruct (compact_eq now random input_dirs d xs inputs Hne Hcalls Hnew Hmetas Hinputs Hok) as (d' & b & Hcompact & Hother & Hholds & Hlevel & Hsrc).
  destruct (all_sources_spec [] xs) as [Hasc Hsources]; [constructor|]. destruct (max_level_spec 0 xs) as (_ & Hlevels & _).
  exists d', b. rewrite Hlevel, Hsrc. split_and!; [done..| |done|].
  - intros x Hx. specialize (Hlevels x Hx). lia.
  - intros s. rewrite Hsources. split; [|by right]. intros [?%elem_of_nil|?]; done.
Qed.

(** A block is untouched by what happens elsewhere. *)
Lemma holds_kept `{Json} dir d d2 series b :
  block_holds dir d series b → dirs d2 !! dir = dirs d !! dir → block_holds dir d2 series b.
Proof.
  intros (files & fs & vs & Hdir & Hopen & Hrest) Heq. exists files, fs, vs. rewrite Heq. split; [done|]. split; [|done].
  rewrite <- Hopen. unfold Block.open. by rewrite Heq.
Qed.

#[export] Instance input_decodes_dec ci : Decision (fits (input_list ci)).
Proof. unfold fits. apply _. Defined.

#[export] Instance input_ok_dec series : Decision (input_ok series).
Proof. unfold input_ok. apply _. Defined.

#[local] Existing Instance plain_order.
#[local] Existing Instance TreeJson.tree_laws.

(** Two blocks with different values at the same time; the second one wins. *)
Lemma compact_merges_witness :
  let s v := [mkSeriesInput [mkLabel [97] [98]] [mkChunkInput 5 5 [0; 1; 10; 0; 0; 0; 0; 0; 0; 0; v]]] in
  let u1 := new_ulid 1700000000000 [1; 2; 3] in
  let u2 := new_ulid 1700000000000 [4; 5; 6] in
  let ulid := new_ulid 1700000000001 [7; 8; 9] in
  let d1 := snd (create_from_series (H := TreeJson.tree_json) 1700000000000 [1; 2; 3] (s 7) (mkDisk ∅ [])) in
  let d2 := snd (create_from_series (H := TreeJson.tree_json) 1700000000000 [4; 5; 6] (s 9) d1) in
  ∃ b1 b2, block_holds (H := TreeJson.tree_json) u1 d2 (s 7) b1 ∧ block_holds (H := TreeJson.tree_json) u2 d2 (s 9) b2 ∧
    let xs := [(s 7, b1); (s 9, b2)] in
    ∃ inputs level sources, compact_inputs (H := TreeJson.tree_json) [u1; u2] d2 = Ok (inputs, level, sources) ∧
      compacted (all_series xs) inputs ∧ input_ok inputs ∧
      (input_ok inputs →
        ∃ d' b, compact (H := TreeJson.tree_json) 1700000000001 [7; 8; 9] [u1; u2] d2 = (Ok ulid, d') ∧
          (∀ dir, dir ≠ ulid → dirs d' !! dir = dirs d2 !! dir) ∧
          block_holds (H := TreeJson.tree_json) ulid d' inputs b ∧
          (∀ x, x ∈ xs → level_of x < level_of (inputs, b)) ∧
          ascending str_ltb (sources_of (inputs, b)) ∧
          ∀ s, s ∈ sources_of (inputs, b) ↔ ∃ x, x ∈ xs ∧ s ∈ sources_of x).
Proof.
  intros s u1 u2 ulid d1 d2.
  assert (∀ v, bool_decide (input_ok (s v)) = true → input_ok (s v)) as Hok by (intros v; apply bool_decide_eq_true).
  destruct (created (J := TreeJson.tree_json) 1700000000000 [1; 2; 3] (s 7) (mkDisk ∅ []) eq_refl (lookup_empty _) (Hok 7 eq_refl))
    as (e1 & dir1 & b1 & He1 & Hc1 & Hd1 & Hb1 & _ & _ & _ & _ & Hm1 & _).
  assert (d1 = e1) as <- by (unfold d1; by rewrite He1). fold u1 in Hd1, Hb1.
  assert (dirs d1 !! u2 = None) as Hnew by (rewrite Hd1, lookup_insert_ne; [done|]; vm_compute; discriminate).
  destruct (created (J := TreeJson.tree_json) 1700000000000 [4; 5; 6] (s 9) d1 Hc1 Hnew (Hok 9 eq_refl))
    as (e2 & dir2 & b2 & He2 & Hc2 & Hd2 & Hb2 & _ & _ & _ & _ & Hm2 & _).
  assert (d2 = e2) as <- by (unfold d2; by rewrite He2). fold u2 in Hd2, Hb2.
  assert (block_holds (H := TreeJson.tree_json) u1 d2 (s 7) b1) as Hb1'.
  { apply (holds_kept _ d1); [done|]. rewrite Hd2. apply lookup_insert_ne. vm_compute. discriminate. }
  exists b1, b2. split; [done|]. split; [done|]. intros xs.
  destruct (compact_merges (J := TreeJson.tree_json) (O0 := plain_order) 1700000000001 [7; 8; 9] [u1; u2] d2 xs) as (inputs & level & sources & Hinputs & Hrest).
  - discriminate.
  - done.
  - rewrite Hd2, Hd1, !lookup_insert_ne; [done|vm_compute; discriminate..].
  - apply Forall2_cons_2; [exact Hb1'|]. apply Forall2_cons_2; [exact Hb2|apply Forall2_nil_2].
  - assert (∀ v, labels_ok (si_labels (hd (mkSeriesInput [] []) (s v)))) as Hl by (intros v; apply (bool_decide_unpack _); vm_compute; exact I).
    constructor; [split; [apply (Hl 7)|]|constructor; [split; [apply (Hl 9)|]|constructor]];
      (constructor; [|constructor]; split; [vm_compute; eexists; reflexivity|apply (bool_decide_unpack _); vm_compute; exact I]).
  - constructor; [|constructor; [|constructor]]; unfold level_of, sources_of; cbn [fst snd]; rewrite ?Hm1, ?Hm2;
      (split; [cbn; lia|repeat constructor]).
  - exists inputs, level, sources. split; [exact Hinputs|]. destruct Hrest as [Hcompacted Hrest]. split; [exact Hcompacted|].
    split; [|exact Hrest].
    assert (match compact_inputs (H := TreeJson.tree_json) [u1; u2] d2 with Ok (i, _, _) => bool_decide (input_ok i) | _ => false end = true) as Hcheck
      by (vm_compute; reflexivity).
    rewrite Hinputs in Hcheck. by apply bool_decide_eq_true in Hcheck.
Defined.

End MergeProps.
