(* ===== verification/Pipeline.v ===== *)
(** The life of a sample, end to end: heads are flushed to blocks, the blocks
    are compacted into one, and the samples of the heads are what queries on it
    return. The file composes the contracts of [Flush], [Merge] and
    [BlockSelect]; it has no definitions that model code. *)

From S2P Require Import Prelude Ordered Sorted Containers Files Varint Bytes Crc32c Labels Matcher Record BStream Xor Segment Chunks Query Index IndexWriter Ulid Meta MemSeries SeriesStore Head Block BlockSelect BlockIndex BlockCreate Compact Flush Merge.

Module PipelineFacts.
Import BytesFacts ChunksFacts HeadFacts MemSeriesFacts MemSeriesProps BlockSelectFacts BlockIndexFacts BlockCreateFacts FlushFacts MergeFacts MergeProps.

(** ** Flushing heads *)

(** The samples of the series with the labels [l]. *)
Definition stored_samples (ss : list MemSeries.t) (l : Labels.t) : list (Z * Z) :=
  filter (λ s, MemSeries.labels_ s = l) ss ≫= λ s, default [] (MemSeriesFacts.read_back s).

Lemma inputs_decode sss cis : Forall2 input_samples sss cis → fits (concat sss) → Forall input_decodes cis.
Proof.
  induction 1 as [|ss ci sss cis (Hss & _) _ IH]; [constructor|]. cbn [concat]. intros [Hf Hfits]%Forall_app.
  constructor; [|by apply IH]. split; [by exists ss|]. unfold input_list. by rewrite Hss.
Qed.

(** The samples of a series in the order of time, chunk by chunk. *)
Definition in_order (si : SeriesInput) : Prop :=
  StronglySorted (λ a b : Z * Z, a.1 <= b.1) (si_chunks si ≫= input_list) ∧ Forall input_spans (si_chunks si).

Lemma inputs_span sss cis : Forall2 input_samples sss cis → Forall input_spans cis.
Proof.
  induction 1 as [|ss ci sss cis (Hss & Hends) _ IH]; constructor; [|done]. unfold input_spans, input_list. by rewrite Hss.
Qed.

Lemma head_inputs_samples ss inputs :
  Forall flushable ss → head_inputs ss = Ok inputs →
  Forall mergeable inputs ∧ Forall in_order inputs ∧ ∀ l, samples_in inputs l = stored_samples ss l.
Proof.
  intros Hss. revert inputs. induction Hss as [|s ss (Hl & samples & Hs & Hfits) _ IH]; intros inputs; cbn [head_inputs]; [by intros [= <-]; split_and!; constructor|].
  pose proof (represents_read _ _ (proj1 Hs)) as Hread.
  assert (∀ l, stored_samples (s :: ss) l = (if decide (MemSeries.labels_ s = l) then samples else []) ++ stored_samples ss l) as Hstored.
  { intros l. unfold stored_samples. rewrite filter_cons. case_decide; [|done]. by rewrite bind_cons, Hread. }
  destruct (Z.eqb_spec (MemSeries.num_samples s) 0) as [Hz|Hnz].
  { intros Hin. destruct (IH inputs Hin) as (Hm & Ho & Hsam). split; [done|]. split; [done|]. intros l. rewrite Hstored, Hsam.
    unfold MemSeriesFacts.read_back in Hread. rewrite (empty_series s samples Hs Hz) in Hread. injection Hread as <-. by case_decide. }
  destruct (represents_chunks s samples (proj1 Hs)) as (sss & -> & Hdone).
  destruct (chunk_inputs sss _ Hdone) as (cis & Hcis & _ & Hall & _). unfold MemSeries.chunks.
  rewrite Hcis. cbn [mbind outcome_bind]. destruct (head_inputs ss) as [rest|e|]; [|done..]. cbn [mbind outcome_bind].
  destruct (IH rest eq_refl) as (Hm & Ho & Hsam). pose proof (inputs_decode _ _ Hall Hfits) as Hdec. rewrite <- (input_samples_list _ _ Hall) in Hstored.
  destruct cis as [|ci cis]; intros [= <-].
  { split; [done|]. split; [done|]. intros l. rewrite Hstored, Hsam. by case_decide. }
  split; [by constructor|]. split.
  { constructor; [|done]. split; [|by eapply inputs_span]. cbn [si_chunks]. rewrite (input_samples_list _ _ Hall). apply Hs. }
  intros l. rewrite Hstored, <- Hsam. unfold samples_in. rewrite filter_cons. cbn [si_labels]. by case_decide.
Qed.

(** The samples of a store are those of its abstract state, the map [view] from
    label sets to samples that [Head.append] refines. *)
Lemma slots_nodup (f : Labels.t → option Z) slots k :
  (∀ i s, slots !! i = Some (Some s) → f (MemSeries.labels_ s) = Some (k + Z.of_nat i)) →
  NoDup (MemSeries.labels_ <$> omap id slots).
Proof.
  revert k. induction slots as [|o slots IH]; intros k Hf; [constructor|].
  assert (NoDup (MemSeries.labels_ <$> omap id slots)) as Hnd.
  { apply (IH (k + 1)). intros i s Hi. rewrite (Hf (S i) s Hi). f_equal. lia. }
  destruct o as [s|]; [|exact Hnd]. rewrite omap_cons. cbn [id]. rewrite fmap_cons. apply NoDup_cons. split; [|exact Hnd].
  intros (s' & Heq & (o & Ho & Hs')%list_elem_of_omap)%list_elem_of_fmap. unfold id in Hs'. subst o.
  apply list_elem_of_lookup in Ho as [i Hi]. pose proof (Hf 0%nat s eq_refl) as H0. pose proof (Hf (S i) s' Hi) as H1. rewrite <- Heq, H0 in H1.
  injection H1. lia.
Qed.

Lemma stored_samples_view st l : store_ok st → stored_samples (SeriesStore.all_series st) l = default [] (HeadFacts.view st l).
Proof.
  intros [Hwf Hss]. pose proof (SeriesStore.wf_slot _ Hwf) as Hslot.
  assert (NoDup (MemSeries.labels_ <$> SeriesStore.all_series st)) as Hnd.
  { apply (slots_nodup (λ l, SeriesStore.by_labels_ st !! l) _ 1). intros i s Hi.
    destruct (Hslot i s) as [_ ->]; [by apply SeriesStoreFacts.slot_eq|]. f_equal. lia. }
  assert (∀ i s, SeriesStore.slot st i = Some s → s ∈ SeriesStore.all_series st) as Hin.
  { intros i s Hi. apply SeriesStoreFacts.slot_eq in Hi. apply list_elem_of_omap. exists (Some s). split; [by eapply list_elem_of_lookup_2|done]. }
  unfold stored_samples, HeadFacts.view. destruct (SeriesStore.by_labels_ st !! l) as [r|] eqn:Hl; cbn [mbind option_bind].
  - destruct (SeriesStore.wf_labels _ Hwf l r Hl) as (_ & s & Hs & <-). rewrite Hs, (filter_unique MemSeries.labels_) by (done || by eapply Hin).
    cbn [mbind option_bind]. by rewrite bind_cons, app_nil_r.
  - rewrite filter_none; [done|]. apply Forall_forall. intros s Hs <-.
    apply list_elem_of_omap in Hs as (o & Ho & Hos). unfold id in Hos. subst o. apply list_elem_of_lookup in Ho as [i Hi].
    apply SeriesStoreFacts.slot_eq, Hslot in Hi as [_ Hi]. by rewrite Hl in Hi.
Qed.

(** A head that can be flushed. *)
Definition head_ok (h : Head.t) : Prop :=
  let ss := SeriesStore.all_series (Head.series_ h) in
  store_ok (Head.series_ h) ∧ Forall flushable ss ∧ 210 + zsum mem_series_room ss <= 2 ^ 32 ∧
  Z.of_nat (length (segments (place_all k_default_chunks_segment_size ([], []) (mem_chunks ss)).1)) < 10 ^ 6.

(** The samples a head holds under the labels [l], by its abstract state. *)
Definition head_samples (h : Head.t) (l : Labels.t) : list (Z * Z) := default [] (HeadFacts.view (Head.series_ h) l).

(** A flush: the clock and the random bytes it reads, and the head. *)
Definition job : Type := Z * list Z * Head.t.
Definition job_ulid (j : job) : str := new_ulid j.1.1 j.1.2.

(** The block a job leaves, together with its series. *)
Definition flushed `{Json} (j : job) (x : source) : Prop :=
  Forall mergeable x.1 ∧ (∀ l, samples_in x.1 l = head_samples j.2 l) ∧ level_of x = 1 ∧ sources_of x = [job_ulid j] ∧
  Forall in_order x.1 ∧
  ∀ s c, s ∈ x.1 → c ∈ si_chunks s →
    BlockMeta.min_time (Block.meta_ x.2) <= ci_min_time c ∧ ci_max_time c <= BlockMeta.max_time (Block.meta_ x.2).

Fixpoint flush_all `{Json} (jobs : list job) : D (list str) :=
  match jobs with
  | [] => rret []
  | j :: jobs => dir <~ create_from_head j.1.1 j.1.2 j.2 ;; dirs <~ flush_all jobs ;; rret (dir :: dirs)
  end.

Lemma flush_one `{JsonLaws} (j : job) (d : Disk) :
  calls d = [] → dirs d !! job_ulid j = None → head_ok j.2 →
  ∃ d' x, create_from_head j.1.1 j.1.2 j.2 d = (Ok (job_ulid j), d') ∧ calls d' = [] ∧
    (∀ dir, dir ≠ job_ulid j → dirs d' !! dir = dirs d !! dir) ∧ block_holds (job_ulid j) d' x.1 x.2 ∧ flushed j x.
Proof.
  intros Hcalls Hnew (Hst & Hss & Hroom & Hlen). destruct (head_inputs_eq _ Hss) as (inputs & Hinputs & Hok & Hle & Hchunks).
  destruct (head_inputs_samples _ _ Hss Hinputs) as (Hm & Ho & Hsam).
  destruct (created j.1.1 j.1.2 inputs d Hcalls Hnew) as (d' & dir & b & Hcreate & Hcalls' & Hdirs & Hholds & _ & _ & _ & _ & Hc & _ & _ & Hspan);
    [split_and!; [done|lia|by rewrite Hchunks]|].
  exists d', (inputs, b). split_and!; [|done| |done|].
  - unfold create_from_head. rewrite Hinputs. exact Hcreate.
  - intros dir' Hne. rewrite Hdirs. by apply lookup_insert_ne.
  - unfold flushed, level_of, sources_of, head_samples. cbn [fst snd]. rewrite Hc. split_and!; [done| |done|done|done|done].
    intros l. by rewrite Hsam, stored_samples_view.
Qed.

Lemma flush_all_eq `{JsonLaws} (jobs : list job) (d : Disk) :
  calls d = [] → NoDup (job_ulid <$> jobs) → Forall (λ j, dirs d !! job_ulid j = None ∧ head_ok j.2) jobs →
  ∃ d' xs, flush_all jobs d = (Ok (job_ulid <$> jobs), d') ∧ calls d' = [] ∧
    (∀ dir, dir ∉ job_ulid <$> jobs → dirs d' !! dir = dirs d !! dir) ∧
    Forall2 (λ j x, block_holds (job_ulid j) d' x.1 x.2 ∧ flushed j x) jobs xs.
Proof.
  intros Hcalls Hnd Hjobs. revert d Hcalls Hnd Hjobs. induction jobs as [|j jobs IH]; intros d Hcalls Hnd Hjobs; [by exists d, []|].
  rewrite fmap_cons in Hnd. apply NoDup_cons in Hnd as [Hj Hnd]. apply Forall_cons_1 in Hjobs as [[Hnew Hok] Hjobs].
  destruct (flush_one j d Hcalls Hnew Hok) as (d1 & x & Hflush & Hcalls1 & Hother1 & Hx & Hfl).
  destruct (IH d1 Hcalls1 Hnd) as (d2 & xs & Hrest & Hcalls2 & Hother2 & Hall).
  { rewrite Forall_forall in *. intros j' Hj'. destruct (Hjobs j' Hj') as [Hnew' ?]. split; [|done].
    rewrite Hother1; [done|]. intros Heq. apply Hj. rewrite <- Heq. by apply list_elem_of_fmap_2. }
  exists d2, (x :: xs). split_and!; [|done| |].
  - cbn [flush_all]. rewrite (rbind_ok _ _ _ _ _ Hflush). by rewrite (rbind_ok _ _ _ _ _ Hrest).
  - intros dir. rewrite fmap_cons. intros [Hd Hdirs]%not_elem_of_cons. by rewrite Hother2, Hother1.
  - constructor; [|done]. split; [|done]. apply (holds_kept _ d1); [done|]. by apply Hother2.
Qed.

Lemma flushed_samples `{Json} jobs xs l :
  Forall2 flushed jobs xs → samples_in (all_series xs) l = jobs ≫= λ j, head_samples j.2 l.
Proof.
  induction 1 as [|j x jobs xs (_ & Hsam & _) _ IH]; [done|]. rewrite bind_cons, <- IH, <- Hsam.
  unfold samples_in, all_series. by rewrite bind_cons, filter_app, bind_app.
Qed.

(** What a flush leaves can be compacted. *)
Lemma flushed_ready `{JsonLaws} jobs xs :
  Forall2 flushed jobs xs →
  Forall mergeable (all_series xs) ∧ Forall (λ x, level_of x + 1 < 2 ^ 31 ∧ Forall utf8 (sources_of x)) xs.
Proof.
  induction 1 as [|j x jobs xs (Hm & _ & Hl & Hs & _) _ [IHm IHs]]; [split; constructor|]. split.
  - unfold all_series. rewrite bind_cons. by apply Forall_app.
  - constructor; [|done]. rewrite Hl, Hs. split; [lia|].
    apply Forall_cons_2; [unfold job_ulid; apply (ulid_utf8 j.1.1 j.1.2)|apply Forall_nil_2].
Qed.

(** ** Querying what was compacted *)

(** The samples in the chunks that results return for the labels [l]. *)
Definition result_samples (l : Labels.t) (rs : list QueryResult) : list (Z * Z) :=
  filter (λ qr, qr_labels qr = l) rs ≫= λ qr, qr_chunks qr ≫= λ c, default [] (chunk_list c).

Definition view_samples (mint maxt : Z) (v : view) : list (Z * Z) :=
  filter (λ c : ChunkMeta * list Z, overlaps mint maxt c.1 = true) (vw_chunks v) ≫= λ c, input_list (input_of c).

Lemma result_samples_eq mint maxt l ws :
  result_samples l (omap (result_of mint maxt) ws) = filter (λ v, vw_labels v = l) ws ≫= view_samples mint maxt.
Proof.
  induction ws as [|v ws IH]; [done|]. rewrite omap_cons, filter_cons. unfold result_of at 1.
  assert (view_samples mint maxt v = filter (λ c : ChunkMeta * list Z, overlaps mint maxt c.1 = true) (vw_chunks v) ≫= λ c, input_list (input_of c))
    as Hv by done.
  destruct (filter (λ c : ChunkMeta * list Z, _) (vw_chunks v)) as [|c cs].
  { rewrite IH. case_decide; [|done]. by rewrite bind_cons, Hv. }
  unfold result_samples in *. rewrite filter_cons. cbn [qr_labels]. case_decide; [|done].
  rewrite !bind_cons, IH, Hv. f_equal. cbn [qr_chunks]. by rewrite bind_fmap.
Qed.

Lemma result_labels mint maxt ws : sublist (qr_labels <$> omap (result_of mint maxt) ws) (vw_labels <$> ws).
Proof.
  induction ws as [|v ws IH]; [done|]. rewrite omap_cons. unfold result_of at 1.
  destruct (filter _ (vw_chunks v)) as [|c cs]; [by apply sublist_cons|by apply sublist_skip].
Qed.

Lemma shown_labels series vs : Forall2 shows series vs → vw_labels <$> vs = si_labels <$> series.
Proof. induction 1 as [|s v series vs [Hl _] _ IH]; [done|]. by rewrite !fmap_cons, Hl, IH. Qed.

(** The chunks in the range hold every sample of the range. *)
Lemma view_samples_in mint maxt si v :
  shows si v → in_order si →
  ∀ x, mint <= x.1 <= maxt → x ∈ view_samples mint maxt v ↔ x ∈ (si_chunks si ≫= input_list).
Proof.
  intros [_ Hcs] [Hle Hspans] x Hx. rewrite <- Hcs in *. rewrite bind_fmap in *. unfold view_samples.
  set (g := λ c : ChunkMeta * list Z, input_list (input_of c)) in *.
  split; [by apply elem_of_sublist, bind_sublist, sublist_filter|].
  intros (c & Hin & Hc)%list_elem_of_bind. apply list_elem_of_bind. exists c. split; [done|]. apply list_elem_of_filter. split; [|done].
  rewrite Forall_fmap, Forall_forall in Hspans. destruct (Hspans c Hc) as (a & b & Ha & Hb & Hmin & Hmax).
  assert (StronglySorted (λ a b : Z * Z, a.1 <= b.1) (g c)) as Hsorted.
  { eapply StronglySorted_sublist; [|exact Hle].
    apply list_elem_of_split in Hc as (l1 & l2 & ->). rewrite bind_app, bind_cons. by apply sublist_inserts_l, sublist_inserts_r. }
  pose proof (sorted_ends _ _ _ _ Hsorted Ha Hb Hin) as Hends. cbn [input_of ci_min_time ci_max_time] in *. unfold overlaps. lia.
Qed.

Lemma view_samples_strict mint maxt si v :
  shows si v → strict (si_chunks si ≫= input_list) → strict (view_samples mint maxt v).
Proof.
  intros [_ <-] Hstrict. rewrite bind_fmap in Hstrict. eapply StronglySorted_sublist; [|exact Hstrict].
  apply bind_sublist, sublist_filter.
Qed.

(** A label set with a sample is in the block. *)
Lemma compacted_present series inputs l x :
  compacted series inputs → last (at_time x.1 (samples_in series l)) = Some x → l ∈ (si_labels <$> with_chunks inputs).
Proof.
  intros (_ & Hlabels & Hall) Hx.
  assert (x ∈ samples_in series l) as Hin by (apply last_Some_elem_of, list_elem_of_filter in Hx; apply Hx).
  apply list_elem_of_bind in Hin as (s & Hin & [<- Hs]%list_elem_of_filter).
  assert (si_labels s ∈ (si_labels <$> inputs)) as (si & Hl & Hsi)%list_elem_of_fmap.
  { apply Hlabels, list_elem_of_fmap_2, list_elem_of_filter. split; [|done]. intros Hnil. rewrite Hnil in Hin. by apply elem_of_nil in Hin. }
  rewrite Hl. apply list_elem_of_fmap_2, list_elem_of_filter. split; [|done]. intros Hnil.
  destruct (Hall si Hsi) as (_ & Hsam & _). rewrite Hl in Hx. apply Hsam in Hx. rewrite Hnil in Hx. by apply elem_of_nil in Hx.
Qed.

(** The answer of a block with compacted series: every label set once, and the
    last sample of every timestamp in the range. *)
Lemma compacted_select `{RegexEngine} series inputs vs ms mint maxt :
  compacted series inputs → Forall2 shows (with_chunks inputs) vs →
  let rs := omap (result_of mint maxt) (filter (accepts ms) vs) in
  NoDup (qr_labels <$> rs) ∧
  ∀ l, strict (result_samples l rs) ∧ ∀ x, mint <= x.1 <= maxt →
    x ∈ result_samples l rs ↔ labels_match_all l ms = true ∧ last (at_time x.1 (samples_in series l)) = Some x.
Proof.
  intros Hc Hshows rs. pose proof Hc as (Hnd & _ & Hall). pose proof (shown_labels _ _ Hshows) as Hvl.
  assert (NoDup (vw_labels <$> vs)) as Hndv by (rewrite Hvl; eapply sublist_NoDup; [exact Hnd|]; apply sublist_fmap, sublist_filter).
  split. { eapply sublist_NoDup; [exact Hndv|]. etransitivity; [apply result_labels|]. apply sublist_fmap, sublist_filter. }
  intros l. unfold rs. rewrite result_samples_eq, list_filter_filter.
  destruct (labels_match_all l ms) eqn:Hm; cycle 1.
  { rewrite filter_none; [split; [constructor|]; intros x _; split; [by intros ?%elem_of_nil|by intros [? _]]|].
    apply Forall_forall. intros v _ [<- Ha]. unfold accepts in Ha. congruence. }
  rewrite (list_filter_iff _ (λ v, vw_labels v = l)) by (intros v; unfold accepts; split; [by intros []|by intros <-]).
  destruct (decide (l ∈ vw_labels <$> vs)) as [(v & -> & Hv)%list_elem_of_fmap|Hl].
  - rewrite filter_unique by done. rewrite bind_cons, app_nil_r.
    apply list_elem_of_lookup in Hv as [i Hv]. destruct (Forall2_lookup_r _ _ _ _ _ Hshows Hv) as (si & Hsi & Hshow).
    apply list_elem_of_lookup_2, list_elem_of_filter in Hsi as [_ Hsi]. destruct (Hall si Hsi) as (Hstrict & Hsam & Hspans).
    assert (in_order si) as Hio by (split; [|done]; apply (StronglySorted_weaken (λ a b : Z * Z, a.1 < b.1)); [intros; lia|exact Hstrict]).
    split; [by eapply view_samples_strict|]. intros x Hx. rewrite (view_samples_in mint maxt si v Hshow Hio x Hx), Hsam. destruct Hshow as [-> _]. tauto.
  - rewrite filter_none by (apply Forall_forall; intros v Hv <-; apply Hl; by apply list_elem_of_fmap_2). split; [constructor|].
    intros x _. split; [by intros ?%elem_of_nil|]. intros [_ Hx]. destruct Hl. rewrite Hvl. by eapply compacted_present.
Qed.

(** A check of [head_ok], for a head with one sample. *)
Definition head_check (h : Head.t) : bool :=
  let ss := SeriesStore.all_series (Head.series_ h) in
  forallb (λ s, bool_decide (labels_ok (MemSeries.labels_ s)) &&
    match read_back s with Some l => forallb sample_fits l | None => false end) ss &&
  (210 + zsum mem_series_room ss <=? 2 ^ 32) &&
  (Z.of_nat (length (segments (place_all k_default_chunks_segment_size ([], []) (mem_chunks ss)).1)) <? 10 ^ 6).

Lemma sample_head_ok l t v :
  is_Some (SeriesStore.get_or_create l SeriesStore.new) → is_i64 t && is_u64 v && head_check (sample_head l t v) = true →
  head_ok (sample_head l t v).
Proof.
  intros Hget [Htv [[Hfits Hroom]%andb_prop Hlen]%andb_prop]%andb_prop. pose proof (sample_head_store l t v Hget Htv) as Hst.
  split_and!; [exact Hst|exact (flushable_check _ (store_ok_all _ Hst) Hfits)|by apply Z.leb_le in Hroom|by apply Z.ltb_lt in Hlen].
Qed.

End PipelineFacts.

Module PipelineProps.
Import BytesFacts ChunksFacts HeadFacts MemSeriesFacts MemSeriesProps BlockSelectFacts BlockIndexFacts BlockCreateFacts FlushFacts MergeFacts MergeProps PipelineFacts.

(** C4: end to end. On a disk where no call fails and the new names are free
    and distinct, heads in the state appending leaves them in are flushed to a
    block each, and the blocks can be gathered; when what is gathered fits a
    block, [compact] leaves one that opens, and every query on it with at least
    one matcher returns every label set once, its samples in strict order of
    time, and for every timestamp of the range the sample of the last head in
    order, and in it the last one appended, for exactly the label sets that the
    matchers accept: no sample is lost, invented or resurrected between a head
    and the answer. The samples of a head are those of its abstract state, the
    map from label sets to samples that [Head.append] refines. *)
Theorem flush_compact_query `{JsonLaws} `{RegexEngine} `{StdOrderLaws} (jobs : list job) (now : Z) (random : list Z) (d : Disk) :
  let ulid := new_ulid now random in
  jobs ≠ [] → calls d = [] → NoDup (ulid :: (job_ulid <$> jobs)) → dirs d !! ulid = None →
  Forall (λ j, dirs d !! job_ulid j = None ∧ head_ok j.2) jobs →
  ∃ ds d1 inputs level sources, flush_all jobs d = (Ok ds, d1) ∧ compact_inputs ds d1 = Ok (inputs, level, sources) ∧
    (input_ok inputs →
      ∃ d2 fs b, compact now random ds d1 = (Ok ulid, d2) ∧ dir_chunks (dir_of ulid d2) = Some fs ∧ Block.open ulid d2 = Ok b ∧
        ∀ ms mint maxt, ms ≠ [] → Forall matcher_ok ms →
          ∃ rs b', Block.select fs ms mint maxt b = (Ok rs, b') ∧ NoDup (qr_labels <$> rs) ∧
            ∀ l, strict (result_samples l rs) ∧ ∀ x, mint <= x.1 <= maxt →
              x ∈ result_samples l rs ↔
                labels_match_all l ms = true ∧ last (at_time x.1 (jobs ≫= λ j, head_samples j.2 l)) = Some x).
Proof.
  intros ulid Hne Hcalls Hnd Hnew Hjobs. apply NoDup_cons in Hnd as [Hulid Hnd].
  destruct (flush_all_eq jobs d Hcalls Hnd Hjobs) as (d1 & xs & Hflush & Hcalls1 & Hother & Hall).
  assert (Forall2 (λ dir x, block_holds dir d1 x.1 x.2) (job_ulid <$> jobs) xs) as Hholds
    by (apply Forall2_fmap_l; eapply Forall2_impl; [exact Hall|]; by intros j x []).
  assert (Forall2 flushed jobs xs) as Hfl by (eapply Forall2_impl; [exact Hall|]; by intros j x []).
  destruct (flushed_ready jobs xs Hfl) as [Hmerge Hmetas].
  destruct (compact_inputs_eq d1 _ xs Hholds Hmerge) as (inputs & Hinputs & Hcompacted & _).
  exists (job_ulid <$> jobs), d1, inputs, (max_level 0 xs), (all_sources [] xs). split; [done|]. split; [done|]. intros Hok.
  destruct (compact_eq now random (job_ulid <$> jobs) d1 xs inputs) as (d2 & b & Hcompact & _ & Hb & _); [by destruct jobs|exact Hcalls1| |exact Hmetas|exact Hinputs|exact Hok|].
  { fold ulid. rewrite (Hother ulid Hulid). exact Hnew. }
  destruct Hb as (files & fs & vs & Hdir & Hopen & _ & Hblock & Hshows). exists d2, fs, b. split_and!; [done| |done|].
  { unfold dir_of. fold ulid in Hdir. by rewrite Hdir. }
  intros ms mint maxt Hms Hmok. destruct (select_block fs vs ms mint maxt b Hblock Hms Hmok) as (b' & Hsel & _).
  eexists _, b'. split; [exact Hsel|]. destruct (compacted_select _ _ _ ms mint maxt Hcompacted Hshows) as [Hndr Hspec].
  split; [done|]. intros l. rewrite <- (flushed_samples jobs xs l Hfl). apply Hspec.
Qed.

#[local] Instance exact_engine : RegexEngine := {| std_regex := str; regex_compile := Some; regex_match p s := bool_decide (p = s) |}.
#[local] Existing Instance plain_order.
#[local] Existing Instance TreeJson.tree_laws.

(** Two heads with a sample at the same time: the second one wins. *)
Lemma flush_compact_query_witness :
  let jobs := [(1700000000000, [1; 2; 3], sample_head [mkLabel [97] [98]] 50 7);
    (1700000000000, [4; 5; 6], sample_head [mkLabel [97] [98]] 50 9)] in
  let ulid := new_ulid 1700000000001 [7; 8; 9] in
  ∃ ds d1 inputs level sources, flush_all (H := TreeJson.tree_json) jobs (mkDisk ∅ []) = (Ok ds, d1) ∧
    compact_inputs (H := TreeJson.tree_json) ds d1 = Ok (inputs, level, sources) ∧ input_ok inputs ∧
    (input_ok inputs →
      ∃ d2 fs b, compact (H := TreeJson.tree_json) 1700000000001 [7; 8; 9] ds d1 = (Ok ulid, d2) ∧
        dir_chunks (dir_of ulid d2) = Some fs ∧ Block.open (H := TreeJson.tree_json) ulid d2 = Ok b ∧
        ∀ ms mint maxt, ms ≠ [] → Forall matcher_ok ms →
          ∃ rs b', Block.select fs ms mint maxt b = (Ok rs, b') ∧ NoDup (qr_labels <$> rs) ∧
            ∀ l, strict (result_samples l rs) ∧ ∀ x, mint <= x.1 <= maxt →
              x ∈ result_samples l rs ↔
                labels_match_all l ms = true ∧ last (at_time x.1 (jobs ≫= λ j, head_samples j.2 l)) = Some x).
Proof.
  intros jobs ulid.
  assert (∀ v, v = 7 ∨ v = 9 → head_ok (sample_head [mkLabel [97] [98]] 50 v)) as Hok by (intros v [->| ->]; (apply sample_head_ok; [vm_compute; eexists; reflexivity|vm_compute; reflexivity])).
  destruct (flush_compact_query (J := TreeJson.tree_json) (O0 := plain_order) jobs 1700000000001 [7; 8; 9] (mkDisk ∅ []))
    as (ds & d1 & inputs & level & sources & Hflush & Hinputs & Hrest).
  - discriminate.
  - reflexivity.
  - apply (bool_decide_unpack _). vm_compute. exact I.
  - reflexivity.
  - apply Forall_cons_2; [split; [reflexivity|apply Hok; by left]|]. apply Forall_cons_2; [split; [reflexivity|apply Hok; by right]|apply Forall_nil_2].
  - exists ds, d1, inputs, level, sources. split; [exact Hflush|]. split; [exact Hinputs|]. split; [|exact Hrest].
    assert (match flush_all (H := TreeJson.tree_json) jobs (mkDisk ∅ []) with
      | (Ok ds, d1) => match compact_inputs (H := TreeJson.tree_json) ds d1 with Ok (i, _, _) => bool_decide (input_ok i) | _ => false end
      | _ => false end = true) as Hcheck by (vm_compute; reflexivity).
    rewrite Hflush, Hinputs in Hcheck. by apply bool_decide_eq_true in Hcheck.
Defined.

End PipelineProps.
