(* ===== verification/Stages.v ===== *)
(** Compaction in stages: compacting some blocks, and the result with others,
    gathers the same series as compacting all of them at once. The file
    composes the contract of [Merge] with itself; it has no definitions that
    model code. *)

From S2P Require Import Prelude Ordered Sorted Containers Files Varint Bytes Crc32c Labels Matcher Record BStream Xor Segment Chunks Query Index IndexWriter Ulid Meta MemSeries SeriesStore Head Block BlockSelect BlockIndex BlockCreate Compact Flush Merge Pipeline.

Module StagesFacts.
Import BytesFacts ChunksFacts HeadFacts MemSeriesFacts BlockSelectFacts BlockCreateFacts FlushFacts MergeFacts MergeProps PipelineFacts.

Lemma samples_in_app a b l : samples_in (a ++ b) l = samples_in a l ++ samples_in b l.
Proof. unfold samples_in. by rewrite filter_app, bind_app. Qed.

Lemma samples_of inputs si :
  NoDup (si_labels <$> inputs) → si ∈ inputs → samples_in inputs (si_labels si) = si_chunks si ≫= input_list.
Proof. intros Hnd Hsi. unfold samples_in. rewrite (filter_unique si_labels) by done. by rewrite bind_cons, app_nil_r. Qed.

Lemma samples_absent inputs l : l ∉ (si_labels <$> inputs) → samples_in inputs l = [].
Proof.
  intros Hl. unfold samples_in. rewrite filter_none; [done|]. apply Forall_forall. intros s Hs <-. by apply Hl, list_elem_of_fmap_2.
Qed.

(** ** The last sample of a timestamp *)

Lemma strict_nodup l : strict l → NoDup l.
Proof. induction 1 as [|x l _ IH Hx]; constructor; [|done]. intros Hin. rewrite Forall_forall in Hx. specialize (Hx x Hin). lia. Qed.

Lemma strict_unique l k : strict l → strict k → (∀ x, x ∈ l ↔ x ∈ k) → l = k.
Proof.
  intros Hl Hk Heq. apply (StronglySorted_unique_strong (λ a b : Z * Z, a.1 < b.1)); [|done..|].
  - intros a b _ _ Hab Hba. lia.
  - apply NoDup_Permutation; [by apply strict_nodup..|done].
Qed.

Lemma at_time_strict x l : strict l → x ∈ l → at_time x.1 l = [x].
Proof.
  intros Hl Hx. unfold at_time. apply (filter_unique fst); [|done]. clear Hx. induction Hl as [|y l _ IH Hy]; [constructor|].
  rewrite fmap_cons. constructor; [|done]. intros (z & Heq & Hz)%list_elem_of_fmap. rewrite Forall_forall in Hy. specialize (Hy z Hz). lia.
Qed.

Lemma compacted_samples series inputs l :
  compacted series inputs →
  strict (samples_in inputs l) ∧ ∀ x, x ∈ samples_in inputs l ↔ last (at_time x.1 (samples_in series l)) = Some x.
Proof.
  intros Hc. pose proof Hc as (Hnd & _ & Hall). destruct (decide (l ∈ (si_labels <$> inputs))) as [Hl|Hl].
  - apply list_elem_of_fmap in Hl as (si & -> & Hsi). rewrite samples_of by done. destruct (Hall si Hsi) as (Hs & Hin & _). done.
  - rewrite samples_absent by done. split; [constructor|]. intros x. split; [by intros ?%elem_of_nil|].
    intros (si & -> & [_ Hsi]%list_elem_of_filter)%(compacted_present _ _ _ _ Hc)%list_elem_of_fmap. exfalso. by apply Hl, list_elem_of_fmap_2.
Qed.

(** Compacting keeps the last sample of every timestamp. *)
Lemma compacted_last series inputs l t :
  compacted series inputs → last (at_time t (samples_in inputs l)) = last (at_time t (samples_in series l)).
Proof.
  intros Hc. destruct (compacted_samples series inputs l Hc) as [Hs Hin].
  assert (∀ ss x, last (at_time t ss) = Some x → x.1 = t ∧ x ∈ ss) as Ht by (by intros ss x [? ?]%last_Some_elem_of%list_elem_of_filter).
  destruct (last (at_time t (samples_in series l))) as [x|] eqn:Hx.
  - destruct (Ht _ x Hx) as [<- _]. by rewrite (at_time_strict x) by (done || by apply Hin).
  - destruct (last (at_time t (samples_in inputs l))) as [y|] eqn:Hy; [|done]. destruct (Ht _ y Hy) as [<- Hyin]. apply Hin in Hyin. congruence.
Qed.

(** ** Two stages *)

Lemma staged_samples s1 s2 i1 staged direct l :
  compacted s1 i1 → compacted (i1 ++ s2) staged → compacted (s1 ++ s2) direct → samples_in staged l = samples_in direct l.
Proof.
  intros H1 Hst Hdi. destruct (compacted_samples _ _ l Hst) as [Hs Hsin], (compacted_samples _ _ l Hdi) as [Hd Hdin].
  apply strict_unique; [done..|]. intros x. rewrite Hsin, Hdin, !samples_in_app. unfold at_time. rewrite !filter_app, !last_app.
  fold (at_time x.1 (samples_in i1 l)) (at_time x.1 (samples_in s1 l)). by rewrite (compacted_last s1 i1 l x.1 H1).
Qed.

(** Series that are cut from the same samples are the same. *)
Lemma same_series s s' inputs inputs' si :
  compacted s inputs → compacted s' inputs' → (∀ l, samples_in inputs l = samples_in inputs' l) →
  Forall (λ si, rebuilt (si_labels si) (si_chunks si ≫= input_list) = Ok si) inputs →
  Forall (λ si, rebuilt (si_labels si) (si_chunks si ≫= input_list) = Ok si) inputs' →
  si ∈ with_chunks inputs → si ∈ with_chunks inputs'.
Proof.
  intros (Hnd & _ & Hall) (Hnd' & _ & Hall') Hsam Hre Hre' [Hne Hsi]%list_elem_of_filter. rewrite Forall_forall in Hre, Hre'.
  apply list_elem_of_filter. split; [done|]. pose proof (samples_of inputs si Hnd Hsi) as Heq. rewrite Hsam in Heq.
  assert (si_labels si ∈ (si_labels <$> inputs')) as (si' & Hl & Hsi')%list_elem_of_fmap.
  { destruct (decide (si_labels si ∈ (si_labels <$> inputs'))) as [|Hl]; [done|]. rewrite (samples_absent inputs') in Heq by done.
    destruct (Hall si Hsi) as (_ & _ & Hspans). destruct (si_chunks si) as [|c cs]; [done|].
    apply Forall_cons_1 in Hspans as [(a & b & Ha & _) _]. rewrite bind_cons in Heq. by destruct (input_list c). }
  pose proof (samples_of inputs' si' Hnd' Hsi') as Heq'. rewrite <- Hl, Heq in Heq'.
  pose proof (Hre si Hsi) as H1. pose proof (Hre' si' Hsi') as H2. rewrite <- Hl, <- Heq', H1 in H2. by injection H2 as ->.
Qed.

Lemma compacted_nodup s inputs : compacted s inputs → NoDup (with_chunks inputs).
Proof. intros (Hnd & _). apply NoDup_filter. by eapply NoDup_fmap_1. Qed.

Lemma compacted_mergeable series inputs :
  compacted series inputs → Forall series_input_ok inputs → Forall mergeable series → Forall mergeable inputs.
Proof.
  intros (Hnd & _ & Hall) Hok Hm. rewrite Forall_forall in Hok, Hm. apply Forall_forall. intros si Hsi. destruct (Hok si Hsi) as [Hl _].
  split; [done|]. destruct (Hall si Hsi) as (_ & Hin & Hspans). rewrite Forall_forall in Hspans. apply Forall_forall. intros c Hc.
  destruct (Hspans c Hc) as (a & b & Ha & _). split; [unfold input_list in Ha; by destruct (chunk_list _)|].
  apply Forall_forall. intros x Hx. assert (x ∈ si_chunks si ≫= input_list) as Hxs by (apply list_elem_of_bind; eauto).
  apply Hin, last_Some_elem_of, list_elem_of_filter in Hxs as [_ (s & Hxs & [_ Hs]%list_elem_of_filter)%list_elem_of_bind].
  apply list_elem_of_bind in Hxs as (c' & Hxc & Hc'). destruct (Hm s Hs) as [_ Hdec]. rewrite Forall_forall in Hdec.
  destruct (Hdec c' Hc') as [_ Hf]. unfold fits in Hf. rewrite Forall_forall in Hf. by apply Hf.
Qed.

Lemma staged_sources x xs1 xs2 : sources_of x = all_sources [] xs1 → all_sources [] (x :: xs2) = all_sources [] (xs1 ++ xs2).
Proof.
  intros Hx. assert (∀ xs, ascending str_ltb (all_sources [] xs) ∧ ∀ s, s ∈ all_sources [] xs ↔ ∃ x, x ∈ xs ∧ s ∈ sources_of x) as Hspec.
  { intros xs. destruct (all_sources_spec [] xs) as [Hasc Hin]; [constructor|]. split; [done|]. intros s. rewrite Hin.
    split; [by intros [?%elem_of_nil|?]|by right]. }
  apply (ascending_unique str_ltb); [apply Hspec..|]. intros s. rewrite !(proj2 (Hspec _)). split.
  - intros (y & [->|Hy]%elem_of_cons & Hs); [|exists y; split; [apply elem_of_app; by right|done]].
    rewrite Hx in Hs. apply (Hspec xs1) in Hs as (y & Hy & Hs). exists y. split; [apply elem_of_app; by left|done].
  - intros (y & [Hy|Hy]%elem_of_app & Hs); [|exists y; split; [by right|done]].
    exists x. split; [left|]. rewrite Hx. apply Hspec. by exists y.
Qed.

End StagesFacts.

Module StagesProps.
Import BytesFacts ChunksFacts HeadFacts MemSeriesFacts BlockSelectFacts BlockCreateFacts FlushFacts MergeFacts MergeProps PipelineFacts StagesFacts.

(** C20: compaction in stages. Compacting some blocks first and the result with
    others then is the same as compacting all of them at once, in the same
    order: the new block is made from the same series with the same chunks, to
    the byte, and names the same sources; only its level may be higher. So the
    order in which a database compacts its blocks in levels does not show in
    its answers. *)
Theorem compact_in_stages `{JsonLaws} `{StdOrderLaws} (now : Z) (random : list Z) (dirs1 dirs2 : list str) (d : Disk) (xs1 xs2 : list source) :
  let ulid := new_ulid now random in
  dirs1 ≠ [] → calls d = [] → dirs d !! ulid = None →
  Forall2 (λ dir x, block_holds dir d x.1 x.2) dirs1 xs1 → Forall2 (λ dir x, block_holds dir d x.1 x.2) dirs2 xs2 →
  Forall mergeable (all_series (xs1 ++ xs2)) → Forall (λ x, level_of x + 1 < 2 ^ 31 ∧ Forall utf8 (sources_of x)) xs1 →
  ∃ inputs level sources, compact_inputs dirs1 d = Ok (inputs, level, sources) ∧
    (input_ok inputs →
      ∃ d1 staged direct level2 level3 sources', compact now random dirs1 d = (Ok ulid, d1) ∧
        compact_inputs (ulid :: dirs2) d1 = Ok (staged, level2, sources') ∧
        compact_inputs (dirs1 ++ dirs2) d1 = Ok (direct, level3, sources') ∧
        with_chunks staged ≡ₚ with_chunks direct ∧ level3 <= level2).
Proof.
  intros ulid Hne Hcalls Hnew H1 H2 Hm Hmetas. assert (all_series (xs1 ++ xs2) = all_series xs1 ++ all_series xs2) as Happ by apply bind_app.
  rewrite Happ in Hm. apply Forall_app in Hm as [Hm1 Hm2]. destruct (compact_inputs_eq d dirs1 xs1 H1 Hm1) as (inputs & Hinputs & Hc & Hok & _).
  exists inputs, (max_level 0 xs1), (all_sources [] xs1). split; [done|]. intros Hfits.
  destruct (compact_eq now random dirs1 d xs1 inputs Hne Hcalls Hnew Hmetas Hinputs Hfits) as (d1 & b & Hcompact & Hother & Hholds & Hlevel & Hsrc).
  assert (∀ ds xs, Forall2 (λ dir x, block_holds dir d x.1 x.2) ds xs → Forall2 (λ dir x, block_holds dir d1 x.1 x.2) ds xs) as Hkept.
  { intros ds xs Hds. eapply Forall2_impl; [exact Hds|]. intros dir x Hx. apply (holds_kept _ d); [done|]. apply Hother.
    intros ->. destruct Hx as (files & fs & vs & Hx & _). fold ulid in Hx. by rewrite Hnew in Hx. }
  destruct (compact_inputs_eq d1 (ulid :: dirs2) ((inputs, b) :: xs2)) as (staged & Hstaged & Hcs & _ & Hrs).
  { constructor; [exact Hholds|by apply Hkept]. }
  { unfold all_series. rewrite bind_cons. apply Forall_app. split; [by eapply compacted_mergeable|done]. }
  destruct (compact_inputs_eq d1 (dirs1 ++ dirs2) (xs1 ++ xs2)) as (direct & Hdirect & Hcd & _ & Hrd).
  { apply Forall2_app; by apply Hkept. }
  { rewrite Happ. by apply Forall_app. }
  rewrite Happ in Hcd. change (all_series ((inputs, b) :: xs2)) with (inputs ++ all_series xs2) in Hcs.
  pose proof (staged_sources (inputs, b) xs1 xs2 Hsrc) as Hsources.
  eexists d1, staged, direct, _, _, (all_sources [] (xs1 ++ xs2)). split; [exact Hcompact|].
  split; [rewrite <- Hsources; exact Hstaged|]. split; [exact Hdirect|].
  assert (∀ l, samples_in staged l = samples_in direct l) as Hsam by (intros l; exact (staged_samples _ _ _ _ _ l Hc Hcs Hcd)). split.
  - apply NoDup_Permutation; [by eapply compacted_nodup..|]. intros si. split; apply (same_series _ _ _ _ si Hcs Hcd) || apply (same_series _ _ _ _ si Hcd Hcs); done.
  - destruct (max_level_spec 0 (xs1 ++ xs2)) as (_ & _ & [->|(x & Hx & ->)]).
    + by apply max_level_spec.
    + destruct (max_level_spec 0 ((inputs, b) :: xs2)) as (_ & Hmax & _). apply elem_of_app in Hx as [Hx|Hx]; [|apply Hmax; by right].
      pose proof (Hmax (inputs, b) ltac:(left)). destruct (max_level_spec 0 xs1) as (_ & Hle & _). specialize (Hle x Hx). lia.
Qed.

#[local] Existing Instance plain_order.
#[local] Existing Instance TreeJson.tree_laws.

(** Three flushed heads; the first two are compacted first. *)
Lemma compact_in_stages_witness :
  let a := [mkLabel [97] [98]] in
  let jobs1 := [(1700000000000, [1; 2; 3], sample_head a 50 7); (1700000000000, [4; 5; 6], sample_head a 50 9)] in
  let jobs2 := [(1700000000000, [7; 8; 9], sample_head a 60 1)] in
  let dirs1 := job_ulid <$> jobs1 in
  let dirs2 := job_ulid <$> jobs2 in
  let ulid := new_ulid 1700000000001 [1; 2; 3] in
  ∃ d inputs level sources, flush_all (H := TreeJson.tree_json) (jobs1 ++ jobs2) (mkDisk ∅ []) = (Ok (dirs1 ++ dirs2), d) ∧
    compact_inputs (H := TreeJson.tree_json) dirs1 d = Ok (inputs, level, sources) ∧ input_ok inputs ∧
    (input_ok inputs →
      ∃ d1 staged direct level2 level3 sources', compact (H := TreeJson.tree_json) 1700000000001 [1; 2; 3] dirs1 d = (Ok ulid, d1) ∧
        compact_inputs (H := TreeJson.tree_json) (ulid :: dirs2) d1 = Ok (staged, level2, sources') ∧
        compact_inputs (H := TreeJson.tree_json) (dirs1 ++ dirs2) d1 = Ok (direct, level3, sources') ∧
        with_chunks staged ≡ₚ with_chunks direct ∧ level3 <= level2).
Proof.
  intros a jobs1 jobs2 dirs1 dirs2 ulid.
  assert (Forall (λ x : Z * Z, is_i64 x.1 && is_u64 x.2 && head_check (sample_head a x.1 x.2) = true) [(50, 7); (50, 9); (60, 1)]) as Hchecks
    by (repeat (apply Forall_cons_2; [vm_compute; reflexivity|]); apply Forall_nil_2).
  assert (∀ t v, (t, v) ∈ [(50, 7); (50, 9); (60, 1)] → head_ok (sample_head a t v)) as Hok.
  { intros t v Htv. apply sample_head_ok; [vm_compute; eexists; reflexivity|]. exact (proj1 (Forall_forall _ _) Hchecks (t, v) Htv). }
  destruct (flush_all_eq (J := TreeJson.tree_json) (jobs1 ++ jobs2) (mkDisk ∅ [])) as (d & xs & Hflush & Hcalls & Hother & Hall).
  { reflexivity. }
  { apply (bool_decide_unpack _). vm_compute. exact I. }
  { repeat (apply Forall_cons_2; [split; [reflexivity|apply Hok; set_solver]|]). apply Forall_nil_2. }
  apply Forall2_app_inv_l in Hall as (xs1 & xs2 & H1 & H2 & ->).
  assert (∀ jobs xs, Forall2 (λ j x, block_holds (H := TreeJson.tree_json) (job_ulid j) d x.1 x.2 ∧ flushed (H := TreeJson.tree_json) j x) jobs xs →
    Forall2 (λ dir x, block_holds (H := TreeJson.tree_json) dir d x.1 x.2) (job_ulid <$> jobs) xs ∧ Forall2 (flushed (H := TreeJson.tree_json)) jobs xs) as Hsplit.
  { intros jobs xs Hall. split; [apply Forall2_fmap_l|]; (eapply Forall2_impl; [exact Hall|]); by intros j x []. }
  destruct (Hsplit _ _ H1) as [Hh1 Hf1], (Hsplit _ _ H2) as [Hh2 Hf2].
  destruct (flushed_ready _ _ (Forall2_app Hf1 Hf2)) as [Hm _]. destruct (flushed_ready _ _ Hf1) as [_ Hmetas].
  destruct (compact_in_stages (J := TreeJson.tree_json) (O0 := plain_order) 1700000000001 [1; 2; 3] dirs1 dirs2 d xs1 xs2)
    as (inputs & level & sources & Hinputs & Hrest).
  - discriminate.
  - exact Hcalls.
  - fold ulid. rewrite Hother; [reflexivity|]. apply (bool_decide_unpack _). vm_compute. exact I.
  - exact Hh1.
  - exact Hh2.
  - exact Hm.
  - exact Hmetas.
  - exists d, inputs, level, sources. split; [exact Hflush|]. split; [exact Hinputs|]. split; [|exact Hrest].
    assert (match flush_all (H := TreeJson.tree_json) (jobs1 ++ jobs2) (mkDisk ∅ []) with
      | (Ok _, d) => match compact_inputs (H := TreeJson.tree_json) dirs1 d with Ok (i, _, _) => bool_decide (input_ok i) | _ => false end
      | _ => false end = true) as Hcheck by (vm_compute; reflexivity).
    rewrite Hflush, Hinputs in Hcheck. by apply bool_decide_eq_true in Hcheck.
Defined.

End StagesProps.
