(* ===== verification/Failures.v ===== *)
(** What failures leave behind. System calls answer from a script that can fail
    any of them, write short or interrupt; here the creation and the compaction
    of blocks are followed under every script. A step that reports success did
    what it does when nothing fails ([faithful]), the steps touch the new
    directory only ([frames]), and [meta.json] is written last. *)

From Stdlib Require Import String.
From S2P Require Import Prelude Ordered Sorted Containers Files Varint Bytes Crc32c Labels Matcher Record BStream Xor Segment Chunks Query Index IndexWriter Ulid Meta MemSeries SeriesStore Head Block BlockSelect BlockIndex BlockCreate Compact Flush Merge.

Module FailuresFacts.
Import FilesFacts MetaFacts.

(** ** Success means the whole effect *)

Definition faithful {S E A} (m : rd (S * World) E A) : Prop :=
  ∀ s w a s' w', m (s, w) = (Ok a, (s', w')) → m (s, calm w) = (Ok a, (s', calm w')).

Lemma sys_ok_calm w ok w' : sys_ok w = (ok, w') → calm w' = calm w.
Proof. unfold sys_ok, sys. destruct (script w); by intros [= <- <-]. Qed.

Lemma faithful_ret {S E A} (a : A) : faithful (S := S) (E := E) (rret a).
Proof. by intros s w ? ? ? [= <- <- <-]. Qed.

Lemma faithful_bind {S E A B} (m : rd (S * World) E A) (k : A → rd (S * World) E B) :
  faithful m → (∀ a, faithful (k a)) → faithful (rbind m k).
Proof.
  intros Hm Hk s w b s' w'. unfold rbind. destruct (m (s, w)) as [[a|e|] [s1 w1]] eqn:Heq; [|done..].
  rewrite (Hm _ _ _ _ _ Heq). apply Hk.
Qed.

Lemma faithful_pure {S E A} (f : S → S) (g : S → A) : faithful (E := E) (λ '(s, w), (Ok (g s), (f s, w))).
Proof. by intros s w ? ? ? [= <- <- <-]. Qed.

(** Both loops over [write] append all of the data or report an error. *)
Lemma append_file_app name a b w : files (append_file name b (append_file name a w)) = files (append_file name (a ++ b) w).
Proof. unfold append_file. cbn [files script]. rewrite lookup_insert_eq. cbn [default from_option id]. by rewrite insert_insert_eq, app_assoc. Qed.

Lemma append_file_files name a w w1 : files w1 = files w → files (append_file name a w1) = files (append_file name a w).
Proof. unfold append_file. cbn [files]. by intros ->. Qed.

Lemma write_all_loop_all fuel name data w w' :
  (length (script w) + 2 <= fuel)%nat → data ≠ [] → write_all_loop fuel name data w = (None, w') →
  files w' = files (append_file name data w).
Proof.
  revert data w. induction fuel as [|fuel IH]; intros data w Hfuel Hne; [lia|]. cbn [write_all_loop].
  destruct data as [|b data]; [done|]. unfold sys. destruct (script w) as [|r rs] eqn:Hs.
  { destruct fuel; cbn [write_all_loop]; by intros [= <-]. }
  cbn [length] in Hfuel. destruct r as [|[|n]| |]; [destruct fuel; cbn [write_all_loop]; by intros [= <-]|done| | |done].
  - intros Hw. destruct (drop (S n) (b :: data)) as [|c rest] eqn:Hd.
    + rewrite <- (take_drop (S n) (b :: data)), Hd, app_nil_r. destruct fuel; cbn [write_all_loop] in Hw; by injection Hw as <-.
    + apply IH in Hw; [|cbn [append_file script]; lia|done]. rewrite Hw, append_file_app, <- Hd, take_drop. done.
  - intros Hw. apply IH in Hw; [exact Hw|cbn [script]; lia|done].
Qed.

Lemma write_loop_all fuel name data w w' :
  (length (script w) + 2 <= fuel)%nat → data ≠ [] → IndexWriter.write_loop fuel name data w = (true, w') →
  files w' = files (append_file name data w).
Proof.
  revert data w. induction fuel as [|fuel IH]; intros data w Hfuel Hne; [lia|]. cbn [IndexWriter.write_loop].
  destruct data as [|b data]; [done|]. unfold sys. destruct (script w) as [|r rs] eqn:Hs.
  { destruct fuel; cbn [IndexWriter.write_loop]; by intros [= <-]. }
  cbn [length] in Hfuel. destruct r as [|n| |]; [destruct fuel; cbn [IndexWriter.write_loop]; by intros [= <-]| | |done].
  - intros Hw. destruct (drop n (b :: data)) as [|c rest] eqn:Hd.
    + rewrite <- (take_drop n (b :: data)), Hd, app_nil_r. destruct fuel; cbn [IndexWriter.write_loop] in Hw; by injection Hw as <-.
    + apply IH in Hw; [|cbn [append_file script]; lia|done]. rewrite Hw, append_file_app, <- Hd, take_drop. done.
  - intros Hw. apply IH in Hw; [exact Hw|cbn [script]; lia|done].
Qed.

Lemma write_all_calm name data w w' :
  data ≠ [] → write_all name data w = (None, w') → write_all name data (calm w) = (None, calm w').
Proof.
  intros Hne Hw. apply write_all_loop_all in Hw; [|lia|done]. destruct data as [|b data]; [done|].
  unfold write_all. cbn [calm script length Nat.add write_all_loop sys]. f_equal. unfold calm. rewrite Hw. done.
Qed.

(** ** The chunk writer *)

Section Writer.
Import ChunkWriter.

Lemma faithful_sys_call : faithful sys_call.
Proof.
  intros s w a s' w'. unfold sys_call. destruct (sys_ok w) as [[] w1] eqn:Hw; [|done]. intros [= <- <- <-].
  by rewrite (sys_ok_calm _ _ _ Hw).
Qed.

Lemma faithful_write_all data : faithful (write_all data).
Proof.
  intros s w a s' w'. unfold write_all. destruct data as [|b data]; [by intros [= <- <- <-]|]. destruct (fd_ s) as [fd|]; [|done].
  destruct (Files.write_all fd (b :: data) w) as [[[]|] w1] eqn:Hw; [done..|]. intros [= <- <- <-].
  by rewrite (write_all_calm fd (b :: data) w w1 ltac:(done) Hw).
Qed.

Lemma faithful_finish_segment : faithful finish_segment.
Proof.
  intros s w a s' w'. unfold finish_segment. destruct (fd_ s); [|by intros [= <- <- <-]].
  apply faithful_bind; [apply faithful_sys_call|]. intros _. apply faithful_bind; [apply faithful_sys_call|]. intros _. apply (faithful_pure _ (λ _, tt)).
Qed.

Lemma faithful_open_segment : faithful open_segment.
Proof.
  intros s w a s' w'. apply faithful_bind; [apply faithful_sys_call|].
  intros _ s0 w0 a0 s0' w0' [= <- <- <-]. done.
Qed.

Lemma faithful_cut : faithful cut_new_segment.
Proof.
  apply faithful_bind; [apply faithful_finish_segment|]. intros _. apply faithful_bind; [apply faithful_open_segment|]. intros _.
  apply faithful_bind; [apply faithful_write_all|]. intros _. apply (faithful_pure _ (λ _, tt)).
Qed.

Lemma faithful_write enc data : faithful (write enc data).
Proof.
  intros s w a s' w'. unfold write. destruct (closed_ s); [done|].
  apply faithful_bind; [destruct (must_cut data s); [apply faithful_cut|apply faithful_ret]|]. intros _.
  clear. intros s w a s' w'. apply faithful_bind; [apply faithful_write_all|]. intros _. apply (faithful_pure _ (λ _, _)).
Qed.

Lemma faithful_close : faithful close.
Proof.
  intros s w a s' w'. unfold close. destruct (closed_ s); [by intros [= <- <- <-]|]. destruct (fd_ s); [|by intros [= <- <- <-]].
  apply faithful_bind; [apply faithful_sys_call|]. intros _. apply faithful_bind; [apply faithful_sys_call|]. intros _. apply (faithful_pure _ (λ _, tt)).
Qed.

(** A closed writer has nothing left to do in its destructor. *)
Lemma close_closed s w a s' w' : close (s, w) = (Ok a, (s', w')) → ∀ w2, destroy s' w2 = w2.
Proof.
  unfold close. destruct (closed_ s) eqn:Hc.
  { intros [= <- <- <-] w2. unfold destroy. by rewrite Hc. }
  destruct (fd_ s); [|by intros [= <- <- <-]]. unfold rbind, sys_call.
  destruct (sys_ok w) as [[] w1]; [|done]. destruct (sys_ok w1) as [[] w2]; [|done]. by intros [= <- <- <-].
Qed.

Lemma open_calm size w cw w' : open size w = (Ok cw, w') → open size (calm w) = (Ok cw, calm w').
Proof.
  unfold open, calm. pose proof (enter_dir_files w) as Hw. destruct (enter_dir w) as [[] w0]; cbn [negb snd] in *; [|done].
  rewrite enter_dir_calm. cbn [negb files]. rewrite <- Hw. destruct (existsb _ _); [done|].
  destruct (cut_new_segment (mk size None 0 0 false, w0)) as [[u|e|] [s w1]] eqn:Hcut; [|done..]. intros [= <- <-].
  apply faithful_cut in Hcut. unfold calm in Hcut. by rewrite Hcut.
Qed.

End Writer.

Lemma faithful_chunk_inputs cs tot : faithful (write_chunk_inputs cs tot).
Proof.
  revert tot. induction cs as [|c cs IH]; intros tot; [apply faithful_ret|]. cbn [write_chunk_inputs].
  apply faithful_bind; [apply faithful_write|]. intros ref. apply faithful_bind; [apply IH|]. intros r. apply faithful_ret.
Qed.

Lemma faithful_series_inputs series tot : faithful (write_series_inputs series tot).
Proof.
  revert tot. induction series as [|s series IH]; intros tot; [apply faithful_ret|]. cbn [write_series_inputs].
  destruct (si_chunks s) as [|c cs]; [apply IH|]. apply faithful_bind; [apply faithful_chunk_inputs|]. intros r.
  apply faithful_bind; [apply IH|]. intros rest. apply faithful_ret.
Qed.

Lemma write_chunk_files_calm series w r w' :
  write_chunk_files series w = (Ok r, w') → write_chunk_files series (calm w) = (Ok r, calm w').
Proof.
  unfold write_chunk_files. destruct (ChunkWriter.open _ w) as [[cw|e|] w1] eqn:Hopen; [|done..]. rewrite (open_calm _ _ _ _ Hopen).
  unfold rbind at 1 3. destruct (write_series_inputs series totals_init (cw, w1)) as [[x|e|] [cw1 w2]] eqn:Hwrite; [|done..].
  rewrite (faithful_series_inputs _ _ _ _ _ _ _ Hwrite).
  unfold rbind. destruct (ChunkWriter.close (cw1, w2)) as [[u|e|] [cw2 w3]] eqn:Hclose; [|done..].
  rewrite (faithful_close _ _ _ _ _ Hclose). unfold rret. rewrite !(close_closed _ _ _ _ _ Hclose). by intros [= <- <-].
Qed.

(** ** The index file *)

Lemma write_loop_frame fuel file data w name :
  name ≠ file → files (IndexWriter.write_loop fuel file data w).2 !! name = files w !! name.
Proof.
  intros Hne. revert data w. induction fuel as [|fuel IH]; intros data w; [done|]. cbn [IndexWriter.write_loop].
  destruct data as [|b data]; [done|]. pose proof (sys_files w) as Hs. destruct (sys w) as [r w1]. cbn [snd] in Hs. rewrite <- Hs.
  destruct r; [| | |done]; rewrite IH; [| |done]; unfold append_file; cbn [files]; by rewrite lookup_insert_ne.
Qed.

(** [flush] touches the index file only, and success means that it holds the
    buffer. *)
Lemma flush_spec s w :
  let '(res, w') := IndexWriter.flush s w in
  (∀ name, name ≠ IndexWriter.file_ s → files w' !! name = files w !! name) ∧
  (∀ u, res = Ok u → files w' = <[IndexWriter.file_ s := IndexWriter.buf_ s]> (files w)).
Proof.
  unfold IndexWriter.flush. pose proof (sys_ok_files w) as H1. destruct (sys_ok w) as [ok1 w1]. cbn [snd] in H1.
  destruct (negb ok1 || _); [by rewrite H1|]. set (w2 := mkWorld _ _).
  assert (∀ name, name ≠ IndexWriter.file_ s → files w2 !! name = files w !! name) as Hw2
    by (intros name Hne; cbn [w2 files]; by rewrite lookup_insert_ne, H1).
  pose proof (λ name, write_loop_frame (length (script w2) + 2) (IndexWriter.file_ s) (IndexWriter.buf_ s) w2 name) as Hframe.
  pose proof (write_loop_all (length (script w2) + 2) (IndexWriter.file_ s) (IndexWriter.buf_ s) w2) as Hall.
  destruct (IndexWriter.write_loop _ _ _ w2) as [ok2 w3] eqn:Hloop. cbn [snd] in Hframe.
  assert (∀ name, name ≠ IndexWriter.file_ s → files w3 !! name = files w !! name) as Hw3
    by (intros name Hne; by rewrite Hframe, Hw2).
  pose proof (sys_ok_files w3) as H3. destruct ok2; cbn [negb]; [|by rewrite H3]. destruct (sys_ok w3) as [ok3 w4]. cbn [snd] in H3.
  pose proof (sys_ok_files w4) as H4. destruct ok3; cbn [negb]; [|by rewrite H4, H3]. destruct (sys_ok w4) as [ok4 w5]. cbn [snd] in H4.
  destruct ok4; cbn [negb]; rewrite H4, H3; [|done]. split; [done|]. intros _ _.
  destruct (IndexWriter.buf_ s) as [|b buf].
  - rewrite Nat.add_comm in Hloop. cbn [Nat.add IndexWriter.write_loop] in Hloop. injection Hloop as <-. cbn [w2 files]. by rewrite H1.
  - rewrite (Hall w3 ltac:(lia) ltac:(done) eq_refl). unfold append_file. cbn [w2 files]. rewrite lookup_insert_eq, insert_insert_eq, H1. done.
Qed.

(** Writing the index, when it would succeed in an empty directory, touches
    that file only, and success means that it is there. *)
Lemma write_index_file_spec prepared buf scr :
  write_index_file prepared (mkWorld ∅ []) = (Ok tt, mkWorld (<[k_index_filename := buf]> ∅) []) →
  let '(res, w') := write_index_file prepared (mkWorld ∅ scr) in
  (∀ name, name ≠ k_index_filename → files w' !! name = None) ∧
  (∀ u, res = Ok u → files w' = <[k_index_filename := buf]> ∅).
Proof.
  unfold write_index_file. cbn [files]. destruct (IndexWriter.create k_index_filename ∅) as [iw|e|]; [|done..].
  destruct (build_index prepared iw) as [[u|e|] iw1]; [|done..]. unfold IndexWriter.close.
  destruct (negb _); [done|]. set (s := IndexWriter.finish iw1).
  pose proof (flush_spec s (mkWorld ∅ [])) as Hcalm. pose proof (flush_spec s (mkWorld ∅ scr)) as Hany.
  destruct (IndexWriter.flush s (mkWorld ∅ [])) as [[u0|e|] w0]; [|done..]. intros [= ->]. destruct Hcalm as [_ Hcalm].
  specialize (Hcalm u0 eq_refl). cbn [files] in Hcalm.
  assert (IndexWriter.file_ s = k_index_filename ∧ IndexWriter.buf_ s = buf) as [Hf Hb].
  { assert (<[IndexWriter.file_ s := IndexWriter.buf_ s]> (∅ : gmap str (list Z)) !! k_index_filename = Some buf) as Hl
      by (rewrite <- Hcalm; apply lookup_insert_eq).
    by apply lookup_insert_Some in Hl as [[-> ->]|[_ ?]]. }
  rewrite Hf, Hb in Hany. cbn [files] in Hany.
  destruct (IndexWriter.flush s (mkWorld ∅ scr)) as [[u1|e|] w1]; destruct Hany as [Hframe Hok];
    (split; [intros name Hne; rewrite (Hframe name Hne); apply lookup_empty|]); [|done..]. intros _ _. by apply (Hok u1).
Qed.

(** ** The other files *)

Lemma atomic_write_frame path content w name :
  name ≠ path → name ≠ path ++ text ".tmp" → files (atomic_write path content w).2 !! name = files w !! name.
Proof.
  intros H1 H2. unfold atomic_write. pose proof (sys_ok_files w) as Hs. destruct (sys_ok w) as [[] w1]; cbn [negb snd] in *; [|by rewrite Hs].
  rewrite <- Hs. clear Hs. set (w2 := mkWorld _ (script w1)).
  assert (files w2 !! name = files w1 !! name) as <- by (cbn [w2 files]; by rewrite lookup_insert_ne).
  pose proof (sys_ok_files w2) as Hs. destruct (sys_ok w2) as [[] w3]; cbn [negb snd] in *; [|by rewrite Hs]. rewrite <- Hs. clear Hs.
  pose proof (sys_files w3) as Hs. destruct (sys w3) as [r w4]. cbn [snd] in Hs. rewrite <- Hs. clear Hs. set (w5 := mkWorld _ (script w4)).
  assert (files w5 !! name = files w4 !! name) as <- by (cbn [w5 files]; by rewrite lookup_insert_ne).
  pose proof (sys_ok_files w5) as Hs. destruct (sys_ok w5) as [[] w6]; cbn [negb snd] in *; [|by rewrite Hs]. rewrite <- Hs. clear Hs.
  set (w7 := mkWorld _ (script w6)).
  assert (files w7 !! name = files w6 !! name) as <- by (cbn [w7 files]; by rewrite lookup_insert_ne, lookup_delete_ne).
  pose proof (sys_ok_files w7) as Hs. destruct (sys_ok w7) as [ok w8]. cbn [snd] in *. destruct ok; by rewrite ?sys_ok_files, Hs.
Qed.

Lemma write_meta_index `{Json} m w : files (write_meta m w).2 !! k_index_filename = files w !! k_index_filename.
Proof. unfold write_meta. destruct (encode_meta_json m); [|done]. by apply atomic_write_frame. Qed.

Lemma write_tombstones_index w : files (write_tombstones w).2 !! k_index_filename = files w !! k_index_filename.
Proof.
  unfold write_tombstones. pose proof (sys_ok_files w) as Hs. destruct (sys_ok w) as [[] w1]; cbn [negb snd files] in *; [|by rewrite Hs].
  by rewrite lookup_insert_ne, Hs.
Qed.

(** ** The other directories *)

(** A step on disks that touches the directory [dir] only. *)
Definition frames {A} (dir : str) (m : D A) : Prop :=
  ∀ d dir', dir' ≠ dir → dirs (m d).2 !! dir' = dirs d !! dir'.

Lemma frames_ret {A} dir (a : A) : frames dir (rret a).
Proof. done. Qed.

Lemma frames_bind {A B} dir (m : D A) (k : A → D B) : frames dir m → (∀ a, frames dir (k a)) → frames dir (rbind m k).
Proof.
  intros Hm Hk d dir' Hne. unfold rbind. specialize (Hm d dir' Hne). destruct (m d) as [[a|e|] d1]; [|done..].
  rewrite <- Hm. by apply Hk.
Qed.

Lemma frames_files {A} dir (m : World → outcome error_code A * World) : frames dir (in_files dir m).
Proof. intros d dir' Hne. unfold in_files. destruct (m _) as [a w]. cbn [snd dirs]. by rewrite lookup_insert_ne. Qed.

Lemma frames_chunks {A} dir (m : World → outcome error_code A * World) : frames dir (in_chunks dir m).
Proof. intros d dir' Hne. unfold in_chunks. destruct (m _) as [a w]. cbn [snd dirs]. by rewrite lookup_insert_ne. Qed.

Lemma disk_call_dirs e d : dirs (disk_call e d).2 = dirs d.
Proof. unfold disk_call. by destruct (sys_ok _). Qed.

(** [make_dir] on a free name. *)
Lemma make_dir_spec dir d :
  dirs d !! dir = None →
  let '(res, d') := make_dir dir d in
  dirs d' = match res with Ok _ => <[dir := mkDir ∅ None]> (dirs d) | _ => dirs d end.
Proof.
  intros Hnew. unfold make_dir, rbind. pose proof (disk_call_dirs errno_ec d) as H1.
  destruct (disk_call errno_ec d) as [[u|e|] d1]; cbn [snd] in H1; [|done..].
  pose proof (disk_call_dirs errno_ec d1) as H2. destruct (disk_call errno_ec d1) as [[u2|e|] d2]; cbn [snd] in H2; [|congruence..].
  rewrite H2, H1, Hnew. pose proof (disk_call_dirs errno_ec d2) as H3.
  destruct (disk_call errno_ec d2) as [[u3|e|] d3]; cbn [snd] in H3; [|congruence..]. cbn [dirs]. by rewrite H3, H2, H1.
Qed.

Lemma frames_make_dir dir : frames dir (make_dir dir).
Proof.
  unfold make_dir. apply frames_bind; [intros d dir' _; by rewrite disk_call_dirs|]. intros _.
  apply frames_bind; [intros d dir' _; by rewrite disk_call_dirs|]. intros _ d dir' Hne. destruct (dirs d !! dir); [done|].
  refine (frames_bind dir _ _ _ _ d dir' Hne); [intros d0 dir0 _; by rewrite disk_call_dirs|]. intros _ d0 dir0 Hne0. cbn [snd dirs]. by rewrite lookup_insert_ne.
Qed.

Lemma frames_create `{Json} now random series : frames (new_ulid now random) (create_from_series now random series).
Proof.
  unfold create_from_series. apply frames_bind; [apply frames_make_dir|]. intros _. apply frames_bind; [apply frames_chunks|].
  intros r. repeat (apply frames_bind; [apply frames_files|]; intros _). apply frames_ret.
Qed.

Lemma frames_patch `{Json} level sources dir : frames dir (patch_meta level sources dir).
Proof.
  unfold patch_meta. apply frames_bind; [done|]. intros meta. destruct (_ <=? _); [done|]. apply frames_files.
Qed.

(** ** The new directory *)

(** The directory [dir] has the chunk files [cs] and the index [buf]. *)
Definition complete (dir : str) (cs : gmap str (list Z)) (buf : list Z) (d : Disk) : Prop :=
  ∃ fls, dirs d !! dir = Some (mkDir fls (Some cs)) ∧ fls !! k_index_filename = Some buf.

Lemma complete_files {A} dir cs buf (m : World → A * World) d :
  (∀ w, files (m w).2 !! k_index_filename = files w !! k_index_filename) →
  complete dir cs buf d → complete dir cs buf (in_files dir m d).2.
Proof.
  intros Hm (fls & Hdir & Hbuf). unfold in_files, dir_of. rewrite Hdir. cbn [default from_option id dir_files dir_chunks].
  pose proof (Hm (mkWorld fls (calls d))) as Hidx. destruct (m _) as [a w]. cbn [snd files] in *.
  exists (files w). split; [apply lookup_insert_eq|]. by rewrite Hidx.
Qed.

(** Without [meta.json] the directory is no block. *)
Lemma open_no_meta `{Json} dir d ch fls :
  dirs d !! dir = Some (mkDir fls ch) → fls !! k_meta_filename = None → ∀ b, Block.open dir d ≠ Ok b.
Proof.
  intros Hdir Hm b. unfold Block.open. rewrite Hdir. cbn [dir_files].
  assert (read_meta fls = Err errno_ec) as ->; [|done]. unfold read_meta.
  by destruct (fls !! k_meta_filename).
Qed.

(** When writing the chunks succeeds their directory has been created. *)
Lemma write_chunk_files_made {A} series fs scr r w (a b : A) :
  write_chunk_files series (mkWorld fs scr) = (Ok r, w) → match scr with Failed :: _ => a | _ => b end = b.
Proof. by destruct scr as [|[]]. Qed.

Lemma create_any `{Json} now random series d cs prepared tot buf :
  let ulid := new_ulid now random in
  dirs d !! ulid = None →
  write_chunk_files series (mkWorld ∅ []) = (Ok (prepared, tot), mkWorld cs []) →
  write_index_file prepared (mkWorld ∅ []) = (Ok tt, mkWorld (<[k_index_filename := buf]> ∅) []) →
  let '(res, d') := create_from_series now random series d in
  (res = Ok ulid ∧ complete ulid cs buf d') ∨
  (∀ u, res ≠ Ok u) ∧ (complete ulid cs buf d' ∨ ∀ b, Block.open ulid d' ≠ Ok b).
Proof.
  intros ulid Hnew Hchunks Hindex. unfold create_from_series. fold ulid. unfold rbind at 1.
  pose proof (make_dir_spec ulid d Hnew) as Hmake. destruct (make_dir ulid d) as [[u|e|] d1].
  2, 3: right; split; [done|right]; intros b; unfold Block.open; by rewrite Hmake, Hnew.
  unfold rbind at 1, in_chunks, dir_of. rewrite Hmake, lookup_insert_eq. cbn [default from_option id dir_files dir_chunks].
  destruct (write_chunk_files series (mkWorld ∅ (calls d1))) as [[r|e|] w2] eqn:Hw2.
  2, 3: right; split; [done|right]; by eapply (open_no_meta _ _ _ ∅); [apply lookup_insert_eq|].
  rewrite (write_chunk_files_made _ _ _ _ _ _ _ Hw2).
  pose proof (write_chunk_files_calm _ _ _ _ Hw2) as Hcalm. unfold calm in Hcalm. cbn [files] in Hcalm. rewrite Hchunks in Hcalm.
  injection Hcalm as <- ->. cbn [fst snd]. unfold rbind at 1, in_files at 1, dir_of. cbn [dirs calls].
  rewrite lookup_insert_eq. cbn [default from_option id dir_files dir_chunks].
  pose proof (write_index_file_spec prepared buf (script w2) Hindex) as Hspec.
  destruct (write_index_file prepared (mkWorld ∅ (script w2))) as [[u3|e|] w3]; destruct Hspec as [Hframe Hok].
  2, 3: right; split; [done|right]; apply (open_no_meta _ _ (Some (files w2)) (files w3)); [apply lookup_insert_eq|by apply Hframe].
  set (d3 := mkDisk _ (script w3)).
  assert (complete ulid (files w2) buf d3) as H3.
  { exists (files w3). split; [apply lookup_insert_eq|]. rewrite (Hok u3 eq_refl). apply lookup_insert_eq. }
  unfold rbind at 1. pose proof (complete_files ulid _ _ (write_meta (block_meta ulid prepared tot)) d3 (write_meta_index _) H3) as H4.
  destruct (in_files ulid (write_meta _) d3) as [[u4|e|] d4]; cbn [snd] in H4; [|right; split; [done|by left]..].
  unfold rbind. pose proof (complete_files ulid _ _ write_tombstones d4 write_tombstones_index H4) as H5.
  destruct (in_files ulid write_tombstones d4) as [[u5|e|] d5]; cbn [snd] in H5; [by left|right; split; [done|by left]..].
Qed.

(** The name a creation returns. *)
Lemma create_name `{Json} now random series d u d' :
  create_from_series now random series d = (Ok u, d') → u = new_ulid now random.
Proof.
  unfold create_from_series. do 5 (intros (? & ? & _ & H1)%rbind_inv; revert H1). by intros [= <- _].
Qed.

Lemma frames_compact `{Json} `{StdOrder} now random dirs : frames (new_ulid now random) (compact now random dirs).
Proof.
  intros d dir' Hne. unfold compact. destruct dirs as [|dir dirs]; [done|]. unfold lift, rbind at 1.
  destruct (compact_inputs _ d) as [[[inputs level] sources]|e|]; [|done..]. unfold rbind at 1.
  pose proof (frames_create now random inputs d dir' Hne) as Hframe. pose proof (create_name now random inputs d) as Hname.
  destruct (create_from_series now random inputs d) as [[u|e|] d1]; [|done..]. cbn [snd] in Hframe. rewrite <- Hframe.
  rewrite (Hname u d1 eq_refl). refine (frames_bind _ _ _ (frames_patch _ _ _) _ d1 dir' Hne). intros _. apply frames_ret.
Qed.

(** Patching the metadata keeps the rest. *)
Lemma patch_complete `{Json} level sources dir cs buf d :
  complete dir cs buf d → complete dir cs buf (patch_meta level sources dir d).2.
Proof.
  intros Hd. unfold patch_meta, rbind. destruct (read_meta _) as [m|e|]; [|done..]. destruct (_ <=? _); [done|].
  apply complete_files; [apply write_meta_index|done].
Qed.

Lemma compact_any `{Json} `{StdOrder} now random dirs0 d inputs level sources cs prepared tot buf :
  let ulid := new_ulid now random in
  dirs d !! ulid = None → compact_inputs dirs0 d = Ok (inputs, level, sources) →
  write_chunk_files inputs (mkWorld ∅ []) = (Ok (prepared, tot), mkWorld cs []) →
  write_index_file prepared (mkWorld ∅ []) = (Ok tt, mkWorld (<[k_index_filename := buf]> ∅) []) →
  complete ulid cs buf (compact now random dirs0 d).2 ∨ ∀ b, Block.open ulid (compact now random dirs0 d).2 ≠ Ok b.
Proof.
  intros ulid Hnew Hinputs Hchunks Hindex. destruct (compact now random dirs0 d) as [res d'] eqn:Hc. cbn [snd].
  unfold compact in Hc. destruct dirs0 as [|dir dirs0].
  { injection Hc as <- <-. right. intros b. unfold Block.open. by rewrite Hnew. }
  unfold lift in Hc. rewrite Hinputs in Hc. unfold rbind at 1 in Hc. unfold rbind at 1 in Hc.
  pose proof (create_any now random inputs d cs prepared tot buf Hnew Hchunks Hindex) as Hany.
  destruct (create_from_series now random inputs d) as [[u|e|] d1].
  2, 3: injection Hc as <- <-; by destruct Hany as [[? _]|[_ ?]].
  destruct Hany as [[[= ->] Hd]|[Hno _]]; [|by destruct (Hno u)]. left. fold ulid in Hc.
  pose proof (patch_complete level sources ulid cs buf d1 Hd) as Hp. unfold rbind in Hc.
  destruct (patch_meta level sources ulid d1) as [[] d2]; by injection Hc as <- <-.
Qed.

End FailuresFacts.

Module FailuresProps.
Import MetaFacts BytesFacts ChunksFacts BlockSelectFacts BlockIndexFacts BlockCreateFacts FlushFacts MergeFacts MergeProps FailuresFacts.

(** C21: creation under failures. Whatever the system calls answer, be it
    errors, short writes or interruptions, and whether it returns the new name
    or an error half way, [create_from_series] touches the new directory only;
    and if [Block.open] accepts what it leaves there, then the block holds
    exactly the series that were given: a part of a block is never taken for a
    block. *)
Theorem create_all_or_nothing `{Json} (now : Z) (random : list Z) (series : list SeriesInput) (d : Disk) :
  let ulid := new_ulid now random in
  dirs d !! ulid = None → input_ok series →
  let '(res, d') := create_from_series now random series d in
  (∀ dir, dir ≠ ulid → dirs d' !! dir = dirs d !! dir) ∧
  (∀ b, Block.open ulid d' = Ok b → block_holds ulid d' series b) ∧
  ∀ u, res = Ok u → u = ulid.
Proof.
  intros ulid Hnew Hok. destruct (built series Hok) as (cs & segs & prepared & buf & r & Hchunks & _ & Hindex & _ & Hholds).
  pose proof (create_any now random series d cs _ _ buf Hnew Hchunks Hindex) as Hany.
  pose proof (λ dir, frames_create now random series d dir) as Hframe.
  destruct (create_from_series now random series d) as [res d']. cbn [snd] in Hframe. fold ulid in Hany.
  split; [exact Hframe|]. destruct Hany as [[-> (fls & Hd & Hb)]|[Hno Hany]].
  - split; [intros b; by apply (Hholds _ ulid d' fls)|by intros u [= <-]].
  - split; [|intros u Hu; by destruct (Hno u)]. intros b Hopen.
    destruct Hany as [(fls & Hd & Hb)|Hany]; [by apply (Hholds _ ulid d' fls)|by destruct (Hany b)].
Qed.

#[local] Existing Instance plain_order.
#[local] Existing Instance TreeJson.tree_laws.

(** A series with one sample. *)
Definition one_series (v : Z) : list SeriesInput := [mkSeriesInput [mkLabel [97] [98]] [mkChunkInput 5 5 [0; 1; 10; 0; 0; 0; 0; 0; 0; 0; v]]].

Lemma one_series_ok v : v = 7 ∨ v = 9 → input_ok (one_series v).
Proof. intros [->| ->]; apply (bool_decide_unpack _); vm_compute; exact I. Qed.

(** The creation of the last file fails, after a short and an interrupted
    write: an error, and the block is there. *)
Lemma create_all_or_nothing_witness :
  let ulid := new_ulid 1700000000000 [1; 2; 3] in
  let d := mkDisk ∅ ([Done; Done; Done; Done; Done; Done; Wrote 3; Interrupted; Done] ++ replicate 14 Done ++ [Failed]) in
  let '(res, d') := create_from_series (H := TreeJson.tree_json) 1700000000000 [1; 2; 3] (one_series 7) d in
  res = Err io_error ∧ bool_decide (is_Some (dirs d' !! ulid)) = true ∧
  (match Block.open (H := TreeJson.tree_json) ulid d' with Ok _ => true | _ => false end) = true ∧
  (∀ dir, dir ≠ ulid → dirs d' !! dir = dirs d !! dir) ∧
  (∀ b, Block.open (H := TreeJson.tree_json) ulid d' = Ok b → block_holds (H := TreeJson.tree_json) ulid d' (one_series 7) b) ∧
  ∀ u, res = Ok u → u = ulid.
Proof.
  intros ulid d.
  pose proof (create_all_or_nothing (H := TreeJson.tree_json) 1700000000000 [1; 2; 3] (one_series 7) d eq_refl (one_series_ok 7 ltac:(by left))) as Hall.
  assert (match create_from_series (H := TreeJson.tree_json) 1700000000000 [1; 2; 3] (one_series 7) d with
    | (res, d') => match res with Err io_error => true | _ => false end && bool_decide (is_Some (dirs d' !! ulid)) &&
        match Block.open (H := TreeJson.tree_json) ulid d' with Ok _ => true | _ => false end
    end = true) as Hcheck by (vm_compute; reflexivity).
  destruct (create_from_series _ _ _ d) as [res d']. apply andb_prop in Hcheck as [[Hres Hdir]%andb_prop Hopen].
  split; [destruct res as [|[]|]; [discriminate Hres|first [discriminate Hres|reflexivity]..|discriminate Hres]|]. split; [exact Hdir|]. split; [exact Hopen|exact Hall].
Defined.

(** C22: compaction under failures. Whatever the system calls answer, and
    whether it returns the new name or an error, [compact] leaves every other
    directory alone, so that the input blocks still hold their series; and if
    [Block.open] accepts the new directory, then it holds the merge of all the
    inputs and never a part of it. *)
Theorem compact_all_or_nothing `{Json} `{StdOrderLaws} (now : Z) (random : list Z) (input_dirs : list str) (d : Disk) (xs : list source) :
  let ulid := new_ulid now random in
  dirs d !! ulid = None → Forall2 (λ dir x, block_holds dir d x.1 x.2) input_dirs xs → Forall mergeable (all_series xs) →
  let d' := (compact now random input_dirs d).2 in
  (∀ dir, dir ≠ ulid → dirs d' !! dir = dirs d !! dir) ∧
  Forall2 (λ dir x, block_holds dir d' x.1 x.2) input_dirs xs ∧
  ∃ inputs, compacted (all_series xs) inputs ∧
    (input_ok inputs → ∀ b, Block.open ulid d' = Ok b → block_holds ulid d' inputs b).
Proof.
  intros ulid Hnew Hall Hmerge d'. pose proof (frames_compact now random input_dirs d) as Hframe.
  split; [exact Hframe|]. split.
  { eapply Forall2_impl; [exact Hall|]. intros dir x Hx. apply (holds_kept _ d); [done|]. apply Hframe. intros Heq.
    destruct Hx as (fls & fs & vs & Hdir & _). unfold ulid in Hnew. congruence. }
  destruct (compact_inputs_eq d input_dirs xs Hall Hmerge) as (inputs & Hinputs & Hcompacted & _). exists inputs. split; [done|].
  intros Hok b Hopen. destruct (built inputs Hok) as (cs & segs & prepared & buf & r & Hchunks & _ & Hindex & _ & Hholds).
  destruct (compact_any now random input_dirs d inputs _ _ cs prepared _ buf Hnew Hinputs Hchunks Hindex) as [(fls & Hd & Hb)|Hno];
    [by apply (Hholds _ ulid d' fls)|by destruct (Hno b)].
Qed.

(** The write of the new chunk file is cut short and then fails. *)
Lemma compact_all_or_nothing_witness :
  let u1 := new_ulid 1700000000000 [1; 2; 3] in
  let ulid := new_ulid 1700000000001 [7; 8; 9] in
  let d := mkDisk (dirs (create_from_series (H := TreeJson.tree_json) 1700000000000 [1; 2; 3] (one_series 7) (mkDisk ∅ [])).2)
    [Done; Done; Done; Done; Done; Done; Wrote 3; Failed] in
  ∃ b1, let xs := [(one_series 7, b1)] in
    let d' := (compact (H := TreeJson.tree_json) 1700000000001 [7; 8; 9] [u1] d).2 in
    (∀ dir, dir ≠ ulid → dirs d' !! dir = dirs d !! dir) ∧
    Forall2 (λ dir x, block_holds (H := TreeJson.tree_json) dir d' x.1 x.2) [u1] xs ∧
    ∃ inputs, compacted (all_series xs) inputs ∧
      (input_ok inputs → ∀ b, Block.open (H := TreeJson.tree_json) ulid d' = Ok b → block_holds (H := TreeJson.tree_json) ulid d' inputs b).
Proof.
  intros u1 ulid d.
  destruct (created (J := TreeJson.tree_json) 1700000000000 [1; 2; 3] (one_series 7) (mkDisk ∅ []) eq_refl (lookup_empty _) (one_series_ok 7 ltac:(by left)))
    as (d1 & dir1 & b1 & He1 & _ & Hd1 & Hb1 & _).
  assert (dirs d = dirs d1) as Hd by (unfold d; by rewrite He1). exists b1. intros xs d'.
  apply (compact_all_or_nothing (O0 := plain_order) 1700000000001 [7; 8; 9] [u1] d xs).
  - rewrite Hd, Hd1, lookup_insert_ne; [done|vm_compute; discriminate].
  - apply Forall2_cons_2; [|apply Forall2_nil_2]. apply (holds_kept _ d1); [exact Hb1|]. by rewrite Hd.
  - constructor; [|constructor]. split; [apply (bool_decide_unpack _); vm_compute; exact I|].
    constructor; [|constructor]; split; [vm_compute; eexists; reflexivity|apply (bool_decide_unpack _); vm_compute; exact I].
Defined.

End FailuresProps.
