(* ===== verification/Querier.v ===== *)
(** The querier over blocks and heads:
    [include/merlion_tsdb/querier/querier.hpp] and [src/querier/querier.cpp].
    Blocks and heads are shared: the querier holds pointers, here positions in
    the lists of all blocks and heads; a block changes when it is queried,
    because its chunk reader caches. *)

From S2P Require Import Prelude Ordered Sorted Containers Files Bytes Labels Matcher BStream Xor Segment Chunks Query Index Meta MemSeries SeriesStore Head.
From S2P Require Block BlockSelect BlockIndex BlockCreate.

(** The error code of a head. *)
Definition head_code (e : HeadError) : error_code :=
  match e with
  | OperationNotPermitted => operation_not_permitted
  | InvalidArgument => invalid_argument
  | HeadIoError => io_error
  | WalError _ => errno_ec
  end.

Record MergedSeries : Type := mkMerged {
  ms_labels : Labels.t;
  ms_chunks : list XORChunk.t;
  ms_metas : list ChunkMeta;
}.

Module Querier.

Record t : Type := mk { blocks_ : list (option nat); heads_ : list (option nat) }.

(** The two constructors. *)
Definition of_blocks (blocks : list (option nat)) : t := mk blocks [].
Definition of_sources (blocks heads : list (option nat)) : t := mk blocks heads.

Definition block_count (q : t) : nat := length (blocks_ q).
Definition head_count (q : t) : nat := length (heads_ q).

(** * Merging *)

Definition Bucket : Type := list (Labels.t * MergedSeries).

(** The loop that pushes the chunks of a result, and the metadata at the same
    positions. *)
Definition append_chunks (qr : QueryResult) (dst : MergedSeries) : MergedSeries :=
  mkMerged (ms_labels dst) (ms_chunks dst ++ qr_chunks qr)
    (ms_metas dst ++ take (length (qr_chunks qr)) (qr_metas qr)).

Definition merge_result (qr : QueryResult) (bucket : Bucket) : Bucket :=
  upsert (qr_labels qr) (mkMerged (qr_labels qr) [] []) (append_chunks qr) bucket.

(** The results of one source; [None]: fewer metadata than chunks. *)
Fixpoint merge_results (qrs : list QueryResult) (bucket : Bucket) : option Bucket :=
  match qrs with
  | [] => Some bucket
  | qr :: qrs =>
      if (length (qr_metas qr) <? length (qr_chunks qr))%nat then None
      else merge_results qrs (merge_result qr bucket)
  end.

Section Select.
Context `{RegexEngine} `{StdOrder}.

(** The chunk files of a block directory, and the heads. *)
Context (chunk_dir : str → gmap str (list Z)) (heads : list Head.t).

Definition M (A : Type) : Type := rd (list Block.Block.t) error_code A.

Definition merge_outcome (res : outcome error_code (list QueryResult)) (bucket : Bucket) : outcome error_code Bucket :=
  qrs ← res;
  match merge_results qrs bucket with Some bucket => Ok bucket | None => UB end.

(** Whether the range of the metadata misses the query. *)
Definition out_of_range (mint maxt : Z) (m : BlockMeta.t) : bool :=
  (maxt <? BlockMeta.min_time m) || (BlockMeta.max_time m <? mint).

Fixpoint select_blocks (ms : list Matcher.t) (mint maxt : Z) (ptrs : list (option nat)) (bucket : Bucket) : M Bucket :=
  match ptrs with
  | [] => rret bucket
  | None :: ptrs => select_blocks ms mint maxt ptrs bucket
  | Some i :: ptrs => λ blocks,
      match blocks !! i with
      | None => (UB, blocks)
      | Some b =>
          if out_of_range mint maxt (Block.Block.meta_ b) then select_blocks ms mint maxt ptrs bucket blocks
          else
            let '(res, b) := Block.select (chunk_dir (Block.Block.dir_ b)) ms mint maxt b in
            let blocks := <[i := b]> blocks in
            match merge_outcome res bucket with
            | Ok bucket => select_blocks ms mint maxt ptrs bucket blocks
            | Err e => (Err e, blocks)
            | UB => (UB, blocks)
            end
      end
  end.

Fixpoint select_heads (ms : list Matcher.t) (mint maxt : Z) (ptrs : list (option nat)) (bucket : Bucket)
    : outcome error_code Bucket :=
  match ptrs with
  | [] => Ok bucket
  | None :: ptrs => select_heads ms mint maxt ptrs bucket
  | Some i :: ptrs =>
      match heads !! i with
      | None => UB
      | Some hd =>
          let res := match Head.select ms mint maxt hd with Ok qrs => Ok qrs | Err e => Err (head_code e) | UB => UB end in
          bucket ← merge_outcome res bucket;
          select_heads ms mint maxt ptrs bucket
      end
  end.

(** The chunks of a series sorted through a vector of positions. *)
Definition sort_series (m : MergedSeries) : MergedSeries :=
  let time i := match ms_metas m !! i with Some cm => min_time cm | None => 0 end in
  let order := std_sort (λ a b, time a <? time b) (seq 0 (length (ms_chunks m))) in
  mkMerged (ms_labels m) (omap (λ i, ms_chunks m !! i) order) (omap (λ i, ms_metas m !! i) order).

Definition select (ms : list Matcher.t) (mint maxt : Z) (q : t) : M (list MergedSeries) := λ blocks,
  match ms with
  | [] => (Err invalid_argument, blocks)
  | _ =>
      match select_blocks ms mint maxt (blocks_ q) [] blocks with
      | (Ok bucket, blocks) =>
          match select_heads ms mint maxt (heads_ q) bucket with
          | Ok bucket => (Ok ((λ x, sort_series x.2) <$> visit bucket), blocks)
          | Err e => (Err e, blocks)
          | UB => (UB, blocks)
          end
      | (Err e, blocks) => (Err e, blocks)
      | (UB, blocks) => (UB, blocks)
      end
  end.

End Select.

End Querier.

(** * Facts *)

Module QuerierFacts.
Import Querier HeadFacts BlockSelect.BlockSelectFacts.

(** ** Grouping results *)

Definition parallel (qr : QueryResult) : Prop := length (qr_chunks qr) = length (qr_metas qr).

Definition pairs_of (qr : QueryResult) : list (XORChunk.t * ChunkMeta) := zip (qr_chunks qr) (qr_metas qr).

Definition merged_pairs (m : MergedSeries) : list (XORChunk.t * ChunkMeta) := zip (ms_chunks m) (ms_metas m).

Definition by_labels (rs : list QueryResult) : list (Labels.t * QueryResult) := (λ qr, (qr_labels qr, qr)) <$> rs.

Definition empty_series (l : Labels.t) : MergedSeries := mkMerged l [] [].

Definition bucket_of (rs : list QueryResult) (bucket : Bucket) : Prop :=
  Forall parallel rs ∧ grouped empty_series append_chunks (by_labels rs) bucket.

Lemma merge_results_eq rs qrs bucket :
  bucket_of rs bucket → Forall parallel qrs →
  ∃ bucket', merge_results qrs bucket = Some bucket' ∧ bucket_of (rs ++ qrs) bucket'.
Proof.
  intros Hb Hqrs. revert rs bucket Hb. induction Hqrs as [|qr qrs Hqr _ IH]; intros rs bucket [Hrs Hb].
  { exists bucket. by rewrite app_nil_r. }
  cbn [merge_results]. unfold parallel in Hqr. rewrite Hqr, Nat.ltb_irrefl. rewrite cons_middle, app_assoc. apply IH. split.
  - apply Forall_app_2; [done|]. by apply Forall_singleton.
  - unfold by_labels. rewrite fmap_app. by apply (grouped_snoc empty_series append_chunks).
Qed.

(** The series after all results with its labels. *)
Lemma appended_pairs qrs m :
  Forall parallel qrs → length (ms_chunks m) = length (ms_metas m) →
  let m' := foldl (λ m qr, append_chunks qr m) m qrs in
  ms_labels m' = ms_labels m ∧ length (ms_chunks m') = length (ms_metas m') ∧
  merged_pairs m' = merged_pairs m ++ (qrs ≫= pairs_of).
Proof.
  intros Hqrs. revert m. induction Hqrs as [|qr qrs Hqr _ IH]; intros m Hm; [by cbn; rewrite app_nil_r|]. cbn zeta in *. cbn [foldl].
  unfold parallel in Hqr. destruct (IH (append_chunks qr m)) as (Hl & Hlen & Hpairs).
  { unfold append_chunks. cbn [ms_chunks ms_metas]. rewrite !length_app, length_take. lia. }
  split_and!; [done|done|]. rewrite Hpairs, bind_cons, app_assoc. f_equal. unfold merged_pairs, append_chunks, pairs_of. cbn [ms_chunks ms_metas].
  rewrite take_ge by lia. by apply zip_with_app.
Qed.

(** ** Sorting one series *)

Lemma omap_seq {A} (l : list A) : omap (λ i, l !! i) (seq 0 (length l)) = l.
Proof.
  induction l as [|x l IH] using rev_ind; [done|]. rewrite length_app, Nat.add_1_r, seq_S, omap_app. cbn [omap list_omap].
  rewrite Nat.add_0_l, lookup_app_r, Nat.sub_diag by lia. f_equal. rewrite <- IH at 2. apply list_omap_ext, Forall2_same_length_lookup_2; [done|].
  intros i j k Hi Hj. assert (j = k) as -> by congruence. apply lookup_seq in Hj as [-> Hlt]. by rewrite lookup_app_l.
Qed.

Lemma omap_zip {A B} (l : list A) (k : list B) (order : list nat) :
  length l = length k →
  zip (omap (λ i, l !! i) order) (omap (λ i, k !! i) order) = omap (λ i, zip l k !! i) order.
Proof.
  intros Hlen. induction order as [|i order IH]; [done|]. cbn [omap list_omap].
  destruct (l !! i) as [x|] eqn:Hx.
  - assert (is_Some (k !! i)) as [y Hy] by (apply lookup_lt_is_Some; rewrite <- Hlen; by eapply lookup_lt_Some).
    assert (zip l k !! i = Some (x, y)) as -> by (apply lookup_zip_with_Some; eauto).
    rewrite Hy. cbn [zip zip_with]. by f_equal.
  - assert (k !! i = None) as Hy by (apply lookup_ge_None; rewrite <- Hlen; by apply lookup_ge_None).
    assert (zip l k !! i = None) as Hz by (apply lookup_zip_with_None; auto). by rewrite Hy, Hz.
Qed.

Lemma omap_sorted {A} (f : nat → option A) (key : A → Z) (order : list nat) :
  StronglySorted (λ a b, match f a with Some x => key x | None => 0 end <= match f b with Some y => key y | None => 0 end) order →
  StronglySorted (λ x y, key x <= key y) (omap f order).
Proof.
  induction 1 as [|i order _ IH Hi]; [constructor|]. cbn [omap list_omap]. destruct (f i) as [x|] eqn:Hx; [|done].
  constructor; [done|]. apply Forall_forall. intros y (j & Hj & Hy)%list_elem_of_omap. rewrite Forall_forall in Hi.
  specialize (Hi j Hj). cbn beta in Hi. by rewrite Hy in Hi.
Qed.

Lemma sort_series_spec `{StdOrderLaws} m :
  length (ms_chunks m) = length (ms_metas m) →
  let m' := sort_series m in
  ms_labels m' = ms_labels m ∧ length (ms_chunks m') = length (ms_metas m') ∧ merged_pairs m' ≡ₚ merged_pairs m ∧
  StronglySorted (λ a b, min_time a <= min_time b) (ms_metas m').
Proof.
  intros Hlen m'. unfold m', sort_series. set (time := λ i, match ms_metas m !! i with Some cm => min_time cm | None => 0 end).
  set (order := std_sort _ _). assert (order ≡ₚ seq 0 (length (ms_chunks m))) as Hperm by apply sort_perm.
  cbn [ms_labels ms_chunks ms_metas]. assert (merged_pairs (mkMerged (ms_labels m) (omap (λ i, ms_chunks m !! i) order) (omap (λ i, ms_metas m !! i) order)) ≡ₚ merged_pairs m) as Hpairs.
  { unfold merged_pairs. cbn [ms_chunks ms_metas]. rewrite omap_zip by done. rewrite Hperm.
    assert (length (ms_chunks m) = length (zip (ms_chunks m) (ms_metas m))) as -> by (rewrite length_zip; lia). by rewrite omap_seq. }
  split_and!; [done| |done|].
  - transitivity (length (ms_chunks m)); [|rewrite Hlen]; [rewrite Hperm, omap_seq|rewrite Hperm, Hlen, omap_seq]; done.
  - apply omap_sorted. apply (sort_sorted time). done.
Qed.

(** ** Blocks *)

(** Selecting changes nothing but the cache. *)
Definition same_block (b b' : Block.Block.t) : Prop :=
  Block.Block.dir_ b' = Block.Block.dir_ b ∧ Block.Block.meta_ b' = Block.Block.meta_ b.

Definition keeps_block {A} (m : Block.Block.M A) : Prop := ∀ b, same_block b (m b).2.

Lemma same_block_trans a b c : same_block a b → same_block b c → same_block a c.
Proof. intros [? ?] [? ?]. split; congruence. Qed.

Lemma keeps_ret {A} (a : A) : keeps_block (rret a).
Proof. by intros b. Qed.

Lemma keeps_bind {A B} (m : Block.Block.M A) (k : A → Block.Block.M B) :
  keeps_block m → (∀ a, keeps_block (k a)) → keeps_block (rbind m k).
Proof.
  intros Hm Hk b. unfold rbind. specialize (Hm b). destruct (m b) as [[a|e|] b']; cbn [snd] in *; [|done..].
  eapply same_block_trans; [exact Hm|apply Hk].
Qed.

Lemma keeps_read fs cm : keeps_block (Block.Block.read_xor fs cm).
Proof. intros b. unfold Block.Block.read_xor. by destruct (ChunkReader.read _ _ _). Qed.

Lemma keeps_chunks fs mint maxt cms : keeps_block (Block.select_chunks fs mint maxt cms).
Proof.
  induction cms as [|cm cms IH]; cbn [Block.select_chunks]; [apply keeps_ret|]. case_match; [done|].
  apply keeps_bind; [apply keeps_read|]. intros xc. apply keeps_bind; [done|]. intros rest. apply keeps_ret.
Qed.

Lemma keeps_ids fs mint maxt ids : keeps_block (Block.select_ids fs mint maxt ids).
Proof.
  induction ids as [|id ids IH]; cbn [Block.select_ids]; [apply keeps_ret|].
  apply keeps_bind; [by intros b|]. intros se. apply keeps_bind; [apply keeps_chunks|]. intros found.
  apply keeps_bind; [done|]. intros rest. apply keeps_ret.
Qed.

Lemma keeps_select `{RegexEngine} fs ms mint maxt : keeps_block (Block.select fs ms mint maxt).
Proof. intros b. unfold Block.select. destruct ms; [done|]. case_match; [apply keeps_ids|done|done]. Qed.

(** ** Sources *)

Section Sources.
Context `{RegexEngine} (chunk_dir : str → gmap str (list Z)).

(** The block [b] presents the series [vs], and its metadata cover them. *)
Definition presents (b : Block.Block.t) (vs : list view) : Prop :=
  block_of (chunk_dir (Block.Block.dir_ b)) vs b ∧
  ∀ v c, v ∈ vs → c ∈ vw_chunks v →
    BlockMeta.min_time (Block.Block.meta_ b) <= min_time c.1 ∧ max_time c.1 <= BlockMeta.max_time (Block.Block.meta_ b).

(** What the blocks behind [ptrs] have for a query. *)
Definition block_results (ms : list Matcher.t) (mint maxt : Z) (vss : list (list view)) (ptrs : list (option nat)) : list QueryResult :=
  omap id ptrs ≫= λ i, omap (result_of mint maxt) (filter (accepts ms) (default [] (vss !! i))).

Lemma parallel_found {A} (l : Labels.t) (f : A → XORChunk.t) (g : A → ChunkMeta) (found : list A) :
  parallel (mkQueryResult l (f <$> found) (g <$> found)).
Proof. unfold parallel. cbn [qr_chunks qr_metas]. by rewrite !length_fmap. Qed.

Lemma result_parallel mint maxt v qr : result_of mint maxt v = Some qr → parallel qr.
Proof.
  unfold result_of. destruct (filter _ _) as [|c cs]; [done|]. intros Heq. apply (inj Some) in Heq as <-. apply parallel_found.
Qed.

Lemma results_parallel ms mint maxt vs : Forall parallel (omap (result_of mint maxt) (filter (accepts ms) vs)).
Proof. apply Forall_forall. intros qr (v & _ & Hv)%list_elem_of_omap. by eapply result_parallel. Qed.

(** A block that is skipped has nothing in the range. *)
Lemma skipped_empty ms mint maxt b vs :
  presents b vs → out_of_range mint maxt (Block.Block.meta_ b) = true →
  omap (result_of mint maxt) (filter (accepts ms) vs) = [].
Proof.
  intros [_ Hspan] Hout. apply elem_of_nil_inv. intros qr (v & Hv & Hqr)%list_elem_of_omap. apply list_elem_of_filter in Hv as [_ Hv].
  unfold result_of in Hqr. destruct (filter _ _) as [|c cs] eqn:Hf; [done|].
  assert (c ∈ filter (λ c : ChunkMeta * list Z, overlaps mint maxt c.1 = true) (vw_chunks v)) as Hc by (rewrite Hf; left).
  apply list_elem_of_filter in Hc as [Ho Hc]. specialize (Hspan v c Hv Hc). unfold out_of_range, overlaps in *. lia.
Qed.

Lemma select_blocks_eq ms mint maxt ptrs vss blocks rs bucket :
  ms ≠ [] → Forall matcher_ok ms → Forall2 presents blocks vss →
  Forall (λ i, i < length blocks)%nat (omap id ptrs) → bucket_of rs bucket →
  ∃ bucket' blocks', select_blocks chunk_dir ms mint maxt ptrs bucket blocks = (Ok bucket', blocks') ∧
    Forall2 presents blocks' vss ∧ bucket_of (rs ++ block_results ms mint maxt vss ptrs) bucket'.
Proof.
  intros Hne Hms. revert blocks rs bucket. induction ptrs as [|[i|] ptrs IH]; intros blocks rs bucket Hall Hptrs Hb.
  - exists bucket, blocks. by rewrite app_nil_r.
  - cbn [omap list_omap id] in Hptrs. apply Forall_cons_1 in Hptrs as [Hi Hptrs]. cbn [select_blocks].
    destruct (lookup_lt_is_Some_2 blocks i Hi) as [b Hbi]. rewrite Hbi.
    destruct (Forall2_lookup_l _ _ _ _ _ Hall Hbi) as (vs & Hvs & Hpres).
    assert (block_results ms mint maxt vss (Some i :: ptrs) =
      omap (result_of mint maxt) (filter (accepts ms) vs) ++ block_results ms mint maxt vss ptrs) as ->.
    { unfold block_results. cbn [omap list_omap id]. by rewrite bind_cons, Hvs. }
    destruct (out_of_range mint maxt (Block.Block.meta_ b)) eqn:Hout.
    { rewrite (skipped_empty ms mint maxt b vs Hpres Hout). by apply IH. }
    destruct Hpres as [Hblock Hspan]. destruct (select_block _ vs ms mint maxt b Hblock Hne Hms) as (b' & Hsel & Hblock').
    pose proof (keeps_select (chunk_dir (Block.Block.dir_ b)) ms mint maxt b) as [Hdir Hmeta]. rewrite Hsel in Hdir, Hmeta |- *. cbn [snd] in *.
    destruct (merge_results_eq rs _ bucket Hb (results_parallel ms mint maxt vs)) as (bucket1 & Hmerge & Hb1).
    unfold merge_outcome. cbn [mbind outcome_bind]. rewrite Hmerge. rewrite app_assoc. apply IH; [|by rewrite length_insert|done].
    assert (presents b' vs) as Hpres' by (unfold presents; by rewrite Hdir, Hmeta).
    rewrite <- (list_insert_id vss i vs Hvs). by apply Forall2_insert.
  - by apply IH.
Qed.

(** ** Heads *)

Lemma Ok_inj {E A} (a b : A) : @Ok E A a = Ok b → a = b.
Proof. by intros [= ->]. Qed.

Lemma head_parallel ms mint maxt ss res : Head.select_series ms mint maxt ss = Ok res → Forall parallel res.
Proof.
  revert res. induction ss as [|s ss IH]; intros res; cbn [Head.select_series]; [by intros [= <-]|]. case_match; [apply IH|].
  destruct (Head.select_chunks _ _ _) as [found|e|]; [|done..]. cbn [mbind outcome_bind].
  destruct (Head.select_series ms mint maxt ss) as [rest|e|]; [|done..]. cbn [mbind outcome_bind].
  destruct found as [|x found]; intros Heq; apply Ok_inj in Heq as <-; [by apply IH|]. constructor; [apply parallel_found|by apply IH].
Qed.

Lemma select_heads_eq heads ms mint maxt ptrs rs bucket :
  ms ≠ [] → Forall (λ i, ∃ hd, heads !! i = Some hd ∧ store_ok (Head.series_ hd)) (omap id ptrs) → bucket_of rs bucket →
  ∃ bucket' hrs, select_heads heads ms mint maxt ptrs bucket = Ok bucket' ∧
    Forall2 (λ i res, ∃ hd, heads !! i = Some hd ∧ Head.select ms mint maxt hd = Ok res) (omap id ptrs) hrs ∧
    bucket_of (rs ++ concat hrs) bucket'.
Proof.
  intros Hne. revert rs bucket. induction ptrs as [|[i|] ptrs IH]; intros rs bucket Hptrs Hb.
  - exists bucket, []. split_and!; [done|constructor|]. cbn [concat]. by rewrite app_nil_r.
  - cbn [omap list_omap id] in *. apply Forall_cons_1 in Hptrs as [(hd & Hhd & Hok) Hptrs]. cbn [select_heads]. rewrite Hhd.
    destruct (select_series_spec ms mint maxt _ (store_ok_all _ Hok)) as (res & Hres & _).
    assert (Head.select ms mint maxt hd = Ok res) as Hsel by (unfold Head.select; by destruct ms).
    destruct (merge_results_eq rs res bucket Hb (head_parallel _ _ _ _ _ Hres)) as (bucket1 & Hmerge & Hb1).
    destruct (IH _ bucket1 Hptrs Hb1) as (bucket2 & hrs & Hrest & Hall & Hb2). exists bucket2, (res :: hrs).
    rewrite Hsel. unfold merge_outcome. cbn [mbind outcome_bind]. rewrite Hmerge. cbn [mbind outcome_bind]. split_and!; [done| |].
    + constructor; [eauto|done].
    + cbn [concat]. by rewrite app_assoc.
  - by apply IH.
Qed.

End Sources.

(** * The merge as a whole *)

(** [out] are the results [rs], one entry per label set, with all their chunks
    in the order of their first timestamps. *)
Definition merges (rs : list QueryResult) (out : list MergedSeries) : Prop :=
  NoDup (ms_labels <$> out) ∧ (∀ l, l ∈ (ms_labels <$> out) ↔ l ∈ (qr_labels <$> rs)) ∧
  ∀ m, m ∈ out →
    length (ms_chunks m) = length (ms_metas m) ∧ StronglySorted (λ a b, min_time a <= min_time b) (ms_metas m) ∧
    merged_pairs m ≡ₚ filter (λ qr, qr_labels qr = ms_labels m) rs ≫= pairs_of.

Lemma values_by_labels l rs : values_of l (by_labels rs) = filter (λ qr, qr_labels qr = l) rs.
Proof.
  unfold values_of, by_labels. induction rs as [|qr rs IH]; [done|]. rewrite fmap_cons, !filter_cons. cbn [fst].
  destruct (decide (qr_labels qr = l)); [|done]. by rewrite fmap_cons, IH.
Qed.

Lemma bucket_merges `{StdOrderLaws} rs bucket :
  bucket_of rs bucket → merges rs ((λ x : Labels.t * MergedSeries, sort_series x.2) <$> visit bucket).
Proof.
  intros [Hrs (Hnd & Hkeys & Hvals)]. assert (∀ x, x ∈ bucket → length (ms_chunks x.2) = length (ms_metas x.2) ∧ ms_labels x.2 = x.1 ∧
    merged_pairs x.2 = filter (λ qr, qr_labels qr = x.1) rs ≫= pairs_of) as Hx.
  { intros [l m] Hin. rewrite (Hvals l m Hin), values_by_labels. cbn [fst snd].
    destruct (appended_pairs (filter (λ qr, qr_labels qr = l) rs) (empty_series l)) as (Hl & Hlen & Hp); [|done|done].
    apply Forall_forall. intros qr [_ Hqr]%list_elem_of_filter. rewrite Forall_forall in Hrs. by apply Hrs. }
  assert (ms_labels <$> ((λ x : Labels.t * MergedSeries, sort_series x.2) <$> visit bucket) ≡ₚ bucket.*1) as Hlabels.
  { rewrite visit_perm. rewrite <- list_fmap_compose. apply reflexive_eq, list_fmap_ext. intros i x Hin%list_elem_of_lookup_2.
    destruct (Hx x Hin) as (Hlen & Hl & _). unfold compose. destruct (sort_series_spec x.2 Hlen) as (-> & _). done. }
  split_and!.
  - by rewrite Hlabels.
  - intros l. rewrite Hlabels, Hkeys. unfold by_labels. by rewrite <- list_fmap_compose.
  - intros m Hm. apply list_elem_of_fmap in Hm as (x & -> & Hin). rewrite visit_perm in Hin.
    destruct (Hx x Hin) as (Hlen & Hl & Hp). destruct (sort_series_spec x.2 Hlen) as (Hl' & Hlen' & Hp' & Hs).
    split_and!; [done|done|]. by rewrite Hp', Hp, Hl', Hl.
Qed.

(** A query as a whole. *)
Lemma querier_merges `{RegexEngine} `{StdOrderLaws} (chunk_dir : str → gmap str (list Z)) (heads : list Head.t)
    (ms : list Matcher.t) (mint maxt : Z) (q : Querier.t) (blocks : list Block.Block.t) (vss : list (list view)) :
  ms ≠ [] → Forall matcher_ok ms → Forall2 (presents chunk_dir) blocks vss →
  Forall (λ i, i < length blocks)%nat (omap id (blocks_ q)) →
  Forall (λ i, ∃ hd, heads !! i = Some hd ∧ store_ok (Head.series_ hd)) (omap id (heads_ q)) →
  ∃ out blocks' hrs, Querier.select chunk_dir heads ms mint maxt q blocks = (Ok out, blocks') ∧
    Forall2 (presents chunk_dir) blocks' vss ∧
    Forall2 (λ i res, ∃ hd, heads !! i = Some hd ∧ Head.select ms mint maxt hd = Ok res) (omap id (heads_ q)) hrs ∧
    merges (block_results ms mint maxt vss (blocks_ q) ++ concat hrs) out.
Proof.
  intros Hne Hms Hblocks Hptrs Hheads.
  destruct (select_blocks_eq chunk_dir ms mint maxt (blocks_ q) vss blocks [] [] Hne Hms Hblocks Hptrs) as (bucket1 & blocks' & Hsel & Hpres & Hb1);
    [split; [constructor|apply grouped_nil]|].
  destruct (select_heads_eq heads ms mint maxt (heads_ q) _ bucket1 Hne Hheads Hb1) as (bucket2 & hrs & Hsel2 & Hhrs & Hb2).
  eexists _, blocks', hrs. split_and!; [|done|done|by apply bucket_merges].
  unfold Querier.select. rewrite Hsel, Hsel2. by destruct ms.
Qed.

End QuerierFacts.

Module QuerierProps.
Import Querier HeadFacts BlockSelect.BlockSelectFacts QuerierFacts.

(** C23: the querier. Over valid blocks, whose metadata cover their series, and
    valid heads, null pointers among them, a query with at least one matcher
    succeeds: it returns every label set of any source once, with exactly the
    chunks that the blocks present and the heads return for the query, none
    lost to the skipping of blocks by their metadata, and in the order of their
    first timestamps, whatever order the hash map and the sort choose
    otherwise. The blocks present the same series afterwards, whatever their
    chunk readers have cached. *)
Theorem querier_select `{RegexEngine} `{StdOrderLaws} (chunk_dir : str → gmap str (list Z)) (heads : list Head.t)
    (ms : list Matcher.t) (mint maxt : Z) (q : Querier.t) (blocks : list Block.Block.t) (vss : list (list view)) :
  ms ≠ [] → Forall matcher_ok ms → Forall2 (presents chunk_dir) blocks vss →
  Forall (λ i, i < length blocks)%nat (omap id (blocks_ q)) →
  Forall (λ i, ∃ hd, heads !! i = Some hd ∧ store_ok (Head.series_ hd)) (omap id (heads_ q)) →
  ∃ out blocks' hrs, Querier.select chunk_dir heads ms mint maxt q blocks = (Ok out, blocks') ∧
    Forall2 (presents chunk_dir) blocks' vss ∧
    Forall2 (λ i res, ∃ hd, heads !! i = Some hd ∧ Head.select ms mint maxt hd = Ok res) (omap id (heads_ q)) hrs ∧
    merges (block_results ms mint maxt vss (blocks_ q) ++ concat hrs) out.
Proof. apply querier_merges. Qed.

#[local] Instance exact_engine : RegexEngine := {| std_regex := str; regex_compile := Some; regex_match p s := bool_decide (p = s) |}.
#[local] Existing Instance plain_order.
#[local] Existing Instance TreeJson.tree_laws.
#[local] Existing Instance BlockCreate.BlockCreateFacts.series_input_ok_dec.

(** A block with one series and a head with another sample of it. *)
Lemma querier_select_witness :
  let head := sample_head [mkLabel [97] [98]] 50 7 in
  let ms := [Matcher.equal [97] [98]] in
  let q := Querier.of_sources [Some 0%nat; None; Some 0%nat] [Some 0%nat] in
  ∃ chunk_dir b vs, presents chunk_dir b vs ∧ length vs = 1%nat ∧
    ∃ out blocks' hrs, Querier.select chunk_dir [head] ms 0 100 q [b] = (Ok out, blocks') ∧
      Forall2 (presents chunk_dir) blocks' [vs] ∧
      Forall2 (λ i res, ∃ hd, [head] !! i = Some hd ∧ Head.select ms 0 100 hd = Ok res) [0%nat] hrs ∧
      merges (block_results ms 0 100 [vs] [Some 0%nat; None; Some 0%nat] ++ concat hrs) out.
Proof.
  intros head ms q. set (series := [Block.mkSeriesInput [mkLabel [97] [98]] [Block.mkChunkInput 5 9 [0; 1; 7]]]).
  destruct (BlockCreate.BlockCreateFacts.created (J := TreeJson.tree_json) 1700000000000 [1; 2; 3] series (Block.mkDisk ∅ []))
    as (d & dir & b & _ & _ & _ & (files & fs & vs & Hdir & _ & Hb & Hblock & Hshows) & _ & _ & _ & _ & _ & _ & _ & Hspan).
  { reflexivity. }
  { reflexivity. }
  { split; [apply (bool_decide_unpack _); vm_compute; exact I|]. split; [vm_compute; discriminate|vm_compute; reflexivity]. }
  assert (presents (λ _, fs) b vs) as Hpres.
  { split; [done|]. intros v c Hv Hc. apply list_elem_of_lookup in Hv as [i Hi].
    destruct (Forall2_lookup_r _ _ _ _ _ Hshows Hi) as (s & Hs%list_elem_of_lookup_2 & _ & Heq).
    apply list_elem_of_filter in Hs as [_ Hs]. apply (Hspan s (BlockCreate.BlockCreateFacts.input_of c) Hs).
    rewrite <- Heq. by apply list_elem_of_fmap_2. }
  exists (λ _, fs), b, vs. split; [done|]. split; [by apply Forall2_length in Hshows; rewrite <- Hshows|].
  apply (querier_select (λ _, fs) [head] ms 0 100 q [b] [vs]); [done| | |repeat constructor|].
  - constructor; [|constructor]. split; [|done]. apply (bool_decide_unpack _). vm_compute. exact I.
  - apply Forall2_cons_2; [exact Hpres|apply Forall2_nil_2].
  - constructor; [|constructor]. exists head. split; [done|].
    apply sample_head_store; [vm_compute; eexists; reflexivity|reflexivity].
Defined.

(** No matchers are refused before any source is asked. *)
Lemma no_matchers `{RegexEngine} `{StdOrder} chunk_dir heads mint maxt q blocks :
  Querier.select chunk_dir heads [] mint maxt q blocks = (Err invalid_argument, blocks).
Proof. done. Qed.

End QuerierProps.
