(* ===== verification/EndToEnd.v ===== *)
(** What a user of the database sees: some heads have been flushed to blocks,
    others are still in memory, and a querier over all of them answers with the
    samples that were appended. The file composes the contracts of [Flush],
    [BlockSelect], [Head] and [Querier]; it has no definitions that model code. *)

From S2P Require Import Prelude Ordered Sorted Containers Files Bytes Labels Matcher BStream Xor Segment Chunks Query Index IndexWriter Ulid Meta MemSeries SeriesStore Head Block BlockSelect BlockIndex BlockCreate Compact Flush Merge Pipeline Querier.

Module EndToEndFacts.
Import HeadFacts MemSeriesFacts BlockSelectFacts BlockCreateFacts FlushFacts MergeFacts MergeProps PipelineFacts QuerierFacts.

(** The samples in the chunks that the querier returns for the labels [l]. *)
Definition merged_samples (l : Labels.t) (out : list MergedSeries) : list (Z * Z) :=
  filter (λ m, ms_labels m = l) out ≫= λ m, ms_chunks m ≫= λ c, default [] (chunk_list c).

Lemma elem_merged l out x :
  x ∈ merged_samples l out ↔ ∃ m c, m ∈ out ∧ ms_labels m = l ∧ c ∈ ms_chunks m ∧ x ∈ default [] (chunk_list c).
Proof.
  unfold merged_samples. rewrite list_elem_of_bind. split.
  - intros (m & (c & Hx & Hc)%list_elem_of_bind & [Hl Hm]%list_elem_of_filter). by exists m, c.
  - intros (m & c & Hm & Hl & Hc & Hx). exists m. split; [|by apply list_elem_of_filter]. apply list_elem_of_bind. by exists c.
Qed.

Lemma elem_result l rs x :
  x ∈ result_samples l rs ↔ ∃ qr c, qr ∈ rs ∧ qr_labels qr = l ∧ c ∈ qr_chunks qr ∧ x ∈ default [] (chunk_list c).
Proof.
  unfold result_samples. rewrite list_elem_of_bind. split.
  - intros (qr & (c & Hx & Hc)%list_elem_of_bind & [Hl Hqr]%list_elem_of_filter). by exists qr, c.
  - intros (qr & c & Hqr & Hl & Hc & Hx). exists qr. split; [|by apply list_elem_of_filter]. apply list_elem_of_bind. by exists c.
Qed.

Lemma elem_zip_fst {A B} (l : list A) (k : list B) x : length l = length k → x ∈ l ↔ ∃ p, p ∈ zip l k ∧ p.1 = x.
Proof.
  intros Hlen. rewrite <- (fst_zip l k) at 1 by lia. rewrite list_elem_of_fmap. split; intros (p & ? & ?); by exists p.
Qed.

(** Merging results moves chunks around and nothing else. *)
Lemma merges_samples rs out l x :
  Forall parallel rs → merges rs out → x ∈ merged_samples l out ↔ x ∈ result_samples l rs.
Proof.
  intros Hpar (_ & Hlabels & Hall). rewrite elem_merged, elem_result. rewrite Forall_forall in Hpar. split.
  - intros (m & c & Hm & <- & Hc & Hx). destruct (Hall m Hm) as (Hlen & _ & Hperm).
    apply (elem_zip_fst _ _ _ Hlen) in Hc as (p & Hp & <-). unfold merged_pairs in Hperm. rewrite Hperm in Hp.
    apply list_elem_of_bind in Hp as (qr & Hp & [Hl Hqr]%list_elem_of_filter). exists qr, p.1. split_and!; [done..| |done].
    apply (elem_zip_fst _ _ _ (Hpar qr Hqr)). by exists p.
  - intros (qr & c & Hqr & Hl & Hc & Hx). assert (l ∈ ms_labels <$> out) as (m & -> & Hm)%list_elem_of_fmap.
    { apply Hlabels. rewrite <- Hl. by apply list_elem_of_fmap_2. }
    destruct (Hall m Hm) as (Hlen & _ & Hperm). exists m, c. split_and!; [done..| |done]. apply (elem_zip_fst _ _ _ Hlen).
    apply (elem_zip_fst _ _ _ (Hpar qr Hqr)) in Hc as (p & Hp & <-). exists p. split; [|done]. unfold merged_pairs in Hperm. rewrite Hperm.
    apply list_elem_of_bind. exists qr. split; [done|]. by apply list_elem_of_filter.
Qed.

Lemma result_samples_app l a b : result_samples l (a ++ b) = result_samples l a ++ result_samples l b.
Proof. unfold result_samples. by rewrite filter_app, bind_app. Qed.

(** ** What one source answers *)

(** [rs] are the samples that [held] holds, in the range and for the label sets
    that are accepted. *)
Definition answers `{RegexEngine} (ms : list Matcher.t) (mint maxt : Z) (held : Labels.t → list (Z * Z)) (rs : list QueryResult) : Prop :=
  ∀ l x, mint <= x.1 <= maxt → x ∈ result_samples l rs ↔ labels_match_all l ms = true ∧ x ∈ held l.

Section Answers.
Context `{RegexEngine} (ms : list Matcher.t) (mint maxt : Z).

Lemma answers_nil : answers ms mint maxt (λ _, []) [].
Proof. intros l x _. split; [by intros ?%elem_of_nil|by intros [_ ?%elem_of_nil]]. Qed.

Lemma answers_app f g a b :
  answers ms mint maxt f a → answers ms mint maxt g b → answers ms mint maxt (λ l, f l ++ g l) (a ++ b).
Proof. intros Ha Hb l x Hx. rewrite result_samples_app, !elem_of_app, (Ha l x Hx), (Hb l x Hx). tauto. Qed.

Lemma answers_ext f g rs : (∀ l, f l = g l) → answers ms mint maxt f rs → answers ms mint maxt g rs.
Proof. intros Hfg Hf l x Hx. by rewrite <- Hfg, (Hf l x Hx). Qed.

Lemma answers_concat {A} (f : A → Labels.t → list (Z * Z)) xs rss :
  Forall2 (λ x rs, answers ms mint maxt (f x) rs) xs rss → answers ms mint maxt (λ l, xs ≫= λ x, f x l) (concat rss).
Proof.
  induction 1 as [|x rs xs rss Hx _ IH]; [apply answers_nil|]. cbn [concat].
  apply (answers_ext (λ l, f x l ++ (xs ≫= λ x, f x l))); [done|]. by apply answers_app.
Qed.

(** A block answers with the samples of its series. *)
Lemma block_answers series vs :
  Forall in_order series → Forall2 shows (with_chunks series) vs →
  answers ms mint maxt (samples_in series) (omap (result_of mint maxt) (filter (accepts ms) vs)).
Proof.
  intros Hord Hshows l x Hx. rewrite Forall_forall in Hord. rewrite result_samples_eq, list_elem_of_bind. unfold samples_in. rewrite list_elem_of_bind. split.
  - intros (v & Hin & [Hl [Ha Hv]%list_elem_of_filter]%list_elem_of_filter). unfold accepts in Ha. rewrite Hl in Ha. split; [done|].
    apply list_elem_of_lookup in Hv as [i Hv]. destruct (Forall2_lookup_r _ _ _ _ _ Hshows Hv) as (si & Hsi & Hshow).
    apply list_elem_of_lookup_2, list_elem_of_filter in Hsi as [_ Hsi]. exists si.
    rewrite (view_samples_in mint maxt si v Hshow (Hord si Hsi) x Hx) in Hin. destruct Hshow as [Hvl _].
    split; [done|]. apply list_elem_of_filter. split; [congruence|done].
  - intros (Hm & si & Hin & [Hl Hsi]%list_elem_of_filter). assert (si ∈ with_chunks series) as Hw.
    { apply list_elem_of_filter. split; [|done]. intros Hnil. rewrite Hnil in Hin. by apply elem_of_nil in Hin. }
    apply list_elem_of_lookup in Hw as [i Hw]. destruct (Forall2_lookup_l _ _ _ _ _ Hshows Hw) as (v & Hv%list_elem_of_lookup_2 & Hshow).
    exists v. rewrite (view_samples_in mint maxt si v Hshow (Hord si Hsi) x Hx). split; [done|]. destruct Hshow as [Hvl _].
    apply list_elem_of_filter. split; [congruence|]. apply list_elem_of_filter. split; [|done]. unfold accepts. congruence.
Qed.

Lemma elem_qr_samples qr x : (∃ c, c ∈ qr_chunks qr ∧ x ∈ default [] (chunk_list c)) ↔ qr_sample qr x.
Proof.
  unfold qr_sample. split.
  - intros (c & Hc & Hx). destruct (chunk_list c) as [ss|] eqn:Hss; [|by apply elem_of_nil in Hx]. by exists c, ss.
  - intros (c & ss & Hc & Hss & Hx). exists c. by rewrite Hss.
Qed.

(** A head answers with the samples of its abstract state. *)
Lemma head_answers h res :
  ms ≠ [] → store_ok (Head.series_ h) → Head.select ms mint maxt h = Ok res → answers ms mint maxt (head_samples h) res.
Proof.
  intros Hne Hst Hsel l x Hx. pose proof (store_ok_all _ Hst) as Hall.
  destruct (select_series_spec ms mint maxt _ Hall) as (res' & Hres & Hsound & Hcomplete).
  assert (Head.select_series ms mint maxt (SeriesStore.all_series (Head.series_ h)) = Ok res) as Hser by (unfold Head.select in Hsel; by destruct ms).
  assert (res' = res) as -> by (rewrite Hser in Hres; by injection Hres). clear Hres.
  unfold head_samples. rewrite <- (stored_samples_view _ l Hst), elem_result. unfold stored_samples. rewrite list_elem_of_bind.
  pose proof (proj1 (Forall_forall _ _) Hsound) as Hsound'. pose proof (proj1 (Forall_forall _ _) Hall) as Hall'. split.
  - intros (qr & c & Hqr & Hl & Hc). destruct (Hsound' qr Hqr) as (s & samples & Hs & Hss & Hm & Hfound & Hin). destruct Hfound as [Hls _].
    split; [congruence|]. exists s. rewrite (represents_read _ _ (proj1 Hss)). split; [apply Hin, elem_qr_samples; by exists c|].
    apply list_elem_of_filter. split; [congruence|done].
  - intros (Hm & s & Hin & [Hl Hs]%list_elem_of_filter). destruct (Hall' s Hs) as (samples & Hss).
    rewrite (represents_read _ _ (proj1 Hss)) in Hin. rewrite <- Hl in Hm.
    destruct (Hcomplete s samples x Hs Hss Hm Hin Hx) as (qr & Hqr & Hlq & Hsam). apply elem_qr_samples in Hsam as (c & Hc). exists qr, c.
    split_and!; [done|congruence|apply Hc|apply Hc].
Qed.

End Answers.

(** ** All sources *)

(** The chunk files of the blocks on a disk. *)
Definition chunk_files (d : Disk) (dir : str) : gmap str (list Z) := default ∅ (dir_chunks (dir_of dir d)).

(** The block of a job is a source of the querier that answers as the head. *)
Lemma flushed_source `{Json} j x d :
  block_holds (job_ulid j) d x.1 x.2 → flushed j x →
  ∃ vs, Block.open (job_ulid j) d = Ok x.2 ∧ presents (chunk_files d) x.2 vs ∧
    ∀ (E : RegexEngine) ms mint maxt, answers ms mint maxt (head_samples j.2) (omap (result_of mint maxt) (filter (accepts ms) vs)).
Proof.
  intros (files & fs & vs & Hdir & Hopen & Hb & Hblock & Hshows) (_ & Hsam & _ & _ & Hord & Hspan). exists vs. split; [done|]. split.
  - split. { unfold chunk_files, dir_of. by rewrite Hb, Hdir. }
    intros v c Hv Hc. apply list_elem_of_lookup in Hv as [i Hi].
    destruct (Forall2_lookup_r _ _ _ _ _ Hshows Hi) as (s & [_ Hs]%list_elem_of_lookup_2%list_elem_of_filter & _ & Heq).
    apply (Hspan s (input_of c) Hs). rewrite <- Heq. by apply list_elem_of_fmap_2.
  - intros E ms mint maxt. eapply answers_ext; [exact Hsam|]. by apply block_answers.
Qed.

Lemma flushed_sources `{Json} jobs xs d :
  Forall2 (λ j x, block_holds (job_ulid j) d x.1 x.2 ∧ flushed j x) jobs xs →
  ∃ vss, Forall2 (λ dir b, Block.open dir d = Ok b) (job_ulid <$> jobs) xs.*2 ∧ Forall2 (presents (chunk_files d)) xs.*2 vss ∧
    ∀ (E : RegexEngine) ms mint maxt,
      answers ms mint maxt (λ l, jobs ≫= λ j, head_samples j.2 l) (vss ≫= λ vs, omap (result_of mint maxt) (filter (accepts ms) vs)).
Proof.
  induction 1 as [|j x jobs xs [Hholds Hfl] _ (vss & Hopen & Hpres & Hans)].
  { exists []. split_and!; [constructor|constructor|]. intros. apply answers_nil. }
  destruct (flushed_source j x d Hholds Hfl) as (vs & Hopen1 & Hpres1 & Hans1). exists (vs :: vss). rewrite !fmap_cons.
  split_and!; [by constructor|by constructor|]. intros E ms mint maxt. rewrite bind_cons. 
  apply (answers_ext ms mint maxt (λ l, head_samples j.2 l ++ (jobs ≫= λ j, head_samples j.2 l))); [done|]. by apply answers_app.
Qed.

Lemma bind_seq {A B} (f : A → list B) (d : A) (xs : list A) : (seq 0 (length xs) ≫= λ i, f (default d (xs !! i))) = xs ≫= f.
Proof. induction xs as [|x xs IH]; [done|]. cbn [length seq]. rewrite <- fmap_S_seq, !bind_cons, bind_fmap. by f_equal. Qed.

Lemma omap_some {A} (xs : list A) : omap id (Some <$> xs) = xs.
Proof. induction xs as [|x xs IH]; [done|]. rewrite fmap_cons, omap_cons. cbn [id]. by rewrite IH. Qed.

(** The querier over all of [blocks] and [heads]. *)
Definition over (blocks : list Block.t) (heads : list Head.t) : Querier.t :=
  Querier.of_sources (Some <$> seq 0 (length blocks)) (Some <$> seq 0 (length heads)).

Lemma heads_answer `{RegexEngine} ms mint maxt heads hrs :
  ms ≠ [] → Forall (λ h, store_ok (Head.series_ h)) heads →
  Forall2 (λ i res, ∃ hd, heads !! i = Some hd ∧ Head.select ms mint maxt hd = Ok res) (seq 0 (length heads)) hrs →
  answers ms mint maxt (λ l, heads ≫= λ h, head_samples h l) (concat hrs).
Proof.
  intros Hne Hheads Hall. apply (answers_concat ms mint maxt (λ h l, head_samples h l)). apply Forall2_same_length_lookup. split.
  { rewrite <- (Forall2_length _ _ _ Hall). by rewrite length_seq. }
  intros i h res Hh Hres. destruct (Forall2_lookup_r _ _ _ _ _ Hall Hres) as (k & [-> _]%lookup_seq & hd & Hhd & Hsel).
  cbn in Hhd. rewrite Hh in Hhd. injection Hhd as <-. apply head_answers; [done| |done]. apply (Forall_lookup_1 _ _ _ _ Hheads Hh).
Qed.

(** One query. *)
Lemma query_answers `{RegexEngine} `{StdOrderLaws} chunk_dir heads ms mint maxt blocks vss held :
  ms ≠ [] → Forall matcher_ok ms → Forall2 (presents chunk_dir) blocks vss → Forall (λ h, store_ok (Head.series_ h)) heads →
  answers ms mint maxt held (vss ≫= λ vs, omap (result_of mint maxt) (filter (accepts ms) vs)) →
  ∃ out blocks', Querier.select chunk_dir heads ms mint maxt (over blocks heads) blocks = (Ok out, blocks') ∧
    Forall2 (presents chunk_dir) blocks' vss ∧ NoDup (ms_labels <$> out) ∧
    Forall (λ m, StronglySorted (λ a b, min_time a <= min_time b) (ms_metas m)) out ∧
    ∀ l x, mint <= x.1 <= maxt →
      x ∈ merged_samples l out ↔ labels_match_all l ms = true ∧ x ∈ held l ++ (heads ≫= λ h, head_samples h l).
Proof.
  intros Hne Hms Hblocks Hheads Hheld.
  destruct (querier_merges chunk_dir heads ms mint maxt (over blocks heads) blocks vss Hne Hms Hblocks) as (out & blocks' & hrs & Hsel & Hpres & Hhrs & Hmerges).
  { unfold over. cbn [Querier.blocks_ Querier.of_sources]. rewrite omap_some. apply Forall_forall. intros i Hi%elem_of_seq. lia. }
  { unfold over. cbn [Querier.heads_ Querier.of_sources]. rewrite omap_some. apply Forall_forall. intros i Hi%elem_of_seq.
    destruct (lookup_lt_is_Some_2 heads i) as [h Hh]; [lia|]. exists h. split; [done|]. apply (Forall_lookup_1 _ _ _ _ Hheads Hh). }
  unfold over in Hhrs, Hmerges. cbn [Querier.heads_ Querier.blocks_ Querier.of_sources] in Hhrs, Hmerges. rewrite omap_some in Hhrs.
  assert (block_results ms mint maxt vss (Some <$> seq 0 (length blocks)) = vss ≫= λ vs, omap (result_of mint maxt) (filter (accepts ms) vs)) as Heq.
  { unfold block_results. rewrite omap_some, (Forall2_length _ _ _ Hblocks). apply (bind_seq (λ vs, omap (result_of mint maxt) (filter (accepts ms) vs))). }
  rewrite Heq in Hmerges. exists out, blocks'. pose proof Hmerges as (Hnd & _ & Hsorted).
  split_and!; [done|done|done|apply Forall_forall; intros m Hm; by apply (Hsorted m Hm)|].
  assert (Forall parallel (concat hrs)) as Hpar.
  { apply Forall_concat. eapply Forall2_Forall_r; [exact Hhrs|]. apply Forall_forall. intros i _ res (h & _ & Hsel').
    unfold Head.select in Hsel'. destruct ms; [done|]. by eapply head_parallel. }
  intros l x Hx. etransitivity; [eapply (merges_samples _ _ l x); [|exact Hmerges]|].
  { apply Forall_app. split; [|exact Hpar]. apply Forall_bind, Forall_forall. intros vs _. apply results_parallel. }
  apply (answers_app ms mint maxt held (λ l, heads ≫= λ h, head_samples h l)); [done| |done]. by apply heads_answer.
Qed.

(** A sequence of queries on the same objects, each with its matchers and range. *)
Fixpoint ask_all `{RegexEngine} `{StdOrder} (chunk_dir : str → gmap str (list Z)) (heads : list Head.t) (q : Querier.t)
    (qs : list (list Matcher.t * Z * Z)) : Querier.M (list (list MergedSeries)) :=
  match qs with
  | [] => rret []
  | (ms, mint, maxt) :: qs =>
      out <~ Querier.select chunk_dir heads ms mint maxt q ;; outs <~ ask_all chunk_dir heads q qs ;; rret (out :: outs)
  end.

(** The answer [out] to a query on what [held] holds. *)
Definition answered `{RegexEngine} (held : Labels.t → list (Z * Z)) (query : list Matcher.t * Z * Z) (out : list MergedSeries) : Prop :=
  NoDup (ms_labels <$> out) ∧ Forall (λ m, StronglySorted (λ a b, min_time a <= min_time b) (ms_metas m)) out ∧
  ∀ l x, query.1.2 <= x.1 <= query.2 → x ∈ merged_samples l out ↔ labels_match_all l query.1.1 = true ∧ x ∈ held l.

Lemma asked_all `{RegexEngine} `{StdOrderLaws} chunk_dir heads blocks vss held qs :
  Forall (λ query : list Matcher.t * Z * Z, query.1.1 ≠ [] ∧ Forall matcher_ok query.1.1) qs →
  Forall2 (presents chunk_dir) blocks vss → Forall (λ h, store_ok (Head.series_ h)) heads →
  (∀ ms mint maxt, answers ms mint maxt held (vss ≫= λ vs, omap (result_of mint maxt) (filter (accepts ms) vs))) →
  ∃ outs blocks', ask_all chunk_dir heads (over blocks heads) qs blocks = (Ok outs, blocks') ∧
    Forall2 (answered (λ l, held l ++ (heads ≫= λ h, head_samples h l))) qs outs.
Proof.
  intros Hqs Hblocks Hheads Hheld. revert blocks Hblocks.
  induction Hqs as [|[[ms mint] maxt] qs [Hne Hms] _ IH]; intros blocks Hblocks; [by exists [], blocks|].
  destruct (query_answers chunk_dir heads ms mint maxt blocks vss held Hne Hms Hblocks Hheads (Hheld ms mint maxt))
    as (out & blocks1 & Hsel & Hpres & Hspec).
  destruct (IH blocks1 Hpres) as (outs & blocks2 & Hrest & Hall).
  assert (over blocks heads = over blocks1 heads) as Hover by (unfold over; by rewrite (Forall2_length _ _ _ Hblocks), (Forall2_length _ _ _ Hpres)).
  exists (out :: outs), blocks2. split; [|constructor; [exact Hspec|exact Hall]].
  cbn [ask_all]. rewrite (rbind_ok _ _ _ _ _ Hsel), Hover. by rewrite (rbind_ok _ _ _ _ _ Hrest).
Qed.

End EndToEndFacts.

Module EndToEndProps.
Import HeadFacts BlockSelectFacts PipelineFacts QuerierFacts EndToEndFacts.

(** C5: the database as its user sees it. On a disk where no call fails and
    the new names are free and distinct, heads in the state appending leaves
    them in are flushed to a block each; the blocks open; and a querier over
    all of these blocks and over other heads still in memory answers every
    query of a sequence with at least one matcher each, whatever the blocks
    have cached on the way: every label set once, its chunks in the order of
    their first timestamps, and in the range of the query exactly the samples
    that some head, flushed or not, holds for the label sets that the matchers
    accept. No sample is lost or invented between [Head.append] and the
    answer, by the skipping of blocks and chunks out of range neither. *)
Theorem querier_sees_all `{JsonLaws} `{RegexEngine} `{StdOrderLaws} (jobs : list job) (heads : list Head.t) (d : Disk) :
  calls d = [] → NoDup (job_ulid <$> jobs) → Forall (λ j, dirs d !! job_ulid j = None ∧ head_ok j.2) jobs →
  Forall (λ h, store_ok (Head.series_ h)) heads →
  ∃ ds d1 blocks, flush_all jobs d = (Ok ds, d1) ∧ Forall2 (λ dir b, Block.open dir d1 = Ok b) ds blocks ∧
    ∀ qs : list (list Matcher.t * Z * Z), Forall (λ query, query.1.1 ≠ [] ∧ Forall matcher_ok query.1.1) qs →
      ∃ outs blocks', ask_all (chunk_files d1) heads (over blocks heads) qs blocks = (Ok outs, blocks') ∧
        Forall2 (answered (λ l, (jobs ≫= λ j, head_samples j.2 l) ++ (heads ≫= λ h, head_samples h l))) qs outs.
Proof.
  intros Hcalls Hnd Hjobs Hheads. destruct (flush_all_eq jobs d Hcalls Hnd Hjobs) as (d1 & xs & Hflush & _ & _ & Hall).
  destruct (flushed_sources jobs xs d1 Hall) as (vss & Hopen & Hpres & Hans).
  exists (job_ulid <$> jobs), d1, xs.*2. split; [done|]. split; [done|]. intros qs Hqs. by apply (asked_all _ _ _ vss).
Qed.

#[local] Instance exact_engine : RegexEngine := {| std_regex := str; regex_compile := Some; regex_match p s := bool_decide (p = s) |}.
#[local] Existing Instance plain_order.
#[local] Existing Instance TreeJson.tree_laws.

(** A series in a block and in two heads, asked for twice. *)
Lemma querier_sees_all_witness :
  let jobs := [(1700000000000, [1; 2; 3], sample_head [mkLabel [97] [98]] 50 7)] in
  let heads := [sample_head [mkLabel [97] [98]] 60 9; sample_head [mkLabel [97] [99]] 70 1] in
  let qs := [([Matcher.equal [97] [98]], 0, 100); ([Matcher.equal [97] [98]], 0, 55)] in
  ∃ ds d1 blocks, flush_all (H := TreeJson.tree_json) jobs (mkDisk ∅ []) = (Ok ds, d1) ∧
    Forall2 (λ dir b, Block.open (H := TreeJson.tree_json) dir d1 = Ok b) ds blocks ∧
    ∃ outs blocks', ask_all (chunk_files d1) heads (over blocks heads) qs blocks = (Ok outs, blocks') ∧
      Forall2 (answered (λ l, (jobs ≫= λ j, head_samples j.2 l) ++ (heads ≫= λ h, head_samples h l))) qs outs ∧
      (jobs ≫= λ j, head_samples j.2 [mkLabel [97] [98]]) ++ (heads ≫= λ h, head_samples h [mkLabel [97] [98]]) = [(50, 7); (60, 9)].
Proof.
  intros jobs heads qs.
  destruct (querier_sees_all (J := TreeJson.tree_json) (O0 := plain_order) jobs heads (mkDisk ∅ [])) as (ds & d1 & blocks & Hflush & Hopen & Hask).
  - reflexivity.
  - apply (bool_decide_unpack _). vm_compute. exact I.
  - apply Forall_cons_2; [|apply Forall_nil_2]. split; [reflexivity|].
    apply sample_head_ok; [vm_compute; eexists; reflexivity|vm_compute; reflexivity].
  - apply Forall_cons_2; [|apply Forall_cons_2; [|apply Forall_nil_2]]; apply sample_head_store; [vm_compute; eexists; reflexivity|reflexivity|vm_compute; eexists; reflexivity|reflexivity].
  - exists ds, d1, blocks. split; [exact Hflush|]. split; [exact Hopen|]. destruct (Hask qs) as (outs & blocks' & Hasked & Hall).
    { apply Forall_cons_2; [|apply Forall_cons_2; [|apply Forall_nil_2]]; (split; [discriminate|]; apply Forall_cons_2; [|apply Forall_nil_2]);
        (split; [apply (bool_decide_unpack _); vm_compute; exact I|done]). }
    exists outs, blocks'. split; [exact Hasked|]. split; [exact Hall|]. vm_compute. reflexivity.
Defined.

End EndToEndProps.
